(* ===== verification/_CoqProject ===== *)
-Q . S2P
Prelude.v
CxxStrings.v
Config.v
MarketEvent.v
Json.v
JsonTree.v
MarketEventJson.v
CxxNumeric.v
CommandLine.v
BinanceTradeParser.v
EventRecorder.v
ReplaySource.v
BoundedQueue.v
QueueThreads.v
QueueProperties.v
Interfaces.v
IngestionPipeline.v
PipelineInvariant.v
PipelineProgress.v
PipelineProperties.v
PipelineReplay.v
LiveSource.v
LiveProperties.v
Kafka.v
KafkaProperties.v
EventTypes.v
FineSource.v
ConsumerService.v
ConsumerThreads.v
PipelineKafka.v
Benchmark.v
IngestionService.v
ServiceInvariant.v
ServiceDemo.v
ServiceProperties.v
ServiceReplay.v
FineService.v
SourceSteps.v
LiveService.v
ReplayService.v
FineProperties.v
ServiceReports.v
ReportProperties.v
IngestionDemo.v
FineDemo.v
DemoSources.v
DemoProperties.v
EndToEnd.v
CaptureReplay.v
