(* ===== verification/Prelude.v ===== *)
(** * TickForge Distributed: a verification development

    TickForge reads trades from a live WebSocket or from a capture file, turns
    them into [MarketEvent]s, passes them through a bounded queue to a Kafka
    producer, and reads them back from Kafka in another process.  This library
    models that code, definition by definition, and proves what makes it
    correct.

    ** The program and the files that model it

    The data travels through the parts in this order.

    - include/tickforge/market_event.hpp -> [MarketEvent].  Prices are IEEE
      binary64 ([spec_float]); time points are 64-bit counts of nanoseconds, and
      the conversion from milliseconds wraps (in C++ a signed overflow there is
      undefined; the model takes the two's complement result).
    - src/binance_trade_parser.cpp -> [BinanceTradeParser]: a message to an event,
      with every guard in the code's order.  [CxxNumeric] is the
      [std::from_chars] it calls.
    - src/market_event_json.cpp -> [MarketEventJson]: the text format shared by
      the recorder, the replay source and Kafka.
    - src/event_recorder.cpp -> [EventRecorder]; src/replay_source.cpp ->
      [ReplaySource].
    - src/env.cpp, [splitSymbols] of the services and the request target of
      src/live_source.cpp -> [Config].
    - src/live_source.cpp -> [LiveSource] (state, steps, invariant) and
      [LiveProperties].
    - include/tickforge/bounded_queue.hpp -> [BoundedQueue] (the critical
      sections and the abstract channel), [QueueThreads] (mutex, condition
      variables, any number of threads) and [QueueProperties].
    - include/tickforge/market_data_source.hpp and event_publisher.hpp ->
      [Interfaces]: type classes for source, publisher and queue, with what each
      promises.
    - src/ingestion_pipeline.cpp -> [IngestionPipeline] (members, threads, steps),
      [PipelineInvariant], [PipelineProgress], [PipelineProperties]; and
      [PipelineReplay], the pipeline over a [ReplaySource].
    - src/kafka_event_producer.cpp, src/kafka_event_consumer.cpp and the loop of
      services/consumer/main.cpp -> [Kafka] and [KafkaProperties]; the whole of
      that [main], its configuration and its final table -> [ConsumerService],
      and its two threads and signal -> [ConsumerThreads].
    - services/ingestion/main.cpp -> [CommandLine] (the options, with
      [std::stoul]) and [IngestionService] (what [main] builds, and its poll loop,
      reports, [requestStop()], [stop()] and destructors, one step at a time,
      among the pipeline's threads).  [ServiceInvariant] says where the
      pipeline's owner is for each place of [main], [PipelineKafka] what the
      pipeline has handed to librdkafka, [ServiceProperties] and [ServiceReplay]
      what the process guarantees; [ServiceDemo] is a run of it.
    - The same [main] with the ingest thread inside [next]: [FineSource] is the
      interface of a source whose [next] takes several steps and whose [stop()]
      takes two, with the laws the service needs; [SourceSteps] has
      src/live_source.cpp and src/replay_source.cpp as such sources;
      [FineService] puts them in the service, and its lemma [runs_coarse] carries
      over what [IngestionService] guarantees; [LiveService] and [ReplayService] follow the source's
      own run through the service's, and [FineProperties] has the theorems;
      [ServiceReports] follows the counters through the lines printed, and
      [ReportProperties] says how the lines relate.
    - src/ingestion_demo_main.cpp -> [IngestionDemo]; and, with the ingestion
      thread inside [next], [FineDemo], which refines it, over the two sources
      in [DemoSources], with its theorems in [DemoProperties].
    - The processes together: [EndToEnd], the ingestion service, a topic and the
      consumer service; [CaptureReplay], a live run with [--record] and a second
      one with [--replay].
    - benchmarks/queue_kafka_benchmark.cpp -> [Benchmark].
    - [EventTypes] holds for all of them: what type of event the parsers let in,
      as an interface ([TypedSource]) that the sources implement and that the
      services' theorems use.

    This file holds what they share: the exception monad, machine integers,
    counting in lists, and facts on transition systems.  [CxxStrings] holds
    the standard library's string functions.

    ** How the code is modelled

    - A function that may throw returns an [outcome]; [Ok] and [Throw] are what
      the caller sees.  An [std::string* error_out] is an [option string], [None]
      for a null pointer, returned with the result.
    - A class is a record with the class's members, under the members' names; a
      method is a function on it.  Counters are [Z] and wrap at 64 bits.
    - Threads are program counters, and what one thread does between two points
      where another could notice is one step of a relation.  Traces collect the
      labels of the steps, and the properties are about every execution.  A
      thread that blocks on another thread (a mutex, a condition variable, a join)
      has no step.  A thread that blocks on the network (in [stream->read] of an
      open socket, or in a connection attempt) has the steps the network may bring,
      and may wait for ever: [LiveSource.waits].  That the live source ends is
      therefore stated with the steps that need no network ([reader_own_moves],
      [fine_own_moves], [fine_demo_own_moves]): a read is over because [stop()]
      closes the socket.
    - Third-party code is a parameter: [JsonOps] with [JsonLaws] for
      nlohmann::json (instance: [JsonTree]), [Librdkafka] with [KafkaLaws]
      (instance: the broker of [KafkaProperties]).  Laws state documented
      behaviour, and the instances show they can hold.
    - Loops with fuel: [ReplaySource.next] gets one turn per byte left and one
      more, which [next_terminates] shows to be enough, and computes what its
      steps do ([replay_steps_exact]); [getlines] one turn per
      byte; [CommandLine.arg_loop] one turn per argument, and it is total
      ([parse_args_settings]); [Kafka.consume_loop], [ConsumerService.consumer_main]
      and [Benchmark.bench_consume] one turn per call of [next], which can go on
      for ever: there [None] means still running, and
      [bench_deadline_unenforced] is about that.  Other loops are
      structural or step relations, whose termination is stated with [sn] (every
      sequence of steps is finite) and [nf] (no step is left).

    ** What the theorems show

    - Formats: an event with a finite price, a symbol and UTF-8 strings survives
      printing and parsing up to milliseconds and receipt time; exactly the well-formed objects and trade messages are
      accepted, everything else is refused with a reason or throws, and it is
      said when it throws; recording then replaying gives the events back.
    - Replay: a replay is exactly the events of the file, it terminates, a stop
      stops it, and one number too large for a double ends it.
    - Queue: it refines a bounded closable first-in first-out channel; no wake-up
      is lost although the code uses [notify_one]; shutdown releases everybody;
      the high-water mark is exact.
    - Pipeline: no event is lost, doubled or reordered, the source is never more
      than the capacity and two events ahead; [stop()] and the destructor return
      (with a queue of at least one place, and a source that ends without an
      exception), after everything was published and flushed; the statistics add up; the capture is complete.  With capacity
      zero the pipeline hangs.
    - Live source: no stop is lost; [next] ends after it without the network's
      help, except that a connection attempt (resolve, connect, handshakes) is not
      interrupted; the events are the messages' trades, the backoff is
      min(initial * 2^k, maximum).
    - Kafka: the producer sends one message per successful publish, keyed by the
      symbol; the consumer gives back the event that was published; its total,
      malformed count, table and sampled lines are those of the messages read,
      whatever the interleaving of its threads, because [main] reads them after
      the join ([consumer_threads_report]); after a signal it ends within one more
      poll.
    - Types: whatever is in the file, the messages or the topic, what the sources
      and the consumer hand out fits its C++ types, has a symbol and prints as
      one line, and so does every event anywhere in the pipeline.
    - Ingestion service: what it builds from the environment and the command
      line; that a signal or the end of the source makes [main] leave its loop,
      and that from [requestStop()] on the process ends without dying, if its
      source then ends without an exception ([SourceLaws]); a replay ends by
      itself.
    - Ingestion service, one access at a time: every run is, at a coarser grain, a
      run of the service over a source with an atomic [next] ([runs_coarse]); it
      exits also when told to stop in the middle of [next], live
      ([live_service_shutdown], if the network brings no number too large for a
      double, and up to a connection attempt) and on a replay
      ([replay_service_shutdown], if the capture has no such number), with a queue of
      at least one place; what the live service has published is what the network brought, what the replaying
      service has published is the file, or the part read before a signal; the
      live service stops for no other reason than a signal, and each dies of
      numbers that overflow a double (or of a capture that cannot be opened) and
      of nothing else.
    - Reports: the counters of the statistics never go down, and the members of
      one line, which the code reads one after another while the threads go on,
      may belong to different moments ([stats_line_torn]); in the last line they
      add up, and the deliveries reported are no more than the events published.
    - The processes together: from the WebSocket to the consumer's table
      ([live_to_consumer]), from a capture to it ([capture_to_consumer]), and from
      the WebSocket through a capture to a second run ([live_capture_replayed]).
      Of the topic between producer and consumer the theorems use [topic_log]:
      nobody else writes to it; the broker has stored some copies of the messages
      sent, in some order, a message more than once where librdkafka has sent it
      again; the messages of one key are in one partition; and a new group reads
      each partition from the earliest offset, without going back.  The consumer is
      the one of [ConsumerThreads].  A trade whose price is no finite number is
      printed with a null price, which no reader accepts: the theorems say where it
      is lost.
    - Demo and benchmarks: the demo ends when told to, live also in the middle of
      [next] ([live_demo_shutdown], under the conditions of the live service), or at
      the end of the file; its total, capture and sampled lines are exact, and are,
      live, what the network brought, and on a replay the file or the part read; the queue benchmark ends and loses nothing; the consumer
      benchmark's deadline does not bound it.

    ** What is not modelled

    Boost.Beast, TLS and the network (the steps choose what they do), librdkafka
    and the brokers (redelivery to a consumer after a crash or a rebalance, which
    polls a stored message twice, is outside [topic_log]; a message stored twice is
    not), the file system beyond a map from paths to contents (no
    short writes; a replayed file is read as it was when it was opened, so a
    run that records to the file it replays is not covered), memory exhaustion
    and failing thread creation, the memory model below sequential consistency,
    real time (sleeps, timeouts and elapsed times are steps or numbers the clock
    gives), how signals are delivered (a signal is the handler's effect at any
    moment), the text around the numbers and events printed, and the tests. *)
From stdpp Require Export base countable option list strings numbers gmap relations.
From Stdlib Require Export ZArith Lia.
From Stdlib Require Export Ascii.

Declare Scope tickforge_scope.
Delimit Scope tickforge_scope with tf.
Open Scope tickforge_scope.

(** ** Exceptions

    A C++ call either returns or throws.  The exceptions the code base can
    meet are the standard [runtime_error] it throws itself, the JSON library's
    [parse_error], [type_error] and [out_of_range], and the standard
    [invalid_argument] and [out_of_range] of [std::stoul]. *)
Inductive exn :=
  | RuntimeError (what : string)
  | ParseError (what : string)
  | TypeError (what : string)
  | OutOfRange (what : string)
  | InvalidArgument (what : string)
  | StdOutOfRange (what : string).

Inductive outcome (A : Type) :=
  | Ok (a : A)
  | Throw (e : exn).
Arguments Ok {A} _.
Arguments Throw {A} _.

#[export] Instance exn_eq_dec : EqDecision exn.
Proof. solve_decision. Defined.

#[export] Instance outcome_eq_dec `{EqDecision A} : EqDecision (outcome A).
Proof. solve_decision. Defined.

#[export] Instance outcome_ret : MRet outcome := fun A a => Ok a.
#[export] Instance outcome_bind : MBind outcome := fun A B f m =>
  match m with Ok a => f a | Throw e => Throw e end.
#[export] Instance outcome_fmap : FMap outcome := fun A B f m =>
  match m with Ok a => Ok (f a) | Throw e => Throw e end.

(** C++'s short-circuit [a || b] when evaluating [b] may throw. *)
Definition or_else (a b : outcome bool) : outcome bool :=
  a ≫= fun x : bool => if x then Ok true else b.
Notation "a '||!' b" := (or_else a b)
  (at level 50, left associativity) : tickforge_scope.

Definition is_ok {A} (m : outcome A) : bool :=
  match m with Ok _ => true | Throw _ => false end.

Create HintDb tickforge discriminated.
Create Rewrite HintDb outcome.
Create Rewrite HintDb ints.

Section Outcome.
Context {A B : Type}.

Lemma bind_ok (a : A) (f : A -> outcome B) : Ok a ≫= f = f a.
Proof. done. Qed.

Lemma bind_throw (e : exn) (f : A -> outcome B) : Throw e ≫= f = Throw e.
Proof. done. Qed.

Lemma mret_ok (a : A) : mret a = Ok a.
Proof. done. Qed.

Lemma fmap_ok (f : A -> B) (a : A) : f <$> Ok a = Ok (f a).
Proof. done. Qed.

Lemma bind_ext (m : outcome A) (f g : A -> outcome B) :
  (forall a, f a = g a) -> m ≫= f = m ≫= g.
Proof. intros Hfg. destruct m; [apply Hfg|done]. Qed.

Lemma bind_ret_r (m : outcome A) : m ≫= Ok = m.
Proof. by destruct m. Qed.

Lemma bind_ok_inv (m : outcome A) (f : A -> outcome B) b :
  m ≫= f = Ok b -> exists a, m = Ok a /\ f a = Ok b.
Proof. destruct m; [eauto | done]. Qed.
End Outcome.

Lemma or_else_true (b : outcome bool) : Ok true ||! b = Ok true.
Proof. done. Qed.

Lemma or_else_false (b : outcome bool) : Ok false ||! b = b.
Proof. done. Qed.

#[export] Hint Rewrite @bind_ok @bind_throw @mret_ok @fmap_ok
  or_else_true or_else_false : outcome.

(** Runs the exception monad as far as the known calls allow. *)
Ltac run := autorewrite with outcome; cbn [negb orb andb].
Tactic Notation "run" "in" hyp(H) :=
  autorewrite with outcome in H; cbn [negb orb andb] in H.

(** ** Machine integers *)

Definition two64 : Z := 2 ^ 64.
Definition int64_max : Z := 2 ^ 63 - 1.
Definition int64_min : Z := - 2 ^ 63.

(** Conversion of an integer to [std::uint64_t] and [std::int64_t]: modular,
    as C++20 defines it. *)
Definition wrap_u64 (z : Z) : Z := z mod two64.
Definition wrap_i64 (z : Z) : Z := (z + 2 ^ 63) mod two64 - 2 ^ 63.

Definition in_i64 (z : Z) : Prop := (int64_min <= z <= int64_max)%Z.
Definition in_u64 (z : Z) : Prop := (0 <= z < two64)%Z.

#[export] Instance in_i64_dec z : Decision (in_i64 z).
Proof. unfold in_i64. apply _. Defined.
#[export] Instance in_u64_dec z : Decision (in_u64 z).
Proof. unfold in_u64. apply _. Defined.

Ltac int_bounds :=
  unfold in_i64, in_u64, wrap_u64, wrap_i64, int64_min, int64_max, two64 in *;
  change (2 ^ 64)%Z with 18446744073709551616%Z in *;
  change (2 ^ 63)%Z with 9223372036854775808%Z in *.

Lemma wrap_i64_id z : in_i64 z -> wrap_i64 z = z.
Proof. int_bounds. intros. rewrite Z.mod_small; lia. Qed.

Lemma wrap_u64_id z : in_u64 z -> wrap_u64 z = z.
Proof. int_bounds. intros. rewrite Z.mod_small; lia. Qed.

Lemma wrap_i64_range z : in_i64 (wrap_i64 z).
Proof.
  int_bounds. pose proof (Z.mod_pos_bound (z + 9223372036854775808) 18446744073709551616).
  lia.
Qed.

Lemma wrap_u64_range z : in_u64 (wrap_u64 z).
Proof.
  int_bounds. pose proof (Z.mod_pos_bound z 18446744073709551616). lia.
Qed.

Lemma wrap_u64_add_congr a b k : wrap_u64 a = wrap_u64 b -> wrap_u64 (a + k) = wrap_u64 (b + k).
Proof. intros E. unfold wrap_u64 in *. by rewrite (Z.add_mod a), E, <-Z.add_mod by done. Qed.

Lemma wrap_u64_idem a : wrap_u64 (wrap_u64 a) = wrap_u64 a.
Proof. apply Z.mod_mod. done. Qed.

Lemma wrap_u64_add_l a b : wrap_u64 (wrap_u64 a + b) = wrap_u64 (a + b).
Proof. apply Z.add_mod_idemp_l. done. Qed.

(** Converting to signed and on to unsigned is converting to unsigned. *)
Lemma wrap_u64_i64 z : wrap_u64 (wrap_i64 z) = wrap_u64 z.
Proof.
  int_bounds.
  rewrite <-(Z.mod_add _ 1 18446744073709551616) by lia.
  rewrite (Z.mod_eq (z + 9223372036854775808)) by lia.
  set (q := ((z + 9223372036854775808) / 18446744073709551616)%Z).
  replace (z + 9223372036854775808 - 18446744073709551616 * q - 9223372036854775808 +
    1 * 18446744073709551616)%Z with (z + (1 - q) * 18446744073709551616)%Z by lia.
  by rewrite Z.mod_add.
Qed.

#[export] Hint Resolve wrap_i64_range wrap_u64_range : tickforge.
#[export] Hint Rewrite wrap_i64_id wrap_u64_id using done : ints.

(** ** Lists *)

(** The longest prefix of elements satisfying [P] is unique. *)
Lemma split_first {A} (P : A -> Prop) pre x post pre' post' :
  pre ++ x :: post = pre' ++ post' -> Forall P pre -> ~ P x -> Forall P pre' ->
  (forall y post'', post' = y :: post'' -> ~ P y) ->
  pre = pre' /\ post' = x :: post.
Proof.
  revert pre'. induction pre as [|a pre IH]; intros [|a' pre'] Heq Hpre Hx Hpre' Hpost;
    cbn in *; simplify_eq.
  - done.
  - by apply Forall_cons in Hpre' as [? _].
  - apply Forall_cons in Hpre as [Ha _]. by edestruct Hpost.
  - apply Forall_cons in Hpre as [_ Hpre]. apply Forall_cons in Hpre' as [_ Hpre'].
    destruct (IH pre') as [-> ?]; auto.
Qed.

(** Filters that keep everything, and sublists of the same length. *)
Lemma filter_keeps_all {A} (P : A -> Prop) `{forall x, Decision (P x)} l : Forall P l -> filter P l = l.
Proof. induction 1 as [|x l Hx _ IH]; [done|]. by rewrite filter_cons_True, IH. Qed.

Lemma sublist_same_length {A} (l k : list A) : l `sublist_of` k -> length l = length k -> l = k.
Proof.
  induction 1 as [|x l k _ IH|x l k Hs IH]; cbn; intros E; [done| |].
  - by rewrite IH by lia.
  - apply sublist_length in Hs. lia.
Qed.

(** Counting the elements a test accepts. *)
Fixpoint count {A} (p : A -> bool) (l : list A) : nat :=
  match l with
  | [] => 0
  | x :: l => (if p x then 1 else 0) + count p l
  end.

Section Count.
Context {A : Type} (p : A -> bool).

Lemma count_insert l i x y :
  l !! i = Some x ->
  count p (<[i:=y]> l) + (if p x then 1 else 0) = count p l + (if p y then 1 else 0).
Proof.
  revert i. induction l as [|z l IH]; intros [|i] Hi; simplify_eq/=; [lia|].
  specialize (IH i Hi). lia.
Qed.

Lemma count_lookup l i x : l !! i = Some x -> p x = true -> 0 < count p l.
Proof.
  revert i. induction l as [|z l IH]; intros [|i] Hi Hp; simplify_eq/=.
  - rewrite Hp. lia.
  - specialize (IH i Hi Hp). lia.
Qed.

Lemma count_zero l : count p l = 0 <-> Forall (fun x => p x = false) l.
Proof.
  induction l as [|x l IH]; cbn; [by split|]. rewrite Forall_cons, <-IH.
  destruct (p x); split; intros; [lia|naive_solver|split; [done|lia]|lia].
Qed.

Lemma count_pos l : 0 < count p l -> exists i x, l !! i = Some x /\ p x = true.
Proof.
  induction l as [|x l IH]; cbn; [lia|]. destruct (p x) eqn:E; intros Hc.
  - by exists 0, x.
  - destruct (IH Hc) as (i & y & ? & ?). by exists (S i), y.
Qed.

Lemma count_app l k : count p (l ++ k) = count p l + count p k.
Proof. induction l as [|x l IH]; cbn; [done|]. rewrite IH. lia. Qed.

Lemma count_map (f : A -> A) (q : A -> bool) l :
  (forall x, q (f x) = p x) -> count q (map f l) = count p l.
Proof. intros Hf. induction l as [|x l IH]; cbn; [done|]. by rewrite Hf, IH. Qed.
End Count.

(** Counting from [n], at 64 bits, the elements whose number is 1 modulo 20:
    what the programs print of a long sequence. *)
Fixpoint sampled {A} (n : Z) (l : list A) : list A :=
  match l with
  | [] => []
  | x :: l =>
      let n := wrap_u64 (n + 1) in
      if bool_decide (n mod 20 = 1)%Z then x :: sampled n l else sampled n l
  end.

Lemma sampled_app {A} (l k : list A) : forall n,
  sampled n (l ++ k) = sampled n l ++ sampled (wrap_u64 (n + Z.of_nat (length l))) k.
Proof.
  induction l as [|x l IH]; intros n; cbn [app sampled length].
  - rewrite Z.add_0_r. destruct k as [|y k]; cbn [sampled]; [done|]. by rewrite wrap_u64_add_l.
  - rewrite IH, wrap_u64_add_l. replace (n + 1 + Z.of_nat (length l))%Z
      with (n + Z.of_nat (S (length l)))%Z by lia. by case_bool_decide.
Qed.

(** From 20 j + r on, the first element sampled is the one that makes the
    number 20 j + 21 (or 1), then every twentieth. *)
Lemma sampled_lookup_from {A} (l : list A) : forall (n : Z) (skip k : nat),
  (0 <= n)%Z -> (n + Z.of_nat (length l) < two64)%Z -> skip < 20 ->
  ((n + Z.of_nat skip) mod 20 = 0)%Z ->
  sampled n l !! k = l !! (skip + 20 * k).
Proof.
  induction l as [|x l IH]; intros n skip k Hn Hl Hs Hm; [done|].
  cbn [sampled length] in *. rewrite wrap_u64_id by (unfold in_u64; lia).
  destruct skip as [|skip].
  - rewrite Z.add_0_r in Hm. rewrite bool_decide_eq_true_2 by (rewrite Z.add_mod, Hm; done).
    destruct k as [|k]; [done|].
    change ((x :: sampled (n + 1) l) !! S k) with (sampled (n + 1) l !! k).
    rewrite (IH (n + 1)%Z 19 k) by (try lia; rewrite <-Z.add_assoc, Z.add_mod, Hm; done).
    by replace (0 + 20 * S k) with (S (19 + 20 * k)) by lia.
  - rewrite bool_decide_eq_false_2.
    + rewrite (IH (n + 1)%Z skip k); [done|lia..|]. rewrite <-Hm. f_equal. lia.
    + intros E. rewrite Nat2Z.inj_succ in Hm.
      replace (n + Z.succ (Z.of_nat skip))%Z with (n + 1 + Z.of_nat skip)%Z in Hm by lia.
      rewrite Z.add_mod, E, (Z.mod_small (Z.of_nat skip)), Z.mod_small in Hm by lia. lia.
Qed.

Lemma sampled_lookup {A} (l : list A) k :
  (Z.of_nat (length l) < two64)%Z -> sampled 0 l !! k = l !! (20 * k).
Proof. intros Hl. apply (sampled_lookup_from l 0 0 k); [done|lia|lia|done]. Qed.

(** ** Transition systems *)

Section Transitions.
Context {A : Type} (R : relation A).

(** What holds of the start and is kept by every step holds of every
    reachable state. *)
Lemma rtc_invariant (I : A -> Prop) x y :
  I x -> (forall x y, I x -> R x y -> I y) -> rtc R x y -> I y.
Proof. intros Hx HI Hr. induction Hr; eauto. Qed.

(** A number that every step decreases bounds the executions. *)
Lemma measure_sn (I : A -> Prop) (m : A -> nat) x :
  I x -> (forall x y, I x -> R x y -> I y /\ m y < m x) -> sn R x.
Proof.
  intros Hx Hm. remember (m x) as n eqn:Hn. revert x Hx Hn.
  induction (lt_wf n) as [n _ IH]. intros x Hx ->. constructor.
  intros y Hxy. destruct (Hm _ _ Hx Hxy). eapply IH; eauto.
Qed.

(** Every step decreases a number, or leaves it and is a step of a part that
    comes to rest by itself. *)
Lemma lex_sn {B} (S : relation B) (f : A -> B) (I : A -> Prop) (m : A -> nat) x :
  I x -> (forall x, I x -> sn S (f x)) ->
  (forall x y, I x -> R x y -> I y /\ (m y < m x \/ (m y <= m x /\ S (f x) (f y)))) ->
  sn R x.
Proof.
  intros Hx Hsn Hm. remember (m x) as n eqn:Hn.
  assert (Hle : m x <= n) by lia. clear Hn. revert x Hx Hle.
  induction (lt_wf n) as [n _ IH]. intros x Hx Hle.
  remember (f x) as b eqn:Hb. revert x Hx Hle Hb.
  assert (Hsb : forall x, I x -> f x = b -> sn S b) by (intros x Hx <-; auto).
  intros x Hx Hle Hb. specialize (Hsb x Hx (eq_sym Hb)). revert x Hx Hle Hb.
  induction Hsb as [b _ IHb]. intros x Hx Hle ->. constructor. intros y Hxy.
  destruct (Hm x y Hx Hxy) as [Hy [Hlt|[Hle' Hs]]].
  - eapply (IH (m y)); [lia|done|lia].
  - eapply IHb; [exact Hs|done|lia|done].
Qed.
End Transitions.

(** A system that a terminating one simulates terminates, if what the
    simulation does not show makes a number go down. *)
Lemma sim_sn {A B} (R : relation A) (S : relation B) (sim : A -> B -> Prop) (m : A -> nat) x b :
  sim x b -> sn S b ->
  (forall x b y, sim x b -> R x y ->
     (exists b', S b b' /\ sim y b') \/ (sim y b /\ m y < m x)) ->
  sn R x.
Proof.
  intros Hx Hb Hm. revert x Hx. induction Hb as [b _ IHb]. intros x.
  remember (m x) as n eqn:Hn. revert x Hn. induction (lt_wf n) as [n _ IHn].
  intros x -> Hx. constructor. intros y Hxy.
  destruct (Hm x b y Hx Hxy) as [(b' & Hs & Hy)|[Hy Hlt]].
  - exact (IHb b' Hs y Hy).
  - exact (IHn (m y) Hlt y eq_refl Hy).
Qed.
