(* ===== verification/CxxStrings.v ===== *)
(** * Strings and text streams

    The C++ standard library's string facilities the code base uses:
    [std::getline] over a stream whose remaining bytes are a [string],
    [std::tolower], and concatenation. *)
From S2P Require Import Prelude.

Definition newline : ascii := "010"%char.
Definition dquote : string := String "034"%char EmptyString.

(** A C string literal written between escaped double quotes. *)
Definition quoted (s : string) : string := dquote +:+ s +:+ dquote.

Definition is_empty (s : string) : bool :=
  match s with EmptyString => true | _ => false end.

(** The bytes before the first [d], and what follows it if there is one. *)
Fixpoint span_until (d : ascii) (s : string) : string * option string :=
  match s with
  | EmptyString => (EmptyString, None)
  | String c s' =>
      if bool_decide (c = d) then (EmptyString, Some s')
      else let '(l, r) := span_until d s' in (String c l, r)
  end.

(** [std::getline(in, line, d)]: [None] when the stream fails, that is when no
    byte is left; otherwise the line (its delimiter extracted and dropped)
    and the bytes left.  A last line without delimiter is still a line. *)
Definition getline (d : ascii) (s : string) : option (string * string) :=
  match s with
  | EmptyString => None
  | _ => let '(l, r) := span_until d s in Some (l, default EmptyString r)
  end.

(** Every line a [while (std::getline(in, line, d))] loop sees. *)
Fixpoint getlines_fuel (n : nat) (d : ascii) (s : string) : list string :=
  match n with
  | 0 => []
  | S n =>
      match getline d s with
      | None => []
      | Some (l, r) => l :: getlines_fuel n d r
      end
  end.
Definition getlines (d : ascii) (s : string) : list string :=
  getlines_fuel (String.length s) d s.

(** [d] does not occur in [s]. *)
Fixpoint free_of (d : ascii) (s : string) : bool :=
  match s with
  | EmptyString => true
  | String c s' => bool_decide (c <> d) && free_of d s'
  end.

(** [std::tolower] in the C locale, on the bytes of a string. *)
Definition tolower (c : ascii) : ascii :=
  let n := nat_of_ascii c in
  if bool_decide (65 <= n <= 90) then ascii_of_nat (n + 32) else c.
Fixpoint string_tolower (s : string) : string :=
  match s with
  | EmptyString => EmptyString
  | String c s' => String (tolower c) (string_tolower s')
  end.

(** The ASCII strings: every byte below 128. *)
Fixpoint is_ascii (s : string) : bool :=
  match s with
  | EmptyString => true
  | String c s' => bool_decide (nat_of_ascii c < 128) && is_ascii s'
  end.

(** ** Lemmas *)

#[local] Arguments String.append !_ _ / : assert.

Lemma is_empty_spec s : is_empty s = false <-> s <> EmptyString.
Proof. by destruct s. Qed.

Lemma string_app_nil_r s : s +:+ EmptyString = s.
Proof. induction s as [|c s IH]; cbn; [done|by rewrite IH]. Qed.

Lemma string_app_assoc a b c : (a +:+ b) +:+ c = a +:+ b +:+ c.
Proof. induction a as [|x a IH]; cbn; [done|by rewrite IH]. Qed.

Lemma string_app_length a b :
  String.length (a +:+ b) = String.length a + String.length b.
Proof. induction a as [|x a IH]; cbn; [done|by rewrite IH]. Qed.

Lemma span_until_free d l r :
  free_of d l = true -> span_until d (l +:+ String d r) = (l, Some r).
Proof.
  induction l as [|c l IH]; cbn; intros H.
  - by rewrite bool_decide_eq_true_2.
  - apply andb_true_iff in H as [Hc Hl]. apply bool_decide_eq_true in Hc.
    rewrite bool_decide_eq_false_2 by done. by rewrite IH.
Qed.

Lemma span_until_whole d s : free_of d s = true -> span_until d s = (s, None).
Proof.
  induction s as [|c s IH]; cbn; intros H; [done|].
  apply andb_true_iff in H as [Hc Hl]. apply bool_decide_eq_true in Hc.
  rewrite bool_decide_eq_false_2 by done. by rewrite IH.
Qed.

Lemma span_until_length d s l r :
  span_until d s = (l, r) ->
  match r with
  | Some r => String.length s = String.length l + S (String.length r)
  | None => String.length s = String.length l
  end.
Proof.
  revert l r. induction s as [|c s IH]; cbn; intros l r H.
  - by simplify_eq/=.
  - case_bool_decide; [by simplify_eq/=|].
    destruct (span_until d s) as [l' r'] eqn:E. simplify_eq/=.
    specialize (IH _ _ eq_refl). destruct r; cbn; lia.
Qed.

Lemma span_until_line_free d s l r : span_until d s = (l, r) -> free_of d l = true.
Proof.
  revert l r. induction s as [|c s IH]; cbn; intros l r H; [by simplify_eq/=|].
  case_bool_decide as Hc; [by simplify_eq/=|].
  destruct (span_until d s) as [l' r'] eqn:E. simplify_eq/=.
  rewrite bool_decide_eq_true_2 by done. cbn. eauto.
Qed.

(** A line is followed by strictly fewer bytes: reading terminates. *)
Lemma getline_shorter d s l r :
  getline d s = Some (l, r) -> String.length r < String.length s.
Proof.
  destruct s as [|c s]; [done|]. unfold getline.
  destruct (span_until d (String c s)) as [l' r'] eqn:E. intros [= <- <-].
  apply span_until_length in E. destruct r'; cbn in *; lia.
Qed.

Lemma getline_cons d l r :
  free_of d l = true -> getline d (l +:+ String d r) = Some (l, r).
Proof.
  intros H. unfold getline. rewrite span_until_free by done.
  by destruct l.
Qed.

Lemma getlines_fuel_enough n m d s :
  String.length s <= n -> String.length s <= m ->
  getlines_fuel n d s = getlines_fuel m d s.
Proof.
  revert m s. induction n as [|n IH]; intros m s Hn Hm.
  - destruct s; [|cbn in *; lia]. by destruct m.
  - destruct m as [|m]; [destruct s; [done|cbn in *; lia]|].
    cbn. destruct (getline d s) as [[l r]|] eqn:E; [|done].
    apply getline_shorter in E. f_equal. apply IH; lia.
Qed.

Lemma getlines_unfold d s :
  getlines d s =
  match getline d s with None => [] | Some (l, r) => l :: getlines d r end.
Proof.
  unfold getlines. destruct s as [|c s]; [done|].
  cbn [String.length getlines_fuel].
  destruct (getline d (String c s)) as [[l r]|] eqn:E; [|done].
  apply getline_shorter in E. cbn in E. f_equal. apply getlines_fuel_enough; lia.
Qed.

Lemma getlines_cons d l r :
  free_of d l = true -> getlines d (l +:+ String d r) = l :: getlines d r.
Proof. intros H. rewrite getlines_unfold. by rewrite getline_cons. Qed.

Lemma getlines_empty d : getlines d EmptyString = [].
Proof. done. Qed.

Lemma free_of_app d a b : free_of d (a +:+ b) = free_of d a && free_of d b.
Proof. induction a as [|c a IH]; cbn; [done|]. by rewrite IH, andb_assoc. Qed.

Lemma is_ascii_app a b : is_ascii (a +:+ b) = is_ascii a && is_ascii b.
Proof. induction a as [|c a IH]; cbn; [done|]. by rewrite IH, andb_assoc. Qed.

#[export] Hint Resolve getline_shorter : tickforge.
