(* ===== verification/Config.v ===== *)
(** * Start-up configuration

    src/env.cpp, the [splitSymbols] of services/ingestion/main.cpp (and, word
    for word, of src/ingestion_demo_main.cpp), and the part of
    src/live_source.cpp that turns the configured symbols into the request
    target of the WebSocket handshake.  The process environment is a map. *)
From S2P Require Import Prelude CxxStrings.

(** ** The code *)
Definition getEnv (environ : gmap string string) (name : string) : option string :=
  match environ !! name with
  | None => None
  | Some value => if is_empty value then None else Some value
  end.

Definition getEnvOr (environ : gmap string string) (name default_value : string) : string :=
  match getEnv environ name with Some value => value | None => default_value end.

Definition comma : ascii := ","%char.
Definition slash : ascii := "/"%char.

(** The [getline] loop: [items] are the pieces still to come. *)
Fixpoint push_nonempty (items : list string) (symbols : list string) : list string :=
  match items with
  | [] => symbols
  | item :: items =>
      push_nonempty items (if is_empty item then symbols else symbols ++ [item])
  end.
Definition splitSymbols (csv : string) : list string :=
  push_nonempty (getlines comma csv) [].

(** The loop of [buildTarget] from index [i] on. *)
Fixpoint append_streams (i : nat) (symbols : list string) (target : string) : string :=
  match symbols with
  | [] => target
  | symbol :: symbols =>
      let target := if bool_decide (0 < i) then target +:+ String slash EmptyString else target in
      append_streams (S i) symbols (target +:+ string_tolower symbol +:+ "@trade")
  end.
Definition target_prefix : string := "/stream?streams=".
Definition buildTarget (symbols : list string) : string :=
  append_streams 0 symbols target_prefix.

(** ** Lemmas *)

(** Items separated by [d]. *)
Fixpoint join (d : ascii) (items : list string) : string :=
  match items with
  | [] => EmptyString
  | [s] => s
  | s :: items => s +:+ String d (join d items)
  end.

Lemma push_nonempty_filter items symbols :
  push_nonempty items symbols = symbols ++ filter (fun s => is_empty s = false) items.
Proof.
  revert symbols. induction items as [|s items IH]; intros symbols;
    [by rewrite app_nil_r|]. cbn [push_nonempty].
  rewrite IH, filter_cons. destruct (is_empty s); case_decide; try done.
  by rewrite <-app_assoc.
Qed.

Lemma splitSymbols_filter csv :
  splitSymbols csv = filter (fun s => is_empty s = false) (getlines comma csv).
Proof. apply push_nonempty_filter. Qed.

Lemma getlines_last d s : s <> EmptyString -> free_of d s = true -> getlines d s = [s].
Proof.
  intros Hs Hf. rewrite getlines_unfold. unfold getline. destruct s as [|c s]; [done|].
  by rewrite span_until_whole.
Qed.

Lemma getlines_join d items :
  Forall (fun s => s <> EmptyString /\ free_of d s = true) items ->
  getlines d (join d items) = items.
Proof.
  induction 1 as [|s items [Hs Hf] Hall IH]; [done|]. destruct items as [|s' items].
  - by apply getlines_last.
  - change (join d (s :: s' :: items)) with (s +:+ String d (join d (s' :: items))).
    by rewrite getlines_cons, IH.
Qed.

Lemma getlines_free d s : Forall (fun l => free_of d l = true) (getlines d s).
Proof.
  remember (String.length s) as n eqn:Hn. revert s Hn.
  induction (lt_wf n) as [n _ IH]. intros s ->. rewrite getlines_unfold.
  destruct (getline d s) as [[l r]|] eqn:E; [|constructor].
  constructor; [|by eapply IH; [eapply getline_shorter|]].
  unfold getline in E. destruct s as [|c s]; [done|].
  destruct (span_until d (String c s)) as [l' r'] eqn:Es. injection E as <- _.
  by apply span_until_line_free in Es.
Qed.

(** The stream Binance calls the trades of a symbol. *)
Definition stream_name (symbol : string) : string := string_tolower symbol +:+ "@trade".

Lemma append_streams_join i symbols target :
  0 < i -> symbols <> [] ->
  append_streams i symbols target =
  target +:+ String slash (join slash (stream_name <$> symbols)).
Proof.
  revert i target. induction symbols as [|s [|s' symbols] IH]; intros i target Hi Hne; [done|..].
  - cbn. rewrite bool_decide_eq_true_2 by done. by rewrite string_app_assoc.
  - change (append_streams i (s :: s' :: symbols) target) with
      (append_streams (S i) (s' :: symbols)
        ((if bool_decide (0 < i) then target +:+ String slash EmptyString else target) +:+
         string_tolower s +:+ "@trade")).
    rewrite bool_decide_eq_true_2, IH by (done || lia).
    change (join slash (stream_name <$> s :: s' :: symbols)) with
      ((string_tolower s +:+ "@trade") +:+ String slash (join slash (stream_name <$> s' :: symbols))).
    by rewrite !string_app_assoc.
Qed.

Lemma append_streams_first s symbols target :
  append_streams 0 (s :: symbols) target = append_streams 1 symbols (target +:+ stream_name s).
Proof. cbn [append_streams]. by rewrite bool_decide_eq_false_2 by lia. Qed.

Lemma buildTarget_join symbols :
  buildTarget symbols = target_prefix +:+ join slash (stream_name <$> symbols).
Proof.
  unfold buildTarget. destruct symbols as [|s [|s' symbols]]; [by rewrite string_app_nil_r|..];
    rewrite append_streams_first; [done|].
  rewrite append_streams_join by (done || lia). by rewrite string_app_assoc.
Qed.

Lemma tolower_slash c : tolower c = slash -> c = slash.
Proof. destruct c as [[] [] [] [] [] [] [] []]; vm_compute; done. Qed.

Lemma string_tolower_free s : free_of slash s = true -> free_of slash (string_tolower s) = true.
Proof.
  induction s as [|c s IH]; [done|]. cbn. rewrite !andb_true_iff, !bool_decide_eq_true.
  intros [Hc Hs]. split; [|auto]. intros E. by apply Hc, tolower_slash.
Qed.

Lemma stream_name_ok s :
  free_of slash s = true -> stream_name s <> EmptyString /\ free_of slash (stream_name s) = true.
Proof.
  intros Hs. unfold stream_name. split.
  - destruct (string_tolower s); discriminate.
  - by rewrite free_of_app, string_tolower_free.
Qed.

(** ** Properties *)

Definition is_symbol (s : string) : Prop := s <> EmptyString /\ free_of comma s = true.

(** The symbol list.  Whatever the environment variable holds, every
    symbol [splitSymbols] finds in it is non-empty and free of commas; and
    every list of such symbols is read back from its comma-separated form. *)
Theorem symbols_roundtrip (csv : string) (symbols : list string)
  (Hs : Forall is_symbol symbols) :
  Forall is_symbol (splitSymbols csv) /\ splitSymbols (join comma symbols) = symbols.
Proof.
  rewrite !splitSymbols_filter. split.
  - pose proof (getlines_free comma csv) as Hf. rewrite Forall_forall in *.
    intros s [He Hi]%list_elem_of_filter. split; [by apply is_empty_spec|auto].
  - rewrite getlines_join by done. induction Hs as [|s symbols [Hne _] _ IH]; [done|].
    rewrite filter_cons_True, IH; [done|]. by apply is_empty_spec.
Qed.

Lemma symbols_roundtrip_witness :
  splitSymbols (join comma ["btcusdt"; "ethusdt"]%string) = ["btcusdt"; "ethusdt"]%string.
Proof.
  apply (symbols_roundtrip "btcusdt,,ethusdt," ["btcusdt"; "ethusdt"]%string).
  constructor; [by split|constructor; [by split|constructor]].
Defined.

Example split_default : splitSymbols ",btcusdt,,ethusdt," = ["btcusdt"; "ethusdt"]%string.
Proof. reflexivity. Qed.

(** The request target.  [buildTarget] asks for exactly the trade streams
    of the configured symbols, in order, in lower case: what follows the fixed
    prefix, read at the slashes, is the list of stream names. *)
Theorem target_lists_streams (symbols : list string)
  (Hs : Forall (fun s => free_of slash s = true) symbols) :
  exists names, buildTarget symbols = target_prefix +:+ names /\
    getlines slash names = stream_name <$> symbols.
Proof.
  exists (join slash (stream_name <$> symbols)). split; [apply buildTarget_join|].
  apply getlines_join, Forall_fmap. eapply Forall_impl; [exact Hs|]. apply stream_name_ok.
Qed.

Lemma target_lists_streams_witness :
  exists names, buildTarget ["BTCUSDT"; "ethusdt"]%string = target_prefix +:+ names /\
    getlines slash names = ["btcusdt@trade"; "ethusdt@trade"]%string.
Proof.
  apply (target_lists_streams ["BTCUSDT"; "ethusdt"]%string).
  repeat constructor.
Defined.

(** The variable unset or empty means the default. *)
Lemma getEnvOr_cases environ name d :
  getEnvOr environ name d = match environ !! name with
                            | Some (String c s) => String c s
                            | _ => d
                            end.
Proof. unfold getEnvOr, getEnv. by destruct (environ !! name) as [[]|]. Qed.
