(* ===== verification/MarketEvent.v ===== *)
(** * MarketEvent

    The event every source produces and every publisher consumes
    (include/tickforge/market_event.hpp), with the two standard-library types
    it is made of: IEEE binary64 ([double]) and the [std::chrono] time points. *)
From S2P Require Import Prelude.
From Stdlib Require Import Floats.SpecFloat.
From Stdlib Require Export Floats.SpecFloat.

(** ** double

    [double] is IEEE 754 binary64, as the standard library specifies it:
    precision 53, exponent bound 1024. *)
Definition double : Type := spec_float.
Definition prec64 : Z := 53.
Definition emax64 : Z := 1024.
Definition double_zero : double := S754_zero false.

#[export] Instance double_eq_dec : EqDecision double.
Proof. unfold double. solve_decision. Defined.

(** [a <= b], false when either operand is a NaN. *)
Definition double_leb (a b : double) : bool := SFleb a b.

Definition is_finite (d : double) : bool :=
  match d with S754_zero _ | S754_finite _ _ _ => true | _ => false end.

(** ** chrono

    Clock readings are counts of ticks since the clock's epoch.  libstdc++'s
    [system_clock] ticks in nanoseconds, held in a 64-bit signed integer: a
    [time_point] built from milliseconds multiplies by 10^6 at that width, and
    [duration_cast<milliseconds>] divides, truncating towards zero. *)
Definition ticks_per_ms : Z := 1000000.
Definition time_point_of_ms (ms : Z) : Z := wrap_i64 (ms * ticks_per_ms).
Definition ms_of_time_point (ticks : Z) : Z := Z.quot ticks ticks_per_ms.

(** The millisecond counts whose multiplication by 10^6 stays in 64 bits. *)
Definition ms_representable (ms : Z) : Prop := in_i64 (ms * ticks_per_ms).

#[export] Instance ms_representable_dec ms : Decision (ms_representable ms).
Proof. unfold ms_representable. apply _. Defined.

(** ** The event *)
Record MarketEvent := {
  symbol : string;
  price : double;
  event_time : Z;
  provider_sequence : option Z;
  ingest_time : Z;
  source : string
}.

(** A default-constructed event. *)
Definition default_event : MarketEvent := {|
  symbol := EmptyString;
  price := double_zero;
  event_time := 0;
  provider_sequence := None;
  ingest_time := 0;
  source := EmptyString
|}.

#[export] Instance MarketEvent_eq_dec : EqDecision MarketEvent.
Proof. solve_decision. Defined.

Definition set_ingest_time (t : Z) (e : MarketEvent) : MarketEvent := {|
  symbol := symbol e; price := price e; event_time := event_time e;
  provider_sequence := provider_sequence e; ingest_time := t; source := source e |}.

Definition set_source (s : string) (e : MarketEvent) : MarketEvent := {|
  symbol := symbol e; price := price e; event_time := event_time e;
  provider_sequence := provider_sequence e; ingest_time := ingest_time e; source := s |}.

(** The values the C++ types can hold: 64-bit time points and sequence. *)
Definition event_wf (e : MarketEvent) : Prop :=
  in_i64 (event_time e) /\
  match provider_sequence e with None => True | Some n => in_u64 n end.

#[export] Instance event_wf_dec e : Decision (event_wf e).
Proof. unfold event_wf. destruct (provider_sequence e); apply _. Defined.

(** ** Lemmas *)

Lemma time_point_of_ms_range ms : in_i64 (time_point_of_ms ms).
Proof. apply wrap_i64_range. Qed.

Lemma time_point_of_ms_small ms :
  ms_representable ms -> time_point_of_ms ms = (ms * ticks_per_ms)%Z.
Proof. apply wrap_i64_id. Qed.

Lemma ms_of_time_point_of_ms ms :
  ms_representable ms -> ms_of_time_point (time_point_of_ms ms) = ms.
Proof.
  intros H. rewrite time_point_of_ms_small by done.
  unfold ms_of_time_point. by rewrite Z.quot_mul.
Qed.

(** Truncation to milliseconds never leaves the 64-bit range. *)
Lemma ms_of_time_point_range t :
  in_i64 t -> in_i64 (ms_of_time_point t) /\ ms_representable (ms_of_time_point t).
Proof.
  unfold ms_representable, ms_of_time_point, ticks_per_ms. int_bounds. intros Ht.
  pose proof (Z.quot_rem' t 1000000).
  pose proof (Z.rem_bound_abs t 1000000). pose proof (Z.rem_sign_mul t 1000000). nia.
Qed.

Lemma time_point_truncate t :
  in_i64 t ->
  time_point_of_ms (ms_of_time_point t) = (t - Z.rem t ticks_per_ms)%Z.
Proof.
  intros Ht. destruct (ms_of_time_point_range t Ht) as [_ Hr].
  rewrite time_point_of_ms_small by done. unfold ms_of_time_point.
  pose proof (Z.quot_rem' t ticks_per_ms). lia.
Qed.

#[export] Hint Resolve time_point_of_ms_range : tickforge.
