(* ===== verification/Json.v ===== *)
(** * The JSON library, as an interface

    The code calls nlohmann::json and never looks inside it.  [JsonOps] lists
    the calls the code makes, [JsonLaws] the documented behaviour of those
    calls that the development relies on.  Nothing here describes how the
    library works; JsonTree.v gives one instance of both classes. *)
From S2P Require Import Prelude CxxStrings MarketEvent.

(** ** The calls *)
Class JsonOps := {
  json : Type;
  (** construction: [json j;], conversions, [j[key] = value] *)
  json_null : json;
  json_of_string : string -> json;
  json_of_double : double -> json;
  json_of_i64 : Z -> json;
  json_of_u64 : Z -> json;
  json_set : json -> string -> json -> outcome json;
  (** [operator==] *)
  json_eq : json -> json -> bool;
  (** inspection *)
  json_is_object : json -> bool;
  json_is_string : json -> bool;
  json_is_number : json -> bool;
  json_is_number_integer : json -> bool;
  json_contains : json -> string -> bool;
  json_at : json -> string -> outcome json;
  json_get_string : json -> outcome string;
  json_get_double : json -> outcome double;
  json_get_i64 : json -> outcome Z;
  json_get_u64 : json -> outcome Z;
  (** text *)
  json_parse : string -> outcome json;
  json_dump : json -> outcome string;
  (** the library's test that a string is UTF-8, and the values all of whose
      strings pass it *)
  json_utf8 : string -> bool;
  json_text : json -> Prop
}.

(** ** Flat objects *)
Section Fields.
Context `{JsonOps}.

(** The C++ values the code stores in an object. *)
Inductive scalar :=
  | ScString (s : string)
  | ScDouble (d : double)
  | ScI64 (z : Z)
  | ScU64 (z : Z).

Definition json_of_scalar (sc : scalar) : json :=
  match sc with
  | ScString s => json_of_string s
  | ScDouble d => json_of_double d
  | ScI64 z => json_of_i64 z
  | ScU64 z => json_of_u64 z
  end.

Definition scalar_in_range (sc : scalar) : Prop :=
  match sc with ScI64 z => in_i64 z | ScU64 z => in_u64 z | _ => True end.

Definition scalar_utf8 (sc : scalar) : bool :=
  match sc with ScString s => json_utf8 s | _ => true end.

(** [v] answers the type tests and getters as the C++ value [sc] does. *)
Definition reads (v : json) (sc : scalar) : Prop :=
  match sc with
  | ScString s => json_is_string v = true /\ json_get_string v = Ok s
  | ScDouble d => json_is_number v = true /\ json_get_double v = Ok d
  | ScI64 z => json_is_number_integer v = true /\ json_get_i64 v = Ok z
  | ScU64 z => json_is_number_integer v = true /\ json_get_u64 v = Ok z
  end.

(** What is left of [sc] after printing: JSON has no NaN and no infinity,
    and the library prints those as [null]. *)
Definition reads_back (v : json) (sc : scalar) : Prop :=
  match sc with
  | ScDouble d => if is_finite d then reads v sc else json_is_number v = false
  | _ => reads v sc
  end.

(** The object [j] has exactly the fields [fs], each seen through [R]. *)
Definition reflects (R : json -> scalar -> Prop) (j : json)
    (fs : list (string * scalar)) : Prop :=
  json_is_object j = true /\
  (forall k sc, (k, sc) ∈ fs ->
     json_contains j k = true /\ exists v, json_at j k = Ok v /\ R v sc) /\
  (forall k, k ∉ fs.*1 -> json_contains j k = false).

(** [j[k1] = v1; j[k2] = v2; ...] *)
Fixpoint set_fields (j : json) (fs : list (string * scalar)) : outcome json :=
  match fs with
  | [] => Ok j
  | (k, sc) :: fs => j' ← json_set j k (json_of_scalar sc); set_fields j' fs
  end.
End Fields.

(** ** The documented behaviour *)
Class JsonLaws `{JsonOps} : Prop := {
  (** a converted value reads as what it was made of *)
  json_of_scalar_reads sc : scalar_in_range sc -> reads (json_of_scalar sc) sc;
  (** type tests and getters *)
  json_get_string_ok v : json_is_string v = true -> exists s, json_get_string v = Ok s;
  json_get_double_ok v : json_is_number v = true -> exists d, json_get_double v = Ok d;
  json_get_i64_ok v : json_is_number_integer v = true ->
    exists z, in_i64 z /\ json_get_i64 v = Ok z /\ json_get_u64 v = Ok (wrap_u64 z);
  (** comparison with a string *)
  json_eq_string v s :
    json_eq v (json_of_string s) = true <->
    json_is_string v = true /\ json_get_string v = Ok s;
  (** [contains] is false on anything but an object; [at] finds what
      [contains] announces *)
  json_contains_object j k : json_contains j k = true -> json_is_object j = true;
  json_at_contains j k : json_contains j k = true -> exists v, json_at j k = Ok v;
  json_null_contains k : json_contains json_null k = false;
  (** [j[k] = v] on null or on an object *)
  json_set_ok j k v : json_is_object j = true \/ j = json_null ->
    exists j', json_set j k v = Ok j' /\ json_is_object j' = true /\
      (forall k', json_contains j' k' = bool_decide (k' = k) || json_contains j k') /\
      json_at j' k = Ok v /\
      (forall k', k' <> k -> json_contains j k' = true -> json_at j' k' = json_at j k');
  (** [parse] throws [parse_error] or, on a number no double holds,
      [out_of_range] *)
  json_parse_throws s e : json_parse s = Throw e ->
    exists what, e = ParseError what \/ e = OutOfRange what;
  (** parsed strings are UTF-8, ASCII is UTF-8 *)
  json_parse_text s j : json_parse s = Ok j -> json_text j;
  json_at_text j k v : json_text j -> json_at j k = Ok v -> json_text v;
  json_get_string_text v s :
    json_text v -> json_get_string v = Ok s -> json_utf8 s = true;
  json_utf8_ascii s : is_ascii s = true -> json_utf8 s = true;
  (** [dump] prints one non-empty line *)
  json_dump_line j s : json_dump j = Ok s -> s <> EmptyString /\ free_of newline s = true;
  (** [dump] of an object of UTF-8 scalars succeeds, and its text parses to
      an object with the same fields *)
  json_dump_parse fs j :
    fs <> [] -> NoDup fs.*1 ->
    Forall (fun f => scalar_in_range f.2 /\ scalar_utf8 f.2 = true /\ json_utf8 f.1 = true) fs ->
    set_fields json_null fs = Ok j ->
    exists s j', json_dump j = Ok s /\ json_parse s = Ok j' /\
      reflects reads_back j' fs
}.

(** ** Consequences *)
Section Consequences.
Context `{JsonLaws}.

Lemma set_fields_reflects_gen fs : forall j gs,
  (json_is_object j = true \/ j = json_null) ->
  NoDup (gs ++ fs).*1 ->
  Forall (fun f => scalar_in_range f.2) fs ->
  (forall k sc, (k, sc) ∈ gs ->
     json_contains j k = true /\ exists v, json_at j k = Ok v /\ reads v sc) ->
  (forall k, k ∉ gs.*1 -> json_contains j k = false) ->
  (gs ++ fs <> [] -> fs = [] -> json_is_object j = true) ->
  gs ++ fs <> [] ->
  exists j', set_fields j fs = Ok j' /\ reflects reads j' (gs ++ fs).
Proof.
  induction fs as [|[k sc] fs IH]; intros j gs Hj Hnd Hr Hin Hout Hobj Hne.
  - exists j. rewrite app_nil_r in *. cbn. repeat split; naive_solver.
  - destruct (json_set_ok j k (json_of_scalar sc) Hj)
      as (j1 & E1 & Hj1 & Hc & Hat & Hat').
    apply Forall_cons in Hr as [Hsc Hr]. cbn in Hsc.
    assert (Hk : k ∉ gs.*1).
    { rewrite fmap_app, fmap_cons in Hnd. apply NoDup_app in Hnd as (_ & Hd & _).
      intros Hk. apply (Hd k Hk). cbn. set_solver. }
    destruct (IH j1 (gs ++ [(k, sc)])) as (j' & E' & Hrf).
    + auto.
    + by rewrite <-app_assoc.
    + done.
    + intros k' sc' [Hk'|Hk']%elem_of_app.
      * assert (k' <> k).
        { intros ->. apply Hk. apply list_elem_of_fmap. by exists (k, sc'). }
        destruct (Hin _ _ Hk') as [Hck ?].
        rewrite Hc, Hat', Hck, orb_true_r by done. done.
      * apply list_elem_of_singleton in Hk' as [= -> ->].
        rewrite Hc, Hat, bool_decide_eq_true_2 by done.
        eauto using json_of_scalar_reads.
    + intros k' Hk'. rewrite fmap_app in Hk'. cbn in Hk'.
      rewrite Hc, bool_decide_eq_false_2 by set_solver. apply Hout. set_solver.
    + done.
    + by destruct gs.
    + exists j'. rewrite <-app_assoc in Hrf. cbn. by rewrite E1.
Qed.

(** An object built field by field has exactly those fields. *)
Lemma set_fields_reflects fs :
  fs <> [] -> NoDup fs.*1 -> Forall (fun f => scalar_in_range f.2) fs ->
  exists j, set_fields json_null fs = Ok j /\ reflects reads j fs.
Proof.
  intros. apply (set_fields_reflects_gen fs json_null []); auto; try set_solver.
  intros. apply json_null_contains.
Qed.

(** [contains] followed by [at]: the way the code reads a member. *)
Definition json_field (j : json) (k : string) : option json :=
  if json_contains j k then
    match json_at j k with Ok v => Some v | Throw _ => None end
  else None.

Lemma json_field_Some j k v :
  json_field j k = Some v <-> json_contains j k = true /\ json_at j k = Ok v.
Proof.
  unfold json_field. destruct (json_contains j k) eqn:Hc; [|naive_solver].
  destruct (json_at_contains j k Hc) as [v' Hv]. rewrite Hv. naive_solver.
Qed.

Lemma json_field_None j k : json_field j k = None <-> json_contains j k = false.
Proof.
  unfold json_field. destruct (json_contains j k) eqn:Hc; [|naive_solver].
  destruct (json_at_contains j k Hc) as [v' Hv]. rewrite Hv. naive_solver.
Qed.

Lemma json_field_object j k v : json_field j k = Some v -> json_is_object j = true.
Proof. intros [Hc _]%json_field_Some. by apply json_contains_object in Hc. Qed.

(** The member [k] of [j] is there and reads as [sc]. *)
Definition has (j : json) (k : string) (sc : scalar) : Prop :=
  exists v, json_field j k = Some v /\ reads v sc.

(** The member [k], where a member of another type counts as none. *)
Definition has_optional (j : json) (k : string) {A} (mk : A -> scalar) (o : option A) : Prop :=
  match o with
  | Some a => has j k (mk a)
  | None => forall a, ~ has j k (mk a)
  end.

(** The guard [!j.contains(k) || !j.at(k).pred()]. *)
Definition lacks (j : json) (k : string) (pred : json -> bool) : outcome bool :=
  Ok (negb (json_contains j k)) ||! (v ← json_at j k; Ok (negb (pred v))).

(** The conjunction [j.contains(k) && j.at(k).pred()]. *)
Definition holds (j : json) (k : string) (pred : json -> bool) : outcome bool :=
  if json_contains j k then v ← json_at j k; Ok (pred v) else Ok false.

Lemma lacks_field j k pred :
  lacks j k pred =
  Ok (match json_field j k with Some v => negb (pred v) | None => true end).
Proof.
  unfold lacks. destruct (json_field j k) as [v|] eqn:E.
  - apply json_field_Some in E as [-> ->]. done.
  - apply json_field_None in E as ->. done.
Qed.

Lemma holds_field j k pred :
  holds j k pred =
  Ok (match json_field j k with Some v => pred v | None => false end).
Proof.
  unfold holds. destruct (json_field j k) as [v|] eqn:E.
  - apply json_field_Some in E as [-> ->]. done.
  - apply json_field_None in E as ->. done.
Qed.

Lemma json_at_field j k v : json_field j k = Some v -> json_at j k = Ok v.
Proof. by intros [_ ?]%json_field_Some. Qed.

(** Reading is functional. *)
Lemma reads_string_inj v s s' : reads v (ScString s) -> reads v (ScString s') -> s = s'.
Proof. cbn. intros [_ E] [_ E']. congruence. Qed.

Lemma json_get_u64_ok v :
  json_is_number_integer v = true -> exists n, in_u64 n /\ json_get_u64 v = Ok n.
Proof.
  intros (z & _ & _ & ->)%json_get_i64_ok. eauto using wrap_u64_range.
Qed.

(** The member [k] read with a type test and its getter: [None] when the
    member is missing or of another type. *)
Section FieldAs.
Context {A : Type} (test : json -> bool) (get : json -> outcome A).

Definition field_as (j : json) (k : string) : option A :=
  v ← json_field j k;
  if test v then match get v with Ok a => Some a | Throw _ => None end else None.

Hypothesis get_total : forall v, test v = true -> exists a, get v = Ok a.

Lemma field_as_Some j k a :
  field_as j k = Some a <->
  exists v, json_field j k = Some v /\ test v = true /\ get v = Ok a.
Proof.
  unfold field_as. destruct (json_field j k) as [v|]; cbn;
    [destruct (test v) eqn:Et; [destruct (get v) eqn:Eg|]|];
    (split; [intros ?|intros (? & ? & ? & ?)]; simplify_eq; eauto; congruence).
Qed.

Lemma lacks_as j k :
  lacks j k test = Ok (match field_as j k with Some _ => false | None => true end).
Proof.
  rewrite lacks_field. unfold field_as. destruct (json_field j k) as [v|]; cbn; [|done].
  destruct (test v) eqn:Et; cbn; [|done].
  by destruct (get_total v Et) as [a ->].
Qed.

Lemma holds_as j k :
  holds j k test = Ok (match field_as j k with Some _ => true | None => false end).
Proof.
  rewrite holds_field. unfold field_as. destruct (json_field j k) as [v|]; cbn; [|done].
  destruct (test v) eqn:Et; cbn; [|done].
  by destruct (get_total v Et) as [a ->].
Qed.

Lemma at_as {B} j k a (f : A -> outcome B) :
  field_as j k = Some a -> (v ← json_at j k; x ← get v; f x) = f a.
Proof. intros (v & ->%json_at_field & _ & Hg)%field_as_Some. cbn. by rewrite Hg. Qed.

Lemma at_as_ret j k a : field_as j k = Some a -> (v ← json_at j k; get v) = Ok a.
Proof. intros (v & ->%json_at_field & _ & Hg)%field_as_Some. done. Qed.
End FieldAs.

Definition string_field := field_as json_is_string json_get_string.
Definition double_field := field_as json_is_number json_get_double.
Definition i64_field := field_as json_is_number_integer json_get_i64.
Definition u64_field := field_as json_is_number_integer json_get_u64.

Lemma json_get_i64_total v :
  json_is_number_integer v = true -> exists z, json_get_i64 v = Ok z.
Proof. intros (z & _ & -> & _)%json_get_i64_ok. eauto. Qed.
Lemma json_get_u64_total v :
  json_is_number_integer v = true -> exists z, json_get_u64 v = Ok z.
Proof. intros (z & _ & ->)%json_get_u64_ok. eauto. Qed.

Lemma lacks_string j k : lacks j k json_is_string =
  Ok (match string_field j k with Some _ => false | None => true end).
Proof. apply lacks_as, json_get_string_ok. Qed.
Lemma lacks_double j k : lacks j k json_is_number =
  Ok (match double_field j k with Some _ => false | None => true end).
Proof. apply lacks_as, json_get_double_ok. Qed.
Lemma lacks_i64 j k : lacks j k json_is_number_integer =
  Ok (match i64_field j k with Some _ => false | None => true end).
Proof. apply lacks_as, json_get_i64_total. Qed.
Lemma holds_string j k : holds j k json_is_string =
  Ok (match string_field j k with Some _ => true | None => false end).
Proof. apply holds_as, json_get_string_ok. Qed.
Lemma holds_u64 j k : holds j k json_is_number_integer =
  Ok (match u64_field j k with Some _ => true | None => false end).
Proof. apply holds_as, json_get_u64_total. Qed.

Lemma has_string j k s : has j k (ScString s) <-> string_field j k = Some s.
Proof. symmetry. apply field_as_Some. Qed.
Lemma has_double j k d : has j k (ScDouble d) <-> double_field j k = Some d.
Proof. symmetry. apply field_as_Some. Qed.
Lemma has_i64 j k z : has j k (ScI64 z) <-> i64_field j k = Some z.
Proof. symmetry. apply field_as_Some. Qed.
Lemma has_u64 j k n : has j k (ScU64 n) <-> u64_field j k = Some n.
Proof. symmetry. apply field_as_Some. Qed.

Lemma has_optional_string j k o : has_optional j k ScString o <-> string_field j k = o.
Proof.
  destruct o as [s|]; cbn; [apply has_string|]. setoid_rewrite has_string.
  destruct (string_field j k) as [s|]; split; try done. by intros []%(fun f => f s).
Qed.
Lemma has_optional_u64 j k o : has_optional j k ScU64 o <-> u64_field j k = o.
Proof.
  destruct o as [n|]; cbn; [apply has_u64|]. setoid_rewrite has_u64.
  destruct (u64_field j k) as [n|]; split; try done. by intros []%(fun f => f n).
Qed.

Lemma string_field_object j k s : string_field j k = Some s -> json_is_object j = true.
Proof. intros (v & Hv & _)%field_as_Some. eauto using json_field_object. Qed.

Lemma u64_field_range j k n : u64_field j k = Some n -> in_u64 n.
Proof.
  intros (v & _ & Ht & Hg)%field_as_Some.
  destruct (json_get_u64_ok v Ht) as (n' & ? & ?). congruence.
Qed.

(** An object with the fields [fs] has them, and no other. *)
Lemma reflects_has j fs k sc : reflects reads j fs -> (k, sc) ∈ fs -> has j k sc.
Proof.
  intros (_ & Hin & _) (Hc & v & Hv & Hr)%Hin. exists v.
  by rewrite json_field_Some.
Qed.

Lemma reflects_none j fs k {R} : reflects R j fs -> k ∉ fs.*1 -> json_field j k = None.
Proof. intros (_ & _ & Hout) Hk. apply json_field_None. auto. Qed.

(** Printing loses nothing but the non-finite doubles. *)
Lemma reflects_finite j fs :
  reflects reads_back j fs ->
  (forall k d, (k, ScDouble d) ∈ fs -> is_finite d = true) ->
  reflects reads j fs.
Proof.
  intros (Hobj & Hin & Hout) Hfin. split; [done|]. split; [|done].
  intros k sc Hk. destruct (Hin _ _ Hk) as (Hc & v & Hv & Hr).
  split; [done|]. exists v. split; [done|].
  destruct sc as [s|d|z|z]; cbn in Hr; try done. by rewrite (Hfin _ _ Hk) in Hr.
Qed.

(** A string read from parsed text can be printed again. *)
Lemma json_parsed_string_utf8 s j k v t :
  json_parse s = Ok j -> json_at j k = Ok v -> json_get_string v = Ok t ->
  json_utf8 t = true.
Proof. eauto using json_get_string_text, json_at_text, json_parse_text. Qed.
End Consequences.

Create Rewrite HintDb json.
#[export] Hint Rewrite @lacks_string @lacks_double @lacks_i64 @holds_string @holds_u64
  using apply _ : json.

(** Runs a function over [json] values one guard or read at a time: rewrites
    the guards with the members' views, splits on a member, and resolves the
    reads of a member known to be there. *)
Ltac run_json :=
  repeat first
    [ progress (autorewrite with json outcome; cbn [negb])
    | match goal with
      | |- context [match ?f ?j ?k with Some _ => _ | None => _ end] =>
          let E := fresh "F" in destruct (f j k) eqn:E
      end
    | erewrite (at_as json_is_string json_get_string) by eassumption
    | erewrite (at_as json_is_number json_get_double) by eassumption
    | erewrite (at_as json_is_number_integer json_get_i64) by eassumption
    | erewrite (at_as json_is_number_integer json_get_u64) by eassumption
    | erewrite (at_as_ret json_is_string json_get_string) by eassumption
    | match goal with |- context [if is_empty ?s then _ else _] =>
        let E := fresh "Hempty" in destruct (is_empty s) eqn:E
      end ].
