(* ===== verification/JsonTree.v ===== *)
(** * A reference JSON library

    One instance of the interface of Json.v, so that theorems stated against
    the interface can be evaluated on concrete documents.  Values are trees;
    the text form is a line of [0] and [1] obtained from the tree's code, which
    is all the interface asks of it.  It is not a model of nlohmann::json. *)
From S2P Require Import Prelude CxxStrings MarketEvent Json.

(** ** Values *)
Inductive atom :=
  | ANull
  | ABool (b : bool)
  | AInt (z : Z)
  | AFloat (d : double)
  | AString (s : string).

#[export] Instance atom_eq_dec : EqDecision atom.
Proof. solve_decision. Defined.

Definition double_to_sum (d : double) : bool + bool + (unit + bool * positive * Z) :=
  match d with
  | S754_zero s => inl (inl s)
  | S754_infinity s => inl (inr s)
  | S754_nan => inr (inl tt)
  | S754_finite s m e => inr (inr (s, m, e))
  end.
Definition double_of_sum (x : bool + bool + (unit + bool * positive * Z)) : double :=
  match x with
  | inl (inl s) => S754_zero s
  | inl (inr s) => S754_infinity s
  | inr (inl _) => S754_nan
  | inr (inr (s, m, e)) => S754_finite s m e
  end.
#[export] Instance double_countable : Countable double.
Proof. refine (inj_countable' double_to_sum double_of_sum _). by intros []. Defined.

Definition atom_to_sum (a : atom) : unit + bool + (Z + double + string) :=
  match a with
  | ANull => inl (inl tt)
  | ABool b => inl (inr b)
  | AInt z => inr (inl (inl z))
  | AFloat d => inr (inl (inr d))
  | AString s => inr (inr s)
  end.
Definition atom_of_sum (x : unit + bool + (Z + double + string)) : atom :=
  match x with
  | inl (inl _) => ANull
  | inl (inr b) => ABool b
  | inr (inl (inl z)) => AInt z
  | inr (inl (inr d)) => AFloat d
  | inr (inr s) => AString s
  end.
#[export] Instance atom_countable : Countable atom.
Proof. refine (inj_countable' atom_to_sum atom_of_sum _). by intros []. Defined.

(** Leaves are atoms; node 0 is an object, whose children are node 1 pairs of
    a key and a value. *)
Definition jtree : Type := gen_tree atom.
Definition member (k : string) (v : jtree) : jtree := GenNode 1 [GenLeaf (AString k); v].
Definition jobject (ms : list (string * jtree)) : jtree :=
  GenNode 0 ((fun m => member m.1 m.2) <$> ms).

(** ** Lookup and update *)
Fixpoint find_member (ts : list jtree) (k : string) : option jtree :=
  match ts with
  | [] => None
  | GenNode 1 [GenLeaf (AString k'); v] :: ts =>
      if bool_decide (k = k') then Some v else find_member ts k
  | _ :: ts => find_member ts k
  end.
Fixpoint put_member (ts : list jtree) (k : string) (v : jtree) : list jtree :=
  match ts with
  | [] => [member k v]
  | (GenNode 1 [GenLeaf (AString k'); v'] as t) :: ts =>
      if bool_decide (k = k') then member k v :: ts else t :: put_member ts k v
  | t :: ts => t :: put_member ts k v
  end.

Definition tree_find (t : jtree) (k : string) : option jtree :=
  match t with GenNode 0 ts => find_member ts k | _ => None end.
Definition tree_is_object (t : jtree) : bool :=
  match t with GenNode 0 _ => true | _ => false end.
Definition tree_set (t : jtree) (k : string) (v : jtree) : outcome jtree :=
  match t with
  | GenLeaf ANull => Ok (GenNode 0 [member k v])
  | GenNode 0 ts => Ok (GenNode 0 (put_member ts k v))
  | _ => Throw (TypeError "305")
  end.
Definition tree_at (t : jtree) (k : string) : outcome jtree :=
  if tree_is_object t
  then match tree_find t k with Some v => Ok v | None => Throw (OutOfRange "403") end
  else Throw (TypeError "304").

Definition double_of_Z (z : Z) : double := binary_normalize prec64 emax64 z 0 false.
Definition tree_get_double (t : jtree) : outcome double :=
  match t with
  | GenLeaf (AFloat d) => Ok d
  | GenLeaf (AInt z) => Ok (double_of_Z z)
  | _ => Throw (TypeError "302")
  end.
Definition tree_get_i64 (t : jtree) : outcome Z :=
  match t with GenLeaf (AInt z) => Ok (wrap_i64 z) | _ => Throw (TypeError "302") end.
Definition tree_get_u64 (t : jtree) : outcome Z :=
  match t with GenLeaf (AInt z) => Ok (wrap_u64 z) | _ => Throw (TypeError "302") end.
Definition tree_get_string (t : jtree) : outcome string :=
  match t with GenLeaf (AString s) => Ok s | _ => Throw (TypeError "302") end.
Definition tree_eq (a b : jtree) : bool := bool_decide (a = b).

(** ** Text *)
Definition atom_ascii (a : atom) : bool :=
  match a with AString s => is_ascii s | _ => true end.
Fixpoint tree_ascii (t : jtree) : bool :=
  match t with
  | GenLeaf a => atom_ascii a
  | GenNode _ ts => forallb tree_ascii ts
  end.
Definition print_atom (a : atom) : atom :=
  match a with AFloat d => if is_finite d then a else ANull | _ => a end.
Fixpoint print_tree (t : jtree) : jtree :=
  match t with
  | GenLeaf a => GenLeaf (print_atom a)
  | GenNode n ts => GenNode n (map print_tree ts)
  end.

Fixpoint bits (p : positive) : string :=
  match p with
  | xH => String "." EmptyString
  | xO p => String "0" (bits p)
  | xI p => String "1" (bits p)
  end.
Fixpoint unbits (s : string) : option positive :=
  match s with
  | String "0"%char s => xO <$> unbits s
  | String "1"%char s => xI <$> unbits s
  | String "."%char EmptyString => Some xH
  | _ => None
  end.

Definition tree_dump (t : jtree) : outcome string :=
  if tree_ascii t then Ok (bits (encode (print_tree t))) else Throw (TypeError "316").
(** A number beyond the doubles is the one text that is refused otherwise than
    with a [parse_error]. *)
Definition overflowing_number : string := "1e999".
Definition tree_parse (s : string) : outcome jtree :=
  if bool_decide (s = overflowing_number) then Throw (OutOfRange "406") else
  match unbits s ≫= decode with
  | Some t => if tree_ascii t then Ok t else Throw (ParseError "101")
  | None => Throw (ParseError "101")
  end.

(** ** The instance *)
#[export] Instance tree_ops : JsonOps := {|
  json := jtree;
  json_null := GenLeaf ANull;
  json_of_string s := GenLeaf (AString s);
  json_of_double d := GenLeaf (AFloat d);
  json_of_i64 z := GenLeaf (AInt z);
  json_of_u64 z := GenLeaf (AInt z);
  json_set := tree_set;
  json_eq := tree_eq;
  json_is_object := tree_is_object;
  json_is_string t := match t with GenLeaf (AString _) => true | _ => false end;
  json_is_number t := match t with GenLeaf (AInt _ | AFloat _) => true | _ => false end;
  json_is_number_integer t := match t with GenLeaf (AInt _) => true | _ => false end;
  json_contains t k := match tree_find t k with Some _ => true | None => false end;
  json_at := tree_at;
  json_get_string := tree_get_string;
  json_get_double := tree_get_double;
  json_get_i64 := tree_get_i64;
  json_get_u64 := tree_get_u64;
  json_parse := tree_parse;
  json_dump := tree_dump;
  json_utf8 := is_ascii;
  json_text t := tree_ascii t = true
|}.

(** ** It obeys the laws *)

Ltac by_member :=
  repeat first [progress simplify_eq/= | case_bool_decide | case_match]; try done.

Lemma find_put ts k v k' :
  find_member (put_member ts k v) k' =
  if bool_decide (k' = k) then Some v else find_member ts k'.
Proof. induction ts as [|t ts IH]; cbn; by_member; rewrite ?IH; by_member. Qed.

Lemma find_member_ascii ts k v :
  forallb tree_ascii ts = true -> find_member ts k = Some v -> tree_ascii v = true.
Proof.
  induction ts as [|t ts IH]; cbn; [done|].
  intros [Ht Hts]%andb_true_iff Hf. by_member; eauto.
  cbn in Ht. by rewrite !andb_true_iff in Ht; destruct Ht as (_ & ? & _).
Qed.

Lemma unbits_bits p : unbits (bits p) = Some p.
Proof. induction p as [p IH|p IH|]; cbn; rewrite ?IH; done. Qed.

Lemma bits_line p : free_of newline (bits p) = true /\ bits p <> EmptyString.
Proof. induction p as [p IH|p IH|]; cbn; naive_solver. Qed.

Lemma bits_not_overflow p : bits p <> overflowing_number.
Proof. by destruct p as [[]|[]|]. Qed.

Lemma print_tree_ascii t : tree_ascii t = true -> tree_ascii (print_tree t) = true.
Proof.
  revert t. fix IH 1. intros [a|n ts]; cbn.
  - destruct a; cbn; try case_match; done.
  - induction ts as [|t ts IHts]; cbn; [done|].
    rewrite !andb_true_iff. intros [Ht Hts]. split; [by apply IH|by apply IHts].
Qed.

Lemma dump_parse_tree t :
  tree_ascii t = true ->
  exists s, tree_dump t = Ok s /\ tree_parse s = Ok (print_tree t).
Proof.
  intros Ht. unfold tree_dump, tree_parse. rewrite Ht. eexists. split; [done|].
  rewrite bool_decide_eq_false_2 by apply bits_not_overflow.
  rewrite unbits_bits. cbn. rewrite decode_encode. by rewrite print_tree_ascii.
Qed.

Definition field_member (f : string * scalar) : string * jtree :=
  (f.1, json_of_scalar f.2).

Lemma set_fields_object fs : forall ms,
  NoDup (ms.*1 ++ fs.*1) -> (ms ++ (field_member <$> fs) <> []) ->
  set_fields (if bool_decide (ms = []) then GenLeaf ANull else jobject ms) fs =
  Ok (jobject (ms ++ (field_member <$> fs))).
Proof.
  induction fs as [|[k sc] fs IH]; intros ms Hnd Hne; cbn in *.
  - rewrite app_nil_r in *. by rewrite bool_decide_eq_false_2.
  - assert (Hput : forall ms : list (string * jtree), k ∉ ms.*1 -> forall v,
      put_member ((fun m => member m.1 m.2) <$> ms) k v =
      (fun m => member m.1 m.2) <$> (ms ++ [(k, v)])).
    { clear. intros ms Hk v. induction ms as [|[k' v'] ms IH]; cbn; [done|].
      cbn in Hk. rewrite bool_decide_eq_false_2 by set_solver. f_equal. apply IH. set_solver. }
    assert (Hset : tree_set (if bool_decide (ms = []) then GenLeaf ANull else jobject ms)
      k (json_of_scalar sc) = Ok (jobject (ms ++ [(k, json_of_scalar sc)]))).
    { case_bool_decide as Hms; [by subst|]. cbn. unfold jobject.
      rewrite Hput; [done|]. apply NoDup_app in Hnd as (_ & Hd & _).
      intros Hk. apply (Hd k Hk). set_solver. }
    rewrite Hset, bind_ok.
    specialize (IH (ms ++ [(k, json_of_scalar sc)])).
    rewrite bool_decide_eq_false_2 in IH by (by destruct ms).
    rewrite IH.
    + by rewrite <-app_assoc.
    + rewrite fmap_app, <-app_assoc. done.
    + by destruct ms.
Qed.

Definition print_member (f : string * scalar) : string * jtree :=
  (f.1, print_tree (json_of_scalar f.2)).

Lemma find_member_fields (fs : list (string * scalar)) k :
  (forall sc, NoDup fs.*1 -> (k, sc) ∈ fs ->
     tree_find (jobject (print_member <$> fs)) k = Some (print_tree (json_of_scalar sc))) /\
  (k ∉ fs.*1 -> tree_find (jobject (print_member <$> fs)) k = None).
Proof.
  cbn. split.
  - intros sc. induction fs as [|[k' sc'] fs IH]; cbn; [set_solver|].
    intros [Hk' Hnd]%NoDup_cons [Hin|Hin]%elem_of_cons.
    + simplify_eq. by rewrite bool_decide_eq_true_2.
    + rewrite bool_decide_eq_false_2; [by apply IH|].
      intros ->. apply Hk', list_elem_of_fmap. by exists (k', sc).
  - induction fs as [|[k' sc'] fs IH]; cbn; [done|].
    intros Hk. rewrite bool_decide_eq_false_2 by set_solver. apply IH. set_solver.
Qed.

Lemma print_jobject fs :
  print_tree (jobject (field_member <$> fs)) =
  jobject (print_member <$> fs).
Proof.
  unfold jobject. cbn. f_equal.
  induction fs as [|f fs IH]; [done|]. cbn. by rewrite IH.
Qed.

Lemma jobject_ascii (fs : list (string * scalar)) :
  Forall (fun f => is_ascii f.1 = true /\ scalar_utf8 f.2 = true) fs ->
  tree_ascii (jobject (field_member <$> fs)) = true.
Proof.
  induction 1 as [|[k sc] fs [Hk Hsc] _ IH]; [done|]. cbn in *.
  rewrite Hk, IH. by destruct sc; cbn in *; rewrite ?Hsc.
Qed.

Lemma json_tree_find_object j k : is_Some (tree_find j k) -> tree_is_object j = true.
Proof. intros [v Hv]. by destruct j as [|[] ts]. Qed.

Lemma print_scalar_reads sc :
  scalar_in_range sc -> reads_back (print_tree (json_of_scalar sc)) sc.
Proof.
  destruct sc as [s|d|z|z]; cbn; intros Hr; try done.
  - case_match eqn:E; cbn; by rewrite ?E.
  - split; [done|]. by rewrite wrap_i64_id.
  - split; [done|]. by rewrite wrap_u64_id.
Qed.

#[export] Instance tree_laws : JsonLaws.
Proof.
  split; cbn.
  - intros []; cbn; intros Hr; split; try done; f_equal; by autorewrite with ints.
  - intros v Hv. by_member; eauto.
  - intros v Hv. by_member; eauto.
  - intros v Hv. by_member. eexists. split; [apply wrap_i64_range|].
    by rewrite wrap_u64_i64.
  - intros v s. unfold tree_eq. rewrite bool_decide_eq_true. split.
    + by intros ->.
    + intros [Hv Hs]. by_member.
  - intros j k Hc. apply (json_tree_find_object j k). by case_match.
  - intros j k Hc. unfold tree_at.
    rewrite (json_tree_find_object j k) by (by case_match).
    destruct (tree_find j k); [by eexists|done].
  - done.
  - intros j k v Hj.
    assert (Hts : exists ts, tree_set j k v = Ok (GenNode 0 (put_member ts k v)) /\
      forall k', tree_find j k' = find_member ts k').
    { destruct Hj as [Hj| ->]; [|by exists []].
      destruct j as [|[] ts]; try done. by exists ts. }
    destruct Hts as (ts & Hset & Hf). eexists. split; [exact Hset|].
    split; [done|]. split; [|split].
    + intros k'. cbn. rewrite find_put, Hf. by case_bool_decide.
    + unfold tree_at. cbn. rewrite find_put. by rewrite bool_decide_eq_true_2.
    + intros k' Hk Hc. unfold tree_at. cbn.
      rewrite find_put, bool_decide_eq_false_2, <-Hf by done.
      destruct (tree_find j k') eqn:E; [|done].
      by rewrite (json_tree_find_object j k') by (by rewrite E).
  - intros s e He. unfold tree_parse in He. by_member; eauto.
  - intros s j Hj. unfold tree_parse in Hj. by_member.
  - intros j k v Hj Hv. unfold tree_at in Hv. by_member.
    destruct j as [|[] ts]; try done. eauto using find_member_ascii.
  - intros v s Hv Hs. destruct v as [[]|]; by simplify_eq/=.
  - done.
  - intros j s Hs. unfold tree_dump in Hs. by_member.
    destruct (bits_line (encode (print_tree j))). done.
  - intros fs j Hne Hnd Hall Hj.
    pose proof (set_fields_object fs [] Hnd) as Hobj. cbn in Hobj.
    rewrite Hobj in Hj by (by destruct fs). injection Hj as <-.
    destruct (dump_parse_tree (jobject (field_member <$> fs)))
      as (s & Hs & Hp).
    { apply jobject_ascii. eapply Forall_impl; [exact Hall|]. naive_solver. }
    rewrite print_jobject in Hp. exists s, (jobject (print_member <$> fs)).
    split; [done|]. split; [done|]. split; [done|]. split.
    + intros k sc Hin. destruct (find_member_fields fs k) as [Hf _].
      specialize (Hf sc Hnd Hin). cbn [json_contains json_at tree_ops].
      unfold tree_at. rewrite Hf. split; [done|]. eexists. split; [done|].
      rewrite Forall_forall in Hall. destruct (Hall _ Hin) as (Hr & _).
      by apply print_scalar_reads.
    + intros k Hk. destruct (find_member_fields fs k) as [_ Hf].
      cbn [json_contains tree_ops]. by rewrite Hf.
Qed.
