(* ===== verification/MarketEventJson.v ===== *)
(** * The capture and wire format

    src/market_event_json.cpp: a [MarketEvent] as a JSON object and back.  The
    recorder, the replay source, the Kafka producer and the Kafka consumer all
    go through these two functions. *)
From S2P Require Import Prelude CxxStrings MarketEvent Json JsonTree.

(** ** The code *)
Section Code.
Context `{JsonOps}.

(** [error_out] is [None] for a null pointer, else what it points to. *)
Definition fail (error_out : option string) (message : string) : bool * option string :=
  (false, match error_out with None => None | Some _ => Some message end).

Definition reject (error_out : option string) (message : string)
    : outcome (option MarketEvent * option string) :=
  Ok (None, (fail error_out message).2).

Definition marketEventToJson (event : MarketEvent) : outcome json :=
  j ← json_set json_null "symbol" (json_of_string (symbol event));
  j ← json_set j "price" (json_of_double (price event));
  j ← json_set j "event_time_ms"
        (json_of_i64 (ms_of_time_point (event_time event)));
  j ← match provider_sequence event with
      | Some n => json_set j "provider_sequence" (json_of_u64 n)
      | None => Ok j
      end;
  json_set j "source" (json_of_string (source event)).

Definition marketEventFromJson (j : json) (error_out : option string)
    : outcome (option MarketEvent * option string) :=
  if negb (json_is_object j) then reject error_out "not a JSON object" else
  bad_symbol ← lacks j "symbol" json_is_string ||!
    (v ← json_at j "symbol"; s ← json_get_string v; Ok (is_empty s));
  if bad_symbol : bool
  then reject error_out ("missing or empty " +:+ quoted "symbol") else
  bad_price ← lacks j "price" json_is_number;
  if bad_price : bool
  then reject error_out ("missing or non-numeric " +:+ quoted "price") else
  bad_time ← lacks j "event_time_ms" json_is_number_integer;
  if bad_time : bool
  then reject error_out ("missing or non-integer " +:+ quoted "event_time_ms") else
  v ← json_at j "symbol"; sym ← json_get_string v;
  v ← json_at j "price"; pr ← json_get_double v;
  v ← json_at j "event_time_ms"; ms ← json_get_i64 v;
  has_seq ← holds j "provider_sequence" json_is_number_integer;
  seq ← (if has_seq : bool
         then v ← json_at j "provider_sequence"; n ← json_get_u64 v; Ok (Some n)
         else Ok None);
  has_src ← holds j "source" json_is_string;
  src ← (if has_src : bool
         then v ← json_at j "source"; json_get_string v
         else Ok EmptyString);
  Ok (Some {| symbol := sym; price := pr; event_time := time_point_of_ms ms;
              provider_sequence := seq; ingest_time := 0; source := src |},
      error_out).

(** [marketEventToJson(event).dump()]: the line the recorder writes and the
    payload the producer sends. *)
Definition event_line (event : MarketEvent) : outcome string :=
  j ← marketEventToJson event; json_dump j.
End Code.

(** ** What the format is *)
Section Spec.
Context `{JsonLaws}.

(** The objects that are events, and the event each one is. *)
Definition json_is_event (j : json) (e : MarketEvent) : Prop :=
  symbol e <> EmptyString /\
  has j "symbol" (ScString (symbol e)) /\
  has j "price" (ScDouble (price e)) /\
  (exists ms, has j "event_time_ms" (ScI64 ms) /\ event_time e = time_point_of_ms ms) /\
  has_optional j "provider_sequence" ScU64 (provider_sequence e) /\
  ingest_time e = 0%Z /\
  exists src, has_optional j "source" ScString src /\ source e = default EmptyString src.

(** What a trip through the format keeps: the time to the millisecond, and
    no receipt time. *)
Definition restored (e : MarketEvent) : MarketEvent := {|
  symbol := symbol e;
  price := price e;
  event_time := event_time e - Z.rem (event_time e) ticks_per_ms;
  provider_sequence := provider_sequence e;
  ingest_time := 0;
  source := source e |}.

Definition event_fields (e : MarketEvent) : list (string * scalar) :=
  [("symbol"%string, ScString (symbol e)); ("price"%string, ScDouble (price e));
   ("event_time_ms"%string, ScI64 (ms_of_time_point (event_time e)))] ++
  match provider_sequence e with
  | Some n => [("provider_sequence"%string, ScU64 n)]
  | None => []
  end ++ [("source"%string, ScString (source e))].

(** The strings of the event are text the library can print. *)
Definition event_utf8 (e : MarketEvent) : Prop :=
  json_utf8 (symbol e) = true /\ json_utf8 (source e) = true.
End Spec.

(** ** Lemmas *)
Section Lemmas.
Context `{JsonLaws}.

Lemma toJson_set_fields e :
  marketEventToJson e = set_fields json_null (event_fields e).
Proof.
  unfold marketEventToJson, event_fields. cbn.
  destruct (provider_sequence e); cbn; repeat (apply bind_ext; intros ?);
    by rewrite bind_ret_r.
Qed.

Lemma event_fields_nodup e : NoDup (event_fields e).*1.
Proof.
  apply (bool_decide_unpack _). unfold event_fields.
  by destruct (provider_sequence e).
Qed.

Lemma event_fields_nonempty e : event_fields e <> [].
Proof. done. Qed.

Lemma event_fields_ok e :
  event_wf e -> event_utf8 e ->
  Forall (fun f => scalar_in_range f.2 /\ scalar_utf8 f.2 = true /\ json_utf8 f.1 = true)
    (event_fields e).
Proof.
  intros [Ht Hn] [Hs Hsrc]. unfold event_fields.
  pose proof (ms_of_time_point_range _ Ht) as [Hms _].
  destruct (provider_sequence e); cbn; rewrite !Forall_cons, Forall_nil; cbn;
    split_and?; try done; by apply json_utf8_ascii.
Qed.

Lemma event_fields_range e :
  event_wf e -> Forall (fun f => scalar_in_range f.2) (event_fields e).
Proof.
  intros [Ht Hn]. pose proof (ms_of_time_point_range _ Ht) as [Hms _].
  unfold event_fields. destruct (provider_sequence e); cbn;
    rewrite !Forall_cons, Forall_nil; cbn; by split_and?.
Qed.

(** [marketEventToJson] builds exactly the five (or four) fields. *)
Lemma toJson_reflects e :
  event_wf e ->
  exists j, marketEventToJson e = Ok j /\ reflects reads j (event_fields e).
Proof.
  intros Hwf. rewrite toJson_set_fields.
  apply set_fields_reflects; auto using event_fields_nonempty, event_fields_nodup,
    event_fields_range.
Qed.

(** The line printed for an event parses to an object with its fields. *)
Lemma event_line_parse e :
  event_wf e -> event_utf8 e ->
  exists s j, event_line e = Ok s /\ json_parse s = Ok j /\
    reflects reads_back j (event_fields e).
Proof.
  intros Hwf Hu. destruct (toJson_reflects e Hwf) as (j0 & Hj0 & _).
  destruct (json_dump_parse (event_fields e) j0) as (s & j & Hs & Hp & Hr);
    auto using event_fields_nonempty, event_fields_nodup, event_fields_ok.
  { by rewrite <-toJson_set_fields. }
  exists s, j. unfold event_line. by rewrite Hj0.
Qed.

(** ** Reading an event *)

(** [marketEventFromJson] with the exceptions resolved: a function of the
    members alone. *)
Definition read_event (j : json) (error_out : option string)
    : option MarketEvent * option string :=
  let err m := (None, (fail error_out m).2) in
  if negb (json_is_object j) then err "not a JSON object"%string else
  match string_field j "symbol" with
  | None => err ("missing or empty " +:+ quoted "symbol")
  | Some sym =>
      if is_empty sym then err ("missing or empty " +:+ quoted "symbol") else
      match double_field j "price" with
      | None => err ("missing or non-numeric " +:+ quoted "price")
      | Some pr =>
          match i64_field j "event_time_ms" with
          | None => err ("missing or non-integer " +:+ quoted "event_time_ms")
          | Some ms =>
              (Some {| symbol := sym; price := pr; event_time := time_point_of_ms ms;
                       provider_sequence := u64_field j "provider_sequence";
                       ingest_time := 0;
                       source := default EmptyString (string_field j "source") |},
               error_out)
          end
      end
  end.

Lemma fromJson_read j error_out :
  marketEventFromJson j error_out = Ok (read_event j error_out).
Proof.
  unfold marketEventFromJson, read_event, reject.
  destruct (negb (json_is_object j)); [done|]. run_json; done.
Qed.

Lemma read_event_Some j eo e eo' :
  read_event j eo = (Some e, eo') <-> eo' = eo /\ json_is_event j e.
Proof.
  unfold json_is_event. setoid_rewrite has_optional_string.
  rewrite has_optional_u64, has_string, has_double. setoid_rewrite has_i64.
  rewrite <-is_empty_spec. split.
  - unfold read_event. intros Hr. destruct (json_is_object j); [|done]. cbn in Hr.
    repeat case_match; simplify_eq/=. split_and!; eauto.
  - intros (-> & Hne & Hs & Hp & (ms & Hms & Ht) & Hn & Hi & src & Hsrc & Hsrc').
    unfold read_event. rewrite (string_field_object _ _ _ Hs), Hs, Hne, Hp, Hms. cbn.
    rewrite Hn, Hsrc, <-Ht, <-Hi, <-Hsrc'. by destruct e.
Qed.

(** ** Round trips *)

Lemma event_fields_elem e :
  ("symbol"%string, ScString (symbol e)) ∈ event_fields e /\
  ("price"%string, ScDouble (price e)) ∈ event_fields e /\
  ("event_time_ms"%string, ScI64 (ms_of_time_point (event_time e))) ∈ event_fields e /\
  ("source"%string, ScString (source e)) ∈ event_fields e /\
  (forall n, provider_sequence e = Some n ->
     ("provider_sequence"%string, ScU64 n) ∈ event_fields e) /\
  (provider_sequence e = None -> "provider_sequence"%string ∉ (event_fields e).*1) /\
  (forall k d, (k, ScDouble d) ∈ event_fields e -> d = price e).
Proof.
  unfold event_fields. destruct (provider_sequence e); cbn;
    repeat setoid_rewrite elem_of_cons; setoid_rewrite elem_of_nil; naive_solver.
Qed.

Lemma event_fields_sequence e j :
  reflects reads j (event_fields e) ->
  u64_field j "provider_sequence" = provider_sequence e.
Proof.
  intros Hj. apply has_optional_u64.
  destruct (event_fields_elem e) as (_ & _ & _ & _ & Hsome & Hnone & _).
  destruct (provider_sequence e) as [n|] eqn:E; cbn.
  - eapply reflects_has; eauto.
  - intros n (v & Hv & _). by rewrite (reflects_none _ _ _ Hj (Hnone eq_refl)) in Hv.
Qed.

(** An object that shows the event's fields reads as the event. *)
Lemma reflects_event e j :
  event_wf e -> symbol e <> EmptyString ->
  reflects reads j (event_fields e) -> json_is_event j (restored e).
Proof.
  intros [Ht Hn] Hs Hj. unfold json_is_event, restored; cbn.
  destruct (event_fields_elem e) as (Es & Ep & Et & Esrc & _).
  split_and!; auto; try by eapply reflects_has.
  - exists (ms_of_time_point (event_time e)). split; [by eapply reflects_has|].
    by rewrite time_point_truncate.
  - by apply has_optional_u64, event_fields_sequence.
  - exists (Some (source e)). split; [|done]. by eapply reflects_has.
Qed.

(** The printed price of a NaN or an infinity is not a number any more. *)
Lemma reflects_back_nonfinite e j :
  is_finite (price e) = false ->
  reflects reads_back j (event_fields e) -> double_field j "price" = None.
Proof.
  intros Hp (_ & Hin & _).
  destruct (Hin "price"%string (ScDouble (price e))) as (Hc & v & Hv & Hr).
  { apply event_fields_elem. }
  cbn in Hr. rewrite Hp in Hr. unfold double_field, field_as.
  rewrite (proj2 (json_field_Some j "price" v)) by done. cbn. by rewrite Hr.
Qed.

(** The text form: what [event_line] prints reads back. *)
Lemma event_line_read e eo :
  event_wf e -> event_utf8 e -> symbol e <> EmptyString ->
  is_finite (price e) = true ->
  exists s j, event_line e = Ok s /\ json_parse s = Ok j /\
    marketEventFromJson j eo = Ok (Some (restored e), eo).
Proof.
  intros Hwf Hu Hs Hp. destruct (event_line_parse e Hwf Hu) as (s & j & Hl & Hj & Hr).
  exists s, j. split; [done|]. split; [done|]. rewrite fromJson_read. f_equal.
  apply read_event_Some. split; [done|]. apply reflects_event; auto.
  apply reflects_finite; [done|].
  destruct (event_fields_elem e) as (_ & _ & _ & _ & _ & _ & Hd). by intros k d ->%Hd.
Qed.

Lemma restored_idemp e : event_wf e -> restored (restored e) = restored e.
Proof.
  intros [Ht _]. unfold restored; cbn. f_equal.
  pose proof (Z.quot_rem' (event_time e) ticks_per_ms).
  set (q := (event_time e ÷ ticks_per_ms)%Z) in *.
  replace (event_time e - Z.rem (event_time e) ticks_per_ms)%Z with (q * ticks_per_ms)%Z by lia.
  rewrite Z.rem_mul by done. lia.
Qed.
End Lemmas.

(** ** Properties *)

(** The event of tests/market_event_json_test.cpp. *)
Definition sampleEvent : MarketEvent := {|
  symbol := "BTCUSDT";
  price := S754_finite false 8992919347475251 (-37);
  event_time := time_point_of_ms 1735500000119;
  provider_sequence := Some 98765432%Z;
  ingest_time := 77;
  source := "live:binance" |}.

Lemma sampleEvent_ok : event_wf sampleEvent /\ event_utf8 sampleEvent.
Proof. split; vm_compute; intuition congruence. Qed.

(** A value round trip.  Whatever the price, an event with a symbol that is
    turned into JSON and read back is accepted, and is the same event up to
    the two things the format does not carry: the receipt time and the part of
    the event time below the millisecond. *)
Theorem json_value_roundtrip `{JsonLaws} e eo :
  event_wf e -> symbol e <> EmptyString ->
  (j ← marketEventToJson e; marketEventFromJson j eo) = Ok (Some (restored e), eo).
Proof.
  intros Hwf Hs. destruct (toJson_reflects e Hwf) as (j & -> & Hj).
  rewrite bind_ok, fromJson_read. f_equal. apply read_event_Some.
  auto using reflects_event.
Qed.

Lemma json_value_roundtrip_witness :
  (j ← marketEventToJson sampleEvent; marketEventFromJson j None) =
  Ok (Some (restored sampleEvent), None).
Proof. apply json_value_roundtrip; [apply sampleEvent_ok|done]. Defined.

(** C16: a text round trip.  The line [marketEventToJson(event).dump()] of an
    event with a symbol, a finite price and printable strings parses, and
    reads back as the same event up to receipt time and milliseconds. *)
Theorem json_text_roundtrip `{JsonLaws} e eo :
  event_wf e -> event_utf8 e -> symbol e <> EmptyString -> is_finite (price e) = true ->
  (s ← event_line e; j ← json_parse s; marketEventFromJson j eo) =
  Ok (Some (restored e), eo).
Proof.
  intros Hwf Hu Hs Hp.
  destruct (event_line_read e eo Hwf Hu Hs Hp) as (s & j & -> & Hj & Hr).
  by rewrite bind_ok, Hj, bind_ok.
Qed.

Lemma json_text_roundtrip_witness :
  (s ← event_line sampleEvent; j ← json_parse s; marketEventFromJson j None) =
  Ok (Some (restored sampleEvent), None).
Proof. apply json_text_roundtrip; [apply sampleEvent_ok..|done|done]. Defined.

(** A document whose time no 64-bit count of nanoseconds holds, and what is
    read from it. *)
Definition far_event : @json tree_ops :=
  jobject [("symbol"%string, GenLeaf (AString "BTCUSDT"));
           ("price"%string, GenLeaf (AInt 1));
           ("event_time_ms"%string, GenLeaf (AInt 9223372036854775807))].

Definition far_event_read : MarketEvent := {|
  symbol := "BTCUSDT"; price := S754_finite false 4503599627370496 (-52);
  event_time := time_point_of_ms int64_max;
  provider_sequence := None; ingest_time := 0; source := EmptyString |}.

(** What [marketEventFromJson] accepts.  It returns an event exactly when
    the document is an object with a non-empty string symbol, a numeric price
    and an integer time; the event holds those members, a sequence number or a
    source of another type counts as absent, the receipt time is left at its
    default, and [error_out] is not written. *)
Theorem fromJson_accepts `{JsonLaws} j eo e eo' :
  marketEventFromJson j eo = Ok (Some e, eo') <-> eo' = eo /\ json_is_event j e.
Proof. rewrite fromJson_read, <-read_event_Some. split; [by intros [= ->]|by intros ->]. Qed.

Lemma fromJson_accepts_witness :
  @json_is_event tree_ops far_event far_event_read.
Proof.
  apply (fromJson_accepts far_event None far_event_read None).
  vm_compute. reflexivity.
Defined.

(** [marketEventFromJson] never throws, whatever the document, and when it
    rejects one it has written a non-empty reason where [error_out] points, if
    it points anywhere. *)
Theorem fromJson_rejects `{JsonLaws} j eo :
  (exists e, marketEventFromJson j eo = Ok (Some e, eo)) \/
  (exists reason, reason <> EmptyString /\
     marketEventFromJson j eo =
     Ok (None, match eo with None => None | Some _ => Some reason end)).
Proof.
  rewrite fromJson_read. unfold read_event.
  repeat case_match; simplify_eq/=;
    solve [left; by eexists | right; by exists "reason"%string
          | right; eexists; (split; [|reflexivity]); done].
Qed.

Lemma fromJson_rejects_witness :
  ((exists e, marketEventFromJson (GenLeaf ANull : @json tree_ops) (Some "") =
      Ok (Some e, Some ""%string)) \/
   (exists reason, reason <> EmptyString /\
      marketEventFromJson (GenLeaf ANull : @json tree_ops) (Some "") =
      Ok (None, Some reason))) /\
  marketEventFromJson (GenLeaf ANull : @json tree_ops) (Some "") =
    Ok (None, Some "not a JSON object"%string).
Proof.
  split; [apply (fromJson_rejects (GenLeaf ANull : @json tree_ops) (Some ""%string))|done].
Defined.

(** An event whose price is NaN or infinite does not survive the text
    form: its line is written without error, but the line is then refused, so
    the recorder's capture and the Kafka topic hold a record no reader
    accepts. *)
Theorem nonfinite_price_lost `{JsonLaws} e :
  event_wf e -> event_utf8 e -> is_finite (price e) = false ->
  exists s j, event_line e = Ok s /\ json_parse s = Ok j /\
    (marketEventFromJson j None = Ok (None, None)).
Proof.
  intros Hwf Hu Hp. destruct (event_line_parse e Hwf Hu) as (s & j & Hl & Hj & Hr).
  exists s, j. split; [done|]. split; [done|]. rewrite fromJson_read. unfold read_event.
  rewrite (reflects_back_nonfinite e j Hp Hr). by repeat case_match.
Qed.

Definition nan_event : MarketEvent := {|
  symbol := "BTCUSDT"; price := S754_nan; event_time := 0;
  provider_sequence := None; ingest_time := 0; source := "live:binance" |}.

Lemma nonfinite_price_lost_witness :
  exists s j, event_line nan_event = Ok s /\ json_parse s = Ok j /\
    (marketEventFromJson j None = Ok (None, None)).
Proof.
  apply (nonfinite_price_lost nan_event); [vm_compute; intuition congruence|done|done].
Defined.

(** C40: the event time of an accepted document is the document's
    [event_time_ms] exactly when that count fits 64-bit nanoseconds: no range
    check stands between the integer of the document and the multiplication. *)
Theorem event_time_exact_iff `{JsonLaws} j eo e ms :
  marketEventFromJson j eo = Ok (Some e, eo) ->
  has j "event_time_ms" (ScI64 ms) ->
  ms_of_time_point (event_time e) = ms <-> ms_representable ms.
Proof.
  rewrite fromJson_read. intros [= (_ & _ & _ & _ & (ms' & Hms' & ->) & _)%read_event_Some] Hms.
  rewrite has_i64 in Hms, Hms'. simplify_eq. split; [|apply ms_of_time_point_of_ms].
  intros <-. apply ms_of_time_point_range, time_point_of_ms_range.
Qed.

Lemma event_time_exact_iff_witness :
  marketEventFromJson far_event None = Ok (Some far_event_read, None) /\
  (ms_of_time_point (event_time far_event_read) = int64_max <-> ms_representable int64_max).
Proof.
  assert (Hr : marketEventFromJson far_event None = Ok (Some far_event_read, None))
    by (vm_compute; reflexivity).
  split; [exact Hr|]. apply (event_time_exact_iff far_event None _ _ Hr).
  exists (GenLeaf (AInt int64_max)). split; [vm_compute; reflexivity|].
  split; vm_compute; reflexivity.
Defined.
