(* ===== verification/CxxNumeric.v ===== *)
(** * Reading numbers: [std::from_chars] for [double]

    The one conversion the trade parser performs itself.  The C++20 standard
    ([charconv.from.chars]) fixes it: the longest prefix that [strtod] would
    accept in the C locale, without leading blanks or a leading plus sign, is
    converted to the nearest [double]; [ptr] is left after that prefix. *)
From S2P Require Import Prelude CxxStrings MarketEvent.

(** ** Scanning *)

Definition digit_value (c : ascii) : option Z :=
  let n := nat_of_ascii c in
  if bool_decide (48 <= n <= 57) then Some (Z.of_nat n - 48)%Z else None.

(** The longest prefix of decimal digits. *)
Fixpoint scan_digits (s : string) : list Z * string :=
  match s with
  | EmptyString => ([], EmptyString)
  | String c s' =>
      match digit_value c with
      | None => ([], s)
      | Some d => let '(ds, r) := scan_digits s' in (d :: ds, r)
      end
  end.

Definition digits_value (ds : list Z) : Z :=
  foldl (fun acc d => 10 * acc + d)%Z 0%Z ds.

(** Digits with an optional point: the digits, how many follow the point, and
    the bytes left.  At least one digit is needed. *)
Definition scan_significand (s : string) : option (list Z * nat * string) :=
  let '(ip, r) := scan_digits s in
  let '(fp, r) :=
    match r with
    | String "."%char r' => scan_digits r'
    | _ => ([], r)
    end in
  if bool_decide (ip ++ fp = []) then None else Some (ip ++ fp, length fp, r).

(** [e] or [E], an optional sign and at least one digit; anything else is not
    an exponent and stays unread. *)
Definition scan_exponent (s : string) : Z * string :=
  match s with
  | String c r =>
      if bool_decide (tolower c = "e"%char) then
        let '(neg, r1) :=
          match r with
          | String "-"%char r' => (true, r')
          | String "+"%char r' => (false, r')
          | _ => (false, r)
          end in
        match scan_digits r1 with
        | ([], _) => (0%Z, s)
        | (ds, r2) => ((if neg then - digits_value ds else digits_value ds)%Z, r2)
        end
      else (0%Z, s)
  | EmptyString => (0%Z, s)
  end.

(** The bytes after the word [w], read without regard to case. *)
Fixpoint scan_word (w s : string) : option string :=
  match w, s with
  | EmptyString, _ => Some s
  | String a w', String c s' =>
      if bool_decide (tolower c = a) then scan_word w' s' else None
  | String _ _, EmptyString => None
  end.

(** The optional [(n-char-sequence)] after [nan]. *)
Fixpoint scan_nan_payload (s : string) : option string :=
  match s with
  | String ")"%char s' => Some s'
  | String c s' =>
      let n := nat_of_ascii (tolower c) in
      if bool_decide (97 <= n <= 122 \/ 48 <= n <= 57 \/ c = "_"%char)
      then scan_nan_payload s' else None
  | EmptyString => None
  end.

(** ** Rounding *)

(** [(-1)^neg * m * 10^e], rounded to nearest, ties to even. *)
Definition decimal_to_double (neg : bool) (m e : Z) : double :=
  match m with
  | Z.pos p =>
      if bool_decide (0 <= e)%Z then
        binary_round prec64 emax64 neg (Z.to_pos (Z.pos p * 10 ^ e)) 0
      else
        let '(mz, ez, lz) := SFdiv_core_binary prec64 emax64 (Z.pos p) 0 (10 ^ (- e)) 0 in
        binary_round_aux prec64 emax64 neg mz ez lz
  | _ => S754_zero neg
  end.

(** ** from_chars *)
Inductive errc := errc_ok | invalid_argument | result_out_of_range.

#[export] Instance errc_eq_dec : EqDecision errc.
Proof. solve_decision. Defined.

Record from_chars_result := { fc_ec : errc; fc_ptr : string }.

Definition scan_special (neg : bool) (s : string) : option (double * string) :=
  match scan_word "infinity" s with
  | Some r => Some (S754_infinity neg, r)
  | None =>
      match scan_word "inf" s with
      | Some r => Some (S754_infinity neg, r)
      | None =>
          match scan_word "nan" s with
          | Some r =>
              match r with
              | String "("%char r' => Some (S754_nan, default r (scan_nan_payload r'))
              | _ => Some (S754_nan, r)
              end
          | None => None
          end
      end
  end.

(** The value a scanned number denotes; [None] when no finite non-zero double
    is near a non-zero number. *)
Definition decimal_in_range (neg : bool) (m e : Z) : option double :=
  let d := decimal_to_double neg m e in
  match d with
  | S754_infinity _ => None
  | S754_zero _ => if bool_decide (m = 0)%Z then Some d else None
  | _ => Some d
  end.

(** [std::from_chars(s.data(), s.data() + s.size(), value)]: the result and
    the new content of [value], untouched on error.  [fc_ptr] is the suffix
    [ptr] points to. *)
Definition from_chars_double (s : string) (value : double)
    : from_chars_result * double :=
  let '(neg, r) :=
    match s with String "-"%char r => (true, r) | _ => (false, s) end in
  match scan_special neg r with
  | Some (d, r') => ({| fc_ec := errc_ok; fc_ptr := r' |}, d)
  | None =>
      match scan_significand r with
      | None => ({| fc_ec := invalid_argument; fc_ptr := s |}, value)
      | Some (ds, k, r1) =>
          let '(e, r2) := scan_exponent r1 in
          match decimal_in_range neg (digits_value ds) (e - Z.of_nat k) with
          | Some d => ({| fc_ec := errc_ok; fc_ptr := r2 |}, d)
          | None => ({| fc_ec := result_out_of_range; fc_ptr := r2 |}, value)
          end
      end
  end.

(** ** Examples, evaluated *)

Example from_chars_price :
  from_chars_double "65432.10000000" double_zero
  = ({| fc_ec := errc_ok; fc_ptr := "" |},
     S754_finite false 8992919347475251 (-37)) .
Proof. vm_compute. reflexivity. Qed.

Example from_chars_integer :
  from_chars_double "3" double_zero
  = ({| fc_ec := errc_ok; fc_ptr := "" |}, S754_finite false 6755399441055744 (-51)).
Proof. vm_compute. reflexivity. Qed.

Example from_chars_word :
  fc_ec (fst (from_chars_double "not-a-number" double_zero)) = invalid_argument.
Proof. reflexivity. Qed.

Example from_chars_overflow :
  fc_ec (fst (from_chars_double "1e400" double_zero)) = result_out_of_range.
Proof. vm_compute. reflexivity. Qed.

Example from_chars_stops_early :
  fc_ptr (fst (from_chars_double "1.5e+x" double_zero)) = "e+x"%string.
Proof. vm_compute. reflexivity. Qed.

(** ** Lemmas *)

(** Nothing is stored unless the conversion succeeded. *)
Lemma from_chars_error_value s v :
  fc_ec (fst (from_chars_double s v)) <> errc_ok -> snd (from_chars_double s v) = v.
Proof. unfold from_chars_double. repeat case_match; by simplify_eq/=. Qed.

(** On success the content [value] had before does not matter. *)
Lemma from_chars_value_irrelevant s v v' :
  fc_ec (fst (from_chars_double s v)) = errc_ok ->
  from_chars_double s v = from_chars_double s v'.
Proof. unfold from_chars_double. repeat case_match; by simplify_eq/=. Qed.

Lemma scan_word_app w r : string_tolower w = w -> scan_word w (w +:+ r) = Some r.
Proof.
  induction w as [|c w IH]; [done|]. cbn [string_tolower]. intros Hw.
  injection Hw as Hc Hw. change (String c w +:+ r) with (String c (w +:+ r)).
  cbn [scan_word].
  rewrite Hc, bool_decide_eq_true_2 by done. auto.
Qed.
