(* ===== verification/CommandLine.v ===== *)
(** * The command line of the services

    The argument loop of services/ingestion/main.cpp, with the [std::stoul] it
    calls and the [std::to_string] that prints what it reads.  An [argv] is the
    list of its strings, the program's name first. *)
From S2P Require Import Prelude CxxStrings CxxNumeric.

(** ** std::to_string and std::stoul *)

(** [isspace] in the C locale. *)
Definition is_space (c : ascii) : bool :=
  let n := nat_of_ascii c in bool_decide (n = 32 \/ 9 <= n <= 13).

Fixpoint skip_spaces (s : string) : string :=
  match s with
  | String c s' => if is_space c then skip_spaces s' else s
  | EmptyString => EmptyString
  end.

(** An optional sign; true for a minus. *)
Definition scan_sign (s : string) : bool * string :=
  match s with
  | String "-"%char r => (true, r)
  | String "+"%char r => (false, r)
  | _ => (false, s)
  end.

(** [std::stoul(s)], which is [strtoul] to the base 10: blanks, a sign and
    digits; what follows the digits is not looked at, and a negative number is
    converted modulo 2^64. *)
Definition stoul (s : string) : outcome Z :=
  let '(neg, r) := scan_sign (skip_spaces s) in
  match scan_digits r with
  | ([], _) => Throw (InvalidArgument "stoul")
  | (ds, _) =>
      let n := digits_value ds in
      if bool_decide (n < two64)%Z
      then Ok (if neg then wrap_u64 (- n) else n)
      else Throw (StdOutOfRange "stoul")
  end.

Definition digit_char (d : Z) : ascii := ascii_of_nat (48 + Z.to_nat d).

Fixpoint decimal_digits (fuel : nat) (n : Z) : list Z :=
  match fuel with
  | 0 => []
  | S fuel =>
      if bool_decide (n < 10)%Z then [n] else decimal_digits fuel (n / 10) ++ [(n mod 10)%Z]
  end.

Fixpoint string_of_digits (ds : list Z) : string :=
  match ds with
  | [] => EmptyString
  | d :: ds => String (digit_char d) (string_of_digits ds)
  end.

(** [std::to_string] of an unsigned number. *)
Definition to_string (n : Z) : string :=
  string_of_digits (decimal_digits (S (Z.to_nat (Z.log2 n))) n).

(** ** The code *)

(** The locals of [main] that the arguments set. *)
Record Options := { replay_path : string; record_path : string; queue_capacity_arg : Z }.

Definition default_options : Options :=
  {| replay_path := ""; record_path := ""; queue_capacity_arg := 1024 |}.
Definition set_replay (s : string) (o : Options) : Options :=
  {| replay_path := s; record_path := record_path o; queue_capacity_arg := queue_capacity_arg o |}.
Definition set_record (s : string) (o : Options) : Options :=
  {| replay_path := replay_path o; record_path := s; queue_capacity_arg := queue_capacity_arg o |}.
Definition set_capacity (n : Z) (o : Options) : Options :=
  {| replay_path := replay_path o; record_path := record_path o; queue_capacity_arg := n |}.

(** [argv[i]]; the code only reads below [argc]. *)
Definition arg_at (argv : list string) (i : nat) : string := default EmptyString (argv !! i).

(** The loop from index [i] on, for at most [fuel] turns ([None]: more). *)
Fixpoint arg_loop (fuel : nat) (argv : list string) (i : nat) (o : Options)
    : option (outcome Options) :=
  if bool_decide (i < length argv) then
    match fuel with
    | 0 => None
    | S fuel =>
        let arg := arg_at argv i in
        let more := bool_decide (i + 1 < length argv) in
        if String.eqb arg "--replay" && more then
          arg_loop fuel argv (i + 2) (set_replay (arg_at argv (i + 1)) o)
        else if String.eqb arg "--record" && more then
          arg_loop fuel argv (i + 2) (set_record (arg_at argv (i + 1)) o)
        else if String.eqb arg "--queue-capacity" && more then
          match stoul (arg_at argv (i + 1)) with
          | Ok n => arg_loop fuel argv (i + 2) (set_capacity n o)
          | Throw x => Some (Throw x)
          end
        else arg_loop fuel argv (i + 1) o
    end
  else Some (Ok o).

Definition parse_args (argv : list string) : option (outcome Options) :=
  arg_loop (length argv) argv 1 default_options.

(** ** Numbers *)

Definition digits_ok (ds : list Z) : Prop := Forall (fun d => 0 <= d < 10)%Z ds.

(** What comes after a number does not go on with a digit. *)
Definition no_digit (s : string) : Prop :=
  match s with String c _ => digit_value c = None | EmptyString => True end.

Lemma digit_value_char d : (0 <= d < 10)%Z -> digit_value (digit_char d) = Some d.
Proof.
  intros Hd. unfold digit_value, digit_char. rewrite nat_ascii_embedding by lia.
  rewrite bool_decide_eq_true_2 by lia. f_equal. lia.
Qed.

Lemma scan_digits_string ds rest :
  digits_ok ds -> no_digit rest -> scan_digits (string_of_digits ds +:+ rest) = (ds, rest).
Proof.
  intros Hds Hr. induction Hds as [|d ds Hd Hds IH].
  - destruct rest as [|c rest]; [done|]. unfold no_digit in Hr.
    change (string_of_digits [] +:+ String c rest) with (String c rest).
    cbn [scan_digits]. by rewrite Hr.
  - change (string_of_digits (d :: ds) +:+ rest) with
      (String (digit_char d) (string_of_digits ds +:+ rest)).
    cbn [scan_digits]. by rewrite digit_value_char, IH.
Qed.

Lemma digits_value_snoc ds d : digits_value (ds ++ [d]) = (10 * digits_value ds + d)%Z.
Proof. unfold digits_value. by rewrite foldl_app. Qed.

Lemma digits_value_pos ds : digits_ok ds -> (0 <= digits_value ds)%Z.
Proof.
  induction ds as [|d ds IH] using rev_ind; [done|].
  intros [Hds Hd]%Forall_app. apply Forall_inv in Hd. rewrite digits_value_snoc.
  specialize (IH Hds). lia.
Qed.

Lemma decimal_digits_spec fuel : forall n,
  (0 <= n < 2 ^ Z.of_nat fuel)%Z -> 0 < fuel ->
  digits_ok (decimal_digits fuel n) /\ digits_value (decimal_digits fuel n) = n /\
  decimal_digits fuel n <> [].
Proof.
  induction fuel as [|fuel IH]; intros n Hn Hf; [lia|]. cbn [decimal_digits].
  case_bool_decide as H10; [split_and!; [repeat constructor; lia|done|done]|].
  rewrite Nat2Z.inj_succ, Z.pow_succ_r in Hn by lia.
  assert (Hdiv : (0 <= n / 10 < 2 ^ Z.of_nat fuel)%Z)
    by (split; [apply Z.div_pos; lia|apply Z.div_lt_upper_bound; lia]).
  destruct (IH (n / 10)%Z Hdiv) as (Hok & Hv & _).
  { destruct fuel; [cbn in Hn; lia|lia]. }
  pose proof (Z.mod_pos_bound n 10). split_and!.
  - apply Forall_app. split; [done|]. apply Forall_singleton. lia.
  - rewrite digits_value_snoc, Hv. symmetry. by apply Z.div_mod.
  - by destruct (decimal_digits fuel (n / 10)).
Qed.

Lemma to_string_digits n : (0 <= n)%Z ->
  exists ds, to_string n = string_of_digits ds /\ digits_ok ds /\ digits_value ds = n /\ ds <> [].
Proof.
  intros Hn. eexists. split; [reflexivity|]. apply decimal_digits_spec; [|lia].
  rewrite Nat2Z.inj_succ, Z2Nat.id by apply Z.log2_nonneg. split; [done|].
  destruct (Z.eq_dec n 0) as [->|]; [done|]. apply Z.log2_spec. lia.
Qed.

(** A digit is neither a blank nor a sign. *)
Lemma skip_spaces_digits ds rest :
  digits_ok ds -> ds <> [] ->
  skip_spaces (string_of_digits ds +:+ rest) = string_of_digits ds +:+ rest /\
  scan_sign (string_of_digits ds +:+ rest) = (false, string_of_digits ds +:+ rest).
Proof.
  intros Hds Hne. destruct Hds as [|d ds Hd _]; [done|].
  assert (Hc : In d [0; 1; 2; 3; 4; 5; 6; 7; 8; 9]%Z) by (cbn; lia).
  cbn in Hc. by repeat (destruct Hc as [<-|Hc]; [split; reflexivity|]).
Qed.

(** What [stoul] makes of blanks, a sign and digits. *)
Definition stoul_value (neg : bool) (n : Z) : outcome Z :=
  if bool_decide (n < two64)%Z then Ok (if neg then wrap_u64 (- n) else n)
  else Throw (StdOutOfRange "stoul").

Lemma stoul_plain n rest :
  (0 <= n)%Z -> no_digit rest -> stoul (to_string n +:+ rest) = stoul_value false n.
Proof.
  intros Hn Hr. destruct (to_string_digits n Hn) as (ds & -> & Hds & Hv & Hne). unfold stoul.
  destruct (skip_spaces_digits ds rest Hds Hne) as [-> ->].
  rewrite scan_digits_string by done. destruct ds; [done|]. unfold stoul_value. by rewrite Hv.
Qed.

Lemma stoul_minus n rest :
  (0 <= n)%Z -> no_digit rest ->
  stoul (String "-" (to_string n +:+ rest)) = stoul_value true n.
Proof.
  intros Hn Hr. destruct (to_string_digits n Hn) as (ds & -> & Hds & Hv & Hne). unfold stoul.
  change (scan_sign (skip_spaces (String "-" (string_of_digits ds +:+ rest)))) with
    (true, string_of_digits ds +:+ rest).
  cbv beta iota zeta. rewrite scan_digits_string by done. destruct ds; [done|]. unfold stoul_value. by rewrite Hv.
Qed.

Lemma digit_value_range c d : digit_value c = Some d -> (0 <= d < 10)%Z.
Proof. unfold digit_value. case_bool_decide; [|done]. intros [= <-]. lia. Qed.

Lemma scan_digits_ok s : digits_ok (scan_digits s).1.
Proof.
  induction s as [|c s IH]; cbn; [constructor|].
  destruct (digit_value c) as [d|] eqn:Hd; cbn; [|constructor].
  destruct (scan_digits s) as [ds r]. constructor; [by eapply digit_value_range|done].
Qed.

Lemma stoul_range s n : stoul s = Ok n -> in_u64 n.
Proof.
  unfold stoul. destruct (scan_sign (skip_spaces s)) as [neg r].
  pose proof (scan_digits_ok r) as Hok. destruct (scan_digits r) as [[|d ds] r']; [done|].
  apply digits_value_pos in Hok. cbn [fst] in Hok.
  case_bool_decide as Hlt; [|done]. intros [= <-]. destruct neg; [apply wrap_u64_range|].
  by split.
Qed.

(** ** The arguments, read one after another *)

Inductive setting :=
  | Replay (path : string)
  | Record_ (path : string)
  | Capacity (text : string)
  | Ignored (arg : string).

Definition option_named (arg : string) : option (string -> setting) :=
  if String.eqb arg "--replay" then Some Replay
  else if String.eqb arg "--record" then Some Record_
  else if String.eqb arg "--queue-capacity" then Some Capacity
  else None.

(** An option takes the next argument, whatever it is; an option with nothing
    after it is no option. *)
Fixpoint settings (args : list string) : list setting :=
  match args with
  | [] => []
  | arg :: rest =>
      match option_named arg, rest with
      | Some make, value :: rest => make value :: settings rest
      | _, _ => Ignored arg :: settings rest
      end
  end.

Definition replays (ss : list setting) : list string :=
  omap (fun s => match s with Replay p => Some p | _ => None end) ss.
Definition records (ss : list setting) : list string :=
  omap (fun s => match s with Record_ p => Some p | _ => None end) ss.
Definition capacities (ss : list setting) : list string :=
  omap (fun s => match s with Capacity t => Some t | _ => None end) ss.

(** [stoul] on each text in turn. *)
Fixpoint stouls (ts : list string) : outcome (list Z) :=
  match ts with
  | [] => Ok []
  | t :: ts => n ← stoul t; ns ← stouls ts; Ok (n :: ns)
  end.

(** The last of each kind counts; every capacity is converted. *)
Definition settle (ss : list setting) (o : Options) : outcome Options :=
  ns ← stouls (capacities ss);
  Ok {| replay_path := List.last (replays ss) (replay_path o);
        record_path := List.last (records ss) (record_path o);
        queue_capacity_arg := List.last ns (queue_capacity_arg o) |}.

Lemma last_cons {A} (x : A) l d : List.last (x :: l) d = List.last l x.
Proof.
  revert x d. induction l as [|y l IH]; intros x d; [done|].
  transitivity (List.last l y); [exact (IH y d)|symmetry; exact (IH y x)].
Qed.

Lemma settle_step s ss o :
  settle (s :: ss) o =
  match s with
  | Replay p => settle ss (set_replay p o)
  | Record_ p => settle ss (set_record p o)
  | Capacity t => n ← stoul t; settle ss (set_capacity n o)
  | Ignored _ => settle ss o
  end.
Proof.
  unfold settle. destruct s as [p|p|t|a]; cbn [replays records capacities omap list_omap];
    fold (replays ss) (records ss) (capacities ss).
  - destruct (stouls (capacities ss)); [|done]. cbn. do 2 f_equal. apply last_cons.
  - destruct (stouls (capacities ss)); [|done]. cbn. do 2 f_equal. apply last_cons.
  - cbn [stouls]. destruct (stoul t) as [n|x]; [|done]. cbn.
    destruct (stouls (capacities ss)) as [ns|x]; [|done]. cbn -[List.last].
    by rewrite last_cons.
  - done.
Qed.

Lemma settings_settle arg rest o :
  settle (settings (arg :: rest)) o =
  match option_named arg, rest with
  | Some make, value :: rest => settle (make value :: settings rest) o
  | _, _ => settle (settings rest) o
  end.
Proof.
  cbn [settings]. destruct (option_named arg); [destruct rest|]; rewrite ?settle_step; done.
Qed.

Lemma drop_lookup_cons {A} (l : list A) i x rest :
  drop i l = x :: rest -> l !! i = Some x /\ drop (S i) l = rest.
Proof.
  intros Hd. split.
  - by rewrite <-(Nat.add_0_r i), <-lookup_drop, Hd.
  - by rewrite <-Nat.add_1_r, <-drop_drop, Hd.
Qed.

(** The loop by index is the reading of the list. *)
Lemma arg_loop_settle fuel : forall argv i o,
  length argv <= i + fuel ->
  arg_loop fuel argv i o = Some (settle (settings (drop i argv)) o).
Proof.
  induction fuel as [|fuel IH]; intros argv i o Hlen; cbn [arg_loop];
    (case_bool_decide as Hi; [|rewrite drop_ge by lia; by destruct o]); [lia|].
  destruct (drop i argv) as [|arg rest] eqn:Hd;
    [apply (f_equal length) in Hd; rewrite length_drop in Hd; cbn in Hd; lia|].
  destruct (drop_lookup_cons _ _ _ _ Hd) as [Harg Hrest].
  assert (Hmore : bool_decide (i + 1 < length argv) = match rest with [] => false | _ => true end).
  { assert (Hl : length rest = length argv - S i) by (by rewrite <-Hrest, length_drop).
    destruct rest; cbn in Hl; case_bool_decide; try done; lia. }
  assert (Hval : forall v rest', rest = v :: rest' ->
    arg_at argv (i + 1) = v /\ drop (i + 2) argv = rest').
  { intros v rest' ->. destruct (drop_lookup_cons _ _ _ _ Hrest) as [Hv Hr].
    rewrite Nat.add_1_r. unfold arg_at. rewrite Hv. split; [done|].
    by replace (i + 2) with (S (S i)) by lia. }
  assert (Ha : arg_at argv i = arg) by (unfold arg_at; by rewrite Harg).
  rewrite settings_settle, Hmore, Ha.
  unfold option_named. destruct rest as [|v rest].
  - rewrite !andb_false_r, IH, Nat.add_1_r, Hrest by lia. by repeat case_match.
  - destruct (Hval v rest eq_refl) as [-> Hr2]. rewrite !andb_true_r.
    destruct (String.eqb arg "--replay"); [by rewrite settle_step, IH, Hr2 by lia|].
    destruct (String.eqb arg "--record"); [by rewrite settle_step, IH, Hr2 by lia|].
    destruct (String.eqb arg "--queue-capacity").
    + rewrite settle_step. destruct (stoul v); [by rewrite IH, Hr2 by lia|done].
    + by rewrite IH, Nat.add_1_r, Hrest by lia.
Qed.

(** ** Properties *)

(** C34: what the argument loop computes.  For every command line the loop
    ends within its turns, never reads past the end, and yields what reading
    the arguments one after another yields: an option takes the argument after
    it, whatever that is; the last of each kind counts; an option that is the
    last argument and everything unknown are passed over; and the first
    [--queue-capacity] whose value is no number ends it with the exception. *)
Theorem parse_args_settings (argv : list string) :
  parse_args argv = Some (settle (settings (drop 1 argv)) default_options).
Proof. unfold parse_args. apply arg_loop_settle. lia. Qed.

Lemma parse_args_capacity prog text :
  parse_args [prog; "--queue-capacity"; text]%string =
  Some (n ← stoul text; Ok (set_capacity n default_options)).
Proof.
  unfold parse_args. rewrite arg_loop_settle by (cbn; lia).
  change (settings (drop 1 [prog; "--queue-capacity"; text]%string)) with [Capacity text].
  rewrite settle_step. by destruct (stoul text).
Qed.

Lemma parse_args_range argv o : parse_args argv = Some (Ok o) -> in_u64 (queue_capacity_arg o).
Proof.
  unfold parse_args. rewrite arg_loop_settle by lia. intros [= Hs].
  unfold settle in Hs. destruct (stouls _) as [ns|x] eqn:E; [|done]. injection Hs as <-. cbn.
  assert (Hns : Forall in_u64 ns).
  { clear -E. revert ns E. induction (capacities _) as [|t ts IH]; cbn; [by intros ns [= <-]|].
    intros ns. destruct (stoul t) as [m|] eqn:Em; [|done]. cbn.
    destruct (stouls ts) as [ms|]; [|done]. intros [= <-].
    constructor; [by eapply stoul_range|by apply IH]. }
  destruct (exists_last (l := 1024%Z :: ns) ltac:(done)) as (l & m & El).
  rewrite <-(last_cons 1024%Z ns 0%Z), El, List.last_last.
  assert (Hall : Forall in_u64 (1024%Z :: ns)) by (constructor; [done|exact Hns]).
  rewrite El in Hall. apply Forall_app in Hall as [_ Hm]. by apply Forall_inv in Hm.
Qed.

(** C35: the queue's capacity on the command line.  A number below 2^64 is
    the capacity, with whatever other than a digit follows it; a larger one
    ends the program with [out_of_range]; a negative one is taken modulo 2^64,
    so that -1 asks for 2^64 - 1 places; and whatever the command line, the
    capacity fits [std::size_t]. *)
Theorem capacity_argument (prog : string) (n : Z) (rest : string)
  (Hn : (0 <= n)%Z) (Hr : no_digit rest) :
  parse_args [prog; "--queue-capacity"; to_string n +:+ rest]%string =
    Some (if bool_decide (n < two64)%Z then Ok (set_capacity n default_options)
          else Throw (StdOutOfRange "stoul")) /\
  parse_args [prog; "--queue-capacity"; String "-" (to_string n +:+ rest)]%string =
    Some (if bool_decide (n < two64)%Z then Ok (set_capacity (wrap_u64 (- n)) default_options)
          else Throw (StdOutOfRange "stoul")) /\
  forall argv o, parse_args argv = Some (Ok o) -> in_u64 (queue_capacity_arg o).
Proof.
  rewrite !parse_args_capacity, stoul_plain, stoul_minus by done. unfold stoul_value.
  split; [by case_bool_decide|]. split; [by case_bool_decide|].
  exact parse_args_range.
Qed.

Lemma capacity_argument_witness :
  parse_args ["ingestion"; "--queue-capacity"; "-1"]%string =
    Some (Ok (set_capacity 18446744073709551615 default_options)) /\
  parse_args ["ingestion"; "--queue-capacity"; "64k"]%string =
    Some (Ok (set_capacity 64 default_options)) /\
  parse_args ["ingestion"; "--queue-capacity"; "18446744073709551616"]%string =
    Some (Throw (StdOutOfRange "stoul")).
Proof.
  split_and!.
  - exact (proj1 (proj2 (capacity_argument "ingestion" 1 "" ltac:(lia) I))).
  - exact (proj1 (capacity_argument "ingestion" 64 "k" ltac:(lia) eq_refl)).
  - exact (proj1 (capacity_argument "ingestion" 18446744073709551616 "" ltac:(lia) I)).
Defined.

(** Options come through.  Any two paths and any capacity of 64 bits,
    given on the command line, are the options [main] works with. *)
Theorem options_roundtrip (prog replay record : string) (n : Z) (Hn : in_u64 n) :
  parse_args [prog; "--replay"; replay; "--record"; record;
              "--queue-capacity"; to_string n]%string =
  Some (Ok {| replay_path := replay; record_path := record; queue_capacity_arg := n |}).
Proof.
  unfold parse_args. rewrite arg_loop_settle by (cbn; lia).
  change (settings (drop 1 _)) with [Replay replay; Record_ record; Capacity (to_string n)].
  rewrite !settle_step. destruct Hn as [H0 Hn].
  rewrite <-(string_app_nil_r (to_string n)), stoul_plain by done. unfold stoul_value.
  by rewrite bool_decide_eq_true_2.
Qed.

Lemma options_roundtrip_witness :
  parse_args ["ingestion"; "--replay"; "a.jsonl"; "--record"; "--replay";
              "--queue-capacity"; "4096"]%string =
  Some (Ok {| replay_path := "a.jsonl"; record_path := "--replay"; queue_capacity_arg := 4096 |}).
Proof. exact (options_roundtrip "ingestion" "a.jsonl" "--replay" 4096 ltac:(done)). Defined.

(** [--queue-capacity] without a number ends the program; a lonely [--replay]
    is ignored. *)
Example capacity_no_number :
  parse_args ["ingestion"; "--queue-capacity"; "many"]%string =
    Some (Throw (InvalidArgument "stoul")) /\
  parse_args ["ingestion"; "--replay"]%string = Some (Ok default_options).
Proof. split; vm_compute; reflexivity. Qed.
