(* ===== verification/BinanceTradeParser.v ===== *)
(** * The provider boundary

    src/binance_trade_parser.cpp: one text message of a Binance combined
    stream becomes a [MarketEvent] or is refused with a reason. *)
From S2P Require Import Prelude CxxStrings MarketEvent CxxNumeric Json JsonTree MarketEventJson.

(** ** The code *)
Section Code.
Context `{JsonOps}.

(** The file's own copy of [fail]; [error_out] is [None] when null. *)
Definition fail (error_out : option string) (message : string) : bool * option string :=
  (false, match error_out with None => None | Some _ => Some message end).

Definition refuse (error_out : option string) (message : string)
    : outcome (option MarketEvent * option string) :=
  Ok (None, (fail error_out message).2).

(** From the trade object on, the text having been parsed. *)
Definition parse_trade_data (data : json) (error_out : option string)
    : outcome (option MarketEvent * option string) :=
  not_trade ← Ok (negb (json_contains data "e")) ||!
    (v ← json_at data "e"; Ok (negb (json_eq v (json_of_string "trade"))));
  if not_trade : bool
  then refuse error_out
    ("not a trade event (" +:+ quoted "e" +:+ " != " +:+ quoted "trade" +:+ ")") else
  bad_symbol ← lacks data "s" json_is_string ||!
    (v ← json_at data "s"; s ← json_get_string v; Ok (is_empty s));
  if bad_symbol : bool
  then refuse error_out ("missing or empty symbol (" +:+ quoted "s" +:+ ")") else
  bad_price ← lacks data "p" json_is_string;
  if bad_price : bool
  then refuse error_out ("missing or non-string price (" +:+ quoted "p" +:+ ")") else
  bad_time ← lacks data "T" json_is_number_integer;
  if bad_time : bool
  then refuse error_out ("missing or non-integer trade time (" +:+ quoted "T" +:+ ")") else
  v ← json_at data "p"; price_str ← json_get_string v;
  let '(conv, price) := from_chars_double price_str double_zero in
  if bool_decide (fc_ec conv <> errc_ok)
  then refuse error_out ("price (" +:+ quoted "p" +:+
    ") is not a valid decimal number: " +:+ quoted price_str) else
  if double_leb price double_zero
  then refuse error_out ("price (" +:+ quoted "p" +:+
    ") must be positive, got " +:+ quoted price_str) else
  v ← json_at data "s"; sym ← json_get_string v;
  v ← json_at data "T"; ms ← json_get_i64 v;
  has_seq ← holds data "t" json_is_number_integer;
  seq ← (if has_seq : bool
         then v ← json_at data "t"; n ← json_get_u64 v; Ok (Some n)
         else Ok None);
  Ok (Some {| symbol := sym; price := price; event_time := time_point_of_ms ms;
              provider_sequence := seq; ingest_time := 0; source := EmptyString |},
      error_out).

Definition parseBinanceTradeMessage (raw_json : string) (error_out : option string)
    : outcome (option MarketEvent * option string) :=
  match json_parse raw_json with
  | Throw (ParseError what) => refuse error_out ("invalid JSON: " +:+ what)
  | Throw e => Throw e
  | Ok envelope =>
      bad_envelope ← Ok (negb (json_is_object envelope)) ||!
        lacks envelope "data" json_is_object;
      if bad_envelope : bool
      then refuse error_out ("missing or malformed " +:+ quoted "data" +:+ " object") else
      data ← json_at envelope "data";
      parse_trade_data data error_out
  end.
End Code.

(** ** What a trade message is *)
Section Spec.
Context `{JsonLaws}.

(** The object [data] describes the trade [e]. *)
Definition data_is_trade (data : json) (e : MarketEvent) : Prop :=
  has data "e" (ScString "trade") /\
  symbol e <> EmptyString /\ has data "s" (ScString (symbol e)) /\
  (exists text, has data "p" (ScString text) /\
     fc_ec (from_chars_double text double_zero).1 = errc_ok /\
     price e = (from_chars_double text double_zero).2) /\
  double_leb (price e) double_zero = false /\
  (exists ms, has data "T" (ScI64 ms) /\ event_time e = time_point_of_ms ms) /\
  has_optional data "t" ScU64 (provider_sequence e) /\
  ingest_time e = 0%Z /\ source e = EmptyString.

(** The text [raw] is a combined-stream envelope around the trade [e]. *)
Definition message_is_trade (raw : string) (e : MarketEvent) : Prop :=
  exists envelope data, json_parse raw = Ok envelope /\
    json_field envelope "data" = Some data /\ json_is_object data = true /\
    data_is_trade data e.
End Spec.

(** ** Lemmas *)
Section Lemmas.
Context `{JsonLaws}.

Lemma guard_eq data k t :
  (Ok (negb (json_contains data k)) ||!
    (v ← json_at data k; Ok (negb (json_eq v (json_of_string t))))) =
  Ok (negb (bool_decide (string_field data k = Some t))).
Proof.
  destruct (json_field data k) as [v|] eqn:E.
  - pose proof E as [-> ->]%json_field_Some. run. f_equal. f_equal.
    apply eq_true_iff_eq. rewrite json_eq_string, bool_decide_eq_true.
    unfold string_field. rewrite field_as_Some. naive_solver.
  - rewrite (proj1 (json_field_None _ _) E). run. rewrite bool_decide_eq_false_2; [done|].
    unfold string_field. rewrite field_as_Some. naive_solver.
Qed.

(** [parse_trade_data] as a function of the members. *)
Definition read_trade (data : json) (eo : option string)
    : option MarketEvent * option string :=
  let err m := (None, (fail eo m).2) in
  if negb (bool_decide (string_field data "e" = Some "trade"%string))
  then err ("not a trade event (" +:+ quoted "e" +:+ " != " +:+ quoted "trade" +:+ ")") else
  match string_field data "s" with
  | None => err ("missing or empty symbol (" +:+ quoted "s" +:+ ")")
  | Some sym =>
      if is_empty sym then err ("missing or empty symbol (" +:+ quoted "s" +:+ ")") else
      match string_field data "p" with
      | None => err ("missing or non-string price (" +:+ quoted "p" +:+ ")")
      | Some text =>
          match i64_field data "T" with
          | None => err ("missing or non-integer trade time (" +:+ quoted "T" +:+ ")")
          | Some ms =>
              let '(conv, pr) := from_chars_double text double_zero in
              if bool_decide (fc_ec conv <> errc_ok)
              then err ("price (" +:+ quoted "p" +:+
                ") is not a valid decimal number: " +:+ quoted text) else
              if double_leb pr double_zero
              then err ("price (" +:+ quoted "p" +:+
                ") must be positive, got " +:+ quoted text) else
              (Some {| symbol := sym; price := pr; event_time := time_point_of_ms ms;
                       provider_sequence := u64_field data "t";
                       ingest_time := 0; source := EmptyString |}, eo)
          end
      end
  end.

Lemma parse_trade_read data eo : parse_trade_data data eo = Ok (read_trade data eo).
Proof.
  unfold parse_trade_data, read_trade, refuse. rewrite guard_eq. run.
  destruct (bool_decide _); [|done]. cbn [negb].
  run_json; try done; destruct (from_chars_double _ _) as [conv pr];
    repeat (case_match; try done); run_json; done.
Qed.

Lemma read_trade_Some data eo e eo' :
  read_trade data eo = (Some e, eo') <-> eo' = eo /\ data_is_trade data e.
Proof.
  unfold data_is_trade. rewrite has_optional_u64, !has_string.
  setoid_rewrite has_string. setoid_rewrite has_i64. rewrite <-is_empty_spec. split.
  - unfold read_trade. intros Hr.
    repeat (case_bool_decide || case_match); simplify_eq/=.
    split_and!; eauto. eexists. split; [done|].
    match goal with E : from_chars_double _ _ = _ |- _ => rewrite E end.
    by split.
  - intros (-> & He & Hne & Hs & (text & Hp & Hok & Hpr) & Hpos & (ms & Hms & Ht) &
      Hn & Hi & Hsrc).
    unfold read_trade. rewrite bool_decide_eq_true_2 by done. cbn [negb].
    rewrite Hs, Hne, Hp, Hms. destruct (from_chars_double text double_zero) as [conv pr].
    cbn in *. subst pr. rewrite bool_decide_eq_false_2 by (by intros []).
    rewrite Hpos, Hn, <-Ht, <-Hi, <-Hsrc. by destruct e.
Qed.

Lemma read_trade_reason data eo :
  (exists e, read_trade data eo = (Some e, eo)) \/
  (exists m, m <> EmptyString /\ read_trade data eo = (None, (fail eo m).2)).
Proof.
  unfold read_trade. repeat (case_bool_decide || case_match); simplify_eq/=;
    solve [left; by eexists | right; by exists "reason"%string
          | right; eexists; (split; [|reflexivity]); done].
Qed.

Definition read_message (j : json) (eo : option string)
    : option MarketEvent * option string :=
  match json_field j "data" with
  | Some data =>
      if json_is_object data then read_trade data eo
      else (None, (fail eo ("missing or malformed " +:+ quoted "data" +:+ " object")).2)
  | None => (None, (fail eo ("missing or malformed " +:+ quoted "data" +:+ " object")).2)
  end.

Lemma parse_message_read raw eo :
  parseBinanceTradeMessage raw eo =
  match json_parse raw with
  | Throw (ParseError what) => Ok (None, (fail eo ("invalid JSON: " +:+ what)).2)
  | Throw e => Throw e
  | Ok j => Ok (read_message j eo)
  end.
Proof.
  unfold parseBinanceTradeMessage, read_message, refuse.
  destruct (json_parse raw) as [j|[]]; try done. rewrite lacks_field.
  destruct (json_field j "data") as [data|] eqn:E; run.
  - rewrite (json_field_object _ _ _ E). run.
    destruct (json_is_object data); run; [|done].
    rewrite (json_at_field _ _ _ E), bind_ok. apply parse_trade_read.
  - by destruct (json_is_object j).
Qed.

Lemma read_message_Some j eo e eo' :
  read_message j eo = (Some e, eo') <->
  eo' = eo /\ exists data, json_field j "data" = Some data /\
    json_is_object data = true /\ data_is_trade data e.
Proof.
  unfold read_message. destruct (json_field j "data") as [data|].
  - destruct (json_is_object data) eqn:E.
    + rewrite read_trade_Some. split; [intros []; eauto|].
      by intros (-> & d & [= <-] & _ & Hd).
    + split; [done|]. intros (_ & d & [= <-] & Hd & _). congruence.
  - split; [done|]. by intros (_ & d & [=] & _).
Qed.

(** The strings and integers of an accepted trade fit their C++ types, and
    its strings can be printed. *)
Lemma trade_printable raw e :
  message_is_trade raw e -> event_wf e /\ json_utf8 (symbol e) = true.
Proof.
  intros (j & data & Hj & Hd & _ & _ & _ & (v & Hv & _ & Hs) & _ & _ & (ms & _ & Ht) &
    Hn & _). split; [split|].
  - rewrite Ht. apply time_point_of_ms_range.
  - apply has_optional_u64 in Hn. destruct (provider_sequence e); [|done].
    by apply u64_field_range in Hn.
  - apply json_field_Some in Hv as [_ Hv]. apply json_field_Some in Hd as [_ Hd].
    eauto using json_get_string_text, json_at_text, json_parse_text.
Qed.
End Lemmas.

(** ** Properties *)

(** A trade message with one member per line, as the test's [kValidTrade]. *)
Definition trade_tree (s p : string) (T t : Z) : @json tree_ops :=
  jobject [("stream"%string, GenLeaf (AString "btcusdt@trade"));
    ("data"%string, jobject [
       ("e"%string, GenLeaf (AString "trade")); ("s"%string, GenLeaf (AString s));
       ("t"%string, GenLeaf (AInt t)); ("p"%string, GenLeaf (AString p));
       ("T"%string, GenLeaf (AInt T))])].
Definition trade_text (s p : string) (T t : Z) : string :=
  match tree_dump (trade_tree s p T t) with Ok text => text | Throw _ => EmptyString end.

Definition kValidTrade : string :=
  trade_text "BTCUSDT" "65432.10000000" 1735500000119 98765432.
Definition kValidEvent : MarketEvent := {|
  symbol := "BTCUSDT"; price := S754_finite false 8992919347475251 (-37);
  event_time := 1735500000119000000; provider_sequence := Some 98765432%Z;
  ingest_time := 0; source := EmptyString |}.

(** C17: what the parser accepts.  It returns an event exactly when the text is
    an envelope whose data object is a trade with a non-empty symbol, a price
    text that [from_chars] converts to a value that is not [<= 0], and an
    integer trade time; the event is that trade's, and [error_out] is left
    alone. *)
Theorem parse_accepts `{JsonLaws} raw eo e eo' :
  parseBinanceTradeMessage raw eo = Ok (Some e, eo') <->
  eo' = eo /\ message_is_trade raw e.
Proof.
  rewrite parse_message_read. unfold message_is_trade.
  destruct (json_parse raw) as [j|[]]; split; try naive_solver.
  - intros [= (-> & data & ?)%read_message_Some]. naive_solver.
  - intros (-> & j' & data & [= <-] & Hd). f_equal. apply read_message_Some. eauto.
Qed.

Lemma parse_valid_trade :
  parseBinanceTradeMessage kValidTrade None = Ok (Some kValidEvent, None).
Proof. vm_compute. reflexivity. Qed.

Lemma parse_accepts_witness :
  @message_is_trade tree_ops kValidTrade kValidEvent.
Proof. apply (parse_accepts kValidTrade None kValidEvent None), parse_valid_trade. Defined.

(** The parser rejects with a reason.  On every text it returns an event,
    or returns none and has written a non-empty reason where [error_out]
    points, or lets an exception of the JSON library through. *)
Theorem parse_rejects `{JsonLaws} raw eo :
  (exists e, parseBinanceTradeMessage raw eo = Ok (Some e, eo)) \/
  (exists reason, reason <> EmptyString /\
     parseBinanceTradeMessage raw eo =
     Ok (None, match eo with None => None | Some _ => Some reason end)) \/
  (exists e, parseBinanceTradeMessage raw eo = Throw e).
Proof.
  rewrite parse_message_read. unfold read_message.
  destruct (json_parse raw) as [j|[]]; eauto.
  - destruct (json_field j "data") as [data|]; [destruct (json_is_object data)|].
    + destruct (read_trade_reason data eo) as [(e & ->)|(m & Hm & ->)]; eauto.
    + right; left. eexists. split; [|reflexivity]. done.
    + right; left. eexists. split; [|reflexivity]. done.
  - right; left. eexists. split; [|reflexivity]. done.
Qed.

(** A trade for a symbol that is not there. *)
Definition no_symbol : string := trade_text "" "1.0" 1735500000000 1.

Lemma parse_rejects_witness :
  ((exists e, parseBinanceTradeMessage no_symbol (Some "") = Ok (Some e, Some ""%string)) \/
  (exists reason, reason <> EmptyString /\
     parseBinanceTradeMessage no_symbol (Some "") = Ok (None, Some reason)) \/
  (exists e, parseBinanceTradeMessage no_symbol (Some "") = Throw e)) /\
  (exists reason, parseBinanceTradeMessage no_symbol (Some "") = Ok (None, Some reason)).
Proof.
  split; [apply (parse_rejects no_symbol (Some ""%string))|].
  eexists. vm_compute. reflexivity.
Defined.

(** C39: the one exception the parser lets through.  It throws exactly when the
    JSON library refuses the text with [out_of_range] (a number that no double
    holds, such as 1e999): the [catch] names [parse_error] only, and once the
    text is parsed no access and no conversion throws. *)
Theorem parse_throws_iff `{JsonLaws} raw eo e :
  parseBinanceTradeMessage raw eo = Throw e <->
  exists what, e = OutOfRange what /\ json_parse raw = Throw (OutOfRange what).
Proof.
  rewrite parse_message_read. destruct (json_parse raw) as [j|x] eqn:E; [naive_solver|].
  destruct (json_parse_throws _ _ E) as [what [->| ->]]; naive_solver.
Qed.

Lemma parse_throws_iff_witness :
  parseBinanceTradeMessage overflowing_number None = Throw (OutOfRange "406").
Proof. apply parse_throws_iff. exists "406"%string. split; vm_compute; reflexivity. Defined.

(** An accepted trade can be recorded and published.  Once [LiveSource] has
    stamped its receipt time and source name on it, the event's capture line
    prints without an exception, as one line. *)
Theorem accepted_trade_printable `{JsonLaws} raw eo e eo' now :
  parseBinanceTradeMessage raw eo = Ok (Some e, eo') ->
  exists line, event_line (set_source "live:binance" (set_ingest_time now e)) = Ok line /\
    line <> EmptyString /\ free_of newline line = true.
Proof.
  rewrite parse_message_read. destruct (json_parse raw) as [j|[]] eqn:E; try done.
  intros [= (-> & data & Hd)%read_message_Some].
  destruct (trade_printable raw e) as [Hwf Hs]; [by exists j, data|].
  destruct (event_line_parse (set_source "live:binance" (set_ingest_time now e)))
    as (line & j' & Hl & _); [done|by split; [|apply json_utf8_ascii]|].
  exists line. split; [done|]. unfold event_line in Hl.
  apply bind_ok_inv in Hl as (? & _ & Hl). by apply json_dump_line in Hl.
Qed.

Lemma accepted_trade_printable_witness :
  exists line, event_line (set_source "live:binance" (set_ingest_time 5 kValidEvent)) = Ok line /\
    line <> EmptyString /\ free_of newline line = true.
Proof.
  apply (accepted_trade_printable kValidTrade None kValidEvent None 5).
  vm_compute. reflexivity.
Defined.

(** A trade object as the library sees it: any value with these members. *)
Definition trade_fields (s p : string) (T : Z) : list (string * scalar) :=
  [("e"%string, ScString "trade"); ("s"%string, ScString s); ("p"%string, ScString p);
   ("T"%string, ScI64 T)].

Lemma trade_fields_accepted `{JsonLaws} raw eo j data s p T :
  json_parse raw = Ok j -> json_field j "data" = Some data ->
  reflects reads data (trade_fields s p T) -> s <> EmptyString ->
  fc_ec (from_chars_double p double_zero).1 = errc_ok ->
  double_leb (from_chars_double p double_zero).2 double_zero = false ->
  parseBinanceTradeMessage raw eo =
  Ok (Some {| symbol := s; price := (from_chars_double p double_zero).2;
              event_time := time_point_of_ms T; provider_sequence := None;
              ingest_time := 0; source := EmptyString |}, eo).
Proof.
  intros Hj Hd Hr Hs Hok Hpos. rewrite parse_message_read, Hj. f_equal.
  apply read_message_Some. split; [done|]. exists data. split; [done|].
  pose proof Hr as [Hobj _]. split; [done|].
  assert (Hhas : forall k sc, (k, sc) ∈ trade_fields s p T -> has data k sc)
    by (intros; by eapply reflects_has).
  unfold trade_fields in *. split_and!; cbn; auto.
  - apply Hhas. set_solver.
  - apply Hhas. set_solver.
  - exists p. split_and!; [apply Hhas; set_solver|done|done].
  - exists T. split; [apply Hhas; set_solver|done].
  - intros n (v & Hv & _). rewrite (reflects_none _ _ _ Hr) in Hv; [done|set_solver].
Qed.

(** The positivity test lets NaN and infinity through.  A trade whose price
    text is [nan] or [inf] is accepted, with a price that is not finite: NaN
    is not [<= 0], and [from_chars] reads both words. *)
Theorem nonfinite_price_accepted `{JsonLaws} raw j data s T word :
  json_parse raw = Ok j -> json_field j "data" = Some data ->
  word = "nan"%string \/ word = "inf"%string ->
  reflects reads data (trade_fields s word T) -> s <> EmptyString ->
  exists e, parseBinanceTradeMessage raw None = Ok (Some e, None) /\
    is_finite (price e) = false.
Proof.
  intros Hj Hd Hw Hr Hs. eexists. split.
  - eapply trade_fields_accepted; eauto; by destruct Hw as [->| ->].
  - by destruct Hw as [->| ->].
Qed.

(** Text after the number is ignored.  A trade whose price text is
    [12.5 USDT] is accepted with the price 12.5: where [from_chars] stopped is
    not compared with the end of the text. *)
Theorem trailing_text_accepted `{JsonLaws} raw j data s T :
  json_parse raw = Ok j -> json_field j "data" = Some data ->
  reflects reads data (trade_fields s "12.5 USDT" T) -> s <> EmptyString ->
  exists e, parseBinanceTradeMessage raw None = Ok (Some e, None) /\
    price e = S754_finite false 7036874417766400 (-49).
Proof.
  intros Hj Hd Hr Hs. eexists. split.
  - eapply trade_fields_accepted; eauto; by vm_compute.
  - by vm_compute.
Qed.

Definition trade_data (p : string) : @json tree_ops :=
  jobject (field_member <$> trade_fields "BTCUSDT" p 1735500000000).
Definition data_message (p : string) : @json tree_ops :=
  jobject [("data"%string, trade_data p)].
Definition data_text (p : string) : string :=
  match tree_dump (data_message p) with Ok text => text | Throw _ => EmptyString end.

(** The reference library shows the members of [trade_data]. *)
Lemma trade_data_reflects p :
  reflects reads (trade_data p) (trade_fields "BTCUSDT" p 1735500000000).
Proof.
  split; [done|]. split.
  - intros k sc Hk. unfold trade_fields in Hk.
    repeat (apply elem_of_cons in Hk as [[= -> ->]|Hk]; [split; [done|eexists; by repeat split]|]).
    by apply elem_of_nil in Hk.
  - intros k Hk. cbn in *. unfold tree_find. cbn.
    rewrite !not_elem_of_cons in Hk. destruct Hk as (? & ? & ? & ? & _).
    by rewrite !bool_decide_eq_false_2.
Qed.

Lemma nonfinite_price_accepted_witness :
  exists e, parseBinanceTradeMessage (data_text "nan") None = Ok (Some e, None) /\
    is_finite (price e) = false.
Proof.
  apply (nonfinite_price_accepted (data_text "nan") (data_message "nan") (trade_data "nan")
    "BTCUSDT" 1735500000000 "nan"); [vm_compute; reflexivity|vm_compute; reflexivity| | |].
  - by left.
  - apply trade_data_reflects.
  - done.
Defined.

Lemma trailing_text_accepted_witness :
  exists e, parseBinanceTradeMessage (data_text "12.5 USDT") None = Ok (Some e, None) /\
    price e = S754_finite false 7036874417766400 (-49).
Proof.
  apply (trailing_text_accepted (data_text "12.5 USDT") (data_message "12.5 USDT")
    (trade_data "12.5 USDT") "BTCUSDT" 1735500000000);
    [vm_compute; reflexivity|vm_compute; reflexivity|apply trade_data_reflects|done].
Defined.
