(* ===== verification/EventRecorder.v ===== *)
(** * The capture file

    src/event_recorder.cpp: events appended to a file, one line each.  The
    file system is a map from paths to contents; [openable] says for which
    paths the operating system grants the open.  A write that the system
    refuses half-way (a full disk) is not modelled. *)
From S2P Require Import Prelude CxxStrings MarketEvent Json JsonTree MarketEventJson.

Abbreviation files := (gmap string string).

(** ** The code *)
Section Code.
Context `{JsonOps}.

Record EventRecorder := { out_path : string }.

(** The constructor: open for appending, creating the file if need be. *)
Definition EventRecorder_open (openable : string -> bool) (path : string) (fs : files)
    : outcome (EventRecorder * files) :=
  if openable path
  then Ok ({| out_path := path |}, <[path := default EmptyString (fs !! path)]> fs)
  else Throw (RuntimeError ("EventRecorder: failed to open capture file: " +:+ path)).

(** [record]: the line is printed before anything is written, then written
    with its newline and flushed, under the recorder's mutex. *)
Definition record (r : EventRecorder) (event : MarketEvent) (fs : files) : outcome files :=
  line ← event_line event;
  Ok (<[out_path r :=
        default EmptyString (fs !! out_path r) +:+ line +:+ String newline EmptyString]> fs).

Fixpoint record_all (r : EventRecorder) (events : list MarketEvent) (fs : files)
    : outcome files :=
  match events with
  | [] => Ok fs
  | e :: events => fs ← record r e fs; record_all r events fs
  end.
End Code.

(** ** Lemmas *)

(** The events a recorder can write and a replay can read. *)
Definition recordable `{JsonOps} (e : MarketEvent) : Prop :=
  event_wf e /\ event_utf8 e /\ symbol e <> EmptyString /\ is_finite (price e) = true.

(** The text of a file of lines. *)
Fixpoint text_of_lines (ls : list string) : string :=
  match ls with
  | [] => EmptyString
  | l :: ls => l +:+ String newline (text_of_lines ls)
  end.

Lemma text_of_lines_app ls ls' :
  text_of_lines (ls ++ ls') = text_of_lines ls +:+ text_of_lines ls'.
Proof.
  induction ls as [|l ls IH]; [done|]. cbn. rewrite IH, string_app_assoc. done.
Qed.

Lemma getlines_text_of_lines ls :
  Forall (fun l => free_of newline l = true) ls -> getlines newline (text_of_lines ls) = ls.
Proof.
  induction 1 as [|l ls Hl _ IH]; [done|]. cbn [text_of_lines]. by rewrite getlines_cons, IH.
Qed.

Section Lemmas.
Context `{JsonLaws}.

(** Lines that read back as the events they were printed from. *)
Definition line_of_event (e : MarketEvent) (l : string) : Prop :=
  event_line e = Ok l /\ l <> EmptyString /\ free_of newline l = true /\
  exists j, json_parse l = Ok j /\ read_event j None = (Some (restored e), None).

Lemma recordable_line e : recordable e -> exists l, line_of_event e l.
Proof.
  intros (Hwf & Hu & Hs & Hp).
  destruct (event_line_read e None Hwf Hu Hs Hp) as (l & j & Hl & Hj & Hr).
  exists l. split; [done|]. pose proof Hl as Hd. unfold event_line in Hd.
  apply bind_ok_inv in Hd as (? & _ & Hd). apply json_dump_line in Hd as [? ?].
  split; [done|]. split; [done|]. exists j. split; [done|].
  rewrite fromJson_read in Hr. by injection Hr.
Qed.

Lemma recordable_lines es :
  Forall recordable es -> exists ls, Forall2 line_of_event es ls.
Proof.
  induction 1 as [|e es He _ [ls IH]]; [by exists []|].
  destruct (recordable_line e He) as [l Hl]. exists (l :: ls). by constructor.
Qed.

Lemma record_all_snoc r es e fs :
  record_all r (es ++ [e]) fs = (fs' ← record_all r es fs; record r e fs').
Proof.
  revert fs. induction es as [|e0 es IH]; intros fs; cbn.
  - by destruct (record r e fs).
  - destruct (record r e0 fs); cbn; [apply IH|done].
Qed.

Lemma record_all_lines r es ls fs :
  Forall2 (fun e l => event_line e = Ok l) es ls ->
  exists fs', record_all r es fs = Ok fs' /\
    default EmptyString (fs' !! out_path r) =
      default EmptyString (fs !! out_path r) +:+ text_of_lines ls /\
    (is_Some (fs !! out_path r) -> is_Some (fs' !! out_path r)) /\
    (forall p, p <> out_path r -> fs' !! p = fs !! p).
Proof.
  intros Hls. revert fs. induction Hls as [|e l es ls Hl _ IH]; intros fs; cbn.
  - exists fs. by rewrite string_app_nil_r.
  - unfold record. rewrite Hl. cbn. match goal with |- context [record_all _ _ ?f] =>
      destruct (IH f) as (fs' & -> & Htext & Hsome & Hother) end.
    rewrite lookup_insert_eq in *. cbn in *.
    exists fs'. split; [done|]. split; [|split].
    + by rewrite Htext, !string_app_assoc.
    + eauto.
    + intros p Hp. by rewrite Hother, lookup_insert_ne by done.
Qed.

Lemma record_all_text r es ls fs :
  Forall2 line_of_event es ls ->
  exists fs', record_all r es fs = Ok fs' /\
    default EmptyString (fs' !! out_path r) =
      default EmptyString (fs !! out_path r) +:+ text_of_lines ls /\
    (is_Some (fs !! out_path r) -> is_Some (fs' !! out_path r)) /\
    (forall p, p <> out_path r -> fs' !! p = fs !! p).
Proof. intros Hls. apply record_all_lines. eapply Forall2_impl; [exact Hls|]. by intros e l (? & _). Qed.
End Lemmas.

(** ** Properties *)

(** Recording is append-only and complete.  Recording a sequence of
    recordable events succeeds; the capture file then holds what it held
    before followed by one newline-terminated line per event, in order, each
    of which reads back as its event; no other file changes. *)
Theorem record_appends `{JsonLaws} r es fs :
  Forall recordable es ->
  exists ls fs', record_all r es fs = Ok fs' /\
    default EmptyString (fs' !! out_path r) =
      default EmptyString (fs !! out_path r) +:+ text_of_lines ls /\
    getlines newline (text_of_lines ls) = ls /\
    Forall2 (fun e l => (j ← json_parse l; marketEventFromJson j None) =
                        Ok (Some (restored e), None)) es ls /\
    (forall p, p <> out_path r -> fs' !! p = fs !! p).
Proof.
  intros Hes. destruct (recordable_lines es Hes) as [ls Hls].
  destruct (record_all_text r es ls fs Hls) as (fs' & Hr & Ht & _ & Ho).
  exists ls, fs'. split_and!; auto.
  - apply getlines_text_of_lines. clear -Hls.
    induction Hls as [|e l es ls (_ & _ & ? & _) _ IH]; by constructor.
  - eapply Forall2_impl; [exact Hls|]. intros e l (_ & _ & _ & j & -> & Hj).
    cbn. by rewrite fromJson_read, Hj.
Qed.

Lemma sampleEvent_recordable : recordable sampleEvent.
Proof. destruct sampleEvent_ok. by split_and!. Qed.

Lemma record_appends_witness :
  exists ls fs', record_all {| out_path := "a.jsonl" |} [sampleEvent; sampleEvent] ∅ = Ok fs' /\
    default EmptyString (fs' !! "a.jsonl"%string) =
      default EmptyString ((∅ : files) !! "a.jsonl"%string) +:+ text_of_lines ls /\
    getlines newline (text_of_lines ls) = ls /\
    Forall2 (fun e l => (j ← json_parse l; marketEventFromJson j None) =
                        Ok (Some (restored e), None)) [sampleEvent; sampleEvent] ls /\
    (forall p, p <> "a.jsonl"%string -> fs' !! p = (∅ : files) !! p).
Proof.
  apply (record_appends {| out_path := "a.jsonl" |} [sampleEvent; sampleEvent] ∅).
  repeat constructor; apply sampleEvent_recordable.
Defined.
