(* ===== verification/ReplaySource.v ===== *)
(** * Replaying a capture

    src/replay_source.cpp: a [MarketDataSource] over a recorded file.  The
    input stream is a [std::ifstream] in so far as the class uses it; the file
    is read as it was when it was opened. *)
From S2P Require Import Prelude CxxStrings MarketEvent Json JsonTree MarketEventJson EventRecorder.

(** ** std::ifstream *)

(** [filebuf] is the text left to read when a file is open. *)
Record ifstream := { filebuf : option string; failbit : bool }.

Definition ifstream_closed : ifstream := {| filebuf := None; failbit := false |}.

(** [in.open(path)]: fails when a file is open already or cannot be opened;
    clears the state on success. *)
Definition ifstream_open (content : option string) (s : ifstream) : ifstream :=
  match filebuf s, content with
  | None, Some text => {| filebuf := Some text; failbit := false |}
  | buf, _ => {| filebuf := buf; failbit := true |}
  end.

(** [std::getline(in, line)] and its truth value. *)
Definition ifstream_getline (s : ifstream) : option string * ifstream :=
  match filebuf s with
  | Some text =>
      if failbit s then (None, s) else
      match getline newline text with
      | Some (l, r) => (Some l, {| filebuf := Some r; failbit := false |})
      | None => (None, {| filebuf := Some EmptyString; failbit := true |})
      end
  | None => (None, {| filebuf := None; failbit := true |})
  end.

(** ** The code *)
Record ReplaySource := {
  path_ : string;
  in_ : ifstream;
  stop_requested_ : bool;
  lines_malformed_ : Z
}.

Definition ReplaySource_new (path : string) : ReplaySource :=
  {| path_ := path; in_ := ifstream_closed; stop_requested_ := false; lines_malformed_ := 0 |}.

Definition set_in (i : ifstream) (s : ReplaySource) : ReplaySource :=
  {| path_ := path_ s; in_ := i; stop_requested_ := stop_requested_ s;
     lines_malformed_ := lines_malformed_ s |}.
Definition count_malformed (s : ReplaySource) : ReplaySource :=
  {| path_ := path_ s; in_ := in_ s; stop_requested_ := stop_requested_ s;
     lines_malformed_ := wrap_u64 (lines_malformed_ s + 1) |}.

(** [start]: the new state is kept also when it throws. *)
Definition start (read_file : string -> option string) (s : ReplaySource)
    : ReplaySource * outcome unit :=
  let s := set_in (ifstream_open (read_file (path_ s)) (in_ s)) s in
  if failbit (in_ s)
  then (s, Throw (RuntimeError ("ReplaySource: failed to open replay file: " +:+ path_ s)))
  else (s, Ok tt).

Definition stop (s : ReplaySource) : ReplaySource :=
  {| path_ := path_ s; in_ := in_ s; stop_requested_ := true;
     lines_malformed_ := lines_malformed_ s |}.

Section Next.
Context `{JsonOps}.

(** The loop of [next].  [stops i] says whether another thread's [stop()] has
    been performed by this thread's i-th read of the flag; [now] is the
    reading of the steady clock.  [None]: out of fuel. *)
Fixpoint next_loop (fuel : nat) (stops : nat -> bool) (now : Z) (s : ReplaySource)
    (out : MarketEvent) : option (outcome (bool * ReplaySource * MarketEvent)) :=
  match fuel with
  | 0 => None
  | S fuel =>
      let s := if stops 0 then stop s else s in
      if stop_requested_ s then Some (Ok (false, s, out)) else
      let '(line, in') := ifstream_getline (in_ s) in
      let s := set_in in' s in
      match line with
      | None => Some (Ok (false, s, out))
      | Some line =>
          let again := next_loop fuel (fun i => stops (S i)) now in
          if is_empty line then again s out else
          match json_parse line with
          | Throw (ParseError _) => again (count_malformed s) out
          | Throw e => Some (Throw e)
          | Ok parsed =>
              match marketEventFromJson parsed None with
              | Throw e => Some (Throw e)
              | Ok (None, _) => again (count_malformed s) out
              | Ok (Some event, _) => Some (Ok (true, s, set_ingest_time now event))
              end
          end
      end
  end.

(** One iteration per line, and one to see the end. *)
Definition next_fuel (s : ReplaySource) : nat :=
  S (match filebuf (in_ s) with Some text => String.length text | None => 0 end).

Definition next (stops : nat -> bool) (now : Z) (s : ReplaySource) (out : MarketEvent)
    : option (outcome (bool * ReplaySource * MarketEvent)) :=
  next_loop (next_fuel s) stops now s out.

(** [while (source.next(event)) events.push_back(event);], at most [n]
    times, nobody stopping the source; [clock k] is the clock at the k-th
    event. *)
Fixpoint drain (n : nat) (clock : nat -> Z) (s : ReplaySource) (event : MarketEvent)
    : option (outcome (list MarketEvent * ReplaySource)) :=
  match n with
  | 0 => None
  | S n =>
      match next (fun _ => false) (clock 0) s event with
      | None => None
      | Some (Throw e) => Some (Throw e)
      | Some (Ok (false, s, _)) => Some (Ok ([], s))
      | Some (Ok (true, s, event)) =>
          match drain n (fun k => clock (S k)) s event with
          | Some (Ok (events, s)) => Some (Ok (event :: events, s))
          | r => r
          end
      end
  end.
End Next.

(** ** What a replay yields *)
Section Spec.
Context `{JsonOps}.

(** A line is blank, an event, or malformed; or parsing it throws something
    else than [parse_error]. *)
Inductive line_class :=
  | Blank
  | Event (e : MarketEvent)
  | Malformed
  | Fatal (e : exn).

Definition classify (line : string) : line_class :=
  if is_empty line then Blank else
  match json_parse line with
  | Throw (ParseError _) => Malformed
  | Throw e => Fatal e
  | Ok j =>
      match (read_event j None).1 with Some e => Event e | None => Malformed end
  end.

Definition event_of_line (line : string) : option MarketEvent :=
  match classify line with Event e => Some e | _ => None end.
Definition is_malformed (line : string) : bool :=
  match classify line with Malformed => true | _ => false end.
Definition is_fatal (line : string) : bool :=
  match classify line with Fatal _ => true | _ => false end.

Definition replayed_events (lines : list string) : list MarketEvent :=
  omap event_of_line lines.
Definition malformed_count (lines : list string) : nat :=
  length (filter (fun l => is_malformed l = true) lines).

(** Stamp the k-th event with the k-th clock reading. *)
Fixpoint stamp (clock : nat -> Z) (es : list MarketEvent) : list MarketEvent :=
  match es with
  | [] => []
  | e :: es => set_ingest_time (clock 0) e :: stamp (fun k => clock (S k)) es
  end.

(** A source that is open, not stopped, with [text] left. *)
Definition reading (s : ReplaySource) (text : string) : Prop :=
  in_ s = {| filebuf := Some text; failbit := false |} /\ stop_requested_ s = false.
End Spec.

(** ** Lemmas *)
Section Lemmas.
Context `{JsonLaws}.

Definition add_malformed (n : nat) (s : ReplaySource) : ReplaySource :=
  {| path_ := path_ s; in_ := in_ s; stop_requested_ := stop_requested_ s;
     lines_malformed_ := wrap_u64 (lines_malformed_ s + Z.of_nat n) |}.

(** One turn of the loop on a source that has a line to read. *)
Lemma next_loop_line fuel stops now s out text l r :
  reading s text -> stops 0 = false -> getline newline text = Some (l, r) ->
  let s' := set_in {| filebuf := Some r; failbit := false |} s in
  let again := next_loop fuel (fun i => stops (S i)) now in
  next_loop (S fuel) stops now s out =
  match classify l with
  | Blank => again s' out
  | Malformed => again (count_malformed s') out
  | Fatal e => Some (Throw e)
  | Event e => Some (Ok (true, s', set_ingest_time now e))
  end.
Proof.
  intros [Hin Hst] Hs0 Hl. cbn. rewrite Hs0, Hst. unfold ifstream_getline.
  rewrite Hin. cbn. rewrite Hl. unfold classify. destruct (is_empty l); [done|].
  destruct (json_parse l) as [j|[]]; try done. rewrite fromJson_read.
  by destruct (read_event j None) as [[e|] eo].
Qed.

Lemma next_loop_end fuel stops now s out :
  reading s EmptyString -> stops 0 = false ->
  next_loop (S fuel) stops now s out =
  Some (Ok (false, set_in {| filebuf := Some EmptyString; failbit := true |} s, out)).
Proof.
  intros [Hin Hst] Hs0. cbn. rewrite Hs0, Hst. unfold ifstream_getline. by rewrite Hin.
Qed.

Lemma getline_None text : getline newline text = None -> text = EmptyString.
Proof.
  destruct text as [|c text]; [done|]. unfold getline.
  by destruct (span_until newline (String c text)).
Qed.

Lemma malformed_count_cons l ls :
  malformed_count (l :: ls) = (if is_malformed l then 1 else 0) + malformed_count ls.
Proof. unfold malformed_count. rewrite filter_cons. by case_decide; destruct (is_malformed l). Qed.

Lemma malformed_count_app ls ls' :
  malformed_count (ls ++ ls') = malformed_count ls + malformed_count ls'.
Proof. unfold malformed_count. by rewrite filter_app, length_app. Qed.

(** A line [next] passes over. *)
Definition skipped (l : string) : Prop := classify l = Blank \/ classify l = Malformed.

(** The state after [next] consumed the lines [pre]: the counter has grown
    by their malformed ones. *)
Definition after (pre : list string) (s s' : ReplaySource) : Prop :=
  path_ s' = path_ s /\ stop_requested_ s' = false /\
  lines_malformed_ s' = wrap_u64 (lines_malformed_ s + Z.of_nat (malformed_count pre)).

Lemma after_nil s i :
  in_u64 (lines_malformed_ s) -> stop_requested_ s = false -> after [] s (set_in i s).
Proof. intros Hm Hs. split; [done|]. split; [done|]. cbn. by rewrite Z.add_0_r, wrap_u64_id. Qed.

Lemma after_cons_blank l pre i s s' :
  classify l = Blank -> after pre (set_in i s) s' -> after (l :: pre) s s'.
Proof.
  intros Hl (? & ? & ?). split; [done|]. split; [done|].
  rewrite malformed_count_cons. unfold is_malformed. by rewrite Hl.
Qed.

Lemma after_cons_malformed l pre i s s' :
  classify l = Malformed -> after pre (count_malformed (set_in i s)) s' -> after (l :: pre) s s'.
Proof.
  intros Hl (? & ? & Hm). split; [done|]. split; [done|]. rewrite Hm.
  cbn [lines_malformed_ count_malformed set_in].
  rewrite malformed_count_cons, wrap_u64_add_l. unfold is_malformed. rewrite Hl.
  f_equal. lia.
Qed.

Lemma next_loop_spec fuel : forall stops now s out text,
  String.length text < fuel -> reading s text -> in_u64 (lines_malformed_ s) ->
  (forall i, stops i = false) ->
  exists pre post, getlines newline text = pre ++ post /\ Forall skipped pre /\
    match post with
    | [] => exists s', next_loop fuel stops now s out = Some (Ok (false, s', out)) /\
        after pre s s' /\ in_ s' = {| filebuf := Some EmptyString; failbit := true |}
    | l :: post =>
        (exists e r s', classify l = Event e /\
           next_loop fuel stops now s out = Some (Ok (true, s', set_ingest_time now e)) /\
           after pre s s' /\ reading s' r /\ getlines newline r = post) \/
        (exists e, classify l = Fatal e /\ next_loop fuel stops now s out = Some (Throw e))
    end.
Proof.
  induction fuel as [|fuel IH]; intros stops now s out text Hf Hr Hm Hst; [lia|].
  destruct (getline newline text) as [[l r]|] eqn:E.
  - rewrite (next_loop_line _ _ _ _ _ _ _ _ Hr (Hst 0) E), getlines_unfold, E.
    pose proof (getline_shorter _ _ _ _ E). destruct Hr as [Hin Hs].
    destruct (classify l) as [|e| |e] eqn:El.
    + destruct (IH (fun i => stops (S i)) now
        (set_in {| filebuf := Some r; failbit := false |} s) out r)
        as (pre & post & -> & Hpre & Hpost); auto; [lia|done|].
      exists (l :: pre), post. split; [done|]. split; [constructor; [by left|done]|].
      destruct post; naive_solver eauto using after_cons_blank.
    + exists [], (l :: getlines newline r). split; [done|]. split; [done|].
      left. do 3 eexists. split; [done|]. split; [done|].
      split; [by apply after_nil|]. by split.
    + destruct (IH (fun i => stops (S i)) now
        (count_malformed (set_in {| filebuf := Some r; failbit := false |} s)) out r)
        as (pre & post & -> & Hpre & Hpost); auto; [lia|done|apply wrap_u64_range|].
      exists (l :: pre), post. split; [done|]. split; [constructor; [by right|done]|].
      destruct post; naive_solver eauto using after_cons_malformed.
    + exists [], (l :: getlines newline r). split; [done|]. split; [done|]. right. eauto.
  - apply getline_None in E. subst text. exists [], []. split; [done|]. split; [done|].
    rewrite next_loop_end by auto. eexists. split; [done|]. destruct Hr.
    split; [by apply after_nil|done].
Qed.

Lemma after_app pre post s s1 s2 :
  after pre s s1 -> after post s1 s2 -> after (pre ++ post) s s2.
Proof.
  intros (? & ? & E1) (? & ? & E2). split; [congruence|]. split; [done|].
  rewrite E2, E1, wrap_u64_add_l, malformed_count_app. f_equal. lia.
Qed.

Lemma after_event l post e s s' :
  classify l = Event e -> after post s s' -> after (l :: post) s s'.
Proof.
  intros Hl (? & ? & Hm). split; [done|]. split; [done|].
  rewrite Hm, malformed_count_cons. unfold is_malformed. by rewrite Hl.
Qed.

Lemma after_range pre s s' : after pre s s' -> in_u64 (lines_malformed_ s').
Proof. intros (_ & _ & ->). apply wrap_u64_range. Qed.

Lemma replayed_skipped pre : Forall skipped pre -> replayed_events pre = [].
Proof.
  induction 1 as [|l pre Hl _ IH]; [done|]. unfold replayed_events in *. cbn.
  rewrite IH. unfold event_of_line. by destruct Hl as [->| ->].
Qed.

Lemma replayed_app ls ls' :
  replayed_events (ls ++ ls') = replayed_events ls ++ replayed_events ls'.
Proof. apply omap_app. Qed.

Lemma replayed_cons l ls e :
  classify l = Event e -> replayed_events (l :: ls) = e :: replayed_events ls.
Proof. intros Hl. unfold replayed_events. cbn. unfold event_of_line. by rewrite Hl. Qed.

Lemma reading_fuel s text : reading s text -> String.length text < next_fuel s.
Proof. unfold next_fuel. intros [-> _]. cbn. lia. Qed.

Lemma drain_spec n : forall clock s out text,
  reading s text -> in_u64 (lines_malformed_ s) ->
  Forall (fun l => is_fatal l = false) (getlines newline text) ->
  length (replayed_events (getlines newline text)) < n ->
  exists s', drain n clock s out =
      Some (Ok (stamp clock (replayed_events (getlines newline text)), s')) /\
    after (getlines newline text) s s'.
Proof.
  induction n as [|n IH]; intros clock s out text Hr Hm Hf Hn; [lia|].
  assert (Hfuel : String.length text < next_fuel s)
    by (by apply reading_fuel).
  cbn [drain]. unfold next.
  destruct (next_loop_spec (next_fuel s) (fun _ => false) (clock 0) s out text)
    as (pre & post & Hlines & Hpre & Hpost); auto.
  rewrite Hlines in *. rewrite replayed_app, replayed_skipped in * by done. cbn [app] in *.
  apply Forall_app in Hf as [_ Hf].
  destruct post as [|l post].
  - destruct Hpost as (s' & -> & Ha & _). exists s'. rewrite app_nil_r. done.
  - apply Forall_cons in Hf as [Hl Hf].
    destruct Hpost as [(e & r & s1 & He & -> & Ha & Hr1 & Hpost)|(e & He & _)];
      [|unfold is_fatal in Hl; by rewrite He in Hl].
    rewrite (replayed_cons _ _ _ He) in *. cbn in Hn. subst post.
    destruct (IH (fun k => clock (S k)) s1 (set_ingest_time (clock 0) e) r)
      as (s' & -> & Ha'); auto; [by apply after_range in Ha|lia|].
    exists s'. split; [done|]. eauto using after_app, after_event.
Qed.

Lemma next_loop_fuel fuel : forall stops now s out,
  match filebuf (in_ s) with Some text => String.length text | None => 0 end < fuel ->
  is_Some (next_loop fuel stops now s out).
Proof.
  induction fuel as [|fuel IH]; intros stops now s out Hf; [lia|]. cbn.
  set (s0 := if stops 0 then stop s else s).
  assert (Hs0 : in_ s0 = in_ s) by (unfold s0; by destruct (stops 0)).
  destruct (stop_requested_ s0); [by eexists|].
  unfold ifstream_getline. rewrite Hs0. destruct (filebuf (in_ s)) as [text|]; [|by eexists].
  destruct (failbit (in_ s)); [by eexists|].
  destruct (getline newline text) as [[l r]|] eqn:E; [|by eexists].
  apply getline_shorter in E.
  repeat case_match; try (by eexists); apply IH; cbn; lia.
Qed.
End Lemmas.

(** ** Properties *)

(** [next] always comes back.  Whatever the state of the source and
    whenever it is stopped, a call that reads one line per turn returns or
    throws after at most one turn per byte left and one more. *)
Theorem next_terminates `{JsonLaws} stops now s out : is_Some (next stops now s out).
Proof. apply next_loop_fuel. unfold next_fuel. lia. Qed.

Lemma next_terminates_witness :
  is_Some (next (fun _ => false) 0 (ReplaySource_new "a.jsonl") default_event).
Proof. apply next_terminates. Defined.

(** A replay is the file.  Calling [next] until it returns false yields
    exactly the events of the file's lines, in file order, each stamped with
    the clock at its delivery; blank lines are passed over, malformed lines
    are passed over and counted, and nothing else happens to the source,
    provided no line makes the JSON library throw [out_of_range]. *)
Theorem replay_all `{JsonLaws} n clock s out text :
  reading s text -> in_u64 (lines_malformed_ s) ->
  Forall (fun l => is_fatal l = false) (getlines newline text) ->
  length (replayed_events (getlines newline text)) < n ->
  exists s', drain n clock s out =
      Some (Ok (stamp clock (replayed_events (getlines newline text)), s')) /\
    path_ s' = path_ s /\ stop_requested_ s' = false /\
    lines_malformed_ s' =
      wrap_u64 (lines_malformed_ s + Z.of_nat (malformed_count (getlines newline text))).
Proof. apply drain_spec. Qed.

(** One unreadable number ends the replay.  When the first line that is
    neither blank nor malformed makes the library throw [out_of_range], [next]
    throws it on to its caller instead of skipping the line. *)
Theorem replay_fatal_line `{JsonLaws} now s out text pre l post e :
  reading s text -> in_u64 (lines_malformed_ s) ->
  getlines newline text = pre ++ l :: post -> Forall skipped pre ->
  classify l = Fatal e ->
  next (fun _ => false) now s out = Some (Throw e).
Proof.
  intros Hr Hm Hl Hpre He.
  assert (Hfuel : String.length text < next_fuel s)
    by (by apply reading_fuel).
  destruct (next_loop_spec (next_fuel s) (fun _ => false) now s out text)
    as (pre' & post' & Hl' & Hpre' & Hpost); auto.
  rewrite Hl in Hl'. assert (Hns : ~ skipped l) by (unfold skipped; rewrite He; naive_solver).
  assert (Hhead : forall y post'', post' = y :: post'' -> ~ skipped y).
  { intros y post'' ->. unfold skipped. destruct Hpost as [(? & ? & ? & -> & _)|(? & -> & _)];
      naive_solver. }
  destruct (split_first skipped _ _ _ _ _ Hl' Hpre Hns Hpre' Hhead) as [-> ->].
  destruct Hpost as [(? & ? & ? & Hev & _)|(e' & He' & Hn)]; [congruence|].
  unfold next. rewrite Hn. congruence.
Qed.

(** A source reading [text], in no other way used before. *)
Definition source_on (text : string) : ReplaySource :=
  {| path_ := "a.jsonl"; in_ := {| filebuf := Some text; failbit := false |};
     stop_requested_ := false; lines_malformed_ := 0 |}.

(** Four lines as in tests/replay_source_test.cpp: an event, not JSON, JSON
    that is no event, an event. *)
Definition sampleLine : string :=
  match event_line sampleEvent with Ok l => l | Throw _ => EmptyString end.
Definition nullLine : string :=
  match tree_dump (GenLeaf ANull) with Ok l => l | Throw _ => EmptyString end.
Definition four_lines : string :=
  text_of_lines [sampleLine; "not even json"%string; nullLine; sampleLine].

Lemma replay_all_witness :
  exists s', drain 3 (fun k => Z.of_nat k) (source_on four_lines) default_event =
      Some (Ok ([set_ingest_time 0 (restored sampleEvent);
                 set_ingest_time 1 (restored sampleEvent)], s')) /\
    path_ s' = "a.jsonl"%string /\ stop_requested_ s' = false /\
    lines_malformed_ s' = 2%Z.
Proof.
  assert (Hlines : getlines newline four_lines =
    [sampleLine; "not even json"%string; nullLine; sampleLine]) by (vm_compute; reflexivity).
  destruct (replay_all 3 (fun k => Z.of_nat k) (source_on four_lines) default_event four_lines)
    as (s' & Hd & Hp & Hs & Hm).
  - by split.
  - by vm_compute.
  - rewrite Hlines. repeat (apply Forall_cons; split; [vm_compute; reflexivity|]).
    apply Forall_nil. exact I.
  - rewrite Hlines. vm_compute. lia.
  - rewrite Hlines in Hd, Hm. exists s'. split; [|split; [exact Hp|split; [exact Hs|]]].
    + rewrite Hd. vm_compute. reflexivity.
    + rewrite Hm. vm_compute. reflexivity.
Defined.

Definition fatal_text : string := text_of_lines ["not even json"%string; overflowing_number; sampleLine].

Lemma replay_fatal_line_witness :
  next (fun _ => false) 0 (source_on fatal_text) default_event =
  Some (Throw (OutOfRange "406")).
Proof.
  apply (replay_fatal_line 0 (source_on fatal_text) default_event fatal_text
    ["not even json"%string] overflowing_number [sampleLine]).
  - by split.
  - by vm_compute.
  - vm_compute. reflexivity.
  - apply Forall_cons. split; [right; vm_compute; reflexivity|apply Forall_nil; exact I].
  - vm_compute. reflexivity.
Defined.

Lemma next_loop_out `{JsonOps} fuel : forall stops now s out s' out',
  next_loop fuel stops now s out = Some (Ok (false, s', out')) -> out' = out.
Proof.
  induction fuel as [|fuel IH]; intros stops now s out s' out' Hn; [done|].
  cbn in Hn. repeat (case_match; simplify_eq; try done); eauto.
Qed.

Lemma next_of_stop `{JsonOps} stops now s out :
  next stops now (stop s) out = Some (Ok (false, stop s, out)).
Proof. unfold next, next_fuel. cbn. by destruct (stops 0). Qed.

(** Stopping.  After [stop()], [next] returns false at once, without
    touching the file, the counter or [out]; and whenever [next] returns false,
    stopped or at the end of the file, [out] is what it was. *)
Theorem stopped_next `{JsonOps} stops now s out :
  next stops now (stop s) out = Some (Ok (false, stop s, out)) /\
  (forall s' out', next stops now s out = Some (Ok (false, s', out')) -> out' = out).
Proof.
  split; [apply next_of_stop|intros s' out'; apply next_loop_out].
Qed.

(** Opening.  [start] on a source whose stream is closed throws exactly
    when the file cannot be read, and otherwise leaves a source that reads the
    file from its beginning; on a source that is open already it throws, and
    the source then yields no event any more. *)
Theorem start_cases `{JsonOps} read_file s :
  (filebuf (in_ s) = None -> read_file (path_ s) = None ->
     exists what, (start read_file s).2 = Throw (RuntimeError what)) /\
  (forall text, filebuf (in_ s) = None -> read_file (path_ s) = Some text ->
     stop_requested_ s = false ->
     (start read_file s).2 = Ok tt /\ reading (start read_file s).1 text) /\
  (filebuf (in_ s) <> None ->
     (exists what, (start read_file s).2 = Throw (RuntimeError what)) /\
     forall now out, exists s',
       next (fun _ => false) now (start read_file s).1 out = Some (Ok (false, s', out))).
Proof.
  unfold start, ifstream_open, reading. split; [|split].
  - intros -> ->. cbn. eauto.
  - intros text -> -> Hs. by cbn.
  - intros Hbuf. destruct (filebuf (in_ s)) as [text|] eqn:E; [|done]. cbn.
    split; [eauto|]. intros now out. unfold next, next_fuel. cbn.
    destruct (stop_requested_ s); eauto.
Qed.

(** ** From the recorder to the replay *)

Section RoundTrip.
Context `{JsonLaws}.

Lemma classify_line_of_event e l : line_of_event e l -> classify l = Event (restored e).
Proof.
  intros (_ & Hne & _ & j & Hj & Hr). unfold classify.
  rewrite (proj2 (is_empty_spec l) Hne), Hj. by rewrite Hr.
Qed.

Lemma replayed_lines_of_events es ls :
  Forall2 line_of_event es ls ->
  replayed_events ls = restored <$> es /\ malformed_count ls = 0 /\
  Forall (fun l => is_fatal l = false) ls /\
  getlines newline (text_of_lines ls) = ls.
Proof.
  induction 1 as [|e l es ls Hl _ (IH1 & IH2 & IH3 & IH4)]; [done|].
  pose proof (classify_line_of_event e l Hl) as Hc. split_and!.
  - rewrite (replayed_cons _ _ _ Hc), IH1. done.
  - rewrite malformed_count_cons, IH2. unfold is_malformed. by rewrite Hc.
  - constructor; [unfold is_fatal; by rewrite Hc|done].
  - cbn [text_of_lines]. destruct Hl as (_ & _ & ? & _). by rewrite getlines_cons, IH4.
Qed.
End RoundTrip.

(** Record then replay.  Events recorded to a file that was not there,
    replayed by a fresh source on that file, come back complete and in order,
    each the same event up to receipt time (stamped afresh) and milliseconds,
    and no line is counted malformed. *)
Theorem record_replay_roundtrip `{JsonLaws} openable path es (fs : files) clock n event :
  openable path = true -> fs !! path = None -> Forall recordable es -> length es < n ->
  exists r fs1 fs2 s s',
    EventRecorder_open openable path fs = Ok (r, fs1) /\
    record_all r es fs1 = Ok fs2 /\
    start (fun p => fs2 !! p) (ReplaySource_new path) = (s, Ok tt) /\
    drain n clock s event = Some (Ok (stamp clock (restored <$> es), s')) /\
    lines_malformed_ s' = 0%Z.
Proof.
  intros Ho Hfs Hes Hn. unfold EventRecorder_open. rewrite Ho, Hfs.
  destruct (recordable_lines es Hes) as [ls Hls].
  destruct (record_all_text {| out_path := path |} es ls (<[path:=EmptyString]> fs) Hls)
    as (fs2 & Hr & Ht & Hsome & _). cbn in Ht, Hsome. rewrite lookup_insert_eq in Ht, Hsome.
  destruct (Hsome ltac:(eauto)) as [text E]. rewrite E in Ht. cbn in Ht. subst text.
  destruct (replayed_lines_of_events es ls Hls) as (Hev & Hmal & Hfatal & Hlines).
  set (s := set_in {| filebuf := Some (text_of_lines ls); failbit := false |}
              (ReplaySource_new path)).
  destruct (drain_spec n clock s event (text_of_lines ls)) as (s' & Hd & _ & _ & Hm);
    rewrite ?Hlines, ?Hev, ?length_fmap in *; try done.
  exists {| out_path := path |}, (<[path:=EmptyString]> fs), fs2, s, s'.
  split; [done|]. split; [done|]. split; [|split; [done|]].
  - unfold start. cbn. by rewrite E.
  - by rewrite Hm, Hmal.
Qed.

Lemma record_replay_roundtrip_witness :
  exists r fs1 fs2 s s',
    EventRecorder_open (fun _ => true) "a.jsonl" ∅ = Ok (r, fs1) /\
    record_all r [sampleEvent; sampleEvent] fs1 = Ok fs2 /\
    start (fun p => fs2 !! p) (ReplaySource_new "a.jsonl") = (s, Ok tt) /\
    drain 3 (fun k => Z.of_nat k) s default_event =
      Some (Ok (stamp (fun k => Z.of_nat k) (restored <$> [sampleEvent; sampleEvent]), s')) /\
    lines_malformed_ s' = 0%Z.
Proof.
  apply (record_replay_roundtrip (fun _ => true) "a.jsonl" [sampleEvent; sampleEvent] ∅).
  - done.
  - vm_compute. reflexivity.
  - repeat constructor; apply sampleEvent_recordable.
  - cbn. lia.
Defined.
