(* ===== verification/BoundedQueue.v ===== *)
(** * The bounded queue: its critical sections

    include/tickforge/bounded_queue.hpp.  Everything a call does while it holds
    [mutex_] is one function of the queue's fields; QueueThreads.v puts the
    functions into threads with the mutex and the two condition variables.
    [std::size_t] values here are sizes of containers and a constant, never
    computed with, and are [nat]. *)
From S2P Require Import Prelude.

(** ** The fields and what each call does under the lock *)
Record BoundedQueue (T : Type) := {
  capacity_ : nat;
  queue_ : list T;
  high_water_mark_ : nat;
  shutdown_ : bool
}.
Arguments capacity_ {T} _.
Arguments queue_ {T} _.
Arguments high_water_mark_ {T} _.
Arguments shutdown_ {T} _.
Arguments Build_BoundedQueue {T} _ _ _ _.

#[export] Instance BoundedQueue_eq_dec `{EqDecision T} : EqDecision (BoundedQueue T).
Proof. solve_decision. Defined.

Section Code.
Context {T : Type}.
Implicit Types (q : BoundedQueue T) (x : T).

Definition BoundedQueue_new (capacity : nat) : BoundedQueue T :=
  {| capacity_ := capacity; queue_ := []; high_water_mark_ := 0; shutdown_ := false |}.

(** The predicates of the two [wait]s. *)
Definition can_push q : bool :=
  bool_decide (length (queue_ q) < capacity_ q) || shutdown_ q.
Definition can_pop q : bool :=
  bool_decide (queue_ q <> []) || shutdown_ q.

(** [push] from the end of its wait to [lock.unlock()]. *)
Definition push_locked x q : bool * BoundedQueue T :=
  if shutdown_ q then (false, q) else
  let queue := queue_ q ++ [x] in
  let mark := if bool_decide (high_water_mark_ q < length queue)
              then length queue else high_water_mark_ q in
  (true, {| capacity_ := capacity_ q; queue_ := queue; high_water_mark_ := mark;
            shutdown_ := shutdown_ q |}).

(** [pop] from the end of its wait to [lock.unlock()]: the item moved into
    [out], or [None] when it returns false. *)
Definition pop_locked q : option T * BoundedQueue T :=
  match queue_ q with
  | [] => (None, q)
  | x :: queue =>
      (Some x, {| capacity_ := capacity_ q; queue_ := queue;
                  high_water_mark_ := high_water_mark_ q; shutdown_ := shutdown_ q |})
  end.

Definition shutdown_locked q : BoundedQueue T :=
  {| capacity_ := capacity_ q; queue_ := queue_ q;
     high_water_mark_ := high_water_mark_ q; shutdown_ := true |}.

Definition size q : nat := length (queue_ q).
Definition capacity q : nat := capacity_ q.
Definition highWaterMark q : nat := high_water_mark_ q.

(** A whole call made when no other thread is inside: [None] when it blocks. *)
Definition push x q : option (bool * BoundedQueue T) :=
  if can_push q then Some (push_locked x q) else None.
Definition pop q : option (option T * BoundedQueue T) :=
  if can_pop q then Some (pop_locked q) else None.
End Code.

(** ** The contract

    What a client may rely on: a first-in first-out channel of bounded length
    that can be closed, with the largest length it ever had. *)
Record channel (T : Type) := { items : list T; closed : bool; peak : nat }.
Arguments items {T} _.
Arguments closed {T} _.
Arguments peak {T} _.
Arguments Build_channel {T} _ _ _.

(** The calls as the client sees them take effect. *)
Inductive label (T : Type) :=
  | Pushed (x : T)      (* push(x) took effect and will return true *)
  | Refused             (* push returned false *)
  | Popped (x : T)      (* pop handed x out and will return true *)
  | Drained             (* pop returned false *)
  | Closed              (* shutdown() set the flag *)
  | Tau.                (* nothing the client sees *)
Arguments Pushed {T} _.
Arguments Refused {T}.
Arguments Popped {T} _.
Arguments Drained {T}.
Arguments Closed {T}.
Arguments Tau {T}.

Inductive channel_step {T} (cap : nat) : channel T -> label T -> channel T -> Prop :=
  | ch_push l p x :
      length l < cap ->
      channel_step cap (Build_channel l false p) (Pushed x)
        (Build_channel (l ++ [x]) false (p `max` length (l ++ [x])))
  | ch_refuse l p :
      channel_step cap (Build_channel l true p) Refused (Build_channel l true p)
  | ch_pop l b p x :
      channel_step cap (Build_channel (x :: l) b p) (Popped x) (Build_channel l b p)
  | ch_drained p :
      channel_step cap (Build_channel [] true p) Drained (Build_channel [] true p)
  | ch_close l b p :
      channel_step cap (Build_channel l b p) Closed (Build_channel l true p)
  | ch_tau c : channel_step cap c Tau c.

Definition channel_of {T} (q : BoundedQueue T) : channel T :=
  Build_channel (queue_ q) (shutdown_ q) (high_water_mark_ q).

(** The invariant of the fields. *)
Definition queue_wf {T} (q : BoundedQueue T) : Prop :=
  size q <= highWaterMark q <= capacity q.

(** ** Lemmas *)
Section Lemmas.
Context {T : Type}.
Implicit Types (q : BoundedQueue T) (x : T).

Lemma queue_wf_new cap : queue_wf (@BoundedQueue_new T cap).
Proof. unfold queue_wf. cbn. lia. Qed.

Lemma can_push_false q :
  can_push q = false -> shutdown_ q = false /\ capacity_ q <= length (queue_ q).
Proof. unfold can_push. rewrite orb_false_iff, bool_decide_eq_false. intros []; split; [done|lia]. Qed.

Lemma can_pop_false q : can_pop q = false -> shutdown_ q = false /\ queue_ q = [].
Proof.
  unfold can_pop. rewrite orb_false_iff, bool_decide_eq_false.
  intros [Hq ->]. split; [done|]. by apply dec_stable.
Qed.

Lemma push_locked_true x q q' :
  push_locked x q = (true, q') ->
  shutdown_ q = false /\ shutdown_ q' = false /\ capacity_ q' = capacity_ q /\
  queue_ q' = queue_ q ++ [x] /\
  high_water_mark_ q' = high_water_mark_ q `max` length (queue_ q ++ [x]).
Proof.
  unfold push_locked. destruct (shutdown_ q) eqn:E; [done|]. intros [= <-]. cbn.
  split_and!; try done. case_bool_decide; lia.
Qed.

Lemma push_locked_false x q q' :
  push_locked x q = (false, q') -> shutdown_ q = true /\ q' = q.
Proof. unfold push_locked. destruct (shutdown_ q) eqn:E; [|done]. by intros [= <-]. Qed.

Lemma pop_locked_Some x q q' :
  pop_locked q = (Some x, q') ->
  queue_ q = x :: queue_ q' /\ capacity_ q' = capacity_ q /\
  shutdown_ q' = shutdown_ q /\ high_water_mark_ q' = high_water_mark_ q.
Proof. unfold pop_locked. destruct (queue_ q); [done|]. by intros [= -> <-]. Qed.

Lemma pop_locked_None q q' : pop_locked q = (None, q') -> queue_ q = [] /\ q' = q.
Proof. unfold pop_locked. destruct (queue_ q); [|done]. by intros [= <-]. Qed.

(** A push that found the predicate true really had room. *)
Lemma can_push_room x q q' :
  can_push q = true -> push_locked x q = (true, q') -> length (queue_ q) < capacity_ q.
Proof.
  unfold can_push. intros Hc (Hs & _)%push_locked_true. rewrite Hs, orb_false_r in Hc.
  by apply bool_decide_eq_true in Hc.
Qed.

Lemma push_locked_wf x q q' :
  queue_wf q -> can_push q = true -> push_locked x q = (true, q') -> queue_wf q'.
Proof.
  unfold queue_wf, size, highWaterMark, capacity. intros Hwf Hc Hp.
  pose proof (can_push_room _ _ _ Hc Hp).
  apply push_locked_true in Hp as (_ & _ & -> & -> & ->). rewrite length_app. cbn. lia.
Qed.

Lemma pop_locked_wf o q q' : queue_wf q -> pop_locked q = (o, q') -> queue_wf q'.
Proof.
  unfold queue_wf, size, highWaterMark, capacity. destruct o.
  - intros Hwf (Hq & -> & _ & ->)%pop_locked_Some. rewrite Hq in Hwf. cbn in Hwf. lia.
  - by intros ? [_ ->]%pop_locked_None.
Qed.

(** The critical sections do what the contract says. *)
Lemma push_channel x q b q' :
  can_push q = true -> push_locked x q = (b, q') ->
  channel_step (capacity_ q) (channel_of q) (if b then Pushed x else Refused) (channel_of q').
Proof.
  intros Hc Hp. unfold channel_of. destruct b.
  - pose proof (can_push_room _ _ _ Hc Hp).
    apply push_locked_true in Hp as (-> & -> & _ & -> & ->). by constructor.
  - apply push_locked_false in Hp as [Hs ->]. rewrite Hs. by constructor.
Qed.

Lemma pop_channel q o q' :
  can_pop q = true -> pop_locked q = (o, q') ->
  channel_step (capacity_ q) (channel_of q)
    (match o with Some x => Popped x | None => Drained end) (channel_of q').
Proof.
  intros Hc Hp. unfold channel_of. destruct o as [x|].
  - apply pop_locked_Some in Hp as (-> & _ & -> & ->). by constructor.
  - apply pop_locked_None in Hp as [Hq ->]. unfold can_pop in Hc. rewrite Hq in Hc.
    cbn in Hc. rewrite Hq, Hc. by constructor.
Qed.

Lemma shutdown_channel q :
  channel_step (capacity_ q) (channel_of q) Closed (channel_of (shutdown_locked q)).
Proof. constructor. Qed.
End Lemmas.

#[export] Hint Resolve queue_wf_new push_locked_wf pop_locked_wf : tickforge.
