(* ===== verification/QueueThreads.v ===== *)
(** * The bounded queue under threads

    The mutex and the condition variables of bounded_queue.hpp, as a step
    relation.  A thread that calls [push] or [pop] competes for the mutex
    ([PushReady], [PopReady]); once it has it, it evaluates the predicate of
    its [wait] and either releases the mutex and blocks ([PushWait],
    [PopWait]) or runs its critical section.  Since nothing else touches the
    fields, everything between getting and releasing the mutex is one step.
    The notifications come after [unlock] and are steps of their own; a
    blocked thread may also wake for no reason. *)
From S2P Require Import Prelude BoundedQueue.

(** ** Threads *)
Inductive pc (T : Type) :=
  | Idle                    (* in no call *)
  | PushReady (x : T)       (* wants the mutex, first or again, to evaluate the wait predicate *)
  | PushWait (x : T)        (* blocked on not_full_ *)
  | PushNotify              (* unlocked, about to call not_empty_.notify_one() *)
  | PopReady
  | PopWait                 (* blocked on not_empty_ *)
  | PopNotify (x : T)       (* unlocked with x in out, about to call not_full_.notify_one() *)
  | ShutReady               (* wants the mutex to set the flag *)
  | ShutNotFull             (* about to call not_full_.notify_all() *)
  | ShutNotEmpty.           (* about to call not_empty_.notify_all() *)
Arguments Idle {T}.
Arguments PushReady {T} _.
Arguments PushWait {T} _.
Arguments PushNotify {T}.
Arguments PopReady {T}.
Arguments PopWait {T}.
Arguments PopNotify {T} _.
Arguments ShutReady {T}.
Arguments ShutNotFull {T}.
Arguments ShutNotEmpty {T}.

Record config (T : Type) := Cfg { cqueue : BoundedQueue T; threads : list (pc T) }.
Arguments Cfg {T} _ _.
Arguments cqueue {T} _.
Arguments threads {T} _.

Section Threads.
Context {T : Type}.
Implicit Types (q : BoundedQueue T) (ths : list (pc T)) (x : T).

(** [notify_all]: every thread blocked on the condition variable competes
    for the mutex again. *)
Definition wake_pusher (p : pc T) : pc T :=
  match p with PushWait x => PushReady x | _ => p end.
Definition wake_popper (p : pc T) : pc T :=
  match p with PopWait => PopReady | _ => p end.

Definition is_push_wait (p : pc T) : bool := match p with PushWait _ => true | _ => false end.
Definition is_push_ready (p : pc T) : bool := match p with PushReady _ => true | _ => false end.
Definition is_push_notify (p : pc T) : bool := match p with PushNotify => true | _ => false end.
Definition is_pop_wait (p : pc T) : bool := match p with PopWait => true | _ => false end.
Definition is_pop_ready (p : pc T) : bool := match p with PopReady => true | _ => false end.
Definition is_pop_notify (p : pc T) : bool := match p with PopNotify _ => true | _ => false end.
Definition is_shut_not_full (p : pc T) : bool := match p with ShutNotFull => true | _ => false end.
Definition is_shut_not_empty (p : pc T) : bool := match p with ShutNotEmpty => true | _ => false end.

(** An idle thread begins a call. *)
Inductive call : config T -> config T -> Prop :=
  | call_push q ths i x : ths !! i = Some Idle ->
      call (Cfg q ths) (Cfg q (<[i:=PushReady x]> ths))
  | call_pop q ths i : ths !! i = Some Idle ->
      call (Cfg q ths) (Cfg q (<[i:=PopReady]> ths))
  | call_shutdown q ths i : ths !! i = Some Idle ->
      call (Cfg q ths) (Cfg q (<[i:=ShutReady]> ths)).

(** A thread inside a call makes one step. *)
Inductive run : config T -> label T -> config T -> Prop :=
  | run_push_block q ths i x :
      ths !! i = Some (PushReady x) -> can_push q = false ->
      run (Cfg q ths) Tau (Cfg q (<[i:=PushWait x]> ths))
  | run_push q ths i x b q' :
      ths !! i = Some (PushReady x) -> can_push q = true -> push_locked x q = (b, q') ->
      run (Cfg q ths) (if b then Pushed x else Refused)
          (Cfg q' (<[i:=if b then PushNotify else Idle]> ths))
  | run_push_notify q ths i j :
      ths !! i = Some PushNotify -> ths !! j = Some PopWait ->
      run (Cfg q ths) Tau (Cfg q (<[i:=Idle]> (<[j:=PopReady]> ths)))
  | run_push_notify_none q ths i :
      ths !! i = Some PushNotify -> count is_pop_wait ths = 0 ->
      run (Cfg q ths) Tau (Cfg q (<[i:=Idle]> ths))
  | run_pop_block q ths i :
      ths !! i = Some PopReady -> can_pop q = false ->
      run (Cfg q ths) Tau (Cfg q (<[i:=PopWait]> ths))
  | run_pop q ths i o q' :
      ths !! i = Some PopReady -> can_pop q = true -> pop_locked q = (o, q') ->
      run (Cfg q ths) (match o with Some x => Popped x | None => Drained end)
          (Cfg q' (<[i:=match o with Some x => PopNotify x | None => Idle end]> ths))
  | run_pop_notify q ths i x j y :
      ths !! i = Some (PopNotify x) -> ths !! j = Some (PushWait y) ->
      run (Cfg q ths) Tau (Cfg q (<[i:=Idle]> (<[j:=PushReady y]> ths)))
  | run_pop_notify_none q ths i x :
      ths !! i = Some (PopNotify x) -> count is_push_wait ths = 0 ->
      run (Cfg q ths) Tau (Cfg q (<[i:=Idle]> ths))
  | run_shutdown q ths i :
      ths !! i = Some ShutReady ->
      run (Cfg q ths) Closed (Cfg (shutdown_locked q) (<[i:=ShutNotFull]> ths))
  | run_shut_not_full q ths i :
      ths !! i = Some ShutNotFull ->
      run (Cfg q ths) Tau (Cfg q (map wake_pusher (<[i:=ShutNotEmpty]> ths)))
  | run_shut_not_empty q ths i :
      ths !! i = Some ShutNotEmpty ->
      run (Cfg q ths) Tau (Cfg q (map wake_popper (<[i:=Idle]> ths))).

(** A blocked thread wakes though nobody notified it. *)
Inductive spurious : config T -> config T -> Prop :=
  | spurious_push q ths i x :
      ths !! i = Some (PushWait x) ->
      spurious (Cfg q ths) (Cfg q (<[i:=PushReady x]> ths))
  | spurious_pop q ths i :
      ths !! i = Some PopWait ->
      spurious (Cfg q ths) (Cfg q (<[i:=PopReady]> ths)).

(** Executions, with what their calls did in the order they did it. *)
Inductive exec : config T -> list (label T) -> config T -> Prop :=
  | exec_refl c : exec c [] c
  | exec_call c tr c1 c2 : exec c tr c1 -> call c1 c2 -> exec c tr c2
  | exec_spurious c tr c1 c2 : exec c tr c1 -> spurious c1 c2 -> exec c tr c2
  | exec_run c tr c1 l c2 : exec c tr c1 -> run c1 l c2 -> exec c (tr ++ [l]) c2.

(** A fresh queue of the given capacity, and [n] threads that may call it. *)
Definition initial (cap n : nat) : config T :=
  Cfg (BoundedQueue_new cap) (replicate n Idle).
Definition reachable (cap n : nat) (c : config T) : Prop :=
  exists tr, exec (initial cap n) tr c.

(** ** The invariant

    The counting argument behind [notify_one]: as long as the queue is open,
    a thread blocked in [pop] means that every queued item is matched by a
    notification still to be sent or by an awake popper that will look
    again; symmetrically for free places and threads blocked in [push].
    Once it is shut down, a blocked thread means a [notify_all] to come. *)
Record inv (cap : nat) (c : config T) : Prop := {
  inv_wf : queue_wf (cqueue c);
  inv_cap : capacity_ (cqueue c) = cap;
  inv_pop : shutdown_ (cqueue c) = false -> 0 < count is_pop_wait (threads c) ->
    length (queue_ (cqueue c)) <=
    count is_push_notify (threads c) + count is_pop_ready (threads c);
  inv_push : shutdown_ (cqueue c) = false -> 0 < count is_push_wait (threads c) ->
    cap <= length (queue_ (cqueue c)) +
    count is_pop_notify (threads c) + count is_push_ready (threads c);
  inv_shut_pop : shutdown_ (cqueue c) = true -> 0 < count is_pop_wait (threads c) ->
    0 < count is_shut_not_full (threads c) + count is_shut_not_empty (threads c);
  inv_shut_push : shutdown_ (cqueue c) = true -> 0 < count is_push_wait (threads c) ->
    0 < count is_shut_not_full (threads c);
  inv_shut_flag :
    0 < count is_shut_not_full (threads c) + count is_shut_not_empty (threads c) ->
    shutdown_ (cqueue c) = true
}.
End Threads.

(** Adds, for a thread that changes its program counter, how every count the
    invariant mentions changes. *)
Ltac counts_at H y :=
  match type of H with
  | ?l !! ?i = Some ?x =>
      pose proof (count_insert is_push_wait l i x y H);
      pose proof (count_insert is_push_ready l i x y H);
      pose proof (count_insert is_push_notify l i x y H);
      pose proof (count_insert is_pop_wait l i x y H);
      pose proof (count_insert is_pop_ready l i x y H);
      pose proof (count_insert is_pop_notify l i x y H);
      pose proof (count_insert is_shut_not_full l i x y H);
      pose proof (count_insert is_shut_not_empty l i x y H)
  end.

(** Closes the clauses of the invariant by counting. *)
Ltac close_inv :=
  split; cbn; auto; intros;
  repeat match goal with
  | H : ?P -> _, H' : ?P |- _ => specialize (H H')
  end;
  solve [congruence | lia
        | match goal with
          | H : _ -> ?b = true |- _ => assert (b = true) by (apply H; lia); congruence
          end].

Section Invariant.
Context {T : Type}.
Implicit Types (q : BoundedQueue T) (ths : list (pc T)) (x : T).

Lemma count_wake_pusher ths :
  count is_push_wait (map wake_pusher ths) = 0 /\
  count is_push_ready (map wake_pusher ths) = count is_push_ready ths + count is_push_wait ths /\
  count is_push_notify (map wake_pusher ths) = count is_push_notify ths /\
  count is_pop_wait (map wake_pusher ths) = count is_pop_wait ths /\
  count is_pop_ready (map wake_pusher ths) = count is_pop_ready ths /\
  count is_pop_notify (map wake_pusher ths) = count is_pop_notify ths /\
  count is_shut_not_full (map wake_pusher ths) = count is_shut_not_full ths /\
  count is_shut_not_empty (map wake_pusher ths) = count is_shut_not_empty ths.
Proof.
  induction ths as [|p ths IH]; [done|]. cbn. destruct p; cbn; lia.
Qed.

Lemma count_wake_popper ths :
  count is_pop_wait (map wake_popper ths) = 0 /\
  count is_pop_ready (map wake_popper ths) = count is_pop_ready ths + count is_pop_wait ths /\
  count is_push_notify (map wake_popper ths) = count is_push_notify ths /\
  count is_push_wait (map wake_popper ths) = count is_push_wait ths /\
  count is_push_ready (map wake_popper ths) = count is_push_ready ths /\
  count is_pop_notify (map wake_popper ths) = count is_pop_notify ths /\
  count is_shut_not_full (map wake_popper ths) = count is_shut_not_full ths /\
  count is_shut_not_empty (map wake_popper ths) = count is_shut_not_empty ths.
Proof.
  induction ths as [|p ths IH]; [done|]. cbn. destruct p; cbn; lia.
Qed.

Lemma inv_initial cap n : inv cap (@initial T cap n).
Proof.
  assert (Hz : forall p : pc T -> bool, p Idle = false -> count p (replicate n Idle) = 0).
  { intros p Hp. apply count_zero. by apply Forall_replicate. }
  split; cbn; rewrite ?Hz by done; try done; try lia. apply queue_wf_new.
Qed.

Lemma inv_call cap (c c' : config T) : inv cap c -> call c c' -> inv cap c'.
Proof.
  intros [] Hc. destruct Hc as [q ths i x Hi|q ths i Hi|q ths i Hi]; cbn in *;
    [counts_at Hi (PushReady x)|counts_at Hi (@PopReady T)|counts_at Hi (@ShutReady T)];
    cbn in *; close_inv.
Qed.

(** Each kind of step keeps the invariant. *)

Lemma inv_push_steps cap q ths i x b q' :
  inv cap (Cfg q ths) -> ths !! i = Some (PushReady x) ->
  (can_push q = false -> inv cap (Cfg q (<[i:=PushWait x]> ths))) /\
  (can_push q = true -> push_locked x q = (b, q') ->
   inv cap (Cfg q' (<[i:=if b then PushNotify else Idle]> ths))).
Proof.
  intros [Hwf Hcap Hpop Hpush Hsp Hsq Hfl] Hi. cbn in *. split.
  - intros [Hs Hfull]%can_push_false. counts_at Hi (PushWait x). cbn in *.
    close_inv.
  - intros Hc Hp. pose proof (push_locked_wf x q q' Hwf Hc) as Hwf'. destruct b.
    + specialize (Hwf' Hp).
      apply push_locked_true in Hp as (Hs & Hs' & Hcap' & Hq' & _).
      counts_at Hi (@PushNotify T). cbn in *.
      assert (length (queue_ q') = S (length (queue_ q)))
        by (rewrite Hq', length_app; cbn; lia). close_inv.
    + apply push_locked_false in Hp as [Hs ->]. counts_at Hi (@Idle T). cbn in *.
      close_inv.
Qed.

Lemma inv_pop_steps cap q ths i o q' :
  inv cap (Cfg q ths) -> ths !! i = Some PopReady ->
  (can_pop q = false -> inv cap (Cfg q (<[i:=PopWait]> ths))) /\
  (can_pop q = true -> pop_locked q = (o, q') ->
   inv cap (Cfg q' (<[i:=match o with Some x => PopNotify x | None => Idle end]> ths))).
Proof.
  intros [Hwf Hcap Hpop Hpush Hsp Hsq Hfl] Hi. cbn in *. split.
  - intros [Hs Hq]%can_pop_false. counts_at Hi (@PopWait T). cbn in *.
    assert (length (queue_ q) = 0) by (by rewrite Hq). close_inv.
  - intros Hc Hp. pose proof (pop_locked_wf o q q' Hwf Hp). destruct o as [x|].
    + apply pop_locked_Some in Hp as (Hq & Hcap' & Hs & _).
      counts_at Hi (PopNotify x). cbn in *.
      assert (length (queue_ q) = S (length (queue_ q'))) by (by rewrite Hq).
      rewrite <-Hs in *. close_inv.
    + apply pop_locked_None in Hp as [Hq ->]. counts_at Hi (@Idle T).
      unfold can_pop in Hc. rewrite Hq in Hc. cbn in *.
      assert (length (queue_ q) = 0) by (by rewrite Hq). close_inv.
Qed.

(** Waking thread [j], then thread [i] leaving its call. *)
Lemma inv_push_notify cap q ths i j :
  inv cap (Cfg q ths) -> ths !! i = Some PushNotify -> ths !! j = Some PopWait ->
  inv cap (Cfg q (<[i:=Idle]> (<[j:=PopReady]> ths))).
Proof.
  intros [Hwf Hcap Hpop Hpush Hsp Hsq Hfl] Hi Hj. cbn in *.
  assert (Hi' : (<[j:=PopReady]> ths) !! i = Some PushNotify)
    by (rewrite list_lookup_insert_ne; [done|intros ->; congruence]).
  counts_at Hj (@PopReady T). counts_at Hi' (@Idle T). cbn in *. close_inv.
Qed.

Lemma inv_pop_notify cap q ths i x j y :
  inv cap (Cfg q ths) -> ths !! i = Some (PopNotify x) -> ths !! j = Some (PushWait y) ->
  inv cap (Cfg q (<[i:=Idle]> (<[j:=PushReady y]> ths))).
Proof.
  intros [Hwf Hcap Hpop Hpush Hsp Hsq Hfl] Hi Hj. cbn in *.
  assert (Hi' : (<[j:=PushReady y]> ths) !! i = Some (PopNotify x))
    by (rewrite list_lookup_insert_ne; [done|intros ->; congruence]).
  counts_at Hj (PushReady y). counts_at Hi' (@Idle T). cbn in *. close_inv.
Qed.

Lemma inv_shutdown_steps cap q ths i :
  inv cap (Cfg q ths) ->
  (ths !! i = Some ShutReady -> inv cap (Cfg (shutdown_locked q) (<[i:=ShutNotFull]> ths))) /\
  (ths !! i = Some ShutNotFull ->
     inv cap (Cfg q (map wake_pusher (<[i:=ShutNotEmpty]> ths)))) /\
  (ths !! i = Some ShutNotEmpty ->
     inv cap (Cfg q (map wake_popper (<[i:=Idle]> ths)))).
Proof.
  intros [Hwf Hcap Hpop Hpush Hsp Hsq Hfl]. cbn in *. split_and!; intros Hi.
  - counts_at Hi (@ShutNotFull T). cbn in *. close_inv.
  - counts_at Hi (@ShutNotEmpty T).
    destruct (count_wake_pusher (<[i:=ShutNotEmpty]> ths)) as (? & ? & ? & ? & ? & ? & ? & ?).
    pose proof (count_lookup is_shut_not_full _ _ _ Hi eq_refl). cbn in *.
    assert (shutdown_ q = true) by (apply Hfl; lia). close_inv.
  - counts_at Hi (@Idle T).
    destruct (count_wake_popper (<[i:=Idle]> ths)) as (? & ? & ? & ? & ? & ? & ? & ?).
    pose proof (count_lookup is_shut_not_empty _ _ _ Hi eq_refl). cbn in *.
    assert (shutdown_ q = true) by (apply Hfl; lia). close_inv.
Qed.

Lemma inv_run cap (c c' : config T) l : inv cap c -> run c l c' -> inv cap c'.
Proof.
  intros Hinv Hr. destruct Hr as
    [q ths i x Hi Hc|q ths i x b q' Hi Hc Hp|q ths i j Hi Hj|q ths i Hi Hz
    |q ths i Hi Hc|q ths i o q' Hi Hc Hp|q ths i x j y Hi Hj|q ths i x Hi Hz
    |q ths i Hi|q ths i Hi|q ths i Hi].
  - by apply (inv_push_steps cap q ths i x true q Hinv Hi).
  - by apply (inv_push_steps cap q ths i x b q' Hinv Hi).
  - by apply inv_push_notify.
  - destruct Hinv; counts_at Hi (@Idle T); cbn in *; close_inv.
  - by apply (inv_pop_steps cap q ths i None q Hinv Hi).
  - by apply (inv_pop_steps cap q ths i o q' Hinv Hi).
  - by eapply inv_pop_notify.
  - destruct Hinv; counts_at Hi (@Idle T); cbn in *; close_inv.
  - by apply (inv_shutdown_steps cap q ths i Hinv).
  - by apply (inv_shutdown_steps cap q ths i Hinv).
  - by apply (inv_shutdown_steps cap q ths i Hinv).
Qed.

Lemma inv_spurious cap (c c' : config T) : inv cap c -> spurious c c' -> inv cap c'.
Proof.
  intros [] Hs. destruct Hs as [q ths i x Hi|q ths i Hi]; cbn in *;
    [counts_at Hi (PushReady x)|counts_at Hi (@PopReady T)]; cbn in *; close_inv.
Qed.

Lemma queue_inv_exec cap (c c' : config T) tr : inv cap c -> exec c tr c' -> inv cap c'.
Proof. intros Hi He. induction He; eauto using inv_call, inv_run, inv_spurious. Qed.

Lemma inv_reachable cap n (c : config T) : reachable cap n c -> inv cap c.
Proof. intros [tr He]. eauto using queue_inv_exec, inv_initial. Qed.
End Invariant.

(** ** What the contract implies *)

Definition pushed {T} (tr : list (label T)) : list T :=
  omap (fun l => match l with Pushed x => Some x | _ => None end) tr.
Definition popped {T} (tr : list (label T)) : list T :=
  omap (fun l => match l with Popped x => Some x | _ => None end) tr.

Inductive channel_exec {T} (cap : nat) (c : channel T) : list (label T) -> channel T -> Prop :=
  | channel_exec_refl : channel_exec cap c [] c
  | channel_exec_step tr c1 l c2 :
      channel_exec cap c tr c1 -> channel_step cap c1 l c2 ->
      channel_exec cap c (tr ++ [l]) c2.

Definition channel_new {T} : channel T := Build_channel [] false 0.

Section Channel.
Context {T : Type} (cap : nat).
Implicit Types (c : channel T) (tr : list (label T)).

Lemma channel_fifo c tr c' :
  channel_exec cap c tr c' -> items c ++ pushed tr = popped tr ++ items c'.
Proof.
  unfold pushed, popped.
  induction 1 as [|tr c1 l c2 _ IH Hs]; cbn; [by rewrite app_nil_r|].
  rewrite !omap_app. destruct Hs; cbn in *;
    rewrite ?app_nil_r in *; rewrite ?app_assoc, ?IH, <-?app_assoc; done.
Qed.

Lemma channel_exec_app_inv tr2 : forall c tr1 c',
  channel_exec cap c (tr1 ++ tr2) c' ->
  exists c1, channel_exec cap c tr1 c1 /\ channel_exec cap c1 tr2 c'.
Proof.
  induction tr2 as [|l tr2 IH] using rev_ind; intros c tr1 c' He.
  - rewrite app_nil_r in He. exists c'. split; [done|constructor].
  - rewrite app_assoc in He. inversion He as [E|tr c1 l' c2 He' Hs E]; subst.
    + by destruct (app_cons_not_nil (tr1 ++ tr2) [] l).
    + apply app_inj_tail in E as [-> ->].
      destruct (IH _ _ _ He') as (c0 & ? & ?). exists c0. split; [done|]. by econstructor.
Qed.

Lemma channel_exec_one c l c' : channel_exec cap c [l] c' -> channel_step cap c l c'.
Proof.
  intros He. inversion He as [|tr c1 l' c2 He' Hs E]. destruct tr as [|? []]; [|done..].
  injection E as ->. by inversion He'; subst; [|destruct tr].
Qed.

Lemma channel_split c tr1 l tr2 c' :
  channel_exec cap c (tr1 ++ l :: tr2) c' ->
  exists c1 c2, channel_exec cap c tr1 c1 /\ channel_step cap c1 l c2 /\
    channel_exec cap c2 tr2 c'.
Proof.
  intros (c1 & H1 & H2)%channel_exec_app_inv.
  change (l :: tr2) with ([l] ++ tr2) in H2.
  apply channel_exec_app_inv in H2 as (c2 & H2%channel_exec_one & H3). eauto.
Qed.

Lemma channel_closed_stays c tr c' :
  channel_exec cap c tr c' -> closed c = true -> closed c' = true /\ pushed tr = [].
Proof.
  unfold pushed. induction 1 as [|tr c1 l c2 _ IH Hs]; intros Hc; [done|].
  destruct (IH Hc) as [Hc1 Hp]. rewrite omap_app, Hp. by destruct Hs; cbn in *; simplify_eq.
Qed.

Lemma channel_closed_by c tr c' :
  channel_exec cap c tr c' -> closed c = false -> closed c' = true -> Closed ∈ tr.
Proof.
  induction 1 as [|tr c1 l c2 _ IH Hs]; intros Hc Hc'; [congruence|].
  rewrite elem_of_app. destruct (closed c1) eqn:E; [left; auto|].
  right. apply list_elem_of_singleton. destruct Hs; cbn in *; congruence.
Qed.

(** The items held after the first [k] labels of a trace. *)
Definition held tr (k : nat) : nat :=
  length (pushed (take k tr)) - length (popped (take k tr)).

Lemma channel_held tr c : channel_exec cap channel_new tr c -> held tr (length tr) = length (items c).
Proof.
  intros He%channel_fifo. unfold held. rewrite take_ge by done. cbn in He.
  rewrite He, length_app. lia.
Qed.

Lemma channel_peak tr c :
  channel_exec cap channel_new tr c ->
  (forall k, held tr k <= peak c) /\ (exists k, held tr k = peak c).
Proof.
  intros He. induction He as [|tr c1 l c2 He IH Hs].
  - split; [intros k|exists 0]; unfold held; by rewrite take_nil.
  - assert (He' : channel_exec cap channel_new (tr ++ [l]) c2) by by econstructor.
    pose proof (channel_held _ _ He') as Hh. destruct IH as [Hle [k0 Hk0]].
    assert (Hold : forall k, k <= length tr -> held (tr ++ [l]) k = held tr k)
      by (intros; unfold held; by rewrite take_app_le).
    assert (Hnew : forall k, length tr < k -> held (tr ++ [l]) k = length (items c2)).
    { intros k Hk. rewrite <-Hh. unfold held.
      by rewrite !(take_ge (tr ++ [l])) by (rewrite length_app; cbn; lia). }
    assert (Hk0' : held tr (k0 `min` length tr) = peak c1).
    { rewrite <-Hk0. unfold held. destruct (decide (k0 <= length tr)).
      - by rewrite Nat.min_l by lia.
      - by rewrite Nat.min_r, !(take_ge tr) by lia. }
    assert (Hp : peak c2 = peak c1 `max` length (items c2)).
    { pose proof (channel_held _ _ He) as Hh1. specialize (Hle (length tr)).
      rewrite Hh1 in Hle. destruct Hs; cbn in *; lia. }
    split.
    + intros k. destruct (decide (k <= length tr)).
      * rewrite Hold by done. specialize (Hle k). lia.
      * rewrite Hnew by lia. lia.
    + destruct (decide (length (items c2) <= peak c1)).
      * exists (k0 `min` length tr). rewrite Hold by lia. lia.
      * exists (S (length tr)). rewrite Hnew by lia. lia.
Qed.
End Channel.

(** ** The threads refine the contract *)
Section Refinement.
Context {T : Type}.
Implicit Types (c : config T) (tr : list (label T)).

Lemma run_channel c l c' :
  run c l c' ->
  channel_step (capacity_ (cqueue c)) (channel_of (cqueue c)) l (channel_of (cqueue c')).
Proof.
  destruct 1; cbn; try by constructor.
  - by apply push_channel.
  - by apply pop_channel.
Qed.

Lemma call_queue c c' : call c c' -> cqueue c' = cqueue c.
Proof. by destruct 1. Qed.
Lemma spurious_queue c c' : spurious c c' -> cqueue c' = cqueue c.
Proof. by destruct 1. Qed.

Lemma exec_channel cap c0 tr c :
  inv cap c0 -> exec c0 tr c ->
  channel_exec cap (channel_of (cqueue c0)) tr (channel_of (cqueue c)).
Proof.
  intros Hi He. induction He as [|c0 tr c1 c2 He IH Hc|c0 tr c1 c2 He IH Hc|c0 tr c1 l c2 He IH Hr].
  - constructor.
  - rewrite (call_queue _ _ Hc). auto.
  - rewrite (spurious_queue _ _ Hc). auto.
  - econstructor; [auto|]. apply run_channel in Hr.
    by rewrite (inv_cap _ _ (queue_inv_exec _ _ _ _ Hi He)) in Hr.
Qed.

Lemma exec_initial_channel cap n tr c :
  exec (initial cap n) tr c -> channel_exec cap channel_new tr (channel_of (cqueue c)).
Proof. apply (exec_channel cap (initial cap n)), inv_initial. Qed.

(** ** Progress *)

(** A thread that some step of its own can move. *)
Definition awake (p : pc T) : bool :=
  match p with Idle | PushWait _ | PopWait => false | _ => true end.

Definition progress : relation (config T) := fun c c' => exists l, run c l c'.

Lemma awake_progress c i p :
  threads c !! i = Some p -> awake p = true -> exists c', progress c c'.
Proof.
  destruct c as [q ths]. cbn. intros Hi Hp. unfold progress.
  destruct p as [|x|x| | | |x| | |]; try done.
  - destruct (can_push q) eqn:Hc.
    + destruct (push_locked x q) as [b q'] eqn:Hl. eauto using run.
    + eauto using run.
  - destruct (count is_pop_wait ths) eqn:Hz; [eauto using run|].
    destruct (count_pos is_pop_wait ths) as (j & p & Hj & Hp'); [lia|].
    destruct p; try done. eauto using run.
  - destruct (can_pop q) eqn:Hc.
    + destruct (pop_locked q) as [o q'] eqn:Hl. eauto using run.
    + eauto using run.
  - destruct (count is_push_wait ths) eqn:Hz; [eauto using run|].
    destruct (count_pos is_push_wait ths) as (j & p & Hj & Hp'); [lia|].
    destruct p; try done. eauto using run.
  - eauto using run.
  - eauto using run.
  - eauto using run.
Qed.

(** Steps left to a thread once the queue is shut down. *)
Definition rank (p : pc T) : nat :=
  match p with
  | Idle => 0
  | PushWait _ | PopWait | ShutReady => 3
  | PushReady _ | PopReady | ShutNotFull => 2
  | PushNotify | PopNotify _ | ShutNotEmpty => 1
  end.
Fixpoint ranks (ths : list (pc T)) : nat :=
  match ths with [] => 0 | p :: ths => rank p + ranks ths end.

Lemma ranks_insert ths i p p' :
  ths !! i = Some p -> ranks (<[i:=p']> ths) + rank p = ranks ths + rank p'.
Proof.
  revert i. induction ths as [|p0 ths IH]; intros [|i] Hi; simplify_eq/=; [lia|].
  specialize (IH i Hi). lia.
Qed.

Lemma ranks_wake ths :
  ranks (map wake_pusher ths) <= ranks ths /\ ranks (map wake_popper ths) <= ranks ths.
Proof. induction ths as [|p ths IH]; [done|]. cbn. destruct p; cbn; lia. Qed.

Definition any_step : relation (config T) := fun c c' => progress c c' \/ spurious c c'.

Lemma shutdown_step c c' :
  shutdown_ (cqueue c) = true -> any_step c c' ->
  shutdown_ (cqueue c') = true /\ ranks (threads c') < ranks (threads c).
Proof.
  intros Hs [[l Hr]|Hr].
  - destruct Hr as
    [q ths i x Hi Hc|q ths i x b q' Hi Hc Hp|q ths i j Hi Hj|q ths i Hi Hz
    |q ths i Hi Hc|q ths i o q' Hi Hc Hp|q ths i x j y Hi Hj|q ths i x Hi Hz
    |q ths i Hi|q ths i Hi|q ths i Hi]; cbn in *.
    + apply can_push_false in Hc as [? _]. congruence.
    + unfold push_locked in Hp. rewrite Hs in Hp. injection Hp as <- <-.
      pose proof (ranks_insert ths i _ Idle Hi). cbn in *. split; [congruence|lia].
    + assert (Hi' : (<[j:=PopReady]> ths) !! i = Some PushNotify)
        by (rewrite list_lookup_insert_ne; [done|intros ->; congruence]).
      pose proof (ranks_insert _ _ _ Idle Hi'). pose proof (ranks_insert _ _ _ PopReady Hj).
      cbn in *. split; [congruence|lia].
    + pose proof (ranks_insert ths i _ Idle Hi). cbn in *. split; [congruence|lia].
    + apply can_pop_false in Hc as [? _]. congruence.
    + destruct o as [x|].
      * apply pop_locked_Some in Hp as (_ & _ & -> & _).
        pose proof (ranks_insert ths i _ (PopNotify x) Hi). cbn in *. split; [congruence|lia].
      * apply pop_locked_None in Hp as [_ ->].
        pose proof (ranks_insert ths i _ Idle Hi). cbn in *. split; [congruence|lia].
    + assert (Hi' : (<[j:=PushReady y]> ths) !! i = Some (PopNotify x))
        by (rewrite list_lookup_insert_ne; [done|intros ->; congruence]).
      pose proof (ranks_insert _ _ _ Idle Hi').
      pose proof (ranks_insert _ _ _ (PushReady y) Hj). cbn in *. split; [congruence|lia].
    + pose proof (ranks_insert ths i _ Idle Hi). cbn in *. split; [congruence|lia].
    + pose proof (ranks_insert ths i _ ShutNotFull Hi). cbn in *. split; [congruence|lia].
    + pose proof (ranks_insert ths i _ ShutNotEmpty Hi).
      pose proof (ranks_wake (<[i:=ShutNotEmpty]> ths)). cbn in *. split; [congruence|lia].
    + pose proof (ranks_insert ths i _ Idle Hi).
      pose proof (ranks_wake (<[i:=Idle]> ths)). cbn in *. split; [congruence|lia].
  - destruct Hr as [q ths i x Hi|q ths i Hi]; cbn in *.
    + pose proof (ranks_insert ths i _ (PushReady x) Hi). cbn in *. split; [congruence|lia].
    + pose proof (ranks_insert ths i _ PopReady Hi). cbn in *. split; [congruence|lia].
Qed.

Lemma inv_any_step cap c c' : inv cap c -> any_step c c' -> inv cap c'.
Proof. intros Hi [[l Hr]|Hs]; eauto using inv_run, inv_spurious. Qed.

Lemma quiet_counts c (p : pc T -> bool) :
  Forall (fun t => awake t = false) (threads c) ->
  (forall t, p t = true -> awake t = true) -> count p (threads c) = 0.
Proof.
  intros Hq Hp. apply count_zero. eapply Forall_impl; [exact Hq|].
  intros t Ht. destruct (p t) eqn:E; [|done]. apply Hp in E. congruence.
Qed.

Lemma quiet_blocked cap c :
  inv cap c -> Forall (fun t => awake t = false) (threads c) ->
  (0 < count is_pop_wait (threads c) ->
     shutdown_ (cqueue c) = false /\ queue_ (cqueue c) = []) /\
  (0 < count is_push_wait (threads c) ->
     shutdown_ (cqueue c) = false /\ length (queue_ (cqueue c)) = cap).
Proof.
  intros [Hwf Hcap Hpop Hpush Hsp Hsq Hfl] Hq.
  pose proof (quiet_counts c is_push_notify Hq ltac:(by intros [])).
  pose proof (quiet_counts c is_pop_ready Hq ltac:(by intros [])).
  pose proof (quiet_counts c is_pop_notify Hq ltac:(by intros [])).
  pose proof (quiet_counts c is_push_ready Hq ltac:(by intros [])).
  pose proof (quiet_counts c is_shut_not_full Hq ltac:(by intros [])).
  pose proof (quiet_counts c is_shut_not_empty Hq ltac:(by intros [])).
  unfold queue_wf, size, highWaterMark, capacity in Hwf.
  split; intros Hb; (destruct (shutdown_ (cqueue c)); [exfalso|split; [done|]]).
  - specialize (Hsp eq_refl Hb). lia.
  - specialize (Hpop eq_refl Hb). destruct (queue_ (cqueue c)); [done|cbn in *; lia].
  - specialize (Hsq eq_refl Hb). lia.
  - specialize (Hpush eq_refl Hb). lia.
Qed.

(** Without new calls and spurious wake-ups the threads come to rest: each
    either leaves its call or blocks.  [n] bounds how many threads a
    [notify_all] can wake. *)
Definition weight (n : nat) (p : pc T) : nat :=
  match p with
  | Idle => 0
  | PushWait _ | PopWait | PushNotify | PopNotify _ => 2
  | PushReady _ | PopReady => 3
  | ShutNotEmpty => n + 1
  | ShutNotFull => 2 * n + 2
  | ShutReady => 2 * n + 3
  end.
Fixpoint weights (n : nat) (ths : list (pc T)) : nat :=
  match ths with [] => 0 | p :: ths => weight n p + weights n ths end.

Lemma weights_insert n ths i p p' :
  ths !! i = Some p -> weights n (<[i:=p']> ths) + weight n p = weights n ths + weight n p'.
Proof.
  revert i. induction ths as [|p0 ths IH]; intros [|i] Hi; simplify_eq/=; [lia|].
  specialize (IH i Hi). lia.
Qed.

Lemma weights_wake n ths :
  weights n (map wake_pusher ths) <= weights n ths + length ths /\
  weights n (map wake_popper ths) <= weights n ths + length ths.
Proof. induction ths as [|p ths IH]; [done|]. cbn. destruct p; cbn; lia. Qed.

Lemma progress_weight n c c' :
  length (threads c) = n -> progress c c' ->
  length (threads c') = n /\ weights n (threads c') < weights n (threads c).
Proof.
  intros Hn [l Hr].
  destruct Hr as
    [q ths i x Hi Hc|q ths i x b q' Hi Hc Hp|q ths i j Hi Hj|q ths i Hi Hz
    |q ths i Hi Hc|q ths i o q' Hi Hc Hp|q ths i x j y Hi Hj|q ths i x Hi Hz
    |q ths i Hi|q ths i Hi|q ths i Hi]; cbn -[weight] in *;
    rewrite ?length_map, ?length_insert; (split; [done|]).
  - pose proof (weights_insert n ths i _ (PushWait x) Hi). cbn in *. lia.
  - pose proof (weights_insert n ths i _ (if b then PushNotify else Idle) Hi).
    destruct b; cbn in *; lia.
  - assert (Hi' : (<[j:=PopReady]> ths) !! i = Some PushNotify)
      by (rewrite list_lookup_insert_ne; [done|intros ->; congruence]).
    pose proof (weights_insert n _ _ _ Idle Hi').
    pose proof (weights_insert n _ _ _ PopReady Hj). cbn in *. lia.
  - pose proof (weights_insert n ths i _ Idle Hi). cbn in *. lia.
  - pose proof (weights_insert n ths i _ PopWait Hi). cbn in *. lia.
  - pose proof (weights_insert n ths i _
      (match o with Some x => PopNotify x | None => Idle end) Hi).
    destruct o; cbn in *; lia.
  - assert (Hi' : (<[j:=PushReady y]> ths) !! i = Some (PopNotify x))
      by (rewrite list_lookup_insert_ne; [done|intros ->; congruence]).
    pose proof (weights_insert n _ _ _ Idle Hi').
    pose proof (weights_insert n _ _ _ (PushReady y) Hj). cbn in *. lia.
  - pose proof (weights_insert n ths i _ Idle Hi). cbn in *. lia.
  - pose proof (weights_insert n ths i _ ShutNotFull Hi). cbn in *. lia.
  - pose proof (weights_insert n ths i _ ShutNotEmpty Hi).
    pose proof (weights_wake n (<[i:=ShutNotEmpty]> ths)) as [Hw _].
    rewrite length_insert in Hw. cbn in *. lia.
  - pose proof (weights_insert n ths i _ Idle Hi).
    pose proof (weights_wake n (<[i:=Idle]> ths)) as [_ Hw].
    rewrite length_insert in Hw. cbn in *. lia.
Qed.

Lemma progress_sn c : sn progress c.
Proof.
  apply (measure_sn _ (fun c' => length (threads c') = length (threads c))
           (fun c' => weights (length (threads c)) (threads c'))); [done|].
  intros c1 c2. apply progress_weight.
Qed.

Lemma nf_quiet c : nf progress c -> Forall (fun t => awake t = false) (threads c).
Proof.
  intros Hnf. apply Forall_lookup. intros i p Hi. destruct (awake p) eqn:Hp; [|done].
  destruct Hnf. by eapply awake_progress.
Qed.

Lemma inv_progress_rtc cap c c' : inv cap c -> rtc progress c c' -> inv cap c'.
Proof.
  intros Hi. apply rtc_invariant; [done|]. intros c1 c2 H1 H2.
  eapply inv_any_step; [done|by left].
Qed.

Lemma shutdown_rtc c c' :
  shutdown_ (cqueue c) = true -> rtc any_step c c' -> shutdown_ (cqueue c') = true.
Proof.
  intros Hs. apply (rtc_invariant any_step (fun c => shutdown_ (cqueue c) = true)); [done|].
  intros c1 c2 H1 H2. by apply (shutdown_step c1 c2).
Qed.

Lemma shutdown_quiet_idle cap c i p :
  inv cap c -> shutdown_ (cqueue c) = true -> nf progress c ->
  threads c !! i = Some p -> p = Idle.
Proof.
  intros Hinv Hs Hnf Hi. pose proof (nf_quiet c Hnf) as Hq.
  destruct (quiet_blocked cap c Hinv Hq) as [Hpop Hpush].
  rewrite Forall_lookup in Hq. specialize (Hq i p Hi). destruct p as [| |x| | | | | | |]; try done.
  - pose proof (count_lookup is_push_wait _ _ _ Hi eq_refl) as Hc. by apply Hpush in Hc as [? _]; congruence.
  - pose proof (count_lookup is_pop_wait _ _ _ Hi eq_refl) as Hc. by apply Hpop in Hc as [? _]; congruence.
Qed.
End Refinement.

(** ** A scheduler

    Runs given choices of which thread goes next; [notify_one] wakes the
    blocked thread with the least number. *)
Inductive action (T : Type) :=
  | CallPush (i : nat) (x : T)
  | CallPop (i : nat)
  | CallShutdown (i : nat)
  | Go (i : nat).
Arguments CallPush {T} _ _.
Arguments CallPop {T} _.
Arguments CallShutdown {T} _.
Arguments Go {T} _.

Section Scheduler.
Context {T : Type}.
Implicit Types (q : BoundedQueue T) (ths : list (pc T)).

Fixpoint find_first (p : pc T -> bool) ths : option (nat * pc T) :=
  match ths with
  | [] => None
  | t :: ths => if p t then Some (0, t)
                else '(i, t') ← find_first p ths; Some (S i, t')
  end.

Lemma find_first_spec p ths :
  match find_first p ths with
  | Some (i, t) => ths !! i = Some t /\ p t = true
  | None => count p ths = 0
  end.
Proof.
  induction ths as [|t ths IH]; cbn; [done|]. destruct (p t) eqn:Hp; [done|].
  by destruct (find_first p ths) as [[i t']|].
Qed.

Definition go (i : nat) (c : config T) : option (label T * config T) :=
  let q := cqueue c in let ths := threads c in
  t ← ths !! i;
  match t with
  | Idle | PushWait _ | PopWait => None
  | PushReady x =>
      if can_push q then
        let '(b, q') := push_locked x q in
        Some (if b then Pushed x else Refused,
              Cfg q' (<[i:=if b then PushNotify else Idle]> ths))
      else Some (Tau, Cfg q (<[i:=PushWait x]> ths))
  | PushNotify =>
      Some (Tau, Cfg q (<[i:=Idle]> (match find_first is_pop_wait ths with
                                     | Some (j, _) => <[j:=PopReady]> ths
                                     | None => ths end)))
  | PopReady =>
      if can_pop q then
        let '(o, q') := pop_locked q in
        Some (match o with Some x => Popped x | None => Drained end,
              Cfg q' (<[i:=match o with Some x => PopNotify x | None => Idle end]> ths))
      else Some (Tau, Cfg q (<[i:=PopWait]> ths))
  | PopNotify _ =>
      Some (Tau, Cfg q (<[i:=Idle]> (match find_first is_push_wait ths with
                                     | Some (j, t') => <[j:=wake_pusher t']> ths
                                     | None => ths end)))
  | ShutReady => Some (Closed, Cfg (shutdown_locked q) (<[i:=ShutNotFull]> ths))
  | ShutNotFull => Some (Tau, Cfg q (map wake_pusher (<[i:=ShutNotEmpty]> ths)))
  | ShutNotEmpty => Some (Tau, Cfg q (map wake_popper (<[i:=Idle]> ths)))
  end.

Lemma go_run i c l c' : go i c = Some (l, c') -> run c l c'.
Proof.
  destruct c as [q ths]. unfold go. cbn. destruct (ths !! i) as [t|] eqn:Hi; [|done]. cbn.
  pose proof (find_first_spec is_pop_wait ths) as Hpop.
  pose proof (find_first_spec is_push_wait ths) as Hpush.
  destruct t as [|x|x| | | |x| | |]; try done.
  - destruct (can_push q) eqn:Hc; [destruct (push_locked x q) as [b q'] eqn:Hp|];
      intros [= <- <-]; eauto using run.
  - destruct (find_first is_pop_wait ths) as [[j t']|]; intros [= <- <-]; [|eauto using run].
    destruct Hpop as [Hj Ht]. destruct t'; try done. eauto using run.
  - destruct (can_pop q) eqn:Hc; [destruct (pop_locked q) as [o q'] eqn:Hp|];
      intros [= <- <-]; eauto using run.
  - destruct (find_first is_push_wait ths) as [[j t']|]; intros [= <- <-]; [|eauto using run].
    destruct Hpush as [Hj Ht]. destruct t'; try done. eauto using run.
  - intros [= <- <-]. eauto using run.
  - intros [= <- <-]. eauto using run.
  - intros [= <- <-]. eauto using run.
Qed.

Definition act (a : action T) (c : config T) : option (list (label T) * config T) :=
  let begin i p :=
    t ← threads c !! i;
    match t with Idle => Some ([], Cfg (cqueue c) (<[i:=p]> (threads c))) | _ => None end in
  match a with
  | CallPush i x => begin i (PushReady x)
  | CallPop i => begin i PopReady
  | CallShutdown i => begin i ShutReady
  | Go i => '(l, c') ← go i c; Some ([l], c')
  end.

Lemma act_exec a c0 tr c ls c' :
  exec c0 tr c -> act a c = Some (ls, c') -> exec c0 (tr ++ ls) c'.
Proof.
  intros He. destruct c as [q ths].
  destruct a as [i x|i|i|i]; cbn -[go]; [destruct (ths !! i) as [[]|] eqn:Hi; try done..|].
  - intros [= <- <-]. rewrite app_nil_r. eapply exec_call; eauto using call.
  - intros [= <- <-]. rewrite app_nil_r. eapply exec_call; eauto using call.
  - intros [= <- <-]. rewrite app_nil_r. eapply exec_call; eauto using call.
  - destruct (go i (Cfg q ths)) as [[l c1]|] eqn:Hg; [|done]. intros [= <- <-].
    eapply exec_run; eauto using go_run.
Qed.

Fixpoint schedule (acts : list (action T)) (c : config T) : option (list (label T) * config T) :=
  match acts with
  | [] => Some ([], c)
  | a :: acts => '(ls, c1) ← act a c; '(ls', c2) ← schedule acts c1; Some (ls ++ ls', c2)
  end.

Lemma schedule_from acts : forall c0 tr c ls c',
  exec c0 tr c -> schedule acts c = Some (ls, c') -> exec c0 (tr ++ ls) c'.
Proof.
  induction acts as [|a acts IH]; intros c0 tr c ls c' He; cbn.
  - intros [= <- <-]. by rewrite app_nil_r.
  - destruct (act a c) as [[ls1 c1]|] eqn:Ha; [|done]. cbn.
    destruct (schedule acts c1) as [[ls2 c2]|] eqn:Hs; [|done]. intros [= <- <-].
    rewrite app_assoc. eauto using act_exec.
Qed.

Lemma schedule_exec acts c ls c' : schedule acts c = Some (ls, c') -> exec c ls c'.
Proof. intros Hs. exact (schedule_from acts c [] c ls c' (exec_refl c) Hs). Qed.
End Scheduler.

(** A run of three threads on a queue of capacity 1: thread 0 pushes 7, a
    second push of 8 by thread 1 blocks until thread 2 has popped, the queue is
    shut down and drained. *)
Definition demo_open : list (action nat) :=
  [CallPush 0 7; CallPush 1 8; Go 0; Go 1; CallPop 2; Go 2; Go 0; Go 2; Go 1].
Definition demo_closed : list (action nat) :=
  [CallShutdown 0; Go 0; Go 0; Go 0; CallPop 2; Go 2; Go 2; CallPop 2; Go 2].

Definition demo (acts : list (action nat)) : list (label nat) * config nat :=
  default ([], initial 1 3) (schedule acts (initial 1 3)).

Lemma demo_exec_open : exec (initial 1 3) (demo demo_open).1 (demo demo_open).2.
Proof. apply (schedule_exec demo_open). vm_compute. reflexivity. Qed.

(** What the threads are left with. *)
Definition demo_end : config nat :=
  Cfg (Build_BoundedQueue 1 [] 1 true) [Idle; Idle; Idle].

Lemma demo_exec_all :
  exec (initial 1 3)
    [Pushed 7; Tau; Popped 7; Tau; Tau; Pushed 8; Tau; Closed; Tau; Tau; Popped 8; Tau; Drained]
    demo_end.
Proof. apply (schedule_exec (demo_open ++ [Go 1] ++ demo_closed)). vm_compute. reflexivity. Qed.
