(* ===== verification/QueueProperties.v ===== *)
(** * What the bounded queue guarantees its threads

    The properties of bounded_queue.hpp for any number of threads calling
    [push], [pop] and [shutdown] in any interleaving, with spurious wake-ups. *)
From S2P Require Import Prelude BoundedQueue QueueThreads.

(** The queue never holds more than its capacity, whatever the threads
    do, and the reported high-water mark lies between the current size and the
    capacity. *)
Theorem queue_bounded {T} (cap n : nat) (c : config T)
  (Hr : reachable cap n c) :
  size (cqueue c) <= highWaterMark (cqueue c) <= capacity (cqueue c) /\
  capacity (cqueue c) = cap.
Proof. destruct (inv_reachable cap n c Hr) as [Hwf Hcap]. split; [apply Hwf|apply Hcap]. Qed.

Lemma queue_bounded_witness :
  reachable 1 3 (demo demo_open).2 /\ size (cqueue (demo demo_open).2) <= 1.
Proof.
  assert (Hr : reachable 1 3 (demo demo_open).2) by (eexists; exact demo_exec_open).
  split; [exact Hr|]. destruct (queue_bounded 1 3 _ Hr) as [Hb Hc]. lia.
Defined.

(** C3: every execution of the queue's threads, read through the labels of
    its calls, is an execution of a bounded closable channel: pushes append
    when there is room and the channel is open, are refused only once it is
    closed, pops take the oldest item, and report the end only of a closed,
    empty channel. *)
Theorem queue_refines_channel {T} (cap n : nat) (tr : list (label T)) (c : config T)
  (He : exec (initial cap n) tr c) :
  channel_exec cap channel_new tr (channel_of (cqueue c)).
Proof. exact (exec_initial_channel cap n tr c He). Qed.

Lemma queue_refines_channel_witness :
  channel_exec 1 channel_new (demo demo_open).1 (channel_of (cqueue (demo demo_open).2)).
Proof. exact (queue_refines_channel 1 3 _ _ demo_exec_open). Defined.

(** No loss, no duplication, no reordering: the items the accepted pushes
    put in, in the order they were accepted, are the items handed out so far
    followed by those still queued. *)
Theorem queue_fifo {T} (cap n : nat) (tr : list (label T)) (c : config T)
  (He : exec (initial cap n) tr c) :
  pushed tr = popped tr ++ queue_ (cqueue c).
Proof.
  apply exec_initial_channel, channel_fifo in He. exact He.
Qed.

Lemma queue_fifo_witness :
  pushed (demo demo_open).1 = [7; 8] /\
  pushed (demo demo_open).1 =
    popped (demo demo_open).1 ++ queue_ (cqueue (demo demo_open).2).
Proof. split; [reflexivity|]. exact (queue_fifo 1 3 _ _ demo_exec_open). Defined.

(** After [shutdown] has set the flag no push is accepted any more, and
    the flag stays set. *)
Theorem queue_closed_refuses {T} (cap n : nat) (tr1 tr2 : list (label T)) (c : config T)
  (He : exec (initial cap n) (tr1 ++ Closed :: tr2) c) :
  pushed tr2 = [] /\ shutdown_ (cqueue c) = true.
Proof.
  apply exec_initial_channel, channel_split in He as (c1 & c2 & _ & Hs & H2).
  destruct (channel_closed_stays _ _ _ _ H2) as [Hc Hp]; [by inversion Hs|]. done.
Qed.

Lemma queue_closed_refuses_witness :
  pushed [Tau; Tau; Popped 8; Tau; Drained] = [] /\
  shutdown_ (cqueue demo_end) = true.
Proof.
  exact (queue_closed_refuses 1 3 [Pushed 7; Tau; Popped 7; Tau; Tau; Pushed 8; Tau]
           [Tau; Tau; Popped 8; Tau; Drained] demo_end demo_exec_all).
Defined.

(** [pop] returns false only when the queue has been shut down and
    everything ever accepted has been handed out before; from then on nothing
    is pushed or popped.  A consumer that loops until [pop] fails has therefore
    seen every item. *)
Theorem queue_drained_complete {T} (cap n : nat) (tr1 tr2 : list (label T)) (c : config T)
  (He : exec (initial cap n) (tr1 ++ Drained :: tr2) c) :
  Closed ∈ tr1 /\ popped tr1 = pushed tr1 /\ pushed tr2 = [] /\ popped tr2 = [].
Proof.
  apply exec_initial_channel, channel_split in He as (c1 & c2 & H1 & Hs & H2).
  inversion Hs; subst. pose proof (channel_fifo _ _ _ _ H1) as Hf1. cbn in Hf1.
  rewrite app_nil_r in Hf1.
  pose proof (channel_closed_stays _ _ _ _ H2 eq_refl) as [_ Hp].
  pose proof (channel_fifo _ _ _ _ H2) as Hf2. rewrite Hp in Hf2. cbn in Hf2.
  split_and!; [by eapply channel_closed_by| |done|].
  - by symmetry.
  - by destruct (popped tr2).
Qed.

Lemma queue_drained_complete_witness :
  popped [Pushed 7; Tau; Popped 7; Tau; Tau; Pushed 8; Tau; Closed; Tau; Tau; Popped 8; Tau]
    = [7; 8].
Proof.
  destruct (queue_drained_complete 1 3
    [Pushed 7; Tau; Popped 7; Tau; Tau; Pushed 8; Tau; Closed; Tau; Tau; Popped 8; Tau] []
    demo_end demo_exec_all) as (_ & Hp & _). exact Hp.
Defined.

(** C1: no lost wake-up.  From any reachable state, if no new call begins and
    no thread wakes spuriously, the threads come to rest after finitely many
    steps; and where they rest, a thread still blocked in [pop] means an open,
    empty queue and one still blocked in [push] an open, full one. *)
Theorem queue_no_lost_wakeup {T} (cap n : nat) (c : config T)
  (Hr : reachable cap n c) :
  sn progress c /\
  forall c', rtc progress c c' -> nf progress c' ->
    Forall (fun t => awake t = false) (threads c') /\
    (PopWait ∈ threads c' ->
       shutdown_ (cqueue c') = false /\ queue_ (cqueue c') = []) /\
    (forall x, PushWait x ∈ threads c' ->
       shutdown_ (cqueue c') = false /\ length (queue_ (cqueue c')) = cap).
Proof.
  split; [apply progress_sn|]. intros c' Hs Hnf.
  pose proof (inv_progress_rtc cap c c' (inv_reachable cap n c Hr) Hs) as Hinv.
  pose proof (nf_quiet c' Hnf) as Hq.
  destruct (quiet_blocked cap c' Hinv Hq) as [Hpop Hpush]. split_and!; [done| |].
  - intros [i Hi]%list_elem_of_lookup. apply Hpop. by eapply count_lookup.
  - intros x [i Hi]%list_elem_of_lookup. apply Hpush. by eapply count_lookup.
Qed.

Lemma queue_no_lost_wakeup_witness : sn progress (demo demo_open).2.
Proof.
  apply (queue_no_lost_wakeup 1 3 (demo demo_open).2). eexists. exact demo_exec_open.
Defined.

(** [shutdown] releases everybody: once the flag is set, every call in
    progress and every call blocked comes to its end after finitely many
    steps, spurious wake-ups included: no thread is left inside the queue. *)
Theorem queue_shutdown_releases {T} (cap n : nat) (c : config T)
  (Hr : reachable cap n c) (Hs : shutdown_ (cqueue c) = true) :
  sn any_step c /\
  forall c', rtc any_step c c' -> nf progress c' ->
    Forall (fun t => t = Idle) (threads c').
Proof.
  pose proof (inv_reachable cap n c Hr) as Hinv. split.
  - apply (measure_sn _ (fun c => shutdown_ (cqueue c) = true) (fun c => ranks (threads c)));
      [done|exact shutdown_step].
  - intros c' Hsteps Hnf. apply Forall_lookup. intros i p Hi.
    apply (shutdown_quiet_idle cap c' i p); [|by eapply shutdown_rtc|done..].
    revert Hsteps. apply rtc_invariant; [done|exact (inv_any_step cap)].
Qed.

(** Thread 1 blocked in [pop], thread 0 about to notify after setting the
    flag. *)
Definition demo_blocked : config nat :=
  (demo [CallPop 1; Go 1; CallShutdown 0; Go 0]).2.

Lemma queue_shutdown_releases_witness :
  threads demo_blocked = [ShutNotFull; PopWait; Idle] /\ sn any_step demo_blocked.
Proof.
  split; [reflexivity|].
  apply (queue_shutdown_releases 1 3 demo_blocked); [|reflexivity].
  exists (demo [CallPop 1; Go 1; CallShutdown 0; Go 0]).1.
  apply (schedule_exec [CallPop 1; Go 1; CallShutdown 0; Go 0]). vm_compute. reflexivity.
Defined.

(** The high-water mark is exact: it is the largest number of items the
    queue held at any point of the execution, not merely a bound on it. *)
Theorem queue_peak_exact {T} (cap n : nat) (tr : list (label T)) (c : config T)
  (He : exec (initial cap n) tr c) :
  (forall k, held tr k <= highWaterMark (cqueue c)) /\
  (exists k, held tr k = highWaterMark (cqueue c)).
Proof. apply exec_initial_channel, channel_peak in He. exact He. Qed.

Lemma queue_peak_exact_witness :
  exists k, held (demo demo_open).1 k = 1.
Proof. exact (proj2 (queue_peak_exact 1 3 _ _ demo_exec_open)). Defined.
