(* ===== verification/Interfaces.v ===== *)
(** * What the components promise one another

    The abstract classes market_data_source.hpp and event_publisher.hpp, and
    the part of bounded_queue.hpp the pipeline relies on, as type classes: the
    pipeline is defined and verified over them, and each component proves its
    own instance. *)
From S2P Require Import Prelude MarketEvent BoundedQueue.

(** ** MarketDataSource *)

(** What a call of [next] may come back with. *)
Inductive next_result :=
  | NextEvent (e : MarketEvent)   (* true, with [out] set *)
  | NextEnd                       (* false *)
  | NextThrow (x : exn).

(** A source keeps a state of its own; what [start] and [next] do may depend
    on the outside (a clock, a network), so both are relations.  A call of
    [next] takes effect at one point, where its result is fixed; [FineSource]
    has the interface without this restriction. *)
Class MarketDataSource (Src : Type) := {
  source_start : Src -> Src -> outcome unit -> Prop;
  source_stop : Src -> Src;
  source_next : Src -> next_result -> Src -> Prop
}.

(** Every way of calling [next] over and over comes to an end: each call comes
    back without an exception, the events satisfy [ok], and there are finitely
    many of them. *)
Inductive ends `{MarketDataSource Src} (ok : MarketEvent -> Prop) (s : Src) : Prop :=
  | ends_intro :
      (exists r s', source_next s r s') ->
      (forall x s', ~ source_next s (NextThrow x) s') ->
      (forall e s', source_next s (NextEvent e) s' -> ok e) ->
      (forall e s', source_next s (NextEvent e) s' -> ends ok s') ->
      ends ok s.

(** What the comments on [stop] and [next] promise: once [stop] was called,
    [next] comes back, without an exception, and there is an end to the events;
    some may still come, from a call of [next] that had begun, and satisfy [ok].
    A source whose [next] may throw after a stop does not promise this. *)
Class SourceLaws (Src : Type) `{MarketDataSource Src} (ok : MarketEvent -> Prop) := {
  stop_ends : forall s, ends ok (source_stop s)
}.

(** ** EventPublisher *)
Class EventPublisher (P : Type) := {
  publish : P -> MarketEvent -> outcome bool -> P -> Prop;
  flush : P -> P -> Prop
}.

(** A publisher that comes back without an exception from every [publish] of
    an event satisfying [ok] and from every [flush]. *)
Record publisher_serves `{EventPublisher P} (ok : MarketEvent -> Prop) : Prop := {
  serves_publish : forall p e, ok e -> exists b p', publish p e (Ok b) p';
  serves_no_throw : forall p e x p', ok e -> ~ publish p e (Throw x) p';
  serves_flush : forall p, exists p', flush p p'
}.
Arguments publisher_serves P {_} ok.

(** ** BlockingQueue

    [None] stands for a call that blocks. *)
Class BlockingQueue (Q T : Type) := {
  queue_new : nat -> Q;
  try_push : T -> Q -> option (bool * Q);
  try_pop : Q -> option (option T * Q);
  shutdown : Q -> Q;
  queue_size : Q -> nat;
  queue_mark : Q -> nat;
  queue_bound : Q -> nat
}.

(** It is a bounded channel that can be closed ([view]), and its calls block
    only where they must. *)
Class QueueLaws (Q T : Type) `{BlockingQueue Q T} := {
  view : Q -> channel T;
  bound_new : forall cap, queue_bound (queue_new cap) = cap;
  view_new : forall cap, view (queue_new cap) = Build_channel [] false 0;
  push_view : forall x q b q', try_push x q = Some (b, q') ->
    channel_step (queue_bound q) (view q) (if b then Pushed x else Refused) (view q') /\
    queue_bound q' = queue_bound q;
  push_blocks : forall x q, try_push x q = None ->
    closed (view q) = false /\ queue_bound q <= length (items (view q));
  pop_view : forall q o q', try_pop q = Some (o, q') ->
    channel_step (queue_bound q) (view q)
      (match o with Some x => Popped x | None => Drained end) (view q') /\
    queue_bound q' = queue_bound q;
  pop_blocks : forall q, try_pop q = None -> closed (view q) = false /\ items (view q) = [];
  shutdown_view : forall q,
    channel_step (queue_bound q) (view q) Closed (view (shutdown q)) /\
    queue_bound (shutdown q) = queue_bound q;
  size_view : forall q, queue_size q = length (items (view q));
  mark_view : forall q, queue_mark q = peak (view q)
}.

(** ** The bounded queue keeps the promise *)
#[export] Instance BoundedQueue_ops (T : Type) : BlockingQueue (BoundedQueue T) T := {
  queue_new := BoundedQueue_new;
  try_push := push;
  try_pop := pop;
  shutdown := shutdown_locked;
  queue_size := size;
  queue_mark := highWaterMark;
  queue_bound := capacity
}.

#[export] Instance BoundedQueue_laws (T : Type) : QueueLaws (BoundedQueue T) T.
Proof.
  refine {| view := channel_of |}; cbn; unfold push, pop; try done.
  - intros x q b q' Hp. destruct (can_push q) eqn:Hc; [|done]. injection Hp as Hp.
    split; [by apply push_channel|]. destruct b.
    + by apply push_locked_true in Hp as (_ & _ & ? & _).
    + by apply push_locked_false in Hp as [_ ->].
  - intros x q Hp. destruct (can_push q) eqn:Hc; [done|]. by apply can_push_false.
  - intros q o q' Hp. destruct (can_pop q) eqn:Hc; [|done]. injection Hp as Hp.
    split; [by apply pop_channel|]. destruct o.
    + by apply pop_locked_Some in Hp as (_ & ? & _).
    + by apply pop_locked_None in Hp as [_ ->].
  - intros q Hp. destruct (can_pop q) eqn:Hc; [done|]. by apply can_pop_false.
  - intros q. split; [apply shutdown_channel|done].
Defined.
