(* ===== verification/IngestionPipeline.v ===== *)
(** * The ingestion pipeline

    src/ingestion_pipeline.cpp: one thread reads a source and pushes into a
    bounded queue, a second pops and publishes, and an owner starts and stops
    them.  The three run as interleaved steps, one per access to something
    another thread can see; [std::thread] handles are modelled by whether they
    are joinable.  What makes the process die ([std::terminate]) is a predicate
    of its own, [aborts]. *)
From S2P Require Import Prelude CxxStrings MarketEvent Json MarketEventJson EventRecorder.
From S2P Require Import BoundedQueue Interfaces.

(** ** The members *)
Record IngestionPipeline (Src Pub Queue : Type) := {
  source_ : Src;
  publisher_ : Pub;
  optional_recorder_ : option EventRecorder;
  pqueue_ : Queue;
  events_received_ : Z;
  events_published_ : Z;
  publish_failures_ : Z;
  ingest_finished_ : bool;
  ingest_thread_ : bool;
  publish_thread_ : bool;
  started_ : bool;
  stopped_ : bool
}.
Arguments source_ {Src Pub Queue} _.
Arguments publisher_ {Src Pub Queue} _.
Arguments optional_recorder_ {Src Pub Queue} _.
Arguments pqueue_ {Src Pub Queue} _.
Arguments events_received_ {Src Pub Queue} _.
Arguments events_published_ {Src Pub Queue} _.
Arguments publish_failures_ {Src Pub Queue} _.
Arguments ingest_finished_ {Src Pub Queue} _.
Arguments ingest_thread_ {Src Pub Queue} _.
Arguments publish_thread_ {Src Pub Queue} _.
Arguments started_ {Src Pub Queue} _.
Arguments stopped_ {Src Pub Queue} _.

(** [Stats]. *)
Record Stats := {
  events_received : Z;
  events_published : Z;
  publish_failures : Z;
  queue_high_water_mark : nat;
  queue_capacity : nat
}.

(** ** Assignments to the members *)
Section Members.
Context {Src Pub Queue : Type}.
Implicit Types (p : IngestionPipeline Src Pub Queue).

Definition with_source (s : Src) p : IngestionPipeline Src Pub Queue :=
  {| source_ := s; publisher_ := publisher_ p; optional_recorder_ := optional_recorder_ p;
   pqueue_ := pqueue_ p; events_received_ := events_received_ p; events_published_ := events_published_ p;
   publish_failures_ := publish_failures_ p; ingest_finished_ := ingest_finished_ p; ingest_thread_ := ingest_thread_ p;
   publish_thread_ := publish_thread_ p; started_ := started_ p; stopped_ := stopped_ p |}.
Definition with_publisher (u : Pub) p : IngestionPipeline Src Pub Queue :=
  {| source_ := source_ p; publisher_ := u; optional_recorder_ := optional_recorder_ p;
   pqueue_ := pqueue_ p; events_received_ := events_received_ p; events_published_ := events_published_ p;
   publish_failures_ := publish_failures_ p; ingest_finished_ := ingest_finished_ p; ingest_thread_ := ingest_thread_ p;
   publish_thread_ := publish_thread_ p; started_ := started_ p; stopped_ := stopped_ p |}.
Definition with_queue (q : Queue) p : IngestionPipeline Src Pub Queue :=
  {| source_ := source_ p; publisher_ := publisher_ p; optional_recorder_ := optional_recorder_ p;
   pqueue_ := q; events_received_ := events_received_ p; events_published_ := events_published_ p;
   publish_failures_ := publish_failures_ p; ingest_finished_ := ingest_finished_ p; ingest_thread_ := ingest_thread_ p;
   publish_thread_ := publish_thread_ p; started_ := started_ p; stopped_ := stopped_ p |}.
(** The atomic increments, at 64 bits. *)
Definition count_received  p : IngestionPipeline Src Pub Queue :=
  {| source_ := source_ p; publisher_ := publisher_ p; optional_recorder_ := optional_recorder_ p;
   pqueue_ := pqueue_ p; events_received_ := wrap_u64 (events_received_ p + 1); events_published_ := events_published_ p;
   publish_failures_ := publish_failures_ p; ingest_finished_ := ingest_finished_ p; ingest_thread_ := ingest_thread_ p;
   publish_thread_ := publish_thread_ p; started_ := started_ p; stopped_ := stopped_ p |}.
Definition count_published  p : IngestionPipeline Src Pub Queue :=
  {| source_ := source_ p; publisher_ := publisher_ p; optional_recorder_ := optional_recorder_ p;
   pqueue_ := pqueue_ p; events_received_ := events_received_ p; events_published_ := wrap_u64 (events_published_ p + 1);
   publish_failures_ := publish_failures_ p; ingest_finished_ := ingest_finished_ p; ingest_thread_ := ingest_thread_ p;
   publish_thread_ := publish_thread_ p; started_ := started_ p; stopped_ := stopped_ p |}.
Definition count_failure  p : IngestionPipeline Src Pub Queue :=
  {| source_ := source_ p; publisher_ := publisher_ p; optional_recorder_ := optional_recorder_ p;
   pqueue_ := pqueue_ p; events_received_ := events_received_ p; events_published_ := events_published_ p;
   publish_failures_ := wrap_u64 (publish_failures_ p + 1); ingest_finished_ := ingest_finished_ p; ingest_thread_ := ingest_thread_ p;
   publish_thread_ := publish_thread_ p; started_ := started_ p; stopped_ := stopped_ p |}.
Definition set_finished  p : IngestionPipeline Src Pub Queue :=
  {| source_ := source_ p; publisher_ := publisher_ p; optional_recorder_ := optional_recorder_ p;
   pqueue_ := pqueue_ p; events_received_ := events_received_ p; events_published_ := events_published_ p;
   publish_failures_ := publish_failures_ p; ingest_finished_ := true; ingest_thread_ := ingest_thread_ p;
   publish_thread_ := publish_thread_ p; started_ := started_ p; stopped_ := stopped_ p |}.
Definition set_ingest_thread (b : bool) p : IngestionPipeline Src Pub Queue :=
  {| source_ := source_ p; publisher_ := publisher_ p; optional_recorder_ := optional_recorder_ p;
   pqueue_ := pqueue_ p; events_received_ := events_received_ p; events_published_ := events_published_ p;
   publish_failures_ := publish_failures_ p; ingest_finished_ := ingest_finished_ p; ingest_thread_ := b;
   publish_thread_ := publish_thread_ p; started_ := started_ p; stopped_ := stopped_ p |}.
Definition set_publish_thread (b : bool) p : IngestionPipeline Src Pub Queue :=
  {| source_ := source_ p; publisher_ := publisher_ p; optional_recorder_ := optional_recorder_ p;
   pqueue_ := pqueue_ p; events_received_ := events_received_ p; events_published_ := events_published_ p;
   publish_failures_ := publish_failures_ p; ingest_finished_ := ingest_finished_ p; ingest_thread_ := ingest_thread_ p;
   publish_thread_ := b; started_ := started_ p; stopped_ := stopped_ p |}.
Definition set_started  p : IngestionPipeline Src Pub Queue :=
  {| source_ := source_ p; publisher_ := publisher_ p; optional_recorder_ := optional_recorder_ p;
   pqueue_ := pqueue_ p; events_received_ := events_received_ p; events_published_ := events_published_ p;
   publish_failures_ := publish_failures_ p; ingest_finished_ := ingest_finished_ p; ingest_thread_ := ingest_thread_ p;
   publish_thread_ := publish_thread_ p; started_ := true; stopped_ := stopped_ p |}.
Definition set_stopped  p : IngestionPipeline Src Pub Queue :=
  {| source_ := source_ p; publisher_ := publisher_ p; optional_recorder_ := optional_recorder_ p;
   pqueue_ := pqueue_ p; events_received_ := events_received_ p; events_published_ := events_published_ p;
   publish_failures_ := publish_failures_ p; ingest_finished_ := ingest_finished_ p; ingest_thread_ := ingest_thread_ p;
   publish_thread_ := publish_thread_ p; started_ := started_ p; stopped_ := true |}.
End Members.

(** ** The threads *)

(** Where [runIngest] is. *)
Inductive ingest_pc :=
  | NoIngest                    (* not created *)
  | AtNext                      (* at source_->next(event) *)
  | Received (e : MarketEvent)  (* next returned true *)
  | Recording (e : MarketEvent) (* ++events_received_ done *)
  | Pushing (e : MarketEvent)   (* at queue_.push *)
  | Finishing                   (* left the loop *)
  | IngestDone.

(** Where [runPublish] is. *)
Inductive publish_pc :=
  | NoPublish
  | AtPop
  | Publishing (e : MarketEvent) (* pop returned true *)
  | Counting (ok : bool)         (* publish returned *)
  | Flushing                     (* left the loop *)
  | PublishDone.

(** Where the owner is; [d] says that it is inside the destructor. *)
Inductive owner_pc :=
  | OwnerIdle
  | SpawnIngest
  | SpawnPublish
  | DestructorStop              (* the destructor, before its call of stop() *)
  | JoinIngest (d : bool)
  | ShutdownQueue (d : bool)
  | JoinPublish (d : bool)
  | MarkStopped (d : bool)
  | Destroyed.

Record state (Src Pub Queue : Type) := St {
  pipeline : IngestionPipeline Src Pub Queue;
  ingest : ingest_pc;
  publishing : publish_pc;
  owner : owner_pc;
  disk : files
}.
Arguments St {Src Pub Queue} _ _ _ _ _.
Arguments pipeline {Src Pub Queue} _.
Arguments ingest {Src Pub Queue} _.
Arguments publishing {Src Pub Queue} _.
Arguments owner {Src Pub Queue} _.
Arguments disk {Src Pub Queue} _.

(** What is seen of a step. *)
Inductive event_label :=
  | Started                                (* source_->start() succeeded *)
  | StartFailed (x : exn)
  | StopRequested                          (* source_->stop() *)
  | Delivered (e : MarketEvent)            (* next returned true *)
  | SourceEnded                            (* next returned false *)
  | Recorded (e : MarketEvent)
  | Enqueued (e : MarketEvent)
  | Dropped (e : MarketEvent)              (* push returned false *)
  | Attempted (e : MarketEvent) (ok : bool)  (* publish returned ok *)
  | Flushed
  | Quiet.

Section Code.
Context `{JsonOps} `{MarketDataSource Src} `{EventPublisher Pub}
  `{BlockingQueue Queue MarketEvent}.
Implicit Types (p : IngestionPipeline Src Pub Queue) (c : state Src Pub Queue).

Definition IngestionPipeline_new (source : Src) (publisher : Pub) (queue_capacity : nat)
    (optional_recorder : option EventRecorder) : IngestionPipeline Src Pub Queue :=
  {| source_ := source; publisher_ := publisher;
     optional_recorder_ := optional_recorder; pqueue_ := queue_new queue_capacity;
     events_received_ := 0; events_published_ := 0; publish_failures_ := 0;
     ingest_finished_ := false; ingest_thread_ := false; publish_thread_ := false;
     started_ := false; stopped_ := false |}.

Definition stats p : Stats :=
  {| events_received := events_received_ p; events_published := events_published_ p;
     publish_failures := publish_failures_ p;
     queue_high_water_mark := queue_mark (pqueue_ p);
     queue_capacity := queue_bound (pqueue_ p) |}.
Definition queueDepth p : nat := queue_size (pqueue_ p).
Definition ingestFinished p : bool := ingest_finished_ p.

Definition requestStop p : IngestionPipeline Src Pub Queue :=
  if started_ p then with_source (source_stop (source_ p)) p else p.

(** The optional recorder's [record]. *)
Definition record_opt (r : option EventRecorder) (e : MarketEvent) (fs : files)
    : outcome files :=
  match r with None => Ok fs | Some r => record r e fs end.

(** [stop()]'s way to its end: where it goes first, and where it returns
    to. *)
Definition begin_stop (d : bool) p : owner_pc :=
  if stopped_ p || negb (started_ p) then (if d then Destroyed else OwnerIdle)
  else JoinIngest d.
Definition end_stop (d : bool) : owner_pc := if d then Destroyed else OwnerIdle.

(** *** The ingest thread *)
Inductive ingest_step : state Src Pub Queue -> event_label -> state Src Pub Queue -> Prop :=
  | ingest_next p w o fs e s' :
      source_next (source_ p) (NextEvent e) s' ->
      ingest_step (St p AtNext w o fs) (Delivered e)
        (St (with_source s' p) (Received e) w o fs)
  | ingest_end p w o fs s' :
      source_next (source_ p) NextEnd s' ->
      ingest_step (St p AtNext w o fs) SourceEnded
        (St (with_source s' p) Finishing w o fs)
  | ingest_count p w o fs e :
      ingest_step (St p (Received e) w o fs) Quiet
        (St (count_received p) (Recording e) w o fs)
  | ingest_record p w o fs e fs' :
      record_opt (optional_recorder_ p) e fs = Ok fs' ->
      ingest_step (St p (Recording e) w o fs)
        (match optional_recorder_ p with Some _ => Recorded e | None => Quiet end)
        (St p (Pushing e) w o fs')
  | ingest_push p w o fs e b q' :
      try_push e (pqueue_ p) = Some (b, q') ->
      ingest_step (St p (Pushing e) w o fs) (if b then Enqueued e else Dropped e)
        (St (with_queue q' p) (if b then AtNext else Finishing) w o fs)
  | ingest_finish p w o fs :
      ingest_step (St p Finishing w o fs) Quiet
        (St (set_finished p) IngestDone w o fs).

(** *** The publish thread *)
Inductive publish_step : state Src Pub Queue -> event_label -> state Src Pub Queue -> Prop :=
  | publish_pop p i o fs r q' :
      try_pop (pqueue_ p) = Some (r, q') ->
      publish_step (St p i AtPop o fs) Quiet
        (St (with_queue q' p) i
            (match r with Some e => Publishing e | None => Flushing end) o fs)
  | publish_publish p i o fs e b u' :
      publish (publisher_ p) e (Ok b) u' ->
      publish_step (St p i (Publishing e) o fs) (Attempted e b)
        (St (with_publisher u' p) i (Counting b) o fs)
  | publish_count p i o fs b :
      publish_step (St p i (Counting b) o fs) Quiet
        (St (if b then count_published p else count_failure p) i AtPop o fs)
  | publish_flush p i o fs u' :
      flush (publisher_ p) u' ->
      publish_step (St p i Flushing o fs) Flushed
        (St (with_publisher u' p) i PublishDone o fs).

(** *** The owner, inside [start()], [stop()] or the destructor *)
Inductive owner_step : state Src Pub Queue -> event_label -> state Src Pub Queue -> Prop :=
  | owner_spawn_ingest p i w fs :
      ingest_thread_ p = false ->
      owner_step (St p i w SpawnIngest fs) Quiet
        (St (set_ingest_thread true p) AtNext w SpawnPublish fs)
  | owner_spawn_publish p i w fs :
      publish_thread_ p = false ->
      owner_step (St p i w SpawnPublish fs) Quiet
        (St (set_publish_thread true p) i AtPop OwnerIdle fs)
  | owner_destructor_stop p i w fs :
      owner_step (St p i w DestructorStop fs) Quiet (St p i w (begin_stop true p) fs)
  | owner_join_ingest p i w d fs :
      (ingest_thread_ p = true -> i = IngestDone) ->
      owner_step (St p i w (JoinIngest d) fs) Quiet
        (St (set_ingest_thread false p) i w (ShutdownQueue d) fs)
  | owner_shutdown p i w d fs :
      owner_step (St p i w (ShutdownQueue d) fs) Quiet
        (St (with_queue (shutdown (pqueue_ p)) p) i w (JoinPublish d) fs)
  | owner_join_publish p i w d fs :
      (publish_thread_ p = true -> w = PublishDone) ->
      owner_step (St p i w (JoinPublish d) fs) Quiet
        (St (set_publish_thread false p) i w (MarkStopped d) fs)
  | owner_mark_stopped p i w d fs :
      owner_step (St p i w (MarkStopped d) fs) Quiet
        (St (set_stopped p) i w (end_stop d) fs).

(** *** Calls from outside: the owner's, and [requestStop()] from any thread *)
Inductive call_step : state Src Pub Queue -> event_label -> state Src Pub Queue -> Prop :=
  | call_start p i w fs s' :
      source_start (source_ p) s' (Ok tt) ->
      call_step (St p i w OwnerIdle fs) Started
        (St (set_started (with_source s' p)) i w SpawnIngest fs)
  | call_start_fails p i w fs s' x :
      source_start (source_ p) s' (Throw x) ->
      call_step (St p i w OwnerIdle fs) (StartFailed x)
        (St (with_source s' p) i w OwnerIdle fs)
  | call_stop p i w fs :
      call_step (St p i w OwnerIdle fs) Quiet (St p i w (begin_stop false p) fs)
  | call_request_stop p i w o fs :
      o <> Destroyed ->
      call_step (St p i w o fs) (if started_ p then StopRequested else Quiet)
        (St (requestStop p) i w o fs)
  | call_destructor p i w fs :
      call_step (St p i w OwnerIdle fs) (if started_ p then StopRequested else Quiet)
        (St (requestStop p) i w DestructorStop fs).

(** The threads moving on by themselves. *)
Definition thread_step c l c' : Prop :=
  ingest_step c l c' \/ publish_step c l c' \/ owner_step c l c'.
Definition moves : relation (state Src Pub Queue) := fun c c' => exists l, thread_step c l c'.

(** The next action of some thread is the end of the process: an exception
    leaves a thread's function, or a [std::thread] that is joinable is
    assigned to or destroyed. *)
Inductive aborts : state Src Pub Queue -> Prop :=
  | abort_next p w o fs x s' :
      source_next (source_ p) (NextThrow x) s' -> aborts (St p AtNext w o fs)
  | abort_record p w o fs e x :
      record_opt (optional_recorder_ p) e fs = Throw x -> aborts (St p (Recording e) w o fs)
  | abort_publish p i o fs e x u' :
      publish (publisher_ p) e (Throw x) u' -> aborts (St p i (Publishing e) o fs)
  | abort_spawn_ingest p i w fs :
      ingest_thread_ p = true -> aborts (St p i w SpawnIngest fs)
  | abort_spawn_publish p i w fs :
      publish_thread_ p = true -> aborts (St p i w SpawnPublish fs)
  | abort_destroyed p i w fs :
      ingest_thread_ p = true \/ publish_thread_ p = true -> aborts (St p i w Destroyed fs).

Definition fresh (source : Src) (publisher : Pub) (cap : nat)
    (r : option EventRecorder) (fs : files) : state Src Pub Queue :=
  St (IngestionPipeline_new source publisher cap r) NoIngest NoPublish OwnerIdle fs.

(** Executions in which [start()] is called on a pipeline that was not
    started before: what the class is made for, and what its clients do. *)
Definition starts_once c (l : event_label) : Prop :=
  match l with Started | StartFailed _ => started_ (pipeline c) = false | _ => True end.

Inductive exec (c0 : state Src Pub Queue) : list event_label -> state Src Pub Queue -> Prop :=
  | exec_refl : exec c0 [] c0
  | exec_thread tr c l c' :
      exec c0 tr c -> thread_step c l c' -> exec c0 (tr ++ [l]) c'
  | exec_call tr c l c' :
      exec c0 tr c -> starts_once c l -> call_step c l c' -> exec c0 (tr ++ [l]) c'.
End Code.

(** ** Reading a trace *)
Definition delivered (tr : list event_label) : list MarketEvent :=
  omap (fun l => match l with Delivered e => Some e | _ => None end) tr.
Definition attempted (tr : list event_label) : list MarketEvent :=
  omap (fun l => match l with Attempted e _ => Some e | _ => None end) tr.
Definition recorded (tr : list event_label) : list MarketEvent :=
  omap (fun l => match l with Recorded e => Some e | _ => None end) tr.
Definition is_published (l : event_label) : bool :=
  match l with Attempted _ true => true | _ => false end.
Definition is_failure (l : event_label) : bool :=
  match l with Attempted _ false => true | _ => false end.
Definition is_flush (l : event_label) : bool :=
  match l with Flushed => true | _ => false end.
