(* ===== verification/PipelineInvariant.v ===== *)
(** * The pipeline's invariant

    What holds of every state of the ingestion pipeline and of the trace that
    led there, proved against the interfaces of the source, the publisher and
    the queue. *)
From S2P Require Import Prelude CxxStrings MarketEvent Json MarketEventJson EventRecorder.
From S2P Require Import BoundedQueue Interfaces IngestionPipeline.

(** The event a thread holds, on its way from one place to the next. *)
Definition ingest_hand (i : ingest_pc) : list MarketEvent :=
  match i with Received e | Recording e | Pushing e => [e] | _ => [] end.
Definition publish_hand (w : publish_pc) : list MarketEvent :=
  match w with Publishing e => [e] | _ => [] end.

Definition ingest_over (i : ingest_pc) : bool :=
  match i with Finishing | IngestDone => true | _ => false end.

Section Invariant.
Context `{JsonOps} `{MarketDataSource Src} `{EventPublisher Pub}
  `{QueueLaws Queue MarketEvent}.
Implicit Types (p : IngestionPipeline Src Pub Queue) (c : state Src Pub Queue)
  (tr : list event_label).

Definition queued c : list MarketEvent := items (view (pqueue_ (pipeline c))).
Definition queue_closed c : bool := closed (view (pqueue_ (pipeline c))).

(** The life of the pipeline: no thread before [start()]; both threads and
    an open queue until [stop()] has joined the ingest thread; a closed queue
    afterwards; no thread after [stop()]. *)
Definition not_started c : Prop :=
  ingest c = NoIngest /\ publishing c = NoPublish /\ queue_closed c = false /\
  stopped_ (pipeline c) = false /\
  ingest_thread_ (pipeline c) = false /\ publish_thread_ (pipeline c) = false.
Definition half_started c : Prop :=
  ingest c <> NoIngest /\ publishing c = NoPublish /\ queue_closed c = false /\
  stopped_ (pipeline c) = false /\
  ingest_thread_ (pipeline c) = true /\ publish_thread_ (pipeline c) = false.
Definition running c : Prop :=
  ingest c <> NoIngest /\ publishing c <> NoPublish /\ queue_closed c = false /\
  stopped_ (pipeline c) = false /\
  ingest_thread_ (pipeline c) = true /\ publish_thread_ (pipeline c) = true.
Definition joined c : Prop :=
  ingest c = IngestDone /\ publishing c <> NoPublish /\ queue_closed c = false /\
  stopped_ (pipeline c) = false /\
  ingest_thread_ (pipeline c) = false /\ publish_thread_ (pipeline c) = true.
Definition draining c : Prop :=
  ingest c = IngestDone /\ publishing c <> NoPublish /\ queue_closed c = true /\
  stopped_ (pipeline c) = false /\
  ingest_thread_ (pipeline c) = false /\ publish_thread_ (pipeline c) = true.
Definition drained c (b : bool) : Prop :=
  ingest c = IngestDone /\ publishing c = PublishDone /\ queue_closed c = true /\
  stopped_ (pipeline c) = b /\
  ingest_thread_ (pipeline c) = false /\ publish_thread_ (pipeline c) = false.

(** Which of these it is follows from where the owner is. *)
Definition phase c : Prop :=
  match owner c with
  | OwnerIdle | DestructorStop =>
      if started_ (pipeline c) then running c \/ drained c true else not_started c
  | SpawnIngest => started_ (pipeline c) = true /\ not_started c
  | SpawnPublish => started_ (pipeline c) = true /\ half_started c
  | JoinIngest _ => started_ (pipeline c) = true /\ running c
  | ShutdownQueue _ => started_ (pipeline c) = true /\ joined c
  | JoinPublish _ => started_ (pipeline c) = true /\ draining c
  | MarkStopped _ => started_ (pipeline c) = true /\ drained c false
  | Destroyed => if started_ (pipeline c) then drained c true else not_started c
  end.

(** Every event delivered is, in order, attempted, in the publisher's hand,
    queued, or in the ingest thread's hand. *)
Definition conserved tr c : Prop :=
  delivered tr =
  attempted tr ++ publish_hand (publishing c) ++ queued c ++ ingest_hand (ingest c).

(** The counters, at 64 bits, with what the threads have still to count. *)
Definition counted tr c : Prop :=
  wrap_u64 (events_received_ (pipeline c) +
    match ingest c with Received _ => 1 | _ => 0 end) =
    wrap_u64 (Z.of_nat (length (delivered tr))) /\
  wrap_u64 (events_published_ (pipeline c) +
    match publishing c with Counting true => 1 | _ => 0 end) =
    wrap_u64 (Z.of_nat (count is_published tr)) /\
  wrap_u64 (publish_failures_ (pipeline c) +
    match publishing c with Counting false => 1 | _ => 0 end) =
    wrap_u64 (Z.of_nat (count is_failure tr)).

Definition in_range c : Prop :=
  in_u64 (events_received_ (pipeline c)) /\ in_u64 (events_published_ (pipeline c)) /\
  in_u64 (publish_failures_ (pipeline c)).

(** The recorder writes what is delivered, before it is queued. *)
Definition not_recorded (i : ingest_pc) : list MarketEvent :=
  match i with Received e | Recording e => [e] | _ => [] end.
Definition captured tr c : Prop :=
  match optional_recorder_ (pipeline c) with
  | Some _ => delivered tr = recorded tr ++ not_recorded (ingest c)
  | None => recorded tr = []
  end.

(** A publisher past its loop has seen the queue closed and empty; one
    flush ends its thread. *)
Definition flushed tr c : Prop :=
  (publishing c = Flushing \/ publishing c = PublishDone ->
     queue_closed c = true /\ queued c = []) /\
  count is_flush tr = match publishing c with PublishDone => 1 | _ => 0 end.

(** The ingest thread leaves its loop because the source has ended. *)
Definition ended tr c : Prop :=
  (ingest_over (ingest c) = true -> SourceEnded ∈ tr) /\
  (forall e, Dropped e ∉ tr) /\
  (ingest_finished_ (pipeline c) = true -> ingest c = IngestDone).

Record inv (cap : nat) tr c : Prop := {
  inv_phase : phase c;
  inv_conserved : conserved tr c;
  inv_counted : counted tr c;
  inv_range : in_range c;
  inv_captured : captured tr c;
  inv_flushed : flushed tr c;
  inv_ended : ended tr c;
  inv_bound : queue_bound (pqueue_ (pipeline c)) = cap;
  inv_backlog : length (queued c) <= cap
}.

(** *** What one step does to the queue *)

Ltac unfold_view :=
  repeat match goal with
  | E : Build_channel _ _ _ = view _ |- _ => rewrite <-E in *; clear E
  end; cbn in *.

Lemma push_open cap e q b q' :
  queue_bound q = cap -> closed (view q) = false -> try_push e q = Some (b, q') ->
  b = true /\ items (view q') = items (view q) ++ [e] /\ closed (view q') = false /\
  queue_bound q' = cap /\ length (items (view q')) <= cap.
Proof.
  intros Hb Hc Hp. destruct (push_view e q b q' Hp) as [Hs Hq]. rewrite Hb in *.
  destruct b; inversion Hs; simplify_eq; unfold_view; [|done].
  rewrite length_app. cbn. split_and!; try done. lia.
Qed.

Lemma pop_result cap q r q' :
  queue_bound q = cap -> try_pop q = Some (r, q') ->
  closed (view q') = closed (view q) /\ queue_bound q' = cap /\
  match r with
  | Some e => items (view q) = e :: items (view q')
  | None => closed (view q) = true /\ items (view q) = [] /\ items (view q') = []
  end.
Proof.
  intros Hb Hp. destruct (pop_view q r q' Hp) as [Hs Hq]. rewrite Hb in *.
  destruct r; inversion Hs; simplify_eq; unfold_view; done.
Qed.

Lemma shutdown_result q :
  closed (view (shutdown q)) = true /\ items (view (shutdown q)) = items (view q) /\
  queue_bound (shutdown q) = queue_bound q.
Proof.
  destruct (shutdown_view q) as [Hs Hq]. inversion Hs; simplify_eq; unfold_view; done.
Qed.

(** While the ingest thread is at work the queue is open. *)
Lemma phase_open c :
  phase c -> ingest c <> IngestDone -> queue_closed c = false.
Proof.
  unfold phase, not_started, half_started, running, joined, draining, drained.
  destruct (owner c); repeat case_match; naive_solver.
Qed.

(** Traces grow at the end. *)
Lemma delivered_snoc tr l :
  delivered (tr ++ [l]) = delivered tr ++ match l with Delivered e => [e] | _ => [] end.
Proof. unfold delivered. rewrite omap_app. by destruct l. Qed.
Lemma attempted_snoc tr l :
  attempted (tr ++ [l]) = attempted tr ++ match l with Attempted e _ => [e] | _ => [] end.
Proof. unfold attempted. rewrite omap_app. by destruct l. Qed.
Lemma recorded_snoc tr l :
  recorded (tr ++ [l]) = recorded tr ++ match l with Recorded e => [e] | _ => [] end.
Proof. unfold recorded. rewrite omap_app. by destruct l. Qed.

Lemma inv_fresh s u cap r fs : inv cap [] (fresh s u cap r fs).
Proof.
  split; cbn; try done.
  - unfold phase, not_started, queue_closed. cbn. by rewrite view_new.
  - unfold conserved, queued. cbn. by rewrite view_new.
  - unfold captured. cbn. by destruct r.
  - unfold flushed. cbn. split; [by intros []|done].
  - unfold ended. cbn. split_and!; [done| |done]. intros e. apply not_elem_of_nil.
  - apply bound_new.
  - unfold queued. cbn. rewrite view_new. cbn. lia.
Qed.

(** *** Each step keeps the invariant *)

(** Members the two worker threads leave alone. *)
Definition same_life p p' : Prop :=
  started_ p' = started_ p /\ stopped_ p' = stopped_ p /\
  ingest_thread_ p' = ingest_thread_ p /\ publish_thread_ p' = publish_thread_ p /\
  closed (view (pqueue_ p')) = closed (view (pqueue_ p)).

Lemma phase_ingest p p' i i' w o fs fs' :
  phase (St p i w o fs) -> same_life p p' ->
  i <> NoIngest -> i <> IngestDone -> i' <> NoIngest ->
  phase (St p' i' w o fs').
Proof.
  unfold phase, not_started, half_started, running, joined, draining, drained, queue_closed.
  intros Hp (Es & Et & Ei & Ep & Ec) ???. cbn in *. rewrite Es, Et, Ei, Ep, Ec.
  destruct o; repeat case_match; naive_solver.
Qed.

Lemma phase_publish p p' i w w' o fs :
  phase (St p i w o fs) -> same_life p p' ->
  w <> NoPublish -> w <> PublishDone -> w' <> NoPublish ->
  phase (St p' i w' o fs).
Proof.
  unfold phase, not_started, half_started, running, joined, draining, drained, queue_closed.
  intros Hp (Es & Et & Ei & Ep & Ec) ???. cbn in *. rewrite Es, Et, Ei, Ep, Ec.
  destruct o; repeat case_match; naive_solver.
Qed.

Lemma not_elem_snoc (e : MarketEvent) tr l :
  Dropped e ∉ tr -> l <> Dropped e -> Dropped e ∉ tr ++ [l].
Proof. rewrite not_elem_of_app, list_elem_of_singleton. naive_solver. Qed.
End Invariant.

(** Splits the invariant and a goal that asks for it after one more label. *)
Ltac open_inv :=
  match goal with H : inv _ _ _ |- _ =>
    destruct H as [Hphase Hcons (Hrec & Hpub & Hfail) (Hr1 & Hr2 & Hr3) Hcap
                   (Hfl & Hfn) (Hend & Hdrop & Hfin) Hbound Hback]
  end;
  split;
  unfold conserved, counted, in_range, captured, flushed, ended, queued, queue_closed in *;
  cbn in *;
  rewrite ?delivered_snoc, ?attempted_snoc, ?recorded_snoc, ?count_app, ?length_app,
    ?app_nil_r in *; cbn in *;
  rewrite ?app_nil_r, ?Nat.add_0_r, ?Z.add_0_r in *.

(** Closes a clause of it: the bookkeeping of events ([conserved],
    [captured]), of numbers ([counted], [in_range]) and of what happened
    ([flushed], [ended]). *)
Ltac close_lists :=
  solve [ repeat match goal with E : _ = _ ++ _ |- _ => rewrite E end;
          rewrite <-?app_assoc; done
        | repeat case_match; repeat match goal with E : _ = _ |- _ => rewrite E end;
          rewrite ?app_nil_r, <-?app_assoc; done ].
Ltac close_numbers :=
  split_and!; rewrite ?Nat2Z.inj_add, ?wrap_u64_idem;
  first [ done | apply wrap_u64_range | apply wrap_u64_add_congr; done ].
Ltac close_history :=
  split_and!; intros;
  repeat match goal with H : ?P -> _, H' : ?P |- _ => specialize (H H') end;
  first [ done | apply elem_of_app; left; done
        | apply elem_of_app; right; apply list_elem_of_singleton; done
        | apply not_elem_snoc; [auto; done|done]
        | match goal with H : _ \/ _ |- _ => destruct H; done end
        | exfalso; match goal with H : _ -> _ = _ |- _ => by discriminate H end ].
Ltac close_clause := first [done | close_lists | close_numbers | close_history].

Section Steps.
Context `{JsonOps} `{MarketDataSource Src} `{EventPublisher Pub}
  `{QueueLaws Queue MarketEvent}.
Implicit Types (p : IngestionPipeline Src Pub Queue) (c : state Src Pub Queue)
  (tr : list event_label).

Lemma inv_next cap tr p w o fs e s' :
  inv cap tr (St p AtNext w o fs) ->
  inv cap (tr ++ [Delivered e]) (St (with_source s' p) (Received e) w o fs) /\
  inv cap (tr ++ [SourceEnded]) (St (with_source s' p) Finishing w o fs).
Proof.
  intros Hinv. split; open_inv.
  all: try close_clause.
  all: try (eapply phase_ingest; [exact Hphase|by split_and!|done..]).
Qed.

Lemma inv_count cap tr p w o fs e :
  inv cap tr (St p (Received e) w o fs) ->
  inv cap (tr ++ [Quiet]) (St (count_received p) (Recording e) w o fs).
Proof.
  intros Hinv. open_inv.
  all: try close_clause.
  all: try (eapply phase_ingest; [exact Hphase|by split_and!|done..]).
Qed.

Lemma inv_record cap tr p w o fs fs' e :
  inv cap tr (St p (Recording e) w o fs) ->
  inv cap (tr ++ [match optional_recorder_ p with Some _ => Recorded e | None => Quiet end])
    (St p (Pushing e) w o fs').
Proof.
  intros Hinv. destruct (optional_recorder_ p) eqn:Er; open_inv; rewrite ?Er in *.
  all: try close_clause.
  all: try (eapply phase_ingest; [exact Hphase|by split_and!|done..]).
Qed.

Lemma inv_push cap tr p w o fs e b q' :
  inv cap tr (St p (Pushing e) w o fs) -> try_push e (pqueue_ p) = Some (b, q') ->
  b = true /\ inv cap (tr ++ [Enqueued e]) (St (with_queue q' p) AtNext w o fs).
Proof.
  intros Hinv Hp.
  assert (Hopen : closed (view (pqueue_ p)) = false)
    by exact (phase_open _ (inv_phase _ _ _ Hinv) ltac:(done)).
  destruct (push_open cap e (pqueue_ p) b q' (inv_bound _ _ _ Hinv) Hopen Hp)
    as (-> & Hi & Hc & Hb & Hlen). split; [done|].
  open_inv; rewrite ?Hi, ?Hc in *.
  all: try close_clause.
  - eapply phase_ingest; [exact Hphase| |done..]. split_and!; try done. cbn. congruence.
  - split; [intros Hw; destruct (Hfl Hw); congruence|done].
Qed.

Lemma inv_finish cap tr p w o fs :
  inv cap tr (St p Finishing w o fs) ->
  inv cap (tr ++ [Quiet]) (St (set_finished p) IngestDone w o fs).
Proof.
  intros Hinv. open_inv.
  all: try close_clause.
  all: try (eapply phase_ingest; [exact Hphase|by split_and!|done..]).
Qed.

Lemma inv_ingest_step cap tr c l c' :
  inv cap tr c -> ingest_step c l c' -> inv cap (tr ++ [l]) c'.
Proof.
  intros Hinv Hs. destruct Hs as
    [p w o fs e s' Hn|p w o fs s' Hn|p w o fs e|p w o fs e fs' Hr|p w o fs e b q' Hp|p w o fs].
  - by eapply (inv_next cap tr p w o fs e s').
  - by apply (inv_next cap tr p w o fs default_event s').
  - by apply inv_count.
  - by eapply inv_record.
  - by destruct (inv_push cap tr p w o fs e b q' Hinv Hp) as [-> ?].
  - by apply inv_finish.
Qed.

(** *** The publish thread *)

Lemma inv_pop cap tr p i o fs r q' :
  inv cap tr (St p i AtPop o fs) -> try_pop (pqueue_ p) = Some (r, q') ->
  inv cap (tr ++ [Quiet])
    (St (with_queue q' p) i (match r with Some e => Publishing e | None => Flushing end) o fs).
Proof.
  intros Hinv Hp.
  destruct (pop_result cap (pqueue_ p) r q' (inv_bound _ _ _ Hinv) Hp) as (Hc & Hb & Hr).
  destruct r as [e|]; [|destruct Hr as (Hcl & Hr & Hr')].
  - open_inv; rewrite ?Hr, ?Hc in *.
    all: try close_clause.
    + eapply phase_publish; [exact Hphase|by split_and!|done..].
    + cbn in *. lia.
  - open_inv; rewrite ?Hr, ?Hr', ?Hc in *.
    all: try close_clause.
    eapply phase_publish; [exact Hphase|by split_and!|done..].
Qed.

Lemma inv_publish cap tr p i o fs e b u' :
  inv cap tr (St p i (Publishing e) o fs) ->
  inv cap (tr ++ [Attempted e b]) (St (with_publisher u' p) i (Counting b) o fs).
Proof.
  intros Hinv. destruct b; open_inv.
  all: try close_clause.
  all: try (eapply phase_publish; [exact Hphase|by split_and!|done..]).
Qed.

Lemma inv_publish_count cap tr p i o fs b :
  inv cap tr (St p i (Counting b) o fs) ->
  inv cap (tr ++ [Quiet]) (St (if b then count_published p else count_failure p) i AtPop o fs).
Proof.
  intros Hinv. destruct b; open_inv.
  all: try close_clause.
  all: try (eapply phase_publish; [exact Hphase|by split_and!|done..]).
Qed.

Lemma inv_flush cap tr p i o fs u' :
  inv cap tr (St p i Flushing o fs) ->
  inv cap (tr ++ [Flushed]) (St (with_publisher u' p) i PublishDone o fs).
Proof.
  intros Hinv. open_inv.
  all: try close_clause.
  - eapply phase_publish; [exact Hphase|by split_and!|done..].
  - split; [intros _; apply Hfl; by left|lia].
Qed.

Lemma inv_publish_step cap tr c l c' :
  inv cap tr c -> publish_step c l c' -> inv cap (tr ++ [l]) c'.
Proof.
  intros Hinv Hs. destruct Hs as
    [p i o fs r q' Hp|p i o fs e b u' Hp|p i o fs b|p i o fs u' Hf];
    eauto using inv_pop, inv_publish, inv_publish_count, inv_flush.
Qed.

(** *** The owner *)

(** Steps of the owner leave the workers and what they hold alone. *)
Definition same_work c c' : Prop :=
  ingest c' = ingest c /\ publishing c' = publishing c /\ queued c' = queued c /\
  events_received_ (pipeline c') = events_received_ (pipeline c) /\
  events_published_ (pipeline c') = events_published_ (pipeline c) /\
  publish_failures_ (pipeline c') = publish_failures_ (pipeline c) /\
  ingest_finished_ (pipeline c') = ingest_finished_ (pipeline c) /\
  optional_recorder_ (pipeline c') = optional_recorder_ (pipeline c) /\
  queue_bound (pqueue_ (pipeline c')) = queue_bound (pqueue_ (pipeline c)) /\
  (queue_closed c = true -> queue_closed c' = true).

(** Labels that are not about an event. *)
Definition owner_label (l : event_label) : bool :=
  match l with Started | StartFailed _ | StopRequested | Quiet => true | _ => false end.

Lemma inv_same_work cap tr c l c' :
  inv cap tr c -> same_work c c' -> owner_label l = true -> phase c' -> inv cap (tr ++ [l]) c'.
Proof.
  intros Hinv (Ei & Ew & Eq & Er & Ep & Ef & Efin & Eo & Eb & Ec) Hl Hphase'.
  destruct Hinv as [_ Hcons (Hrec & Hpub & Hfail) Hr Hcap (Hfl & Hfn) (Hend & Hdrop & Hfin) Hb Hback].
  split; [done| | | | | | |congruence|by rewrite Eq];
    unfold conserved, counted, in_range, captured, flushed, ended in *;
    rewrite ?delivered_snoc, ?attempted_snoc, ?recorded_snoc, ?count_app, ?Ei, ?Ew, ?Eq,
      ?Er, ?Ep, ?Ef, ?Efin, ?Eo;
    destruct l; try done; cbn; rewrite ?app_nil_r, ?Nat.add_0_r; try done.
  all: split_and!; try done; try (intros; destruct Hfl; auto; done).
  all: intros; first [apply elem_of_app; left; auto; done | apply not_elem_snoc; auto; done].
Qed.

(** A thread that was just created. *)
Lemma inv_spawn_ingest cap tr p i w fs :
  inv cap tr (St p i w SpawnIngest fs) ->
  inv cap (tr ++ [Quiet]) (St (set_ingest_thread true p) AtNext w SpawnPublish fs).
Proof.
  intros Hinv. destruct (inv_phase _ _ _ Hinv) as (Hst & Hi & Hw & Hc & Hs & Ht & Ht').
  cbn in Hi. subst i. open_inv.
  all: close_clause.
Qed.

Lemma inv_spawn_publish cap tr p i w fs :
  inv cap tr (St p i w SpawnPublish fs) ->
  inv cap (tr ++ [Quiet]) (St (set_publish_thread true p) i AtPop OwnerIdle fs).
Proof.
  intros Hinv. destruct (inv_phase _ _ _ Hinv) as (Hst & Hi & Hw & Hc & Hs & Ht & Ht').
  cbn in Hw. subst w. open_inv.
  all: try close_clause.
  unfold phase, running. cbn in *. rewrite Hst. left. by split_and!.
Qed.

Lemma inv_owner_step cap tr c l c' :
  inv cap tr c -> owner_step c l c' -> inv cap (tr ++ [l]) c'.
Proof.
  intros Hinv Hs. destruct Hs as
    [p i w fs Hh|p i w fs Hh|p i w fs|p i w d fs Hj|p i w d fs|p i w d fs Hj|p i w d fs].
  - by apply inv_spawn_ingest in Hinv.
  - by apply inv_spawn_publish in Hinv.
  - apply (inv_same_work cap tr _ _ _ Hinv); [by split_and!|done|].
    pose proof (inv_phase _ _ _ Hinv) as Hph. unfold phase in *. cbn in *. unfold begin_stop.
    destruct (stopped_ p) eqn:Et, (started_ p) eqn:Es; cbn in *; rewrite ?Es in *;
      unfold running, drained, not_started in *; cbn in *; naive_solver congruence.
  - apply (inv_same_work cap tr _ _ _ Hinv); [by split_and!|done|].
    destruct (inv_phase _ _ _ Hinv) as (Hst & Hi & Hw & Hc & Hs & Ht & Ht').
    unfold phase, joined. cbn in *. split_and!; auto.
  - destruct (shutdown_result (pqueue_ p)) as (Hc & Hi & Hb).
    apply (inv_same_work cap tr _ _ _ Hinv); [by split_and!|done|].
    destruct (inv_phase _ _ _ Hinv) as (Hst & Hi' & Hw & Hc' & Hs & Ht & Ht').
    unfold phase, draining. cbn in *. split_and!; auto.
  - apply (inv_same_work cap tr _ _ _ Hinv); [by split_and!|done|].
    destruct (inv_phase _ _ _ Hinv) as (Hst & Hi & Hw & Hc & Hs & Ht & Ht').
    unfold phase, drained. cbn in *. split_and!; auto.
  - apply (inv_same_work cap tr _ _ _ Hinv); [by split_and!|done|].
    destruct (inv_phase _ _ _ Hinv) as (Hst & Hi & Hw & Hc & Hs & Ht & Ht').
    unfold phase, drained. cbn in *. destruct d; cbn; rewrite Hst; [|right]; by split_and!.
Qed.

Lemma requestStop_same p i w o o' fs :
  same_work (St p i w o fs) (St (requestStop p) i w o' fs) /\
  same_life p (requestStop p).
Proof. unfold requestStop. destruct (started_ p); by split_and!. Qed.

Lemma phase_same_life p p' i w o fs :
  phase (St p i w o fs) -> same_life p p' -> phase (St p' i w o fs).
Proof.
  unfold phase, not_started, half_started, running, joined, draining, drained, queue_closed.
  intros Hp (Es & Et & Ei & Ep & Ec). cbn in *. rewrite Es, Et, Ei, Ep, Ec. exact Hp.
Qed.

Lemma inv_call_step cap tr c l c' :
  inv cap tr c -> starts_once c l -> call_step c l c' -> inv cap (tr ++ [l]) c'.
Proof.
  intros Hinv Honce Hs. pose proof (inv_phase _ _ _ Hinv) as Hph. destruct Hs as
    [p i w fs s' Hst|p i w fs s' x Hst|p i w fs|p i w o fs Ho|p i w fs].
  - apply (inv_same_work cap tr _ _ _ Hinv); [by split_and!|done|].
    unfold phase in *. cbn in *. by rewrite Honce in Hph.
  - apply (inv_same_work cap tr _ _ _ Hinv); [by split_and!|done|]. exact Hph.
  - apply (inv_same_work cap tr _ _ _ Hinv); [by split_and!|done|].
    unfold phase in *. cbn in *. unfold begin_stop.
    destruct (stopped_ p) eqn:Et, (started_ p) eqn:Es; cbn in *; rewrite ?Es in *;
      unfold running, drained, not_started in *; cbn in *; naive_solver congruence.
  - destruct (requestStop_same p i w o o fs).
    apply (inv_same_work cap tr _ _ _ Hinv); [done|by destruct (started_ p)|].
    by eapply phase_same_life.
  - destruct (requestStop_same p i w OwnerIdle DestructorStop fs).
    apply (inv_same_work cap tr _ _ _ Hinv); [done|by destruct (started_ p)|].
    eapply phase_same_life in Hph; [|done]. exact Hph.
Qed.

Lemma inv_thread_step cap tr c l c' :
  inv cap tr c -> thread_step c l c' -> inv cap (tr ++ [l]) c'.
Proof. intros Hi [?|[?|?]]; eauto using inv_ingest_step, inv_publish_step, inv_owner_step. Qed.

Lemma inv_exec_from cap c0 tr0 tr c :
  inv cap tr0 c0 -> exec c0 tr c -> inv cap (tr0 ++ tr) c.
Proof.
  intros Hi He. induction He as [|tr c l c' _ IH Hs|tr c l c' _ IH Ho Hs];
    rewrite ?app_nil_r, ?app_assoc; eauto using inv_thread_step, inv_call_step.
Qed.

Lemma inv_exec cap s u r fs tr c : exec (fresh s u cap r fs) tr c -> inv cap tr c.
Proof. intros He. exact (inv_exec_from cap _ [] tr c (inv_fresh s u cap r fs) He). Qed.
End Steps.
