(* ===== verification/PipelineProgress.v ===== *)
(** * The pipeline comes to rest

    When the source's events have an end, the threads can only make finitely
    many steps of their own, none of them dies, and where they stop [stop()]
    has returned. *)
From S2P Require Import Prelude CxxStrings MarketEvent Json MarketEventJson EventRecorder.
From S2P Require Import BoundedQueue Interfaces IngestionPipeline PipelineInvariant.

Section Progress.
Context `{JsonOps} `{MarketDataSource Src} `{EventPublisher Pub}
  `{QueueLaws Queue MarketEvent}.
Implicit Types (p : IngestionPipeline Src Pub Queue) (c : state Src Pub Queue)
  (tr : list event_label).

(** ** Finitely many steps *)

(** Steps the threads have left, apart from those for events still to be
    delivered. *)
Definition ingest_weight (i : ingest_pc) : nat :=
  match i with
  | NoIngest => 0 | AtNext => 2 | Received _ => 9 | Recording _ => 8 | Pushing _ => 7
  | Finishing => 1 | IngestDone => 0
  end.
Definition publish_weight (w : publish_pc) : nat :=
  match w with
  | NoPublish => 0 | AtPop => 2 | Publishing _ => 5 | Counting _ => 4
  | Flushing => 1 | PublishDone => 0
  end.
Definition owner_weight (o : owner_pc) : nat :=
  match o with
  | OwnerIdle | Destroyed => 0 | SpawnIngest => 40 | SpawnPublish => 20
  | DestructorStop => 10 | JoinIngest _ => 6 | ShutdownQueue _ => 5
  | JoinPublish _ => 4 | MarkStopped _ => 3
  end.
Definition work c : nat :=
  ingest_weight (ingest c) + publish_weight (publishing c) + owner_weight (owner c) +
  4 * length (queued c).

(** The source may still be asked. *)
Definition asking c : bool :=
  match ingest c with
  | IngestDone | Finishing => false
  | NoIngest => match owner c with SpawnIngest => true | _ => false end
  | _ => true
  end.

(** A step delivers an event, or leaves less to do. *)
Lemma step_work cap tr c l c' :
  inv cap tr c -> thread_step c l c' ->
  (exists e, ingest c = AtNext /\
     source_next (source_ (pipeline c)) (NextEvent e) (source_ (pipeline c'))) \/
  (work c' < work c /\
   (asking c' = true -> source_ (pipeline c') = source_ (pipeline c) /\ asking c = true)).
Proof.
  intros Hinv Hs. pose proof (inv_bound _ _ _ Hinv) as Hb. unfold work, queued, asking.
  destruct Hs as [Hs|[Hs|Hs]].
  - destruct Hs as
      [p w o fs e s' Hn|p w o fs s' Hn|p w o fs e|p w o fs e fs' Hr|p w o fs e b q' Hp|p w o fs];
      cbn in *; try (right; split; [lia|done]); [left; eauto|].
    destruct (inv_push cap tr p w o fs e b q' Hinv Hp) as [-> _].
    assert (Hopen : closed (view (pqueue_ p)) = false)
      by exact (phase_open _ (inv_phase _ _ _ Hinv) ltac:(done)).
    destruct (push_open cap e (pqueue_ p) true q' Hb Hopen Hp) as (_ & -> & _ & _).
    rewrite length_app. cbn. right. split; [lia|done].
  - destruct Hs as [p i o fs r q' Hp|p i o fs e b u' Hp|p i o fs b|p i o fs u' Hf];
      cbn in *; try (right; split; [lia|done]).
    + destruct (pop_result cap (pqueue_ p) r q' Hb Hp) as (_ & _ & Hr).
      destruct r; [rewrite Hr|destruct Hr as (_ & -> & ->)]; cbn; right; (split; [lia|done]).
    + destruct b; right; (split; [cbn; lia|done]).
  - destruct Hs as
      [p i w fs Hh|p i w fs Hh|p i w fs|p i w d fs Hj|p i w d fs|p i w d fs Hj|p i w d fs];
      cbn in *; right; try (split; [lia|done]).
    + destruct (inv_phase _ _ _ Hinv) as (_ & Hi & _). cbn in Hi. subst i. split; [cbn; lia|done].
    + unfold begin_stop.
      destruct (stopped_ p || negb (started_ p)); (split; [cbn; lia|by destruct i]).
    + destruct (shutdown_result (pqueue_ p)) as (_ & -> & _). split; [lia|done].
    + destruct d; (split; [cbn; lia|done]).
Qed.

Lemma quiet_sn cap tr c : inv cap tr c -> asking c = false -> sn moves c.
Proof.
  intros Hinv Ha.
  apply (measure_sn _ (fun c => (exists tr, inv cap tr c) /\ asking c = false) work); [eauto|].
  intros c1 c2 [[tr1 Hi] Hq] [l Hs].
  destruct (step_work cap tr1 c1 l c2 Hi Hs) as [(e & He & _)|[Hw Hk]].
  - unfold asking in Hq. by rewrite He in Hq.
  - split; [|done]. split; [eauto using inv_thread_step|].
    destruct (asking c2); [destruct Hk; [done|congruence]|done].
Qed.

(** The events still to come, then the work for each of them. *)
Lemma ends_sn ok s : ends ok s -> forall n cap tr c,
  work c = n -> inv cap tr c -> (asking c = true -> source_ (pipeline c) = s) -> sn moves c.
Proof.
  induction 1 as [s _ _ _ _ IHs]. intros n. induction (lt_wf n) as [n _ IHn].
  intros cap tr c Hn Hinv Hsrc. constructor. intros c' [l Hs].
  assert (Hinv' : inv cap (tr ++ [l]) c') by eauto using inv_thread_step.
  destruct (step_work cap tr c l c' Hinv Hs) as [(e & He & Hnext)|[Hw Hk]].
  - rewrite Hsrc in Hnext by (unfold asking; by rewrite He). by eapply IHs.
  - subst n. eapply IHn; [exact Hw|done|exact Hinv'|].
    intros Ha. destruct (Hk Ha) as [-> Hc]. auto.
Qed.

(** ** Nothing goes wrong on the way *)
Context (ok : MarketEvent -> Prop).

(** So far all events were fine, and the source will come to an end. *)
Record sound (cap : nat) tr c : Prop := {
  sound_inv : inv cap tr c;
  sound_events : Forall ok (delivered tr);
  sound_ends : asking c = true -> ends ok (source_ (pipeline c))
}.

Lemma step_delivers c l c' :
  thread_step c l c' ->
  match l with
  | Delivered e => ingest c = AtNext /\
      source_next (source_ (pipeline c)) (NextEvent e) (source_ (pipeline c'))
  | _ => True
  end.
Proof.
  intros [Hs|[Hs|Hs]]; destruct Hs; cbn; try done; repeat case_match; done.
Qed.

Lemma sound_step cap tr c l c' :
  sound cap tr c -> thread_step c l c' -> sound cap (tr ++ [l]) c'.
Proof.
  intros [Hinv Hev Hend] Hs. split; [eauto using inv_thread_step| |].
  - rewrite delivered_snoc. apply Forall_app. split; [done|].
    pose proof (step_delivers c l c' Hs) as Hd. destruct l as [| | |e| | | | | | |]; try done.
    destruct Hd as [Hi Hn]. apply Forall_singleton.
    unfold asking in Hend. rewrite Hi in Hend. destruct (Hend eq_refl). eauto.
  - intros Ha. destruct (step_work cap tr c l c' Hinv Hs) as [(e & Hi & Hn)|[_ Hk]].
    + unfold asking in Hend. rewrite Hi in Hend. destruct (Hend eq_refl). eauto.
    + destruct (Hk Ha) as [-> Hc]. auto.
Qed.

Lemma sound_sn cap tr c : sound cap tr c -> sn moves c.
Proof.
  intros [Hinv _ Hend]. destruct (asking c) eqn:Ha; [|by eapply quiet_sn].
  eapply ends_sn; [exact (Hend eq_refl)|done|done|done].
Qed.

Lemma moves_sound cap tr c c' :
  sound cap tr c -> rtc moves c c' -> exists tr', sound cap (tr ++ tr') c'.
Proof.
  intros Hs Hr. revert tr Hs. induction Hr as [c|c c1 c' [l Hl] _ IH]; intros tr Hs.
  - exists []. by rewrite app_nil_r.
  - destruct (IH (tr ++ [l])) as [tr' ?]; [by eapply sound_step|].
    exists (l :: tr'). by rewrite <-app_assoc in *.
Qed.

Hypothesis serves : publisher_serves Pub ok.
Hypothesis printable : forall e, ok e -> exists l, event_line e = Ok l.

Lemma record_opt_ok r e fs : ok e -> exists fs', record_opt r e fs = Ok fs'.
Proof.
  intros He. destruct r as [r|]; cbn; [|eauto].
  destruct (printable e He) as [l Hl]. unfold record. rewrite Hl. eauto.
Qed.

(** Events on their way are events delivered. *)
Lemma inv_pending cap tr c e :
  inv cap tr c -> Forall ok (delivered tr) ->
  e ∈ publish_hand (publishing c) ++ queued c ++ ingest_hand (ingest c) -> ok e.
Proof.
  intros Hinv Hev He. rewrite Forall_forall in Hev. apply Hev.
  rewrite (inv_conserved _ _ _ Hinv). apply elem_of_app. by right.
Qed.

Lemma sound_pending cap tr c e :
  sound cap tr c ->
  e ∈ publish_hand (publishing c) ++ queued c ++ ingest_hand (ingest c) -> ok e.
Proof. intros [Hinv Hev _]. by eapply inv_pending. Qed.

(** No thread dies but of an exception from [next]. *)
Lemma abort_cause cap tr c :
  inv cap tr c -> Forall ok (delivered tr) -> aborts c ->
  ingest c = AtNext /\ exists x s', source_next (source_ (pipeline c)) (NextThrow x) s'.
Proof.
  intros Hinv Hev Ha. pose proof (inv_phase _ _ _ Hinv) as Hph.
  destruct Ha as [p w o fs x s' Hn|p w o fs e x Hr|p i o fs e x u' Hp|p i w fs Hh|p i w fs Hh|p i w fs Hh].
  - eauto.
  - assert (He : ok e) by (eapply inv_pending; [exact Hinv|exact Hev|cbn; set_solver]).
    destruct (record_opt_ok (optional_recorder_ p) e fs He). congruence.
  - assert (He : ok e) by (eapply inv_pending; [exact Hinv|exact Hev|cbn; set_solver]).
    by apply (serves_no_throw _ serves _ _ _ _ He) in Hp.
  - destruct Hph as (_ & _ & _ & _ & _ & Hf & _). cbn in *. congruence.
  - destruct Hph as (_ & _ & _ & _ & _ & _ & Hf). cbn in *. congruence.
  - unfold phase in Hph. cbn in Hph.
    destruct (started_ p); [destruct Hph as (_ & _ & _ & _ & H1' & H2')
                           |destruct Hph as (_ & _ & _ & _ & H1' & H2')];
      cbn in *; destruct Hh; congruence.
Qed.

Lemma sound_no_abort cap tr c : sound cap tr c -> ~ aborts c.
Proof.
  intros [Hinv Hev Hend] Ha. destruct (abort_cause cap tr c Hinv Hev Ha) as (Hi & x & s' & Hn).
  destruct Hend as [_ Ht _ _]; [unfold asking; by rewrite Hi|]. by eapply Ht.
Qed.

(** ** Where the threads stop *)

Lemma settled_publish cap tr c :
  sound cap tr c -> nf moves c ->
  publishing c = NoPublish \/ publishing c = PublishDone \/
  (publishing c = AtPop /\ queue_closed c = false /\ queued c = []).
Proof.
  intros Hs Hnf. destruct c as [p i w o fs]. unfold moves, thread_step, nf, red in Hnf.
  destruct w as [| |e|b| |]; cbn; auto.
  - destruct (try_pop (pqueue_ p)) as [[r q']|] eqn:Hp.
    + destruct Hnf. do 2 eexists. right. left. by constructor.
    + right. right. split; [done|]. by apply pop_blocks in Hp as [? ?].
  - assert (He : ok e) by (eapply sound_pending; [exact Hs|cbn; set_solver]).
    destruct (serves_publish _ serves (publisher_ p) e He) as (b & u' & Hp).
    destruct Hnf. do 2 eexists. right. left. by constructor.
  - destruct Hnf. do 2 eexists. right. left. by constructor.
  - destruct (serves_flush _ serves (publisher_ p)) as [u' Hf].
    destruct Hnf. do 2 eexists. right. left. by constructor.
Qed.

Lemma settled_ingest cap tr c :
  0 < cap -> sound cap tr c -> nf moves c -> ingest c = NoIngest \/ ingest c = IngestDone.
Proof.
  intros Hcap Hs Hnf. pose proof (settled_publish cap tr c Hs Hnf) as Hpub.
  destruct c as [p i w o fs]. cbn in Hpub.
  unfold moves, thread_step, nf, red in Hnf.
  destruct i as [| |e|e|e| |]; cbn; auto; exfalso.
  - destruct (sound_ends _ _ _ Hs eq_refl) as [(r & s' & Hn) Ht _ _].
    destruct r as [e| |x]; [..|by eapply Ht];
      apply Hnf; do 2 eexists; left; by constructor.
  - apply Hnf. do 2 eexists. left. by constructor.
  - assert (He : ok e) by (eapply sound_pending; [exact Hs|cbn; set_solver]).
    destruct (record_opt_ok (optional_recorder_ p) e fs He) as [fs' Hr].
    apply Hnf. do 2 eexists. left. by constructor.
  - destruct (try_push e (pqueue_ p)) as [[b q']|] eqn:Hp.
    { apply Hnf. do 2 eexists. left. by constructor. }
    apply push_blocks in Hp as [Hcl Hlen].
    pose proof (sound_inv _ _ _ Hs) as Hinv. 
    pose proof (inv_bound _ _ _ Hinv) as Hb. cbn in Hb. rewrite Hb in Hlen.
    destruct Hpub as [->|[->|(-> & _ & Hq)]].
    + pose proof (inv_phase _ _ _ Hinv) as Hph. destruct o; cbn in *;
        unfold phase, not_started, half_started, running, joined, draining, drained in Hph;
        cbn in Hph; repeat case_match; try naive_solver.
      apply Hnf. do 2 eexists. right. right. constructor. naive_solver.
    + destruct (proj1 (inv_flushed _ _ _ Hinv) ltac:(by right)) as [Hc _].
      unfold queue_closed in Hc. cbn in Hc. congruence.
    + unfold queued in Hq. cbn in Hq. rewrite Hq in Hlen. cbn in Hlen. lia.
  - apply Hnf. do 2 eexists. left. by constructor.
Qed.

(** The owner has come back from its call. *)
Lemma settled_owner cap tr c :
  0 < cap -> sound cap tr c -> nf moves c -> owner c = OwnerIdle \/ owner c = Destroyed.
Proof.
  intros Hcap Hs Hnf. pose proof (settled_publish cap tr c Hs Hnf) as Hpub.
  pose proof (settled_ingest cap tr c Hcap Hs Hnf) as Hing.
  pose proof (inv_phase _ _ _ (sound_inv _ _ _ Hs)) as Hph.
  destruct c as [p i w o fs]. cbn in *. unfold moves, thread_step, nf, red in Hnf.
  destruct o as [| | | |d|d|d|d|]; auto; exfalso; apply Hnf; do 2 eexists; right; right;
    constructor; unfold phase in Hph; cbn in Hph; destruct Hph as [_ Hph].
  - apply Hph.
  - apply Hph.
  - intros _. destruct Hing as [->|?]; [|done]. by destruct Hph as [? _].
  - intros _. destruct Hph as (_ & Hw & Hc & _). cbn in *.
    destruct Hpub as [?|[?|(_ & Hc' & _)]]; [done..|congruence].
Qed.

(** *** The way through [stop()] *)
Definition in_stop (d : bool) c : Prop :=
  owner c = JoinIngest d \/ owner c = ShutdownQueue d \/ owner c = JoinPublish d \/
  owner c = MarkStopped d \/ (owner c = end_stop d /\ stopped_ (pipeline c) = true).

Lemma in_stop_step d c c' : in_stop d c -> moves c c' -> in_stop d c'.
Proof.
  unfold in_stop. intros Hst [l [Hs|[Hs|Hs]]]; destruct Hs; cbn in *; try done.
  all: try (destruct b; done).
  all: destruct Hst as [E|[E|[E|[E|[E Ht]]]]]; try discriminate E; try (by destruct d);
    try injection E as ->; auto 6.
Qed.

Lemma in_stop_settled cap tr d c :
  0 < cap -> sound cap tr c -> in_stop d c -> nf moves c ->
  owner c = end_stop d /\ stopped_ (pipeline c) = true.
Proof.
  intros Hcap Hs Hst Hnf. destruct (settled_owner cap tr c Hcap Hs Hnf) as [Ho|Ho];
    unfold in_stop in Hst; rewrite Ho in Hst;
    destruct Hst as [?|[?|[?|[?|[<- ?]]]]]; try done.
Qed.

(** From a state inside [stop()], the threads stop, and [stop()] returns. *)
Lemma stop_settles cap tr d c :
  0 < cap -> sound cap tr c -> in_stop d c ->
  sn moves c /\
  forall c', rtc moves c c' -> ~ aborts c' /\
    (nf moves c' -> owner c' = end_stop d /\ stopped_ (pipeline c') = true).
Proof.
  intros Hcap Hs Hst. split; [by eapply sound_sn|]. intros c' Hr.
  destruct (moves_sound cap tr c c' Hs Hr) as [tr' Hs'].
  split; [by eapply sound_no_abort|]. intros Hnf. eapply in_stop_settled; try done.
  revert Hr. apply rtc_invariant; [done|apply in_stop_step].
Qed.

(** *** The way through the destructor *)
Definition in_destructor c : Prop :=
  match owner c with
  | DestructorStop | JoinIngest true | ShutdownQueue true | JoinPublish true
  | MarkStopped true | Destroyed => True
  | _ => False
  end.

Lemma in_destructor_step c c' : in_destructor c -> moves c c' -> in_destructor c'.
Proof.
  unfold in_destructor. intros Hd [l [Hs|[Hs|Hs]]]; destruct Hs; cbn in *; try done.
  all: try (destruct b; done). all: try (destruct d; done).
  unfold begin_stop. by destruct (stopped_ p || negb (started_ p)).
Qed.

Lemma destructor_settles cap tr c :
  0 < cap -> sound cap tr c -> in_destructor c ->
  sn moves c /\
  forall c', rtc moves c c' -> ~ aborts c' /\ (nf moves c' -> owner c' = Destroyed).
Proof.
  intros Hcap Hs Hd. split; [by eapply sound_sn|]. intros c' Hr.
  destruct (moves_sound cap tr c c' Hs Hr) as [tr' Hs'].
  split; [by eapply sound_no_abort|]. intros Hnf.
  assert (Hd' : in_destructor c')
    by (revert Hr; apply rtc_invariant; [done|apply in_destructor_step]).
  unfold in_destructor in Hd'.
  by destruct (settled_owner cap (tr ++ tr') c' Hcap Hs' Hnf) as [Ho|Ho]; rewrite Ho in Hd'.
Qed.
End Progress.
