(* ===== verification/PipelineProperties.v ===== *)
(** * What the pipeline guarantees

    The properties of src/ingestion_pipeline.cpp, for every source, publisher
    and queue that keep their interface's promises. *)
From S2P Require Import Prelude CxxStrings MarketEvent Json JsonTree MarketEventJson EventRecorder.
From S2P Require Import BoundedQueue Interfaces IngestionPipeline PipelineInvariant PipelineProgress.

(** ** A source and a publisher to run it with

    As in the tests: a source that hands out a list of events and can be
    stopped, and a publisher that keeps what it is given. *)
Record scripted := { script : list MarketEvent; script_stopped : bool }.

Definition scripted_next (s : scripted) : next_result * scripted :=
  if script_stopped s then (NextEnd, s) else
  match script s with
  | [] => (NextEnd, s)
  | e :: es => (NextEvent e, {| script := es; script_stopped := false |})
  end.

#[export] Instance scripted_source : MarketDataSource scripted := {
  source_start := fun s s' r => s' = s /\ r = Ok tt;
  source_stop := fun s => {| script := script s; script_stopped := true |};
  source_next := fun s r s' => scripted_next s = (r, s')
}.

Lemma scripted_ends_list ok es :
  Forall ok es -> ends ok {| script := es; script_stopped := false |}.
Proof.
  induction 1 as [|e es He _ IH]; split; cbn.
  - by do 2 eexists.
  - by intros x s' [=].
  - by intros e s' [=].
  - by intros e s' [=].
  - by do 2 eexists.
  - by intros x s' [=].
  - intros e' s' [= <- _]. exact He.
  - intros e' s' [= _ <-]. exact IH.
Qed.

#[export] Instance scripted_laws ok : SourceLaws scripted ok.
Proof.
  split. intros s. split; cbn; [by do 2 eexists|..]; by intros ? s' [=].
Qed.

#[export] Instance list_publisher : EventPublisher (list MarketEvent) := {
  publish := fun p e r p' => r = Ok true /\ p' = p ++ [e];
  flush := fun p p' => p' = p
}.

Lemma list_publisher_serves ok : publisher_serves (list MarketEvent) ok.
Proof. split; cbn; [eauto|intros ????? []; done|eauto]. Qed.

(** One event goes through a pipeline of capacity [cap]. *)
Definition demo_start (cap : nat) : state scripted (list MarketEvent) (BoundedQueue MarketEvent) :=
  fresh {| script := [sampleEvent]; script_stopped := false |} [] cap None ∅.

(** Its members after the source was started and asked, [received] events were
    counted, [published] published, with [queue] and the flags given. *)
Definition demo_pipeline (cap : nat) (received published : Z) (sent queue : list MarketEvent)
    (mark : nat) (running stopped : bool) : IngestionPipeline scripted (list MarketEvent) (BoundedQueue MarketEvent) :=
  {| source_ := {| script := []; script_stopped := false |}; publisher_ := sent;
     optional_recorder_ := None;
     pqueue_ := Build_BoundedQueue cap queue mark stopped;
     events_received_ := received; events_published_ := published; publish_failures_ := 0;
     ingest_finished_ := stopped; ingest_thread_ := running; publish_thread_ := running;
     started_ := true; stopped_ := stopped |}.

(** The event is in the ingest thread's hand. *)
Definition demo_delivered (cap : nat) : state scripted (list MarketEvent) (BoundedQueue MarketEvent) :=
  St (demo_pipeline cap 0 0 [] [] 0 true false) (Received sampleEvent) AtPop OwnerIdle ∅.

(** It is queued. *)
Definition demo_queued : state scripted (list MarketEvent) (BoundedQueue MarketEvent) :=
  St (demo_pipeline 1 1 0 [] [sampleEvent] 1 true false) AtNext AtPop OwnerIdle ∅.

(** It is published, and [stop()] has returned. *)
Definition demo_stopped : state scripted (list MarketEvent) (BoundedQueue MarketEvent) :=
  St (demo_pipeline 1 1 1 [sampleEvent] [] 1 false true) IngestDone PublishDone OwnerIdle ∅.

Abbreviation demo_exec := (@exec tree_ops _ _ _ _ _ _).

(** Extends the execution [E] by a step of the ingest thread, the publish
    thread, the owner. *)
Tactic Notation "ingest_by" hyp(E) uconstr(rule) := eapply exec_thread in E; [|left; eapply rule; reflexivity].
Tactic Notation "ingest_on" hyp(E) uconstr(rule) := eapply exec_thread in E; [|left; eapply rule].
Tactic Notation "publish_by" hyp(E) uconstr(rule) := eapply exec_thread in E; [|right; left; eapply rule; reflexivity].
Tactic Notation "publish_on" hyp(E) uconstr(rule) := eapply exec_thread in E; [|right; left; eapply rule].
Tactic Notation "owner_by" hyp(E) uconstr(rule) := eapply exec_thread in E; [|right; right; eapply rule; reflexivity].
Tactic Notation "owner_on" hyp(E) uconstr(rule) := eapply exec_thread in E; [|right; right; eapply rule].

Lemma demo_exec_delivered cap :
  demo_exec (demo_start cap) [Started; Quiet; Quiet; Delivered sampleEvent] (demo_delivered cap).
Proof.
  pose proof (@exec_refl tree_ops _ _ _ _ _ _ (demo_start cap)) as E.
  eapply (exec_call _ _ _ Started) in E; [|reflexivity|eapply call_start; split; reflexivity].
  owner_by E owner_spawn_ingest. owner_by E owner_spawn_publish. ingest_by E ingest_next.
  exact E.
Qed.

Lemma demo_exec_queued :
  demo_exec (demo_start 1)
    [Started; Quiet; Quiet; Delivered sampleEvent; Quiet; Quiet; Enqueued sampleEvent] demo_queued.
Proof.
  pose proof (demo_exec_delivered 1) as E.
  ingest_on E ingest_count. ingest_by E ingest_record. ingest_by E ingest_push. exact E.
Qed.

(** The trace of the whole run. *)
Definition demo_trace : list event_label :=
  [Started; Quiet; Quiet; Delivered sampleEvent; Quiet; Quiet; Enqueued sampleEvent;
   Quiet; Attempted sampleEvent true; Quiet; SourceEnded; Quiet;
   Quiet; Quiet; Quiet; Quiet; Flushed; Quiet; Quiet].

Lemma demo_exec_stopped : demo_exec (demo_start 1) demo_trace demo_stopped.
Proof.
  pose proof demo_exec_queued as E.
  publish_by E publish_pop.
  eapply (exec_thread _ _ _ (Attempted sampleEvent true)) in E;
    [|right; left; eapply publish_publish; split; reflexivity].
  publish_on E publish_count. ingest_by E ingest_end. ingest_on E ingest_finish.
  eapply (exec_call _ _ _ Quiet) in E; [|exact I|eapply call_stop].
  eapply exec_thread in E; [|right; right; apply owner_join_ingest; reflexivity].
  owner_on E owner_shutdown. publish_by E publish_pop. publish_by E publish_flush.
  eapply exec_thread in E; [|right; right; apply owner_join_publish; reflexivity].
  owner_on E owner_mark_stopped. exact E.
Qed.

(** ** Safety *)

(** Whoever is in [stop()], past the ingest thread's end, or has returned from
    it, knows that the ingest thread is over. *)
Definition past_join (o : owner_pc) : bool :=
  match o with ShutdownQueue _ | JoinPublish _ | MarkStopped _ => true | _ => false end.

Section Safety.
Context `{JsonOps} `{MarketDataSource Src} `{EventPublisher Pub}
  `{QueueLaws Queue MarketEvent}.
Implicit Types (p : IngestionPipeline Src Pub Queue) (c : state Src Pub Queue)
  (tr : list event_label).

Lemma stopped_drained cap tr c :
  inv cap tr c -> stopped_ (pipeline c) = true ->
  ingest c = IngestDone /\ publishing c = PublishDone.
Proof.
  intros Hinv Hst. pose proof (inv_phase _ _ _ Hinv) as Hph.
  unfold phase, not_started, half_started, running, joined, draining, drained in Hph.
  rewrite Hst in Hph. destruct (owner c); repeat case_match; naive_solver.
Qed.

Lemma stopped_complete cap tr c :
  inv cap tr c -> stopped_ (pipeline c) = true ->
  queued c = [] /\ attempted tr = delivered tr /\ count is_flush tr = 1.
Proof.
  intros Hinv Hst. destruct (stopped_drained cap tr c Hinv Hst) as [Hi Hw].
  destruct (inv_flushed _ _ _ Hinv) as [Hf Hn]. rewrite Hw in Hn.
  destruct Hf as [_ Hq]; [by right|]. split; [done|]. split; [|done].
  rewrite (inv_conserved _ _ _ Hinv), Hi, Hw, Hq. cbn. by rewrite app_nil_r.
Qed.

(** Every attempt either published or failed. *)
Lemma attempts_counted tr :
  count is_published tr + count is_failure tr = length (attempted tr).
Proof.
  induction tr as [|l tr IH]; [done|]. unfold attempted in *.
  destruct l as [| | | | | | | |e []| |]; cbn; lia.
Qed.

(** The counters of a stopped pipeline, below 2^64. *)
Lemma stopped_counts cap tr c :
  inv cap tr c -> stopped_ (pipeline c) = true ->
  (Z.of_nat (length (delivered tr)) < two64)%Z ->
  events_received_ (pipeline c) = Z.of_nat (length (delivered tr)) /\
  events_published_ (pipeline c) = Z.of_nat (count is_published tr) /\
  publish_failures_ (pipeline c) = Z.of_nat (count is_failure tr) /\
  length (delivered tr) = count is_published tr + count is_failure tr.
Proof.
  intros He Hs Hn. destruct (stopped_drained cap tr c He Hs) as [Hi Hp].
  destruct (stopped_complete cap tr c He Hs) as (_ & Ha & _).
  destruct (inv_counted _ _ _ He) as (H1' & H2' & H3'), (inv_range _ _ _ He) as (R1 & R2 & R3).
  rewrite Hi, Hp, !Z.add_0_r in *. pose proof (attempts_counted tr) as Hsum. rewrite Ha in Hsum.
  assert (Hb : forall z n, in_u64 z -> n <= length (delivered tr) ->
    wrap_u64 z = wrap_u64 (Z.of_nat n) -> z = Z.of_nat n).
  { intros z n Hz Hle E. rewrite !wrap_u64_id in E; [done|split; lia|done]. }
  split_and!; [apply Hb; auto; lia..|lia].
Qed.

(** What the recorder has written is what it was given. *)
Lemma disk_step r c l c' :
  optional_recorder_ (pipeline c) = r -> thread_step c l c' ->
  optional_recorder_ (pipeline c') = r /\
  match l with
  | Recorded e => exists rec, r = Some rec /\ record rec e (disk c) = Ok (disk c')
  | _ => disk c' = disk c
  end.
Proof.
  intros Hr [Hs|[Hs|Hs]]; destruct Hs; cbn in *; try done.
  - split; [done|]. rewrite Hr in *. destruct r as [rec|]; cbn in *; [eauto|congruence].
  - by destruct b.
  - by destruct b.
Qed.

Lemma disk_exec s u cap r fs tr c :
  exec (fresh s u cap r fs) tr c ->
  optional_recorder_ (pipeline c) = r /\
  match r with
  | Some rec => record_all rec (recorded tr) fs = Ok (disk c)
  | None => disk c = fs
  end.
Proof.
  intros He. induction He as [|tr c l c' _ [Ho IH] Hs|tr c l c' _ [Ho IH] _ Hs].
  - cbn. by destruct r.
  - destruct (disk_step r c l c' Ho Hs) as [Ho' Hd]. split; [done|].
    rewrite recorded_snoc. destruct r as [rec|].
    + destruct l; rewrite ?app_nil_r, ?Hd; try done.
      destruct Hd as (rec' & [= <-] & Hd). by rewrite record_all_snoc, IH.
    + destruct l; try congruence. by destruct Hd as (? & ? & _).
  - assert (Hsame : optional_recorder_ (pipeline c') = optional_recorder_ (pipeline c) /\
      disk c' = disk c /\ recorded (tr ++ [l]) = recorded tr).
    { rewrite recorded_snoc. destruct Hs; cbn; rewrite ?app_nil_r; try done;
        unfold requestStop; by destruct (started_ p); cbn; rewrite ?app_nil_r. }
    destruct Hsame as (-> & -> & ->). done.
Qed.
End Safety.

(** ** Properties: what has happened *)

(** C2: no event is lost, doubled or reordered.  At every moment, whatever the
    interleaving of the threads and the calls of [requestStop] and [stop], the
    events the source has delivered are, in order: those handed to the
    publisher, the one the publish thread holds, those queued, and the one the
    ingest thread holds.  No push is ever refused. *)
Theorem pipeline_order `{JsonOps} `{MarketDataSource Src} `{EventPublisher Pub}
  `{QueueLaws Queue MarketEvent} (s : Src) (u : Pub) cap r fs tr
  (c : state Src Pub Queue) (He : exec (fresh s u cap r fs) tr c) :
  delivered tr =
    attempted tr ++ publish_hand (publishing c) ++
    items (view (pqueue_ (pipeline c))) ++ ingest_hand (ingest c) /\
  (forall e, Dropped e ∉ tr).
Proof.
  apply inv_exec in He. split; [exact (inv_conserved _ _ _ He)|].
  exact (proj1 (proj2 (inv_ended _ _ _ He))).
Qed.

Lemma pipeline_order_witness :
  delivered [Started; Quiet; Quiet; Delivered sampleEvent; Quiet; Quiet; Enqueued sampleEvent] =
    [] ++ [] ++ [sampleEvent] ++ [].
Proof.
  destruct (@pipeline_order tree_ops _ _ _ _ _ _ _ _ _ 1 None ∅ _ _ demo_exec_queued) as [Ho _].
  exact Ho.
Defined.

(** C30: back-pressure.  The queue holds at most its capacity, and however fast
    the source is, it is never more than the capacity and two events ahead of
    the publisher. *)
Theorem pipeline_backpressure `{JsonOps} `{MarketDataSource Src} `{EventPublisher Pub}
  `{QueueLaws Queue MarketEvent} (s : Src) (u : Pub) cap r fs tr
  (c : state Src Pub Queue) (He : exec (fresh s u cap r fs) tr c) :
  queueDepth (pipeline c) <= cap /\
  length (delivered tr) <= length (attempted tr) + cap + 2.
Proof.
  apply inv_exec in He. pose proof (inv_backlog _ _ _ He) as Hb.
  unfold queueDepth. rewrite size_view. split; [exact Hb|].
  rewrite (inv_conserved _ _ _ He), !length_app. unfold queued in *.
  destruct (ingest c), (publishing c); cbn; lia.
Qed.

Lemma pipeline_backpressure_witness : queueDepth (pipeline demo_queued) <= 1.
Proof.
  apply (@pipeline_backpressure tree_ops _ _ _ _ _ _ _ _ _ 1 None ∅ _ _ demo_exec_queued).
Defined.

(** C4: [stop()] is complete.  When it has returned, the source has said that
    it has no more, every event it delivered was handed to the publisher, the
    queue is empty, both threads are over, and the publisher was flushed,
    once. *)
Theorem pipeline_stop_complete `{JsonOps} `{MarketDataSource Src} `{EventPublisher Pub}
  `{QueueLaws Queue MarketEvent} (s : Src) (u : Pub) cap r fs tr
  (c : state Src Pub Queue) (He : exec (fresh s u cap r fs) tr c)
  (Hs : stopped_ (pipeline c) = true) :
  SourceEnded ∈ tr /\ attempted tr = delivered tr /\ queueDepth (pipeline c) = 0 /\
  ingest c = IngestDone /\ publishing c = PublishDone /\ count is_flush tr = 1.
Proof.
  apply inv_exec in He. destruct (stopped_complete cap tr c He Hs) as (Hq & Ha & Hf).
  destruct (stopped_drained cap tr c He Hs) as [Hi Hp].
  split_and!; try done.
  - apply (inv_ended _ _ _ He). by rewrite Hi.
  - unfold queueDepth. rewrite size_view. unfold queued in Hq. by rewrite Hq.
Qed.

Lemma pipeline_stop_complete_witness :
  attempted demo_trace = [sampleEvent] /\ attempted demo_trace = delivered demo_trace.
Proof.
  split; [reflexivity|].
  apply (@pipeline_stop_complete tree_ops _ _ _ _ _ _ _ _ _ 1 None ∅ _ _ demo_exec_stopped).
  reflexivity.
Defined.

(** The final statistics are right.  When [stop()] has returned and fewer
    than 2^64 events were delivered, [stats()] reports the number of events
    delivered as received, the number of successful and failed calls of
    [publish] as published and failed, and the two add up to the first. *)
Theorem pipeline_final_stats `{JsonOps} `{MarketDataSource Src} `{EventPublisher Pub}
  `{QueueLaws Queue MarketEvent} (s : Src) (u : Pub) cap r fs tr
  (c : state Src Pub Queue) (He : exec (fresh s u cap r fs) tr c)
  (Hs : stopped_ (pipeline c) = true)
  (Hn : (Z.of_nat (length (delivered tr)) < two64)%Z) :
  events_received (stats (pipeline c)) = Z.of_nat (length (delivered tr)) /\
  events_published (stats (pipeline c)) = Z.of_nat (count is_published tr) /\
  publish_failures (stats (pipeline c)) = Z.of_nat (count is_failure tr) /\
  events_received (stats (pipeline c)) =
    (events_published (stats (pipeline c)) + publish_failures (stats (pipeline c)))%Z /\
  queue_capacity (stats (pipeline c)) = cap.
Proof.
  apply inv_exec in He.
  destruct (stopped_counts cap tr c He Hs Hn) as (Hr & Hp & Hf & Hsum).
  unfold stats. cbn. rewrite Hr, Hp, Hf. split_and!; try done; [lia|exact (inv_bound _ _ _ He)].
Qed.

Lemma pipeline_final_stats_witness :
  events_received (stats (pipeline demo_stopped)) = 1%Z /\
  events_published (stats (pipeline demo_stopped)) = 1%Z.
Proof.
  destruct (@pipeline_final_stats tree_ops _ _ _ _ _ _ _ _ _ 1 None ∅ _ _ demo_exec_stopped
    ltac:(reflexivity) ltac:(reflexivity)) as (Hr & Hp & _).
  split; [exact Hr|exact Hp].
Defined.

(** The capture is a faithful log of what is handed downstream.  With a
    recorder, its file is what recording, in order, the delivered events but
    for the last one would make it ([record_all]); and every event handed to
    the publisher was recorded before.  Without one, no file is touched. *)
Theorem pipeline_records `{JsonOps} `{MarketDataSource Src} `{EventPublisher Pub}
  `{QueueLaws Queue MarketEvent} (s : Src) (u : Pub) cap r fs tr
  (c : state Src Pub Queue) (He : exec (fresh s u cap r fs) tr c) :
  match r with
  | Some rec =>
      record_all rec (recorded tr) fs = Ok (disk c) /\
      (exists pending, delivered tr = recorded tr ++ pending /\ length pending <= 1) /\
      (exists later, recorded tr = attempted tr ++ later)
  | None => disk c = fs
  end.
Proof.
  destruct (disk_exec s u cap r fs tr c He) as [Ho Hd]. destruct r as [rec|]; [|done].
  apply inv_exec in He. split; [done|].
  pose proof (inv_captured _ _ _ He) as Hc. unfold captured in Hc. rewrite Ho in Hc. split.
  - eexists. split; [exact Hc|]. by destruct (ingest c); cbn; lia.
  - pose proof (inv_conserved _ _ _ He) as Hk. unfold conserved in Hk. rewrite Hc in Hk.
    destruct (ingest c); cbn in *; rewrite ?app_nil_r in *; eauto;
      rewrite !app_assoc in Hk; apply app_inj_tail in Hk as [Hk _];
      rewrite <-!app_assoc in Hk; eauto.
Qed.

Lemma pipeline_records_witness : disk demo_queued = ∅.
Proof.
  exact (@pipeline_records tree_ops _ _ _ _ _ _ _ _ _ 1 None ∅ _ _ demo_exec_queued).
Defined.

(** [stop()] waits for the source.  As long as [next] has not returned
    false, the queue stays open and no call of [stop()] (nor the destructor)
    gets past its join of the ingest thread, let alone returns: for a source
    that never ends of itself, [stop()] without [requestStop()] waits for
    ever. *)
Theorem pipeline_stop_waits `{JsonOps} `{MarketDataSource Src} `{EventPublisher Pub}
  `{QueueLaws Queue MarketEvent} (s : Src) (u : Pub) cap r fs tr
  (c : state Src Pub Queue) (He : exec (fresh s u cap r fs) tr c)
  (Hn : SourceEnded ∉ tr) :
  stopped_ (pipeline c) = false /\ past_join (owner c) = false /\
  closed (view (pqueue_ (pipeline c))) = false.
Proof.
  apply inv_exec in He.
  assert (Hi : ingest c <> IngestDone).
  { intros Hi. apply Hn, (inv_ended _ _ _ He). by rewrite Hi. }
  split_and!.
  - destruct (stopped_ (pipeline c)) eqn:Hs; [|done].
    by destruct (stopped_drained cap tr c He Hs).
  - pose proof (inv_phase _ _ _ He) as Hph. unfold phase, joined, draining, drained in Hph.
    by destruct (owner c); cbn; try done; destruct Hph as (_ & ? & _).
  - exact (phase_open c (inv_phase _ _ _ He) Hi).
Qed.

Lemma pipeline_stop_waits_witness :
  past_join (owner (demo_delivered 3)) = false.
Proof.
  apply (@pipeline_stop_waits tree_ops _ _ _ _ _ _ _ _ _ 3 None ∅ _ _ (demo_exec_delivered 3)).
  rewrite !not_elem_of_cons. repeat split; try discriminate. apply not_elem_of_nil.
Defined.

(** ** Properties: what will happen *)

(** [stop()] returns once the source is over or was told to stop.  From
    any reachable state inside [stop()] (or the destructor's), with a queue of
    at least one place, a source whose events have an end and are fit to be
    printed, and a publisher that answers: the threads can make only finitely
    many steps, the process never dies, and where no thread can move any more
    the call has returned and the pipeline is stopped. *)
Theorem pipeline_stop_returns `{JsonOps} `{MarketDataSource Src} `{EventPublisher Pub}
  `{QueueLaws Queue MarketEvent} (ok : MarketEvent -> Prop) (s : Src) (u : Pub) cap r fs tr d
  (c : state Src Pub Queue) (He : exec (fresh s u cap r fs) tr c)
  (Ho : owner c = JoinIngest d) (Hcap : 0 < cap)
  (Hserves : publisher_serves Pub ok)
  (Hprint : forall e, ok e -> exists l, event_line e = Ok l)
  (Hev : Forall ok (delivered tr)) (Hend : ends ok (source_ (pipeline c))) :
  sn moves c /\
  forall c', rtc moves c c' -> ~ aborts c' /\
    (nf moves c' -> owner c' = end_stop d /\ stopped_ (pipeline c') = true).
Proof.
  apply inv_exec in He.
  apply (stop_settles ok Hserves Hprint cap tr d c Hcap); [by split|by left].
Qed.

(** The pipeline of [demo_queued] when the owner has called [stop()]. *)
Definition demo_stopping : state scripted (list MarketEvent) (BoundedQueue MarketEvent) :=
  St (demo_pipeline 1 1 0 [] [sampleEvent] 1 true false) AtNext AtPop (JoinIngest false) ∅.

Lemma demo_exec_stopping :
  demo_exec (demo_start 1)
    [Started; Quiet; Quiet; Delivered sampleEvent; Quiet; Quiet; Enqueued sampleEvent; Quiet]
    demo_stopping.
Proof.
  pose proof demo_exec_queued as E.
  eapply (exec_call _ _ _ Quiet) in E; [|exact I|eapply call_stop]. exact E.
Qed.

Lemma sampleEvent_line : exists l, @event_line tree_ops sampleEvent = Ok l.
Proof. eexists. vm_compute. reflexivity. Qed.

Lemma pipeline_stop_returns_witness : sn (@moves tree_ops _ _ _ _ _ _) demo_stopping.
Proof.
  apply (@pipeline_stop_returns tree_ops _ _ _ _ _ _ _ (fun e => e = sampleEvent)
           _ _ 1 None ∅ _ false _ demo_exec_stopping).
  - reflexivity.
  - lia.
  - apply list_publisher_serves.
  - intros e ->. exact sampleEvent_line.
  - repeat constructor.
  - apply scripted_ends_list. constructor.
Defined.

(** The state in which the owner, idle before, has entered the destructor and
    made its call of [requestStop()]. *)
Definition destructor_entered `{MarketDataSource Src} {Pub Queue}
    (c : state Src Pub Queue) : state Src Pub Queue :=
  St (requestStop (pipeline c)) (ingest c) (publishing c) DestructorStop (disk c).

(** C15: destruction returns and does not kill the process, provided that the
    queue has a place, that after [stop()] the source's [next] comes back every
    time without an exception and gives finitely many more events, all printable,
    that the publisher does not throw for printable events, and that no other
    call on the pipeline is in progress.  Whatever has happened before (never
    started, started, stopped), the destructor stops the source, both threads
    finish after finitely many steps, and it comes to its end with no thread
    left. *)
Theorem pipeline_destructor_returns `{JsonOps} `{MarketDataSource Src} `{EventPublisher Pub}
  `{QueueLaws Queue MarketEvent} (ok : MarketEvent -> Prop) `{!SourceLaws Src ok} (s : Src) (u : Pub) cap r fs tr
  (c : state Src Pub Queue) (He : exec (fresh s u cap r fs) tr c)
  (Ho : owner c = OwnerIdle) (Hcap : 0 < cap)
  (Hserves : publisher_serves Pub ok)
  (Hprint : forall e, ok e -> exists l, event_line e = Ok l)
  (Hev : Forall ok (delivered tr)) :
  sn moves (destructor_entered c) /\
  forall c', rtc moves (destructor_entered c) c' ->
    ~ aborts c' /\ (nf moves c' -> owner c' = Destroyed).
Proof.
  assert (Hc : exists l, exec (fresh s u cap r fs) (tr ++ [l]) (destructor_entered c) /\
                         delivered (tr ++ [l]) = delivered tr).
  { destruct c as [p i w o fs']. cbn in Ho. subst o.
    exists (if started_ p then StopRequested else Quiet). rewrite delivered_snoc.
    split; [|destruct (started_ p); by rewrite app_nil_r].
    eapply exec_call; [exact He| |constructor]. by destruct (started_ p). }
  destruct Hc as (l & Hc & Hd). pose proof (inv_exec _ _ _ _ _ _ _ He) as Hinv.
  apply inv_exec in Hc.
  apply (destructor_settles ok Hserves Hprint cap (tr ++ [l]) _ Hcap); [|done].
  split; [done|by rewrite Hd|]. unfold asking, destructor_entered, requestStop. cbn.
  intros Ha. destruct (started_ (pipeline c)) eqn:Hs; [apply stop_ends|].
  pose proof (inv_phase _ _ _ Hinv) as Hph. unfold phase in Hph. rewrite Ho, Hs in Hph.
  destruct Hph as [Hi _]. by rewrite Hi in Ha.
Qed.

Lemma pipeline_destructor_returns_witness :
  sn (@moves tree_ops _ _ _ _ _ _) (destructor_entered (demo_delivered 1)).
Proof.
  apply (@pipeline_destructor_returns tree_ops _ _ _ _ _ _ _ (fun e => e = sampleEvent)
           _ _ _ 1 None ∅ _ _ (demo_exec_delivered 1)).
  - reflexivity.
  - lia.
  - apply list_publisher_serves.
  - intros e ->. exact sampleEvent_line.
  - repeat constructor.
Defined.

(** *** Capacity zero *)
Section Zero.
Context `{JsonOps} `{MarketDataSource Src} `{EventPublisher Pub}
  `{QueueLaws Queue MarketEvent}.

(** Until the first event has come nothing has; after it the ingest thread
    never gets past its push. *)
Definition stuck (tr : list event_label) (i : ingest_pc) : Prop :=
  match i with
  | Received _ | Recording _ | Pushing _ => True
  | _ => delivered tr = []
  end.

Lemma zero_stuck s u r fs tr (c : state Src Pub Queue) :
  exec (fresh s u 0 r fs) tr c -> stuck tr (ingest c).
Proof.
  intros He. induction He as [|tr c l c' He IH Hs|tr c l c' He IH _ Hs]; [done| |].
  - pose proof (inv_exec 0 _ _ _ _ _ _ He) as Hinv.
    unfold stuck in *. rewrite delivered_snoc.
    destruct Hs as [Hs|[Hs|Hs]].
    + destruct Hs as [| | | |p w o fs' e b q' Hp|]; cbn in *;
        repeat case_match; rewrite ?app_nil_r; try done; exfalso;
        destruct (inv_push 0 tr p w o fs' e _ q' Hinv Hp) as [Hb _]; try done.
      assert (Hopen : closed (view (pqueue_ p)) = false)
        by exact (phase_open _ (inv_phase _ _ _ Hinv) ltac:(done)).
      destruct (push_open 0 e (pqueue_ p) _ q' (inv_bound _ _ _ Hinv) Hopen Hp)
        as (_ & Hi & _ & _ & Hlen).
      rewrite Hi, length_app in Hlen. cbn in Hlen. lia.
    + destruct Hs; cbn in *; repeat case_match; rewrite ?app_nil_r; done.
    + destruct Hs; cbn in *; repeat case_match; rewrite ?app_nil_r; try done.
      all: by destruct (inv_phase _ _ _ Hinv) as (_ & ? & _).
  - unfold stuck in *. rewrite delivered_snoc.
    destruct Hs; cbn in *; repeat case_match; rewrite ?app_nil_r; done.
Qed.
End Zero.

(** C38: a pipeline of capacity zero hangs.  Once it has received an event, the
    ingest thread is inside its push for ever (no step of any thread, no call
    of [requestStop] gets it out), and [stop()], hence the destructor, never
    returns. *)
Theorem zero_capacity_hangs `{JsonOps} `{MarketDataSource Src} `{EventPublisher Pub}
  `{QueueLaws Queue MarketEvent} (s : Src) (u : Pub) r fs tr
  (c : state Src Pub Queue) (He : exec (fresh s u 0 r fs) tr c)
  (Hd : delivered tr <> []) :
  (exists e, ingest c = Received e \/ ingest c = Recording e \/ ingest c = Pushing e) /\
  stopped_ (pipeline c) = false /\ past_join (owner c) = false /\ owner c <> Destroyed.
Proof.
  pose proof (zero_stuck s u r fs tr c He) as Hst. apply inv_exec in He.
  unfold stuck in Hst.
  assert (Hi : exists e, ingest c = Received e \/ ingest c = Recording e \/ ingest c = Pushing e)
    by (destruct (ingest c); try done; eauto).
  assert (Hnd : ingest c <> IngestDone) by (destruct Hi as (e & [->|[->| ->]]); done).
  assert (Hnn : ingest c <> NoIngest) by (destruct Hi as (e & [->|[->| ->]]); done).
  pose proof (inv_phase _ _ _ He) as Hph.
  split; [exact Hi|]. split; [|split].
  - destruct (stopped_ (pipeline c)) eqn:Hs; [|done].
    by destruct (stopped_drained 0 tr c He Hs).
  - unfold phase, joined, draining, drained in Hph.
    by destruct (owner c); cbn; try done; destruct Hph as (_ & ? & _).
  - intros Ho. unfold phase, drained, not_started in Hph. rewrite Ho in Hph.
    destruct (started_ (pipeline c)); by destruct Hph as [? _].
Qed.

Lemma zero_capacity_hangs_witness :
  stopped_ (pipeline (demo_delivered 0)) = false /\ owner (demo_delivered 0) <> Destroyed.
Proof.
  destruct (@zero_capacity_hangs tree_ops _ _ _ _ _ _ _ _ _ None ∅ _ _ (demo_exec_delivered 0)
    ltac:(discriminate)) as (_ & Hs & _ & Ho).
  split; [exact Hs|exact Ho].
Defined.
