(* ===== verification/PipelineReplay.v ===== *)
(** * Replaying a capture through the pipeline

    [ReplaySource] as the pipeline's [MarketDataSource]: src/replay_source.cpp
    driven by src/ingestion_pipeline.cpp, as services/ingestion/main.cpp sets
    them up with [--replay].  A call of [stop()] that another thread makes
    while [next] is between two lines counts as made before the call or after
    it; [ReplayService] has it where it is made. *)
From S2P Require Import Prelude CxxStrings MarketEvent Json JsonTree MarketEventJson EventRecorder.
From S2P Require Import ReplaySource BoundedQueue Interfaces.
From S2P Require Import IngestionPipeline PipelineInvariant PipelineProgress PipelineProperties.

(** What one call of [next] may come back with, at any time of the clock. *)
Definition replay_next `{JsonOps} (s : ReplaySource) (r : next_result) (s' : ReplaySource) : Prop :=
  exists now out,
    match ReplaySource.next (fun _ => false) now s out with
    | Some (Ok (true, s1, e)) => r = NextEvent e /\ s' = s1
    | Some (Ok (false, s1, _)) => r = NextEnd /\ s' = s1
    | Some (Throw x) => r = NextThrow x /\ s' = s
    | None => False
    end.

Section Replay.
Context `{JsonLaws}.

#[export] Instance replay_source (read_file : string -> option string) : MarketDataSource ReplaySource := {
  source_start := fun s s' r => ReplaySource.start read_file s = (s', r);
  source_stop := ReplaySource.stop;
  source_next := replay_next
}.

#[export] Instance replay_laws read_file ok :
  @SourceLaws ReplaySource (replay_source read_file) ok.
Proof.
  split. intros s. split; cbn; unfold replay_next.
  - exists NextEnd, (ReplaySource.stop s), 0%Z, default_event. by rewrite next_of_stop.
  - intros x s' (now & out & Hn). rewrite next_of_stop in Hn. by destruct Hn.
  - intros e s' (now & out & Hn). rewrite next_of_stop in Hn. by destruct Hn.
  - intros e s' (now & out & Hn). rewrite next_of_stop in Hn. by destruct Hn.
Qed.

(** One call on a source that is reading [text]. *)
Lemma replay_next_reading s text r s' :
  reading s text -> in_u64 (lines_malformed_ s) -> replay_next s r s' ->
  match r with
  | NextEvent e => exists now e0 pre l rest,
      getlines newline text = pre ++ l :: getlines newline rest /\
      Forall skipped pre /\ classify l = Event e0 /\ e = set_ingest_time now e0 /\
      reading s' rest /\ in_u64 (lines_malformed_ s')
  | NextEnd => Forall skipped (getlines newline text)
  | NextThrow _ => exists l, l ∈ getlines newline text /\ is_fatal l = true
  end.
Proof.
  intros Hr Hm (now & out & Hn).
  destruct (next_loop_spec (next_fuel s) (fun _ => false) now s out text)
    as (pre & post & Hlines & Hpre & Hpost); auto; [by apply reading_fuel|].
  unfold ReplaySource.next in Hn. destruct post as [|l post].
  - destruct Hpost as (s1 & Hl & _). rewrite Hl in Hn. destruct Hn as [-> _].
    by rewrite Hlines, app_nil_r.
  - destruct Hpost as [(e & rest & s1 & Hc & Hl & Ha & Hr1 & <-)|(x & Hc & Hl)];
      rewrite Hl in Hn; destruct Hn as [-> ->].
    + exists now, e, pre, l, rest. split_and!; try done. by eapply after_range.
    + exists l. split; [rewrite Hlines; set_solver|]. unfold is_fatal. by rewrite Hc.
Qed.

(** [next] always comes back with something. *)
Lemma replay_next_total s : exists r s', replay_next s r s'.
Proof.
  assert (Hl : is_Some (ReplaySource.next (fun _ => false) 0 s default_event))
    by (apply next_loop_fuel; unfold next_fuel; lia).
  destruct Hl as [[[[[] s1] e]|x] Hl]; do 2 eexists; exists 0%Z, default_event;
    rewrite Hl; done.
Qed.

(** A file comes to an end. *)
Lemma reading_ends read_file ok n : forall s text,
  length (getlines newline text) <= n -> reading s text -> in_u64 (lines_malformed_ s) ->
  Forall (fun l => is_fatal l = false) (getlines newline text) ->
  (forall now e, e ∈ replayed_events (getlines newline text) -> ok (set_ingest_time now e)) ->
  @ends _ (replay_source read_file) ok s.
Proof.
  induction n as [|n IH]; intros s text Hn Hr Hm Hf Hok; split; cbn.
  1, 5: apply replay_next_total.
  all: intros x s' Hx; apply (replay_next_reading s text _ s' Hr Hm) in Hx.
  1, 4: destruct Hx as (l & Hl & Hfl); rewrite Forall_forall in Hf;
    specialize (Hf l Hl); congruence.
  - destruct Hx as (now & e0 & pre & l & rest & E & _). rewrite E in Hn.
    rewrite length_app in Hn. cbn in Hn. lia.
  - destruct Hx as (now & e0 & pre & l & rest & E & _). rewrite E in Hn.
    rewrite length_app in Hn. cbn in Hn. lia.
  - destruct Hx as (now & e0 & pre & l & rest & E & Hpre & Hc & -> & _).
    apply Hok. rewrite E, replayed_app, (replayed_cons _ _ _ Hc). set_solver.
  - destruct Hx as (now & e0 & pre & l & rest & E & Hpre & Hc & -> & Hr' & Hm').
    rewrite E in Hn, Hf, Hok. rewrite length_app in Hn. cbn in Hn.
    apply Forall_app in Hf as [_ Hf]. apply Forall_cons in Hf as [_ Hf].
    apply (IH s' rest); try done; [lia|].
    intros now' e He. apply Hok. rewrite replayed_app, (replayed_cons _ _ _ Hc). set_solver.
Qed.
End Replay.

(** ** The file through the pipeline *)

(** An event without its receipt time. *)
Definition untimed (e : MarketEvent) : MarketEvent := set_ingest_time 0 e.

Section Pipeline.
Context `{JsonLaws} `{EventPublisher Pub} `{QueueLaws Queue MarketEvent}.
Context (read_file : string -> option string) (path text : string).
Context (Hfile : read_file path = Some text).
Implicit Types (c : state ReplaySource Pub Queue) (tr : list event_label).

#[local] Instance this_source : MarketDataSource ReplaySource := replay_source read_file.

(** The part of the file that has been delivered, and the part the source
    has still to read. *)
Definition partly_read tr c : Prop :=
  exists pre rest, getlines newline text = pre ++ getlines newline rest /\
    reading (source_ (pipeline c)) rest /\
    in_u64 (lines_malformed_ (source_ (pipeline c))) /\
    untimed <$> delivered tr = untimed <$> replayed_events pre.

Definition replaying tr c : Prop :=
  if started_ (pipeline c) then
    if ingest_over (ingest c)
    then untimed <$> delivered tr = untimed <$> replayed_events (getlines newline text)
    else partly_read tr c
  else source_ (pipeline c) = ReplaySource_new path /\ delivered tr = [].

(** Steps that leave the source alone. *)
Lemma replaying_same tr l c c' :
  replaying tr c -> source_ (pipeline c') = source_ (pipeline c) ->
  started_ (pipeline c') = started_ (pipeline c) ->
  ingest_over (ingest c') = ingest_over (ingest c) ->
  (forall e, l <> Delivered e) -> replaying (tr ++ [l]) c'.
Proof.
  unfold replaying, partly_read. intros Hr -> -> -> Hl. rewrite delivered_snoc.
  assert (E : match l with Delivered e => [e] | _ => [] end = [])
    by (destruct l; try done; by destruct (Hl e)).
  by rewrite E, app_nil_r.
Qed.

Lemma replaying_next tr p w o fs r s' i :
  started_ p = true -> replaying tr (St p AtNext w o fs) ->
  source_next (source_ p) r s' ->
  match r with
  | NextEvent e => replaying (tr ++ [Delivered e]) (St (with_source s' p) (Received e) w o fs)
  | NextEnd => ingest_over i = true -> replaying (tr ++ [SourceEnded]) (St (with_source s' p) i w o fs)
  | NextThrow _ => True
  end.
Proof.
  unfold replaying, partly_read. cbn. intros Hst. rewrite Hst.
  intros (pre & rest & E & Hr & Hm & Hd) Hn.
  apply (replay_next_reading (source_ p) rest r s' Hr Hm) in Hn.
  destruct r as [e| |x]; [| |done]; rewrite delivered_snoc.
  - destruct Hn as (now & e0 & sk & l & rest' & E' & Hsk & Hc & -> & Hr' & Hm').
    exists (pre ++ sk ++ [l]), rest'. split_and!; try done.
    + by rewrite E, E', <-!app_assoc.
    + rewrite fmap_app, Hd, !replayed_app, (replayed_skipped sk Hsk), !fmap_app.
      unfold replayed_events at 2. cbn. unfold event_of_line. by rewrite Hc.
  - intros ->. by rewrite app_nil_r, Hd, E, replayed_app, (replayed_skipped _ Hn), app_nil_r.
Qed.

Lemma replaying_start tr p s' :
  source_ p = ReplaySource_new path -> delivered tr = [] ->
  source_start (source_ p) s' (Ok tt) ->
  forall i w fs, ingest_over i = false ->
  replaying (tr ++ [Started]) (St (set_started (with_source s' p)) i w SpawnIngest fs).
Proof.
  intros Hs Hd Hst i w fs Hi. unfold replaying. cbn. rewrite Hi.
  rewrite Hs in Hst. unfold source_start in Hst. cbn in Hst.
  unfold ReplaySource.start, ifstream_open in Hst. cbn in Hst. rewrite Hfile in Hst.
  injection Hst as <-. exists [], text. rewrite delivered_snoc, Hd. by split_and!.
Qed.

(** There is an ingest thread only after [start()]. *)
Lemma ingest_started c : phase c -> ingest c = NoIngest \/ started_ (pipeline c) = true.
Proof.
  unfold phase. destruct (owner c); try (intros [? _]; by right);
    destruct (started_ (pipeline c)); auto; intros [? _]; by left.
Qed.

Lemma replaying_exec u cap r fs tr c :
  exec (fresh (ReplaySource_new path) u cap r fs) tr c -> StopRequested ∉ tr ->
  replaying tr c.
Proof.
  intros He. induction He as [|tr c l c' He IH Hs|tr c l c' He IH Ho Hs]; [done|..];
    rewrite not_elem_of_app, list_elem_of_singleton; intros [Hn Hl]; specialize (IH Hn);
    pose proof (inv_exec _ _ _ _ _ _ _ He) as Hinv;
    pose proof (inv_phase _ _ _ Hinv) as Hph.
  - assert (Hst : ingest c = NoIngest \/ started_ (pipeline c) = true)
      by (apply ingest_started; done).
    destruct Hs as [Hs|[Hs|Hs]].
    + destruct Hs as [p w o fs' e s' Hx|p w o fs' s' Hx| | |p w o fs' e b q' Hp|]; cbn in *.
      * destruct Hst as [?|Hst]; [done|].
        exact (replaying_next tr p w o fs' (NextEvent e) s' NoIngest Hst IH Hx).
      * destruct Hst as [?|Hst]; [done|].
        exact (replaying_next tr p w o fs' NextEnd s' Finishing Hst IH Hx eq_refl).
      * eapply replaying_same; [exact IH|done..].
      * eapply replaying_same; [exact IH|done..|]. by destruct (optional_recorder_ p).
      * destruct (inv_push cap tr p w o fs' e b q' Hinv Hp) as [-> _].
        eapply replaying_same; [exact IH|done..].
      * eapply replaying_same; [exact IH|done..].
    + destruct Hs; try (eapply replaying_same; [exact IH|done..]).
      eapply replaying_same; [exact IH|by destruct b..|done].
    + destruct Hs as [p i w fs' Hh| | | | | |];
        try (eapply replaying_same; [exact IH|done..]).
      destruct Hph as (_ & Hi & _). cbn in Hi. subst i.
      eapply replaying_same; [exact IH|done..].
  - destruct Hs as [p i w fs' s' Hst|p i w fs' s' x Hst|p i w fs'|p i w o fs' Ho'|p i w fs'].
    + cbn in Ho. unfold replaying in IH. cbn in IH. rewrite Ho in IH. destruct IH as [Hs Hd].
      apply (replaying_start tr p s' Hs Hd Hst). unfold phase in Hph. cbn in Hph.
      rewrite Ho in Hph. destruct Hph as [Hi _]. cbn in Hi. by rewrite Hi.
    + exfalso. cbn in Ho. unfold replaying in IH. cbn in IH. rewrite Ho in IH.
      destruct IH as [Hs _]. rewrite Hs in Hst. unfold source_start in Hst. cbn in Hst.
      unfold ReplaySource.start, ifstream_open in Hst. cbn in Hst. by rewrite Hfile in Hst.
    + eapply replaying_same; [exact IH|done..].
    + unfold requestStop. destruct (started_ p) eqn:Hst; [done|].
      eapply replaying_same; [exact IH|done..].
    + unfold requestStop. destruct (started_ p) eqn:Hst; [done|].
      eapply replaying_same; [exact IH|done..].
Qed.
End Pipeline.

Section Result.
Context `{JsonLaws} `{EventPublisher Pub} `{QueueLaws Queue MarketEvent}.
Context (read_file : string -> option string) (path text : string).
Implicit Types (c : state ReplaySource Pub Queue) (tr : list event_label).

#[local] Instance the_source : MarketDataSource ReplaySource := replay_source read_file.

(** The source in a state of the pipeline. *)
Lemma replaying_ends ok tr c :
  replaying path text tr c -> started_ (pipeline c) = true -> ingest_over (ingest c) = false ->
  Forall (fun l => is_fatal l = false) (getlines newline text) ->
  (forall now e, e ∈ replayed_events (getlines newline text) -> ok (set_ingest_time now e)) ->
  ends ok (source_ (pipeline c)).
Proof.
  unfold replaying. intros Hr Hst Hov Hf Hok. rewrite Hst, Hov in Hr.
  destruct Hr as (pre & rest & E & Hr & Hm & _). rewrite E in Hf, Hok.
  apply Forall_app in Hf as [_ Hf].
  apply (reading_ends read_file ok (length (getlines newline rest)) _ rest); try done.
  intros now e He. apply Hok. rewrite replayed_app. set_solver.
Qed.
End Result.

(** A replay run publishes the file.  When a pipeline over a fresh
    [ReplaySource] has been started and stopped, and nobody called
    [requestStop], the events handed to the publisher are, in file order and up
    to their receipt time, exactly the events of the file's lines. *)
Theorem replay_pipeline_complete `{JsonLaws} `{EventPublisher Pub}
  `{QueueLaws Queue MarketEvent} read_file path text (u : Pub) cap r fs tr
  (c : state ReplaySource Pub Queue)
  (Hfile : read_file path = Some text)
  (He : @exec _ _ (replay_source read_file) _ _ _ _ (fresh (ReplaySource_new path) u cap r fs) tr c)
  (Hn : StopRequested ∉ tr) (Hs : stopped_ (pipeline c) = true) :
  untimed <$> attempted tr = untimed <$> replayed_events (getlines newline text).
Proof.
  pose proof (replaying_exec read_file path text Hfile u cap r fs tr c He Hn) as Hr.
  apply inv_exec in He. destruct (stopped_complete cap tr c He Hs) as (_ & -> & _).
  destruct (stopped_drained cap tr c He Hs) as [Hi _].
  destruct (ingest_started c (inv_phase _ _ _ He)) as [?|Hst]; [congruence|].
  unfold replaying in Hr. by rewrite Hst, Hi in Hr.
Qed.

(** A replay run comes to its end.  If no line of the file makes the JSON
    library throw [out_of_range], [stop()] on a replay pipeline returns without
    any [requestStop()]: from inside [stop()] the threads make finitely many
    steps, the process does not die, and where they rest [stop()] has
    returned. *)
Theorem replay_pipeline_returns `{JsonLaws} `{EventPublisher Pub}
  `{QueueLaws Queue MarketEvent} (ok : MarketEvent -> Prop) read_file path text (u : Pub)
  cap r fs tr d (c : state ReplaySource Pub Queue)
  (Hfile : read_file path = Some text)
  (He : @exec _ _ (replay_source read_file) _ _ _ _ (fresh (ReplaySource_new path) u cap r fs) tr c)
  (Hn : StopRequested ∉ tr) (Ho : owner c = JoinIngest d) (Hcap : 0 < cap)
  (Hfatal : Forall (fun l => is_fatal l = false) (getlines newline text))
  (Hok : forall now e, e ∈ replayed_events (getlines newline text) -> ok (set_ingest_time now e))
  (Hprint : forall e, ok e -> exists l, event_line e = Ok l)
  (Hserves : publisher_serves Pub ok) (Hev : Forall ok (delivered tr)) :
  sn (@moves _ _ (replay_source read_file) _ _ _ _) c /\
  forall c', rtc (@moves _ _ (replay_source read_file) _ _ _ _) c c' ->
    ~ @aborts _ _ (replay_source read_file) _ _ _ c' /\
    (nf (@moves _ _ (replay_source read_file) _ _ _ _) c' ->
     owner c' = end_stop d /\ stopped_ (pipeline c') = true).
Proof.
  pose proof (replaying_exec read_file path text Hfile u cap r fs tr c He Hn) as Hr.
  apply inv_exec in He. pose proof (inv_phase _ _ _ He) as Hph.
  unfold phase in Hph. rewrite Ho in Hph. destruct Hph as [Hst (Hi & _)].
  apply (stop_settles (H0 := replay_source read_file) ok Hserves Hprint cap tr d c Hcap);
    [split; [exact He|exact Hev|]|by left].
  intros Ha. apply (replaying_ends read_file path text ok tr c Hr Hst); [|done|done].
  unfold asking in Ha. by destruct (ingest c).
Qed.

(** ** A run of it *)

Definition one_line : string := text_of_lines [sampleLine].
Definition one_file (p : string) : option string :=
  if String.eqb p "a.jsonl" then Some one_line else None.

(** The source before its line, after it, and at the end of the file. *)
Definition at_line : ReplaySource := source_on one_line.
Definition after_line : ReplaySource := source_on EmptyString.
Definition at_end : ReplaySource :=
  set_in {| filebuf := Some EmptyString; failbit := true |} after_line.

Definition replayedEvent : MarketEvent := set_ingest_time 5 (restored sampleEvent).

Lemma next_line : replay_next at_line (NextEvent replayedEvent) after_line.
Proof. exists 5%Z, default_event. vm_compute. by split. Qed.

Lemma next_end : replay_next after_line NextEnd at_end.
Proof. exists 5%Z, default_event. vm_compute. by split. Qed.

Definition replay_demo (s : ReplaySource) (n : Z) (sent : list MarketEvent) (mark : nat)
    (running stopped : bool) :
    IngestionPipeline ReplaySource (list MarketEvent) (BoundedQueue MarketEvent) :=
  {| source_ := s; publisher_ := sent; optional_recorder_ := None;
     pqueue_ := Build_BoundedQueue 4 [] mark stopped;
     events_received_ := n; events_published_ := n; publish_failures_ := 0;
     ingest_finished_ := stopped; ingest_thread_ := running; publish_thread_ := running;
     started_ := true; stopped_ := stopped |}.

Definition replay_begin : state ReplaySource (list MarketEvent) (BoundedQueue MarketEvent) :=
  fresh (ReplaySource_new "a.jsonl") [] 4 None ∅.
Definition replay_stopping : state ReplaySource (list MarketEvent) (BoundedQueue MarketEvent) :=
  St (replay_demo at_line 0 [] 0 true false) AtNext AtPop (JoinIngest false) ∅.
Definition replay_stopped : state ReplaySource (list MarketEvent) (BoundedQueue MarketEvent) :=
  St (replay_demo at_end 1 [replayedEvent] 1 false true) IngestDone PublishDone OwnerIdle ∅.

Abbreviation replay_exec := (@exec tree_ops _ (replay_source one_file) _ _ _ _).

Lemma replay_exec_stopping :
  replay_exec replay_begin [Started; Quiet; Quiet; Quiet] replay_stopping.
Proof.
  pose proof (@exec_refl tree_ops _ (replay_source one_file) _ _ _ _ replay_begin) as E.
  eapply (exec_call _ _ _ Started) in E; [|reflexivity|eapply call_start; reflexivity].
  owner_by E owner_spawn_ingest. owner_by E owner_spawn_publish.
  eapply (exec_call _ _ _ Quiet) in E; [|exact I|eapply call_stop]. exact E.
Qed.

Definition replay_trace : list event_label :=
  [Started; Quiet; Quiet; Quiet; Delivered replayedEvent; Quiet; Quiet; Enqueued replayedEvent;
   Quiet; Attempted replayedEvent true; Quiet; SourceEnded; Quiet;
   Quiet; Quiet; Quiet; Flushed; Quiet; Quiet].

Lemma replay_exec_stopped : replay_exec replay_begin replay_trace replay_stopped.
Proof.
  pose proof replay_exec_stopping as E.
  eapply exec_thread in E; [|left; eapply ingest_next, next_line].
  ingest_on E ingest_count. ingest_by E ingest_record. ingest_by E ingest_push.
  publish_by E publish_pop.
  eapply (exec_thread _ _ _ (Attempted replayedEvent true)) in E;
    [|right; left; eapply publish_publish; split; reflexivity].
  publish_on E publish_count.
  eapply exec_thread in E; [|left; eapply ingest_end, next_end].
  ingest_on E ingest_finish.
  eapply exec_thread in E; [|right; right; apply owner_join_ingest; reflexivity].
  owner_on E owner_shutdown. publish_by E publish_pop. publish_by E publish_flush.
  eapply exec_thread in E; [|right; right; apply owner_join_publish; reflexivity].
  owner_on E owner_mark_stopped. exact E.
Qed.

Lemma not_requested tr :
  count (fun l => match l with StopRequested => true | _ => false end) tr = 0 ->
  StopRequested ∉ tr.
Proof.
  rewrite count_zero, Forall_forall. intros Hf Hin. specialize (Hf _ Hin). done.
Qed.

Lemma replay_pipeline_complete_witness :
  untimed <$> [replayedEvent] = untimed <$> [restored sampleEvent].
Proof.
  assert (Hl : @replayed_events tree_ops (getlines newline one_line) = [restored sampleEvent])
    by (vm_compute; reflexivity).
  rewrite <-Hl.
  apply (@replay_pipeline_complete tree_ops _ _ _ _ _ _ one_file "a.jsonl" one_line
    [] 4 None ∅ replay_trace replay_stopped); [reflexivity|exact replay_exec_stopped| |reflexivity].
  apply not_requested. reflexivity.
Defined.

Lemma replay_pipeline_returns_witness :
  sn (@moves tree_ops _ (replay_source one_file) _ _ _ _) replay_stopping.
Proof.
  assert (Hl : getlines newline one_line = [sampleLine]) by (vm_compute; reflexivity).
  assert (Hr : @replayed_events tree_ops [sampleLine] = [restored sampleEvent])
    by (vm_compute; reflexivity).
  apply (@replay_pipeline_returns tree_ops _ _ _ _ _ _
    (fun e => exists l, @event_line tree_ops e = Ok l) one_file "a.jsonl" one_line
    [] 4 None ∅ [Started; Quiet; Quiet; Quiet] false replay_stopping).
  - reflexivity.
  - exact replay_exec_stopping.
  - apply not_requested. reflexivity.
  - reflexivity.
  - lia.
  - rewrite Hl. constructor; [vm_compute; reflexivity|constructor].
  - intros now e. rewrite Hl, Hr. intros ->%list_elem_of_singleton.
    eexists. vm_compute. reflexivity.
  - intros e He. exact He.
  - apply list_publisher_serves.
  - constructor.
Defined.
