(* ===== verification/LiveSource.v ===== *)
(** * The live source

    src/live_source.cpp: connect, read, parse, reconnect with backoff, on the
    thread that calls [next]; [stop()] from any other.  Each step is one access
    to something the two share: the flag, the counters, or what the mutex
    [ws_mutex_] guards.  What the network does (a connection attempt that
    succeeds or fails, the messages and errors a read returns, the clock) is
    chosen by the step relation; Boost.Beast itself is not modelled.  Where the
    thread can only wait for the network, [waits] says so: such a step is the
    network's, and may never come. *)
From S2P Require Import Prelude CxxStrings Config MarketEvent Json BinanceTradeParser Interfaces.

(** ** The members *)
Record LiveSourceConfig := {
  host : string;
  port : string;
  symbols : list string;
  initial_backoff : Z;   (* milliseconds, a signed 64-bit count *)
  max_backoff : Z
}.

Definition default_config : LiveSourceConfig :=
  {| host := "stream.binance.com"; port := "9443"; symbols := ["btcusdt"; "ethusdt"]%string;
     initial_backoff := 1000; max_backoff := 30000 |}.

(** [ws_] is [Some open] when it holds a stream; [open] says that its TCP
    socket was not closed by [stop()]. *)
Record LiveSource := {
  config_ : LiveSourceConfig;
  stop_requested_ : bool;
  connected_ : bool;
  messages_received_ : Z;
  messages_malformed_ : Z;
  reconnects_ : Z;
  had_connected_once_ : bool;
  ws_ : option bool
}.

Definition LiveSource_new (config : LiveSourceConfig) : LiveSource :=
  {| config_ := config; stop_requested_ := false; connected_ := false;
     messages_received_ := 0; messages_malformed_ := 0; reconnects_ := 0;
     had_connected_once_ := false; ws_ := None |}.

Definition set_stop (b : bool) (s : LiveSource) : LiveSource :=
  {| config_ := config_ s; stop_requested_ := b; connected_ := connected_ s;
     messages_received_ := messages_received_ s; messages_malformed_ := messages_malformed_ s;
     reconnects_ := reconnects_ s; had_connected_once_ := had_connected_once_ s; ws_ := ws_ s |}.
Definition set_connected (b : bool) (s : LiveSource) : LiveSource :=
  {| config_ := config_ s; stop_requested_ := stop_requested_ s; connected_ := b;
     messages_received_ := messages_received_ s; messages_malformed_ := messages_malformed_ s;
     reconnects_ := reconnects_ s; had_connected_once_ := had_connected_once_ s; ws_ := ws_ s |}.
Definition set_ws (w : option bool) (s : LiveSource) : LiveSource :=
  {| config_ := config_ s; stop_requested_ := stop_requested_ s; connected_ := connected_ s;
     messages_received_ := messages_received_ s; messages_malformed_ := messages_malformed_ s;
     reconnects_ := reconnects_ s; had_connected_once_ := had_connected_once_ s; ws_ := w |}.
Definition count_message (s : LiveSource) : LiveSource :=
  {| config_ := config_ s; stop_requested_ := stop_requested_ s; connected_ := connected_ s;
     messages_received_ := wrap_u64 (messages_received_ s + 1);
     messages_malformed_ := messages_malformed_ s;
     reconnects_ := reconnects_ s; had_connected_once_ := had_connected_once_ s; ws_ := ws_ s |}.
Definition count_malformed (s : LiveSource) : LiveSource :=
  {| config_ := config_ s; stop_requested_ := stop_requested_ s; connected_ := connected_ s;
     messages_received_ := messages_received_ s;
     messages_malformed_ := wrap_u64 (messages_malformed_ s + 1);
     reconnects_ := reconnects_ s; had_connected_once_ := had_connected_once_ s; ws_ := ws_ s |}.

(** [ensureConnected] after [connectOnce] returned true. *)
Definition note_connected (s : LiveSource) : LiveSource :=
  {| config_ := config_ s; stop_requested_ := stop_requested_ s; connected_ := connected_ s;
     messages_received_ := messages_received_ s; messages_malformed_ := messages_malformed_ s;
     reconnects_ := if had_connected_once_ s then wrap_u64 (reconnects_ s + 1) else reconnects_ s;
     had_connected_once_ := true; ws_ := ws_ s |}.

(** The accessors. *)
Definition messagesReceived (s : LiveSource) : Z := messages_received_ s.
Definition messagesMalformed (s : LiveSource) : Z := messages_malformed_ s.
Definition reconnectCount (s : LiveSource) : Z := reconnects_ s.

(** ** The code *)

Definition start (s : LiveSource) : LiveSource := set_stop false s.

(** The two halves of [stop()]: the flag, then, under the mutex, the socket. *)
Definition request (s : LiveSource) : LiveSource := set_stop true s.
Definition close_socket (s : LiveSource) : LiveSource :=
  match ws_ s with Some _ => set_ws (Some false) s | None => s end.
Definition stop (s : LiveSource) : LiveSource := close_socket (request s).
Definition LiveSource_destroy (s : LiveSource) : LiveSource := stop s.

(** [std::min(backoff * 2, config_.max_backoff)], on 64-bit counts. *)
Definition next_backoff (c : LiveSourceConfig) (backoff : Z) : Z :=
  Z.min (wrap_i64 (backoff * 2)) (max_backoff c).

(** The end of [connectOnce], under the mutex: a connection that arrives after
    [stop()] is discarded. *)
Definition publish_stream (s : LiveSource) : bool * LiveSource :=
  if stop_requested_ s then (false, s)
  else (true, set_connected true (set_ws (Some true) s)).

(** Where the thread inside [next] is. *)
Inductive pc :=
  | Outside                            (* not in next *)
  | LoopTest                           (* at next's while (!stop_requested_) *)
  | TestConnected                      (* at ensureConnected's if (connected_) *)
  | RetryTest (backoff : Z)            (* at ensureConnected's while (!stop_requested_) *)
  | Connecting (backoff : Z)           (* in connectOnce, before the mutex *)
  | AtMutex (backoff : Z)              (* handshakes done *)
  | ConnectFailed (backoff : Z)        (* connectOnce returned false *)
  | Sleeping (backoff : Z)
  | Connected                          (* connectOnce returned true *)
  | TakeStream                         (* at next's lock_guard *)
  | Reading                            (* in stream->read *)
  | ReadFailed                         (* connected_ cleared, at if (stop_requested_) *)
  | Parsing (raw : string) (time : Z). (* a message was read *)

#[export] Instance pc_eq_dec : EqDecision pc.
Proof. solve_decision. Defined.

(** What is seen of a step. *)
Inductive label :=
  | Called                             (* next is called *)
  | GaveEvent (e : MarketEvent)        (* next returns true *)
  | GaveFalse
  | GaveThrow (x : exn)
  | Reconnecting                       (* ensureConnected found no connection *)
  | Slept (backoff : Z)
  | Connection                         (* connectOnce returned true *)
  | Message (raw : string) (time : Z)
  | Malformed
  | StartCalled
  | StopFlag                           (* stop() has set the flag *)
  | StopClosed                         (* stop() has closed the socket *)
  | Tau.

(** The thread is in a call that the network alone ends: resolving, connecting
    and the handshakes, which [stop()] does not interrupt; and [stream->read] as
    long as the socket is open.  When [stop()] has closed it, the read comes back
    with an error by itself. *)
Definition waits (s : LiveSource) (p : pc) : bool :=
  match p with
  | Connecting _ => true
  | Reading => match ws_ s with Some open => open | None => false end
  | _ => false
  end.

Section Code.
Context `{JsonOps}.

Definition live_source_name : string := "live:binance".

(** What becomes of a message. *)
Inductive verdict := Good (e : MarketEvent) | Bad | Fatal (x : exn).
Definition judge (raw : string) (time : Z) : verdict :=
  match parseBinanceTradeMessage raw (Some EmptyString) with
  | Ok (Some event, _) => Good (set_source live_source_name (set_ingest_time time event))
  | Ok (None, _) => Bad
  | Throw x => Fatal x
  end.

Inductive reader_step : LiveSource -> pc -> label -> LiveSource -> pc -> Prop :=
  (* next *)
  | loop_stop s : stop_requested_ s = true -> reader_step s LoopTest GaveFalse s Outside
  | loop_go s : stop_requested_ s = false -> reader_step s LoopTest Tau s TestConnected
  (* ensureConnected *)
  | have_connection s : connected_ s = true -> reader_step s TestConnected Tau s TakeStream
  | no_connection s : connected_ s = false ->
      reader_step s TestConnected Reconnecting s (RetryTest (initial_backoff (config_ s)))
  | retry_stop s b : stop_requested_ s = true -> reader_step s (RetryTest b) GaveFalse s Outside
  | retry_go s b : stop_requested_ s = false -> reader_step s (RetryTest b) Tau s (Connecting b)
  (* connectOnce *)
  | connect_sni s b : reader_step s (Connecting b) Tau s (ConnectFailed b)
  | connect_throw s b :
      reader_step s (Connecting b) Tau (set_connected false s) (ConnectFailed b)
  | connect_done s b : reader_step s (Connecting b) Tau s (AtMutex b)
  | connect_publish s b ok s' : publish_stream s = (ok, s') ->
      reader_step s (AtMutex b) Tau s' (if ok then Connected else ConnectFailed b)
  (* ensureConnected, after connectOnce *)
  | connected_once s : reader_step s Connected Connection (note_connected s) TakeStream
  | failed_stop s b : stop_requested_ s = true ->
      reader_step s (ConnectFailed b) GaveFalse s Outside
  | failed_sleep s b : stop_requested_ s = false ->
      reader_step s (ConnectFailed b) Tau s (Sleeping b)
  | slept s b :
      reader_step s (Sleeping b) (Slept b) s (RetryTest (next_backoff (config_ s) b))
  (* next, with a connection *)
  | take_stream s b : ws_ s = Some b -> reader_step s TakeStream Tau s Reading
  | take_none s : ws_ s = None ->
      reader_step s TakeStream Tau (set_connected false s) LoopTest
  | read_message s raw time :
      reader_step s Reading (Message raw time) (count_message s) (Parsing raw time)
  | read_error s : reader_step s Reading Tau (set_connected false s) ReadFailed
  | error_stop s : stop_requested_ s = true -> reader_step s ReadFailed GaveFalse s Outside
  | error_go s : stop_requested_ s = false -> reader_step s ReadFailed Tau s LoopTest
  | parse_good s raw time e : judge raw time = Good e ->
      reader_step s (Parsing raw time) (GaveEvent e) s Outside
  | parse_bad s raw time : judge raw time = Bad ->
      reader_step s (Parsing raw time) Malformed (count_malformed s) LoopTest
  | parse_fatal s raw time x : judge raw time = Fatal x ->
      reader_step s (Parsing raw time) (GaveThrow x) s Outside.

(** The source, the thread that calls [next], and the number of [stop()]
    calls between their two halves. *)
Record live := Live { src : LiveSource; reader : pc; stoppers : nat }.

Inductive live_step : live -> label -> live -> Prop :=
  | live_call s n : live_step (Live s Outside n) Called (Live s LoopTest n)
  | live_reader s pc n l s' pc' : reader_step s pc l s' pc' ->
      live_step (Live s pc n) l (Live s' pc' n)
  | live_start s pc n : live_step (Live s pc n) StartCalled (Live (start s) pc n)
  | live_stop_flag s pc n : live_step (Live s pc n) StopFlag (Live (request s) pc (S n))
  | live_stop_close s pc n :
      live_step (Live s pc (S n)) StopClosed (Live (close_socket s) pc n).

Inductive exec (config : LiveSourceConfig) : list label -> live -> Prop :=
  | exec_init : exec config [] (Live (LiveSource_new config) Outside 0)
  | exec_step tr c l c' : exec config tr c -> live_step c l c' -> exec config (tr ++ [l]) c'.
End Code.

(** ** Reading a trace *)
Definition is_message (l : label) : bool := match l with Message _ _ => true | _ => false end.
Definition is_event (l : label) : bool := match l with GaveEvent _ => true | _ => false end.
Definition is_malformed (l : label) : bool := match l with Malformed => true | _ => false end.
Definition is_throw (l : label) : bool := match l with GaveThrow _ => true | _ => false end.
Definition is_connection (l : label) : bool := match l with Connection => true | _ => false end.

Definition messages (tr : list label) : list (string * Z) :=
  omap (fun l => match l with Message raw time => Some (raw, time) | _ => None end) tr.
Definition given (tr : list label) : list MarketEvent :=
  omap (fun l => match l with GaveEvent e => Some e | _ => None end) tr.

(** Sleeps since [ensureConnected] last began to connect. *)
Definition note_sleep (n : nat) (l : label) : nat :=
  match l with Reconnecting => 0 | Slept _ => S n | _ => n end.
Definition sleeps_since (tr : list label) : nat := fold_left note_sleep tr 0.

(** The delays in the order they are used. *)
Fixpoint backoff_after (c : LiveSourceConfig) (n : nat) : Z :=
  match n with 0 => initial_backoff c | S n => next_backoff c (backoff_after c n) end.

(** ** The invariant *)
Section Invariant.
Context `{JsonOps}.
Implicit Types (s : LiveSource) (tr : list label) (c : live).

(** The message read and not yet judged. *)
Definition pending (p : pc) : list (string * Z) :=
  match p with Parsing raw time => [(raw, time)] | _ => [] end.

Definition good (m : string * Z) : option MarketEvent :=
  match judge m.1 m.2 with Good e => Some e | _ => None end.

Definition backoff_at (p : pc) : option Z :=
  match p with
  | RetryTest b | Connecting b | AtMutex b | ConnectFailed b | Sleeping b => Some b
  | _ => None
  end.

Record inv (config : LiveSourceConfig) tr c : Prop := {
  inv_config : config_ (src c) = config;
  inv_flag : stop_requested_ (src c) = true -> StopFlag ∈ tr;
  inv_false : GaveFalse ∈ tr -> StopFlag ∈ tr;
  inv_closed : stop_requested_ (src c) = true -> stoppers c = 0 -> ws_ (src c) <> Some true;
  inv_received : messages_received_ (src c) = wrap_u64 (Z.of_nat (count is_message tr));
  inv_malformed : messages_malformed_ (src c) = wrap_u64 (Z.of_nat (count is_malformed tr));
  inv_sum : count is_message tr =
    count is_event tr + count is_malformed tr + count is_throw tr + length (pending (reader c));
  inv_given : exists judged,
    messages tr = judged ++ pending (reader c) /\ given tr = omap good judged;
  inv_connections :
    if had_connected_once_ (src c)
    then 0 < count is_connection tr /\
         reconnects_ (src c) = wrap_u64 (Z.of_nat (count is_connection tr) - 1)
    else count is_connection tr = 0 /\ reconnects_ (src c) = 0%Z;
  inv_backoff : forall b, backoff_at (reader c) = Some b ->
    b = backoff_after config (sleeps_since tr)
}.

Lemma messages_snoc tr l :
  messages (tr ++ [l]) = messages tr ++ match l with Message raw t => [(raw, t)] | _ => [] end.
Proof. unfold messages. rewrite omap_app. by destruct l. Qed.
Lemma given_snoc tr l :
  given (tr ++ [l]) = given tr ++ match l with GaveEvent e => [e] | _ => [] end.
Proof. unfold given. rewrite omap_app. by destruct l. Qed.
Lemma sleeps_snoc tr l : sleeps_since (tr ++ [l]) = note_sleep (sleeps_since tr) l.
Proof. unfold sleeps_since. by rewrite fold_left_app. Qed.

Lemma elem_snoc (l0 : label) tr l : l0 ∈ tr ++ [l] <-> l0 ∈ tr \/ l0 = l.
Proof. by rewrite elem_of_app, list_elem_of_singleton. Qed.

Lemma inv_init config : inv config [] (Live (LiveSource_new config) Outside 0).
Proof.
  split; cbn; try done.
  - intros Hin. by apply not_elem_of_nil in Hin.
  - by exists [].
Qed.

Lemma wrap_succ n : wrap_u64 (wrap_u64 (Z.of_nat n) + 1) = wrap_u64 (Z.of_nat (n + 1)).
Proof. rewrite wrap_u64_add_l. f_equal. lia. Qed.
End Invariant.

(** Closes the clauses of the invariant after a step. *)
Ltac live_clause :=
  cbn in *; rewrite ?count_app, ?sleeps_snoc, ?messages_snoc, ?given_snoc, ?elem_snoc in *; cbn in *;
  rewrite ?Nat.add_0_r, ?app_nil_r in *;
  first [ done | congruence | lia
        | match goal with E : _ = wrap_u64 _ |- _ => rewrite E, wrap_succ; done end
        | intros; simplify_eq; by auto
        | intuition (discriminate || eauto; fail) ].

Section Steps.
Context `{JsonOps}.
Implicit Types (s : LiveSource) (tr : list label) (c : live).

Lemma inv_reader_step config tr s p n l s' p' :
  inv config tr (Live s p n) -> reader_step s p l s' p' -> inv config (tr ++ [l]) (Live s' p' n).
Proof.
  intros [Hcfg Hflag Hfalse Hclosed Hrec Hmal Hsum (judged & Hm & Hg) Hconn Hback] Hs.
  destruct Hs as
    [s Ht|s Ht|s Hk|s Hk|s b Ht|s b Ht|s b|s b|s b|s b ok s' Hp|s|s b Ht|s b Ht|s b|s b Hw|s Hw
    |s raw time|s|s Ht|s Ht|s raw time e Hj|s raw time Hj|s raw time x Hj].
  10: unfold publish_stream in Hp; destruct (stop_requested_ s) eqn:Ht;
    injection Hp as <- <-.
  all: split; try live_clause.
  all: try (exists judged; rewrite messages_snoc, given_snoc; cbn in *;
    rewrite ?app_nil_r in *; done).
  all: try (exists (judged ++ [(raw, time)]); rewrite messages_snoc, given_snoc, omap_app; cbn in *;
    unfold good; cbn; rewrite Hj, ?app_nil_r in *; by rewrite Hg).
  - cbn in *. rewrite count_app. cbn. split; [lia|]. destruct (had_connected_once_ s).
    + destruct Hconn as [Hpos ->]. rewrite wrap_u64_add_l. f_equal. lia.
    + by destruct Hconn as [-> ->].
  - intros b0 [= <-]. rewrite sleeps_snoc. cbn in *. by rewrite Hcfg, <-(Hback b).
  - exists judged. rewrite messages_snoc, given_snoc. cbn in *. by rewrite Hm, !app_nil_r.
Qed.

Lemma inv_live_step config tr c l c' :
  inv config tr c -> live_step c l c' -> inv config (tr ++ [l]) c'.
Proof.
  intros Hinv Hs. destruct Hs as [s n|s p n l s' p' Hs|s p n|s p n|s p n];
    [|by eapply inv_reader_step|..];
    destruct Hinv as [Hcfg Hflag Hfalse Hclosed Hrec Hmal Hsum (judged & Hm & Hg) Hconn Hback].
  all: split; try live_clause.
  all: try (exists judged; rewrite messages_snoc, given_snoc; cbn in *;
    rewrite ?app_nil_r in *; done).
  all: unfold close_socket; destruct (ws_ s) eqn:Hw; try live_clause.
Qed.

Lemma live_inv_exec config tr c : exec config tr c -> inv config tr c.
Proof. induction 1; eauto using inv_init, inv_live_step. Qed.
End Steps.
