(* ===== verification/LiveProperties.v ===== *)
(** * What the live source guarantees

    The properties of src/live_source.cpp for every behaviour of the network
    and every interleaving of the thread in [next] with calls of [start] and
    [stop]; and the live source as the pipeline's source. *)
From S2P Require Import Prelude CxxStrings Config MarketEvent Json JsonTree BinanceTradeParser.
From S2P Require Import Interfaces LiveSource.

(** ** After a stop *)
Section Stopping.
Context `{JsonOps}.

(** What the thread inside [next] does, the network helping; and what it does
    by itself. *)
Definition reader_moves : relation (LiveSource * pc) :=
  fun a b => exists l, reader_step a.1 a.2 l b.1 b.2.
Definition reader_own_moves : relation (LiveSource * pc) :=
  fun a b => waits a.1 a.2 = false /\ reader_moves a b.

(** In a connection attempt. *)
Definition connecting (p : pc) : bool := match p with Connecting _ => true | _ => false end.

(** [stop()] has come back: the flag is set, and no socket is open. *)
Definition shut_down (s : LiveSource) : Prop :=
  stop_requested_ s = true /\ ws_ s <> Some true.

Lemma shut_waits s p : shut_down s -> waits s p = true -> connecting p = true.
Proof. intros [_ Hw]. destruct p; cbn; try done. by destruct (ws_ s) as [[]|]. Qed.

Lemma shut_step s p l s' p' : shut_down s -> reader_step s p l s' p' -> shut_down s'.
Proof.
  intros [Hs Hw] Hr. destruct Hr; try done.
  match goal with E : publish_stream _ = _ |- _ => unfold publish_stream in E; rewrite Hs in E;
    by injection E as <- <- end.
Qed.

Lemma shut_close s : stop_requested_ s = true -> shut_down (close_socket s).
Proof. unfold shut_down, close_socket. intros Hs. by destruct (ws_ s) eqn:Hw; [|rewrite Hw]. Qed.

(** Steps left to it once the flag is set. *)
Definition stop_rank (p : pc) : nat :=
  match p with
  | Outside => 0
  | LoopTest | RetryTest _ | ConnectFailed _ | ReadFailed => 1
  | AtMutex _ | Sleeping _ | Parsing _ _ => 2
  | Connecting _ | Reading => 3
  | TakeStream => 4
  | Connected | TestConnected => 5
  end.

Lemma reader_stop_rank s p l s' p' :
  stop_requested_ s = true -> reader_step s p l s' p' ->
  stop_requested_ s' = true /\ stop_rank p' < stop_rank p.
Proof.
  intros Hs Hr. destruct Hr; cbn; try (split; [done|lia]); try congruence.
  match goal with E : publish_stream _ = _ |- _ => unfold publish_stream in E; rewrite Hs in E;
    injection E as <- <- end.
  split; [done|cbn; lia].
Qed.

(** Wherever it is inside [next], it can go on. *)
Lemma reader_goes_on s p : p <> Outside -> exists l s' p', reader_step s p l s' p'.
Proof.
  intros Hp. destruct p as [| | |b|b|b|b|b| | | | |raw time]; try done.
  - destruct (stop_requested_ s) eqn:Hs; eauto using reader_step.
  - destruct (connected_ s) eqn:Hs; eauto using reader_step.
  - destruct (stop_requested_ s) eqn:Hs; eauto using reader_step.
  - eauto using reader_step.
  - destruct (publish_stream s) as [ok s'] eqn:Hs; eauto using reader_step.
  - destruct (stop_requested_ s) eqn:Hs; eauto using reader_step.
  - eauto using reader_step.
  - eauto using reader_step.
  - destruct (ws_ s) eqn:Hs; eauto using reader_step.
  - eauto using reader_step.
  - destruct (stop_requested_ s) eqn:Hs; eauto using reader_step.
  - destruct (judge raw time) eqn:Hj; eauto using reader_step.
Qed.

(** Whether the call of [next] in progress may still return an event once
    the flag is set. *)
Definition may_give (p : pc) : nat :=
  match p with
  | TestConnected | Connected | TakeStream | Reading | Parsing _ _ => 1
  | _ => 0
  end.

Lemma live_may_give c l c' :
  stop_requested_ (src c) = true -> live_step c l c' -> l <> StartCalled ->
  stop_requested_ (src c') = true /\
  may_give (reader c') + (if is_event l then 1 else 0) <= may_give (reader c).
Proof.
  intros Hs Hl Hns. destruct Hl as [s n|s p n l s' p' Hr|s p n|s p n|s p n]; cbn in *; try done.
  - destruct (reader_stop_rank s p l s' p' Hs Hr) as [Hs' _]. split; [done|].
    destruct Hr; cbn; try lia; try congruence.
    match goal with E : publish_stream _ = _ |- _ => unfold publish_stream in E; rewrite Hs in E;
      injection E as <- <- end. done.
  - split; [done|lia].
  - split; [|lia]. unfold close_socket. by destruct (ws_ s).
Qed.

Lemma exec_snoc_inv config tr l c' :
  exec config (tr ++ [l]) c' -> exists c, exec config tr c /\ live_step c l c'.
Proof.
  intros He. inversion He as [E|tr0 c l0 c1 Ht Hs E]; subst.
  - by destruct tr.
  - apply app_inj_tail in E as [-> ->]. eauto.
Qed.

Lemma after_stop config tr1 tr2 : forall c,
  exec config (tr1 ++ StopFlag :: tr2) c -> StartCalled ∉ tr2 ->
  stop_requested_ (src c) = true /\ may_give (reader c) + count is_event tr2 <= 1.
Proof.
  induction tr2 as [|l tr2 IH] using rev_ind; intros c He Hn.
  - apply exec_snoc_inv in He as (c0 & _ & Hs).
    assert (Hf : stop_requested_ (src c) = true).
    { inversion Hs; subst; [|done].
      match goal with Hr : reader_step _ _ _ _ _ |- _ => inversion Hr end. }
    split; [done|]. destruct (reader c); cbn; lia.
  - rewrite app_comm_cons, app_assoc in He. apply exec_snoc_inv in He as (c0 & He & Hs).
    apply not_elem_of_app in Hn as [Hn Hl]. rewrite list_elem_of_singleton in Hl.
    destruct (IH c0 He Hn) as [Hf Hc].
    destruct (live_may_give c0 l c Hf Hs ltac:(congruence)) as [Hf' Hg].
    split; [done|]. rewrite count_app. cbn. lia.
Qed.
End Stopping.

(** ** The backoff *)
Lemma backoff_closed config n :
  (0 < initial_backoff config <= max_backoff config)%Z ->
  in_i64 (max_backoff config * 2) ->
  backoff_after config n = Z.min (initial_backoff config * 2 ^ Z.of_nat n) (max_backoff config).
Proof.
  intros Hb Hm. induction n as [|n IH].
  - cbn. lia.
  - cbn [backoff_after]. rewrite IH. unfold next_backoff.
    rewrite Nat2Z.inj_succ, Z.pow_succ_r by lia.
    assert (0 < 2 ^ Z.of_nat n)%Z by (apply Z.pow_pos_nonneg; lia).
    rewrite wrap_i64_id; [nia|]. unfold in_i64, int64_min, int64_max in *. nia.
Qed.

(** ** The live source in the pipeline *)

(** A call of [next] with nothing else going on, from its first test to its
    return. *)
Definition live_next `{JsonOps} (s : LiveSource) (r : next_result) (s' : LiveSource) : Prop :=
  exists a l, rtc reader_moves (s, LoopTest) a /\ reader_step a.1 a.2 l s' Outside /\
    match r with
    | NextEvent e => l = GaveEvent e
    | NextEnd => l = GaveFalse
    | NextThrow x => l = GaveThrow x
    end.

#[export] Instance live_source `{JsonOps} : MarketDataSource LiveSource := {
  source_start := fun s s' r => s' = start s /\ r = Ok tt;
  source_stop := stop;
  source_next := live_next
}.

Lemma stop_flag s : stop_requested_ (stop s) = true.
Proof. unfold stop, close_socket. by destruct (ws_ (request s)). Qed.

Lemma live_next_stopped `{JsonOps} s r s' :
  stop_requested_ s = true -> live_next s r s' -> r = NextEnd.
Proof.
  intros Hs ([s1 p1] & l & Hr & Hl & Hm). cbn in *.
  assert (Hp : (s1, p1) = (s, LoopTest) \/ p1 = Outside).
  { inversion Hr as [|? [s2 p2] ? [l' Hm'] Hr']; subst; [by left|right]. cbn in *.
    inversion Hm'; subst; [|congruence].
    inversion Hr' as [|? ? ? [l'' Hx] _]; subst; [done|]. inversion Hx. }
  destruct Hp as [[= -> ->]| ->]; [|by inversion Hl].
  inversion Hl; subst. destruct r; congruence.
Qed.

(** Such a call begins after the stop; for one that had begun before it, and may
    still give an event or throw, see [SourceSteps]. *)
#[export] Instance live_laws `{JsonOps} ok : SourceLaws LiveSource ok.
Proof.
  split. intros s. pose proof (stop_flag s) as Hf. split; cbn.
  - exists NextEnd, (stop s), (stop s, LoopTest), GaveFalse.
    split; [apply rtc_refl|]. split; [by constructor|done].
  - intros x s' Hn. by apply live_next_stopped in Hn.
  - intros e s' Hn. by apply live_next_stopped in Hn.
  - intros e s' Hn. by apply live_next_stopped in Hn.
Qed.

(** ** A run *)

Definition live_trace : list label :=
  [Called; Tau; Reconnecting; Tau; Tau; Tau; Slept 1000; Tau; Tau; Tau; Connection; Tau;
   Message kValidTrade 7; GaveEvent (set_source live_source_name (set_ingest_time 7 kValidEvent));
   StopFlag; StopClosed; Called; GaveFalse].

(** Connected once, one message, stopped. *)
Definition live_end : LiveSource :=
  {| config_ := default_config; stop_requested_ := true; connected_ := true;
     messages_received_ := 1; messages_malformed_ := 0; reconnects_ := 0;
     had_connected_once_ := true; ws_ := Some false |}.

Abbreviation live_exec := (@exec tree_ops).

Lemma judge_valid : @judge tree_ops kValidTrade 7 =
  Good (set_source live_source_name (set_ingest_time 7 kValidEvent)).
Proof. vm_compute. reflexivity. Qed.

Tactic Notation "live_by" hyp(E) uconstr(rule) :=
  eapply exec_step in E; [|eapply live_reader, rule; reflexivity].
Tactic Notation "live_on" hyp(E) uconstr(rule) :=
  eapply exec_step in E; [|eapply live_reader, rule].

Lemma live_exec_end : live_exec default_config live_trace (Live live_end Outside 0).
Proof.
  pose proof (@exec_init tree_ops default_config) as E.
  eapply exec_step in E; [|apply live_call].
  live_by E loop_go. live_by E no_connection. live_by E retry_go.
  live_on E connect_throw. live_by E failed_sleep. live_on E slept. live_by E retry_go.
  live_on E connect_done. live_by E connect_publish. live_on E connected_once.
  live_by E take_stream. live_on E (read_message _ kValidTrade 7).
  eapply exec_step in E; [|eapply live_reader, parse_good, judge_valid].
  eapply exec_step in E; [|apply live_stop_flag].
  eapply exec_step in E; [|apply live_stop_close].
  eapply exec_step in E; [|apply live_call].
  live_by E loop_stop. exact E.
Qed.

(** Stopped in a read that no message ends. *)
Definition live_told_reading : LiveSource :=
  {| config_ := default_config; stop_requested_ := true; connected_ := true;
     messages_received_ := 0; messages_malformed_ := 0; reconnects_ := 0;
     had_connected_once_ := true; ws_ := Some false |}.

Lemma live_exec_told_reading : live_exec default_config
  [Called; Tau; Reconnecting; Tau; Tau; Tau; Connection; Tau; StopFlag; StopClosed]
  (Live live_told_reading Reading 0).
Proof.
  pose proof (@exec_init tree_ops default_config) as E.
  eapply exec_step in E; [|apply live_call].
  live_by E loop_go. live_by E no_connection. live_by E retry_go.
  live_on E connect_done. live_by E connect_publish. live_on E connected_once. live_by E take_stream.
  eapply exec_step in E; [|apply live_stop_flag].
  eapply exec_step in E; [|apply live_stop_close].
  exact E.
Qed.

(** ** Properties *)

(** [next] returns false only because of a stop.  However often the
    connection is refused, lost or garbled, a false from [next] is preceded by
    a call of [stop()]. *)
Theorem live_false_only_after_stop `{JsonOps} config tr (c : live)
  (He : exec config tr c) (Hf : GaveFalse ∈ tr) : StopFlag ∈ tr.
Proof. apply live_inv_exec in He. exact (inv_false _ _ _ He Hf). Qed.

Lemma live_false_only_after_stop_witness : StopFlag ∈ live_trace.
Proof.
  apply (@live_false_only_after_stop tree_ops default_config live_trace _ live_exec_end).
  unfold live_trace. repeat (apply elem_of_cons; first [left; reflexivity|right]).
Defined.

(** C18: no stop is lost.  Whenever the stop flag is set and every call of
    [stop()] has come back, the published stream's socket is closed (or there
    is none): a read that began before the stop is interrupted, and a
    connection that was being made while [stop()] ran is discarded instead of
    being published behind its back. *)
Theorem live_no_lost_stop `{JsonOps} config tr (c : live) (He : exec config tr c)
  (Hf : stop_requested_ (src c) = true) (Hn : stoppers c = 0) :
  ws_ (src c) <> Some true.
Proof. apply live_inv_exec in He. exact (inv_closed _ _ _ He Hf Hn). Qed.

Lemma live_no_lost_stop_witness : ws_ live_end <> Some true.
Proof.
  exact (@live_no_lost_stop tree_ops default_config live_trace _ live_exec_end
           eq_refl eq_refl).
Defined.

(** C37: after a stop, [next] returns.  Once [stop()] has set the flag (and
    [start] is not called), the thread in [next] makes at most finitely many steps,
    network and sleeps included, and at most one more event is given in all the
    calls of [next] that follow.  When [stop()] has come back, the thread comes out
    of [next] without the network's help: it waits neither for a message nor for an
    end of the connection, and where it can make no step by itself it is outside
    [next], or still inside the resolving, connecting and handshaking of a
    connection attempt, which nothing interrupts. *)
Theorem live_stop_ends_next `{JsonOps} config tr1 tr2 (c : live)
  (He : exec config (tr1 ++ StopFlag :: tr2) c) (Hn : StartCalled ∉ tr2) :
  sn reader_moves (src c, reader c) /\
  count is_event tr2 <= 1 /\
  (stoppers c = 0 -> forall s p, rtc reader_moves (src c, reader c) (s, p) ->
     nf reader_own_moves (s, p) -> p = Outside \/ connecting p = true).
Proof.
  destruct (after_stop config tr1 tr2 c He Hn) as [Hs Hc]. split_and!; [|lia|].
  - apply (measure_sn _ (fun a => stop_requested_ a.1 = true) (fun a => stop_rank a.2)); [done|].
    intros [s p] [s' p'] Ha [l Hr]. by apply (reader_stop_rank s p l s' p').
  - intros Hk s p Hr Hnf. apply live_inv_exec in He.
    assert (Hsh : shut_down (s, p).1).
    { apply (rtc_invariant reader_moves (fun a => shut_down a.1) (src c, reader c)); [..|exact Hr].
      - split; [exact Hs|exact (inv_closed _ _ _ He Hs Hk)].
      - intros [s1 p1] [s2 p2] Hs1 [l Hl]. by eapply shut_step. }
    destruct (decide (p = Outside)) as [|Hp]; [by left|right]. apply (shut_waits s p Hsh).
    destruct (waits s p) eqn:Hw; [done|exfalso].
    destruct (reader_goes_on s p Hp) as (l & s' & p' & Hl). apply Hnf.
    exists (s', p'). split; [exact Hw|]. exists l. exact Hl.
Qed.

Lemma live_stop_ends_next_witness :
  sn (@reader_moves tree_ops) (live_told_reading, Reading) /\
  forall s p, rtc (@reader_moves tree_ops) (live_told_reading, Reading) (s, p) ->
    nf (@reader_own_moves tree_ops) (s, p) -> p = Outside \/ connecting p = true.
Proof.
  destruct (@live_stop_ends_next tree_ops default_config
    [Called; Tau; Reconnecting; Tau; Tau; Tau; Connection; Tau] [StopClosed] _ live_exec_told_reading)
    as (Hs & _ & Hr).
  - rewrite not_elem_of_cons. split; [discriminate|apply not_elem_of_nil].
  - split; [exact Hs|exact (Hr eq_refl)].
Defined.

(** C19: what comes out is what came in.  The events given so far are, in
    order, the trades parsed from the messages received so far, each stamped
    with its receipt time and the name of the source; every message received is
    accounted for as an event, a malformed message, an exception, or the one
    being parsed, and the counters say so, modulo 2^64. *)
Theorem live_events_exact `{JsonOps} config tr (c : live) (He : exec config tr c) :
  (exists judged, messages tr = judged ++ pending (reader c) /\ given tr = omap good judged) /\
  count is_message tr =
    count is_event tr + count is_malformed tr + count is_throw tr + length (pending (reader c)) /\
  messagesReceived (src c) = wrap_u64 (Z.of_nat (count is_message tr)) /\
  messagesMalformed (src c) = wrap_u64 (Z.of_nat (count is_malformed tr)) /\
  reconnectCount (src c) = wrap_u64 (Z.of_nat (count is_connection tr - 1)).
Proof.
  apply live_inv_exec in He. destruct He as [_ _ _ _ Hr Hm Hs Hg Hc _]. split_and!; try done.
  unfold reconnectCount. destruct (had_connected_once_ (src c)); destruct Hc as [Hc ->]; [f_equal; lia|].
  by rewrite Hc.
Qed.

Lemma live_events_exact_witness :
  messagesReceived live_end = wrap_u64 (Z.of_nat (count is_message live_trace)).
Proof.
  apply (@live_events_exact tree_ops default_config live_trace _ live_exec_end).
Defined.

(** The backoff schedule.  While a connection cannot be had, the k-th sleep
    (from 0) since [ensureConnected] began is of [initial * 2^k] milliseconds,
    at most the configured maximum; the schedule starts afresh after every
    connection; and nothing overflows, for any sensible configuration. *)
Theorem live_backoff_schedule `{JsonOps} config tr1 b tr2 (c : live)
  (He : exec config (tr1 ++ Slept b :: tr2) c)
  (Hb : (0 < initial_backoff config <= max_backoff config)%Z)
  (Hm : in_i64 (max_backoff config * 2)) :
  b = Z.min (initial_backoff config * 2 ^ Z.of_nat (sleeps_since tr1)) (max_backoff config) /\
  (initial_backoff config <= b <= max_backoff config)%Z.
Proof.
  assert (Hs : exists c0 c1, exec config tr1 c0 /\ live_step c0 (Slept b) c1).
  { revert c He. induction tr2 as [|l tr2 IH] using rev_ind; intros c He.
    - apply exec_snoc_inv in He as (c0 & ? & ?). eauto.
    - rewrite app_comm_cons, app_assoc in He. apply exec_snoc_inv in He as (c0 & He & _). eauto. }
  destruct Hs as (c0 & c1 & He0 & Hs). apply live_inv_exec in He0.
  assert (Hk : b = backoff_after config (sleeps_since tr1)).
  { apply (inv_backoff _ _ _ He0). inversion Hs; subst.
    match goal with Hr : reader_step _ _ _ _ _ |- _ => by inversion Hr end. }
  rewrite backoff_closed in Hk by done. split; [done|].
  assert (0 < 2 ^ Z.of_nat (sleeps_since tr1))%Z by (apply Z.pow_pos_nonneg; lia).
  nia.
Qed.

Lemma live_backoff_schedule_witness :
  1000%Z = Z.min (initial_backoff default_config * 2 ^ Z.of_nat 0) (max_backoff default_config).
Proof.
  destruct (@live_backoff_schedule tree_ops default_config
    [Called; Tau; Reconnecting; Tau; Tau; Tau] 1000
    [Tau; Tau; Tau; Connection; Tau; Message kValidTrade 7;
     GaveEvent (set_source live_source_name (set_ingest_time 7 kValidEvent));
     StopFlag; StopClosed; Called; GaveFalse] _ live_exec_end) as [Hb _].
  - cbn. lia.
  - vm_compute. split; discriminate.
  - exact Hb.
Defined.
