(* ===== verification/Kafka.v ===== *)
(** * The Kafka producer and consumer

    src/kafka_event_producer.cpp and src/kafka_event_consumer.cpp, over what
    they use of librdkafka ([Librdkafka], a parameter), and the consume loop of
    services/consumer/main.cpp.  A librdkafka handle is a state that its calls
    transform; what brokers do is in the state's hands. *)
From S2P Require Import Prelude CxxStrings MarketEvent Json JsonTree MarketEventJson Interfaces.

(** ** librdkafka *)

(** An error is its text ([errstr], or [rd_kafka_err2str]'s); a delivery report is the error
    it carries, or none. *)
Class Librdkafka (K : Type) := {
  kafka_conf_set : string -> string -> option string;
  kafka_new : list (string * string) -> string + K;
  kafka_producev : K -> string -> string -> string -> option string * K;
  kafka_poll : K -> list (option string) * K;
  kafka_flush : K -> Z -> list (option string) * K;
  kafka_subscribe : K -> string -> option string;
  kafka_consumer_close : K -> K;
  kafka_destroy : K -> K
}.

(** Its documentation: a message is accepted or refused, at once, and an
    accepted one is reported exactly once, by some later [rd_kafka_poll] or
    [rd_kafka_flush].  [outbox] is what was ever accepted, so destroying the
    handle adds nothing to it. *)
Class KafkaLaws (K : Type) `{Librdkafka K} := {
  outbox : K -> list (string * string * string);
  reported : K -> nat;
  new_outbox : forall conf k, kafka_new conf = inr k -> outbox k = [] /\ reported k = 0;
  producev_ok : forall k topic key payload k',
    kafka_producev k topic key payload = (None, k') ->
    outbox k' = outbox k ++ [(topic, key, payload)] /\ reported k' = reported k;
  producev_err : forall k topic key payload e k',
    kafka_producev k topic key payload = (Some e, k') ->
    outbox k' = outbox k /\ reported k' = reported k;
  poll_reports : forall k rs k', kafka_poll k = (rs, k') -> reported k <= length (outbox k) ->
    outbox k' = outbox k /\ reported k' = reported k + length rs /\
    reported k' <= length (outbox k');
  flush_reports : forall k t rs k', kafka_flush k t = (rs, k') -> reported k <= length (outbox k) ->
    outbox k' = outbox k /\ reported k' = reported k + length rs /\
    reported k' <= length (outbox k');
  destroy_outbox : forall k, outbox (kafka_destroy k) = outbox k
}.

(** ** The producer *)
Record KafkaProducerConfig := { brokers : string; topic : string }.

Record KafkaEventProducer (K : Type) := {
  pconfig_ : KafkaProducerConfig;
  producer_ : K;
  delivery_successes_ : Z;
  delivery_failures_ : Z
}.
Arguments pconfig_ {K} _.
Arguments producer_ {K} _.
Arguments delivery_successes_ {K} _.
Arguments delivery_failures_ {K} _.

Definition deliverySuccessCount {K} (p : KafkaEventProducer K) : Z := delivery_successes_ p.
Definition deliveryFailureCount {K} (p : KafkaEventProducer K) : Z := delivery_failures_ p.

Section Producer.
Context `{JsonOps} `{Librdkafka K}.
Implicit Types (p : KafkaEventProducer K).

Definition KafkaEventProducer_new (config : KafkaProducerConfig)
    : outcome (KafkaEventProducer K) :=
  match kafka_conf_set "bootstrap.servers" (brokers config) with
  | Some errstr => Throw (RuntimeError ("KafkaEventProducer: " +:+ errstr))
  | None =>
      match kafka_new [("bootstrap.servers"%string, brokers config)] with
      | inl errstr =>
          Throw (RuntimeError ("KafkaEventProducer: failed to create producer: " +:+ errstr))
      | inr k => Ok {| pconfig_ := config; producer_ := k;
                      delivery_successes_ := 0; delivery_failures_ := 0 |}
      end
  end.

Definition with_producer (k : K) p : KafkaEventProducer K :=
  {| pconfig_ := pconfig_ p; producer_ := k; delivery_successes_ := delivery_successes_ p;
     delivery_failures_ := delivery_failures_ p |}.

Definition deliveryReportTrampoline p (err : option string) : KafkaEventProducer K :=
  match err with
  | Some _ =>
      {| pconfig_ := pconfig_ p; producer_ := producer_ p;
         delivery_successes_ := delivery_successes_ p;
         delivery_failures_ := wrap_u64 (delivery_failures_ p + 1) |}
  | None =>
      {| pconfig_ := pconfig_ p; producer_ := producer_ p;
         delivery_successes_ := wrap_u64 (delivery_successes_ p + 1);
         delivery_failures_ := delivery_failures_ p |}
  end.

Definition publish_event p (event : MarketEvent) : outcome (bool * KafkaEventProducer K) :=
  payload ← event_line event;
  let '(err, k) := kafka_producev (producer_ p) (topic (pconfig_ p)) (symbol event) payload in
  let '(reports, k) := kafka_poll k in
  let p := fold_left deliveryReportTrampoline reports (with_producer k p) in
  Ok (match err with Some _ => false | None => true end, p).

Definition flush_producer (timeout_ms : Z) p : KafkaEventProducer K :=
  let '(reports, k) := kafka_flush (producer_ p) timeout_ms in
  fold_left deliveryReportTrampoline reports (with_producer k p).

(** The destructor; the constructor leaves no null [producer_]. *)
Definition KafkaEventProducer_destroy p : KafkaEventProducer K :=
  let p := flush_producer 10000 p in with_producer (kafka_destroy (producer_ p)) p.

(** [publish] for each event in turn, with what it returned. *)
Fixpoint publish_all p (events : list MarketEvent)
    : outcome (list bool * KafkaEventProducer K) :=
  match events with
  | [] => Ok ([], p)
  | e :: events =>
      '(b, p) ← publish_event p e; '(bs, p) ← publish_all p events; Ok (b :: bs, p)
  end.
End Producer.

(** ** The consumer *)
Record KafkaConsumerConfig := {
  cbrokers : string;
  ctopic : string;
  group_id : string;
  auto_offset_reset : string
}.

Record ConsumedRecord := { event : MarketEvent; partition : Z; offset : Z }.

(** What [rd_kafka_consumer_poll] comes back with. *)
Inductive poll_result :=
  | PollNothing
  | PollError (what : string)
  | PollMessage (payload : string) (partition offset : Z).

Record KafkaEventConsumer (K : Type) := {
  cconfig_ : KafkaConsumerConfig;
  consumer_ : K;
  stop_requested_ : bool;
  messages_consumed_ : Z;
  messages_malformed_ : Z
}.
Arguments cconfig_ {K} _.
Arguments consumer_ {K} _.
Arguments stop_requested_ {K} _.
Arguments messages_consumed_ {K} _.
Arguments messages_malformed_ {K} _.

Definition messagesConsumed {K} (c : KafkaEventConsumer K) : Z := messages_consumed_ c.
Definition messagesMalformed {K} (c : KafkaEventConsumer K) : Z := messages_malformed_ c.

Section Consumer.
Context `{JsonOps} `{Librdkafka K}.
Implicit Types (c : KafkaEventConsumer K).

Definition setConfOrThrow (key value : string) : outcome (string * string) :=
  match kafka_conf_set key value with
  | Some errstr => Throw (RuntimeError ("KafkaEventConsumer: " +:+ errstr))
  | None => Ok (key, value)
  end.

Definition KafkaEventConsumer_new (config : KafkaConsumerConfig)
    : outcome (KafkaEventConsumer K) :=
  servers ← setConfOrThrow "bootstrap.servers" (cbrokers config);
  group ← setConfOrThrow "group.id" (group_id config);
  reset ← setConfOrThrow "auto.offset.reset" (auto_offset_reset config);
  match kafka_new [servers; group; reset] with
  | inl errstr =>
      Throw (RuntimeError ("KafkaEventConsumer: failed to create consumer: " +:+ errstr))
  | inr k => Ok {| cconfig_ := config; consumer_ := k; stop_requested_ := false;
                  messages_consumed_ := 0; messages_malformed_ := 0 |}
  end.

Definition consumer_start c : outcome unit :=
  match kafka_subscribe (consumer_ c) (ctopic (cconfig_ c)) with
  | Some err => Throw (RuntimeError ("KafkaEventConsumer: subscribe failed: " +:+ err))
  | None => Ok tt
  end.

Definition consumer_stop c : KafkaEventConsumer K :=
  {| cconfig_ := cconfig_ c; consumer_ := consumer_ c; stop_requested_ := true;
     messages_consumed_ := messages_consumed_ c; messages_malformed_ := messages_malformed_ c |}.
(** The destructor. *)
Definition KafkaEventConsumer_destroy c : KafkaEventConsumer K :=
  let c := consumer_stop c in
  {| cconfig_ := cconfig_ c; consumer_ := kafka_destroy (kafka_consumer_close (consumer_ c));
     stop_requested_ := stop_requested_ c; messages_consumed_ := messages_consumed_ c;
     messages_malformed_ := messages_malformed_ c |}.

Definition count_consumed c : KafkaEventConsumer K :=
  {| cconfig_ := cconfig_ c; consumer_ := consumer_ c; stop_requested_ := stop_requested_ c;
     messages_consumed_ := wrap_u64 (messages_consumed_ c + 1);
     messages_malformed_ := messages_malformed_ c |}.
Definition count_malformed c : KafkaEventConsumer K :=
  {| cconfig_ := cconfig_ c; consumer_ := consumer_ c; stop_requested_ := stop_requested_ c;
     messages_consumed_ := messages_consumed_ c;
     messages_malformed_ := wrap_u64 (messages_malformed_ c + 1) |}.

(** [next], for the results the polls will have; [stops i] says whether
    [stop()] has been called by the i-th test of the flag.  [None]: it is
    still polling when the results given run out. *)
Fixpoint consumer_next (stops : nat -> bool) (now : Z) (polls : list poll_result) c
    (out : ConsumedRecord)
    : option (outcome (bool * KafkaEventConsumer K * ConsumedRecord) * list poll_result) :=
  let c := if stops 0 then consumer_stop c else c in
  if stop_requested_ c then Some (Ok (false, c, out), polls) else
  match polls with
  | [] => None
  | msg :: polls =>
      let again := consumer_next (fun i => stops (S i)) now polls in
      match msg with
      | PollNothing | PollError _ => again c out
      | PollMessage payload part off =>
          match json_parse payload with
          | Throw (ParseError _) => again (count_malformed c) out
          | Throw x => Some (Throw x, polls)
          | Ok parsed =>
              match marketEventFromJson parsed None with
              | Throw x => Some (Throw x, polls)
              | Ok (None, _) => again (count_malformed c) out
              | Ok (Some e, _) =>
                  Some (Ok (true, count_consumed c,
                            {| event := set_ingest_time now e; partition := part;
                               offset := off |}), polls)
              end
          end
      end
  end.

(** [++per_partition_counts[partition]]. *)
Definition bump (counts : gmap Z Z) (part : Z) : gmap Z Z :=
  <[part := wrap_u64 (default 0%Z (counts !! part) + 1)]> counts.

(** What the sampled line says of a record. *)
Definition sample_line (r : ConsumedRecord) : Z * Z * string * double :=
  (partition r, offset r, symbol (event r), price (event r)).

(** The consume loop: [total] and [per_partition_counts] are main's locals,
    [lines] what was printed.  [clock k] and [stops k] are the clock and the
    stop for the k-th call. *)
Fixpoint consume_loop (fuel : nat) (stops : nat -> nat -> bool) (clock : nat -> Z)
    (polls : list poll_result) c (record : ConsumedRecord) (total : Z) (counts : gmap Z Z)
    (lines : list (Z * Z * string * double))
    : option (outcome (KafkaEventConsumer K * Z * gmap Z Z * list (Z * Z * string * double))) :=
  match fuel with
  | 0 => None
  | S fuel =>
      match consumer_next (stops 0) (clock 0) polls c record with
      | None => None
      | Some (Throw x, _) => Some (Throw x)
      | Some (Ok (false, c, _), _) => Some (Ok (c, total, counts, lines))
      | Some (Ok (true, c, record), polls) =>
          let total := wrap_u64 (total + 1) in
          let counts := bump counts (partition record) in
          let lines := if bool_decide (total mod 20 = 1)%Z then lines ++ [sample_line record]
                       else lines in
          consume_loop fuel (fun k => stops (S k)) (fun k => clock (S k)) polls c record
            total counts lines
      end
  end.
End Consumer.

(** ** Lemmas: the producer *)
Section ProducerLemmas.
Context `{JsonOps} `{KafkaLaws K}.
Implicit Types (p : KafkaEventProducer K).

(** The reports received are counted, and belong to messages accepted. *)
Definition producer_ok p : Prop :=
  reported (producer_ p) <= length (outbox (producer_ p)) /\
  wrap_u64 (delivery_successes_ p + delivery_failures_ p) =
    wrap_u64 (Z.of_nat (reported (producer_ p))).

Lemma trampoline_fold reports : forall p n,
  wrap_u64 (delivery_successes_ p + delivery_failures_ p) = wrap_u64 (Z.of_nat n) ->
  let p' := fold_left deliveryReportTrampoline reports p in
  pconfig_ p' = pconfig_ p /\ producer_ p' = producer_ p /\
  wrap_u64 (delivery_successes_ p' + delivery_failures_ p') =
    wrap_u64 (Z.of_nat (n + length reports)).
Proof.
  induction reports as [|r reports IH]; intros p n Hn; cbn.
  - by rewrite Nat.add_0_r.
  - destruct (IH (deliveryReportTrampoline p r) (S n)) as (Hc & Hk & Hs).
    { rewrite Nat2Z.inj_succ, <-Z.add_1_r, <-(wrap_u64_add_congr _ _ 1 Hn).
      destruct r; cbn; [rewrite Z.add_comm|]; rewrite wrap_u64_add_l; f_equal; lia. }
    split; [rewrite Hc; by destruct r|]. split; [rewrite Hk; by destruct r|].
    rewrite Hs. do 2 f_equal. lia.
Qed.

Lemma serve_reports p k rs k' :
  producer_ok (with_producer k p) ->
  outbox k' = outbox k -> reported k' = reported k + length rs ->
  reported k' <= length (outbox k') ->
  let p' := fold_left deliveryReportTrampoline rs (with_producer k' p) in
  producer_ok p' /\ pconfig_ p' = pconfig_ p /\ outbox (producer_ p') = outbox k.
Proof.
  intros [_ Hn] Ho Hr Hle. cbn in Hn.
  destruct (trampoline_fold rs (with_producer k' p) (reported k) Hn) as (Hc & Hk & Hs).
  cbn in Hk. unfold producer_ok. cbn. rewrite Hk, Hs, Hr. split_and!; try done.
  by rewrite <-Hr.
Qed.

Lemma publish_event_spec p e l :
  producer_ok p -> event_line e = Ok l ->
  exists b p', publish_event p e = Ok (b, p') /\ producer_ok p' /\ pconfig_ p' = pconfig_ p /\
    outbox (producer_ p') =
      outbox (producer_ p) ++ (if b then [(topic (pconfig_ p), symbol e, l)] else []).
Proof.
  intros [Hle Hn] Hl. unfold publish_event. rewrite Hl. cbn.
  destruct (kafka_producev (producer_ p) (topic (pconfig_ p)) (symbol e) l) as [err k1] eqn:E1.
  destruct (kafka_poll k1) as [rs k2] eqn:E2.
  assert (H1' : outbox k1 = outbox (producer_ p) ++
      (match err with None => [(topic (pconfig_ p), symbol e, l)] | Some _ => [] end) /\
    reported k1 = reported (producer_ p)).
  { destruct err; [apply producev_err in E1|apply producev_ok in E1];
      destruct E1 as [-> ->]; by rewrite ?app_nil_r. }
  destruct H1' as [Ho1 Hr1].
  destruct (poll_reports k1 rs k2 E2) as (Ho2 & Hr2 & Hle2);
    [rewrite Ho1, Hr1, length_app; lia|].
  destruct (serve_reports p k1 rs k2) as (Hok & Hc & Ho); try done.
  { split; cbn; [rewrite Ho1, Hr1, length_app; lia|by rewrite Hr1]. }
  exists (match err with Some _ => false | None => true end).
  eexists. split; [reflexivity|]. split_and!; [done..|]. rewrite Ho, Ho1. by destruct err.
Qed.

Lemma flush_producer_spec t p :
  producer_ok p -> let p' := flush_producer t p in
  producer_ok p' /\ pconfig_ p' = pconfig_ p /\ outbox (producer_ p') = outbox (producer_ p).
Proof.
  intros [Hle Hn]. unfold flush_producer.
  destruct (kafka_flush (producer_ p) t) as [rs k'] eqn:E.
  destruct (flush_reports _ _ _ _ E Hle) as (Ho & Hr & Hle').
  by apply (serve_reports p (producer_ p) rs k').
Qed.

(** The messages for the events whose [publish] returned true. *)
Definition message_of (t : string) (eb : MarketEvent * bool)
    : option (string * string * string) :=
  if eb.2 then
    match event_line eb.1 with Ok l => Some (t, symbol eb.1, l) | Throw _ => None end
  else None.
Definition sent (t : string) (es : list MarketEvent) (bs : list bool)
    : list (string * string * string) := omap (message_of t) (zip es bs).

Lemma sent_cons t e l es b bs :
  event_line e = Ok l ->
  sent t (e :: es) (b :: bs) = (if b then [(t, symbol e, l)] else []) ++ sent t es bs.
Proof. intros Hl. unfold sent, message_of. cbn. rewrite Hl. by destruct b. Qed.

Lemma publish_all_spec es : forall p,
  producer_ok p -> Forall (fun e => exists l, event_line e = Ok l) es ->
  exists bs p', publish_all p es = Ok (bs, p') /\ length bs = length es /\
    producer_ok p' /\ pconfig_ p' = pconfig_ p /\
    outbox (producer_ p') = outbox (producer_ p) ++ sent (topic (pconfig_ p)) es bs.
Proof.
  induction es as [|e es IH]; intros p Hok Hes.
  - exists [], p. by rewrite app_nil_r.
  - apply Forall_cons in Hes as [[l Hl] Hes].
    destruct (publish_event_spec p e l Hok Hl) as (b & p1 & Hp & Hok1 & Hc1 & Ho1).
    destruct (IH p1 Hok1 Hes) as (bs & p2 & Hall & Hlen & Hok2 & Hc2 & Ho2).
    exists (b :: bs), p2. cbn [publish_all]. rewrite Hp. cbn -[sent]. rewrite Hall. cbn -[sent].
    split; [done|]. split; [by rewrite Hlen|]. split; [done|]. split; [congruence|].
    by rewrite Ho2, Ho1, Hc1, <-app_assoc, (sent_cons _ _ _ _ _ _ Hl).
Qed.

Lemma new_producer_ok config p :
  KafkaEventProducer_new config = Ok p ->
  producer_ok p /\ pconfig_ p = config /\ outbox (producer_ p) = [].
Proof.
  unfold KafkaEventProducer_new. destruct (kafka_conf_set _ _); [done|].
  destruct (kafka_new _) as [err|k] eqn:Hk; [done|]. intros [= <-].
  apply new_outbox in Hk as [Ho Hr]. unfold producer_ok. cbn. by rewrite Ho, Hr.
Qed.

Lemma sent_length t es : forall bs,
  length bs = length es -> Forall (fun e => exists l, event_line e = Ok l) es ->
  length (sent t es bs) = count (fun b => b) bs.
Proof.
  induction es as [|e es IH]; intros [|b bs] Hlen Hes; try done.
  apply Forall_cons in Hes as [[l Hl] Hes]. specialize (IH bs ltac:(by injection Hlen) Hes).
  rewrite (sent_cons _ _ _ _ _ _ Hl), length_app, IH. by destruct b.
Qed.
End ProducerLemmas.

(** ** Lemmas: the consumer *)
Section ConsumerLemmas.
Context `{JsonLaws} `{Librdkafka K}.
Implicit Types (c : KafkaEventConsumer K).

(** What a poll result holds. *)
Definition record_of (m : poll_result) : option ConsumedRecord :=
  match m with
  | PollMessage payload part off =>
      match json_parse payload with
      | Ok j => match (read_event j None).1 with
                | Some e => Some {| event := e; partition := part; offset := off |}
                | None => None
                end
      | Throw _ => None
      end
  | _ => None
  end.
Definition is_malformed (m : poll_result) : bool :=
  match m with
  | PollMessage payload _ _ =>
      match json_parse payload with
      | Ok j => match (read_event j None).1 with Some _ => false | None => true end
      | Throw (ParseError _) => true
      | Throw _ => false
      end
  | _ => false
  end.
Definition stamp_record (now : Z) (r : ConsumedRecord) : ConsumedRecord :=
  {| event := set_ingest_time now (event r); partition := partition r; offset := offset r |}.

Lemma consumer_next_spec polls : forall stops now c out b c' out' rest,
  consumer_next stops now polls c out = Some (Ok (b, c', out'), rest) ->
  exists read, polls = read ++ rest /\
    wrap_u64 (messages_malformed_ c') =
      wrap_u64 (messages_malformed_ c + Z.of_nat (count is_malformed read)) /\
    wrap_u64 (messages_consumed_ c') =
      wrap_u64 (messages_consumed_ c + Z.of_nat (length (omap record_of read))) /\
    if b then exists r, omap record_of read = [r] /\ out' = stamp_record now r
    else omap record_of read = [] /\ stop_requested_ c' = true /\ out' = out.
Proof.
  induction polls as [|m polls IH]; intros stops now c out b c' out' rest; cbn [consumer_next];
    set (c0 := if stops 0 then consumer_stop c else c);
    assert (Hm : messages_malformed_ c0 = messages_malformed_ c) by (unfold c0; by destruct (stops 0));
    assert (Hk : messages_consumed_ c0 = messages_consumed_ c) by (unfold c0; by destruct (stops 0));
    (destruct (stop_requested_ c0) eqn:Hs;
      [intros [= <- <- <- <-]; exists []; cbn; by rewrite Hm, Hk, !Z.add_0_r|]); [done|].
  assert (Hskip : forall c1, messages_malformed_ c1 =
      (if is_malformed m then wrap_u64 (messages_malformed_ c + 1) else messages_malformed_ c) ->
    messages_consumed_ c1 = messages_consumed_ c -> record_of m = None ->
    consumer_next (fun i => stops (S i)) now polls c1 out = Some (Ok (b, c', out'), rest) ->
    exists read, m :: polls = read ++ rest /\
      wrap_u64 (messages_malformed_ c') =
        wrap_u64 (messages_malformed_ c + Z.of_nat (count is_malformed read)) /\
      wrap_u64 (messages_consumed_ c') =
        wrap_u64 (messages_consumed_ c + Z.of_nat (length (omap record_of read))) /\
      if b then exists r, omap record_of read = [r] /\ out' = stamp_record now r
      else omap record_of read = [] /\ stop_requested_ c' = true /\ out' = out).
  { intros c1 Hm1 Hk1 Hr Hn. apply IH in Hn as (read & -> & Hmal & Hcon & Hb).
    exists (m :: read). cbn. rewrite Hr. split; [done|]. rewrite Hmal, Hcon, Hm1, Hk1.
    split_and!; [|done..]. destruct (is_malformed m); [|f_equal; lia].
    rewrite wrap_u64_add_l. f_equal. lia. }
  destruct m as [|what|payload part off].
  - by apply Hskip.
  - by apply Hskip.
  - destruct (json_parse payload) as [j|x] eqn:Hj.
    + rewrite fromJson_read. destruct (read_event j None) as [[e|] eo] eqn:He.
      * intros [= <- <- <- <-]. exists [PollMessage payload part off]. cbn.
        rewrite Hj, He. cbn. split; [done|]. rewrite Hm, Hk.
        split; [by rewrite Z.add_0_r|]. split; [by rewrite wrap_u64_idem|].
        by eexists.
      * apply Hskip; cbn; rewrite ?Hj, ?He; cbn; by rewrite ?Hm, ?Hk.
    + destruct x; try done. apply Hskip; cbn; rewrite ?Hj; cbn; by rewrite ?Hm, ?Hk.
Qed.

(** The records of a partition. *)
Definition of_partition (part : Z) (r : ConsumedRecord) : bool :=
  bool_decide (partition r = part).

Lemma bump_lookup counts part part' :
  default 0%Z (bump counts part !! part') =
  if bool_decide (part = part') then wrap_u64 (default 0%Z (counts !! part') + 1)
  else default 0%Z (counts !! part').
Proof.
  unfold bump. case_bool_decide as Hp; [subst; by rewrite lookup_insert_eq|].
  by rewrite lookup_insert_ne.
Qed.

Lemma consume_loop_spec fuel : forall stops clock polls c record total counts lines
    c' total' counts' lines',
  consume_loop fuel stops clock polls c record total counts lines =
    Some (Ok (c', total', counts', lines')) ->
  exists read rest, polls = read ++ rest /\ stop_requested_ c' = true /\
    (lines' = lines ++ (sample_line <$> sampled total (omap record_of read)) /\
     counts' = foldl bump counts (partition <$> omap record_of read) /\
     (in_u64 total -> in_u64 total')) /\
    wrap_u64 total' = wrap_u64 (total + Z.of_nat (length (omap record_of read))) /\
    (forall part, wrap_u64 (default 0%Z (counts' !! part)) =
       wrap_u64 (default 0%Z (counts !! part) +
                 Z.of_nat (count (of_partition part) (omap record_of read)))) /\
    wrap_u64 (messages_consumed_ c') =
      wrap_u64 (messages_consumed_ c + Z.of_nat (length (omap record_of read))) /\
    wrap_u64 (messages_malformed_ c') =
      wrap_u64 (messages_malformed_ c + Z.of_nat (count is_malformed read)).
Proof.
  induction fuel as [|fuel IH];
    intros stops clock polls c record total counts lines c' total' counts' lines'; [done|].
  cbn [consume_loop].
  destruct (consumer_next (stops 0) (clock 0) polls c record) as [[[[[b c1] r1]|x] rest1]|] eqn:Hn;
    try done.
  apply consumer_next_spec in Hn as (read1 & -> & Hm1 & Hc1 & Hb). destruct b.
  - intros Hl. apply IH in Hl as (read & rest & -> & Hs & (Hlines & Hcounts & Hrange) & Ht & Hp & Hc & Hm).
    destruct Hb as (r & Hr & ->). exists (read1 ++ read), rest.
    rewrite omap_app, Hr in *. cbn [app length] in *. rewrite app_assoc.
    split; [done|]. split; [done|]. split_and!.
    + rewrite Hlines. cbn [sampled]. by case_bool_decide; rewrite <-?app_assoc.
    + by rewrite Hcounts.
    + intros _. apply Hrange, wrap_u64_range.
    + rewrite Ht, wrap_u64_add_l. f_equal. lia.
    + intros part. clear Hlines Hcounts. rewrite Hp, bump_lookup. cbn. unfold of_partition at 2.
      cbn [partition stamp_record]. case_bool_decide; [|done].
      rewrite wrap_u64_add_l. f_equal. lia.
    + rewrite Hc, (wrap_u64_add_congr _ _ _ Hc1). f_equal. lia.
    + rewrite Hm, (wrap_u64_add_congr _ _ _ Hm1), count_app. f_equal. lia.
  - intros [= <- <- <- <-]. destruct Hb as (Hr & Hs & _). exists read1, rest1.
    rewrite Hr in *. cbn in *. rewrite !Z.add_0_r in *. split_and!; try done.
    { by rewrite app_nil_r. }
    intros part. by rewrite Z.add_0_r.
Qed.

(** A new consumer. *)
Lemma new_consumer config c :
  KafkaEventConsumer_new config = Ok c ->
  cconfig_ c = config /\ stop_requested_ c = false /\ messages_malformed_ c = 0%Z.
Proof.
  unfold KafkaEventConsumer_new, setConfOrThrow. intros Hc.
  do 3 (match type of Hc with context [kafka_conf_set ?k ?v] =>
          destruct (kafka_conf_set k v); [done|] end; cbn in Hc).
  match type of Hc with context [kafka_new ?l] => destruct (kafka_new l); [done|] end.
  by injection Hc as <-.
Qed.

(** A stop is seen at the next test of the flag. *)
Lemma consumer_next_stops i : forall stops now polls c out,
  stops i = true -> i <= length polls -> is_Some (consumer_next stops now polls c out).
Proof.
  induction i as [|i IH]; intros stops now polls c out Hi Hlen.
  - destruct polls; cbn; rewrite Hi; cbn; by eexists.
  - destruct polls as [|m polls]; cbn in Hlen; [lia|]. cbn [consumer_next].
    destruct (stop_requested_ (if stops 0 then consumer_stop c else c)); [by eexists|].
    assert (Hagain : forall c, is_Some (consumer_next (fun k => stops (S k)) now polls c out))
      by (intros; apply IH; [done|lia]).
    destruct m as [|what|payload part off]; [apply Hagain..|].
    destruct (json_parse payload) as [j|[]]; try (by eexists); [|apply Hagain].
    destruct (marketEventFromJson j None) as [[[e|] eo]|]; [by eexists|apply Hagain|by eexists].
Qed.
End ConsumerLemmas.
