(* ===== verification/KafkaProperties.v ===== *)
(** * What the Kafka classes guarantee

    The properties of src/kafka_event_producer.cpp, src/kafka_event_consumer.cpp
    and the loop of services/consumer/main.cpp, and the producer as the
    pipeline's publisher. *)
From S2P Require Import Prelude CxxStrings MarketEvent Json JsonTree MarketEventJson.
From S2P Require Import EventRecorder Interfaces Kafka.

(** ** The producer as the pipeline's publisher *)
Section Publisher.
Context `{JsonOps} `{KafkaLaws K}.

#[export] Instance kafka_publisher : EventPublisher (KafkaEventProducer K) := {
  publish := fun p e r p' =>
    match publish_event p e with
    | Ok (b, p1) => r = Ok b /\ p' = p1
    | Throw x => r = Throw x /\ p' = p
    end;
  flush := fun p p' => p' = flush_producer 10000 p
}.

(** It answers for every event that can be printed. *)
Lemma kafka_serves :
  publisher_serves (KafkaEventProducer K) (fun e => exists l, event_line e = Ok l).
Proof.
  split; cbn; unfold publish_event.
  - intros p e [l ->]. cbn. destruct (kafka_producev _ _ _ _) as [err k].
    destruct (kafka_poll k) as [rs k']. eauto.
  - intros p e x p' [l ->]. cbn. destruct (kafka_producev _ _ _ _) as [err k].
    destruct (kafka_poll k) as [rs k']. by intros [? _].
  - eauto.
Qed.
End Publisher.

(** ** A broker to run with

    Accepts up to [room] messages and reports what it has accepted, all
    delivered, at the next poll. *)
Record broker := { box : list (string * string * string); told : nat; room : nat }.

Definition broker_serve (k : broker) : list (option string) * broker :=
  (replicate (length (box k) - told k) None,
   {| box := box k; told := length (box k); room := room k |}).

#[export] Instance broker_ops : Librdkafka broker := {
  kafka_conf_set := fun _ _ => None;
  kafka_new := fun _ => inr {| box := []; told := 0; room := 1 |};
  kafka_producev := fun k t key payload =>
    if bool_decide (length (box k) < room k)
    then (None, {| box := box k ++ [(t, key, payload)]; told := told k; room := room k |})
    else (Some "Local: Queue full"%string, k);
  kafka_poll := broker_serve;
  kafka_flush := fun k _ => broker_serve k;
  kafka_subscribe := fun _ _ => None;
  kafka_consumer_close := fun k => k;
  kafka_destroy := fun k => k
}.

#[export] Instance broker_laws : KafkaLaws broker.
Proof.
  refine {| outbox := box; reported := told |}; cbn.
  - by intros _ k [= <-].
  - intros k t key payload k'. case_bool_decide; [|done]. by intros [= <-].
  - intros k t key payload e k'. case_bool_decide; [done|]. by intros [= _ <-].
  - intros k rs k' [= <- <-] Hle. cbn. rewrite length_replicate. split; [done|lia].
  - intros k t rs k' [= <- <-] Hle. cbn. rewrite length_replicate. split; [done|lia].
  - done.
Defined.

(** ** Properties *)

(** What the producer sends.  Publishing any sequence of printable events
    through a new producer never throws; the messages librdkafka then holds
    are, in order, one for each event whose [publish] returned true, to the
    configured topic, keyed by the event's symbol, with its JSON text; and the
    delivery reports counted (modulo 2^64) are at most one per such message. *)
Theorem kafka_publish_all `{JsonOps} `{KafkaLaws K} config es (p : KafkaEventProducer K)
  (Hp : KafkaEventProducer_new config = Ok p)
  (Hes : Forall (fun e => exists l, event_line e = Ok l) es) :
  exists bs p', publish_all p es = Ok (bs, p') /\ length bs = length es /\
    outbox (producer_ p') = sent (topic config) es bs /\
    wrap_u64 (delivery_successes_ p' + delivery_failures_ p') =
      wrap_u64 (Z.of_nat (reported (producer_ p'))) /\
    reported (producer_ p') <= count (fun b => b) bs.
Proof.
  destruct (new_producer_ok config p Hp) as (Hok & Hc & Ho).
  destruct (publish_all_spec es p Hok Hes) as (bs & p' & Hall & Hlen & [Hle Hs] & _ & Ho').
  rewrite Ho, Hc in Ho'. cbn in Ho'. exists bs, p'. split_and!; try done.
  rewrite Ho', (sent_length (topic config) es bs Hlen Hes) in Hle. exact Hle.
Qed.

Lemma kafka_publish_all_witness :
  exists bs p', publish_all {| pconfig_ := {| brokers := "b"; topic := "t" |};
      producer_ := {| box := []; told := 0; room := 1 |};
      delivery_successes_ := 0; delivery_failures_ := 0 |} [sampleEvent; sampleEvent]
    = Ok (bs, p') /\ length bs = 2.
Proof.
  destruct (@kafka_publish_all tree_ops broker _ _ {| brokers := "b"; topic := "t" |}
    [sampleEvent; sampleEvent] {| pconfig_ := {| brokers := "b"; topic := "t" |};
      producer_ := {| box := []; told := 0; room := 1 |};
      delivery_successes_ := 0; delivery_failures_ := 0 |}) as (bs & p' & Ha & Hl & _).
  - reflexivity.
  - constructor; [eexists; vm_compute; reflexivity|].
    constructor; [eexists; vm_compute; reflexivity|constructor].
  - exists bs, p'. split; [exact Ha|exact Hl].
Defined.

(** From producer to consumer.  The message sent for a recordable event,
    polled by a consumer that is not stopped, comes out of [next] as the same
    event up to milliseconds, with the receipt time of the consumer and the
    message's partition and offset, and is counted as consumed. *)
Theorem kafka_roundtrip `{JsonLaws} `{KafkaLaws K} (p p' : KafkaEventProducer K) e
  (Hr : recordable e) (Hok : producer_ok p) (Hp : publish_event p e = Ok (true, p'))
  (c : KafkaEventConsumer K) now part off rest out (Hc : stop_requested_ c = false) :
  exists payload, outbox (producer_ p') =
      outbox (producer_ p) ++ [(topic (pconfig_ p), symbol e, payload)] /\
    consumer_next (fun _ => false) now (PollMessage payload part off :: rest) c out =
      Some (Ok (true, count_consumed c,
        {| event := set_ingest_time now (restored e); partition := part; offset := off |}), rest).
Proof.
  destruct Hr as (Hwf & Hu & Hs & Hf).
  destruct (event_line_read e None Hwf Hu Hs Hf) as (l & j & Hl & Hj & He).
  destruct (publish_event_spec p e l Hok Hl) as (b & p1 & Hp1 & _ & _ & Ho).
  rewrite Hp in Hp1. injection Hp1 as <- <-. exists l. split; [done|].
  cbn. rewrite Hc. cbn. by rewrite Hj, He.
Qed.

(** A producer that has sent nothing, and a consumer that has read nothing. *)
Definition demo_producer : KafkaEventProducer broker :=
  {| pconfig_ := {| brokers := "b"; topic := "t" |};
     producer_ := {| box := []; told := 0; room := 1 |};
     delivery_successes_ := 0; delivery_failures_ := 0 |}.
Definition demo_consumer : KafkaEventConsumer broker :=
  {| cconfig_ := {| cbrokers := "b"; ctopic := "t"; group_id := "g";
                    auto_offset_reset := "earliest" |};
     consumer_ := {| box := []; told := 0; room := 1 |}; stop_requested_ := false;
     messages_consumed_ := 0; messages_malformed_ := 0 |}.
Definition no_record : ConsumedRecord :=
  {| event := default_event; partition := 0; offset := 0 |}.

(** [demo_producer] after it has published [sampleEvent]. *)
Definition demo_published : KafkaEventProducer broker :=
  match @publish_event tree_ops broker _ demo_producer sampleEvent with
  | Ok (_, p) => p
  | Throw _ => demo_producer
  end.

Lemma kafka_roundtrip_witness :
  exists payload, consumer_next (fun _ => false) 5
      [PollMessage payload 3 17] demo_consumer no_record =
    Some (Ok (true, count_consumed demo_consumer,
      {| event := set_ingest_time 5 (restored sampleEvent); partition := 3; offset := 17 |}), []).
Proof.
  destruct (@kafka_roundtrip tree_ops tree_laws broker _ _ demo_producer demo_published sampleEvent
    sampleEvent_recordable) with (c := demo_consumer) (now := 5%Z) (part := 3%Z) (off := 17%Z)
    (rest := @nil poll_result) (out := no_record) as (payload & _ & Hn).
  - split; [cbn; lia|reflexivity].
  - vm_compute. reflexivity.
  - reflexivity.
  - exists payload. exact Hn.
Defined.

(** The consume loop counts right.  When the loop of the consumer service
    has ended, a stop was requested, and some prefix of the poll results was
    read: the total and each partition's count are the number of valid records
    in it, overall and of that partition, the consumer's own counters say how
    many were valid and how many malformed (all modulo 2^64), and the lines
    printed are those of the first record and of every twentieth after it. *)
Theorem kafka_loop_counts `{JsonLaws} `{Librdkafka K} fuel stops clock polls
  (c c' : KafkaEventConsumer K) record total counts lines
  (Hl : consume_loop fuel stops clock polls c record 0 ∅ [] = Some (Ok (c', total, counts, lines))) :
  exists read rest, polls = read ++ rest /\ stop_requested_ c' = true /\
    lines = sample_line <$> sampled 0 (omap record_of read) /\
    wrap_u64 total = wrap_u64 (Z.of_nat (length (omap record_of read))) /\
    (forall part, wrap_u64 (default 0%Z (counts !! part)) =
       wrap_u64 (Z.of_nat (count (of_partition part) (omap record_of read)))) /\
    wrap_u64 (messages_consumed_ c') =
      wrap_u64 (messages_consumed_ c + Z.of_nat (length (omap record_of read))) /\
    wrap_u64 (messages_malformed_ c') =
      wrap_u64 (messages_malformed_ c + Z.of_nat (count is_malformed read)).
Proof.
  destruct (consume_loop_spec fuel stops clock polls c record 0 ∅ [] c' total counts lines Hl)
    as (read & rest & Hp & Hs & (Hlines & _) & Hrest).
  exists read, rest. split; [done|]. split; [done|]. split; [exact Hlines|exact Hrest].
Qed.

(** Three polls: a record, nothing, a message that is no event; then a stop. *)
Definition demo_polls : list poll_result :=
  match @event_line tree_ops sampleEvent with
  | Ok l => [PollMessage l 3 17; PollNothing; PollMessage "null" 3 18]
  | Throw _ => []
  end.
Definition demo_stops (call test : nat) : bool := bool_decide (call = 1 /\ test = 2).

Definition demo_done : KafkaEventConsumer broker :=
  count_malformed (consumer_stop (count_consumed demo_consumer)).

Lemma kafka_loop_counts_witness :
  exists read rest, demo_polls = read ++ rest /\
    wrap_u64 1 = wrap_u64 (Z.of_nat (length (omap (@record_of tree_ops) read))).
Proof.
  destruct (@kafka_loop_counts tree_ops tree_laws broker _ 2 demo_stops (fun _ => 0%Z) demo_polls
    demo_consumer demo_done no_record 1 {[3%Z := 1%Z]}
    [(3, 17, symbol sampleEvent, price sampleEvent)%Z])
    as (read & rest & Hp & _ & _ & Ht & _).
  - vm_compute. reflexivity.
  - exists read, rest. split; [exact Hp|exact Ht].
Defined.

(** A stop is noticed within one poll.  If [stop()] has been called by the
    i-th test of the flag, [next] returns or throws after at most [i] polls,
    whatever they bring. *)
Theorem kafka_stop_noticed `{JsonLaws} `{Librdkafka K} i stops now polls
  (c : KafkaEventConsumer K) out
  (Hi : stops i = true) (Hn : i <= length polls) :
  is_Some (consumer_next stops now polls c out).
Proof. exact (consumer_next_stops i stops now polls c out Hi Hn). Qed.

Lemma kafka_stop_noticed_witness :
  is_Some (@consumer_next tree_ops broker (fun i => bool_decide (i = 1)) 0 [PollNothing]
             demo_consumer no_record).
Proof.
  apply (@kafka_stop_noticed tree_ops tree_laws broker _ 1); [reflexivity|cbn; lia].
Defined.
