(* ===== verification/EventTypes.v ===== *)
(** * The type of an event

    What every [MarketEvent] that goes through the program satisfies: its
    integers fit their C++ types, its strings are text the JSON library can
    print, and it has a symbol.  The parsers establish it (src/
    binance_trade_parser.cpp, src/market_event_json.cpp), so the sources and
    the consumer hand out nothing else, and the pipeline keeps it. *)
From S2P Require Import Prelude CxxStrings Config MarketEvent Json JsonTree MarketEventJson.
From S2P Require Import LiveSource LiveProperties Kafka KafkaProperties BinanceTradeParser EventRecorder.
From S2P Require Import ReplaySource BoundedQueue Interfaces IngestionPipeline.
From S2P Require Import PipelineInvariant PipelineProgress PipelineProperties PipelineReplay.

Section Typed.
Context `{JsonLaws}.
Implicit Types (e : MarketEvent).

Definition typed e : Prop := event_wf e /\ event_utf8 e /\ symbol e <> EmptyString.

(** The event's capture line and payload can be made. *)
Definition printable e : Prop := exists l, event_line e = Ok l.

(** What is made is one line. *)
Definition one_line_each e : Prop :=
  exists l, event_line e = Ok l /\ l <> EmptyString /\ free_of newline l = true.

Lemma typed_line e : typed e -> one_line_each e.
Proof.
  intros (Hwf & Hu & _). destruct (event_line_parse e Hwf Hu) as (l & _ & Hl & _).
  exists l. split; [done|]. unfold event_line in Hl.
  apply bind_ok_inv in Hl as (j & _ & Hl). by apply json_dump_line in Hl.
Qed.

Lemma typed_printable e : typed e -> printable e.
Proof. intros (l & Hl & _)%typed_line. by exists l. Qed.

Lemma typed_stamped now e : typed (set_ingest_time now e) <-> typed e.
Proof. by destruct e. Qed.

(** ** The parsers *)

Lemma read_event_typed s j eo e eo' :
  json_parse s = Ok j -> read_event j eo = (Some e, eo') -> typed e.
Proof.
  intros Hj (_ & Hne & (v & Hv & _ & Hsym) & _ & (ms & _ & Ht) & Hn & _ & src & Hsrc & Es)%read_event_Some.
  split; [split|split; [split|done]].
  - rewrite Ht. apply time_point_of_ms_range.
  - apply has_optional_u64 in Hn. destruct (provider_sequence e); [|done].
    by apply u64_field_range in Hn.
  - apply json_field_Some in Hv as [_ Hv]. by eapply json_parsed_string_utf8.
  - rewrite Es. apply has_optional_string in Hsrc. destruct src as [src|]; [|by apply json_utf8_ascii].
    apply has_string in Hsrc as (w & Hw & _ & Hget). apply json_field_Some in Hw as [_ Hw].
    by eapply json_parsed_string_utf8.
Qed.

Lemma classify_typed l e : classify l = Event e -> typed e.
Proof.
  unfold classify. destruct (is_empty l); [done|]. destruct (json_parse l) as [j|[]] eqn:Hj; try done.
  destruct (read_event j None) as [[e'|] eo] eqn:He; [|done]. cbn. intros [= <-].
  by eapply read_event_typed.
Qed.

Lemma replayed_typed ls : Forall typed (replayed_events ls).
Proof.
  apply Forall_forall. intros e (l & _ & Hl)%list_elem_of_omap. unfold event_of_line in Hl.
  destruct (classify l) eqn:Hc; simplify_eq. by eapply classify_typed.
Qed.

Lemma judge_typed raw time e : judge raw time = Good e -> typed e.
Proof.
  unfold judge. rewrite parse_message_read. destruct (json_parse raw) as [j|[]] eqn:Hj; try done.
  destruct (BinanceTradeParser.read_message j _) as [[e'|] eo] eqn:Hr; [|done]. intros [= <-].
  apply read_message_Some in Hr as (_ & data & Hd & Ho & Ht).
  destruct (trade_printable raw e') as [Hwf Hs]; [by exists j, data|].
  split; [exact Hwf|]. split; [split; [exact Hs|by apply json_utf8_ascii]|apply Ht].
Qed.

(** ** Replay, live, consumer *)

Lemma next_loop_typed fuel : forall stops now s out s' e,
  next_loop fuel stops now s out = Some (Ok (true, s', e)) -> typed e.
Proof.
  induction fuel as [|fuel IH]; intros stops now s out s' e; [done|]. cbn.
  destruct (ReplaySource.stop_requested_ _); [done|]. destruct (ifstream_getline _) as [[l|] in']; [|done].
  destruct (is_empty l); [apply IH|]. destruct (json_parse l) as [j|x] eqn:Hj;
    [|destruct x; try discriminate; apply IH].
  rewrite fromJson_read. destruct (read_event j None) as [[e'|] eo] eqn:He; [|apply IH].
  intros [= _ <-]. apply typed_stamped. by eapply read_event_typed.
Qed.

Lemma live_next_typed s e s' : live_next s (NextEvent e) s' -> typed e.
Proof.
  intros (a & l & _ & Hs & ->). destruct a as [s1 p]. cbn in Hs.
  inversion Hs; subst; by eapply judge_typed.
Qed.

Lemma consumer_next_typed `{Librdkafka K} polls : forall stops now (c : KafkaEventConsumer K) out c' r rest,
  consumer_next stops now polls c out = Some (Ok (true, c', r), rest) -> typed (event r).
Proof.
  induction polls as [|m polls IH]; intros stops now c out c' r rest; cbn [consumer_next];
    destruct (Kafka.stop_requested_ _); try done.
  destruct m as [|what|payload part off]; [apply IH..|].
  destruct (json_parse payload) as [j|x] eqn:Hj; 
    [|destruct x; try discriminate; apply IH].
  rewrite fromJson_read. destruct (read_event j None) as [[e|] eo] eqn:He; [|apply IH].
  intros [= _ <- _]. cbn. apply typed_stamped. by eapply read_event_typed.
Qed.
End Typed.

(** ** The interface *)

(** The source hands out typed events only. *)
Class TypedSource `{JsonLaws} (Src : Type) `{MarketDataSource Src} : Prop :=
  next_typed : forall s e s', source_next s (NextEvent e) s' -> typed e.

#[export] Instance replay_typed `{JsonLaws} read_file :
  @TypedSource _ _ ReplaySource (replay_source read_file).
Proof.
  intros s e s' (now & out & Hn). unfold ReplaySource.next in Hn.
  destruct (next_loop _ _ now s out) as [[[[[] s1] e1]|x]|] eqn:El; [..|done];
    destruct Hn as [[=] _]; subst. by eapply next_loop_typed.
Qed.

#[export] Instance live_typed `{JsonLaws} : TypedSource LiveSource.
Proof. intros s e s'. apply live_next_typed. Qed.

(** An end that a source comes to, it comes to with typed events. *)
Lemma ends_typed `{TypedSource Src} ok s : ends ok s -> ends printable s.
Proof.
  induction 1 as [s Hr Ht _ _ IH]. split; [done|done| |done].
  intros e s' Hn. eapply typed_printable, next_typed, Hn.
Qed.

(** ** The pipeline *)
Section Pipeline.
Context `{TypedSource Src} `{EventPublisher Pub} `{QueueLaws Queue MarketEvent}.

Lemma delivered_typed c0 tr (c : state Src Pub Queue) : exec c0 tr c -> Forall typed (delivered tr).
Proof.
  induction 1 as [|tr c l c' _ IH Hs|tr c l c' _ IH _ Hs]; [constructor|..];
    rewrite delivered_snoc; apply Forall_app; (split; [exact IH|]).
  - pose proof (step_delivers c l c' Hs) as Hd. destruct l; try constructor; [|constructor].
    eapply next_typed, Hd.
  - destruct Hs; try destruct (started_ p); constructor.
Qed.

Lemma delivered_printable c0 tr (c : state Src Pub Queue) :
  exec c0 tr c -> Forall printable (delivered tr).
Proof. intros He. eapply Forall_impl; [by eapply delivered_typed|]. apply typed_printable. Qed.
End Pipeline.

(** ** Properties *)

(** C24: whoever hands out events hands out typed ones.  An event that
    [ReplaySource::next], [LiveSource::next] or [KafkaEventConsumer::next]
    returned has integers of their C++ widths, printable strings and a symbol,
    whatever text was in the file, the messages or the topic; and its capture
    line is made without an exception, as one line. *)
Theorem received_events_typed `{JsonLaws} `{Librdkafka K} (e : MarketEvent)
  (Hrec : (exists stops now s out s', ReplaySource.next stops now s out = Some (Ok (true, s', e))) \/
          (exists s s', live_next s (NextEvent e) s') \/
          (exists stops now polls (c : KafkaEventConsumer K) out c' r rest,
             consumer_next stops now polls c out = Some (Ok (true, c', r), rest) /\ e = event r)) :
  typed e /\ one_line_each e.
Proof.
  assert (Ht : typed e).
  { destruct Hrec as [(stops & now & s & out & s' & Hn)|[(s & s' & Hn)|
      (stops & now & polls & c & out & c' & r & rest & Hn & ->)]].
    - by eapply next_loop_typed.
    - by eapply live_next_typed.
    - by eapply consumer_next_typed. }
  split; [done|by apply typed_line].
Qed.

Lemma received_events_typed_witness :
  @typed tree_ops (restored sampleEvent).
Proof.
  apply (@received_events_typed tree_ops tree_laws broker _ (restored sampleEvent)).
  left. exists (fun _ => false), 0%Z, at_line, default_event, after_line.
  vm_compute. reflexivity.
Defined.

(** C23: the pipeline is typed.  Over a source that hands out typed events, as
    the replay and the live source do, at every moment of every execution the
    events delivered, recorded, queued, in the threads' hands and attempted at
    the publisher are typed and make one line each: the recorder and the
    publisher have nothing to refuse. *)
Theorem pipeline_events_typed `{TypedSource Src} `{EventPublisher Pub} `{QueueLaws Queue MarketEvent}
  (s : Src) (u : Pub) cap r fs tr (c : state Src Pub Queue)
  (He : exec (fresh s u cap r fs) tr c) :
  Forall typed (delivered tr) /\ Forall one_line_each (delivered tr) /\
  Forall typed (attempted tr) /\ Forall typed (recorded tr) /\ Forall typed (queued c) /\
  Forall typed (publish_hand (publishing c)) /\ Forall typed (ingest_hand (ingest c)).
Proof.
  pose proof (delivered_typed _ _ _ He) as Hd. pose proof (inv_exec _ _ _ _ _ _ _ He) as Hinv.
  split; [done|]. split; [eapply Forall_impl; [exact Hd|]; intros e; apply typed_line|].
  pose proof (inv_conserved _ _ _ Hinv) as Hc. unfold conserved in Hc. pose proof Hd as Hd'.
  rewrite Hc, !Forall_app in Hd'. destruct Hd' as (Ha & Hp & Hq & Hi).
  split; [done|]. split; [|done].
  pose proof (inv_captured _ _ _ Hinv) as Hr. unfold captured in Hr.
  destruct (optional_recorder_ (pipeline c)); [|by rewrite Hr].
  rewrite Hr in Hd. by apply Forall_app in Hd as [? _].
Qed.

Lemma pipeline_events_typed_witness :
  Forall (@one_line_each tree_ops) [replayedEvent].
Proof.
  apply (@pipeline_events_typed tree_ops tree_laws ReplaySource (replay_source one_file)
    (replay_typed one_file) _ _ _ _ _ (ReplaySource_new "a.jsonl") [] 4 None ∅
    replay_trace replay_stopped replay_exec_stopped).
Defined.
