(* ===== verification/FineSource.v ===== *)
(** * Sources, one access at a time

    [Interfaces.MarketDataSource] has a call of [next] take effect at one point.
    Here is the finer interface: inside [next] the calling thread is at a place
    of its own, and another thread's [stop()], itself two accesses, falls between
    any two of its steps.  What both sources guarantee at this grain is stated
    as laws, and [any_source] is the coarse source that allows for all of it. *)
From S2P Require Import Prelude CxxStrings MarketEvent Json MarketEventJson Interfaces EventTypes.

Class FineSource (Src Pc Lbl : Type) := {
  outside : Pc;                 (* not in next *)
  entry : Pc;                   (* at next's first statement *)
  fine_start : Src -> Src -> outcome unit -> Prop;
  fine_step : Src -> Pc -> Lbl -> Src -> Pc -> Prop;
  fine_return : Src -> Pc -> Lbl -> next_result -> Src -> Prop;
  fine_request : Src -> Src;    (* stop(): the flag *)
  fine_close : Src -> Src;      (* stop(): what follows it *)
  fine_waits : Src -> Pc -> bool (* in a call that only the outside ends *)
}.

(** What happens at the source. *)
Inductive source_event (Lbl : Type) :=
  | SourceStart | SourceCall | SourceInner (l : Lbl) | SourceFlag | SourceClose.
Arguments SourceStart {Lbl}. Arguments SourceCall {Lbl}. Arguments SourceInner {Lbl} _.
Arguments SourceFlag {Lbl}. Arguments SourceClose {Lbl}.

(** The laws.  [fit] is what is known before [start()], [calm] what is kept
    after it; [grace] bounds the events still to come once the flag is set, and
    [fine_rank] the steps.  [shut] is what a [stop()] that has come back leaves:
    from then on the thread waits for the outside at most where it [hangs]. *)
Class FineLaws `{JsonOps} (Src Pc Lbl : Type) `{FineSource Src Pc Lbl} := {
  flagged : Src -> bool;
  shut : Src -> Prop;
  hangs : Pc -> bool;
  fit : Src -> Prop;
  calm : Src -> Pc -> Prop;
  may_throw : exn -> Prop;
  fine_rank : Pc -> nat;
  grace : Pc -> nat;
  calm_start s s' : fit s -> fine_start s s' (Ok tt) -> calm s' outside;
  calm_call s : calm s outside -> calm s entry;
  calm_step s p l s' p' : calm s p -> fine_step s p l s' p' -> calm s' p';
  calm_return s p l r s' : calm s p -> fine_return s p l r s' -> calm s' outside;
  calm_request s p : calm s p -> calm (fine_request s) p;
  calm_close s p : calm s p -> calm (fine_close s) p;
  flag_request s : flagged (fine_request s) = true;
  flag_step s p l s' p' : flagged s = true -> fine_step s p l s' p' ->
    flagged s' = true /\ fine_rank p' < fine_rank p /\ grace p' <= grace p;
  flag_return s p l r s' : flagged s = true -> fine_return s p l r s' ->
    flagged s' = true /\ match r with NextEvent _ => 0 < grace p | _ => True end;
  shut_flagged s : shut s -> flagged s = true;
  shut_after s : flagged s = true -> shut (fine_close s);
  shut_request s : shut s -> shut (fine_request s);
  shut_inner s p l s' p' : shut s -> fine_step s p l s' p' -> shut s';
  shut_return s p l r s' : shut s -> fine_return s p l r s' -> shut s';
  shut_hangs s p : shut s -> fine_waits s p = true -> hangs p = true;
  rank_entry : fine_rank entry < fine_rank outside;
  grace_outside : grace outside = 0;
  grace_entry : grace entry = 0;
  grace_bound p : grace p <= 1;
  return_typed s p l e s' : fine_return s p l (NextEvent e) s' -> typed e;
  return_throw s p l x s' : calm s p -> fine_return s p l (NextThrow x) s' -> may_throw x;
  fine_goes_on s p : calm s p -> p = outside \/
    (exists l s' p', fine_step s p l s' p') \/ (exists l r s', fine_return s p l r s')
}.

(** ** The coarse source *)

(** Told to stop, it has at most so many events left. *)
Inductive any_source := Open | Closing (k : nat).

Section AnySource.
Context `{JsonLaws} (throws : exn -> Prop).

Inductive any_next : any_source -> next_result -> any_source -> Prop :=
  | any_event e : typed e -> any_next Open (NextEvent e) Open
  | any_end : any_next Open NextEnd Open
  | any_last e k : typed e -> any_next (Closing (S k)) (NextEvent e) (Closing k)
  | any_over k : any_next (Closing k) NextEnd (Closing k)
  | any_throw x a : throws x -> any_next a (NextThrow x) a.

Instance any_source_ops : MarketDataSource any_source := {
  source_start := fun _ a' _ => a' = Open;
  source_stop := fun _ => Closing 1;
  source_next := any_next
}.

Instance any_source_typed : TypedSource any_source.
Proof. intros a e a' Hn. by inversion Hn. Qed.

Lemma closing_ends k : (forall x, ~ throws x) -> ends printable (Closing k).
Proof.
  intros Hx. induction k as [|k IH]; split; cbn.
  - exists NextEnd, (Closing 0). constructor.
  - intros x a' Hn. inversion Hn; subst. by eapply Hx.
  - intros e a' Hn. inversion Hn.
  - intros e a' Hn. inversion Hn.
  - exists NextEnd, (Closing (S k)). constructor.
  - intros x a' Hn. inversion Hn; subst. by eapply Hx.
  - intros e a' Hn. inversion Hn; subst. by apply typed_printable.
  - intros e a' Hn. inversion Hn; subst. exact IH.
Qed.

Lemma any_source_laws : (forall x, ~ throws x) -> SourceLaws any_source printable.
Proof. intros Hx. split. intros s. by apply closing_ends. Qed.
End AnySource.

(** *** It stands for a fine source *)
Section Stands.
Context `{JsonLaws} `{FineSource Src Pc Lbl} `{!FineLaws Src Pc Lbl}.
Implicit Types (a : any_source) (s : Src) (q : Pc).

(** The coarse source stands for [s], with the thread at [q]. *)
Definition absorbs a s q : Prop :=
  a = Open \/ exists k, a = Closing k /\ flagged s = true /\ grace q <= k.

Lemma step_flagged s q l s' q' :
  fine_step s q l s' q' -> flagged s = true -> flagged s' = true.
Proof. intros Hs Hf. by apply (flag_step s q l s' q' Hf Hs). Qed.
Lemma return_flagged s q l r s' :
  fine_return s q l r s' -> flagged s = true -> flagged s' = true.
Proof. intros Hs Hf. by apply (flag_return s q l r s' Hf Hs). Qed.

Lemma absorbs_step a s q l s' q' :
  absorbs a s q -> fine_step s q l s' q' -> absorbs a s' q'.
Proof.
  intros [->|(k & -> & Hf & Hk)] Hs; [by left|right]. exists k.
  destruct (flag_step s q l s' q' Hf Hs) as (Hf' & _ & Hg). split_and!; [done..|lia].
Qed.

(** What [next] returns, the coarse source can. *)
Lemma absorbs_return a s q l r s' :
  absorbs a s q -> calm s q -> fine_return s q l r s' ->
  exists a', absorbs a' s' outside /\ any_next may_throw a r a'.
Proof.
  intros Ha Hc Hr. destruct r as [e| |x].
  - pose proof (return_typed _ _ _ _ _ Hr) as Ht. destruct Ha as [->|(k & -> & Hf & Hk)].
    + exists Open. split; [by left|by constructor].
    + destruct (flag_return _ _ _ _ _ Hf Hr) as [Hf' Hg]. destruct k as [|k]; [lia|].
      exists (Closing k). split; [|by constructor]. right. exists k.
      rewrite grace_outside. split_and!; [done..|lia].
  - destruct Ha as [->|(k & -> & Hf & Hk)].
    + exists Open. split; [by left|constructor].
    + exists (Closing k). split; [|constructor]. right. exists k.
      rewrite grace_outside. split_and!; [done|by eapply return_flagged|lia].
  - exists a. split; [|constructor; by eapply return_throw].
    destruct Ha as [->|(k & -> & Hf & Hk)]; [by left|right]. exists k.
    rewrite grace_outside. split_and!; [done|by eapply return_flagged|lia].
Qed.

(** A call, and the first half of a [stop()]. *)
Lemma absorbs_call a s : absorbs a s outside -> absorbs a s entry.
Proof.
  intros [->|(k & -> & Hf & _)]; [by left|right]. exists k. rewrite grace_entry. split_and!; [done..|lia].
Qed.
Lemma absorbs_request a s q : absorbs a s q -> absorbs a (fine_request s) q.
Proof.
  pose proof (flag_request s). intros [->|(k & -> & _ & Hk)]; [by left|right]. by exists k.
Qed.
(** The whole of it. *)
Lemma absorbs_close a s q : flagged s = true -> absorbs (Closing 1) (fine_close s) q.
Proof.
  intros Hf. right. exists 1. split_and!; [done|by apply shut_flagged, shut_after|apply grace_bound].
Qed.
End Stands.
