(* ===== verification/ConsumerService.v ===== *)
(** * The consumer service

    services/consumer/main.cpp: the configuration from the environment, the
    consuming thread ([Kafka.consume_loop]) from [start()] to [join()], and the
    report [main] prints.  When the signal arrives, and so when [main] calls
    [stop()], is given by [stops]: what the consumer's k-th call of [next] sees
    at its i-th test of the flag. *)
From stdpp Require Import sorting.
From S2P Require Import Prelude CxxStrings Config MarketEvent Json JsonTree MarketEventJson.
From S2P Require Import Kafka KafkaProperties.

(** ** The code *)
Definition default_consumer_config : KafkaConsumerConfig :=
  {| cbrokers := "localhost:9092"; ctopic := "market-events"; group_id := "tickforge-consumer";
     auto_offset_reset := "earliest" |}.

Definition consumer_config (environ : gmap string string) : KafkaConsumerConfig :=
  {| cbrokers := getEnvOr environ "KAFKA_BOOTSTRAP_SERVERS" "localhost:9092";
     ctopic := getEnvOr environ "KAFKA_TOPIC" "market-events";
     group_id := getEnvOr environ "KAFKA_CONSUMER_GROUP" "tickforge-consumer-demo";
     auto_offset_reset := auto_offset_reset default_consumer_config |}.

(** [ConsumedRecord record;] *)
Definition empty_record : ConsumedRecord :=
  {| event := default_event; partition := 0; offset := 0 |}.

(** A [std::map] is walked in the order of its keys. *)
Definition in_key_order (counts : gmap Z Z) : list (Z * Z) :=
  (fun k => (k, default 0%Z (counts !! k))) <$> merge_sort Z.le (elements (dom counts)).

(** What [main] prints, and the consumer as its destructor leaves it. *)
Record consumer_output (K : Type) := {
  sampled_lines : list (Z * Z * string * double);
  total_line : Z * Z;                 (* consumed, malformed *)
  partition_lines : list (Z * Z);     (* partition, events *)
  consumer_left : KafkaEventConsumer K
}.
Arguments sampled_lines {K} _.
Arguments total_line {K} _.
Arguments partition_lines {K} _.
Arguments consumer_left {K} _.

Section Code.
Context `{JsonOps} `{Librdkafka K}.

(** [fuel] bounds the calls of [next]; [None]: the thread is still consuming
    when they, or the poll results given, run out. *)
Definition consumer_main (environ : gmap string string) (fuel : nat)
    (stops : nat -> nat -> bool) (clock : nat -> Z) (polls : list poll_result)
    : option (outcome (consumer_output K)) :=
  match KafkaEventConsumer_new (consumer_config environ) with
  | Throw x => Some (Throw x)
  | Ok consumer =>
      match consumer_start consumer with
      | Throw x => Some (Throw x)
      | Ok _ =>
          match consume_loop fuel stops clock polls consumer empty_record 0 ∅ [] with
          | None => None
          | Some (Throw x) => Some (Throw x)
          | Some (Ok (consumer, total, counts, lines)) =>
              let consumer := consumer_stop consumer in
              Some (Ok {| sampled_lines := lines;
                          total_line := (total, Kafka.messagesMalformed consumer);
                          partition_lines := in_key_order counts;
                          consumer_left := KafkaEventConsumer_destroy consumer |})
          end
      end
  end.
End Code.

(** ** Counting by partition *)

Definition count_in (rs : list ConsumedRecord) (part : Z) : nat := count (of_partition part) rs.

Lemma counts_dom parts : forall counts : gmap Z Z,
  dom (foldl bump counts parts) = dom counts ∪ list_to_set parts.
Proof.
  induction parts as [|p parts IH]; intros counts; cbn; [set_solver|].
  rewrite IH. unfold bump. rewrite dom_insert_L. set_solver.
Qed.

Lemma counts_value rs : forall counts part,
  (forall p, in_u64 (default 0%Z (counts !! p))) ->
  (default 0%Z (counts !! part) + Z.of_nat (count_in rs part) < two64)%Z ->
  default 0%Z (foldl bump counts (partition <$> rs) !! part) =
    (default 0%Z (counts !! part) + Z.of_nat (count_in rs part))%Z.
Proof.
  unfold count_in. induction rs as [|r rs IH]; intros counts part Hr Hn; cbn [count fmap list_fmap foldl] in *.
  { cbn. lia. }
  assert (Hb : forall p, in_u64 (default 0%Z (bump counts (partition r) !! p))).
  { intros p. rewrite bump_lookup. case_bool_decide; [apply wrap_u64_range|apply Hr]. }
  pose proof (Hr part) as Hp. unfold in_u64 in Hp.
  assert (Hl : default 0%Z (bump counts (partition r) !! part) =
    (default 0%Z (counts !! part) + (if of_partition part r then 1 else 0))%Z).
  { rewrite bump_lookup. unfold of_partition in *. case_bool_decide; [|lia].
    rewrite wrap_u64_id by (unfold in_u64; lia). done. }
  rewrite IH, Hl; [destruct (of_partition part r); lia|done|].
  rewrite Hl. destruct (of_partition part r); lia.
Qed.

(** Each record is in one partition. *)
Lemma counts_sum rs (parts : list Z) :
  NoDup parts -> (forall r, r ∈ rs -> partition r ∈ parts) ->
  sum_list (count_in rs <$> parts) = length rs.
Proof.
  intros Hnd. induction rs as [|r rs IH]; intros Hin.
  - clear Hnd Hin. induction parts as [|p parts IH]; [done|exact IH].
  - cbn [length]. rewrite <-IH by (intros r' Hr'; apply Hin; by right). clear IH.
    specialize (Hin r ltac:(by left)). induction Hnd as [|p parts Hp Hnd IHp]; [set_solver|].
    rewrite !fmap_cons. cbn [sum_list sum_list_with].
    change (count_in (r :: rs) p) with ((if of_partition p r then 1 else 0) + count_in rs p).
    unfold of_partition at 1. case_bool_decide as E.
    + assert (Hrest : count_in (r :: rs) <$> parts = count_in rs <$> parts).
      { apply list_fmap_ext. intros i p' Hp'. unfold count_in. cbn. unfold of_partition at 1.
        rewrite bool_decide_eq_false_2; [done|]. intros E'. apply Hp.
        rewrite <-E, E'. eapply list_elem_of_lookup_2. exact Hp'. }
      rewrite Hrest. unfold id. lia.
    + apply elem_of_cons in Hin as [Hin|Hin]; [congruence|]. rewrite (IHp Hin). unfold id. lia.
Qed.

Lemma in_key_order_spec counts :
  Sorted Z.le (in_key_order counts).*1 /\ NoDup (in_key_order counts).*1 /\
  (forall k, k ∈ (in_key_order counts).*1 <-> k ∈ dom counts) /\
  (forall k n, (k, n) ∈ in_key_order counts -> n = default 0%Z (counts !! k)).
Proof.
  unfold in_key_order. rewrite <-list_fmap_compose.
  assert (E : (fst ∘ (fun k => (k, default 0%Z (counts !! k)))) <$>
    merge_sort Z.le (elements (dom counts)) = merge_sort Z.le (elements (dom counts)))
    by apply list_fmap_id.
  rewrite E. pose proof (merge_sort_Permutation Z.le (elements (dom counts))) as Hp. split_and!.
  - apply Sorted_merge_sort. apply _.
  - rewrite Hp. apply NoDup_elements.
  - intros k. rewrite Hp. apply elem_of_elements.
  - intros k n (k' & [= -> ->] & _)%list_elem_of_fmap. done.
Qed.

(** The counter of malformed messages stays a 64-bit number. *)
Section Range.
Context `{JsonLaws} `{Librdkafka K}.
Implicit Types (c : KafkaEventConsumer K).

Lemma next_range polls : forall stops now c out b c' out' rest,
  in_u64 (Kafka.messages_malformed_ c) ->
  consumer_next stops now polls c out = Some (Ok (b, c', out'), rest) ->
  in_u64 (Kafka.messages_malformed_ c').
Proof.
  induction polls as [|msg polls IH]; intros stops now c out b c' out' rest Hc; cbn [consumer_next];
    set (c0 := if stops 0 then consumer_stop c else c);
    (assert (Hc0 : in_u64 (Kafka.messages_malformed_ c0)) by (unfold c0; by destruct (stops 0)));
    (destruct (Kafka.stop_requested_ c0); [by intros [= _ <- _ _]|]); [done|].
  assert (Hbad : in_u64 (Kafka.messages_malformed_ (Kafka.count_malformed c0))) by apply wrap_u64_range.
  destruct msg as [|what|payload part off]; [by apply IH..|].
  destruct (json_parse payload) as [j|[]]; try done; [|by apply IH].
  destruct (marketEventFromJson j None) as [[[e|] eo]|]; [|by apply IH|done].
  by intros [= _ <- _ _].
Qed.

Lemma loop_range fuel : forall stops clock polls c record total counts lines c' total' counts' lines',
  in_u64 (Kafka.messages_malformed_ c) ->
  consume_loop fuel stops clock polls c record total counts lines =
    Some (Ok (c', total', counts', lines')) ->
  in_u64 (Kafka.messages_malformed_ c').
Proof.
  induction fuel as [|fuel IH];
    intros stops clock polls c record total counts lines c' total' counts' lines' Hc; [done|].
  cbn [consume_loop].
  destruct (consumer_next (stops 0) (clock 0) polls c record) as [[[[[b c1] r1]|x] rest1]|] eqn:Hn;
    try done.
  apply next_range in Hn; [|done]. destruct b; [by apply IH|]. by intros [= <- _ _ _].
Qed.
End Range.

Lemma omap_short {A B} (f : A -> option B) l : length (omap f l) <= length l.
Proof. induction l as [|x l IH]; [done|]. cbn. destruct (f x); cbn; lia. Qed.

Lemma count_short {A} (p : A -> bool) l : count p l <= length l.
Proof. induction l as [|x l IH]; [done|]. cbn. destruct (p x); lia. Qed.

(** The report on the results of polls: how many records and malformed messages;
    a line for each partition that had a record, in ascending order, with its
    number of records; and the sampled lines. *)
Definition report_on `{JsonOps} {K} (read : list poll_result) (out : consumer_output K) : Prop :=
  let records := omap record_of read in
  total_line out = (Z.of_nat (length records), Z.of_nat (count Kafka.is_malformed read)) /\
  Sorted Z.le (partition_lines out).*1 /\ NoDup (partition_lines out).*1 /\
  (forall part, part ∈ (partition_lines out).*1 <-> exists r, r ∈ records /\ partition r = part) /\
  (forall part n, (part, n) ∈ partition_lines out -> n = Z.of_nat (count_in records part)) /\
  sum_list (count_in records <$> (partition_lines out).*1) = length records /\
  (forall k, sampled_lines out !! k = sample_line <$> records !! (20 * k)) /\
  Kafka.stop_requested_ (consumer_left out) = true.

Lemma report_made `{JsonLaws} {K} (read : list poll_result) (out : consumer_output K) counts :
  let records := omap record_of read in
  (Z.of_nat (length read) < two64)%Z ->
  total_line out = (wrap_u64 (Z.of_nat (length records)), wrap_u64 (Z.of_nat (count Kafka.is_malformed read))) ->
  sampled_lines out = sample_line <$> sampled 0 records ->
  counts = foldl bump ∅ (partition <$> records) -> partition_lines out = in_key_order counts ->
  Kafka.stop_requested_ (consumer_left out) = true -> report_on read out.
Proof.
  cbn zeta. intros Hn Ht Hlines Hcounts Hp Hs. unfold report_on. cbn zeta. rewrite Hp.
  pose proof (omap_short record_of read) as Hlen.
  pose proof (count_short Kafka.is_malformed read) as Hlen'.
  destruct (in_key_order_spec counts) as (Hsort & Hnd & Hin & Hval).
  assert (Hdom : forall part, part ∈ dom counts <->
    exists r, r ∈ omap record_of read /\ partition r = part).
  { intros part. rewrite Hcounts, counts_dom, dom_empty_L, elem_of_union, elem_of_list_to_set.
    rewrite list_elem_of_fmap. set_solver. }
  split_and!; try done.
  - rewrite Ht, !wrap_u64_id by (unfold in_u64; lia). done.
  - intros part. by rewrite Hin, Hdom.
  - intros part n Hpn. rewrite (Hval part n Hpn), Hcounts, counts_value; [done|..].
    + intros p. by rewrite lookup_empty.
    + rewrite lookup_empty. cbn. pose proof (count_short (of_partition part) (omap record_of read)).
      unfold count_in. lia.
  - apply counts_sum; [done|]. intros r Hr. apply Hin, Hdom. eauto.
  - intros k. rewrite Hlines, list_lookup_fmap, sampled_lookup; [done|lia].
Qed.

(** What a run of the sequential program reports. *)
Lemma report_of_output `{JsonLaws} `{Librdkafka K} environ fuel stops clock polls
  (out : consumer_output K)
  (Hm : consumer_main environ fuel stops clock polls = Some (Ok out))
  (Hn : (Z.of_nat (length polls) < two64)%Z) :
  exists read rest, polls = read ++ rest /\ report_on read out.
Proof.
  unfold consumer_main in Hm.
  destruct (KafkaEventConsumer_new (consumer_config environ)) as [c|x] eqn:Hc; [|done].
  destruct (consumer_start c); [|done].
  destruct (consume_loop _ _ _ _ _ _ _ _ _) as [[[[[c' total] counts] lines]|x]|] eqn:Hl; [|done..].
  injection Hm as <-.
  destruct (consume_loop_spec _ _ _ _ _ _ _ _ _ _ _ _ _ Hl)
    as (read & rest & -> & Hs & (Hlines & Hcounts & Hrange) & Ht & _ & _ & Hmal).
  exists read, rest. split; [done|]. rewrite length_app in Hn.
  destruct (new_consumer _ _ Hc) as (_ & _ & Hc0). rewrite Hc0 in Hmal.
  assert (Hcm : in_u64 (Kafka.messages_malformed_ c')).
  { eapply loop_range; [|exact Hl]. by rewrite Hc0. }
  apply (report_made _ _ counts); cbn [total_line sampled_lines partition_lines consumer_left]; try done; [lia|].
  rewrite (wrap_u64_id total) in Ht by by apply Hrange. cbn.
  rewrite (wrap_u64_id (Kafka.messages_malformed_ c')) in Hmal by done. by rewrite Ht, Hmal.
Qed.

(** ** Properties *)

(** C33: the consumer's report.  When the service has printed its report, a stop
    was requested and some prefix of what the polls brought was read.  With
    fewer than 2^64 messages in it: the total is the number of valid records,
    next to the number of malformed messages; one line follows for each
    partition that had a record, in ascending order, each partition once, with
    its number of records; these add up to the total; and the sampled lines are
    those of the records 1, 21, 41, ... *)
Theorem consumer_report `{JsonLaws} `{Librdkafka K} environ fuel stops clock polls
  (out : consumer_output K)
  (Hm : consumer_main environ fuel stops clock polls = Some (Ok out))
  (Hn : (Z.of_nat (length polls) < two64)%Z) :
  exists read rest, polls = read ++ rest /\
    let records := omap record_of read in
    total_line out = (Z.of_nat (length records), Z.of_nat (count Kafka.is_malformed read)) /\
    Sorted Z.le (partition_lines out).*1 /\ NoDup (partition_lines out).*1 /\
    (forall part, part ∈ (partition_lines out).*1 <-> exists r, r ∈ records /\ partition r = part) /\
    (forall part n, (part, n) ∈ partition_lines out -> n = Z.of_nat (count_in records part)) /\
    sum_list (count_in records <$> (partition_lines out).*1) = length records /\
    (forall k, sampled_lines out !! k = sample_line <$> records !! (20 * k)) /\
    Kafka.stop_requested_ (consumer_left out) = true.
Proof. exact (report_of_output environ fuel stops clock polls out Hm Hn). Qed.

(** The run of [KafkaProperties.demo_polls]: a record, nothing, a message that
    is no event, and the stop. *)
Definition demo_output : consumer_output broker :=
  {| sampled_lines := [(3%Z, 17%Z, symbol sampleEvent, price sampleEvent)];
     total_line := (1%Z, 1%Z);
     partition_lines := [(3%Z, 1%Z)];
     consumer_left :=
       {| cconfig_ := consumer_config ∅; consumer_ := {| box := []; told := 0; room := 1 |};
          Kafka.stop_requested_ := true; messages_consumed_ := 1;
          Kafka.messages_malformed_ := 1 |} |}.

Lemma consumer_report_witness :
  exists read rest, demo_polls = read ++ rest /\
    total_line demo_output =
      (Z.of_nat (length (omap (@record_of tree_ops) read)),
       Z.of_nat (count (@Kafka.is_malformed tree_ops) read)).
Proof.
  destruct (@consumer_report tree_ops tree_laws broker _ ∅ 2 demo_stops (fun _ => 0%Z) demo_polls
    demo_output) as (read & rest & Hp & Ht & _).
  - vm_compute. reflexivity.
  - vm_compute. reflexivity.
  - exists read, rest. split; [exact Hp|exact Ht].
Defined.
