(* ===== verification/ConsumerThreads.v ===== *)
(** * The consumer service's threads

    services/consumer/main.cpp as two threads and a signal: [main] polls the
    flag, calls [stop()] and joins, while the other thread is inside
    [KafkaEventConsumer::next], one poll at a time.  [main] waits for the thread
    to end and then reads the numbers of its report, one after another.  Each run of
    the two that prints its report, or dies, is a run of the sequential
    [consumer_main] of [ConsumerService]. *)
From S2P Require Import Prelude CxxStrings Config MarketEvent Json JsonTree MarketEventJson.
From S2P Require Import Kafka KafkaProperties ConsumerService.

(** ** The code *)

(** What one turn of [next]'s loop does with the result of its poll. *)
Inductive turn (K : Type) :=
  | Again (c : KafkaEventConsumer K)
  | GotRecord (c : KafkaEventConsumer K) (r : ConsumedRecord)
  | Raised (x : exn).
Arguments Again {K} _.
Arguments GotRecord {K} _ _.
Arguments Raised {K} _.

(** Where the consuming thread is: at [next]'s test of the flag, or in
    [rd_kafka_consumer_poll]. *)
Inductive consume_pc := AtFlag | AtPoll | ThreadEnded.

Inductive reader_main (K : Type) :=
  | LoopTest | LoopAsleep | AtStopCall | AtJoin
  (* after the join: nothing read yet; the total; the malformed count too *)
  | Joined | TotalRead (t : Z) | CountsRead (t bad : Z)
  | Printed (out : consumer_output K)
  | Crashed (x : exn).
Arguments LoopTest {K}. Arguments LoopAsleep {K}. Arguments AtStopCall {K}.
Arguments AtJoin {K}. Arguments Joined {K}. Arguments TotalRead {K} _. Arguments CountsRead {K} _ _.
Arguments Printed {K} _. Arguments Crashed {K} _.

(** [consumer] is shared; [total] and what follows it are written by the
    thread and read by [main] after the join. *)
Record process (K : Type) := Proc {
  consumer : KafkaEventConsumer K;
  total : Z;
  per_partition_counts : gmap Z Z;
  lines : list (Z * Z * string * double);
  consume_at : consume_pc;
  main_at : reader_main K;
  g_flag : bool
}.
Arguments Proc {K} _ _ _ _ _ _ _.
Arguments consumer {K} _.
Arguments total {K} _.
Arguments per_partition_counts {K} _.
Arguments lines {K} _.
Arguments consume_at {K} _.
Arguments main_at {K} _.
Arguments g_flag {K} _.

(** The process is still there. *)
Definition up {K} (m : reader_main K) : bool :=
  match m with Printed _ | Crashed _ => false | _ => true end.

Section Code.
Context `{JsonOps} `{Librdkafka K}.
Implicit Types (c : KafkaEventConsumer K) (p : process K).

Definition next_turn (now : Z) (msg : poll_result) c : turn K :=
  match msg with
  | PollNothing | PollError _ => Again c
  | PollMessage payload part off =>
      match json_parse payload with
      | Throw (ParseError _) => Again (count_malformed c)
      | Throw x => Raised x
      | Ok parsed =>
          match marketEventFromJson parsed None with
          | Throw x => Raised x
          | Ok (None, _) => Again (count_malformed c)
          | Ok (Some e, _) =>
              GotRecord (count_consumed c)
                {| event := set_ingest_time now e; partition := part; offset := off |}
          end
      end
  end.

(** The consuming thread; the results of its polls label its steps. *)
Inductive consume_step : process K -> list poll_result -> process K -> Prop :=
  | see_stop c t cn ls m g :
      stop_requested_ c = true ->
      consume_step (Proc c t cn ls AtFlag m g) [] (Proc c t cn ls ThreadEnded m g)
  | see_go c t cn ls m g :
      stop_requested_ c = false ->
      consume_step (Proc c t cn ls AtFlag m g) [] (Proc c t cn ls AtPoll m g)
  | poll_again c t cn ls m g now msg c' :
      next_turn now msg c = Again c' ->
      consume_step (Proc c t cn ls AtPoll m g) [msg] (Proc c' t cn ls AtFlag m g)
  | poll_record c t cn ls m g now msg c' r :
      next_turn now msg c = GotRecord c' r ->
      let t' := wrap_u64 (t + 1) in
      consume_step (Proc c t cn ls AtPoll m g) [msg]
        (Proc c' t' (bump cn (partition r))
           (if bool_decide (t' mod 20 = 1)%Z then ls ++ [sample_line r] else ls) AtFlag m g).

(** [main], from the creation of the thread on. *)
Inductive reader_main_step : process K -> process K -> Prop :=
  | test_flag c t cn ls a g :
      reader_main_step (Proc c t cn ls a LoopTest g)
        (Proc c t cn ls a (if g then AtStopCall else LoopAsleep) g)
  | wake_up c t cn ls a g :
      reader_main_step (Proc c t cn ls a LoopAsleep g) (Proc c t cn ls a LoopTest g)
  | call_stop c t cn ls a g :
      reader_main_step (Proc c t cn ls a AtStopCall g)
        (Proc (consumer_stop c) t cn ls a AtJoin g)
  | join_thread c t cn ls g :
      reader_main_step (Proc c t cn ls ThreadEnded AtJoin g) (Proc c t cn ls ThreadEnded Joined g)
  (* the report: main reads what the thread has written, one thing after another *)
  | read_total c t cn ls a g :
      reader_main_step (Proc c t cn ls a Joined g) (Proc c t cn ls a (TotalRead t) g)
  | read_malformed c t cn ls a g t0 :
      reader_main_step (Proc c t cn ls a (TotalRead t0) g)
        (Proc c t cn ls a (CountsRead t0 (messagesMalformed c)) g)
  | print_report c t cn ls a g t0 bad :
      reader_main_step (Proc c t cn ls a (CountsRead t0 bad) g)
        (Proc c t cn ls a
           (Printed {| sampled_lines := ls; total_line := (t0, bad);
                       partition_lines := in_key_order cn;
                       consumer_left := KafkaEventConsumer_destroy c |}) g).

(** The process; an exception in the thread ends it. *)
Inductive process_step : process K -> list poll_result -> process K -> Prop :=
  | thread_moves p ms p' :
      up (main_at p) = true -> consume_step p ms p' -> process_step p ms p'
  | main_moves_on p p' : reader_main_step p p' -> process_step p [] p'
  | thread_raises c t cn ls m g now msg x :
      up m = true -> next_turn now msg c = Raised x ->
      process_step (Proc c t cn ls AtPoll m g) [msg] (Proc c t cn ls AtPoll (Crashed x) g).

Definition handleSignal_consumer p : process K :=
  Proc (consumer p) (total p) (per_partition_counts p) (lines p) (consume_at p) (main_at p) true.

Definition process_begin c : process K := Proc c 0 ∅ [] AtFlag LoopTest false.

Inductive process_runs (p0 : process K) : list poll_result -> process K -> Prop :=
  | process_refl : process_runs p0 [] p0
  | process_run_step ms p ms' p' :
      process_runs p0 ms p -> process_step p ms' p' -> process_runs p0 (ms ++ ms') p'
  | process_signal ms p :
      process_runs p0 ms p -> process_runs p0 ms (handleSignal_consumer p).

Definition process_moves : relation (process K) := fun p p' => exists ms, process_step p ms p'.
End Code.

(** ** Lemmas *)

(** *** The threads and the sequential program *)
Section Refinement.
Context `{JsonOps} `{Librdkafka K}.
Implicit Types (c : KafkaEventConsumer K) (p : process K).

(** The consumer as the thread knows it until it has seen the stop. *)
Definition unstopped c : KafkaEventConsumer K :=
  {| cconfig_ := cconfig_ c; consumer_ := consumer_ c; stop_requested_ := false;
     messages_consumed_ := messages_consumed_ c; messages_malformed_ := messages_malformed_ c |}.

Lemma unstopped_id c : stop_requested_ c = false -> unstopped c = c.
Proof. destruct c. cbn. by intros ->. Qed.

Lemma consumer_stop_id c : stop_requested_ c = true -> consumer_stop c = c.
Proof. destruct c. cbn. by intros ->. Qed.

Lemma stop_unstopped c : stop_requested_ c = true -> consumer_stop (unstopped c) = c.
Proof. destruct c. cbn. by intros ->. Qed.

Lemma consumer_next_turn stops now msg polls c out :
  stops 0 = false -> stop_requested_ c = false ->
  consumer_next stops now (msg :: polls) c out =
  match next_turn now msg c with
  | Again c' => consumer_next (fun i => stops (S i)) now polls c' out
  | GotRecord c' r => Some (Ok (true, c', r), polls)
  | Raised x => Some (Throw x, polls)
  end.
Proof.
  intros E0 Hs. cbn [consumer_next]. rewrite E0, Hs. unfold next_turn.
  destruct msg as [|what|payload part off]; [done..|].
  destruct (json_parse payload) as [j|[]]; try reflexivity.
  by destruct (marketEventFromJson j None) as [[[e|] eo]|].
Qed.

(** The turn does not touch the flag, and a turn that skips does not look at
    the clock. *)
Lemma next_turn_unstopped now now' msg c :
  next_turn now' msg (unstopped c) =
  match next_turn now msg c with
  | Again c' => Again (unstopped c')
  | GotRecord c' r => GotRecord (unstopped c') {| event := set_ingest_time now' (event r);
      partition := partition r; offset := offset r |}
  | Raised x => Raised x
  end.
Proof.
  unfold next_turn. destruct msg as [|what|payload part off]; [done..|].
  destruct (json_parse payload) as [j|[]]; try reflexivity.
  by destruct (marketEventFromJson j None) as [[[[] |] eo]|].
Qed.

(** From [c0] with nothing counted, the sequential loop can have come through
    the polls [ms] to the state given. *)
Definition resumes c0 (ms : list poll_result) c t cn ls : Prop :=
  exists n record, forall fuel stops clock rest, exists stops0 clock0,
    consume_loop (n + fuel) stops0 clock0 (ms ++ rest) c0 empty_record 0 ∅ [] =
    consume_loop fuel stops clock rest (unstopped c) record t cn ls.

Lemma resumes_refl c : stop_requested_ c = false -> resumes c [] c 0 ∅ [].
Proof.
  intros Hc. exists 0, empty_record. intros fuel stops clock rest. exists stops, clock.
  by rewrite unstopped_id.
Qed.

Lemma resumes_again c0 ms c t cn ls now msg c' :
  resumes c0 ms c t cn ls -> next_turn now msg c = Again c' ->
  resumes c0 (ms ++ [msg]) c' t cn ls.
Proof.
  intros (n & record & Hl) Hm. exists n, record. intros fuel stops clock rest.
  destruct (Hl fuel
    (fun k i => match k, i with 0, 0 => false | 0, S i => stops 0 i | S k, i => stops (S k) i end)
    clock (msg :: rest)) as (stops0 & clock0 & E).
  exists stops0, clock0. rewrite <-app_assoc. cbn [app]. rewrite E.
  destruct fuel as [|fuel]; [done|]. cbn [consume_loop].
  rewrite consumer_next_turn, (next_turn_unstopped now), Hm by done. done.
Qed.

Lemma resumes_record c0 ms c t cn ls now msg c' r :
  resumes c0 ms c t cn ls -> next_turn now msg c = GotRecord c' r ->
  resumes c0 (ms ++ [msg]) c' (wrap_u64 (t + 1)) (bump cn (partition r))
    (if bool_decide (wrap_u64 (t + 1) mod 20 = 1)%Z then ls ++ [sample_line r] else ls).
Proof.
  intros (n & record & Hl) Hm. exists (S n).
  exists {| event := set_ingest_time now (event r); partition := partition r; offset := offset r |}.
  intros fuel stops clock rest.
  destruct (Hl (S fuel) (fun k i => match k with 0 => false | S k => stops k i end)
    (fun k => match k with 0 => now | S k => clock k end) (msg :: rest)) as (stops0 & clock0 & E).
  exists stops0, clock0. rewrite <-app_assoc. cbn [app].
  replace (S n + fuel) with (n + S fuel) by lia. rewrite E. cbn [consume_loop].
  rewrite consumer_next_turn, (next_turn_unstopped now), Hm by done. done.
Qed.

(** The thread has ended where the sequential loop can have come out. *)
Definition loop_done c0 ms p : Prop :=
  consume_at p = ThreadEnded /\ stop_requested_ (consumer p) = true /\ exists fuel stops clock,
    consume_loop fuel stops clock ms c0 empty_record 0 ∅ [] =
      Some (Ok (consumer p, total p, per_partition_counts p, lines p)).

(** What the threads have done so far, as a run of the sequential program. *)
Definition simulated c0 ms p : Prop :=
  match main_at p with
  | Joined => loop_done c0 ms p
  | TotalRead t => loop_done c0 ms p /\ t = total p
  | CountsRead t bad => loop_done c0 ms p /\ t = total p /\ bad = messagesMalformed (consumer p)
  | Printed out => exists fuel stops clock c t cn ls,
      consume_loop fuel stops clock ms c0 empty_record 0 ∅ [] = Some (Ok (c, t, cn, ls)) /\
      out = {| sampled_lines := ls; total_line := (t, messages_malformed_ (consumer_stop c));
               partition_lines := in_key_order cn;
               consumer_left := KafkaEventConsumer_destroy (consumer_stop c) |}
  | Crashed x => exists fuel stops clock,
      consume_loop fuel stops clock ms c0 empty_record 0 ∅ [] = Some (Throw x)
  | _ =>
      match consume_at p with
      | ThreadEnded => loop_done c0 ms p
      | _ => resumes c0 ms (consumer p) (total p) (per_partition_counts p) (lines p)
      end
  end.

(** Until it has ended [main] is not past its join. *)
Lemma simulated_resumes c0 ms p :
  simulated c0 ms p -> up (main_at p) = true -> consume_at p <> ThreadEnded ->
  resumes c0 ms (consumer p) (total p) (per_partition_counts p) (lines p) /\
  match main_at p with LoopTest | LoopAsleep | AtStopCall | AtJoin => True | _ => False end.
Proof.
  intros Hs Hup Ha. unfold simulated, loop_done in Hs.
  destruct (main_at p), (consume_at p); try done; by destruct_and?.
Qed.

Lemma simulated_thread c0 ms p ms' p' :
  simulated c0 ms p -> up (main_at p) = true -> consume_step p ms' p' ->
  simulated c0 (ms ++ ms') p'.
Proof.
  intros Hs Hup Hst.
  assert (Hr : consume_at p <> ThreadEnded) by (by destruct Hst).
  apply simulated_resumes in Hs as [Hs Hm]; [|done..]. clear Hr. unfold simulated, loop_done.
  destruct Hst as [c t cn ls m g Hf|c t cn ls m g Hf|c t cn ls m g now msg c' Ht
    |c t cn ls m g now msg c' r Ht]; cbn [main_at consume_at consumer total per_partition_counts lines up] in *;
    rewrite ?app_nil_r.
  - assert (He : exists fuel stops clock,
      consume_loop fuel stops clock ms c0 empty_record 0 ∅ [] = Some (Ok (c, t, cn, ls))).
    { destruct Hs as (n & record & Hl).
      destruct (Hl 1 (fun _ _ => true) (fun _ => 0%Z) []) as (stops0 & clock0 & E).
      exists (n + 1), stops0, clock0. rewrite app_nil_r in E. rewrite E.
      cbn [consume_loop consumer_next]. by rewrite stop_unstopped, Hf by done. }
    destruct m; done.
  - by destruct m.
  - pose proof (resumes_again _ _ _ _ _ _ _ _ _ Hs Ht). by destruct m.
  - pose proof (resumes_record _ _ _ _ _ _ _ _ _ _ Hs Ht). by destruct m.
Qed.

Lemma simulated_main c0 ms p p' : simulated c0 ms p -> reader_main_step p p' -> simulated c0 ms p'.
Proof.
  intros Hs Hst. unfold simulated, loop_done in *.
  destruct Hst as [c t cn ls a g|c t cn ls a g|c t cn ls a g|c t cn ls g|c t cn ls a g|c t cn ls a g t0
    |c t cn ls a g t0 bad]; cbn [main_at consume_at consumer total per_partition_counts lines] in *.
  - by destruct g.
  - done.
  - destruct a; try done. destruct Hs as (Ha & Hf & Hs). by rewrite consumer_stop_id.
  - done.
  - by split.
  - destruct Hs as [Hs ->]. by split.
  - destruct Hs as ((Ha & Hf & fuel & stops & clock & E) & -> & ->). exists fuel, stops, clock, c, t, cn, ls.
    by rewrite consumer_stop_id.
Qed.

Lemma simulated_step c0 ms p ms' p' :
  simulated c0 ms p -> process_step p ms' p' -> simulated c0 (ms ++ ms') p'.
Proof.
  intros Hs Hst. destruct Hst as [p ms' p' Hup Hst|p p' Hst|c t cn ls m g now msg x Hup Ht].
  - by eapply simulated_thread.
  - rewrite app_nil_r. by eapply simulated_main.
  - apply simulated_resumes in Hs as [Hs _]; [|done..]. unfold simulated. cbn in *.
    destruct Hs as (n & record & Hl).
    destruct (Hl 1 (fun _ _ => false) (fun _ => now) [msg]) as (stops0 & clock0 & E).
    exists (n + 1), stops0, clock0. rewrite E. cbn [consume_loop].
    by rewrite consumer_next_turn, (next_turn_unstopped now), Ht.
Qed.

Lemma simulated_runs c ms p :
  stop_requested_ c = false -> process_runs (process_begin c) ms p -> simulated c ms p.
Proof.
  intros Hc. induction 1 as [|ms p ms' p' _ IH Hs|ms p _ IH].
  - by apply resumes_refl.
  - by eapply simulated_step.
  - exact IH.
Qed.
End Refinement.

(** *** The end *)
Section Ending.
Context `{JsonLaws} `{Librdkafka K}.
Implicit Types (p : process K).

(** From the call of [stop()] on, the flag of the consumer is set; after the
    join, the thread has ended. *)
Definition past_join p : bool :=
  match main_at p with Joined | TotalRead _ | CountsRead _ _ | Printed _ => true | _ => false end.
Definition stop_set p : Prop :=
  (main_at p = AtJoin -> stop_requested_ (consumer p) = true) /\
  (past_join p = true -> consume_at p = ThreadEnded).

Lemma next_turn_flag now msg (c c' : KafkaEventConsumer K) :
  (next_turn now msg c = Again c' \/ exists r, next_turn now msg c = GotRecord c' r) ->
  stop_requested_ c' = stop_requested_ c.
Proof.
  unfold next_turn. destruct msg as [|what|payload part off];
    [by intros [[= <-]|[? [=]]]..|].
  destruct (json_parse payload) as [j|[]];
    try (by intros [[=]|[? [=]]]); try (by intros [[= <-]|[? [=]]]).
  destruct (marketEventFromJson j None) as [[[e|] eo]|];
    [by intros [[=]|[? [= <- _]]]|by intros [[= <-]|[? [=]]]|by intros [[=]|[? [=]]]].
Qed.

Lemma stop_set_step p ms p' : stop_set p -> process_step p ms p' -> stop_set p'.
Proof.
  unfold stop_set, past_join. intros [Hs Hj] Hst. destruct Hst as [p ms p' Hup Hst|p p' Hst|]; [..|done].
  - destruct Hst as [| |c t cn ls m g now msg c' Ht|c t cn ls m g now msg c' r Ht]; cbn in *.
    + by split.
    + split; [done|]. intros E. by specialize (Hj E).
    + rewrite (next_turn_flag now msg c c') by eauto. split; [done|]. intros E. by specialize (Hj E).
    + rewrite (next_turn_flag now msg c c') by eauto. split; [done|]. intros E. by specialize (Hj E).
  - destruct Hst; cbn in *; try done; try (by split). by destruct g.
Qed.

Lemma stop_set_runs p0 ms p : stop_set p0 -> process_runs p0 ms p -> stop_set p.
Proof. intros H0'. induction 1; eauto using stop_set_step. Qed.

(** Steps left once [main] joins. *)
Definition join_left p : nat :=
  match main_at p with
  | AtJoin => match consume_at p with AtPoll => 6 | AtFlag => 5 | ThreadEnded => 4 end
  | Joined => 3
  | TotalRead _ => 2
  | CountsRead _ _ => 1
  | _ => 0
  end.

(** Polls left then. *)
Definition polls_left p : nat :=
  match main_at p, consume_at p with AtJoin, AtPoll => 1 | _, _ => 0 end.

(** [stop()] has been called. *)
Definition over p : Prop :=
  match main_at p with LoopTest | LoopAsleep | AtStopCall => False | _ => True end.

Lemma join_step p ms p' :
  over p -> stop_set p -> process_step p ms p' ->
  over p' /\ join_left p' < join_left p /\ length ms + polls_left p' <= polls_left p.
Proof.
  unfold over, stop_set, past_join. intros Ho [Hs Hj] Hst.
  destruct Hst as [p ms p' Hup Hst|p p' Hst|c t cn ls m g now msg x Hup Ht].
  - destruct Hst as [c t cn ls m g Hf|c t cn ls m g Hf|c t cn ls m g now msg c' Ht
      |c t cn ls m g now msg c' r Ht]; cbn in *; destruct m; try done;
      try (by specialize (Hj eq_refl)); cbn; try (split_and!; [done|lia..]).
    rewrite Hs in Hf by done. done.
  - destruct Hst; cbn in *; try done; cbn; (split_and!; [done|lia..]).
  - cbn in *. destruct m; try done; try (by specialize (Hj eq_refl)); cbn; split_and!; [done|lia..].
Qed.

(** There is always a step left. *)
Lemma join_goes_on p :
  over p -> up (main_at p) = true -> exists ms p', process_step p ms p'.
Proof.
  destruct p as [c t cn ls a m g]. unfold over. cbn. intros Ho Hup. destruct m; try done.
  2-4: do 2 eexists; apply main_moves_on; constructor.
  destruct a.
  - destruct (stop_requested_ c) eqn:Hf; do 2 eexists; apply thread_moves; try done; by constructor.
  - do 2 eexists. apply thread_moves; [done|]. by apply (poll_again _ _ _ _ _ _ 0%Z PollNothing).
  - do 2 eexists. apply main_moves_on. constructor.
Qed.

(** What makes [next] throw. *)
Lemma next_turn_raised now msg (c : KafkaEventConsumer K) x :
  next_turn now msg c = Raised x ->
  exists payload part off what, msg = PollMessage payload part off /\
    x = OutOfRange what /\ json_parse payload = Throw x.
Proof.
  unfold next_turn. destruct msg as [|what|payload part off]; [done..|].
  destruct (json_parse payload) as [j|e] eqn:Hj.
  - rewrite fromJson_read. by destruct (read_event j None) as [[e|] eo].
  - destruct (json_parse_throws _ _ Hj) as [what [->| ->]]; [done|].
    intros [= <-]. by exists payload, part, off, what.
Qed.

(** What is known of a run that began with [main] joining. *)
Definition joined_run p ms p' : Prop :=
  over p' /\ stop_set p' /\ length ms + polls_left p' <= polls_left p /\
  forall x, main_at p' = Crashed x -> exists payload part off what,
    ms = [PollMessage payload part off] /\ x = OutOfRange what /\ json_parse payload = Throw x.

Lemma joined_run_runs p ms p' :
  main_at p = AtJoin -> stop_set p -> process_runs p ms p' -> joined_run p ms p'.
Proof.
  intros Hp Hset. induction 1 as [|ms p1 ms' p2 _ IH Hs|ms p1 _ IH].
  - split; [unfold over; by rewrite Hp|]. split; [done|]. split; [cbn; lia|]. by rewrite Hp.
  - destruct IH as (Ho & Hst & Hl & _). destruct (join_step p1 ms' p2 Ho Hst Hs) as (Ho' & _ & Hl').
    split; [done|]. split; [by eapply stop_set_step|]. split; [rewrite length_app; lia|].
    intros x Hx. destruct Hs as [p1 ms' p2 Hup Hs|p1 p2 Hs|c t cn ls m g now msg y Hup Ht].
    + exfalso. destruct Hs; cbn in *; subst; done.
    + exfalso. destruct Hs; cbn in *; try done.
    + cbn in Hx. injection Hx as ->. destruct (next_turn_raised _ _ _ _ Ht)
        as (payload & part & off & what & -> & -> & Hj). exists payload, part, off, what.
      unfold polls_left in *. cbn in *. destruct m; try done; try lia. destruct (main_at p), (consume_at p), ms;
        cbn in *; try lia; done.
  - exact IH.
Qed.

(** In its loop with the flag set, [main] comes to [stop()] by itself. *)
Definition told_to_stop p : Prop :=
  g_flag p = true /\ up (main_at p) = true \/ over p.
Definition loop_left p : nat :=
  match main_at p with
  | LoopAsleep => 7 | LoopTest => 6 | AtStopCall => 5 | AtJoin => 4
  | Joined => 3 | TotalRead _ => 2 | CountsRead _ _ => 1 | _ => 0
  end.

Lemma told_step p p' :
  told_to_stop p -> reader_main_step p p' -> told_to_stop p' /\ loop_left p' < loop_left p.
Proof.
  unfold told_to_stop, over. intros Ht Hs.
  destruct Hs as [c t cn ls a g|c t cn ls a g| | | | |]; cbn in *.
  - destruct Ht as [[-> _]|[]]. cbn. split; [by left|lia].
  - destruct Ht as [[-> _]|[]]. split; [by left|lia].
  - split; [by right|lia].
  - split; [by right|lia].
  - split; [by right|lia].
  - split; [by right|lia].
  - split; [by right|lia].
Qed.

Lemma told_rest p : told_to_stop p -> nf reader_main_step p -> over p.
Proof.
  intros [[Hg Hup]|Ho] Hnf; [|done]. unfold over. destruct p as [c t cn ls a m g]. cbn in *.
  destruct m; try done; exfalso; apply Hnf; eexists; constructor.
Qed.
End Ending.

(** *** What is counted *)
Section Tally.
Context `{JsonLaws} `{Librdkafka K}.
Implicit Types (c : KafkaEventConsumer K) (p : process K).

Lemma again_tally now msg c c' : next_turn now msg c = Again c' ->
  record_of msg = None /\
  messages_malformed_ c' =
    if is_malformed msg then wrap_u64 (messages_malformed_ c + 1) else messages_malformed_ c.
Proof.
  unfold next_turn, record_of, is_malformed. destruct msg as [|what|payload part off];
    [by intros [= <-]..|].
  destruct (json_parse payload) as [j|[]]; try done; [|by intros [= <-]].
  rewrite fromJson_read. destruct (read_event j None) as [[e|] eo]; [done|]. by intros [= <-].
Qed.

Lemma record_tally now msg c c' r : next_turn now msg c = GotRecord c' r ->
  messages_malformed_ c' = messages_malformed_ c /\ is_malformed msg = false /\
  exists r0, record_of msg = Some r0 /\ partition r = partition r0 /\ sample_line r = sample_line r0.
Proof.
  unfold next_turn, record_of, is_malformed. destruct msg as [|what|payload part off]; [done..|].
  destruct (json_parse payload) as [j|[]]; try done.
  rewrite fromJson_read. destruct (read_event j None) as [[e|] eo]; [|done].
  intros [= <- <-]. split; [done|]. split; [done|]. by eexists.
Qed.

(** What the thread has counted is what its polls brought, and what [main] has
    read is what the thread has counted. *)
Record tally (ms : list poll_result) p : Prop := {
  tally_total : total p = wrap_u64 (Z.of_nat (length (omap record_of ms)));
  tally_counts : per_partition_counts p = foldl bump ∅ (partition <$> omap record_of ms);
  tally_lines : lines p = sample_line <$> sampled 0 (omap record_of ms);
  tally_malformed : messages_malformed_ (consumer p) = wrap_u64 (Z.of_nat (count is_malformed ms));
  tally_main : match main_at p with
    | TotalRead t => t = total p
    | CountsRead t bad => t = total p /\ bad = messages_malformed_ (consumer p)
    | Printed out =>
        total_line out = (total p, messages_malformed_ (consumer p)) /\ sampled_lines out = lines p /\
        partition_lines out = in_key_order (per_partition_counts p) /\
        stop_requested_ (consumer_left out) = true
    | _ => True
    end
}.

Lemma tally_thread ms p ms' p' :
  tally ms p -> past_join p = false -> consume_step p ms' p' -> tally (ms ++ ms') p'.
Proof.
  unfold past_join. intros [Ht Hc Hl Hm Hr] Hj Hst.
  destruct Hst as [c t cn ls m g Hf|c t cn ls m g Hf|c t cn ls m g now msg c' Hn
    |c t cn ls m g now msg c' r Hn]; cbn in *; rewrite ?app_nil_r; try by split.
  - destruct (again_tally _ _ _ _ Hn) as [Hrec Hmal].
    split; cbn; rewrite ?omap_app, ?count_app; cbn; rewrite ?Hrec, ?app_nil_r, ?Nat.add_0_r; try done.
    + rewrite Hmal, Hm. destruct (is_malformed msg); [rewrite wrap_u64_add_l|]; f_equal; lia.
    + by destruct m.
  - destruct (record_tally _ _ _ _ _ Hn) as (Hmal & Hbad & r0 & Hrec & Hp & Hs).
    subst t'. split; cbn; rewrite ?omap_app, ?count_app; cbn; rewrite ?Hrec, ?Hbad, ?Nat.add_0_r; cbn.
    + rewrite length_app, Ht, wrap_u64_add_l. cbn. f_equal. lia.
    + by rewrite Hc, fmap_app, foldl_app, Hp.
    + rewrite sampled_app, Z.add_0_l, <-Ht, Hl. cbn [sampled].
      case_bool_decide; cbn [fmap list_fmap]; by rewrite ?fmap_app, ?app_nil_r, ?Hs.
    + by rewrite Hmal.
    + by destruct m.
Qed.

Lemma tally_reads ms p p' : tally ms p -> reader_main_step p p' -> tally ms p'.
Proof.
  intros [Ht Hc Hl Hm Hr] Hst. destruct Hst; cbn in *; (split; cbn; [try done..|]); try done.
  - by destruct g.
  - by destruct Hr as [-> ->].
Qed.

Lemma tally_runs c ms p :
  messages_malformed_ c = 0%Z -> process_runs (process_begin c) ms p -> tally ms p /\ stop_set p.
Proof.
  intros Hc. induction 1 as [|ms p ms' p' Hr [IH Hst] Hs|ms p _ [[] Hst]]; [| |by split].
  - split; [by split|]. by split.
  - split; [|by eapply stop_set_step].
    destruct Hs as [p ms' p' Hup Hs|p p' Hs|c' t cn ls m g now msg x Hup Hn].
    + apply tally_thread with (p := p); [done| |done]. destruct (past_join p) eqn:Hj; [|done].
      destruct Hst as [_ Hst]. specialize (Hst Hj). by destruct Hs.
    + rewrite app_nil_r. by eapply tally_reads.
    + destruct IH as [Ht Hc' Hl Hm _]. cbn in *. unfold next_turn in Hn.
      assert (Hno : record_of msg = None /\ is_malformed msg = false).
      { destruct (next_turn_raised _ _ _ _ Hn) as (payload & part & off & what & -> & -> & Hj).
        cbn. by rewrite Hj. }
      destruct Hno as [Hrec Hbad].
      by split; cbn; rewrite ?omap_app, ?count_app; cbn; rewrite ?Hrec, ?Hbad, ?app_nil_r, ?Nat.add_0_r.
Qed.

(** It dies of the last message polled. *)
Lemma crashed_last c ms p x : process_runs (process_begin c) ms p -> main_at p = Crashed x ->
  exists before payload part off what, ms = before ++ [PollMessage payload part off] /\
    x = OutOfRange what /\ json_parse payload = Throw x.
Proof.
  induction 1 as [|ms p ms' p' _ _ Hs|ms p _ IH]; [done| |exact IH]. intros Hx.
  destruct Hs as [p ms' p' Hup Hs|p p' Hs|c' t cn ls m g now msg y Hup Hn].
  - by destruct Hs; cbn in *; subst.
  - destruct Hs; cbn in Hx; try done. by destruct g.
  - cbn in Hx. injection Hx as ->. destruct (next_turn_raised _ _ _ _ Hn)
      as (payload & part & off & what & -> & -> & Hj). by exists ms, payload, part, off, what.
Qed.

Lemma printed_report c ms p out : messages_malformed_ c = 0%Z ->
  process_runs (process_begin c) ms p -> main_at p = Printed out ->
  (Z.of_nat (length ms) < two64)%Z -> consume_at p = ThreadEnded /\ report_on ms out.
Proof.
  intros Hc Hr Hout Hn. destruct (tally_runs c ms p Hc Hr) as [[Ht Hcn Hl Hm Hmain] [_ Hst]].
  unfold past_join in Hst. rewrite Hout in *. split; [by apply Hst|].
  destruct Hmain as (Hline & Hls & Hpl & Hs).
  apply (report_made ms out (per_partition_counts p)); [done|..]; congruence.
Qed.
End Tally.

(** *** A run: a record, nothing, and a message that is no event, during whose
    poll the signal arrives *)

Definition run_consumer (stop : bool) (n bad : Z) : KafkaEventConsumer broker :=
  {| cconfig_ := consumer_config ∅; consumer_ := {| box := []; told := 0; room := 1 |};
     stop_requested_ := stop; messages_consumed_ := n; messages_malformed_ := bad |}.
Definition run_line : Z * Z * string * double := (3%Z, 17%Z, symbol sampleEvent, price sampleEvent).

(** In its third poll; then with the signal seen and [stop()] called; then at
    the end. *)
Definition run_polling : process broker :=
  Proc (run_consumer false 1 0) 1 {[3%Z := 1%Z]} [run_line] AtPoll LoopTest false.
Definition run_joining : process broker :=
  Proc (run_consumer true 1 0) 1 {[3%Z := 1%Z]} [run_line] AtPoll AtJoin true.
Definition run_printed : process broker :=
  Proc (run_consumer true 1 1) 1 {[3%Z := 1%Z]} [run_line] ThreadEnded (Printed demo_output) true.

Abbreviation run_runs := (@process_runs tree_ops broker _ (process_begin (run_consumer false 0 0))).

Tactic Notation "thread_by" hyp(E) uconstr(rule) :=
  eapply process_run_step in E; [|apply thread_moves; [reflexivity|eapply rule; vm_compute; reflexivity]].
Tactic Notation "main_by" hyp(E) uconstr(rule) :=
  eapply process_run_step in E; [|apply main_moves_on; eapply rule].

Lemma run_runs_polling : run_runs (take 2 demo_polls) run_polling.
Proof.
  pose proof (@process_refl tree_ops broker _ (process_begin (run_consumer false 0 0))) as E.
  thread_by E see_go.
  eapply (process_run_step _ _ _ (take 1 demo_polls)) in E;
    [|apply thread_moves; [reflexivity|eapply (poll_record _ _ _ _ _ _ 0%Z); vm_compute; reflexivity]].
  thread_by E see_go.
  eapply (process_run_step _ _ _ [PollNothing]) in E;
    [|apply thread_moves; [reflexivity|eapply (poll_again _ _ _ _ _ _ 0%Z); vm_compute; reflexivity]].
  thread_by E see_go. exact E.
Qed.

Lemma run_runs_joining : run_runs (take 2 demo_polls) run_joining.
Proof.
  pose proof run_runs_polling as E. apply process_signal in E.
  main_by E test_flag. main_by E call_stop. exact E.
Qed.

Lemma run_runs_printed : run_runs demo_polls run_printed.
Proof.
  pose proof run_runs_joining as E.
  eapply (process_run_step _ _ _ [PollMessage "null" 3 18]) in E;
    [|apply thread_moves; [reflexivity|eapply (poll_again _ _ _ _ _ _ 0%Z); vm_compute; reflexivity]].
  thread_by E see_stop. main_by E join_thread. main_by E read_total. main_by E read_malformed.
  main_by E print_report. exact E.
Qed.

(** ** Properties *)

(** C31: the report of the two threads.  Whatever the interleaving of the consuming
    thread, [main] (which reads the total, the malformed count and the table one
    after another) and the signal: when the process has printed its report, the
    consuming thread has ended and the report is that of all the polls it made (of
    fewer than 2^64) — the numbers of valid records and of malformed messages, a
    line for each partition that had a record, in ascending order, with its number
    of records, adding up to the total, and the sampled lines of the records 1, 21,
    41, ...  It dies of an exception only if the last message polled holds a number
    too large for a double. *)
Theorem consumer_threads_report `{JsonLaws} `{Librdkafka K} environ (c : KafkaEventConsumer K) polls p
  (Hc : KafkaEventConsumer_new (consumer_config environ) = Ok c)
  (Hr : process_runs (process_begin c) polls p) (Hn : (Z.of_nat (length polls) < two64)%Z) :
  (forall out, main_at p = Printed out -> consume_at p = ThreadEnded /\ report_on polls out) /\
  (forall x, main_at p = Crashed x -> exists before payload part off what,
     polls = before ++ [PollMessage payload part off] /\ x = OutOfRange what /\ json_parse payload = Throw x).
Proof.
  destruct (new_consumer _ _ Hc) as (_ & _ & Hmal). split.
  - intros out Hout. by eapply printed_report.
  - intros x Hx. by eapply crashed_last.
Qed.

Lemma consumer_threads_report_witness : @report_on tree_ops broker demo_polls demo_output.
Proof.
  refine (proj2 (proj1 (@consumer_threads_report tree_ops tree_laws broker _ ∅ (run_consumer false 0 0)
    demo_polls run_printed _ run_runs_printed _) demo_output _)); [reflexivity|reflexivity|reflexivity].
Defined.

(** The threads implement the sequential program.  Whatever the
    interleaving of the consuming thread, [main] and the signal: if the process
    has printed its report, or died of an exception, then [consumer_main], for
    the results of the polls in the order in which they were made, returns that
    report, or throws that exception. *)
Theorem consumer_threads_refine `{JsonOps} `{Librdkafka K} environ (c : KafkaEventConsumer K) polls p
  (Hc : KafkaEventConsumer_new (consumer_config environ) = Ok c) (Hs : consumer_start c = Ok tt)
  (Hr : process_runs (process_begin c) polls p) :
  (forall out, main_at p = Printed out -> exists fuel stops clock,
     consumer_main environ fuel stops clock polls = Some (Ok out)) /\
  (forall x, main_at p = Crashed x -> exists fuel stops clock,
     consumer_main (K := K) environ fuel stops clock polls = Some (Throw x)).
Proof.
  destruct (new_consumer _ _ Hc) as (_ & Hstop & _).
  pose proof (simulated_runs c polls p Hstop Hr) as Hsim. unfold simulated in Hsim.
  unfold consumer_main. rewrite Hc, Hs. split.
  - intros out E. rewrite E in Hsim.
    destruct Hsim as (fuel & stops & clock & c' & t & cn & ls & Hl & ->).
    exists fuel, stops, clock. by rewrite Hl.
  - intros x E. rewrite E in Hsim. destruct Hsim as (fuel & stops & clock & Hl).
    exists fuel, stops, clock. by rewrite Hl.
Qed.

Lemma consumer_threads_refine_witness :
  exists fuel stops clock,
    @consumer_main tree_ops broker _ ∅ fuel stops clock demo_polls = Some (Ok demo_output).
Proof.
  apply (@consumer_threads_refine tree_ops broker _ ∅ (run_consumer false 0 0) demo_polls run_printed);
    [reflexivity|reflexivity|exact run_runs_printed|reflexivity].
Defined.

(** C32: the consumer service ends.  While [main] polls, once the signal has
    come it reaches [stop()] in finitely many steps of its own, waiting for
    nobody.  Once it has called [stop()] and joins: the process makes finitely
    many steps, of which at most one is a poll; where it rests it has printed
    its report, or died of an exception, and that only when that poll brought a
    message in which a number overflows a double. *)
Theorem consumer_shutdown `{JsonLaws} `{Librdkafka K} (c : KafkaEventConsumer K) polls p
  (Hr : process_runs (process_begin c) polls p) :
  (up (main_at p) = true ->
     sn reader_main_step (handleSignal_consumer p) /\
     forall p', rtc reader_main_step (handleSignal_consumer p) p' -> nf reader_main_step p' -> over p') /\
  (main_at p = AtJoin ->
     sn process_moves p /\
     forall more p', process_runs p more p' ->
       length more <= 1 /\ (nf process_moves p' -> up (main_at p') = false) /\
       forall x, main_at p' = Crashed x -> exists payload part off what,
         more = [PollMessage payload part off] /\ x = OutOfRange what /\ json_parse payload = Throw x).
Proof.
  split.
  - intros Hup. assert (Ht : told_to_stop (handleSignal_consumer p)) by (by left).
    split; [apply (measure_sn _ told_to_stop loop_left); [done|exact told_step]|].
    intros p' Hp'. apply told_rest. revert Hp'. apply rtc_invariant; [done|].
    intros p1 p2 Hp1 Hs. by apply (told_step p1 p2).
  - intros Hj. assert (Hset : stop_set p) by (eapply stop_set_runs; [|exact Hr]; done). split.
    + apply (measure_sn _ (fun p => over p /\ stop_set p) join_left); [unfold over; by rewrite Hj|].
      intros p1 p2 [Ho Hs1] [ms Hs]. destruct (join_step p1 ms p2 Ho Hs1 Hs) as (Ho2 & Hl & _).
      split; [|done]. split; [done|by eapply stop_set_step].
    + intros more p' Hm. destruct (joined_run_runs p more p' Hj Hset Hm) as (Ho & _ & Hl & Hx).
      split; [|split; [|exact Hx]].
      * unfold polls_left in Hl. destruct (main_at p), (consume_at p); lia.
      * intros Hnf. destruct (up (main_at p')) eqn:E; [|done].
        exfalso. apply Hnf. destruct (join_goes_on p' Ho E) as (ms & p2 & Hs). by exists p2, ms.
Qed.

Lemma consumer_shutdown_witness :
  sn (@process_moves tree_ops broker _) run_joining /\
  sn reader_main_step (handleSignal_consumer run_polling).
Proof.
  split.
  - apply (@consumer_shutdown tree_ops tree_laws broker _ _ _ run_joining run_runs_joining). reflexivity.
  - apply (@consumer_shutdown tree_ops tree_laws broker _ _ _ run_polling run_runs_polling). reflexivity.
Defined.
