(* ===== verification/PipelineKafka.v ===== *)
(** * Events from the pipeline to Kafka

    [KafkaEventProducer] as the publisher of the ingestion pipeline: what
    librdkafka was given is what the publish thread attempted. *)
From S2P Require Import Prelude CxxStrings MarketEvent Json MarketEventJson EventRecorder.
From S2P Require Import BoundedQueue Interfaces Kafka KafkaProperties.
From S2P Require Import IngestionPipeline PipelineInvariant.

(** The events handed to [publish], with what it returned. *)
Definition attempts (tr : list event_label) : list (MarketEvent * bool) :=
  omap (fun l => match l with Attempted e b => Some (e, b) | _ => None end) tr.

Lemma attempts_snoc tr l :
  attempts (tr ++ [l]) = attempts tr ++ match l with Attempted e b => [(e, b)] | _ => [] end.
Proof. unfold attempts. rewrite omap_app. by destruct l. Qed.

Lemma attempts_attempted tr : (attempts tr).*1 = attempted tr.
Proof.
  induction tr as [|l tr IH]; [done|]. unfold attempts, attempted in *.
  destruct l; cbn in *; by rewrite ?IH.
Qed.

(** How many went well is how many are counted as published. *)
Lemma attempts_published tr :
  count (fun eb : MarketEvent * bool => eb.2) (attempts tr) = count is_published tr /\
  length (attempts tr) = count is_published tr + count is_failure tr.
Proof.
  induction tr as [|l tr [IH1 IH2]]; [done|]. unfold attempts in *.
  destruct l as [| | | | | | | |e []| |]; cbn in *; lia.
Qed.

(** The messages of attempts: one for each that went well. *)
Definition sent_messages `{JsonOps} (t : string) (es : list (MarketEvent * bool))
    : list (string * string * string) := omap (message_of t) es.

Lemma sent_messages_app `{JsonOps} t es es' :
  sent_messages t (es ++ es') = sent_messages t es ++ sent_messages t es'.
Proof. apply omap_app. Qed.

Section Exec.
Context `{JsonOps} `{MarketDataSource Src} `{KafkaLaws K} `{BlockingQueue Queue MarketEvent}.
Implicit Types (u : KafkaEventProducer K) (c : state Src (KafkaEventProducer K) Queue).

Lemma publish_event_sent u e b u' :
  producer_ok u -> publish_event u e = Ok (b, u') ->
  producer_ok u' /\ pconfig_ u' = pconfig_ u /\
  outbox (producer_ u') = outbox (producer_ u) ++ sent_messages (topic (pconfig_ u)) [(e, b)].
Proof.
  intros Hok Hp. destruct (event_line e) as [l|x] eqn:Hl;
    [|unfold publish_event in Hp; by rewrite Hl in Hp].
  destruct (publish_event_spec u e l Hok Hl) as (b' & u1 & Hp1 & Hok1 & Hc & Ho).
  rewrite Hp in Hp1. injection Hp1 as <- <-. split; [done|]. split; [done|]. rewrite Ho.
  unfold sent_messages, message_of. cbn. rewrite Hl. by destruct b.
Qed.

(** What the producer holds, along an execution of the pipeline. *)
Definition published_so_far u0 tr u : Prop :=
  producer_ok u /\ pconfig_ u = pconfig_ u0 /\
  outbox (producer_ u) =
    outbox (producer_ u0) ++ sent_messages (topic (pconfig_ u0)) (attempts tr).

Lemma published_same u0 tr l u :
  published_so_far u0 tr u -> (forall e b, l <> Attempted e b) ->
  published_so_far u0 (tr ++ [l]) u.
Proof.
  intros (Hok & Hc & Ho) Hl. split; [done|]. split; [done|]. rewrite Ho, attempts_snoc.
  destruct l; try (by rewrite app_nil_r). by destruct (Hl e ok).
Qed.

Lemma published_thread u0 tr c l c' :
  published_so_far u0 tr (publisher_ (pipeline c)) -> thread_step c l c' ->
  published_so_far u0 (tr ++ [l]) (publisher_ (pipeline c')).
Proof.
  intros Hp [Hs|[Hs|Hs]]; destruct Hs; cbn in *;
    try (apply published_same; [exact Hp|]; intros e' b'; repeat case_match; done).
  - destruct Hp as (Hok & Hc & Ho).
    destruct (publish_event (publisher_ p) e) as [[b1 u1]|x] eqn:He;
      match goal with E : _ /\ _ |- _ => destruct E as [E ->] end; [|done].
    match goal with E : Ok _ = Ok _ |- _ => injection E as -> end.
    destruct (publish_event_sent _ _ _ _ Hok He) as (Hok1 & Hc1 & Ho1).
    split; [done|]. split; [congruence|].
    by rewrite Ho1, Ho, Hc, attempts_snoc, sent_messages_app, app_assoc.
  - apply published_same; [|intros e' b'; by destruct b]. by destruct b.
  - apply published_same; [|done].
    match goal with E : _ = flush_producer _ _ |- _ => rewrite E end.
    destruct Hp as (Hok & Hc & Ho). destruct (flush_producer_spec 10000 _ Hok) as (Hok1 & Hc1 & Ho1).
    split; [done|]. split; congruence.
Qed.

Lemma published_call u0 tr c l c' :
  published_so_far u0 tr (publisher_ (pipeline c)) -> call_step c l c' ->
  published_so_far u0 (tr ++ [l]) (publisher_ (pipeline c')).
Proof.
  intros Hp Hs. destruct Hs; cbn in *; try (by apply published_same).
  all: unfold requestStop; destruct (started_ p); by apply published_same.
Qed.

Lemma published_exec s u cap r fs tr c :
  exec (fresh s u cap r fs) tr c -> producer_ok u ->
  published_so_far u tr (publisher_ (pipeline c)).
Proof.
  intros He Hok. induction He as [|tr c l c' _ IH Hs|tr c l c' _ IH _ Hs].
  - split; [done|]. split; [done|]. by rewrite app_nil_r.
  - by eapply published_thread.
  - by eapply published_call.
Qed.

(** The destructor of the producer sends nothing more. *)
Lemma published_destroy u0 tr u :
  published_so_far u0 tr u ->
  outbox (producer_ (KafkaEventProducer_destroy u)) =
    outbox (producer_ u0) ++ sent_messages (topic (pconfig_ u0)) (attempts tr).
Proof.
  intros (Hok & Hc & Ho). unfold KafkaEventProducer_destroy. cbn. rewrite destroy_outbox.
  destruct (flush_producer_spec 10000 u Hok) as (_ & _ & ->). exact Ho.
Qed.
End Exec.
