(* ===== verification/Benchmark.v ===== *)
(** * The benchmark

    benchmarks/queue_kafka_benchmark.cpp: loading the fixture, the hand-over of
    its events through a [BoundedQueue] between two threads, publishing them,
    and the consumer's loop with its deadline.  What is measured, the time,
    is not modelled; what is done is. *)
From S2P Require Import Prelude CxxStrings CommandLine Config MarketEvent Json JsonTree.
From S2P Require Import MarketEventJson EventRecorder ReplaySource BoundedQueue Interfaces.
From S2P Require Import Kafka KafkaProperties ConsumerService.
From S2P Require Import IngestionPipeline PipelineInvariant PipelineReplay PipelineKafka.

(** ** The code *)

(** Where the function is; [Pushing] holds the events still to push. *)
Inductive pusher :=
  | PushingEvents (todo : list MarketEvent)
  | AtShutdown
  | AtJoin
  | Finished.

(** [taking]: the consumer thread is in its loop. *)
Record queue_bench (Queue : Type) := QueueBench {
  bench_queue : Queue;
  pusher_at : pusher;
  taking : bool;
  taken : list MarketEvent
}.
Arguments QueueBench {Queue} _ _ _ _.
Arguments bench_queue {Queue} _.
Arguments pusher_at {Queue} _.
Arguments taking {Queue} _.
Arguments taken {Queue} _.

Section Code.
Context `{JsonOps}.

(** [n] bounds the calls of [next] on one source, and [clock r] is the clock
    during the r-th reading of the file. *)
Fixpoint loadFixtureRepeated (read_file : string -> option string) (n : nat)
    (clock : nat -> nat -> Z) (path : string) (repeats : nat) (events : list MarketEvent)
    : option (outcome (list MarketEvent)) :=
  match repeats with
  | 0 => Some (Ok events)
  | S repeats =>
      match ReplaySource.start read_file (ReplaySource_new path) with
      | (_, Throw x) => Some (Throw x)
      | (source, Ok _) =>
          match drain n (clock 0) source default_event with
          | None => None
          | Some (Throw x) => Some (Throw x)
          | Some (Ok (read, _)) =>
              loadFixtureRepeated read_file n (fun r => clock (S r)) path repeats (events ++ read)
          end
      end
  end.

Definition fixture_path (argv : list string) : string :=
  if bool_decide (1 < length argv) then arg_at argv 1 else "replay/btcusdt_ethusdt_sample.jsonl".

(** *** benchmarkQueue *)
Inductive bench_step `{BlockingQueue Queue MarketEvent}
    : queue_bench Queue -> queue_bench Queue -> Prop :=
  | bench_push q e todo b es ok q' :
      try_push e q = Some (ok, q') ->
      bench_step (QueueBench q (PushingEvents (e :: todo)) b es)
        (QueueBench q' (PushingEvents todo) b es)
  | bench_pushed q b es :
      bench_step (QueueBench q (PushingEvents []) b es) (QueueBench q AtShutdown b es)
  | bench_shutdown q b es :
      bench_step (QueueBench q AtShutdown b es) (QueueBench (shutdown q) AtJoin b es)
  | bench_join q es :
      bench_step (QueueBench q AtJoin false es) (QueueBench q Finished false es)
  | bench_pop q at_ es r q' :
      try_pop q = Some (r, q') ->
      bench_step (QueueBench q at_ true es)
        (match r with
         | Some e => QueueBench q' at_ true (es ++ [e])
         | None => QueueBench q' at_ false es
         end).

Definition benchmarkQueue `{BlockingQueue Queue MarketEvent} (events : list MarketEvent)
    : queue_bench Queue :=
  QueueBench (queue_new 1024) (PushingEvents events) true [].

(** *** The Kafka benchmarks *)
Context `{Librdkafka K}.

(** The delivery counts printed, and the producer as it is destroyed. *)
Definition benchmarkKafkaProducer (events : list MarketEvent) (brokers_ topic_ : string)
    : outcome (Z * Z * KafkaEventProducer K) :=
  producer ← KafkaEventProducer_new {| brokers := brokers_; topic := topic_ |};
  '(_, producer) ← publish_all producer events;
  let producer := flush_producer 30000 producer in
  Ok (deliverySuccessCount producer, deliveryFailureCount producer,
      KafkaEventProducer_destroy producer).

(** The loop; [clock k] is what the k-th test of the deadline reads, [now k]
    the clock in the k-th call of [next].  Nobody stops the consumer. *)
Fixpoint bench_consume (fuel : nat) (expected : nat) (deadline : Z) (clock now : nat -> Z)
    (polls : list poll_result) (consumer : KafkaEventConsumer K) (record : ConsumedRecord)
    (consumed : nat) : option (outcome (nat * KafkaEventConsumer K * list poll_result)) :=
  match fuel with
  | 0 => None
  | S fuel =>
      if bool_decide (consumed < expected) && bool_decide (clock 0%nat < deadline)%Z then
        match consumer_next (fun _ => false) (now 0) polls consumer record with
        | None => None
        | Some (Throw x, _) => Some (Throw x)
        | Some (Ok (b, consumer, record), polls) =>
            bench_consume fuel expected deadline (fun k => clock (S k)) (fun k => now (S k))
              polls consumer record (if b then S consumed else consumed)
        end
      else Some (Ok (consumed, consumer, polls))
  end.

Definition bench_consumer_config (ticks : Z) (brokers_ topic_ : string) : KafkaConsumerConfig :=
  {| cbrokers := brokers_; ctopic := topic_;
     group_id := "tickforge-benchmark-" +:+ to_string ticks;
     auto_offset_reset := "earliest" |}.

(** The number consumed, the number malformed, and the stopped consumer. *)
Definition benchmarkKafkaConsumer (fuel : nat) (ticks start_ : Z) (expected : nat)
    (clock now : nat -> Z) (polls : list poll_result) (brokers_ topic_ : string)
    : option (outcome (nat * Z * KafkaEventConsumer K)) :=
  match KafkaEventConsumer_new (bench_consumer_config ticks brokers_ topic_) with
  | Throw x => Some (Throw x)
  | Ok consumer =>
      match consumer_start consumer with
      | Throw x => Some (Throw x)
      | Ok _ =>
          match bench_consume fuel expected (start_ + 30000000000) clock now polls consumer
                  empty_record 0 with
          | None => None
          | Some (Throw x) => Some (Throw x)
          | Some (Ok (consumed, consumer, _)) =>
              let consumer := consumer_stop consumer in
              Some (Ok (consumed, Kafka.messagesMalformed consumer,
                        KafkaEventConsumer_destroy consumer))
          end
      end
  end.

(** [main]; between the loading and the producer's part it runs
    [benchmarkQueue] on the events, which always comes back
    ([bench_queue_complete]). *)
Definition bench_main (environ : gmap string string) (read_file : string -> option string)
    (argv : list string) (n : nat) (load_clock : nat -> nat -> Z)
    (fuel : nat) (ticks start_ : Z) (clock now : nat -> Z) (polls : list poll_result)
    : option (outcome (list MarketEvent * (Z * Z * KafkaEventProducer K) *
                       (nat * Z * KafkaEventConsumer K))) :=
  match loadFixtureRepeated read_file n load_clock (fixture_path argv) 20 [] with
  | None => None
  | Some (Throw x) => Some (Throw x)
  | Some (Ok events) =>
      let brokers_ := getEnvOr environ "KAFKA_BOOTSTRAP_SERVERS" "localhost:9092" in
      let topic_ := getEnvOr environ "KAFKA_TOPIC" "market-events" in
      match benchmarkKafkaProducer events brokers_ topic_ with
      | Throw x => Some (Throw x)
      | Ok produced =>
          match benchmarkKafkaConsumer fuel ticks start_ (length events) clock now polls
                  brokers_ topic_ with
          | None => None
          | Some (Throw x) => Some (Throw x)
          | Some (Ok consumed) => Some (Ok (events, produced, consumed))
          end
      end
  end.
End Code.

(** ** The hand-over *)
Section Queue.
Context `{QueueLaws Queue MarketEvent}.
Implicit Types (b : queue_bench Queue).

Definition left_to_push (p : pusher) : list MarketEvent :=
  match p with PushingEvents todo => todo | _ => [] end.
Definition shut (p : pusher) : bool :=
  match p with AtJoin | Finished => true | _ => false end.

Definition bench_moves : relation (queue_bench Queue) := bench_step.

Record bench_inv (events : list MarketEvent) b : Prop := {
  bi_conserved : events = taken b ++ items (view (bench_queue b)) ++ left_to_push (pusher_at b);
  bi_closed : closed (view (bench_queue b)) = shut (pusher_at b);
  bi_bound : queue_bound (bench_queue b) = 1024;
  bi_size : length (items (view (bench_queue b))) <= 1024;
  bi_over : taking b = false ->
    shut (pusher_at b) = true /\ items (view (bench_queue b)) = [];
  bi_joined : pusher_at b = Finished -> taking b = false
}.

Definition bench_weight b : nat :=
  match pusher_at b with
  | PushingEvents todo => 3 + 2 * length todo
  | AtShutdown => 2 | AtJoin => 1 | Finished => 0
  end + length (items (view (bench_queue b))) + (if taking b then 1 else 0).

Lemma bench_inv_new events : bench_inv events (benchmarkQueue events).
Proof.
  split; cbn; try done; rewrite ?view_new; cbn; try done; [apply bound_new|lia].
Qed.

Lemma bench_inv_step events b b' :
  bench_inv events b -> bench_step b b' -> bench_inv events b' /\ bench_weight b' < bench_weight b.
Proof.
  intros [Hc Hcl Hb Hs Hov Hj] Hst. unfold bench_weight.
  destruct Hst as [q e todo t es ok q' Hp|q t es|q t es|q es|q at_ es r q' Hp]; cbn in *.
  - destruct (push_open 1024 e q ok q' Hb Hcl Hp) as (-> & Hi & Hcl' & Hb' & Hs'). split.
    + split; cbn; try done; [by rewrite Hi, <-app_assoc|].
      intros Ht. destruct (Hov Ht). done.
    + rewrite Hi, length_app. cbn. lia.
  - split; [|lia]. by split.
  - destruct (shutdown_result q) as (Hcl' & Hi & Hb'). split; [|rewrite Hi; lia].
    split; cbn; rewrite ?Hi; try done; [congruence|]. intros Ht. by destruct (Hov Ht).
  - split; [|lia]. by split.
  - destruct (pop_result 1024 q r q' Hb Hp) as (Hcl' & Hb' & Hr). destruct r as [e|]; cbn.
    + rewrite Hr in *. cbn in *. split; [|lia].
      split; cbn; try done; [by rewrite <-app_assoc|congruence|lia].
    + destruct Hr as (Hr1 & Hr2 & Hr3). split; [|rewrite Hr2, Hr3; lia].
      split; cbn; try done; rewrite ?Hr3, <-?Hr2; try done; [congruence|].
      intros _. split; congruence.
Qed.

Lemma bench_rest events b :
  bench_inv events b -> nf bench_moves b -> pusher_at b = Finished /\ taking b = false.
Proof.
  intros [Hc Hcl Hb Hs Hov Hj] Hnf. destruct b as [q at_ t es]. cbn in *.
  assert (Hstep : forall b', bench_step (QueueBench q at_ t es) b' -> False)
    by (intros b' Hst; apply Hnf; by exists b').
  destruct t.
  - exfalso. destruct (try_pop q) as [[r q']|] eqn:Hp.
    + eapply Hstep. by constructor.
    + apply pop_blocks in Hp as [Hopen Hi]. rewrite Hcl in Hopen.
      destruct at_ as [[|e todo]| | |]; try done; try (eapply Hstep; by constructor).
      destruct (try_push e q) as [[ok q']|] eqn:Hpush;
        [eapply Hstep, bench_push, Hpush|].
      apply push_blocks in Hpush as [_ Hlen]. rewrite Hi, Hb in Hlen. cbn in Hlen. lia.
  - split; [|done]. destruct (Hov eq_refl) as [Hsh _].
    destruct at_; try done. exfalso. eapply Hstep. constructor.
Qed.
End Queue.

(** ** Properties *)

(** The queue benchmark.  Whatever the interleaving of the two threads, the
    hand-over takes finitely many steps; at every moment the queue holds at
    most 1024 events and no event is lost, doubled or reordered; and where
    nothing moves any more both threads are over and the consumer has taken
    exactly the events given. *)
Theorem bench_queue_complete `{QueueLaws Queue MarketEvent} (events : list MarketEvent) :
  sn (bench_moves (Queue := Queue)) (benchmarkQueue events) /\
  forall b, rtc bench_moves (benchmarkQueue events) b ->
    (exists rest, events = taken b ++ rest) /\ queue_size (bench_queue b) <= 1024 /\
    (nf bench_moves b -> pusher_at b = Finished /\ taking b = false /\ taken b = events).
Proof.
  split.
  - apply (measure_sn _ (bench_inv events) bench_weight); [apply bench_inv_new|].
    intros b b'. apply bench_inv_step.
  - intros b Hr. assert (Hi : bench_inv events b).
    { revert Hr. apply rtc_invariant; [apply bench_inv_new|]. intros b1 b2 H1' Hs.
      by apply (bench_inv_step events b1 b2). }
    pose proof Hi as [Hc Hcl Hb Hs Hov Hj]. split; [eauto|]. split; [by rewrite size_view|].
    intros Hnf. destruct (bench_rest events b Hi Hnf) as [Hp Ht]. split; [done|]. split; [done|].
    destruct (Hov Ht) as [_ Hq]. rewrite Hq, Hp in Hc. cbn in Hc. by rewrite app_nil_r in Hc.
Qed.

Lemma length_repeated {A} (l : list A) n : length (concat (replicate n l)) = n * length l.
Proof. induction n as [|n IH]; [done|]. cbn. by rewrite length_app, IH. Qed.

Section Load.
Context `{JsonLaws}.

Lemma stamp_untimed es : forall clock, untimed <$> stamp clock es = untimed <$> es.
Proof. induction es as [|e es IH]; intros clock; [done|]. cbn. f_equal. apply IH. Qed.

Lemma load_spec read_file path text n :
  read_file path = Some text ->
  Forall (fun l => is_fatal l = false) (getlines newline text) ->
  length (replayed_events (getlines newline text)) < n ->
  forall repeats clock events, exists loaded,
    loadFixtureRepeated read_file n clock path repeats events = Some (Ok (events ++ loaded)) /\
    untimed <$> loaded =
      concat (replicate repeats (untimed <$> replayed_events (getlines newline text))).
Proof.
  intros Hfile Hf Hn. induction repeats as [|repeats IH]; intros clock events.
  - exists []. by rewrite app_nil_r.
  - cbn [loadFixtureRepeated]. unfold ReplaySource.start, ifstream_open. cbn. rewrite Hfile. cbn.
    destruct (drain_spec n (clock 0) (set_in {| filebuf := Some text; failbit := false |}
      (ReplaySource_new path)) default_event text) as (s' & Hd & _); try done.
    rewrite Hd. destruct (IH (fun r => clock (S r))
      (events ++ stamp (clock 0) (replayed_events (getlines newline text)))) as (loaded & -> & Hl).
    eexists. rewrite <-app_assoc. split; [reflexivity|].
    rewrite fmap_app, stamp_untimed, Hl. done.
Qed.
End Load.

(** The benchmark's sample.  The events loaded are those of the fixture,
    in order, over and over, [repeats] times, up to the receipt times stamped
    on them, if the fixture holds no number that overflows a double; and a
    fixture that cannot be opened ends the benchmark with [runtime_error]. *)
Theorem load_fixture `{JsonLaws} read_file n clock path repeats :
  match read_file path with
  | None => 0 < repeats -> exists what,
      loadFixtureRepeated read_file n clock path repeats [] = Some (Throw (RuntimeError what))
  | Some text =>
      Forall (fun l => is_fatal l = false) (getlines newline text) ->
      length (replayed_events (getlines newline text)) < n ->
      exists events, loadFixtureRepeated read_file n clock path repeats [] = Some (Ok events) /\
        untimed <$> events =
          concat (replicate repeats (untimed <$> replayed_events (getlines newline text))) /\
        length events = repeats * length (replayed_events (getlines newline text))
  end.
Proof.
  destruct (read_file path) as [text|] eqn:Hfile.
  - intros Hf Hn. destruct (load_spec read_file path text n Hfile Hf Hn repeats clock [])
      as (events & Hl & Hu). exists events. split; [done|]. split; [done|].
    apply (f_equal length) in Hu. by rewrite length_fmap, length_repeated, length_fmap in Hu.
  - destruct repeats as [|repeats]; [lia|]. intros _. cbn.
    unfold ReplaySource.start, ifstream_open. cbn. rewrite Hfile. cbn. by eexists.
Qed.

Lemma load_fixture_witness :
  exists events,
    @loadFixtureRepeated tree_ops one_file 2 (fun _ k => Z.of_nat k) "a.jsonl" 3 [] = Some (Ok events) /\
    length events = 3.
Proof.
  assert (Hl : getlines newline one_line = [sampleLine]) by (vm_compute; reflexivity).
  assert (Hr : @replayed_events tree_ops [sampleLine] = [restored sampleEvent])
    by (vm_compute; reflexivity).
  pose proof (@load_fixture tree_ops tree_laws one_file 2 (fun _ k => Z.of_nat k) "a.jsonl" 3) as Hload.
  change (one_file "a.jsonl") with (Some one_line) in Hload. cbv beta iota in Hload.
  rewrite Hl, Hr in Hload. destruct Hload as (events & He & _ & Hlen).
  - constructor; [vm_compute; reflexivity|constructor].
  - cbn. lia.
  - exists events. split; [exact He|exact Hlen].
Defined.

(** ** The Kafka benchmarks *)
Section Consume.
Context `{JsonLaws} `{Librdkafka K}.
Implicit Types (c : KafkaEventConsumer K).

(** A poll that brings no message. *)
Definition no_message (m : poll_result) : Prop :=
  match m with PollMessage _ _ _ => False | _ => True end.

Lemma next_idle polls : forall now c out,
  Forall no_message polls -> Kafka.stop_requested_ c = false ->
  consumer_next (fun _ => false) now polls c out = None.
Proof.
  induction polls as [|m polls IH]; intros now c out Hp Hc; cbn [consumer_next]; rewrite Hc; [done|].
  apply Forall_cons in Hp as [Hm Hp]. destruct m; try done; by apply IH.
Qed.

(** A call of [next] that nobody stops returns only with a record. *)
Lemma next_unstopped polls now c out b c' out' rest :
  Kafka.stop_requested_ c = false ->
  consumer_next (fun _ => false) now polls c out = Some (Ok (b, c', out'), rest) ->
  b = true /\ Kafka.stop_requested_ c' = false.
Proof.
  revert c out. induction polls as [|m polls IH]; intros c out Hc; cbn [consumer_next]; rewrite Hc; [done|].
  destruct m as [|what|payload part off]; [by apply IH..|].
  destruct (json_parse payload) as [j|[]]; try done; [|by apply IH].
  destruct (marketEventFromJson j None) as [[[e|] eo]|]; [|by apply IH|done].
  by intros [= <- <- _ _].
Qed.

Lemma bench_consume_spec fuel : forall expected deadline clock now polls c record consumed n c' rest,
  Kafka.stop_requested_ c = false -> consumed <= expected ->
  bench_consume fuel expected deadline clock now polls c record consumed = Some (Ok (n, c', rest)) ->
  exists read, polls = read ++ rest /\ n = consumed + length (omap record_of read) /\ n <= expected /\
    (n = expected \/ exists k, (deadline <= clock k)%Z /\ k = length (omap record_of read)).
Proof.
  induction fuel as [|fuel IH];
    intros expected deadline clock now polls c record consumed n c' rest Hc Hle; [done|].
  cbn [bench_consume]. case_bool_decide as H1'; cbn [andb].
  2: { intros [= <- <- <-]. exists []. split; [done|]. cbn. split; [lia|]. split; [lia|]. left. lia. }
  case_bool_decide as H2'.
  2: { intros [= <- <- <-]. exists []. split; [done|]. cbn. split; [lia|]. split; [lia|].
       right. exists 0. split; [lia|done]. }
  destruct (consumer_next (fun _ => false) (now 0) polls c record)
    as [[[[[b c1] r1]|x] rest1]|] eqn:Hn; try done.
  destruct (next_unstopped _ _ _ _ _ _ _ _ Hc Hn) as [-> Hc1].
  apply consumer_next_spec in Hn as (read1 & -> & _ & _ & r & Hr & _).
  intros Hl. apply IH in Hl as (read & -> & -> & Hle' & Hend); [|done|lia].
  exists (read1 ++ read). rewrite omap_app, Hr, <-app_assoc, length_app. cbn [length].
  split; [done|]. split; [lia|]. split; [done|]. destruct Hend as [He|(k & Hk & ->)]; [left; lia|].
  right. eexists. split; [exact Hk|]. lia.
Qed.
End Consume.

(** What the consumer benchmark counts.  When it returns, it has read some
    prefix of what the polls brought; the number it reports is the number of
    records in that prefix, never more than expected; and either it is the
    number expected, or the clock had passed the deadline at the test after the
    last record. *)
Theorem bench_consumer_counts `{JsonLaws} `{Librdkafka K} fuel ticks start_ expected clock now polls
  brokers_ topic_ consumed malformed (c : KafkaEventConsumer K)
  (Hb : benchmarkKafkaConsumer fuel ticks start_ expected clock now polls brokers_ topic_ =
        Some (Ok (consumed, malformed, c))) :
  exists read rest, polls = read ++ rest /\ consumed = length (omap record_of read) /\
    consumed <= expected /\ (consumed = expected \/ (start_ + 30000000000 <= clock consumed)%Z) /\
    Kafka.stop_requested_ c = true.
Proof.
  unfold benchmarkKafkaConsumer in Hb.
  destruct (KafkaEventConsumer_new _) as [c0|x] eqn:Hc; [|done].
  destruct (consumer_start c0); [|done].
  destruct (bench_consume _ _ _ _ _ _ _ _ _) as [[[[n c1] rest]|x]|] eqn:Hl; [|done..].
  injection Hb as <- <- <-.
  apply bench_consume_spec in Hl as (read & -> & -> & Hle & Hend); [| |lia].
  - exists read, rest. split_and!; try done. destruct Hend as [He|(k & Hk & ->)]; [by left|by right].
  - by apply new_consumer in Hc as (_ & ? & _).
Qed.

(** One message is there, and one is expected. *)
Definition bench_poll : list poll_result :=
  match @event_line tree_ops sampleEvent with Ok l => [PollMessage l 3 17] | Throw _ => [] end.
Definition bench_left : KafkaEventConsumer broker :=
  {| cconfig_ := bench_consumer_config 5 "b" "t"; consumer_ := {| box := []; told := 0; room := 1 |};
     Kafka.stop_requested_ := true; messages_consumed_ := 1; Kafka.messages_malformed_ := 0 |}.

Lemma bench_consumer_counts_witness :
  exists read rest, bench_poll = read ++ rest /\ 1 = length (omap (@record_of tree_ops) read).
Proof.
  destruct (@bench_consumer_counts tree_ops tree_laws broker _ 2 5 0 1 (fun _ => 1%Z) (fun _ => 1%Z)
    bench_poll "b" "t" 1 0%Z bench_left) as (read & rest & Hp & Hn & _).
  - vm_compute. reflexivity.
  - exists read, rest. split; [exact Hp|exact Hn].
Defined.

(** C36: the deadline does not bound the benchmark.  On a topic that brings no
    message, [benchmarkKafkaConsumer] with something to wait for never comes
    back: however many times it polls and whatever the clock says meanwhile,
    it is still inside the [next] it has called before the deadline. *)
Theorem bench_deadline_unenforced `{JsonLaws} `{Librdkafka K} fuel ticks start_ expected clock now polls
  brokers_ topic_ (c : KafkaEventConsumer K)
  (Hc : KafkaEventConsumer_new (bench_consumer_config ticks brokers_ topic_) = Ok c)
  (Hs : consumer_start c = Ok tt)
  (He : 0 < expected) (Hd : (clock 0%nat < start_ + 30000000000)%Z) (Hp : Forall no_message polls) :
  benchmarkKafkaConsumer (K := K) fuel ticks start_ expected clock now polls brokers_ topic_ = None.
Proof.
  unfold benchmarkKafkaConsumer. rewrite Hc, Hs.
  apply new_consumer in Hc as (_ & Hstop & _).
  destruct fuel as [|fuel]; [done|]. cbn [bench_consume].
  rewrite !bool_decide_eq_true_2 by done. cbn [andb]. by rewrite next_idle.
Qed.

Definition bench_consumer : KafkaEventConsumer broker :=
  {| cconfig_ := bench_consumer_config 5 "b" "t"; consumer_ := {| box := []; told := 0; room := 1 |};
     Kafka.stop_requested_ := false; messages_consumed_ := 0; Kafka.messages_malformed_ := 0 |}.

Lemma bench_deadline_unenforced_witness :
  @benchmarkKafkaConsumer tree_ops broker _ 9 5 0 1 (fun k => (60000000000 * Z.of_nat k)%Z) (fun _ => 0%Z)
    [PollNothing; PollNothing; PollNothing] "b" "t" = None.
Proof.
  apply (@bench_deadline_unenforced tree_ops tree_laws broker _ 9 5 0 1
    (fun k => (60000000000 * Z.of_nat k)%Z) (fun _ => 0%Z) [PollNothing; PollNothing; PollNothing]
    "b" "t" bench_consumer).
  - reflexivity.
  - reflexivity.
  - lia.
  - reflexivity.
  - repeat constructor.
Defined.

(** What the producer benchmark sends.  For printable events and a broker
    list that is accepted it never throws; it hands librdkafka, in order, one
    message for each event whose [publish] succeeded; and the delivery counts
    it prints add up, modulo 2^64, to at most the number of events. *)
Theorem bench_producer_sends `{JsonOps} `{KafkaLaws K} brokers_ topic_ events (p : KafkaEventProducer K)
  (Hp : KafkaEventProducer_new {| brokers := brokers_; topic := topic_ |} = Ok p)
  (Hes : Forall (fun e => exists l, event_line e = Ok l) events) :
  exists bs succeeded failed p', benchmarkKafkaProducer events brokers_ topic_ =
      Ok (succeeded, failed, p') /\ length bs = length events /\
    outbox (producer_ p') = sent topic_ events bs /\
    exists n, wrap_u64 (succeeded + failed) = wrap_u64 (Z.of_nat n) /\ n <= length events.
Proof.
  unfold benchmarkKafkaProducer. rewrite Hp. cbn [mbind outcome_bind].
  destruct (new_producer_ok _ _ Hp) as (Hok & Hc & Ho).
  destruct (publish_all_spec events p Hok Hes) as (bs & p1 & Hall & Hlen & Hok1 & Hc1 & Ho1).
  rewrite Hall. cbn [mbind outcome_bind].
  destruct (flush_producer_spec 30000 p1 Hok1) as (Hok2 & _ & Ho2).
  pose proof (flush_producer_spec 10000 _ Hok2) as (_ & _ & Ho3).
  exists bs. do 3 eexists. split; [reflexivity|]. split; [done|].
  rewrite Ho, Hc in Ho1. cbn in Ho1. split.
  - unfold KafkaEventProducer_destroy. cbn. by rewrite destroy_outbox, Ho3, Ho2, Ho1.
  - destruct Hok2 as [Hle Hsum]. eexists. split; [exact Hsum|].
    rewrite Ho2, Ho1 in Hle. rewrite (sent_length topic_ events bs Hlen Hes) in Hle.
    pose proof (count_short (fun b : bool => b) bs). lia.
Qed.

Lemma bench_producer_sends_witness :
  exists bs succeeded failed p', @benchmarkKafkaProducer tree_ops broker _ [sampleEvent; sampleEvent] "b" "t" =
      Ok (succeeded, failed, p') /\ @length bool bs = 2.
Proof.
  destruct (@bench_producer_sends tree_ops broker _ _ "b" "t" [sampleEvent; sampleEvent] demo_producer)
    as (bs & succeeded & failed & p' & Hb & Hl & _).
  - reflexivity.
  - constructor; [eexists; vm_compute; reflexivity|].
    constructor; [eexists; vm_compute; reflexivity|constructor].
  - exists bs, succeeded, failed, p'. split; [exact Hb|exact Hl].
Defined.
