(* ===== verification/IngestionService.v ===== *)
(** * The ingestion service

    services/ingestion/main.cpp: what [main] builds from the command line and
    the environment, and [main] itself as the owner of an ingestion pipeline,
    interleaved with the pipeline's threads and with signals.  Every access of
    [main] to something a thread shares (the flag, the pipeline's counters, the
    producer's) is one step. *)
From S2P Require Import Prelude CxxStrings CommandLine Config MarketEvent Json EventRecorder.
From S2P Require Import BoundedQueue Interfaces IngestionPipeline ReplaySource LiveSource.
From S2P Require Import PipelineReplay LiveProperties Kafka KafkaProperties.

(** ** What main builds *)
Section Setup.
Context `{JsonOps} `{Librdkafka K}.

(** The source the options ask for: the two classes behind
    [std::unique_ptr<MarketDataSource>]. *)
Definition live_config (environ : gmap string string) : LiveSourceConfig :=
  {| host := host default_config; port := port default_config;
     symbols := splitSymbols (getEnvOr environ "TICKFORGE_SYMBOLS" "btcusdt,ethusdt");
     initial_backoff := initial_backoff default_config;
     max_backoff := max_backoff default_config |}.

Definition make_source (environ : gmap string string) (replay : string)
    : ReplaySource + LiveSource :=
  if negb (is_empty replay) then inl (ReplaySource_new replay)
  else inr (LiveSource_new (live_config environ)).

Definition kafka_config (environ : gmap string string) : KafkaProducerConfig :=
  {| brokers := getEnvOr environ "KAFKA_BOOTSTRAP_SERVERS" "localhost:9092";
     topic := getEnvOr environ "KAFKA_TOPIC" "market-events" |}.

Definition make_recorder (openable : string -> bool) (record : string) (fs : files)
    : outcome (option EventRecorder * files) :=
  if negb (is_empty record)
  then '(r, fs) ← EventRecorder_open openable record fs; Ok (Some r, fs)
  else Ok (None, fs).

(** What [main] has in hand when it constructs the pipeline. *)
Record built := {
  built_source : ReplaySource + LiveSource;
  built_publisher : KafkaEventProducer K;
  built_capacity : nat;
  built_recorder : option EventRecorder;
  built_files : files
}.

(** The first half of [main].  What is thrown here nobody catches. *)
Definition ingestion_setup (environ : gmap string string) (openable : string -> bool)
    (argv : list string) (fs : files) : option (outcome built) :=
  options ← parse_args argv;
  Some (o ← options;
        let source := make_source environ (replay_path o) in
        publisher ← KafkaEventProducer_new (kafka_config environ);
        '(recorder, fs) ← make_recorder openable (record_path o) fs;
        Ok {| built_source := source; built_publisher := publisher;
              built_capacity := Z.to_nat (queue_capacity_arg o);
              built_recorder := recorder; built_files := fs |}).
End Setup.
Arguments built K : clear implicits.

(** ** main *)

(** Where [main] is, from the call of [pipeline.start()] on; [vals] are the
    numbers it has read for the line it is about to print. *)
Inductive main_pc (U : Type) :=
  | AtStart
  | Starting                              (* inside pipeline.start() *)
  | PollFlag                              (* at !g_shutdown_requested *)
  | PollFinished                          (* at !pipeline.ingestFinished() *)
  | Asleep
  | ReadingStats (now : Z) (vals : list Z)
  | AtRequestStop
  | AtStop
  | Stopping                              (* inside pipeline.stop() *)
  | ReadingFinal (vals : list Z)
  | AtReturn
  | Destroying                            (* inside ~IngestionPipeline *)
  | Exited (publisher : U)                (* return 0, with the producer's last state *)
  | Died.                                 (* std::terminate *)
Arguments AtStart {U}. Arguments Starting {U}. Arguments PollFlag {U}.
Arguments PollFinished {U}. Arguments Asleep {U}. Arguments ReadingStats {U} _ _.
Arguments AtRequestStop {U}. Arguments AtStop {U}. Arguments Stopping {U}.
Arguments ReadingFinal {U} _. Arguments AtReturn {U}. Arguments Destroying {U}.
Arguments Exited {U} _. Arguments Died {U}.

Inductive output := StatsLine (vals : list Z) | FinalLine (vals : list Z).

Record service (Src K Queue : Type) := Svc {
  main : main_pc (KafkaEventProducer K);
  shutdown_requested : bool;
  last_report : Z;
  printed : list output;
  pipe : state Src (KafkaEventProducer K) Queue
}.
Arguments Svc {Src K Queue} _ _ _ _ _.
Arguments main {Src K Queue} _.
Arguments shutdown_requested {Src K Queue} _.
Arguments last_report {Src K Queue} _.
Arguments printed {Src K Queue} _.
Arguments pipe {Src K Queue} _.

(** [main] still runs, so the process does. *)
Definition alive {U} (pc : main_pc U) : bool :=
  match pc with Exited _ | Died => false | _ => true end.

Section Code.
Context `{JsonOps} `{MarketDataSource Src} `{Librdkafka K} `{!KafkaLaws K}
  `{BlockingQueue Queue MarketEvent}.
Implicit Types (p : IngestionPipeline Src (KafkaEventProducer K) Queue)
  (c : state Src (KafkaEventProducer K) Queue) (m : service Src K Queue).

(** What the two lines print, in the order in which it is read: first
    [stats()], then the producer's counters, then the depth of the queue. *)
Definition stats_fields : list (IngestionPipeline Src (KafkaEventProducer K) Queue -> Z) :=
  [ events_received_; events_published_; publish_failures_;
    fun p => Z.of_nat (queue_mark (pqueue_ p)); fun p => Z.of_nat (queue_bound (pqueue_ p)) ].
Definition delivery_fields : list (IngestionPipeline Src (KafkaEventProducer K) Queue -> Z) :=
  [ fun p => deliverySuccessCount (publisher_ p); fun p => deliveryFailureCount (publisher_ p) ].
Definition report_fields := stats_fields ++ delivery_fields ++
  [ fun p => Z.of_nat (queueDepth p) ].
Definition final_fields := stats_fields ++ delivery_fields.

Definition two_seconds : Z := 2000000000.

(** One step of [main]; the labels are those of the pipeline. *)
Inductive main_step : service Src K Queue -> list event_label -> service Src K Queue -> Prop :=
  | main_start g t out p i w fs s' :
      source_start (source_ p) s' (Ok tt) ->
      main_step (Svc AtStart g t out (St p i w OwnerIdle fs)) [Started]
        (Svc Starting g t out (St (set_started (with_source s' p)) i w SpawnIngest fs))
  | main_start_throws g t out p i w fs s' x :
      source_start (source_ p) s' (Throw x) ->
      main_step (Svc AtStart g t out (St p i w OwnerIdle fs)) [StartFailed x]
        (Svc Died g t out (St (with_source s' p) i w OwnerIdle fs))
  | main_started g t out c now :
      owner c = OwnerIdle ->
      main_step (Svc Starting g t out c) [] (Svc PollFlag g now out c)
  | main_poll_flag g t out c :
      main_step (Svc PollFlag g t out c) []
        (Svc (if g then AtRequestStop else PollFinished) g t out c)
  | main_poll_finished g t out c :
      main_step (Svc PollFinished g t out c) []
        (Svc (if ingestFinished (pipeline c) then AtRequestStop else Asleep) g t out c)
  | main_wake g t out c now :
      main_step (Svc Asleep g t out c) []
        (Svc (if bool_decide (two_seconds <= now - t)%Z then ReadingStats now [] else PollFlag)
             g t out c)
  | main_read g t out c now vals f :
      report_fields !! length vals = Some f ->
      main_step (Svc (ReadingStats now vals) g t out c) []
        (Svc (ReadingStats now (vals ++ [f (pipeline c)])) g t out c)
  | main_report g t out c now vals :
      length vals = length report_fields ->
      main_step (Svc (ReadingStats now vals) g t out c) []
        (Svc PollFlag g now (out ++ [StatsLine vals]) c)
  | main_request_stop g t out p i w o fs :
      main_step (Svc AtRequestStop g t out (St p i w o fs))
        [if started_ p then StopRequested else Quiet]
        (Svc AtStop g t out (St (requestStop p) i w o fs))
  | main_stop g t out p i w fs :
      main_step (Svc AtStop g t out (St p i w OwnerIdle fs)) [Quiet]
        (Svc Stopping g t out (St p i w (begin_stop false p) fs))
  | main_stopped g t out c :
      owner c = OwnerIdle ->
      main_step (Svc Stopping g t out c) [] (Svc (ReadingFinal []) g t out c)
  | main_read_final g t out c vals f :
      final_fields !! length vals = Some f ->
      main_step (Svc (ReadingFinal vals) g t out c) []
        (Svc (ReadingFinal (vals ++ [f (pipeline c)])) g t out c)
  | main_final g t out c vals :
      length vals = length final_fields ->
      main_step (Svc (ReadingFinal vals) g t out c) []
        (Svc AtReturn g t (out ++ [FinalLine vals]) c)
  | main_destroy g t out p i w fs :
      main_step (Svc AtReturn g t out (St p i w OwnerIdle fs))
        [if started_ p then StopRequested else Quiet]
        (Svc Destroying g t out (St (requestStop p) i w DestructorStop fs))
  | main_exit g t out c :
      owner c = Destroyed -> ingest_thread_ (pipeline c) = false ->
      publish_thread_ (pipeline c) = false ->
      main_step (Svc Destroying g t out c) []
        (Svc (Exited (KafkaEventProducer_destroy (publisher_ (pipeline c)))) g t out c).

(** The process: its threads, [main], and the ends that are no return. *)
Inductive service_step : service Src K Queue -> list event_label -> service Src K Queue -> Prop :=
  | service_thread pc g t out c l c' :
      alive pc = true -> thread_step c l c' ->
      service_step (Svc pc g t out c) [l] (Svc pc g t out c')
  | service_main m ls m' : main_step m ls m' -> service_step m ls m'
  | service_abort pc g t out c :
      alive pc = true -> aborts c ->
      service_step (Svc pc g t out c) [] (Svc Died g t out c).

(** [handleSignal]. *)
Definition handleSignal m : service Src K Queue :=
  Svc (main m) true (last_report m) (printed m) (pipe m).

Definition service_moves : relation (service Src K Queue) :=
  fun m m' => exists ls, service_step m ls m'.
Definition main_moves : relation (service Src K Queue) :=
  fun m m' => exists ls, main_step m ls m'.

(** [main] when it has built everything and comes to [pipeline.start()]. *)
Definition service_begin (s : Src) (u : KafkaEventProducer K) (cap : nat)
    (r : option EventRecorder) (fs : files) : service Src K Queue :=
  Svc AtStart false 0 [] (fresh s u cap r fs).

Inductive runs (m0 : service Src K Queue) : list event_label -> service Src K Queue -> Prop :=
  | runs_refl : runs m0 [] m0
  | runs_step tr m ls m' : runs m0 tr m -> service_step m ls m' -> runs m0 (tr ++ ls) m'
  | runs_signal tr m : runs m0 tr m -> runs m0 tr (handleSignal m).
End Code.

(** ** Properties *)

(** What [main] builds.  For every environment and command line: an
    argument that [std::stoul] refuses ends the program with its exception, a
    broker list or a capture file that is refused with a [runtime_error]; and
    otherwise the source is a replay of the given file, or the live one with
    the symbols of the environment when there is none, the producer is new and
    writes to the configured topic, the queue has the capacity asked for, and
    there is a recorder, on the file given, exactly when one was asked for. *)
Theorem setup_builds `{JsonOps} `{KafkaLaws K} environ openable argv fs :
  match parse_args argv, ingestion_setup (K := K) environ openable argv fs with
  | Some (Throw x), Some (Throw y) => x = y
  | Some (Ok o), Some (Throw x) => exists what, x = RuntimeError what
  | Some (Ok o), Some (Ok b) =>
      built_source b =
        (if is_empty (replay_path o) then inr (LiveSource_new (live_config environ))
         else inl (ReplaySource_new (replay_path o))) /\
      producer_ok (built_publisher b) /\ outbox (producer_ (built_publisher b)) = [] /\
      pconfig_ (built_publisher b) = kafka_config environ /\
      Z.of_nat (built_capacity b) = queue_capacity_arg o /\
      if is_empty (record_path o) then built_recorder b = None /\ built_files b = fs
      else built_recorder b = Some {| out_path := record_path o |} /\
           openable (record_path o) = true /\
           built_files b = <[record_path o := default EmptyString (fs !! record_path o)]> fs
  | _, _ => False
  end.
Proof.
  unfold ingestion_setup. destruct (parse_args argv) as [[o|x]|] eqn:Hp; [..|].
  - apply parse_args_range in Hp as [Hcap _]. cbn.
    destruct (KafkaEventProducer_new (kafka_config environ)) as [p|x] eqn:Hk; cbn.
    + apply new_producer_ok in Hk as (Hok & Hc & Ho). unfold make_recorder, make_source, EventRecorder_open.
      destruct (is_empty (record_path o)) eqn:Er; cbn.
      * split_and!; try done; [by destruct (is_empty (replay_path o))|lia].
      * destruct (openable (record_path o)) eqn:Eo; cbn; [|by eexists].
        split_and!; try done; [by destruct (is_empty (replay_path o))|lia].
    + unfold KafkaEventProducer_new in Hk. destruct (kafka_conf_set _ _) as [e|];
        [injection Hk as <-; by eexists|].
      destruct (kafka_new _) as [e|k]; [injection Hk as <-; by eexists|done].
  - done.
  - unfold parse_args in Hp. by rewrite arg_loop_settle in Hp by lia.
Qed.
