(* ===== verification/ServiceInvariant.v ===== *)
(** * The ingestion service: its invariant

    Every run of [main] is an execution of its pipeline that keeps to the
    pipeline's protocol, and [main] is where the pipeline's owner is. *)
From S2P Require Import Prelude CxxStrings MarketEvent Json MarketEventJson EventRecorder.
From S2P Require Import BoundedQueue Interfaces IngestionPipeline PipelineInvariant.
From S2P Require Import PipelineProgress PipelineProperties Kafka KafkaProperties PipelineKafka IngestionService.

Section Invariant.
Context `{JsonOps} `{MarketDataSource Src} `{KafkaLaws K} `{QueueLaws Queue MarketEvent}.
Implicit Types (p : IngestionPipeline Src (KafkaEventProducer K) Queue)
  (c : state Src (KafkaEventProducer K) Queue) (m : service Src K Queue)
  (tr : list event_label).

(** [main] waits in its poll loop, or prints a report there. *)
Definition polling {U} (pc : main_pc U) : bool :=
  match pc with
  | PollFlag | PollFinished | Asleep | ReadingStats _ _ | AtRequestStop => true
  | _ => false
  end.

(** [main] has called [requestStop()]. *)
Definition told {U} (pc : main_pc U) : bool :=
  match pc with
  | AtStop | Stopping | ReadingFinal _ | AtReturn | Destroying | Exited _ => true
  | _ => false
  end.

(** [pipeline.stop()] has returned. *)
Definition stop_done {U} (pc : main_pc U) : bool :=
  match pc with ReadingFinal _ | AtReturn | Destroying | Exited _ => true | _ => false end.

(** The numbers the final line is about. *)
Definition final_values p : list Z := (fun f => f p) <$> final_fields.

#[local] Arguments final_values : simpl never.
#[local] Arguments final_fields : simpl never.

(** No more numbers are read than the line has. *)
Definition line_fits {U} (pc : main_pc U) : Prop :=
  match pc with ReadingStats _ vals => length vals <= 8 | _ => True end.

(** Where the pipeline's owner is, for each place of [main]. *)
Definition owned (pc : main_pc (KafkaEventProducer K)) (out : list output) c : Prop :=
  match pc with
  | AtStart => started_ (pipeline c) = false /\ stopped_ (pipeline c) = false /\ owner c = OwnerIdle
  | Starting =>
      started_ (pipeline c) = true /\ stopped_ (pipeline c) = false /\
      (owner c = SpawnIngest \/ owner c = SpawnPublish \/ owner c = OwnerIdle)
  | PollFlag | PollFinished | Asleep | ReadingStats _ _ | AtRequestStop | AtStop =>
      started_ (pipeline c) = true /\ stopped_ (pipeline c) = false /\ owner c = OwnerIdle
  | Stopping => started_ (pipeline c) = true /\ in_stop false c
  | ReadingFinal vals =>
      stopped_ (pipeline c) = true /\ owner c = OwnerIdle /\
      vals = take (length vals) (final_values (pipeline c))
  | AtReturn =>
      stopped_ (pipeline c) = true /\ owner c = OwnerIdle /\
      List.last out (StatsLine []) = FinalLine (final_values (pipeline c))
  | Destroying =>
      stopped_ (pipeline c) = true /\ (owner c = DestructorStop \/ owner c = Destroyed) /\
      List.last out (StatsLine []) = FinalLine (final_values (pipeline c))
  | Exited u =>
      stopped_ (pipeline c) = true /\ owner c = Destroyed /\
      u = KafkaEventProducer_destroy (publisher_ (pipeline c)) /\
      List.last out (StatsLine []) = FinalLine (final_values (pipeline c))
  | Died => True
  end.

(** A stopped pipeline makes one step more, into the end of its destructor. *)
Lemma stopped_still cap tr c l c' :
  inv cap tr c -> stopped_ (pipeline c) = true -> thread_step c l c' ->
  owner c = DestructorStop /\ owner c' = Destroyed /\ pipeline c' = pipeline c.
Proof.
  intros Hinv Hst Hs. destruct (stopped_drained cap tr c Hinv Hst) as [Hi Hw].
  pose proof (inv_phase _ _ _ Hinv) as Hph.
  destruct Hs as [Hs|[Hs|Hs]]; destruct Hs; cbn in *; try done; unfold phase in Hph; cbn in Hph.
  all: try (destruct Hph as [_ Hph]; unfold not_started, half_started, running, joined, draining,
    drained in Hph; cbn in Hph; exfalso; naive_solver congruence).
  unfold begin_stop. by rewrite Hst.
Qed.

(** What a thread can do to what the owner relies on. *)
Lemma thread_owner c l c' :
  thread_step c l c' ->
  started_ (pipeline c') = started_ (pipeline c) /\
  (stopped_ (pipeline c') = stopped_ (pipeline c) \/ exists d, owner c = MarkStopped d) /\
  (owner c' = owner c \/
   match owner c with OwnerIdle | Destroyed => False
   | SpawnIngest => owner c' = SpawnPublish | SpawnPublish => owner c' = OwnerIdle
   | _ => True end).
Proof.
  intros [Hs|[Hs|Hs]]; destruct Hs; cbn; try (by split_and!; auto).
  - destruct b; by split_and!; auto.
  - split; [done|]. split; [right; by eexists|by right].
Qed.

Lemma owned_thread cap tr pc out c l c' :
  inv cap tr c -> owned pc out c -> thread_step c l c' -> alive pc = true -> owned pc out c'.
Proof.
  intros Hinv Ho Hs Hal. destruct (thread_owner c l c' Hs) as (Est & Esp & Eo).
  assert (Hstill : stopped_ (pipeline c) = true -> owner c = DestructorStop /\
    owner c' = Destroyed /\ pipeline c' = pipeline c) by (intros; by eapply stopped_still).
  destruct pc; cbn in *; try done;
    try (destruct Ho as (Hst & Hsp & Ho); rewrite Ho in *; destruct Esp as [Esp|[? ?]]; [|done];
         destruct Eo as [Eo|[]]; by rewrite Est, Esp, Eo).
  - destruct Ho as (Hst & Hsp & Ho). rewrite Est. split; [done|].
    destruct Ho as [Ho|[Ho|Ho]]; rewrite Ho in *; (destruct Esp as [Esp|[? ?]]; [|done]);
      rewrite Esp; (split; [done|]); destruct Eo as [Eo|Eo]; rewrite ?Eo; by auto.
  - destruct Ho as [Hst Ho]. rewrite Est. split; [done|].
    eapply in_stop_step; [exact Ho|by eexists].
  - destruct Ho as (Hst & Ho & _). destruct (Hstill Hst). congruence.
  - destruct Ho as (Hst & Ho & _). destruct (Hstill Hst). congruence.
  - destruct Ho as (Hst & _ & Hout). destruct (Hstill Hst) as (_ & Eo' & ->). auto.
Qed.

Lemma final_requestStop p : final_values (requestStop p) = final_values p.
Proof. unfold requestStop. by destruct (started_ p). Qed.

Lemma started_requestStop p :
  started_ (requestStop p) = started_ p /\ stopped_ (requestStop p) = stopped_ p.
Proof. unfold requestStop. destruct (started_ p) eqn:E; by split. Qed.

Lemma take_snoc {A} (l l0 : list A) x :
  l = take (length l) l0 -> l0 !! length l = Some x ->
  l ++ [x] = take (length (l ++ [x])) l0.
Proof.
  intros Hl Hx. rewrite length_app, Nat.add_1_r. by rewrite (take_S_r _ _ x), <-Hl.
Qed.

(** There is a number still to read, or all are read. *)
Lemma final_next p vals :
  vals = take (length vals) (final_values p) ->
  (exists f : IngestionPipeline Src (KafkaEventProducer K) Queue -> Z,
     final_fields !! length vals = Some f) \/
  length vals = length (final_fields (Src := Src) (K := K) (Queue := Queue)).
Proof.
  intros Hv. destruct (final_fields !! length vals) as [f|] eqn:Hf; [left; by exists f|right].
  apply lookup_ge_None in Hf. apply (f_equal length) in Hv.
  rewrite length_take in Hv. unfold final_values in Hv. rewrite length_fmap in Hv. lia.
Qed.

Lemma owned_main m ls m' :
  owned (main m) (printed m) (pipe m) -> main_step m ls m' ->
  owned (main m') (printed m') (pipe m').
Proof.
  intros Ho Hs. destruct Hs as
    [g t out p i w fs s' Hst|g t out p i w fs s' x Hst|g t out c now Hc|g t out c|g t out c
    |g t out c now|g t out c now vals f Hf|g t out c now vals Hv|g t out p i w o fs
    |g t out p i w fs|g t out c Hc|g t out c vals f Hf|g t out c vals Hv|g t out p i w fs
    |g t out c Hc Hi Hp]; cbn in *; try done.
  - destruct Ho as (_ & ? & _). auto.
  - destruct Ho as (? & ? & _). auto.
  - by destruct g.
  - by destruct (ingestFinished (pipeline c)).
  - by case_bool_decide.
  - destruct Ho as (? & ? & Ho). destruct (started_requestStop p) as [-> ->]. auto.
  - destruct Ho as (Hst & Hsp & _). split; [done|]. left. unfold begin_stop. cbn.
    by rewrite Hst, Hsp.
  - destruct Ho as (Hst & Ho). unfold in_stop in Ho. rewrite Hc in Ho.
    by destruct Ho as [?|[?|[?|[?|[_ ?]]]]].
  - destruct Ho as (? & ? & Hv). split_and!; [done..|].
    apply (take_snoc _ _ _ Hv). unfold final_values. by rewrite list_lookup_fmap, Hf.
  - destruct Ho as (? & ? & Hv'). split_and!; [done..|]. rewrite last_last. f_equal.
    rewrite Hv', take_ge; [done|]. unfold final_values. by rewrite length_fmap, Hv.
  - destruct Ho as (? & ? & Hout). destruct (started_requestStop p) as [_ ->].
    rewrite final_requestStop. auto.
  - destruct Ho as (? & _ & Hout). auto.
Qed.

Lemma line_fits_step m ls m' :
  line_fits (main m) -> service_step m ls m' -> line_fits (main m').
Proof.
  intros Hl Hs. destruct Hs as [| m ls m' Hs|]; [exact Hl| |exact I].
  destruct Hs as [| | |g t out c|g t out c|g t out c now|g t out c now vals f Hf| | | | | | | |];
    try exact I.
  - by destruct g.
  - by destruct (ingestFinished (pipeline c)).
  - cbn. case_bool_decide; cbn; [lia|exact I].
  - apply lookup_lt_Some in Hf. cbn in *. rewrite length_app. cbn. lia.
Qed.

Lemma runs_line_fits m0 tr m : line_fits (main m0) -> runs m0 tr m -> line_fits (main m).
Proof. intros Hl Hr. induction Hr; eauto using line_fits_step. Qed.

(** A run of the service is an execution of the pipeline. *)
Lemma runs_exec s u cap r fs tr m :
  runs (service_begin s u cap r fs) tr m ->
  exec (fresh s u cap r fs) tr (pipe m) /\ owned (main m) (printed m) (pipe m).
Proof.
  intros Hr. induction Hr as [|tr m ls m' _ [He Ho] Hs|tr m _ [He Ho]].
  - split; [constructor|by split_and!].
  - destruct Hs as [pc g t out c l c' Hal Hs|m ls m' Hs|pc g t out c Hal Ha]; cbn in *.
    + split; [by eapply exec_thread|]. eapply owned_thread; [by eapply inv_exec|done..].
    + pose proof (owned_main _ _ _ Ho Hs) as Ho'. split; [|done].
      destruct Hs as
        [g t out p i w fs' s' Hst|g t out p i w fs' s' x Hst| | | | | | |g t out p i w o fs'
        |g t out p i w fs'| | | |g t out p i w fs'|]; cbn in *; rewrite ?app_nil_r; try done;
        (eapply exec_call; [exact He| |]).
      all: try (cbn; destruct (started_ p); exact I).
      * cbn. apply Ho.
      * by constructor.
      * cbn. apply Ho.
      * by constructor.
      * constructor. destruct Ho as (_ & _ & ->). done.
      * constructor.
      * constructor.
    + by rewrite app_nil_r.
  - done.
Qed.
End Invariant.
Arguments final_values : simpl never.
