(* ===== verification/ServiceDemo.v ===== *)
(** * A run of the ingestion service

    services/ingestion/main.cpp over a capture of one event and a broker with
    one place: the run the properties are tried on. *)
From S2P Require Import Prelude CxxStrings MarketEvent Json JsonTree MarketEventJson EventRecorder.
From S2P Require Import ReplaySource BoundedQueue Interfaces IngestionPipeline PipelineReplay.
From S2P Require Import Kafka KafkaProperties IngestionService.

Definition svc_begin : service ReplaySource broker (BoundedQueue MarketEvent) :=
  service_begin (ReplaySource_new "a.jsonl") demo_producer 4 None ∅.

(** The producer after it has published the event, and after the flush. *)
Definition svc_published : KafkaEventProducer broker :=
  match @publish_event tree_ops broker _ demo_producer replayedEvent with
  | Ok (_, p) => p
  | Throw _ => demo_producer
  end.
Definition svc_flushed : KafkaEventProducer broker := flush_producer 10000 svc_published.

Definition svc_members (s : ReplaySource) (u : KafkaEventProducer broker) (n : Z) (mark : nat)
    (finished running stopped : bool) :
    IngestionPipeline ReplaySource (KafkaEventProducer broker) (BoundedQueue MarketEvent) :=
  {| source_ := s; publisher_ := u; optional_recorder_ := None;
     pqueue_ := Build_BoundedQueue 4 [] mark stopped;
     events_received_ := n; events_published_ := n; publish_failures_ := 0;
     ingest_finished_ := finished; ingest_thread_ := running; publish_thread_ := running;
     started_ := true; stopped_ := stopped |}.

(** [main] has started the pipeline; the file has been read; [main] has called
    [requestStop()]; [main] has returned. *)
Definition svc_polling : service ReplaySource broker (BoundedQueue MarketEvent) :=
  Svc PollFlag false 7 [] (St (svc_members at_line demo_producer 0 0 false true false)
    AtNext AtPop OwnerIdle ∅).
Definition svc_finished : service ReplaySource broker (BoundedQueue MarketEvent) :=
  Svc PollFlag false 7 [] (St (svc_members at_end svc_published 1 1 true true false)
    IngestDone AtPop OwnerIdle ∅).
Definition svc_told : service ReplaySource broker (BoundedQueue MarketEvent) :=
  Svc AtStop false 7 [] (St (svc_members (stop at_end) svc_published 1 1 true true false)
    IngestDone AtPop OwnerIdle ∅).
Definition svc_exited : service ReplaySource broker (BoundedQueue MarketEvent) :=
  Svc (Exited (KafkaEventProducer_destroy svc_flushed)) false 7
    [FinalLine [1; 1; 0; 1; 4; 1; 0]%Z]
    (St (svc_members (stop (stop at_end)) svc_flushed 1 1 true false true)
      IngestDone PublishDone Destroyed ∅).

Section Demo.
Context (rf : string -> option string) (Hrf : rf "a.jsonl"%string = Some one_line).

Abbreviation svc_runs := (@runs tree_ops _ (replay_source rf) broker _ (BoundedQueue MarketEvent) _).

(** Extends the run [E] by a step of the ingest thread, the publish thread,
    the owner inside the pipeline, or [main]. *)
Tactic Notation "svc_ingest" hyp(E) uconstr(rule) "by" tactic(t) :=
  eapply runs_step in E; [|eapply service_thread; [reflexivity|left; eapply rule; t]].
Tactic Notation "svc_publish" hyp(E) uconstr(rule) "by" tactic(t) :=
  eapply runs_step in E; [|eapply service_thread; [reflexivity|right; left; eapply rule; t]].
Tactic Notation "svc_owner" hyp(E) uconstr(rule) :=
  eapply runs_step in E; [|eapply service_thread; [reflexivity|right; right; eapply rule; try reflexivity]].
Tactic Notation "svc_main" hyp(E) uconstr(rule) :=
  eapply runs_step in E; [|eapply service_main, rule; try reflexivity].

Lemma svc_runs_polling : svc_runs svc_begin [Started; Quiet; Quiet] svc_polling.
Proof.
  pose proof (@runs_refl tree_ops _ (replay_source rf) broker _ (BoundedQueue MarketEvent) _ svc_begin) as E.
  eapply runs_step in E; [|eapply service_main, main_start;
    cbn; unfold ReplaySource.start, ifstream_open; cbn; rewrite Hrf; reflexivity].
  svc_owner E owner_spawn_ingest. svc_owner E owner_spawn_publish.
  svc_main E (main_started _ _ _ _ 7). exact E.
Qed.

Definition svc_trace_finished : list event_label :=
  [Started; Quiet; Quiet; Delivered replayedEvent; Quiet; Quiet; Enqueued replayedEvent;
   Quiet; Attempted replayedEvent true; Quiet; SourceEnded; Quiet].

Lemma svc_runs_finished : svc_runs svc_begin svc_trace_finished svc_finished.
Proof.
  pose proof svc_runs_polling as E.
  svc_ingest E ingest_next by (apply next_line). svc_ingest E ingest_count by idtac.
  svc_ingest E ingest_record by reflexivity. svc_ingest E ingest_push by reflexivity.
  svc_publish E publish_pop by reflexivity.
  svc_publish E (publish_publish _ _ _ _ _ true svc_published) by (vm_compute; by split).
  svc_publish E publish_count by idtac. svc_ingest E ingest_end by (apply next_end).
  svc_ingest E ingest_finish by idtac. exact E.
Qed.

Definition svc_trace_told : list event_label := svc_trace_finished ++ [StopRequested].

Lemma svc_runs_told : svc_runs svc_begin svc_trace_told svc_told.
Proof.
  pose proof svc_runs_finished as E.
  svc_main E main_poll_flag. svc_main E main_poll_finished. svc_main E main_request_stop.
  exact E.
Qed.

Definition svc_trace : list event_label :=
  svc_trace_told ++ [Quiet; Quiet; Quiet; Quiet; Flushed; Quiet; Quiet; StopRequested; Quiet].

Lemma svc_runs_exited : svc_runs svc_begin svc_trace svc_exited.
Proof.
  pose proof svc_runs_told as E.
  svc_main E main_stop. svc_owner E owner_join_ingest.
  svc_owner E owner_shutdown.
  svc_publish E publish_pop by reflexivity. svc_publish E publish_flush by reflexivity.
  svc_owner E owner_join_publish.
  svc_owner E owner_mark_stopped.
  svc_main E main_stopped.
  do 7 (svc_main E main_read_final). svc_main E main_final.
  svc_main E main_destroy.
  svc_owner E owner_destructor_stop.
  svc_main E main_exit.
  exact E.
Qed.
End Demo.
