(* ===== verification/ServiceProperties.v ===== *)
(** * What the ingestion service guarantees

    The properties of services/ingestion/main.cpp: that it ends when it is told
    to, what has been published when it does, and what its last line says. *)
From S2P Require Import Prelude CxxStrings MarketEvent Json JsonTree MarketEventJson EventRecorder.
From S2P Require Import BoundedQueue Interfaces IngestionPipeline PipelineInvariant.
From S2P Require Import PipelineProgress PipelineProperties Kafka KafkaProperties PipelineKafka.
From S2P Require Import ReplaySource PipelineReplay EventTypes.
From S2P Require Import IngestionService ServiceInvariant ServiceDemo.

Section Shutdown.
Context `{TypedSource Src} `{KafkaLaws K} `{QueueLaws Queue MarketEvent}.
Context (Hstop : forall s : Src, ends printable (source_stop s)).
Implicit Types (c : state Src (KafkaEventProducer K) Queue) (m : service Src K Queue)
  (tr : list event_label).
Context (s : Src) (u : KafkaEventProducer K) (cap : nat) (r : option EventRecorder) (fs : files).

Abbreviation begin := (service_begin (Queue := Queue) s u cap r fs).

Definition source_over c : Prop := asking c = true -> ends printable (source_ (pipeline c)).

Lemma source_over_thread tr c l c' :
  inv cap tr c -> source_over c -> thread_step c l c' -> source_over c'.
Proof.
  intros Hinv Ho Hs Ha. destruct (step_work cap tr c l c' Hinv Hs) as [(e & He & Hn)|[_ Hk]].
  - destruct (Ho ltac:(unfold asking; by rewrite He)) as [_ _ _ Hf]. exact (Hf e _ Hn).
  - destruct (Hk Ha) as [-> Hc]. auto.
Qed.

(** Once [main] has called [requestStop()] the source has an end. *)
Lemma told_over tr m : runs begin tr m -> told (main m) = true -> source_over (pipe m).
Proof.
  intros Hr. induction Hr as [|tr m ls m' Hr IH Hs|tr m _ IH]; [done| |exact IH].
  destruct (runs_exec _ _ _ _ _ _ _ Hr) as [He Ho].
  pose proof (inv_exec _ _ _ _ _ _ _ He) as Hinv.
  destruct Hs as [pc g t out c l c' Hal Hs|m ls m' Hs|pc g t out c Hal Ha]; cbn in *; [|..|done].
  - intros Ht. eapply source_over_thread; eauto.
  - clear He Hinv Hr. destruct Hs as [| | |g t out c|g t out c|g t out c now| | |g t out p i w o fs'
      |g t out p i w fs'| | | |g t out p i w fs'|]; cbn [main pipe told] in *; try discriminate; try exact IH.
    + by destruct g.
    + by destruct (ingestFinished (pipeline c)).
    + by case_bool_decide.
    + intros _ _. destruct Ho as (Hst & _). cbn in *. unfold requestStop. rewrite Hst. apply Hstop.
    + intros _ Ha. apply (IH eq_refl). unfold asking in *. cbn in *.
      destruct i; try done. unfold begin_stop in Ha. by destruct (stopped_ p || negb (started_ p)).
    + intros _ Ha. unfold requestStop. destruct (started_ p); [apply Hstop|].
      cbn. apply (IH eq_refl). unfold asking in *. cbn in *. by destruct i.
Qed.

(** Steps left to [main] (the numbers only have to go down). *)
Definition rank m : nat :=
  match main m with
  | AtStart => 80 | Starting => 70
  | PollFinished => if ingestFinished (pipeline (pipe m)) then 40 else 60
  | Asleep => 59
  | ReadingStats _ vals => 50 - length vals
  | PollFlag => 41
  | AtRequestStop => 30 | AtStop => 20 | Stopping => 19
  | ReadingFinal vals => 10 - length vals
  | AtReturn => 2 | Destroying => 1 | Exited _ | Died => 0
  end.

Lemma lookup_below {A} (l : list A) i x : l !! i = Some x -> i < length l.
Proof. apply lookup_lt_Some. Qed.

(** [main] gets on, unless it is at the head of its loop with no reason to
    leave it. *)
Lemma main_rank m ls m' :
  main_step m ls m' ->
  told (main m) = true \/ shutdown_requested m = true \/ ingestFinished (pipeline (pipe m)) = true ->
  rank m' < rank m.
Proof.
  intros Hs Hw. unfold rank. destruct Hs; cbn in *; try lia.
  all: try match goal with E : _ !! _ = Some _ |- _ => apply lookup_below in E; cbn in E end.
  all: try match goal with E : length _ = length _ |- _ => rewrite E; cbn end.
  all: rewrite ?length_app; cbn; try lia.
  - destruct g; [lia|]. destruct Hw as [?|[?| ->]]; [done..|lia].
  - destruct (ingestFinished _); lia.
  - case_bool_decide; cbn; lia.
Qed.

(** [main] itself neither receives nor publishes. *)
Lemma main_labels m ls m' : main_step m ls m' -> delivered ls = [] /\ attempts ls = [].
Proof. intros Hs. destruct Hs; try done; by destruct (started_ p). Qed.

Definition sound_run m : Prop :=
  exists tr, runs begin tr m /\ told (main m) = true /\ Forall printable (delivered tr).

Lemma sound_run_sound m tr :
  runs begin tr m -> told (main m) = true -> Forall printable (delivered tr) ->
  sound printable cap tr (pipe m).
Proof.
  intros Hr Ht Hev. destruct (runs_exec _ _ _ _ _ _ _ Hr) as [He _].
  split; [by eapply inv_exec|done|]. intros Ha. by apply (told_over tr m Hr Ht).
Qed.

Lemma kafka_printable : publisher_serves (KafkaEventProducer K) printable.
Proof. apply kafka_serves. Qed.

Lemma sound_run_step m ls m' : sound_run m -> service_step m ls m' -> sound_run m' /\
  (rank m' < rank m \/ rank m' <= rank m /\ moves (pipe m) (pipe m')).
Proof.
  intros (tr & Hr & Ht & Hev) Hs. pose proof (sound_run_sound m tr Hr Ht Hev) as Hsound.
  assert (Hr' : runs begin (tr ++ ls) m') by (by eapply runs_step).
  destruct Hs as [pc g t out c l c' Hal Hs|m ls m' Hs|pc g t out c Hal Ha].
  - pose proof (sound_step printable cap tr c l c' Hsound Hs) as [_ Hev' _].
    split; [by exists (tr ++ [l])|]. right. split; [|by exists l].
    unfold rank. cbn in *. by destruct pc.
  - split; [|left; eapply main_rank; eauto]. exists (tr ++ ls). split; [done|].
    destruct (main_labels m ls m' Hs) as [Hd _].
    unfold delivered in *. rewrite omap_app, Hd, app_nil_r. split; [|done].
    clear -Hs Ht. by destruct Hs.
  - destruct (sound_no_abort printable kafka_printable (fun e He => He) cap tr c Hsound Ha).
Qed.

(** Where nothing moves any more, [main] has returned. *)
Lemma sound_run_rest m : 0 < cap -> sound_run m -> nf service_moves m -> exists v, main m = Exited v.
Proof.
  intros Hcap (tr & Hr & Ht & Hev) Hnf. pose proof (sound_run_sound m tr Hr Ht Hev) as Hsound.
  destruct (runs_exec _ _ _ _ _ _ _ Hr) as [_ Ho].
  destruct m as [pc g t out c]. cbn in *.
  assert (Hmain : forall ls m', main_step (Svc pc g t out c) ls m' -> False).
  { intros ls m' Hs. apply Hnf. exists m', ls. by constructor. }
  assert (Hrest : alive pc = true -> nf moves c).
  { intros Hal [c' [l Hs]]. apply Hnf. do 2 eexists. by eapply service_thread. }
  destruct pc as [| | | | | | | | |vals| | |v|]; cbn in Ho; try done; [..|by exists v]; exfalso.
  - destruct c as [p i w o fs']. destruct Ho as (_ & _ & Ho). cbn in Ho. subst o.
    eapply Hmain. constructor.
  - destruct Ho as [_ Ho].
    destruct (in_stop_settled printable kafka_printable ltac:(done) cap tr false c Hcap Hsound Ho
                (Hrest eq_refl)) as [Ho' _].
    eapply Hmain. by constructor.
  - destruct Ho as (_ & _ & Hv). destruct (final_next _ _ Hv) as [[f Hf]|Hlen];
      eapply Hmain; by constructor.
  - destruct c as [p i w o fs']. destruct Ho as (_ & Ho & _). cbn in Ho. subst o.
    eapply Hmain. constructor.
  - destruct Ho as (Hst & Ho & _). destruct Ho as [Ho|Ho].
    + destruct c as [p i w o fs']. cbn in *. subst o. apply (Hrest eq_refl).
      do 2 eexists. right. right. constructor.
    + pose proof (inv_phase _ _ _ (sound_inv _ _ _ _ Hsound)) as Hph. unfold phase in Hph.
      rewrite Ho in Hph. eapply Hmain. apply main_exit; [done|..].
      all: destruct (started_ (pipeline c)); [by apply Hph|].
      all: unfold not_started in Hph; destruct Hph as (_ & _ & _ & Hst' & _); congruence.
Qed.

Lemma service_ends tr m :
  runs begin tr m -> told (main m) = true -> 0 < cap ->
  sn service_moves m /\
  forall m', rtc service_moves m m' ->
    main m' <> Died /\ (nf service_moves m' -> exists v, main m' = Exited v).
Proof.
  intros Hr Ht Hcap. destruct (runs_exec _ _ _ _ _ _ _ Hr) as [He _].
  assert (Hs : sound_run m)
    by (exists tr; split; [done|]; split; [done|exact (delivered_printable _ _ _ He)]).
  split.
  - apply (lex_sn _ moves pipe sound_run rank); [done|..].
    + intros m1 (tr1 & Hr1 & Ht1 & Hev1). eapply sound_sn, sound_run_sound; done.
    + intros m1 m2 Hm1 [ls Hstep]. by eapply sound_run_step.
  - intros m' Hm. assert (Hs' : sound_run m').
    { revert Hm. apply rtc_invariant; [done|]. intros m1 m2 Hm1 [ls Hstep].
      by eapply sound_run_step. }
    split; [|by eapply sound_run_rest].
    destruct Hs' as (tr' & _ & Ht' & _). by destruct (main m').
Qed.
End Shutdown.

(** *** Leaving the poll loop *)
Section Heeding.
Context `{JsonOps} `{MarketDataSource Src} `{KafkaLaws K} `{BlockingQueue Queue MarketEvent}.
Implicit Types (m : service Src K Queue).

(** [main] has a reason to leave its loop, or has left it. *)
Definition heeding m : Prop :=
  told (main m) = true \/
  polling (main m) = true /\
    (shutdown_requested m = true \/ ingestFinished (pipeline (pipe m)) = true) /\
    line_fits (main m).

Lemma heeding_step m ls m' : heeding m -> main_step m ls m' -> heeding m' /\ rank m' < rank m.
Proof.
  intros Hm Hs. split; [|eapply main_rank; [exact Hs|unfold heeding in Hm; tauto]].
  assert (Hl : line_fits (main m) -> line_fits (main m'))
    by (intros Hl; eapply line_fits_step; [exact Hl|by constructor]).
  unfold heeding in *. destruct Hm as [Ht|(Hp & Hg & Hf)].
  - left. by destruct Hs.
  - destruct Hs as [| | |g t out c|g t out c|g t out c now| | | | | | | | |];
      cbn [main pipe shutdown_requested] in *; try discriminate; try (by left);
      right; (split; [|by split; [|auto]]); try done.
    + by destruct g.
    + by destruct (ingestFinished (pipeline c)).
    + by case_bool_decide.
Qed.

Lemma heeding_rest m : heeding m -> nf main_moves m -> told (main m) = true.
Proof.
  intros [|(Hp & _ & Hv)] Hnf; [done|]. exfalso. destruct m as [pc g t out [p i w o fs]]. cbn in *.
  assert (Hstep : forall ls m'', main_step (Svc pc g t out (St p i w o fs)) ls m'' -> False).
  { intros ls m'' Hs. apply Hnf. by exists m'', ls. }
  destruct pc as [| | | | |now vals| | | | | | | |]; try done;
    try (eapply Hstep; first [apply (main_wake _ _ _ _ 0%Z)|by constructor]).
  destruct (report_fields (Src := Src) (K := K) (Queue := Queue) !! length vals) as [f|] eqn:Hf.
  - eapply Hstep. eapply main_read. exact Hf.
  - apply lookup_ge_None in Hf. eapply Hstep. apply main_report. cbn in *. lia.
Qed.

(** [main] gets past [requestStop()] by itself, and cannot fail to. *)
Definition leaves_loop m : Prop :=
  sn main_moves m /\ forall m', rtc main_moves m m' -> nf main_moves m' -> told (main m') = true.

Lemma heeding_leaves m : heeding m -> leaves_loop m.
Proof.
  intros Hm. split.
  - apply (measure_sn _ heeding rank); [done|]. intros m1 m2 Hm1 [ls Hs].
    by apply (heeding_step m1 ls m2).
  - intros m' Hrt. apply heeding_rest. revert Hrt. apply rtc_invariant; [done|].
    intros m1 m2 Hm1 [ls Hs]. by apply (heeding_step m1 ls m2).
Qed.
End Heeding.

(** *** What has happened when [main] has returned *)
Lemma exit_exact `{JsonOps} `{MarketDataSource Src} `{KafkaLaws K}
  `{QueueLaws Queue MarketEvent} (s : Src) (u v : KafkaEventProducer K) cap r fs tr
  (m : service Src K Queue) (Hr : runs (service_begin s u cap r fs) tr m)
  (Hx : main m = Exited v) (Hok : producer_ok u)
  (Hn : (Z.of_nat (length (delivered tr)) < two64)%Z) :
  SourceEnded ∈ tr /\ attempted tr = delivered tr /\ count is_flush tr = 1 /\
  (exists mark succeeded failed, List.last (printed m) (StatsLine []) =
    FinalLine [Z.of_nat (length (delivered tr)); Z.of_nat (count is_published tr);
               Z.of_nat (count is_failure tr); mark; Z.of_nat cap; succeeded; failed]) /\
  length (delivered tr) = count is_published tr + count is_failure tr /\
  outbox (producer_ v) =
    outbox (producer_ u) ++ sent_messages (topic (pconfig_ u)) (attempts tr).
Proof.
  destruct (runs_exec _ _ _ _ _ _ _ Hr) as [He Ho]. rewrite Hx in Ho. cbn in Ho.
  destruct Ho as (Hst & _ & -> & Hout). pose proof (published_exec _ _ _ _ _ _ _ He Hok) as Hp.
  apply inv_exec in He. destruct (stopped_complete cap tr _ He Hst) as (_ & Ha & Hf).
  destruct (stopped_drained cap tr _ He Hst) as [Hi _].
  destruct (stopped_counts cap tr _ He Hst Hn) as (H1' & H2' & H3' & Hsum).
  split_and!; try done.
  - apply (inv_ended _ _ _ He). by rewrite Hi.
  - rewrite Hout. unfold final_values. cbn. rewrite H1', H2', H3', (inv_bound _ _ _ He). by do 3 eexists.
  - by apply published_destroy.
Qed.

(** ** Properties *)

(** Once told to stop, the service exits.  From any reachable state in
    which [main] has called [requestStop()], with a queue of at least one place
    and a source that hands out typed events, as the replay and the live source
    do: [main] and the pipeline's threads together make finitely many steps,
    the process never dies of an exception or of a joinable thread, and where
    nothing moves any more [main] has returned. *)
Theorem service_shutdown `{TypedSource Src} `{!SourceLaws Src printable} `{KafkaLaws K}
  `{QueueLaws Queue MarketEvent} (s : Src) (u : KafkaEventProducer K) cap r fs tr (m : service Src K Queue)
  (Hr : runs (service_begin s u cap r fs) tr m) (Ht : told (main m) = true)
  (Hcap : 0 < cap) :
  sn service_moves m /\
  forall m', rtc service_moves m m' ->
    main m' <> Died /\ (nf service_moves m' -> exists v, main m' = Exited v).
Proof.
  apply (service_ends stop_ends s u cap r fs tr); done.
Qed.

Lemma service_shutdown_witness :
  sn (@service_moves tree_ops _ (replay_source one_file) broker _ (BoundedQueue MarketEvent) _) svc_told.
Proof.
  apply (@service_shutdown tree_ops tree_laws ReplaySource (replay_source one_file)
           (replay_typed one_file) (replay_laws one_file printable) broker _ _ _ _ _ (ReplaySource_new "a.jsonl") demo_producer 4 None ∅ svc_trace_told svc_told).
  - exact (svc_runs_told one_file eq_refl).
  - reflexivity.
  - lia.
Defined.

(** C26: a signal is heeded, and so is the end of the source.  In the poll
    loop, after a signal, or when the flag is set or [ingestFinished()] is true,
    [main] needs only finitely many steps of its own, never waits for anything,
    and comes to [requestStop()]: where it cannot go on by itself any more, it
    is past it.  (The pipeline's threads do not move [main] and do not take
    [ingestFinished()] back.) *)
Theorem service_heeds_stop `{JsonOps} `{MarketDataSource Src} `{KafkaLaws K}
  `{BlockingQueue Queue MarketEvent} (s : Src) (u : KafkaEventProducer K) cap r fs tr
  (m : service Src K Queue) (Hr : runs (service_begin s u cap r fs) tr m)
  (Hp : polling (main m) = true) :
  leaves_loop (handleSignal m) /\
  (shutdown_requested m = true \/ ingestFinished (pipeline (pipe m)) = true -> leaves_loop m) /\
  (forall l c', thread_step (pipe m) l c' ->
     ingestFinished (pipeline (pipe m)) = true -> ingestFinished (pipeline c') = true).
Proof.
  pose proof (runs_line_fits (service_begin s u cap r fs) tr m I Hr) as Hl.
  split; [|split].
  - apply heeding_leaves. right. destruct m. by split_and!; auto.
  - intros Hg. apply heeding_leaves. right. by split_and!.
  - intros l c' [Hs|[Hs|Hs]] Hf; destruct Hs; cbn in *; try done. by destruct b.
Qed.

Lemma service_heeds_stop_witness :
  leaves_loop (H0 := @replay_source tree_ops one_file) svc_finished.
Proof.
  apply (@service_heeds_stop tree_ops ReplaySource (replay_source one_file)
           broker _ _ _ _ (ReplaySource_new "a.jsonl") demo_producer 4 None ∅
           svc_trace_finished svc_finished).
  - exact (svc_runs_finished one_file eq_refl).
  - reflexivity.
  - right. reflexivity.
Defined.

(** What has happened when the service has returned.  The source had
    ended, every event it delivered was published, in order, and flushed; the
    last line printed gives the number of events delivered, published and
    failed, which add up, and the capacity; and librdkafka was given, after
    what it held before, exactly one message for each successful publish, in
    order, to the configured topic, keyed by the symbol. *)
Theorem service_exit_exact `{JsonOps} `{MarketDataSource Src} `{KafkaLaws K}
  `{QueueLaws Queue MarketEvent} (s : Src) (u v : KafkaEventProducer K) cap r fs tr
  (m : service Src K Queue) (Hr : runs (service_begin s u cap r fs) tr m)
  (Hx : main m = Exited v) (Hok : producer_ok u)
  (Hn : (Z.of_nat (length (delivered tr)) < two64)%Z) :
  SourceEnded ∈ tr /\ attempted tr = delivered tr /\ count is_flush tr = 1 /\
  (exists mark succeeded failed, List.last (printed m) (StatsLine []) =
    FinalLine [Z.of_nat (length (delivered tr)); Z.of_nat (count is_published tr);
               Z.of_nat (count is_failure tr); mark; Z.of_nat cap; succeeded; failed]) /\
  length (delivered tr) = count is_published tr + count is_failure tr /\
  outbox (producer_ v) =
    outbox (producer_ u) ++ sent_messages (topic (pconfig_ u)) (attempts tr).
Proof. exact (exit_exact s u v cap r fs tr m Hr Hx Hok Hn). Qed.

Lemma service_exit_exact_witness :
  outbox (producer_ (KafkaEventProducer_destroy svc_flushed)) =
    @sent_messages tree_ops "t" [(replayedEvent, true)] /\
  length [replayedEvent] = 1.
Proof.
  destruct (@service_exit_exact tree_ops ReplaySource (replay_source one_file)
    broker _ _ _ _ _ (ReplaySource_new "a.jsonl") demo_producer
    (KafkaEventProducer_destroy svc_flushed) 4 None ∅ svc_trace svc_exited
    (svc_runs_exited one_file eq_refl)) as (_ & _ & _ & _ & Hl & Ho).
  - reflexivity.
  - split; [cbn; lia|reflexivity].
  - reflexivity.
  - split; [exact Ho|exact Hl].
Defined.
