(* ===== verification/ServiceReplay.v ===== *)
(** * The service replaying a capture

    services/ingestion/main.cpp with [--replay]: it comes to its end without a
    signal, having sent the whole file to Kafka; and from there the consumer of
    src/kafka_event_consumer.cpp reads the events that were once recorded. *)
From S2P Require Import Prelude CxxStrings MarketEvent Json JsonTree MarketEventJson EventRecorder.
From S2P Require Import ReplaySource BoundedQueue Interfaces IngestionPipeline PipelineInvariant.
From S2P Require Import PipelineProgress PipelineProperties PipelineReplay EventTypes.
From S2P Require Import Kafka KafkaProperties PipelineKafka.
From S2P Require Import IngestionService ServiceInvariant ServiceDemo ServiceProperties.

(** ** The pipeline's last word *)
Section Finished.
Context `{JsonOps} `{MarketDataSource Src} `{EventPublisher Pub} `{BlockingQueue Queue MarketEvent}.
Implicit Types (c : state Src Pub Queue).

Lemma done_finished s u cap r fs tr c :
  exec (fresh s u cap r fs) tr c -> ingest c = IngestDone -> ingestFinished (pipeline c) = true.
Proof.
  intros He. induction He as [|tr c l c' _ IH Hs|tr c l c' _ IH _ Hs]; [done|..].
  - destruct Hs as [Hs|[Hs|Hs]]; destruct Hs; cbn in *; try done; by destruct b.
  - destruct Hs; cbn in *; try done; unfold requestStop; by destruct (started_ p).
Qed.

Lemma moves_exec c0 tr c c' :
  exec c0 tr c -> rtc moves c c' -> exists tr', exec c0 (tr ++ tr') c'.
Proof.
  intros He Hr. revert tr He. induction Hr as [c|c c1 c' [l Hl] _ IH]; intros tr He.
  - exists []. by rewrite app_nil_r.
  - destruct (IH (tr ++ [l]) ltac:(by eapply exec_thread)) as [tr' He'].
    exists (l :: tr'). by rewrite <-app_assoc in He'.
Qed.

(** The threads neither start nor stop the source. *)
Lemma thread_label c l c' : thread_step c l c' -> l <> StopRequested /\ l <> Started.
Proof. intros [Hs|[Hs|Hs]]; destruct Hs; split; repeat case_match; done. Qed.
End Finished.

(** ** The events of the file *)

Lemma printable_untimed `{JsonOps} e e' : untimed e = untimed e' -> event_line e = event_line e'.
Proof. destruct e, e'. unfold untimed, set_ingest_time. cbn. by intros [= -> -> -> -> ->]. Qed.

Lemma sent_untimed `{JsonOps} t es es' bs :
  untimed <$> es = untimed <$> es' ->
  sent_messages t (zip es bs) = sent_messages t (zip es' bs).
Proof.
  revert es' bs. induction es as [|e es IH]; intros [|e' es'] bs E; try done.
  assert (Ee : untimed e = untimed e') by exact (f_equal (hd (untimed e)) E).
  assert (Es : untimed <$> es = untimed <$> es') by exact (f_equal tail E).
  destruct bs as [|b bs]; [done|]. unfold sent_messages in *. cbn.
  assert (Hm : message_of t (e, b) = message_of t (e', b)).
  { unfold message_of. cbn. rewrite (printable_untimed e e' Ee).
    by assert (symbol e = symbol e') as -> by exact (f_equal symbol Ee). }
  rewrite Hm. by rewrite (IH es' bs Es).
Qed.

Section Replay.
Context `{JsonLaws} `{KafkaLaws K} `{QueueLaws Queue MarketEvent}.
Context (read_file : string -> option string) (path text : string).
Context (Hfile : read_file path = Some text).
Implicit Types (m : service ReplaySource K Queue) (tr : list event_label).

#[local] Instance the_file : MarketDataSource ReplaySource := replay_source read_file.

Context (u : KafkaEventProducer K) (cap : nat) (r : option EventRecorder) (fs : files).
Abbreviation begin := (service_begin (Queue := Queue) (ReplaySource_new path) u cap r fs).

(** Until [main] calls [requestStop()] nobody does. *)
Lemma not_told_yet tr m :
  runs begin tr m -> told (main m) = false -> main m <> Died -> StopRequested ∉ tr.
Proof.
  intros Hr. induction Hr as [|tr m ls m' Hr IH Hs|tr m _ IH]; [|..|exact IH].
  - intros _ _. apply not_elem_of_nil.
  - intros Ht Hd. rewrite not_elem_of_app.
    destruct Hs as [pc g t out c l c' Hal Hs|m ls m' Hs|pc g t out c Hal Ha]; [..|done].
    + split; [apply IH; [done|by destruct pc]|]. rewrite list_elem_of_singleton.
      intros <-. by destruct (thread_label _ _ _ Hs).
    + assert (Hm : told (main m) = false) by (clear -Hs Ht Hd; by destruct Hs).
      assert (Hm' : main m <> Died) by (clear -Hs; by destruct Hs).
      split; [auto|]. destruct Hs; cbn in *; rewrite ?list_elem_of_singleton; try done;
        apply not_elem_of_nil.
Qed.

(** Without a signal, [main] leaves its loop when the file has been read. *)
Definition file_done tr m : Prop :=
  ingest (pipe m) = IngestDone /\
  untimed <$> delivered tr = untimed <$> replayed_events (getlines newline text).

Lemma file_done_thread tr pc g t out c l c' :
  phase c -> file_done tr (Svc pc g t out c) -> thread_step c l c' ->
  file_done (tr ++ [l]) (Svc pc g t out c').
Proof.
  intros Hph [Hi Hd] Hs. cbn in Hi. unfold file_done. cbn. rewrite delivered_snoc.
  destruct Hs as [Hs|[Hs|Hs]]; destruct Hs; cbn in *; try discriminate; rewrite ?app_nil_r; try done.
  destruct Hph as (_ & Hi' & _). cbn in Hi'. congruence.
Qed.

Lemma file_read tr m :
  runs begin tr m -> shutdown_requested m = false -> main m <> Died ->
  main m = AtRequestStop \/ told (main m) = true -> file_done tr m.
Proof.
  intros Hr. induction Hr as [|tr m ls m' Hr IH Hs|tr m _ _]; [by intros _ _ []| |done].
  destruct (runs_exec _ _ _ _ _ _ _ Hr) as [He Ho].
  pose proof (inv_exec _ _ _ _ _ _ _ He) as Hinv.
  destruct Hs as [pc g t out c l c' Hal Hs|m ls m' Hs|pc g t out c Hal Ha]; [..|done].
  - intros Hg Hd Hm. eapply file_done_thread; [exact (inv_phase _ _ _ Hinv)|by apply IH|exact Hs].
  - intros Hg Hd Hm. destruct Hs as
        [| | |g t out c|g t out c|g t out c now| | |g t out p i w o fs'
        |g t out p i w fs'|g t out c Hc|g t out c vals f Hf|g t out c vals Hv|g t out p i w fs'
        |g t out c Hc Hi Hp]; cbn [main shutdown_requested pipe] in *;
      try (by destruct Hm); rewrite ?app_nil_r.
    + subst g. by destruct Hm.
    + destruct (ingestFinished (pipeline c)) eqn:Hf; [|by destruct Hm].
      destruct (inv_ended _ _ _ Hinv) as (_ & _ & Hend). specialize (Hend Hf).
      split; [done|]. assert (Hst : started_ (pipeline c) = true) by apply Ho.
      pose proof (not_told_yet _ _ Hr eq_refl ltac:(done)) as Hn.
      pose proof (replaying_exec read_file path text Hfile u cap r fs tr c He Hn) as Hre.
      unfold replaying in Hre. by rewrite Hst, Hend in Hre.
    + by case_bool_decide; destruct Hm.
    + destruct (IH Hg ltac:(done) ltac:(by left)) as [Hi Hu]. split; [done|].
      rewrite delivered_snoc. by destruct (started_ p); rewrite app_nil_r.
    + destruct (IH Hg ltac:(done) ltac:(by right)) as [Hi Hu]. split; [done|].
      rewrite delivered_snoc. by rewrite app_nil_r.
    + by apply IH; [..|right].
    + by apply IH; [..|right].
    + by apply IH; [..|right].
    + destruct (IH Hg ltac:(done) ltac:(by right)) as [Hi Hu]. split; [done|].
      rewrite delivered_snoc. by destruct (started_ p); rewrite app_nil_r.
    + by apply IH; [..|right].
Qed.
End Replay.

(** ** From the capture to the consumer *)
Section Consumer.
Context `{JsonLaws}.

Lemma recordable_restored e : recordable e -> recordable (restored e).
Proof.
  intros ([Ht Hn] & Hu & Hs & Hp). split; [|done]. split; [|done]. unfold restored.
  rewrite <-time_point_truncate by done. apply time_point_of_ms_range.
Qed.

(** A message from which a consumer that is not stopped gets [e]. *)
Definition message_reads `{Librdkafka K} (e : MarketEvent) (message : string * string * string) : Prop :=
  forall (c : KafkaEventConsumer K) now part off rest out, Kafka.stop_requested_ c = false ->
  consumer_next (fun _ => false) now (PollMessage message.2 part off :: rest) c out =
    Some (Ok (true, count_consumed c,
      {| event := set_ingest_time now e; partition := part; offset := off |}), rest).

(** The events for which [publish] returned true. *)
Definition accepted (es : list MarketEvent) (bs : list bool) : list MarketEvent :=
  omap (fun eb : MarketEvent * bool => if eb.2 then Some eb.1 else None) (zip es bs).

Lemma sent_reads `{Librdkafka K} t es : forall bs,
  Forall recordable es ->
  Forall2 (fun e message => message.1 = (t, symbol e) /\ message_reads (K := K) e message)
    (accepted (restored <$> es) bs) (sent_messages t (zip (restored <$> es) bs)).
Proof.
  induction es as [|e es IH]; intros bs Hes; [constructor|].
  apply Forall_cons in Hes as [He Hes]. destruct bs as [|b bs]; [constructor|].
  destruct (recordable_restored e He) as (Hwf & Hu & Hs & Hf).
  destruct (event_line_read (restored e) None Hwf Hu Hs Hf) as (l & j & Hl & Hj & Hr).
  rewrite restored_idemp in Hr by apply He.
  specialize (IH bs Hes). unfold accepted, sent_messages, message_of in *. cbn [zip fmap list_fmap] in *.
  destruct b; cbn; [|exact IH]. cbn in Hl. rewrite Hl. constructor; [|exact IH].
  split; [done|]. intros c now part off rest out Hc. cbn. rewrite Hc. by rewrite Hj, Hr.
Qed.
End Consumer.

(** What was recorded to a new file is what is replayed from it. *)
Lemma capture_text `{JsonLaws} openable path es (fs0 fs1 fs2 : files) rec :
  EventRecorder_open openable path fs0 = Ok (rec, fs1) -> fs0 !! path = None ->
  Forall recordable es -> record_all rec es fs1 = Ok fs2 ->
  exists text, fs2 !! path = Some text /\
    replayed_events (getlines newline text) = restored <$> es.
Proof.
  unfold EventRecorder_open. destruct (openable path); [|done]. intros [= <- <-] Hnew Hes Hrec.
  destruct (recordable_lines es Hes) as [ls Hls].
  destruct (record_all_text {| out_path := path |} es ls
    (<[path := default EmptyString (fs0 !! path)]> fs0) Hls) as (fs2' & Hr & Ht & Hsome & _).
  rewrite Hr in Hrec. injection Hrec as <-. cbn in Ht, Hsome.
  rewrite lookup_insert_eq, Hnew in Ht. rewrite lookup_insert_eq in Hsome.
  destruct (Hsome ltac:(eauto)) as [text E]. rewrite E in Ht. cbn in Ht. subst text.
  destruct (replayed_lines_of_events es ls Hls) as (Hev & _ & _ & Hlines).
  exists (text_of_lines ls). split; [done|]. by rewrite Hlines.
Qed.

Lemma zip_attempts tr : attempts tr = zip (attempted tr) (attempts tr).*2.
Proof. rewrite <-attempts_attempted. by rewrite zip_fst_snd. Qed.

Lemma service_sends `{JsonLaws} `{KafkaLaws K} `{QueueLaws Queue MarketEvent}
  read_file path text (u v : KafkaEventProducer K) cap r fs tr (m : service ReplaySource K Queue) :
  read_file path = Some text ->
  @runs _ _ (replay_source read_file) _ _ _ _
    (service_begin (ReplaySource_new path) u cap r fs) tr m ->
  main m = Exited v -> shutdown_requested m = false -> producer_ok u ->
  exists bs, length bs = length (replayed_events (getlines newline text)) /\
    outbox (producer_ v) = outbox (producer_ u) ++
      sent_messages (topic (pconfig_ u)) (zip (replayed_events (getlines newline text)) bs).
Proof.
  intros Hfile Hr Hx Hg Hok.
  destruct (file_read read_file path text Hfile u cap r fs tr m Hr Hg) as [_ Hu];
    [by rewrite Hx|right; by rewrite Hx|].
  destruct (runs_exec (H0 := replay_source read_file) _ _ _ _ _ _ _ Hr) as [He Ho].
  rewrite Hx in Ho. destruct Ho as (Hst & _ & -> & _).
  pose proof (published_exec _ _ _ _ _ _ _ He Hok) as Hp. apply inv_exec in He.
  destruct (stopped_complete cap tr _ He Hst) as (_ & Ha & _).
  exists (attempts tr).*2. split.
  - rewrite length_fmap, <-(length_fmap fst), attempts_attempted, Ha.
    apply (f_equal length) in Hu. by rewrite !length_fmap in Hu.
  - rewrite (published_destroy _ _ _ Hp), zip_attempts, Ha at 1. f_equal. by apply sent_untimed.
Qed.

(** *** The pipeline while [main] polls *)
Lemma replay_rests `{JsonLaws} `{KafkaLaws K} `{QueueLaws Queue MarketEvent}
  read_file path text (u : KafkaEventProducer K) cap r fs tr (m : service ReplaySource K Queue)
  (Hfile : read_file path = Some text)
  (Hr : @runs _ _ (replay_source read_file) _ _ _ _
          (service_begin (ReplaySource_new path) u cap r fs) tr m)
  (Hp : polling (main m) = true) (Hcap : 0 < cap)
  (Hfatal : Forall (fun l => is_fatal l = false) (getlines newline text)) :
  sn (@moves _ _ (replay_source read_file) _ _ _ _) (pipe m) /\
  forall c', rtc (@moves _ _ (replay_source read_file) _ _ _ _) (pipe m) c' ->
    ~ @aborts _ _ (replay_source read_file) _ _ _ c' /\
    (nf (@moves _ _ (replay_source read_file) _ _ _ _) c' -> ingestFinished (pipeline c') = true).
Proof.
  assert (Ht : told (main m) = false) by (by destruct (main m)).
  assert (Hd : main m <> Died) by (by destruct (main m)).
  pose proof (not_told_yet read_file path u cap r fs tr m Hr Ht Hd) as Hn.
  destruct (runs_exec (H0 := replay_source read_file) _ _ _ _ _ _ _ Hr) as [He Ho].
  pose proof (delivered_printable (Src := ReplaySource) (H1 := replay_source read_file) _ _ _ He) as Hev.
  pose proof (replaying_exec read_file path text Hfile u cap r fs tr _ He Hn) as Hre.
  assert (Hst : started_ (pipeline (pipe m)) = true /\ owner (pipe m) = OwnerIdle)
    by (destruct (main m); cbn in *; try done; naive_solver).
  destruct Hst as [Hst Hidle].
  assert (Hsound : sound (H0 := replay_source read_file) printable cap tr (pipe m)).
  { split; [by eapply inv_exec|done|]. intros Ha.
    apply (ends_typed (H1 := replay_source read_file) (fun _ => True)).
    apply (replaying_ends read_file path text (fun _ => True) tr _ Hre Hst); [|done|done].
    unfold asking in Ha. by destruct (ingest (pipe m)). }
  split; [by eapply sound_sn|]. intros c' Hc.
  destruct (moves_sound (H0 := replay_source read_file) printable cap tr _ c' Hsound Hc) as [tr' Hs'].
  split; [by apply (sound_no_abort (H0 := replay_source read_file) printable kafka_printable
                      (fun e He => He) cap _ c' Hs')|].
  intros Hnf. destruct (moves_exec (H0 := replay_source read_file) _ tr _ c' He Hc) as [tr'' He''].
  apply (done_finished (H0 := replay_source read_file) _ _ _ _ _ _ _ He'').
  destruct (settled_ingest (H0 := replay_source read_file) printable kafka_printable
              (fun e He => He) cap _ c' Hcap Hs' Hnf) as [Hi|]; [|done].
  assert (Hid : started_ (pipeline c') = true /\ owner c' = OwnerIdle).
  { apply (rtc_invariant (@moves _ _ (replay_source read_file) _ _ _ _)
      (fun c => started_ (pipeline c) = true /\ owner c = OwnerIdle) (pipe m)); [done| |exact Hc].
    intros c1 c2 [Hs1 Ho1] [l Hs]. destruct (thread_owner c1 l c2 Hs) as (Es & _ & Eo). rewrite Ho1 in Eo.
    destruct Eo as [Eo|[]]. by rewrite Es, Eo. }
  pose proof (inv_phase _ _ _ (inv_exec _ _ _ _ _ _ _ He'')) as Hph. unfold phase in Hph.
  destruct Hid as [Es Eo]. rewrite Es, Eo in Hph. destruct Hph as [[Hne _]|[Hd' _]]; congruence.
Qed.

(** ** Properties *)

(** C25: a replay run comes to its end by itself.  While [main] polls, with a
    queue of at least one place and on a capture none of whose numbers overflows a
    double: the pipeline's threads make finitely many steps and none of them kills
    the process; where they rest [ingestFinished()] is true; and from then on [main]
    itself, wherever in its loop it is and without any signal, makes finitely many
    steps and gets past [requestStop()]. *)
Theorem service_replay_finishes `{JsonLaws} `{KafkaLaws K} `{QueueLaws Queue MarketEvent}
  read_file path text (u : KafkaEventProducer K) cap r fs tr (m : service ReplaySource K Queue)
  (Hfile : read_file path = Some text)
  (Hr : @runs _ _ (replay_source read_file) _ _ _ _
          (service_begin (ReplaySource_new path) u cap r fs) tr m)
  (Hp : polling (main m) = true) (Hcap : 0 < cap)
  (Hfatal : Forall (fun l => is_fatal l = false) (getlines newline text)) :
  sn (@moves _ _ (replay_source read_file) _ _ _ _) (pipe m) /\
  forall c', rtc (@moves _ _ (replay_source read_file) _ _ _ _) (pipe m) c' ->
    ~ @aborts _ _ (replay_source read_file) _ _ _ c' /\
    (nf (@moves _ _ (replay_source read_file) _ _ _ _) c' -> ingestFinished (pipeline c') = true /\
       leaves_loop (H0 := replay_source read_file)
         (Svc (main m) (shutdown_requested m) (last_report m) (printed m) c')).
Proof.
  destruct (replay_rests read_file path text u cap r fs tr m Hfile Hr Hp Hcap Hfatal) as [Hsn Hrest].
  split; [exact Hsn|]. intros c' Hc. destruct (Hrest c' Hc) as [Ha Hf]. split; [exact Ha|].
  intros Hnf. specialize (Hf Hnf). split; [exact Hf|].
  apply (heeding_leaves (H0 := replay_source read_file)). right. split_and!; [exact Hp|by right|].
  exact (runs_line_fits (H0 := replay_source read_file)
    (service_begin (ReplaySource_new path) u cap r fs) tr m I Hr).
Qed.

Lemma one_line_read : getlines newline one_line = [sampleLine] /\
  @replayed_events tree_ops [sampleLine] = [restored sampleEvent].
Proof. split; vm_compute; reflexivity. Qed.

Lemma service_replay_finishes_witness :
  sn (@moves tree_ops _ (replay_source one_file) _ _ _ _) (pipe svc_polling).
Proof.
  destruct one_line_read as [Hl _].
  apply (@service_replay_finishes tree_ops tree_laws broker _ _ _ _ _ one_file "a.jsonl" one_line
           demo_producer 4 None ∅ [Started; Quiet; Quiet] svc_polling).
  - reflexivity.
  - exact (svc_runs_polling one_file eq_refl).
  - reflexivity.
  - lia.
  - rewrite Hl. constructor; [vm_compute; reflexivity|constructor].
Defined.

(** The whole file goes out.  When the service has replayed a capture and
    returned, and no signal ever arrived, librdkafka was given, in file order,
    one message for every event of the file whose [publish] succeeded, and
    nothing else; the receipt times, which the replay stamps afresh, do not
    show in them. *)
Theorem service_sends_file `{JsonLaws} `{KafkaLaws K} `{QueueLaws Queue MarketEvent}
  read_file path text (u v : KafkaEventProducer K) cap r fs tr (m : service ReplaySource K Queue)
  (Hfile : read_file path = Some text)
  (Hr : @runs _ _ (replay_source read_file) _ _ _ _
          (service_begin (ReplaySource_new path) u cap r fs) tr m)
  (Hx : main m = Exited v) (Hg : shutdown_requested m = false) (Hok : producer_ok u) :
  exists bs, length bs = length (replayed_events (getlines newline text)) /\
    outbox (producer_ v) = outbox (producer_ u) ++
      sent_messages (topic (pconfig_ u)) (zip (replayed_events (getlines newline text)) bs).
Proof. by eapply service_sends. Qed.

Lemma service_sends_file_witness :
  exists bs, length bs = 1 /\
    outbox (producer_ (KafkaEventProducer_destroy svc_flushed)) =
      @sent_messages tree_ops "t" (zip [restored sampleEvent] bs).
Proof.
  destruct one_line_read as [Hl He].
  destruct (@service_sends_file tree_ops tree_laws broker _ _ _ _ _ one_file "a.jsonl" one_line
    demo_producer (KafkaEventProducer_destroy svc_flushed) 4 None ∅ svc_trace svc_exited)
    as (bs & Hlen & Ho).
  - reflexivity.
  - exact (svc_runs_exited one_file eq_refl).
  - reflexivity.
  - reflexivity.
  - split; [cbn; lia|reflexivity].
  - rewrite Hl, He in *. exists bs. split; [exact Hlen|exact Ho].
Defined.

(** From the recorder to the consumer.  Events recorded to a new capture
    file, replayed from it by a service that exits unsignalled: librdkafka
    gets, in order, exactly one message for each event whose [publish]
    succeeded, to the configured topic, keyed by its symbol; and from each
    message a consumer that is not stopped gets back the event it was recorded
    from, up to milliseconds and receipt time. *)
Theorem capture_reaches_consumer `{JsonLaws} `{KafkaLaws K} `{QueueLaws Queue MarketEvent}
  openable path es (fs0 fs1 fs2 : files) rec (u v : KafkaEventProducer K) cap r fs tr
  (m : service ReplaySource K Queue)
  (Hopen : EventRecorder_open openable path fs0 = Ok (rec, fs1))
  (Hnew : fs0 !! path = None) (Hes : Forall recordable es)
  (Hrec : record_all rec es fs1 = Ok fs2)
  (Hr : @runs _ _ (replay_source (fun p => fs2 !! p)) _ _ _ _
          (service_begin (ReplaySource_new path) u cap r fs) tr m)
  (Hx : main m = Exited v) (Hg : shutdown_requested m = false) (Hok : producer_ok u) :
  exists bs messages, length bs = length es /\
    outbox (producer_ v) = outbox (producer_ u) ++ messages /\
    Forall2 (fun e message => message.1 = (topic (pconfig_ u), symbol e) /\
                              message_reads (K := K) e message)
      (accepted (restored <$> es) bs) messages.
Proof.
  destruct (capture_text openable path es fs0 fs1 fs2 rec Hopen Hnew Hes Hrec) as (text & Hf & Hev).
  destruct (service_sends (fun p => fs2 !! p) path text u v cap r fs tr m Hf Hr Hx Hg Hok)
    as (bs & Hlen & Ho).
  rewrite Hev in *. rewrite length_fmap in Hlen.
  exists bs, (sent_messages (topic (pconfig_ u)) (zip (restored <$> es) bs)).
  split_and!; [done..|]. by apply sent_reads.
Qed.

(** The files after [sampleEvent] was recorded to a new one. *)
Definition svc_files : files := {["a.jsonl"%string := one_line]}.

Lemma capture_reaches_consumer_witness :
  exists bs messages, length bs = 1 /\
    outbox (producer_ (KafkaEventProducer_destroy svc_flushed)) = messages /\
    Forall2 (fun e message => message.1 = ("t"%string, symbol e) /\
                              @message_reads tree_ops broker _ e message)
      (accepted [restored sampleEvent] bs) messages.
Proof.
  destruct (@capture_reaches_consumer tree_ops tree_laws broker _ _ _ _ _ (fun _ => true) "a.jsonl"
    [sampleEvent] ∅ {["a.jsonl"%string := EmptyString]} svc_files {| out_path := "a.jsonl" |}
    demo_producer (KafkaEventProducer_destroy svc_flushed) 4 None ∅ svc_trace svc_exited)
    as (bs & messages & Hlen & Ho & Hall).
  - vm_compute. reflexivity.
  - reflexivity.
  - constructor; [exact sampleEvent_recordable|constructor].
  - vm_compute. reflexivity.
  - exact (svc_runs_exited (fun p => svc_files !! p) eq_refl).
  - reflexivity.
  - reflexivity.
  - split; [cbn; lia|reflexivity].
  - exists bs, messages. split; [exact Hlen|split; [exact Ho|exact Hall]].
Defined.
