(* ===== verification/FineService.v ===== *)
(** * The ingestion service, with stop() inside next()

    services/ingestion/main.cpp and src/ingestion_pipeline.cpp over a source
    whose [next] is not one step: the ingest thread is at a place inside
    [source_->next(event)] while [main] is between the two halves of
    [source_->stop()].  Everything else is the service of [IngestionService];
    the theorems carry over because every run is, at the coarser grain, a run
    of that service over [any_source]. *)
From S2P Require Import Prelude CxxStrings MarketEvent Json JsonTree MarketEventJson EventRecorder.
From S2P Require Import BoundedQueue Interfaces IngestionPipeline PipelineInvariant PipelineProgress PipelineProperties.
From S2P Require Import Kafka KafkaProperties PipelineKafka EventTypes FineSource.
From S2P Require Import IngestionService ServiceInvariant ServiceProperties.

(** ** The code *)

(** [place] is where the ingest thread is in [next]; [halfway] says that
    [main] has performed the first half of a [stop()]. *)
Record fine_service (Src Pc K Queue : Type) := Fine {
  svc : service Src K Queue;
  place : Pc;
  halfway : bool
}.
Arguments Fine {Src Pc K Queue} _ _ _.
Arguments svc {Src Pc K Queue} _.
Arguments place {Src Pc K Queue} _.
Arguments halfway {Src Pc K Queue} _.

Section Code.
Context `{JsonOps} `{FineSource Src Pc Lbl} `{KafkaLaws K} `{BlockingQueue Queue MarketEvent}.
Implicit Types (p : IngestionPipeline Src (KafkaEventProducer K) Queue)
  (c : state Src (KafkaEventProducer K) Queue) (m : service Src K Queue)
  (f : fine_service Src Pc K Queue).

(** For the steps that are not [next]'s: [next] has none, and what is left of
    [stop()] is its second half. *)
Instance without_next : MarketDataSource Src := {
  source_start := fine_start;
  source_stop := fine_close;
  source_next := fun _ _ _ => False
}.

(** [main] is about to call [source_->stop()], in [requestStop()]. *)
Definition calls_stop m : bool :=
  match main m with AtRequestStop | AtReturn => started_ (pipeline (pipe m)) | _ => false end.

Definition with_src s c : state Src (KafkaEventProducer K) Queue :=
  St (with_source s (pipeline c)) (ingest c) (publishing c) (owner c) (disk c).
Definition set_ingest i c : state Src (KafkaEventProducer K) Queue :=
  St (pipeline c) i (publishing c) (owner c) (disk c).

Inductive fine_service_step :
    fine_service Src Pc K Queue -> list event_label -> list (source_event Lbl) ->
    fine_service Src Pc K Queue -> Prop :=
  (* the ingest thread at source_->next(event) *)
  | fine_call pc g t out c h :
      alive pc = true -> ingest c = AtNext ->
      fine_service_step (Fine (Svc pc g t out c) outside h) [] [SourceCall]
        (Fine (Svc pc g t out c) entry h)
  | fine_inner pc g t out c q h l s' q' :
      alive pc = true -> ingest c = AtNext -> fine_step (source_ (pipeline c)) q l s' q' ->
      fine_service_step (Fine (Svc pc g t out c) q h) [] [SourceInner l]
        (Fine (Svc pc g t out (with_src s' c)) q' h)
  | fine_gives pc g t out c q h l e s' :
      alive pc = true -> ingest c = AtNext ->
      fine_return (source_ (pipeline c)) q l (NextEvent e) s' ->
      fine_service_step (Fine (Svc pc g t out c) q h) [Delivered e] [SourceInner l]
        (Fine (Svc pc g t out (set_ingest (Received e) (with_src s' c))) outside h)
  | fine_ends pc g t out c q h l s' :
      alive pc = true -> ingest c = AtNext ->
      fine_return (source_ (pipeline c)) q l NextEnd s' ->
      fine_service_step (Fine (Svc pc g t out c) q h) [SourceEnded] [SourceInner l]
        (Fine (Svc pc g t out (set_ingest Finishing (with_src s' c))) outside h)
  | fine_throws pc g t out c q h l x s' :
      alive pc = true -> ingest c = AtNext ->
      fine_return (source_ (pipeline c)) q l (NextThrow x) s' ->
      fine_service_step (Fine (Svc pc g t out c) q h) [] [SourceInner l]
        (Fine (Svc Died g t out (with_src s' c)) outside h)
  (* the other steps of the threads, and their deaths *)
  | fine_thread pc g t out c c' q h l :
      alive pc = true -> thread_step c l c' ->
      fine_service_step (Fine (Svc pc g t out c) q h) [l] [] (Fine (Svc pc g t out c') q h)
  | fine_abort pc g t out c q h :
      alive pc = true -> aborts c ->
      fine_service_step (Fine (Svc pc g t out c) q h) [] [] (Fine (Svc Died g t out c) q h)
  (* main: the first half of stop(), the second with what follows, the rest *)
  | fine_flag pc g t out c q :
      calls_stop (Svc pc g t out c) = true ->
      fine_service_step (Fine (Svc pc g t out c) q false) [] [SourceFlag]
        (Fine (Svc pc g t out (with_src (fine_request (source_ (pipeline c))) c)) q true)
  | fine_stop m ls m' q :
      calls_stop m = true -> main_step m ls m' ->
      fine_service_step (Fine m q true) ls [SourceClose] (Fine m' q false)
  | fine_main m ls m' q h :
      calls_stop m = false -> main_step m ls m' ->
      fine_service_step (Fine m q h) ls
        (match main m with AtStart => [SourceStart] | _ => [] end) (Fine m' q h).

Definition fine_signal f : fine_service Src Pc K Queue :=
  Fine (handleSignal (svc f)) (place f) (halfway f).

Definition fine_begin (s : Src) (u : KafkaEventProducer K) (cap : nat)
    (r : option EventRecorder) (fs : files) : fine_service Src Pc K Queue :=
  Fine (service_begin s u cap r fs) outside false.

Inductive fine_runs (f0 : fine_service Src Pc K Queue) :
    list event_label -> list (source_event Lbl) -> fine_service Src Pc K Queue -> Prop :=
  | fine_refl : fine_runs f0 [] [] f0
  | fine_run_step tr st f ls ss f' :
      fine_runs f0 tr st f -> fine_service_step f ls ss f' ->
      fine_runs f0 (tr ++ ls) (st ++ ss) f'
  | fine_run_signal tr st f : fine_runs f0 tr st f -> fine_runs f0 tr st (fine_signal f).

Definition fine_moves : relation (fine_service Src Pc K Queue) :=
  fun f f' => exists ls ss, fine_service_step f ls ss f'.

(** The moves that need nothing from outside the process: not those of a thread
    that waits for it inside [next]. *)
Definition fine_own_moves : relation (fine_service Src Pc K Queue) :=
  fun f f' => exists ls ss, fine_service_step f ls ss f' /\
    (fine_waits (source_ (pipeline (pipe (svc f)))) (place f) = true -> forall l, ss <> [SourceInner l]).
End Code.

(** ** At the coarser grain *)
Section Coarse.
Context `{JsonLaws} `{FineSource Src Pc Lbl} `{!FineLaws Src Pc Lbl} `{KafkaLaws K}
  `{QueueLaws Queue MarketEvent}.
Implicit Types (p : IngestionPipeline Src (KafkaEventProducer K) Queue)
  (c : state Src (KafkaEventProducer K) Queue) (m : service Src K Queue)
  (f : fine_service Src Pc K Queue) (a : any_source).

#[local] Existing Instance without_next.
#[local] Instance the_any : MarketDataSource any_source := any_source_ops may_throw.

Definition coarse_members a p : IngestionPipeline any_source (KafkaEventProducer K) Queue :=
  {| source_ := a; publisher_ := publisher_ p; optional_recorder_ := optional_recorder_ p;
     pqueue_ := pqueue_ p; events_received_ := events_received_ p;
     events_published_ := events_published_ p; publish_failures_ := publish_failures_ p;
     ingest_finished_ := ingest_finished_ p; ingest_thread_ := ingest_thread_ p;
     publish_thread_ := publish_thread_ p; started_ := started_ p; stopped_ := stopped_ p |}.
Definition coarse_state a c : state any_source (KafkaEventProducer K) Queue :=
  St (coarse_members a (pipeline c)) (ingest c) (publishing c) (owner c) (disk c).
Definition coarse a m : service any_source K Queue :=
  Svc (main m) (shutdown_requested m) (last_report m) (printed m) (coarse_state a (pipe m)).

(** The source of the fine service. *)
Definition src f : Src := source_ (pipeline (pipe (svc f))).

Lemma coarse_thread a c l c' :
  thread_step c l c' -> thread_step (coarse_state a c) l (coarse_state a c').
Proof.
  intros [Hs|[Hs|Hs]].
  - left. destruct Hs as [| |p w o fs e|p w o fs e fs' Hr|p w o fs e b q' Hp|p w o fs]; [done..| | | |].
    + exact (ingest_count (coarse_members a p) w o fs e).
    + exact (ingest_record (coarse_members a p) w o fs e fs' Hr).
    + exact (ingest_push (coarse_members a p) w o fs e b q' Hp).
    + exact (ingest_finish (coarse_members a p) w o fs).
  - right; left. destruct Hs as [p i o fs r q' Hp|p i o fs e b u' Hp|p i o fs b|p i o fs u' Hf].
    + exact (publish_pop (coarse_members a p) i o fs r q' Hp).
    + exact (publish_publish (coarse_members a p) i o fs e b u' Hp).
    + destruct b; [exact (publish_count (coarse_members a p) i o fs true)
                  |exact (publish_count (coarse_members a p) i o fs false)].
    + exact (publish_flush (coarse_members a p) i o fs u' Hf).
  - right; right. destruct Hs as [p i w fs Ht|p i w fs Ht|p i w fs|p i w d fs Hj|p i w d fs
      |p i w d fs Hj|p i w d fs].
    + exact (owner_spawn_ingest (coarse_members a p) i w fs Ht).
    + exact (owner_spawn_publish (coarse_members a p) i w fs Ht).
    + exact (owner_destructor_stop (coarse_members a p) i w fs).
    + exact (owner_join_ingest (coarse_members a p) i w d fs Hj).
    + exact (owner_shutdown (coarse_members a p) i w d fs).
    + exact (owner_join_publish (coarse_members a p) i w d fs Hj).
    + exact (owner_mark_stopped (coarse_members a p) i w d fs).
Qed.

Lemma thread_source c l c' : thread_step c l c' -> source_ (pipeline c') = source_ (pipeline c).
Proof. intros [Hs|[Hs|Hs]]; destruct Hs; try done. by destruct b. Qed.

Lemma coarse_thread_inv a c l (c1 : state any_source (KafkaEventProducer K) Queue) :
  thread_step (coarse_state a c) l c1 ->
  ingest c = AtNext \/ exists c', thread_step c l c'.
Proof.
  destruct c as [p i w o fs]. intros [Hs|[Hs|Hs]]; inversion Hs; subst; clear Hs; try (by left);
    right; eexists; cbn in *.
  - left. apply ingest_count.
  - left. by eapply ingest_record.
  - left. by eapply ingest_push.
  - left. apply ingest_finish.
  - right; left. by eapply publish_pop.
  - right; left. apply (publish_publish p i o fs e b u'); assumption.
  - right; left. apply publish_count.
  - right; left. apply (publish_flush p i o fs u'); assumption.
  - right; right. by apply owner_spawn_ingest.
  - right; right. by apply owner_spawn_publish.
  - right; right. apply owner_destructor_stop.
  - right; right. by apply owner_join_ingest.
  - right; right. apply owner_shutdown.
  - right; right. by apply owner_join_publish.
  - right; right. apply owner_mark_stopped.
Qed.

Lemma coarse_aborts a c : aborts c -> aborts (coarse_state a c).
Proof. intros Ha. destruct Ha; try done; by econstructor. Qed.

Lemma coarse_aborts_inv a c : aborts (coarse_state a c) -> ingest c = AtNext \/ aborts c.
Proof.
  destruct c as [p i w o fs]. intros Ha. inversion Ha; subst; try (by left); right.
  - by eapply abort_record.
  - by eapply abort_publish.
  - by apply abort_spawn_ingest.
  - by apply abort_spawn_publish.
  - by apply abort_destroyed.
Qed.

Lemma coarse_report n (fl : IngestionPipeline Src (KafkaEventProducer K) Queue -> Z) a p :
  report_fields !! n = Some fl ->
  exists fl', report_fields !! n = Some fl' /\ fl' (coarse_members a p) = fl p.
Proof.
  intros Hf. do 8 (destruct n as [|n]; [injection Hf as <-; eexists; split; reflexivity|]). done.
Qed.
Lemma coarse_final n (fl : IngestionPipeline Src (KafkaEventProducer K) Queue -> Z) a p :
  final_fields !! n = Some fl ->
  exists fl', final_fields !! n = Some fl' /\ fl' (coarse_members a p) = fl p.
Proof.
  intros Hf. do 7 (destruct n as [|n]; [injection Hf as <-; eexists; split; reflexivity|]). done.
Qed.

(** The second half of [stop()], at the coarser grain the whole of it. *)
Lemma coarse_stop a m ls m' :
  calls_stop m = true -> main_step m ls m' ->
  main_step (coarse a m) ls (coarse (Closing 1) m') /\
  source_ (pipeline (pipe m')) = fine_close (source_ (pipeline (pipe m))) /\
  ingest (pipe m') = ingest (pipe m).
Proof.
  intros Hc Hs. unfold calls_stop in Hc.
  destruct Hs as [| | | | | | | |g t out p i w o fs|g t out p i w fs| | | |g t out p i w fs|];
    cbn in Hc; try done; unfold requestStop; rewrite Hc; (split; [|done]).
  - pose proof (main_request_stop g t out (coarse_members a p) i w o fs) as E.
    unfold requestStop in E. cbn in E. rewrite Hc in E. exact E.
  - pose proof (main_destroy g t out (coarse_members a p) i w fs) as E.
    unfold requestStop in E. cbn in E. rewrite Hc in E. exact E.
Qed.

(** The rest of [main]. *)
Lemma coarse_main a m ls m' :
  calls_stop m = false -> main_step m ls m' ->
  (main m = AtStart /\ main_step (coarse a m) ls (coarse Open m') /\
   (main m' = Died \/
    fine_start (source_ (pipeline (pipe m))) (source_ (pipeline (pipe m'))) (Ok tt))) \/
  (main m <> AtStart /\ main_step (coarse a m) ls (coarse a m') /\
   source_ (pipeline (pipe m')) = source_ (pipeline (pipe m)) /\
   started_ (pipeline (pipe m')) = started_ (pipeline (pipe m)) /\
   ingest (pipe m') = ingest (pipe m)).
Proof.
  intros Hc Hs. unfold calls_stop in Hc.
  destruct Hs as
    [g t out p i w fs s' Hst|g t out p i w fs s' x Hst|g t out c now Ho|g t out c|g t out c
    |g t out c now|g t out c now vals fl Hf|g t out c now vals Hv|g t out p i w o fs
    |g t out p i w fs|g t out c Ho|g t out c vals fl Hf|g t out c vals Hv|g t out p i w fs
    |g t out c Ho Hi Hp]; cbn in Hc.
  1: left; split; [done|]; split; [by apply (main_start g t out (coarse_members a p) i w fs Open)|by right].
  1: left; split; [done|]; split;
     [by apply (main_start_throws g t out (coarse_members a p) i w fs Open x)|by left].
  all: right; (split; [done|]); unfold requestStop; rewrite ?Hc; (split; [|done]).
  - by apply (main_started g t out (coarse_state a c) now).
  - apply (main_poll_flag g t out (coarse_state a c)).
  - apply (main_poll_finished g t out (coarse_state a c)).
  - apply (main_wake g t out (coarse_state a c) now).
  - destruct (coarse_report _ _ a (pipeline c) Hf) as (fl' & Hf' & E).
    pose proof (main_read g t out (coarse_state a c) now vals fl' Hf') as Hm. cbn in Hm.
    rewrite E in Hm. exact Hm.
  - by apply (main_report g t out (coarse_state a c) now vals).
  - pose proof (main_request_stop g t out (coarse_members a p) i w o fs) as E.
    unfold requestStop in E. cbn in E. rewrite Hc in E. exact E.
  - apply (main_stop g t out (coarse_members a p) i w fs).
  - by apply (main_stopped g t out (coarse_state a c)).
  - destruct (coarse_final _ _ a (pipeline c) Hf) as (fl' & Hf' & E).
    pose proof (main_read_final g t out (coarse_state a c) vals fl' Hf') as Hm. cbn in Hm.
    rewrite E in Hm. exact Hm.
  - by apply (main_final g t out (coarse_state a c) vals).
  - pose proof (main_destroy g t out (coarse_members a p) i w fs) as E.
    unfold requestStop in E. cbn in E. rewrite Hc in E. exact E.
  - by apply (main_exit g t out (coarse_state a c)).
Qed.

(** *** The simulation *)

(** Nothing has been started. *)
Definition idle_state c : Prop :=
  started_ (pipeline c) = false /\ ingest c = NoIngest /\ publishing c = NoPublish /\
  owner c = OwnerIdle.

Definition living f : Prop :=
  match main (svc f) with
  | AtStart => idle_state (pipe (svc f)) /\ fit (src f) /\ place f = outside
  | Died => True
  | _ => started_ (pipeline (pipe (svc f))) = true /\ calm (src f) (place f)
  end.

Record fine_inv f : Prop := {
  fi_place : place f = outside \/ ingest (pipe (svc f)) = AtNext;
  fi_life : living f;
  fi_half : halfway f = true -> alive (main (svc f)) = true ->
    flagged (src f) = true /\ calls_stop (svc f) = true;
  fi_told : told (main (svc f)) = true -> shut (src f)
}.

(** Steps the coarse service does not show. *)
Definition weight f : nat := fine_rank (place f) + if halfway f then 0 else 1.

Definition shown f ls f' a a' : Prop :=
  service_step (coarse a (svc f)) ls (coarse a' (svc f')) \/
  (ls = [] /\ a' = a /\ coarse a (svc f') = coarse a (svc f) /\
   (flagged (src f) = true -> weight f' < weight f)).

(** The thread at [next] finds things as the source's laws want them. *)
Lemma living_at_next pc g t out c q h :
  fine_inv (Fine (Svc pc g t out c) q h) -> alive pc = true -> ingest c = AtNext ->
  pc <> AtStart /\ started_ (pipeline c) = true /\ calm (source_ (pipeline c)) q.
Proof.
  intros [_ Hl _ _] Ha Hi. unfold living, idle_state, src in Hl. cbn in *.
  destruct pc; try done. destruct Hl as [(_ & Hn & _) _]. congruence.
Qed.

Lemma idle_still c l c' : idle_state c -> ~ thread_step c l c'.
Proof.
  intros (_ & Hi & Hp & Ho) [Hs|[Hs|Hs]]; destruct Hs; cbn in *; done.
Qed.

Lemma thread_keeps c l c' :
  thread_step c l c' -> started_ (pipeline c') = started_ (pipeline c) /\
  (ingest c = AtNext -> ingest c' = AtNext).
Proof.
  intros [Hs|[Hs|Hs]]; destruct Hs; try done; try (by split); by destruct b.
Qed.

Lemma sim_thread pc g t out c c' q h l a :
  fine_inv (Fine (Svc pc g t out c) q h) -> alive pc = true -> thread_step c l c' ->
  fine_inv (Fine (Svc pc g t out c') q h) /\
  shown (Fine (Svc pc g t out c) q h) [l] (Fine (Svc pc g t out c') q h) a a.
Proof.
  intros [Hp Hl Hh Ht] Ha Hs. pose proof (thread_source c l c' Hs) as Es.
  destruct (thread_keeps c l c' Hs) as [Est Hn]. split.
  - split; unfold living, src, calls_stop in *; cbn in *; rewrite ?Es, ?Est.
    + destruct Hp; auto.
    + destruct pc; try done. destruct Hl as [Hl _]. by apply idle_still in Hs.
    + by destruct pc.
    + done.
  - left. apply (service_thread pc g t out (coarse_state a c)); [done|]. by apply coarse_thread.
Qed.

(** The steps inside [next]: the source and the place change, nothing else. *)
Lemma inv_inside pc g t out c q h s' q' :
  fine_inv (Fine (Svc pc g t out c) q h) -> alive pc = true -> ingest c = AtNext ->
  calm s' q' -> (flagged (source_ (pipeline c)) = true -> flagged s' = true) ->
  (shut (source_ (pipeline c)) -> shut s') ->
  fine_inv (Fine (Svc pc g t out (with_src s' c)) q' h).
Proof.
  intros Hinv Ha Hi Hc Hf Hsh. destruct (living_at_next _ _ _ _ _ _ _ Hinv Ha Hi) as (Hne & Hst & _).
  destruct Hinv as [_ _ Hh Ht]. split; unfold living, src, calls_stop in *; cbn in *.
  - by right.
  - by destruct pc.
  - intros E _. destruct (Hh E Ha). auto.
  - auto.
Qed.

(** It returns: the place is outside. *)
Lemma inv_returned pc g t out c q h s' i' :
  fine_inv (Fine (Svc pc g t out c) q h) -> alive pc = true -> ingest c = AtNext ->
  calm s' outside -> (flagged (source_ (pipeline c)) = true -> flagged s' = true) ->
  (shut (source_ (pipeline c)) -> shut s') ->
  fine_inv (Fine (Svc pc g t out (set_ingest i' (with_src s' c))) outside h).
Proof.
  intros Hinv Ha Hi Hc Hf Hsh. destruct (living_at_next _ _ _ _ _ _ _ Hinv Ha Hi) as (Hne & Hst & _).
  destruct Hinv as [_ _ Hh Ht]. split; unfold living, src, calls_stop in *; cbn in *.
  - by left.
  - by destruct pc.
  - intros E _. destruct (Hh E Ha). auto.
  - auto.
Qed.

(** Inside [next] the coarse service sees nothing. *)
Lemma sim_call pc g t out c h a :
  fine_inv (Fine (Svc pc g t out c) outside h) -> absorbs a (source_ (pipeline c)) outside ->
  alive pc = true -> ingest c = AtNext ->
  let f' := Fine (Svc pc g t out c) entry h in
  fine_inv f' /\
  exists a', absorbs a' (src f') entry /\ shown (Fine (Svc pc g t out c) outside h) [] f' a a'.
Proof.
  intros Hinv Ha Hal Hi f'. destruct (living_at_next _ _ _ _ _ _ _ Hinv Hal Hi) as (Hne & Hst & Hc).
  apply calm_call in Hc. split.
  - destruct Hinv as [_ _ Hh Ht]. split; [by right|by destruct pc|exact Hh|exact Ht].
  - exists a. split.
    + by apply absorbs_call.
    + right. split_and!; try done. intros _. unfold weight. cbn. pose proof rank_entry. lia.
Qed.

Lemma sim_inner pc g t out c q h l s' q' a :
  fine_inv (Fine (Svc pc g t out c) q h) -> absorbs a (source_ (pipeline c)) q ->
  alive pc = true -> ingest c = AtNext -> fine_step (source_ (pipeline c)) q l s' q' ->
  let f' := Fine (Svc pc g t out (with_src s' c)) q' h in
  fine_inv f' /\
  exists a', absorbs a' (src f') q' /\ shown (Fine (Svc pc g t out c) q h) [] f' a a'.
Proof.
  intros Hinv Ha Hal Hi Hs f'. destruct (living_at_next _ _ _ _ _ _ _ Hinv Hal Hi) as (_ & _ & Hc).
  split.
  - eapply inv_inside; try done; [by eapply calm_step|by apply (step_flagged _ _ _ _ _ Hs)|].
    intros Hsh. by eapply shut_inner.
  - exists a. split; [by eapply absorbs_step|]. right. split_and!; try done.
    intros Hf. destruct (flag_step _ _ _ _ _ Hf Hs) as (_ & Hr & _). unfold weight. cbn. lia.
Qed.

(** [next] comes back, and the service sees it. *)
Lemma sim_next pc g t out c q h l r s' i' ls a :
  fine_inv (Fine (Svc pc g t out c) q h) -> absorbs a (source_ (pipeline c)) q ->
  alive pc = true -> ingest c = AtNext -> fine_return (source_ (pipeline c)) q l r s' ->
  match r with
  | NextEvent e => i' = Received e /\ ls = [Delivered e]
  | NextEnd => i' = Finishing /\ ls = [SourceEnded]
  | NextThrow _ => False
  end ->
  let f' := Fine (Svc pc g t out (set_ingest i' (with_src s' c))) outside h in
  fine_inv f' /\
  exists a', absorbs a' (src f') outside /\ shown (Fine (Svc pc g t out c) q h) ls f' a a'.
Proof.
  intros Hinv Ha Hal Hi Hr Hm f'. destruct (living_at_next _ _ _ _ _ _ _ Hinv Hal Hi) as (_ & _ & Hc).
  split.
  - eapply inv_returned; try done; [by eapply calm_return|by apply (return_flagged _ _ _ _ _ Hr)|].
    intros Hsh. by eapply shut_return.
  - destruct (absorbs_return _ _ _ _ _ _ Ha Hc Hr) as (a' & Ha' & Hn). exists a'. split; [done|].
    left. destruct c as [p i w o fs]. cbn in *. subst i. destruct r as [e| |x]; [..|done];
      destruct Hm as [-> ->]; (eapply service_thread; [done|]); left.
    + exact (ingest_next (coarse_members a p) w o fs e a' Hn).
    + exact (ingest_end (coarse_members a p) w o fs a' Hn).
Qed.

Lemma sim_throws pc g t out c q h l x s' a :
  fine_inv (Fine (Svc pc g t out c) q h) -> absorbs a (source_ (pipeline c)) q ->
  alive pc = true -> ingest c = AtNext -> fine_return (source_ (pipeline c)) q l (NextThrow x) s' ->
  let f' := Fine (Svc Died g t out (with_src s' c)) outside h in
  fine_inv f' /\
  exists a', absorbs a' (src f') outside /\ shown (Fine (Svc pc g t out c) q h) [] f' a a'.
Proof.
  intros Hinv Ha Hal Hi Hr f'. destruct (living_at_next _ _ _ _ _ _ _ Hinv Hal Hi) as (_ & _ & Hc).
  pose proof (return_flagged _ _ _ _ _ Hr) as Hf. split.
  - split; cbn; [by left|done..].
  - destruct (absorbs_return _ _ _ _ _ _ Ha Hc Hr) as (a' & Ha' & Hn). exists a'. split; [done|].
    inversion Hn as [| | | |x' a0 Hx]; subst. left. destruct c as [p i w o fs]. cbn in *. subst i.
    eapply (service_abort pc g t out (coarse_state a' (St p AtNext w o fs))); [done|].
    apply (abort_next (coarse_members a' p) w o fs x a'). by constructor.
Qed.

(** The first half of [stop()]. *)
Lemma sim_flag pc g t out c q a :
  fine_inv (Fine (Svc pc g t out c) q false) -> absorbs a (source_ (pipeline c)) q ->
  calls_stop (Svc pc g t out c) = true ->
  let f' := Fine (Svc pc g t out (with_src (fine_request (source_ (pipeline c))) c)) q true in
  fine_inv f' /\ shown (Fine (Svc pc g t out c) q false) [] f' a a /\ absorbs a (src f') q.
Proof.
  intros [Hp Hl Hh Ht] Ha Hc. unfold living, src, calls_stop in *. cbn in *.
  pose proof (flag_request (source_ (pipeline c))) as Hf. split_and!.
  - split; unfold living, src; cbn; [done| |by intros|intros E; by apply shut_request, Ht].
    destruct pc; cbn in *; try done; by (destruct Hl as [-> ?]; split; [done|by apply calm_request]).
  - right. split_and!; try done. intros _. unfold weight. cbn. lia.
  - by apply absorbs_request.
Qed.

(** The second half, and what [main] does with it. *)
Lemma sim_stop m ls m' q a :
  fine_inv (Fine m q true) -> absorbs a (source_ (pipeline (pipe m))) q ->
  calls_stop m = true -> main_step m ls m' ->
  fine_inv (Fine m' q false) /\
  absorbs (Closing 1) (source_ (pipeline (pipe m'))) q /\
  shown (Fine m q true) ls (Fine m' q false) a (Closing 1).
Proof.
  intros [Hp Hl Hh Ht] Ha Hc Hs. destruct (coarse_stop a m ls m' Hc Hs) as (Hcs & Es & Ei).
  assert (Hal : alive (main m) = true) by (unfold calls_stop in Hc; by destruct (main m)).
  destruct (Hh eq_refl Hal) as [Hf _]. pose proof (shut_after _ Hf) as Hf'.
  unfold living, src in *. cbn in *. rewrite <-Es in Hf'. split_and!.
  - split; unfold living, src; cbn; rewrite ?Ei; try done.
    unfold calls_stop in Hc. rewrite Es.
    assert (Hk : started_ (pipeline (pipe m)) = true /\ calm (source_ (pipeline (pipe m))) q)
      by (by destruct (main m)).
    destruct Hk as [Hst Hk]. apply calm_close in Hk.
    destruct Hs; cbn in *; try done; unfold requestStop; by rewrite Hst.
  - rewrite Es. by apply absorbs_close.
  - left. by constructor.
Qed.

(** The rest of [main]. *)
Lemma sim_main m ls m' q h a :
  fine_inv (Fine m q h) -> absorbs a (source_ (pipeline (pipe m))) q ->
  calls_stop m = false -> main_step m ls m' ->
  fine_inv (Fine m' q h) /\
  exists a', absorbs a' (source_ (pipeline (pipe m'))) q /\ shown (Fine m q h) ls (Fine m' q h) a a'.
Proof.
  intros [Hp Hl Hh Ht] Ha Hc Hs. destruct (coarse_main a m ls m' Hc Hs) as
    [(Hm & Hcs & Hk)|(Hm & Hcs & Es & Est & Ei)]; unfold living, src in *; cbn in *.
  - split; [|exists Open; split; [by left|left; by constructor]].
    rewrite Hm in Hl. destruct Hl as (_ & Hfit & ->).
    split; unfold living, src; cbn; [by left|..].
    + destruct Hs; cbn in *; try done. split; [done|]. destruct Hk as [|Hk]; [done|].
      by eapply calm_start.
    + intros Eh. destruct (Hh Eh); [by rewrite Hm|congruence].
    + by destruct Hs.
  - split; [|exists a; split; [by rewrite Es|left; by constructor]].
    assert (Hl' : main m <> Died -> started_ (pipeline (pipe m)) = true /\
      calm (source_ (pipeline (pipe m))) q) by (by destruct (main m)).
    split; unfold living, src; cbn; rewrite ?Ei, ?Es, ?Est; [done|..].
    + destruct Hs; cbn in *; try done; try (by apply Hl');
        by (case_match; apply Hl').
    + intros Eh Hal. destruct (Hh Eh); [by destruct Hs|congruence].
    + destruct Hs; cbn in *; try done; try (by apply Ht); try by case_match.
      destruct (Hl' ltac:(done)). by unfold calls_stop in Hc; cbn in Hc; congruence.
Qed.

(** Every step of the fine service is one of the coarse service, or none. *)
Lemma sim_step f ls ss f' a :
  fine_inv f -> absorbs a (src f) (place f) -> fine_service_step f ls ss f' ->
  fine_inv f' /\ exists a', absorbs a' (src f') (place f') /\ shown f ls f' a a'.
Proof.
  intros Hinv Ha Hs. destruct Hs as
    [pc g t out c h Hal Hi|pc g t out c q h l s' q' Hal Hi Hs|pc g t out c q h l e s' Hal Hi Hr
    |pc g t out c q h l s' Hal Hi Hr|pc g t out c q h l x s' Hal Hi Hr|pc g t out c c' q h l Hal Hs
    |pc g t out c q h Hal Hab|pc g t out c q Hc|m ls m' q Hc Hs|m ls m' q h Hc Hs].
  - by apply sim_call.
  - eapply sim_inner; eauto.
  - eapply (sim_next _ _ _ _ _ _ _ _ (NextEvent e)); eauto.
  - eapply (sim_next _ _ _ _ _ _ _ _ NextEnd); eauto.
  - eapply sim_throws; eauto.
  - destruct (sim_thread _ _ _ _ _ _ _ _ _ a Hinv Hal Hs) as [Hi' Hsh]. split; [done|].
    exists a. split; [|done]. unfold src in *. cbn in *. by rewrite (thread_source _ _ _ Hs).
  - destruct Hinv as [Hp _ _ _]. split; [by split|]. exists a. split; [done|]. left.
    apply (service_abort pc g t out (coarse_state a c)); [done|by apply coarse_aborts].
  - destruct (sim_flag _ _ _ _ _ _ a Hinv Ha Hc) as (Hi & Hsh & Ha'). eauto.
  - destruct (sim_stop _ _ _ _ a Hinv Ha Hc Hs) as (Hi & Ha' & Hsh). eauto.
  - by apply sim_main.
Qed.

(** *** Runs *)
Lemma inv_signal f : fine_inv f -> fine_inv (fine_signal f).
Proof. intros [Hp Hl Hh Ht]. by split. Qed.

Lemma runs_coarse (s : Src) (u : KafkaEventProducer K) cap r fs tr st f :
  fit s -> fine_runs (fine_begin s u cap r fs) tr st f ->
  fine_inv f /\ exists a, absorbs a (src f) (place f) /\
    runs (service_begin Open u cap r fs) tr (coarse a (svc f)).
Proof.
  intros Hfit Hr. induction Hr as [|tr st f ls ss f' _ (Hinv & a & Ha & Hr) Hs
    |tr st f _ (Hinv & a & Ha & Hr)].
  - split.
    + split; [by left|by split_and!|done..].
    + exists Open. split; [by left|constructor].
  - destruct (sim_step f ls ss f' a Hinv Ha Hs) as (Hinv' & a' & Ha' & Hsh). split; [done|].
    exists a'. split; [done|]. destruct Hsh as [Hsh|(-> & -> & E & _)].
    + by eapply runs_step.
    + by rewrite app_nil_r, E.
  - split; [by apply inv_signal|]. exists a. split; [done|]. by apply (runs_signal _ _ (coarse a (svc f))).
Qed.

(** *** Progress *)
Lemma told_kept (m m' : service any_source K Queue) ls :
  service_step m ls m' -> told (main m) = true -> told (main m') = true \/ main m' = Died.
Proof.
  intros Hs Ht. destruct Hs as [| m ls m' Hs|]; [by left| |by right]. left. by destruct Hs.
Qed.

Lemma dead_still f ls ss f' : main (svc f) = Died -> ~ fine_service_step f ls ss f'.
Proof.
  intros Hd Hs. destruct Hs as [| | | | | | | |m ls m' q Hc Hs|m ls m' q h Hc Hs]; cbn in *;
    try (subst; done); destruct Hs; done.
Qed.

(** The thread at [next] can go on. *)
Lemma next_goes_on pc g t out c q h :
  fine_inv (Fine (Svc pc g t out c) q h) -> alive pc = true -> ingest c = AtNext ->
  exists f', fine_moves (Fine (Svc pc g t out c) q h) f'.
Proof.
  intros Hinv Hal Hi. destruct (living_at_next _ _ _ _ _ _ _ Hinv Hal Hi) as (_ & _ & Hc).
  destruct (fine_goes_on _ _ Hc) as [->|[(l & s' & q' & Hs)|(l & [e| |x] & s' & Hr)]];
    do 3 eexists.
  - by apply fine_call.
  - by eapply fine_inner.
  - by eapply fine_gives.
  - by eapply fine_ends.
  - by eapply fine_throws.
Qed.

(** [main] can go on where the coarse one can. *)
Lemma main_goes_on a m ls (m1 : service any_source K Queue) :
  told (main m) = true -> main_step (coarse a m) ls m1 -> exists ls' m', main_step m ls' m'.
Proof.
  intros Ht Hs. destruct m as [pc g t out [p i w o fs]]. cbn in Ht.
  inversion Hs as [| | | | | | | | | | |g' t' out' c' vals fl Hf| | |]; subst; try done.
  - do 2 eexists. apply main_stop.
  - do 2 eexists. by apply main_stopped.
  - apply lookup_lt_Some in Hf.
    destruct (lookup_lt_is_Some_2 (final_fields (Src := Src) (K := K) (Queue := Queue)) _ Hf) as [fl' Hf'].
    do 2 eexists. by eapply main_read_final.
  - do 2 eexists. by apply main_final.
  - do 2 eexists. apply main_destroy.
  - do 2 eexists. by apply main_exit.
Qed.

(** Where nothing moves any more, nothing does at the coarser grain. *)
Lemma fine_rest f a :
  fine_inv f -> told (main (svc f)) = true -> nf fine_moves f ->
  nf service_moves (coarse a (svc f)).
Proof.
  intros Hinv Ht Hnf [m1 [ls Hs]]. apply Hnf. destruct f as [[pc g t out c] q h]. cbn in Ht.
  inversion Hs as [pc' g' t' out' c' l c1 Hal Hth|m ls' m1' Hm|pc' g' t' out' c' Hal Hab]; subst.
  - destruct (coarse_thread_inv a c l c1 Hth) as [Hi|[c' Hc]].
    + by apply next_goes_on.
    + do 3 eexists. by eapply fine_thread.
  - destruct (main_goes_on a (Svc pc g t out c) ls m1 Ht Hm) as (ls' & m' & Hm').
    destruct (calls_stop (Svc pc g t out c)) eqn:Hc.
    + destruct h; do 3 eexists; [by eapply fine_stop|by apply fine_flag].
    + do 3 eexists. by apply fine_main.
  - destruct (coarse_aborts_inv a c Hab) as [Hi|Ha].
    + by apply next_goes_on.
    + do 3 eexists. by apply fine_abort.
Qed.

(** Told to stop, a thread that waits for the outside is at a place where
    [stop()] cannot reach it. *)
Lemma own_rest f : fine_inv f -> told (main (svc f)) = true -> hangs (place f) = false ->
  nf fine_own_moves f -> nf fine_moves f.
Proof.
  intros Hinv Ht Hh Hnf [f' (ls & ss & Hs)]. apply Hnf. exists f', ls, ss. split; [done|].
  intros Hw. pose proof (shut_hangs _ _ (fi_told f Hinv Ht) Hw). congruence.
Qed.

(** [f] is at the coarser grain [m], and told to stop. *)
Definition stands f (m : service any_source K Queue) : Prop :=
  fine_inv f /\ (told (main (svc f)) = true \/ main (svc f) = Died) /\
  exists a, absorbs a (src f) (place f) /\ m = coarse a (svc f).

Lemma stands_step f (m : service any_source K Queue) f' :
  stands f m -> fine_moves f f' ->
  (exists b', service_moves m b' /\ stands f' b') \/ (stands f' m /\ weight f' < weight f).
Proof.
  intros (Hinv & Ht & a & Ha & ->) (ls & ss & Hs). destruct Ht as [Ht|Hd]; [|by apply dead_still in Hs].
  destruct (sim_step f ls ss f' a Hinv Ha Hs) as (Hinv' & a' & Ha' & Hsh).
  destruct Hsh as [Hsh|(-> & -> & E & Hw)].
  - left. exists (coarse a' (svc f')). split; [by exists ls|]. split_and!; [done| |eauto].
    exact (told_kept _ _ _ Hsh Ht).
  - right. split; [|by apply Hw, shut_flagged, fi_told]. split_and!; [done| |by exists a].
    left. apply (f_equal main) in E. cbn in E. by rewrite E.
Qed.

Lemma stands_rtc f (m : service any_source K Queue) f' :
  stands f m -> rtc fine_moves f f' -> exists b', rtc service_moves m b' /\ stands f' b'.
Proof.
  intros Hm Hr. revert m Hm. induction Hr as [f|f f1 f' Hs Hr IH]; intros m Hm; [by exists m|].
  destruct (stands_step f m f1 Hm Hs) as [(m1 & Hm1 & Hs1)|[Hs1 _]].
  - destruct (IH m1 Hs1) as (m' & Hr' & Hs'). exists m'. split; [by eapply rtc_l|done].
  - exact (IH m Hs1).
Qed.

Lemma fine_service_ends (s : Src) (u : KafkaEventProducer K) cap r fs tr st f :
  fine_runs (fine_begin s u cap r fs) tr st f -> fit s -> (forall x, ~ may_throw x) ->
  told (main (svc f)) = true -> 0 < cap ->
  sn fine_moves f /\
  forall f', rtc fine_moves f f' ->
    main (svc f') <> Died /\
    (nf fine_own_moves f' -> (exists v, main (svc f') = Exited v) \/ hangs (place f') = true).
Proof.
  intros Hr Hfit Hx Ht Hcap.
  destruct (runs_coarse s u cap r fs tr st f Hfit Hr) as (Hinv & a & Ha & Hc).
  assert (Hst : stands f (coarse a (svc f))) by (split_and!; eauto).
  pose proof (any_source_typed may_throw) as Hty. pose proof (any_source_laws may_throw Hx) as Hlaws.
  destruct (service_ends stop_ends Open u cap r fs tr
    (coarse a (svc f)) Hc Ht Hcap) as [Hsn Hend]. split.
  - apply (sim_sn _ service_moves stands weight _ _ Hst Hsn). intros. by apply stands_step.
  - intros f' Hf. destruct (stands_rtc f _ f' Hst Hf) as (m' & Hm & Hinv' & Ht' & a' & Ha' & ->).
    destruct (Hend _ Hm) as [Hd He]. split; [exact Hd|]. intros Hnf.
    destruct Ht' as [Ht'|]; [|done]. destruct (hangs (place f')) eqn:Hh; [by right|left].
    exact (He (fine_rest f' a' Hinv' Ht' (own_rest f' Hinv' Ht' Hh Hnf))).
Qed.

(** *** What the other steps do *)
Lemma thread_not_next c l c' :
  thread_step c l c' -> delivered [l] = [] /\ l <> SourceEnded.
Proof. intros [Hs|[Hs|Hs]]; destruct Hs; cbn in *; try done; repeat case_match; done. Qed.

Lemma main_not_next m ls m' : main_step m ls m' -> delivered ls = [] /\ SourceEnded ∉ ls.
Proof.
  intros Hs. split; [by apply (main_labels m ls m')|].
  destruct Hs; rewrite ?list_elem_of_singleton; repeat case_match; try done; apply not_elem_of_nil.
Qed.


(** [main] is past its loop. *)
Definition asking_stop m : Prop := main m = AtRequestStop \/ told (main m) = true.

Lemma main_asks m ls m' : main_step m ls m' ->
  shutdown_requested m' = shutdown_requested m /\
  (asking_stop m' -> asking_stop m \/ shutdown_requested m = true \/
     ingestFinished (pipeline (pipe m)) = true).
Proof.
  unfold asking_stop. intros Hs. split; [by destruct Hs|].
  destruct Hs; cbn; try (by auto); try by intros [].
  - destruct g; [auto|by intros []].
  - destruct (ingestFinished (pipeline c)); [auto|by intros []].
  - case_bool_decide; cbn; by intros [].
Qed.

(** *** Deaths *)
Lemma inv_coarse cap tr a c : inv cap tr (coarse_state a c) -> inv cap tr c.
Proof. by intros [? ? ? ? ? ? ? ? ?]. Qed.

Lemma fine_pipe_inv (s : Src) (u : KafkaEventProducer K) cap r fs tr st f :
  fit s -> fine_runs (fine_begin s u cap r fs) tr st f -> inv cap tr (pipe (svc f)).
Proof.
  intros Hfit Hr. destruct (runs_coarse s u cap r fs tr st f Hfit Hr) as (_ & a & _ & Hc).
  destruct (runs_exec _ _ _ _ _ _ _ Hc) as [He _]. apply inv_exec in He. by apply inv_coarse in He.
Qed.

(** No thread dies but inside [next]. *)
Lemma fine_no_abort (s : Src) (u : KafkaEventProducer K) cap r fs tr st f :
  fit s -> fine_runs (fine_begin s u cap r fs) tr st f -> ~ aborts (pipe (svc f)).
Proof.
  intros Hfit Hr Ha. destruct (runs_coarse s u cap r fs tr st f Hfit Hr) as (_ & a & _ & Hc).
  pose proof (any_source_typed may_throw) as Hty. destruct (runs_exec _ _ _ _ _ _ _ Hc) as [He _].
  pose proof (delivered_printable _ _ _ He) as Hev.
  destruct (abort_cause printable kafka_printable (fun e Hp => Hp) cap tr (pipe (svc f))
    (fine_pipe_inv s u cap r fs tr st f Hfit Hr) Hev Ha) as (_ & x & s' & []).
Qed.

(** Outside [next], the ingest thread is over only after being over, or when a
    push is refused. *)
Lemma thread_over c l c' : phase c -> thread_step c l c' ->
  ingest_over (ingest c') = ingest_over (ingest c) \/ exists e, l = Dropped e.
Proof.
  intros Hph [Hs|[Hs|Hs]].
  - destruct Hs as [| | | |p w o fs e b q' Hp|]; cbn in *; try done; try (by left).
    destruct b; [by left|right; eauto].
  - destruct Hs; by left.
  - destruct Hs; try by left. left. destruct Hph as (_ & Hi & _). cbn in *. by rewrite Hi.
Qed.

(** No push is refused, and who says it has finished has. *)
Lemma fine_ended (s : Src) (u : KafkaEventProducer K) cap r fs tr st f :
  fit s -> fine_runs (fine_begin s u cap r fs) tr st f ->
  (forall e, Dropped e ∉ tr) /\
  (ingestFinished (pipeline (pipe (svc f))) = true -> ingest (pipe (svc f)) = IngestDone) /\
  (ingest_over (ingest (pipe (svc f))) = true -> SourceEnded ∈ tr).
Proof.
  intros Hfit Hr.
  destruct (inv_ended _ _ _ (fine_pipe_inv s u cap r fs tr st f Hfit Hr)) as (Hov & Hd & Hf).
  by split_and!.
Qed.

(** What has been published when it returns. *)
Lemma fine_exit_sends (s : Src) (u v : KafkaEventProducer K) cap r fs tr st f :
  fit s -> fine_runs (fine_begin s u cap r fs) tr st f -> main (svc f) = Exited v -> producer_ok u ->
  attempted tr = delivered tr /\
  outbox (producer_ v) = outbox (producer_ u) ++ sent_messages (topic (pconfig_ u)) (attempts tr).
Proof.
  intros Hfit Hr Hx Hok. destruct (runs_coarse s u cap r fs tr st f Hfit Hr) as (_ & a & _ & Hc).
  destruct (runs_exec _ _ _ _ _ _ _ Hc) as [He Ho].
  assert (Hx' : main (coarse a (svc f)) = Exited v) by exact Hx. rewrite Hx' in Ho.
  destruct Ho as (Hst & _ & -> & _). pose proof (published_exec _ _ _ _ _ _ _ He Hok) as Hp.
  apply inv_exec in He. split; [|by apply published_destroy].
  by destruct (stopped_complete cap tr _ He Hst) as (_ & ? & _).
Qed.

(** It dies of what [start] or [next] throws. *)
Lemma fine_died (s : Src) (u : KafkaEventProducer K) cap r fs tr st f :
  fit s -> fine_runs (fine_begin s u cap r fs) tr st f -> main (svc f) = Died ->
  (exists x, may_throw x) \/ (exists s0 x s', fit s0 /\ fine_start s0 s' (Throw x)).
Proof.
  intros Hfit. induction 1 as [|tr st f ls ss f' Hr IH Hs|tr st f _ IH]; [done| |exact IH]. intros Hd.
  destruct (runs_coarse s u cap r fs tr st f Hfit Hr) as (Hinv & _).
  destruct Hs as [| | | |pc g t out c q h l x s' Hal Hi Ht| |pc g t out c q h Hal Hab|pc g t out c q Hc
    |m ls m' q Hc Hs|m ls m' q h Hc Hs]; cbn in Hd.
  1-4, 6: by subst.
  - destruct (living_at_next _ _ _ _ _ _ _ Hinv Hal Hi) as (_ & _ & Hk).
    left. exists x. by eapply return_throw.
  - destruct (fine_no_abort _ _ _ _ _ _ _ _ Hfit Hr Hab).
  - by subst.
  - destruct Hs; cbn in *; try done; by case_match.
  - destruct Hs; cbn in *; try done; try by case_match. right. do 3 eexists.
    split; [|eassumption]. apply (fi_life _ Hinv).
Qed.

End Coarse.
