(* ===== verification/SourceSteps.v ===== *)
(** * The two sources, one access at a time

    src/live_source.cpp and src/replay_source.cpp as [FineSource]s: the body of
    [next] as the steps of the calling thread, each at most one access to what
    [stop()] shares with it. *)
From S2P Require Import Prelude CxxStrings MarketEvent Json JsonTree MarketEventJson EventRecorder.
From S2P Require Import ReplaySource LiveSource LiveProperties Interfaces PipelineReplay EventTypes.
From S2P Require Import FineSource.

(** ** LiveSource *)
Section Live.
Context `{JsonLaws} (brings : string -> Prop).

(** The network brings such messages. *)
Definition heard (l : label) : Prop :=
  match l with Message raw _ => brings raw | _ => True end.

Definition returns (l : label) (r : next_result) : Prop :=
  match r with
  | NextEvent e => l = GaveEvent e
  | NextEnd => l = GaveFalse
  | NextThrow x => l = GaveThrow x
  end.

Definition live_fine : FineSource LiveSource LiveSource.pc label := {|
  outside := Outside;
  entry := LoopTest;
  fine_start := fun s s' r => s' = LiveSource.start s /\ r = Ok tt;
  fine_step := fun s p l s' p' => reader_step s p l s' p' /\ p' <> Outside /\ heard l;
  fine_return := fun s p l r s' => reader_step s p l s' Outside /\ returns l r;
  fine_request := request;
  fine_close := close_socket;
  fine_waits := waits
|}.

Definition live_rank (p : LiveSource.pc) : nat :=
  match p with Outside => 10 | _ => stop_rank p end.
Definition brought (p : LiveSource.pc) : Prop :=
  match p with Parsing raw _ => brings raw | _ => True end.

(** Some message of the network holds a number that overflows. *)
Definition live_throws (x : exn) : Prop :=
  exists raw time, brings raw /\ judge raw time = Fatal x.

#[local] Existing Instance live_fine.

Lemma outside_returns s p l s' : reader_step s p l s' Outside -> exists r, returns l r.
Proof.
  intros Hs. inversion Hs; subst;
    first [by exists NextEnd|by eexists (NextEvent _)|by eexists (NextThrow _)|by destruct ok].
Qed.

Lemma live_fine_goes_on s p : brought p -> p = Outside \/
  (exists l s' p', fine_step s p l s' p') \/ (exists l r s', fine_return s p l r s').
Proof.
  intros Hb. destruct (decide (p = Outside)) as [|Hp]; [by left|right].
  destruct (decide (p = Reading)) as [->|Hr].
  { left. exists Tau, (set_connected false s), ReadFailed. by split; [constructor|]. }
  destruct (reader_goes_on s p Hp) as (l & s' & p' & Hs).
  destruct (decide (p' = Outside)) as [->|Hp'].
  - right. destruct (outside_returns s p l s' Hs) as [r Hl]. by exists l, r, s'.
  - left. exists l, s', p'. split_and!; [done..|]. by destruct Hs.
Qed.

Lemma live_fine_laws : FineLaws LiveSource LiveSource.pc label.
Proof.
  refine {| flagged := LiveSource.stop_requested_; shut := shut_down; hangs := connecting;
            fit := fun _ => True; calm := fun _ => brought; may_throw := live_throws;
            fine_rank := live_rank; grace := may_give |}; cbn; try done.
  - intros s p l s' p' Hc (Hs & _ & Hh). by destruct Hs; try (by destruct ok).
  - intros s p l s' p' Hf (Hs & Hp & _). destruct (reader_stop_rank s p l s' p' Hf Hs) as [Hf' Hr].
    split_and!; [done|..].
    + unfold live_rank. destruct p', p; cbn in *; try done; by inversion Hs.
    + destruct (live_may_give (Live s p 0) l (Live s' p' 0) Hf) as [_ Hg]; [by constructor|by destruct Hs|].
      cbn in Hg. lia.
  - intros s p l r s' Hf [Hs Hr]. destruct (reader_stop_rank s p l s' Outside Hf Hs) as [Hf' _].
    split; [done|]. destruct r; [|done..]. cbn in Hr. subst l. inversion Hs; subst. cbn. lia.
  - by intros s [].
  - apply shut_close.
  - by intros s [_ Hw].
  - intros s p l s' p' Hsh (Hs & _). by eapply shut_step.
  - intros s p l r s' Hsh [Hs _]. by eapply shut_step.
  - apply shut_waits.
  - lia.
  - intros p. destruct p; cbn; lia.
  - intros s p l e s' [Hs ->]. inversion Hs; subst. by eapply judge_typed.
  - intros s p l x s' Hc [Hs ->]. inversion Hs; subst. by do 2 eexists.
  - apply live_fine_goes_on.
Defined.
End Live.

(** ** ReplaySource *)

(** Where the thread inside [next] is. *)
Inductive replay_pc :=
  | NotInNext
  | FlagTest               (* at !stop_requested_ *)
  | AtGetline              (* at std::getline *)
  | AtLine (line : string). (* in the body of the loop *)

Section Replay.
Context `{JsonOps}.

(** One step of [next]: the thread goes on, or [next] returns. *)
Definition replay_turn (now : Z) (s : ReplaySource) (p : replay_pc)
    : option (ReplaySource * (replay_pc + next_result)) :=
  match p with
  | NotInNext => None
  | FlagTest => Some (s, if ReplaySource.stop_requested_ s then inr NextEnd else inl AtGetline)
  | AtGetline =>
      let '(line, in') := ifstream_getline (in_ s) in
      Some (set_in in' s, match line with Some line => inl (AtLine line) | None => inr NextEnd end)
  | AtLine line =>
      if is_empty line then Some (s, inl FlagTest) else
      match json_parse line with
      | Throw (ParseError _) => Some (ReplaySource.count_malformed s, inl FlagTest)
      | Throw e => Some (s, inr (NextThrow e))
      | Ok parsed =>
          match marketEventFromJson parsed None with
          | Throw e => Some (s, inr (NextThrow e))
          | Ok (None, _) => Some (ReplaySource.count_malformed s, inl FlagTest)
          | Ok (Some event, _) => Some (s, inr (NextEvent (set_ingest_time now event)))
          end
      end
  end.

(** A call of [next] from [p] on, with calls of [stop()] from other threads
    anywhere between its steps. *)
Inductive replay_call : ReplaySource -> replay_pc -> next_result -> ReplaySource -> Prop :=
  | call_turn now s p s1 p1 r s' :
      replay_turn now s p = Some (s1, inl p1) -> replay_call s1 p1 r s' -> replay_call s p r s'
  | call_returns now s p r s' :
      replay_turn now s p = Some (s', inr r) -> replay_call s p r s'
  | call_stopped s p r s' : replay_call (ReplaySource.stop s) p r s' -> replay_call s p r s'.
End Replay.

Section Oracle.
Context `{JsonLaws}.

(** What [ReplaySource.next] comes back with. *)
Definition comes_back (o : option (outcome (bool * ReplaySource * MarketEvent)))
    (r : next_result) (s : ReplaySource) : Prop :=
  match o with
  | Some (Ok (true, s1, e)) => r = NextEvent e /\ s = s1
  | Some (Ok (false, s1, _)) => r = NextEnd /\ s = s1
  | Some (Throw x) => r = NextThrow x
  | None => False
  end.

(** [ReplaySource.next_loop] from a place inside its body. *)
Definition from_line fuel stops now (s : ReplaySource) out (line : string) :=
  match replay_turn now s (AtLine line) with
  | Some (s, inl _) => next_loop fuel stops now s out
  | Some (s, inr (NextEvent e)) => Some (Ok (true, s, e))
  | Some (s, inr NextEnd) => Some (Ok (false, s, out))
  | Some (s, inr (NextThrow x)) => Some (Throw x)
  | None => None
  end.
Definition from_getline fuel stops now (s : ReplaySource) out :=
  let '(line, in') := ifstream_getline (in_ s) in
  match line with
  | None => Some (Ok (false, set_in in' s, out))
  | Some line => from_line fuel stops now (set_in in' s) out line
  end.
Definition from fuel stops now s out p :=
  match p with
  | NotInNext => None
  | FlagTest => next_loop fuel stops now s out
  | AtGetline => from_getline fuel stops now s out
  | AtLine line => from_line fuel stops now s out line
  end.

Lemma next_loop_from fuel stops now s out :
  next_loop (S fuel) stops now s out =
  let s := if stops 0 then ReplaySource.stop s else s in
  if ReplaySource.stop_requested_ s then Some (Ok (false, s, out))
  else from_getline fuel (fun i => stops (S i)) now s out.
Proof.
  cbn. destruct (ReplaySource.stop_requested_ _); [done|]. unfold from_getline, from_line.
  destruct (ifstream_getline _) as [[line|] in']; [|done]. cbn.
  destruct (is_empty line); [done|]. destruct (json_parse line) as [j|[]]; try done.
  by destruct (marketEventFromJson j None) as [[[e|] eo]|x].
Qed.

(** A [stop()] now, or one that the thread is yet to see. *)
Definition or_stopped (s1 s2 : ReplaySource) : Prop := s1 = s2 \/ s1 = ReplaySource.stop s2.

Lemma later_loop fuel stops now s out r s1 :
  comes_back (next_loop fuel stops now (ReplaySource.stop s) out) r s1 ->
  comes_back (next_loop fuel (fun _ => true) now s out) r s1.
Proof. destruct fuel as [|fuel]; [done|]. rewrite !next_loop_from. by destruct (stops 0). Qed.

Lemma later_line fuel stops now s out line r s1 :
  comes_back (from_line fuel stops now (ReplaySource.stop s) out line) r s1 ->
  exists s2, comes_back (from_line fuel (fun _ => true) now s out line) r s2 /\ or_stopped s1 s2.
Proof.
  unfold from_line. cbn. destruct (is_empty line).
  { intros Hb. apply later_loop in Hb. exists s1. split; [done|by left]. }
  assert (Hm : comes_back (next_loop fuel stops now
      (ReplaySource.count_malformed (ReplaySource.stop s)) out) r s1 ->
    exists s2, comes_back (next_loop fuel (fun _ => true) now (ReplaySource.count_malformed s) out) r s2
      /\ or_stopped s1 s2).
  { intros Hb. apply (later_loop _ _ _ (ReplaySource.count_malformed s)) in Hb.
    exists s1. split; [done|by left]. }
  destruct (json_parse line) as [j|[]]; try done; try (by intros ->; exists s1; split; [|left]).
  destruct (marketEventFromJson j None) as [[[e|] eo]|x]; [|done|by intros ->; exists s1; split; [|left]].
  intros [-> ->]. exists s. split; [done|by right].
Qed.

Lemma stop_later fuel stops now s out p r s1 :
  comes_back (from fuel stops now (ReplaySource.stop s) out p) r s1 ->
  exists s2, comes_back (from fuel (fun _ => true) now s out p) r s2 /\ or_stopped s1 s2.
Proof.
  destruct p as [| | |line]; cbn; [done|..|apply later_line].
  - intros Hb. apply later_loop in Hb. exists s1. split; [done|by left].
  - unfold from_getline. cbn. destruct (ifstream_getline (in_ s)) as [[line|] in'].
    + apply (later_line _ _ _ (set_in in' s)).
    + intros [-> ->]. exists (set_in in' s). split; [done|by right].
Qed.

(** Enough turns left. *)
Definition text_left (s : ReplaySource) : nat :=
  match filebuf (in_ s) with Some text => String.length text | None => 0 end.
Definition fuel_for (s : ReplaySource) (p : replay_pc) : nat :=
  match p with FlagTest | AtLine _ => S (text_left s) | _ => text_left s end.

Lemma getline_left (s : ReplaySource) line in' :
  ifstream_getline (in_ s) = (Some line, in') ->
  text_left (set_in in' s) < text_left s.
Proof.
  unfold ifstream_getline, text_left. destruct (filebuf (in_ s)) as [text|]; [|done].
  destruct (failbit (in_ s)); [done|]. destruct (getline newline text) as [[l t]|] eqn:E; [|done].
  intros [= -> <-]. by apply getline_shorter in E.
Qed.

Lemma call_loop s p r s' : replay_call s p r s' -> forall fuel out,
  fuel_for s p <= fuel ->
  exists stops now s1, comes_back (from fuel stops now s out p) r s1 /\ or_stopped s' s1.
Proof.
  induction 1 as [now s p s1 p1 r s' Ht _ IH|now s p r s' Ht|s p r s' _ IH]; intros fuel out Hf.
  - destruct p as [| | |line]; cbn in *; [done|..].
    + destruct (ReplaySource.stop_requested_ s) eqn:Hs; [done|]. injection Ht as <- <-.
      destruct fuel as [|fuel]; [lia|]. destruct (IH fuel out) as (stops & now' & s2 & Hb & Ho); [cbn; lia|].
      exists (fun i => match i with 0 => false | S i => stops i end), now', s2.
      rewrite next_loop_from. cbn. by rewrite Hs.
    + destruct (ifstream_getline (in_ s)) as [[line|] in'] eqn:Hg; [|done]. injection Ht as <- <-.
      apply getline_left in Hg as Hl. destruct (IH fuel out) as (stops & now' & s2 & Hb & Ho); [cbn; lia|].
      exists stops, now', s2. split; [|done]. unfold from_getline. by rewrite Hg.
    + assert (Hp : p1 = FlagTest /\ text_left s1 = text_left s).
      { destruct (is_empty line); [by injection Ht as <- <-|].
        destruct (json_parse line) as [j|[]]; try done; [|by injection Ht as <- <-].
        destruct (marketEventFromJson j None) as [[[e|] eo]|x]; try done. by injection Ht as <- <-. }
      destruct Hp as [-> El]. destruct (IH fuel out) as (stops & now' & s2 & Hb & Ho); [cbn; lia|].
      exists stops, now', s2. split; [|done]. unfold from_line. cbn. cbn in Ht, Hb.
      destruct (is_empty line); [by injection Ht as <-|].
      destruct (json_parse line) as [j|[]]; try done; [|by injection Ht as <-].
      destruct (marketEventFromJson j None) as [[[e|] eo]|x]; try done. by injection Ht as <-.
  - exists (fun _ => false), now, s'. split; [|by left]. destruct p as [| | |line]; cbn in *; [done|..].
    + destruct (ReplaySource.stop_requested_ s) eqn:Hs; [|done]. injection Ht as <- <-.
      destruct fuel as [|fuel]; [lia|]. rewrite next_loop_from. cbn. by rewrite Hs.
    + unfold from_getline. destruct (ifstream_getline (in_ s)) as [[line|] in']; [done|].
      by injection Ht as <- <-.
    + unfold from_line. cbn. destruct (is_empty line); [done|].
      destruct (json_parse line) as [j|[]]; try done; try by injection Ht as <- <-.
      destruct (marketEventFromJson j None) as [[[e|] eo]|x]; try done; by injection Ht as <- <-.
  - destruct (IH fuel out) as (stops & now & s1 & Hb & Ho); [done|].
    apply stop_later in Hb as (s2 & Hb & Ho2). exists (fun _ => true), now, s2. split; [done|].
    destruct Ho as [->| ->], Ho2 as [->| ->]; unfold or_stopped; auto.
Qed.

Lemma loop_call stops now out : forall fuel s, is_Some (next_loop fuel stops now s out) ->
  exists r s', comes_back (next_loop fuel stops now s out) r s' /\ replay_call s FlagTest r s'.
Proof.
  intros fuel. revert stops. induction fuel as [|fuel IH]; intros stops s [o Ho]; [done|].
  assert (Hn : is_Some (next_loop (S fuel) stops now s out)) by by exists o.
  rewrite next_loop_from in *. cbn in *. clear o Ho.
  set (s0 := if stops 0 then ReplaySource.stop s else s) in *.
  assert (Hc0 : forall r s', replay_call s0 FlagTest r s' -> replay_call s FlagTest r s').
  { unfold s0. destruct (stops 0); [|done]. intros r s'. apply call_stopped. }
  destruct (ReplaySource.stop_requested_ s0) eqn:Hs.
  { exists NextEnd, s0. split; [done|]. apply Hc0, (call_returns now). cbn. by rewrite Hs. }
  assert (Hc1 : forall r s', replay_call s0 AtGetline r s' -> replay_call s FlagTest r s').
  { intros r s' Hc. apply Hc0, (call_turn now _ _ s0 AtGetline); [|done]. cbn. by rewrite Hs. }
  unfold from_getline in *. destruct (ifstream_getline (in_ s0)) as [[line|] in'] eqn:Hg.
  2: { exists NextEnd, (set_in in' s0). split; [done|]. apply Hc1, (call_returns now). cbn. by rewrite Hg. }
  assert (Hc2 : forall r s', replay_call (set_in in' s0) (AtLine line) r s' -> replay_call s FlagTest r s').
  { intros r s' Hc. apply Hc1, (call_turn now _ _ (set_in in' s0) (AtLine line)); [|done]. cbn. by rewrite Hg. }
  unfold from_line in *.
  destruct (replay_turn now (set_in in' s0) (AtLine line)) as [[s1 [p1|[e| |x]]]|] eqn:Ht;
    [..|by destruct Hn].
  - destruct (IH _ s1 Hn) as (r & s' & Hb & Hc). exists r, s'. split; [done|]. apply Hc2.
    apply (call_turn now _ _ s1 p1 _ _ Ht).
    assert (p1 = FlagTest) as ->; [|done]. cbn in Ht. destruct (is_empty line); [congruence|].
    destruct (json_parse line) as [j|[]]; try congruence.
    destruct (marketEventFromJson j None) as [[[e|] eo]|x]; congruence.
  - exists (NextEvent e), s1. split; [done|]. by apply Hc2, (call_returns now).
  - exists NextEnd, s1. split; [done|]. by apply Hc2, (call_returns now).
  - exists (NextThrow x), s1. split; [done|]. by apply Hc2, (call_returns now).
Qed.
End Oracle.

(** *** The laws *)
Section ReplayLaws.
Context `{JsonLaws} (read_file : string -> option string) (path : string).

Definition replay_fine : FineSource ReplaySource replay_pc Z := {|
  outside := NotInNext;
  entry := FlagTest;
  fine_start := fun s s' r => ReplaySource.start read_file s = (s', r);
  fine_step := fun s p now s' p' => replay_turn now s p = Some (s', inl p');
  fine_return := fun s p now r s' => replay_turn now s p = Some (s', inr r);
  fine_request := ReplaySource.stop;
  fine_close := fun s => s;
  fine_waits := fun _ _ => false
|}.

(** The file's lines, those still to be read among them. *)
Definition file_lines : list string :=
  match read_file path with Some text => getlines newline text | None => [] end.
Definition lines_left (s : ReplaySource) : list string :=
  match filebuf (in_ s) with Some text => getlines newline text | None => [] end.
Definition in_file (s : ReplaySource) (p : replay_pc) : Prop :=
  (forall l, l ∈ lines_left s -> l ∈ file_lines) /\
  match p with AtLine l => l ∈ file_lines | _ => True end.

Definition replay_throws (x : exn) : Prop := exists l, l ∈ file_lines /\ classify l = ReplaySource.Fatal x.

Definition replay_rank (p : replay_pc) : nat :=
  match p with NotInNext => 4 | FlagTest => 1 | AtGetline => 3 | AtLine _ => 2 end.
Definition replay_grace (p : replay_pc) : nat :=
  match p with AtGetline | AtLine _ => 1 | _ => 0 end.

#[local] Existing Instance replay_fine.

(** The body of the loop, as [classify] tells it. *)
Lemma turn_line now s line : replay_turn now s (AtLine line) =
  Some match classify line with
  | Blank => (s, inl FlagTest)
  | ReplaySource.Malformed => (ReplaySource.count_malformed s, inl FlagTest)
  | ReplaySource.Fatal x => (s, inr (NextThrow x))
  | Event e => (s, inr (NextEvent (set_ingest_time now e)))
  end.
Proof.
  cbn. unfold classify. destruct (is_empty line); [done|].
  destruct (json_parse line) as [j|[]]; try done. rewrite fromJson_read.
  by destruct (read_event j None) as [[e|] eo].
Qed.

Lemma getline_lines (s : ReplaySource) o in' :
  ifstream_getline (in_ s) = (o, in') ->
  match o with
  | Some l => lines_left s = l :: lines_left (set_in in' s)
  | None => forall l, l ∈ lines_left (set_in in' s) -> l ∈ lines_left s
  end.
Proof.
  unfold ifstream_getline, lines_left. destruct (filebuf (in_ s)) as [text|] eqn:Hb; [|by intros [= <- <-]].
  destruct (failbit (in_ s)); [intros [= <- <-]; cbn; by rewrite Hb|].
  destruct (getline newline text) as [[l t]|] eqn:E; intros [= <- <-]; cbn.
  - by rewrite getlines_unfold, E.
  - intros l Hl. by apply not_elem_of_nil in Hl.
Qed.

Lemma turn_in_file now s p s' n : in_file s p -> replay_turn now s p = Some (s', n) ->
  in_file s' match n with inl p' => p' | inr _ => NotInNext end.
Proof.
  unfold in_file. intros [Hl Hp] Ht. destruct p as [| | |line]; [done|..].
  - injection Ht as <- <-. by destruct (ReplaySource.stop_requested_ s).
  - cbn in Ht. destruct (ifstream_getline (in_ s)) as [o in'] eqn:Hg. apply getline_lines in Hg.
    injection Ht as <- <-. destruct o as [l|]; [|by split; [auto|]].
    rewrite Hg in Hl. split; [|apply Hl; left]. intros l' Hl'. apply Hl. by right.
  - rewrite turn_line in Ht. by destruct (classify line); injection Ht as <- <-.
Qed.

Lemma turn_flag now s p s' n : replay_turn now s p = Some (s', n) ->
  ReplaySource.stop_requested_ s' = ReplaySource.stop_requested_ s.
Proof.
  intros Ht. destruct p as [| | |line]; [done|..].
  - by injection Ht as <- _.
  - cbn in Ht. destruct (ifstream_getline (in_ s)) as [o in']. by injection Ht as <- _.
  - rewrite turn_line in Ht. by destruct (classify line); injection Ht as <- _.
Qed.

Lemma replay_fine_laws : FineLaws ReplaySource replay_pc Z.
Proof.
  refine {| flagged := ReplaySource.stop_requested_;
            shut := fun s => ReplaySource.stop_requested_ s = true; hangs := fun _ => false; fit := fun s => s = ReplaySource_new path;
            calm := in_file; may_throw := replay_throws; fine_rank := replay_rank;
            grace := replay_grace |}; cbn -[replay_turn]; try done.
  - intros s s' -> Hs. unfold ReplaySource.start, ifstream_open in Hs. cbn in Hs.
    unfold in_file, lines_left, file_lines. destruct (read_file path) as [text|]; [|done].
    by injection Hs as <-.
  - intros s p l s' p' Hc Ht. exact (turn_in_file _ _ _ _ _ Hc Ht).
  - intros s p l r s' Hc Ht. exact (turn_in_file _ _ _ _ _ Hc Ht).
  - intros s p l s' p' Hf Ht. destruct p as [| | |line]; [done|..].
    + injection Ht as <- Hn. by rewrite Hf in Hn.
    + cbn in Ht. destruct (ifstream_getline _) as [[line|] in']; [|done].
      injection Ht as <- <-. cbn. split_and!; [done|lia|lia].
    + rewrite turn_line in Ht. destruct (classify line); try done; injection Ht as <- <-;
        cbn; (split_and!; [done|lia|lia]).
  - intros s p l r s' Hf Ht. destruct p as [| | |line]; [done|..].
    + injection Ht as <- Hn. rewrite Hf in Hn. by injection Hn as <-.
    + cbn in Ht. destruct (ifstream_getline _) as [[line|] in']; [done|].
      by injection Ht as <- <-.
    + rewrite turn_line in Ht. destruct (classify line); try done; injection Ht as <- <-; cbn; auto with lia.
  - intros s p now s' p' Hf Ht. by rewrite (turn_flag _ _ _ _ _ Ht).
  - intros s p now r s' Hf Ht. by rewrite (turn_flag _ _ _ _ _ Ht).
  - lia.
  - intros p. destruct p; cbn; lia.
  - intros s p l e s' Ht. destruct p as [| | |line]; [done|..].
    + injection Ht as <- Hn. by destruct (ReplaySource.stop_requested_ s).
    + cbn in Ht. by destruct (ifstream_getline _) as [[line|] in'].
    + rewrite turn_line in Ht. destruct (classify line) eqn:Hc; try done. injection Ht as <- <-.
      apply typed_stamped. by eapply classify_typed.
  - intros s p l x s' [_ Hp] Ht. destruct p as [| | |line]; [done|..].
    + injection Ht as <- Hn. by destruct (ReplaySource.stop_requested_ s).
    + cbn in Ht. by destruct (ifstream_getline _) as [[line|] in'].
    + rewrite turn_line in Ht. destruct (classify line) eqn:Hc; try done. injection Ht as <- <-.
      by exists line.
  - intros s p _. destruct p as [| | |line]; [by left|right..].
    + destruct (ReplaySource.stop_requested_ s) eqn:Hs; [right|left]; exists 0%Z; cbn; rewrite Hs; eauto.
    + destruct (ifstream_getline (in_ s)) as [[line|] in'] eqn:Hg; [left|right]; exists 0%Z;
        cbn; rewrite Hg; eauto.
    + destruct (classify line) eqn:Hc; [left|right|left|right]; exists 0%Z; rewrite turn_line, Hc; eauto.
Defined.
End ReplayLaws.

(** *** After a stop *)
Section ReplayStopped.
Context `{JsonLaws}.

(** What a line comes to when no other may be read. *)
Definition line_outcome (line : string) (r : next_result) : Prop :=
  match classify line with
  | Event e => exists now, r = NextEvent (set_ingest_time now e)
  | ReplaySource.Fatal x => r = NextThrow x
  | Blank | ReplaySource.Malformed => r = NextEnd
  end.

(** What is left of a call of [next] when the flag is set: at the test of the flag,
    nothing; at [std::getline], at most one line; in the body, the line read. *)
Definition stopped_outcome (s : ReplaySource) (p : replay_pc) (r : next_result) (s' : ReplaySource) : Prop :=
  match p with
  | NotInNext => False
  | FlagTest => r = NextEnd /\ s' = s
  | AtGetline =>
      let '(line, in') := ifstream_getline (in_ s) in
      in_ s' = in' /\ match line with Some line => line_outcome line r | None => r = NextEnd end
  | AtLine line => in_ s' = in_ s /\ line_outcome line r
  end.

Lemma stop_again (s : ReplaySource) : ReplaySource.stop_requested_ s = true -> ReplaySource.stop s = s.
Proof. destruct s. cbn. by intros ->. Qed.

Lemma stopped_call s p r s' : replay_call s p r s' -> ReplaySource.stop_requested_ s = true ->
  stopped_outcome s p r s'.
Proof.
  induction 1 as [now s p s1 p1 r s' Ht _ IH|now s p r s' Ht|s p r s' _ IH]; intros Hf.
  - specialize (IH ltac:(by rewrite (turn_flag _ _ _ _ _ Ht))). destruct p as [| | |line]; [done|..].
    + cbn in Ht. by rewrite Hf in Ht.
    + cbn in Ht |- *. destruct (ifstream_getline (in_ s)) as [[line|] in']; [|done].
      by injection Ht as <- <-.
    + rewrite turn_line in Ht. cbn. unfold line_outcome.
      destruct (classify line); try done; injection Ht as <- <-; by destruct IH as [-> ->].
  - destruct p as [| | |line]; [done|..].
    + cbn in Ht. rewrite Hf in Ht. by injection Ht as <- <-.
    + cbn in Ht |- *. destruct (ifstream_getline (in_ s)) as [[line|] in']; [done|].
      by injection Ht as <- <-.
    + rewrite turn_line in Ht. cbn. unfold line_outcome.
      destruct (classify line); try done; injection Ht as <- <-; eauto.
  - rewrite stop_again in * by done. auto.
Qed.

Lemma stopped_line s line : ReplaySource.stop_requested_ s = true ->
  exists r s', replay_call s (AtLine line) r s'.
Proof.
  intros Hf. pose proof (turn_line 0 s line) as Ht. destruct (classify line).
  all: do 2 eexists; first [eapply call_returns; exact Ht
    |eapply call_turn; [exact Ht|]; apply (call_returns 0); cbn; by rewrite Hf].
Qed.

Lemma stopped_returns s p : ReplaySource.stop_requested_ s = true -> p <> NotInNext ->
  exists r s', replay_call s p r s'.
Proof.
  intros Hf Hp. destruct p as [| | |line]; [done|..|by apply stopped_line].
  - do 2 eexists. apply (call_returns 0). cbn. by rewrite Hf.
  - destruct (ifstream_getline (in_ s)) as [[line|] in'] eqn:Hg.
    + destruct (stopped_line (set_in in' s) line Hf) as (r & s' & Hc). exists r, s'.
      eapply (call_turn 0); [|exact Hc]. cbn. by rewrite Hg.
    + do 2 eexists. apply (call_returns 0). cbn. by rewrite Hg.
Qed.
End ReplayStopped.

(** ** Properties *)

(** C22: a replay heeds [stop()].  From any place inside [ReplaySource::next], once
    the flag is set, and however often [stop()] is called again: the call comes
    back; at the test of the flag it returns false and leaves the source as it is;
    at [std::getline] it takes at most that one line from the file, and in the body
    none, and comes back with that line's event, if it is one, and otherwise false,
    or throws if the line holds a number too large for a double. *)
Theorem replay_stop_heeded `{JsonLaws} (s : ReplaySource) p
  (Hs : ReplaySource.stop_requested_ s = true) (Hp : p <> NotInNext) :
  (exists r s', replay_call s p r s') /\
  forall r s', replay_call s p r s' -> stopped_outcome s p r s'.
Proof.
  split; [by apply stopped_returns|]. intros r s' Hc. by apply stopped_call.
Qed.

(** Stopped at [std::getline], with a line left: its event is the last. *)
Lemma replay_stop_heeded_witness :
  (exists r s', @replay_call tree_ops (ReplaySource.stop at_line) AtGetline r s') /\
  @line_outcome tree_ops sampleLine (NextEvent replayedEvent).
Proof.
  destruct (@replay_stop_heeded tree_ops tree_laws (ReplaySource.stop at_line) AtGetline eq_refl
    ltac:(discriminate)) as [He Ho]. split; [exact He|].
  assert (Hc : @replay_call tree_ops (ReplaySource.stop at_line) AtGetline (NextEvent replayedEvent)
    (ReplaySource.stop after_line)).
  { apply (call_turn 5 _ _ (ReplaySource.stop after_line) (AtLine sampleLine)); [vm_compute; reflexivity|].
    apply (call_returns 5). vm_compute. reflexivity. }
  specialize (Ho _ _ Hc). unfold stopped_outcome in Ho.
  assert (Hg : ifstream_getline (in_ (ReplaySource.stop at_line)) =
    (Some sampleLine, in_ after_line)) by (vm_compute; reflexivity).
  rewrite Hg in Ho. exact (proj2 Ho).
Defined.

(** [stops] is every interleaving.  A call of [ReplaySource::next] taken
    apart into its steps, with calls of [stop()] by other threads anywhere
    between them, comes back with what [ReplaySource.next] computes for some
    [stops] and some reading of the clock, and leaves the source in the state
    computed there, stopped perhaps after the last test of the flag; and
    whatever [ReplaySource.next] computes, such a call comes back with it. *)
Theorem replay_steps_exact `{JsonLaws} s :
  (forall out r s', replay_call s FlagTest r s' ->
     exists stops now s1, comes_back (ReplaySource.next stops now s out) r s1 /\
       (s' = s1 \/ s' = ReplaySource.stop s1)) /\
  (forall out stops now, exists r s',
     comes_back (ReplaySource.next stops now s out) r s' /\ replay_call s FlagTest r s').
Proof.
  split.
  - intros out r s' Hc. apply (call_loop _ _ _ _ Hc (next_fuel s) out).
    unfold next_fuel. cbn. unfold text_left. lia.
  - intros out stops now. apply loop_call, next_loop_fuel. unfold next_fuel. lia.
Qed.

(** A call stopped while it is in its line. *)
Lemma replay_steps_exact_witness :
  exists stops now s1, @comes_back (@ReplaySource.next tree_ops stops now at_line default_event)
    (NextEvent replayedEvent) s1 /\
    (ReplaySource.stop after_line = s1 \/ ReplaySource.stop after_line = ReplaySource.stop s1).
Proof.
  apply (proj1 (@replay_steps_exact tree_ops tree_laws at_line) default_event).
  apply (call_turn 5 _ _ at_line AtGetline); [vm_compute; reflexivity|].
  apply (call_turn 5 _ _ after_line (AtLine sampleLine)); [vm_compute; reflexivity|].
  apply call_stopped, (call_returns 5). vm_compute. reflexivity.
Defined.
