(* ===== verification/LiveService.v ===== *)
(** * The ingestion service, live

    services/ingestion/main.cpp without [--replay]: the live source of
    [LiveSource], one access at a time, in the service of [FineService].  A run
    of the service is a run of its source, stopped by nobody else. *)
From S2P Require Import Prelude CxxStrings MarketEvent Json JsonTree MarketEventJson EventRecorder.
From S2P Require Import BinanceTradeParser BoundedQueue Interfaces IngestionPipeline PipelineInvariant PipelineProperties.
From S2P Require Import ReplaySource PipelineReplay Kafka KafkaProperties PipelineKafka EventTypes FineSource.
From S2P Require Import IngestionService ServiceInvariant ServiceDemo ServiceProperties.
From S2P Require Import LiveSource LiveProperties SourceSteps FineService.

(** ** The live source's own trace *)
Definition source_label (e : source_event label) : label :=
  match e with
  | SourceStart => StartCalled
  | SourceCall => Called
  | SourceInner l => l
  | SourceFlag => StopFlag
  | SourceClose => StopClosed
  end.
Definition source_trace (st : list (source_event label)) : list label := source_label <$> st.

Lemma messages_count tr : length (messages tr) = count is_message tr.
Proof.
  induction tr as [|l tr IH]; [done|]. unfold messages in *. cbn.
  destruct l; cbn; by rewrite IH.
Qed.
Lemma given_count tr : length (given tr) = count is_event tr.
Proof.
  induction tr as [|l tr IH]; [done|]. unfold given in *. cbn.
  destruct l; cbn; by rewrite IH.
Qed.

(** What becomes of a message with a number that overflows. *)
Section Fatal.
Context `{JsonOps}.

Lemma fatal_judged config tr c raw time x : LiveSource.exec config tr c ->
  (raw, time) ∈ messages tr -> judge raw time = Fatal x ->
  reader c = Parsing raw time \/ GaveThrow x ∈ tr.
Proof.
  intros He Hin Hj. revert Hin. induction He as [|tr c l c' _ IH Hs]; [by intros ?%not_elem_of_nil|].
  rewrite messages_snoc, !elem_of_app. intros [Hin|Hin].
  - destruct (IH Hin) as [Hp|]; [|by auto].
    destruct Hs as [s n|s p n l s' p' Hr| | |]; cbn in *; [by subst|..]; try by auto.
    subst p. inversion Hr; subst; try congruence. right. right.
    apply list_elem_of_singleton. congruence.
  - left. destruct Hs as [s n|s p n l s' p' Hr| | |]; cbn in *; try by apply not_elem_of_nil in Hin.
    destruct Hr; cbn in *; try by apply not_elem_of_nil in Hin.
    apply list_elem_of_singleton in Hin. by injection Hin as -> ->.
Qed.

Lemma throw_fatal config tr c x : LiveSource.exec config tr c -> GaveThrow x ∈ tr ->
  exists raw time, (raw, time) ∈ messages tr /\ judge raw time = Fatal x.
Proof.
  intros He. induction He as [|tr c l c' He IH Hs]; [by intros ?%not_elem_of_nil|].
  rewrite messages_snoc, elem_of_app, list_elem_of_singleton. setoid_rewrite elem_of_app.
  intros [Hin| <-]; [destruct (IH Hin) as (raw & time & ? & ?); eauto|].
  inversion Hs as [|s p n l s' p' Hr| | |]; subst. inversion Hr; subst. exists raw, time.
  split; [left|done]. apply live_inv_exec in He. destruct (inv_given _ _ _ He) as (judged & -> & _).
  cbn. set_solver.
Qed.
End Fatal.

(** The outcomes of the attempts, as the counters have them. *)
Lemma attempts_outcomes tr :
  count id (attempts tr).*2 = count is_published tr /\ count negb (attempts tr).*2 = count is_failure tr.
Proof.
  induction tr as [|l tr [IH1 IH2]]; [done|]. unfold attempts in *.
  destruct l as [| | | | | | | |e []| |]; cbn in *; lia.
Qed.

Section Live.
Context `{JsonLaws} `{KafkaLaws K} `{QueueLaws Queue MarketEvent} (brings : string -> Prop).
Implicit Types (f : fine_service LiveSource LiveSource.pc K Queue) (m : service LiveSource K Queue).

#[local] Existing Instance without_next | 0.
#[local] Instance this_live : FineSource LiveSource LiveSource.pc label := live_fine brings.
#[local] Instance this_laws : FineLaws LiveSource LiveSource.pc label := live_fine_laws brings.
#[local] Instance any_live : MarketDataSource any_source := any_source_ops (live_throws brings).

(** The live source as the service uses it. *)
Definition live_part f : live := Live (src f) (place f) (if halfway f then 1 else 0).

Lemma main_source m ls m' : calls_stop m = false -> main_step m ls m' ->
  match main m with
  | AtStart => source_ (pipeline (pipe m')) = LiveSource.start (source_ (pipeline (pipe m)))
  | _ => source_ (pipeline (pipe m')) = source_ (pipeline (pipe m))
  end.
Proof.
  intros Hc Hs. unfold calls_stop in Hc. destruct Hs; cbn in *; try done.
  - by match goal with E : _ /\ _ |- _ => destruct E end.
  - by match goal with E : _ /\ _ |- _ => destruct E end.
  - unfold requestStop. by rewrite Hc.
  - unfold requestStop. by rewrite Hc.
Qed.

(** One step of the service is at most one step of the source. *)
Lemma live_part_step f ls ss f' : fine_service_step f ls ss f' ->
  (ss = [] /\ live_part f' = live_part f \/
   exists e, ss = [e] /\ live_step (live_part f) (source_label e) (live_part f')) /\
  delivered ls = given (source_trace ss) /\
  (SourceEnded ∈ ls -> GaveFalse ∈ source_trace ss).
Proof.
  intros Hs. destruct Hs as
    [pc g t out c h Hal Hi|pc g t out c q h l s' q' Hal Hi Hs|pc g t out c q h l e s' Hal Hi Hr
    |pc g t out c q h l s' Hal Hi Hr|pc g t out c q h l x s' Hal Hi Hr|pc g t out c c' q h l Hal Hs
    |pc g t out c q h Hal Hab|pc g t out c q Hc|m ls m' q Hc Hs|m ls m' q h Hc Hs];
    unfold live_part, src; cbn.
  - split; [right|by split; [|intros Hin%not_elem_of_nil]]. exists SourceCall. split; [done|]. constructor.
  - destruct Hs as (Hs & Hp & _). split; [right|].
    + exists (SourceInner l). split; [done|]. by constructor.
    + split; [|by intros Hin%not_elem_of_nil]. by destruct Hs; try (by destruct ok).
  - destruct Hr as [Hs Hr]. cbn in Hr. subst l. split; [right|].
    + exists (SourceInner (GaveEvent e)). split; [done|]. by constructor.
    + split; [done|]. by intros Hin%list_elem_of_singleton.
  - destruct Hr as [Hs Hr]. cbn in Hr. subst l. split; [right|].
    + exists (SourceInner GaveFalse). split; [done|]. by constructor.
    + split; [done|]. intros _. by left.
  - destruct Hr as [Hs Hr]. cbn in Hr. subst l. split; [right|].
    + exists (SourceInner (GaveThrow x)). split; [done|]. by constructor.
    + split; [done|]. by intros Hin%not_elem_of_nil.
  - destruct (thread_not_next c l c' Hs) as [Hd Hn]. rewrite (thread_source c l c' Hs).
    split; [by left|]. split; [done|]. intros Hin%list_elem_of_singleton. by destruct Hn.
  - split; [by left|]. split; [done|]. by intros Hin%not_elem_of_nil.
  - split; [right|]. 
    + exists SourceFlag. split; [done|]. constructor.
    + split; [done|]. by intros Hin%not_elem_of_nil.
  - destruct (main_not_next m ls m' Hs) as [Hd Hn]. destruct (coarse_stop Open m ls m' Hc Hs) as (_ & -> & _).
    split; [right|by split]. exists SourceClose. split; [done|]. constructor.
  - destruct (main_not_next m ls m' Hs) as [Hd Hn]. pose proof (main_source m ls m' Hc Hs) as Es.
    destruct (main m); rewrite Es; try (by split; [left|]).
    split; [right|by split]. exists SourceStart. split; [done|]. apply live_start.
Qed.

Lemma source_trace_app st st' : source_trace (st ++ st') = source_trace st ++ source_trace st'.
Proof. apply fmap_app. Qed.

(** A run of the service is a run of its source, which gave what the pipeline
    was delivered. *)
Lemma live_part_runs config (u : KafkaEventProducer K) cap r fs tr st f :
  fine_runs (fine_begin (LiveSource_new config) u cap r fs) tr st f ->
  LiveSource.exec config (source_trace st) (live_part f) /\
  delivered tr = given (source_trace st) /\
  (SourceEnded ∈ tr -> GaveFalse ∈ source_trace st).
Proof.
  induction 1 as [|tr st f ls ss f' _ (He & Hd & Hn) Hs|tr st f _ IH]; [|..|exact IH].
  - split_and!; [constructor|done|by intros Hin%not_elem_of_nil].
  - destruct (live_part_step f ls ss f' Hs) as (Hl & Hd' & Hn'). rewrite source_trace_app. split_and!.
    + destruct Hl as [(-> & ->)|(e & -> & Hl)]; [by rewrite app_nil_r|by eapply exec_step].
    + unfold delivered, given in *. by rewrite !omap_app, Hd, Hd'.
    + rewrite !elem_of_app. tauto.
Qed.

Context (config : LiveSourceConfig) (u : KafkaEventProducer K) (cap : nat)
  (r : option EventRecorder) (fs : files).
Abbreviation begin := (fine_begin (Queue := Queue) (LiveSource_new config) u cap r fs).

(** At the coarser grain it is the service of [IngestionService]. *)
Lemma live_coarse tr st f : fine_runs begin tr st f ->
  fine_inv (Lbl := label) f /\ exists a, runs (service_begin Open u cap r fs) tr (coarse a (svc f)).
Proof.
  intros Hr. assert (Hf : fit (LiveSource_new config)) by exact I.
  destruct (runs_coarse _ _ _ _ _ _ _ _ Hf Hr) as (Hi & a & _ & Hc). eauto.
Qed.

(** A thrown exception is the end of the process. *)
Lemma live_no_throw tr st f :
  fine_runs begin tr st f -> main (svc f) <> Died -> count is_throw (source_trace st) = 0.
Proof.
  induction 1 as [|tr st f ls ss f' _ IH Hs|tr st f _ IH]; [done| |exact IH]. intros Hd.
  rewrite source_trace_app, count_app, IH by (intros E; by destruct (dead_still f ls ss f' E)).
  clear IH. destruct Hs as
    [| |pc g t out c q h l e s' Hal Hi [_ Hr]|pc g t out c q h l s' Hal Hi [_ Hr]| | | | | |]; try done.
  - match goal with E : fine_step _ _ _ _ _ |- _ => destruct E as (Hs & Hp & _) end.
    by destruct Hs; try (by destruct ok).
  - cbn in Hr. by subst l.
  - cbn in Hr. by subst l.
  - by destruct (main m).
Qed.

(** The live source's end is the service's doing. *)
Lemma finished_stopped tr st f :
  fine_runs begin tr st f -> ingestFinished (pipeline (pipe (svc f))) = true ->
  StopFlag ∈ source_trace st.
Proof.
  intros Hr Hf. assert (Hfit : fit (LiveSource_new config)) by exact I.
  destruct (fine_ended _ _ _ _ _ _ _ _ Hfit Hr) as (_ & Hdone & Hov). rewrite (Hdone Hf) in Hov.
  destruct (live_part_runs config u cap r fs tr st f Hr) as (Hl & _ & Hend).
  apply live_inv_exec in Hl. apply (inv_false _ _ _ Hl). auto.
Qed.

(** Nothing stops the source before a signal. *)
Lemma stop_signalled tr st f : fine_runs begin tr st f ->
  (StopFlag ∈ source_trace st -> shutdown_requested (svc f) = true) /\
  (asking_stop (svc f) -> shutdown_requested (svc f) = true).
Proof.
  intros Hr. induction Hr as [|tr st f ls ss f' Hr [IHs IHm] Hs|tr st f _ _]; [|..|done].
  - split; [by intros Hin%not_elem_of_nil|by intros []].
  - pose proof (finished_stopped tr st f Hr) as Hfin. rewrite source_trace_app, elem_of_app.
    destruct Hs as
      [pc g t out c h Hal Hi|pc g t out c q h l s' q' Hal Hi [Hs _]|pc g t out c q h l e s' Hal Hi [_ Hl]
      |pc g t out c q h l s' Hal Hi [_ Hl]|pc g t out c q h l x s' Hal Hi [_ Hl]|pc g t out c c' q h l Hal Hs
      |pc g t out c q h Hal Hab|pc g t out c q Hc|m ls m' q Hc Hs|m ls m' q h Hc Hs];
      cbn in *; rewrite ?list_elem_of_singleton; subst.
    all: try (split; [intros [?|?]; [auto|]|exact IHm]).
    + done.
    + by destruct Hs.
    + done.
    + done.
    + split; [intros [?|?]; [auto|done]|by intros []].
    + match goal with Hin : _ ∈ [] |- _ => by apply not_elem_of_nil in Hin end.
    + split; [intros [?|Hin]; [auto|by apply not_elem_of_nil in Hin]|by intros []].
    + apply IHm. unfold asking_stop, calls_stop in *. cbn in *. destruct pc; auto.
    + destruct (main_asks m ls m' Hs) as [-> Hm]. split; [intros [?|?]; [auto|done]|].
      intros Ha. destruct (Hm Ha) as [?|[?|?]]; auto.
    + destruct (main_asks m ls m' Hs) as [-> Hm]. split.
      * intros [?|Hin]; [auto|]. destruct (main m); cbn in Hin;
          rewrite ?list_elem_of_singleton in Hin; try done; by apply not_elem_of_nil in Hin.
      * intros Ha. destruct (Hm Ha) as [?|[?|?]]; auto.
Qed.

Lemma main_alive m ls m' : main_step m ls m' -> main m' <> Died.
Proof.
  intros Hs. destruct Hs; cbn; repeat case_match; try done.
  by match goal with E : source_start _ _ _ |- _ => destruct E end.
Qed.

(** The process dies where [next] throws. *)
Lemma live_died tr st f : fine_runs begin tr st f -> main (svc f) = Died ->
  (exists x, GaveThrow x ∈ source_trace st) /\ place f = Outside.
Proof.
  induction 1 as [|tr st f ls ss f' Hr IH Hs|tr st f _ IH]; [done| |exact IH]. intros Hd.
  rewrite source_trace_app. setoid_rewrite elem_of_app.
  destruct Hs as [| | | |pc g t out c q h l x s' Hal Hi [_ Hl]| |pc g t out c q h Hal Hab|pc g t out c q Hc
    |m ls m' q Hc Hs|m ls m' q h Hc Hs]; cbn in Hd.
  1-4, 6: by subst.
  - cbn in Hl. subst l. split; [|done]. exists x. right. by left.
  - assert (Hf : fit (LiveSource_new config)) by exact I.
    destruct (fine_no_abort _ _ _ _ _ _ _ _ Hf Hr Hab).
  - by subst.
  - by destruct (main_alive m ls m' Hs).
  - by destruct (main_alive m ls m' Hs).
Qed.

(** When the service has returned, every message has been judged, and what
    came of it delivered. *)
Lemma live_exited_given tr st f v :
  fine_runs begin tr st f -> main (svc f) = Exited v ->
  delivered tr = omap good (messages (source_trace st)) /\
  length (messages (source_trace st)) =
    length (delivered tr) + count is_malformed (source_trace st).
Proof.
  intros Hr Hx. destruct (live_coarse tr st f Hr) as (Hi & a & Hc).
  destruct (runs_exec _ _ _ _ _ _ _ Hc) as [He Ho].
  destruct (live_part_runs config u cap r fs tr st f Hr) as (Hl & Hd & _).
  assert (Hx' : main (coarse a (svc f)) = Exited v) by exact Hx. rewrite Hx' in Ho.
  destruct (stopped_drained cap tr _ (inv_exec _ _ _ _ _ _ _ He) (proj1 Ho)) as [Hdone _].
  assert (Hp : place f = Outside) by (destruct (fi_place f Hi) as [Hp|Hp]; [exact Hp|cbn in Hdone; congruence]).
  apply live_inv_exec in Hl. destruct (inv_given _ _ _ Hl) as (judged & Hm & Hg).
  pose proof (inv_sum _ _ _ Hl) as Hs. cbn in Hm, Hs. rewrite Hp in Hm, Hs. cbn in Hm, Hs.
  rewrite (live_no_throw tr st f Hr ltac:(congruence)) in Hs.
  rewrite app_nil_r in Hm. rewrite Hd, Hg, Hm. split; [done|].
  rewrite <-Hg, <-Hm. rewrite messages_count, given_count. lia.
Qed.
End Live.
