(* ===== verification/ReplayService.v ===== *)
(** * The ingestion service, replaying, one access at a time

    services/ingestion/main.cpp with [--replay]: [ReplaySource] as the fine
    source of [FineService].  However it is stopped, what has been delivered is
    an initial part of the file, and all of it if nobody stopped it. *)
From S2P Require Import Prelude CxxStrings MarketEvent Json JsonTree MarketEventJson EventRecorder.
From S2P Require Import BoundedQueue Interfaces IngestionPipeline PipelineInvariant PipelineProperties.
From S2P Require Import ReplaySource PipelineReplay Kafka KafkaProperties PipelineKafka EventTypes FineSource.
From S2P Require Import IngestionService ServiceInvariant ServiceReplay SourceSteps FineService.

Section Replay.
Context `{JsonLaws} `{KafkaLaws K} `{QueueLaws Queue MarketEvent}.
Context (read_file : string -> option string) (path text : string) (Hfile : read_file path = Some text).
Implicit Types (f : fine_service ReplaySource replay_pc K Queue) (m : service ReplaySource K Queue).

#[local] Existing Instance without_next | 0.
#[local] Instance this_replay : FineSource ReplaySource replay_pc Z := replay_fine read_file.
#[local] Instance this_laws : FineLaws ReplaySource replay_pc Z := replay_fine_laws read_file path.
#[local] Instance any_replay : MarketDataSource any_source :=
  any_source_ops (replay_throws read_file path).

(** The line read and not yet judged. *)
Definition in_hand (q : replay_pc) : list string := match q with AtLine l => [l] | _ => [] end.

(** The stream is open, and past its end it has nothing left. *)
Definition streaming (s : ReplaySource) : Prop :=
  filebuf (in_ s) <> None /\ (failbit (in_ s) = true -> lines_left s = []).

(** What has been delivered, and what is still to come. *)
Definition read_so_far tr (s : ReplaySource) (q : replay_pc) : Prop :=
  streaming s /\ exists pre, getlines newline text = pre ++ in_hand q ++ lines_left s /\
    untimed <$> delivered tr = untimed <$> replayed_events pre.

Lemma getline_streaming s o in' : streaming s -> ifstream_getline (in_ s) = (o, in') ->
  streaming (set_in in' s) /\
  lines_left s = match o with Some l => [l] | None => [] end ++ lines_left (set_in in' s) /\
  (o = None -> lines_left (set_in in' s) = []).
Proof.
  unfold streaming, lines_left, ifstream_getline. intros [Hb Hf].
  destruct (filebuf (in_ s)) as [t|] eqn:Et; [|done]. destruct (failbit (in_ s)) eqn:Ef.
  - intros [= <- <-]. cbn. rewrite Et, Ef. auto.
  - destruct (getline newline t) as [[l t']|] eqn:E; intros [= <- <-]; cbn.
    + rewrite (getlines_unfold _ t), E. by split_and!.
    + apply getline_None in E. subst. by split_and!.
Qed.

(** A step of [next]. *)
Lemma turn_so_far tr now s q s' n :
  read_so_far tr s q -> replay_turn now s q = Some (s', n) ->
  match n with
  | inl q' => read_so_far tr s' q'
  | inr (NextEvent e) => read_so_far (tr ++ [Delivered e]) s' NotInNext
  | inr NextEnd => read_so_far (tr ++ [SourceEnded]) s' NotInNext /\
      (ReplaySource.stop_requested_ s = true \/ lines_left s' = [])
  | inr (NextThrow _) => True
  end.
Proof.
  intros (Hs & pre & Hl & Hd) Ht. unfold read_so_far. destruct q as [| | |line]; [done|..].
  - injection Ht as <- <-. destruct (ReplaySource.stop_requested_ s); rewrite ?delivered_snoc, ?app_nil_r; eauto 6.
  - cbn in Ht. destruct (ifstream_getline (in_ s)) as [o in'] eqn:Hg.
    destruct (getline_streaming s o in' Hs Hg) as (Hs' & E & Hn). rewrite E in Hl.
    injection Ht as <- <-. destruct o as [line|]; [eauto|].
    rewrite delivered_snoc, app_nil_r. cbn in *. eauto 8.
  - rewrite turn_line in Ht. cbn in Hl.
    assert (Hl' : getlines newline text = (pre ++ [line]) ++ lines_left s) by by rewrite Hl, <-app_assoc.
    destruct (classify line) as [|e| |x] eqn:Hc; injection Ht as <- <-; [..|done].
    + split; [done|]. exists (pre ++ [line]). split; [done|].
      rewrite replayed_app, (replayed_skipped [line]), app_nil_r; [done|]. constructor; [by left|done].
    + split; [done|]. exists (pre ++ [line]). split; [done|]. rewrite delivered_snoc, !fmap_app, Hd, replayed_app.
      by rewrite fmap_app, (replayed_cons line [] e Hc).
    + split; [done|]. exists (pre ++ [line]). split; [done|].
      rewrite replayed_app, (replayed_skipped [line]), app_nil_r; [done|]. constructor; [by right|done].
Qed.

Lemma so_far_same tr ls s q :
  delivered ls = [] -> read_so_far tr s q -> read_so_far (tr ++ ls) s q.
Proof.
  intros Hd (Hs & pre & Hl & He). split; [done|]. exists pre. split; [done|].
  unfold delivered in *. by rewrite omap_app, Hd, app_nil_r.
Qed.

Lemma so_far_start tr s' :
  ReplaySource.start read_file (ReplaySource_new path) = (s', Ok tt) -> delivered tr = [] ->
  read_so_far tr s' NotInNext /\ ReplaySource.stop_requested_ s' = false.
Proof.
  unfold ReplaySource.start, ifstream_open. cbn. rewrite Hfile. intros [= <-] Hd.
  split; [|done]. split; [done|]. exists []. by rewrite Hd.
Qed.

Context (u : KafkaEventProducer K) (cap : nat) (r : option EventRecorder) (fs : files).
Abbreviation begin := (fine_begin (Queue := Queue) (ReplaySource_new path) u cap r fs).

Lemma replay_inv tr st f : fine_runs begin tr st f -> fine_inv (Lbl := Z) f.
Proof.
  intros Hr. assert (Hf : fit (ReplaySource_new path)) by exact eq_refl.
  by destruct (runs_coarse _ _ _ _ _ _ _ _ Hf Hr).
Qed.

Definition so_far tr f : Prop :=
  main (svc f) = AtStart /\ src f = ReplaySource_new path /\ delivered tr = [] \/
  main (svc f) <> AtStart /\ read_so_far tr (src f) (place f).

Lemma so_far_runs tr st f : fine_runs begin tr st f -> main (svc f) <> Died -> so_far tr f.
Proof.
  induction 1 as [|tr st f ls ss f' Hr IH Hs|tr st f _ IH]; [by left| |exact IH]. intros Hd.
  assert (Hso : so_far tr f) by (apply IH; intros E; by destruct (dead_still f ls ss f' E)).
  pose proof (replay_inv tr st f Hr) as Hinv. clear IH Hr.
  destruct Hs as
    [pc g t out c h Hal Hi|pc g t out c q h l s' q' Hal Hi Hs|pc g t out c q h l e s' Hal Hi Ht
    |pc g t out c q h l s' Hal Hi Ht|pc g t out c q h l x s' Hal Hi Ht|pc g t out c c' q h l Hal Hs
    |pc g t out c q h Hal Hab|pc g t out c q Hc|m ls m' q Hc Hs|m ls m' q h Hc Hs]; try done;
    unfold so_far, src in *; cbn in *.
  - destruct (living_at_next _ _ _ _ _ _ _ Hinv Hal Hi) as (Hne & _). right.
    destruct Hso as [[? _]|[_ Hso]]; [done|]. split; [done|]. by apply so_far_same.
  - destruct (living_at_next _ _ _ _ _ _ _ Hinv Hal Hi) as (Hne & _). right.
    destruct Hso as [[? _]|[_ Hso]]; [done|]. split; [done|]. apply so_far_same; [done|].
    exact (turn_so_far _ _ _ _ _ _ Hso Hs).
  - destruct (living_at_next _ _ _ _ _ _ _ Hinv Hal Hi) as (Hne & _). right.
    destruct Hso as [[? _]|[_ Hso]]; [done|]. split; [done|]. exact (turn_so_far _ _ _ _ _ _ Hso Ht).
  - destruct (living_at_next _ _ _ _ _ _ _ Hinv Hal Hi) as (Hne & _). right.
    destruct Hso as [[? _]|[_ Hso]]; [done|]. split; [done|]. apply (turn_so_far _ _ _ _ _ _ Hso Ht).
  - destruct (thread_not_next c l c' Hs) as [Hdl _]. rewrite (thread_source c l c' Hs).
    destruct Hso as [(? & ? & E)|[? Hso]]; [left|right; split; [done|by apply so_far_same]].
    split_and!; [done..|]. unfold delivered in *. by rewrite omap_app, Hdl, E.
  - right. destruct Hso as [[? _]|[? Hso]]; [by subst|]. split; [done|].
    by apply so_far_same.
  - right. destruct (main_not_next m ls m' Hs) as [Hdl _].
    destruct (coarse_stop Open m ls m' Hc Hs) as (_ & -> & _). 
    destruct Hso as [[Hm _]|[? Hso]]; [by unfold calls_stop in Hc; rewrite Hm in Hc|].
    split; [by destruct Hs|by apply so_far_same].
  - right. destruct (main_not_next m ls m' Hs) as [Hdl _].
    destruct (coarse_main Open m ls m' Hc Hs) as [(Hm & _ & Hk)|(Hm & _ & -> & _)].
    + destruct Hso as [(_ & Es & Ed)|[? _]]; [|done]. destruct Hk as [|Hk]; [done|].
      rewrite Es in Hk. destruct (so_far_start tr _ Hk Ed) as [Hso _].
      pose proof (fi_life _ Hinv) as Hl. unfold living in Hl. cbn in Hl. rewrite Hm in Hl.
      destruct Hl as (_ & _ & Eq). cbn in Eq. rewrite Eq. split; [by destruct Hs|by apply so_far_same].
    + destruct Hso as [[? _]|[_ Hso]]; [done|]. split; [by destruct Hs; repeat case_match|by apply so_far_same].
Qed.

(** Without a signal [main] stops the source only after its end. *)
Definition over f : Prop := ingest_over (ingest (pipe (svc f))) = true.

Definition unhurried f : Prop :=
  shutdown_requested (svc f) = false ->
  (ReplaySource.stop_requested_ (src f) = true -> over f) /\
  (asking_stop (svc f) -> over f) /\
  (over f -> lines_left (src f) = []).

Lemma unhurried_main tr m ls m' q h :
  fine_inv (Lbl := Z) (Fine m q h) -> so_far tr (Fine m q h) -> unhurried (Fine m q h) ->
  (ingestFinished (pipeline (pipe m)) = true -> ingest (pipe m) = IngestDone) ->
  calls_stop m = false -> main_step m ls m' -> main m' <> Died -> unhurried (Fine m' q h).
Proof.
  unfold unhurried, so_far, over, src. cbn. intros Hinv Hso IH Hfin Hc Hs Hd Hg.
  destruct (main_asks m ls m' Hs) as [Eg Hm]. rewrite Eg in Hg. destruct (IH Hg) as (IHf & IHa & IHo).
  destruct (coarse_main Open m ls m' Hc Hs) as [(Hms & _ & Hk)|(Hms & _ & -> & _ & ->)].
  - destruct Hso as [(_ & Es & Ed)|[? _]]; [|done]. destruct Hk as [|Hk]; [done|].
    rewrite Es in Hk. destruct (so_far_start tr _ Hk Ed) as [_ Hf].
    pose proof (fi_life _ Hinv) as Hl. unfold living in Hl. cbn in Hl. rewrite Hms in Hl.
    destruct Hl as ((_ & Hi & _) & _). cbn in Hi.
    assert (E : main m' = Starting /\ ingest (pipe m') = NoIngest) by (by destruct Hs).
    destruct E as [E ->]. unfold asking_stop. rewrite E, Hf. split_and!; [done|by intros []|done].
  - split_and!; [auto| |auto]. intros Ha. destruct (Hm Ha) as [?|[?|Hf]]; [auto|congruence|].
    by rewrite (Hfin Hf).
Qed.

Lemma unhurried_runs tr st f : fine_runs begin tr st f -> main (svc f) <> Died -> unhurried f.
Proof.
  induction 1 as [|tr st f ls ss f' Hr IH Hs|tr st f _ IH]; [|..|done].
  { intros _ _. split_and!; [done|by intros []|done]. }
  intros Hd. assert (Hal : main (svc f) <> Died) by (intros E; by destruct (dead_still f ls ss f' E)).
  specialize (IH Hal). pose proof (so_far_runs tr st f Hr Hal) as Hso. clear Hal.
  assert (Hfit : fit (ReplaySource_new path)) by exact eq_refl.
  pose proof (replay_inv tr st f Hr) as Hinv.
  pose proof (fine_pipe_inv _ _ _ _ _ _ _ _ Hfit Hr) as Hpi.
  assert (Hr' : fine_runs begin (tr ++ ls) (st ++ ss) f') by (by eapply fine_run_step).
  destruct (fine_ended _ _ _ _ _ _ _ _ Hfit Hr') as (Hnd & _).
  destruct (fine_ended _ _ _ _ _ _ _ _ Hfit Hr) as (_ & Hfin & _). clear Hr Hr'.
  destruct Hs as
    [pc g t out c h Hal Hi|pc g t out c q h l s' q' Hal Hi Hs|pc g t out c q h l e s' Hal Hi Ht
    |pc g t out c q h l s' Hal Hi Ht|pc g t out c q h l x s' Hal Hi Ht|pc g t out c c' q h l Hal Hs
    |pc g t out c q h Hal Hab|pc g t out c q Hc|m ls m' q Hc Hs|m ls m' q h Hc Hs]; try done;
    [..|by eapply (unhurried_main tr m ls m' q h)];
    unfold unhurried, so_far, over, src in *; cbn in *; intros Hg; try destruct (IH Hg) as (IHf & IHa & IHo).
  - rewrite (turn_flag _ _ _ _ _ Hs), Hi in *. by split_and!.
  - rewrite (turn_flag _ _ _ _ _ Ht), Hi in *. by split_and!.
  - rewrite Hi in *. split_and!; [done..|]. intros _.
    destruct (living_at_next _ _ _ _ _ _ _ Hinv Hal Hi) as (Hne & _).
    destruct Hso as [[? _]|[_ Hso]]; [done|].
    destruct (turn_so_far _ _ _ _ _ _ Hso Ht) as [_ [Hf|Hl]]; [|done]. by specialize (IHf Hf).
  - rewrite (thread_source c l c' Hs). 
    destruct (thread_over c l c' (inv_phase _ _ _ Hpi) Hs) as [->|[e ->]]; [done|].
    destruct (Hnd e). apply elem_of_app. right. by left.
  - split_and!; [|done..]. intros _. apply IHa. unfold asking_stop, calls_stop in *. cbn in *.
    destruct pc; auto.
  - destruct (coarse_stop Open m ls m' Hc Hs) as (_ & -> & ->). destruct (main_asks m ls m' Hs) as [Eg _].
    rewrite Eg in Hg. destruct (IH Hg) as (IHf & IHa & IHo).
    assert (Hask : asking_stop m) by (unfold asking_stop, calls_stop in *; destruct (main m); auto).
    split_and!; auto.
Qed.

(** When the service has returned, an initial part of the file has been
    delivered, and the whole of it if there was no signal. *)
Lemma replay_exited_read tr st f v :
  fine_runs begin tr st f -> main (svc f) = Exited v ->
  exists pre rest, getlines newline text = pre ++ rest /\
    (shutdown_requested (svc f) = false -> rest = []) /\
    untimed <$> delivered tr = untimed <$> replayed_events pre.
Proof.
  intros Hr Hx. assert (Hd : main (svc f) <> Died) by congruence.
  assert (Hfit : fit (ReplaySource_new path)) by exact eq_refl.
  destruct (runs_coarse _ _ _ _ _ _ _ _ Hfit Hr) as (Hinv & a & _ & Hc).
  destruct (runs_exec _ _ _ _ _ _ _ Hc) as [He Ho].
  assert (Hx' : main (coarse a (svc f)) = Exited v) by exact Hx. rewrite Hx' in Ho.
  destruct (stopped_drained cap tr _ (inv_exec _ _ _ _ _ _ _ He) (proj1 Ho)) as [Hi _].
  change (ingest (pipe (svc f)) = IngestDone) in Hi.
  destruct (so_far_runs tr st f Hr Hd) as [[? _]|[_ (_ & pre & Hl & Hu)]]; [congruence|].
  assert (Hp : place f = NotInNext) by (destruct (fi_place f Hinv) as [Hp|Hp]; [exact Hp|congruence]).
  rewrite Hp in Hl. exists pre, (lines_left (src f)). split_and!; [done| |done].
  intros Hg. destruct (unhurried_runs tr st f Hr Hd Hg) as (_ & _ & Hov). apply Hov.
  unfold over. by rewrite Hi.
Qed.
End Replay.

Lemma replayed_short `{JsonOps} ls : length (replayed_events ls) <= length ls.
Proof.
  induction ls as [|l ls IH]; [done|]. unfold replayed_events in *. cbn.
  destruct (event_of_line l); cbn; lia.
Qed.
