(* ===== verification/FineProperties.v ===== *)
(** * What the ingestion service guarantees, one access at a time

    The properties of services/ingestion/main.cpp with [stop()] inside [next],
    live and replaying: that it exits when told to, of what it dies, and what it has
    published when it has returned. *)
From S2P Require Import Prelude CxxStrings MarketEvent Json JsonTree MarketEventJson EventRecorder.
From S2P Require Import BinanceTradeParser BoundedQueue Interfaces IngestionPipeline PipelineInvariant PipelineProperties.
From S2P Require Import ReplaySource PipelineReplay Kafka KafkaProperties PipelineKafka EventTypes FineSource.
From S2P Require Import IngestionService ServiceInvariant ServiceDemo ServiceProperties ServiceReplay.
From S2P Require Import LiveSource LiveProperties SourceSteps FineService LiveService ReplayService.

(** ** Building runs *)
Tactic Notation "fine_by" hyp(E) uconstr(rule) :=
  eapply fine_run_step in E; [|eapply rule; try reflexivity].
Tactic Notation "live_inner" hyp(E) uconstr(rule) :=
  eapply fine_run_step in E;
    [|eapply fine_inner; [reflexivity..|split; [eapply rule; try reflexivity|split; [discriminate|try done]]]].
Tactic Notation "fine_ingest" hyp(E) uconstr(rule) :=
  eapply fine_run_step in E; [|eapply fine_thread; [reflexivity|left; eapply rule; try reflexivity]].
Tactic Notation "fine_publish" hyp(E) uconstr(rule) "by" tactic(t) :=
  eapply fine_run_step in E; [|eapply fine_thread; [reflexivity|right; left; eapply rule; t]].
Tactic Notation "fine_owner" hyp(E) uconstr(rule) :=
  eapply fine_run_step in E; [|eapply fine_thread; [reflexivity|right; right; eapply rule; try reflexivity]].
Tactic Notation "fine_do" hyp(E) uconstr(rule) :=
  eapply fine_run_step in E; [|eapply fine_main; [reflexivity|eapply rule; try reflexivity]].

(** Says what state the run [E] is in. *)
Ltac live_now E s :=
  match type of E with fine_runs ?b ?tr ?st _ => change (fine_runs b tr st s) in E end.

(** ** A run

    One connection, one message, and a signal while the source is in a read;
    the read fails between the two halves of [stop()]. *)
Definition liveEvent : MarketEvent := set_source live_source_name (set_ingest_time 7 kValidEvent).

Definition live_published : KafkaEventProducer broker :=
  match @publish_event tree_ops broker _ demo_producer liveEvent with
  | Ok (_, p) => p
  | Throw _ => demo_producer
  end.
Definition live_flushed : KafkaEventProducer broker := flush_producer 10000 live_published.

Definition live_at (flag up : bool) (n : Z) (w : bool) : LiveSource :=
  {| config_ := default_config; stop_requested_ := flag; connected_ := up;
     messages_received_ := n; messages_malformed_ := 0; reconnects_ := 0;
     had_connected_once_ := true; ws_ := Some w |}.

Definition live_members (rec : option EventRecorder) (s : LiveSource) (u : KafkaEventProducer broker) (n m : Z)
    (queue : list MarketEvent) (mark : nat) (finished running stopped : bool) :
    IngestionPipeline LiveSource (KafkaEventProducer broker) (BoundedQueue MarketEvent) :=
  {| source_ := s; publisher_ := u; optional_recorder_ := rec;
     pqueue_ := Build_BoundedQueue 4 queue mark stopped;
     events_received_ := n; events_published_ := m; publish_failures_ := 0;
     ingest_finished_ := finished; ingest_thread_ := running; publish_thread_ := running;
     started_ := true; stopped_ := stopped |}.

Definition live_svc (d : files) (pc : main_pc (KafkaEventProducer broker)) (g : bool) (out : list output)
    p i w (o : owner_pc) (q : LiveSource.pc) (h : bool) :
    fine_service LiveSource LiveSource.pc broker (BoundedQueue MarketEvent) :=
  Fine (Svc pc g 7 out (St p i w o d)) q h.

(** The network brings one message, and may repeat it. *)
Definition one_trade (raw : string) : Prop := raw = kValidTrade.

(** [main] has been told to stop; [main] has returned. *)
Definition live_told rec d :=
  live_svc d AtStop true [] (live_members rec (live_at true false 1 false) demo_producer 1 0
    [liveEvent] 1 false true false) Finishing AtPop OwnerIdle Outside false.
Definition live_exited rec d :=
  live_svc d (Exited (KafkaEventProducer_destroy live_flushed)) true [FinalLine [1; 1; 0; 1; 4; 1; 0]%Z]
    (live_members rec (live_at true false 1 false) live_flushed 1 1 [] 1 true false true)
    IngestDone PublishDone Destroyed Outside false.

Section Demo.
#[local] Existing Instance tree_ops.
Context (brings : string -> Prop) (Hb : brings kValidTrade).
Context (rec : option EventRecorder) (d0 d1 : files) (Hrec : record_opt rec liveEvent d0 = Ok d1).

#[local] Instance demo_live : FineSource LiveSource LiveSource.pc label := live_fine brings.

Definition live_begin : fine_service LiveSource LiveSource.pc broker (BoundedQueue MarketEvent) :=
  fine_begin (LiveSource_new default_config) demo_producer 4 rec d0.

Definition live_steps_told : list (source_event label) :=
  [SourceStart; SourceCall; SourceInner Tau; SourceInner Reconnecting; SourceInner Tau;
   SourceInner Tau; SourceInner Tau; SourceInner Connection; SourceInner Tau;
   SourceInner (Message kValidTrade 7); SourceInner (GaveEvent liveEvent);
   SourceCall; SourceInner Tau; SourceInner Tau; SourceInner Tau;
   SourceFlag; SourceInner Tau; SourceClose; SourceInner GaveFalse].
Definition live_trace_told : list event_label :=
  [Started; Quiet; Quiet; Delivered liveEvent; Quiet;
   match rec with Some _ => Recorded liveEvent | None => Quiet end;
   Enqueued liveEvent; StopRequested; SourceEnded].

Definition live_steps_reading : list (source_event label) :=
  [SourceStart; SourceCall; SourceInner Tau; SourceInner Reconnecting; SourceInner Tau;
   SourceInner Tau; SourceInner Tau; SourceInner Connection; SourceInner Tau].
Definition live_reading :=
  live_svc d0 PollFlag false [] (live_members rec (live_at false true 0 true) demo_producer
    0 0 [] 0 false true false) AtNext AtPop OwnerIdle Reading false.

Lemma live_runs_reading : fine_runs live_begin [Started; Quiet; Quiet] live_steps_reading live_reading.
Proof.
  pose proof (fine_refl live_begin) as E.
  eapply fine_run_step in E; [|eapply fine_main; [reflexivity|by eapply main_start]].
  fine_owner E owner_spawn_ingest. fine_owner E owner_spawn_publish.
  fine_do E (main_started _ _ _ _ 7).
  live_now E (live_svc d0 PollFlag false [] (live_members rec (LiveSource_new default_config) demo_producer
    0 0 [] 0 false true false) AtNext AtPop OwnerIdle outside false). unfold live_svc in E.
  fine_by E fine_call. live_inner E loop_go. live_inner E no_connection. live_inner E retry_go.
  live_inner E connect_done. live_inner E connect_publish. 
  live_now E (live_svc d0 PollFlag false [] (live_members rec (set_connected true (set_ws (Some true)
    (LiveSource_new default_config))) demo_producer 0 0 [] 0 false true false)
    AtNext AtPop OwnerIdle Connected false). unfold live_svc in E.
  live_inner E connected_once.
  live_inner E take_stream. exact E.
Qed.

(** A message with a number that overflows ends the process. *)
Definition live_died_of :=
  live_svc d0 Died false [] (live_members rec (live_at false true 1 true) demo_producer
    0 0 [] 0 false true false) AtNext AtPop OwnerIdle Outside false.
Definition live_steps_died : list (source_event label) :=
  live_steps_reading ++ [SourceInner (Message overflowing_number 7); SourceInner (GaveThrow (OutOfRange "406"))].

Lemma live_runs_died : brings overflowing_number ->
  fine_runs live_begin [Started; Quiet; Quiet] live_steps_died live_died_of.
Proof.
  intros Hf. pose proof live_runs_reading as E. unfold live_reading, live_svc in E.
  live_inner E (read_message _ overflowing_number 7).
  live_now E (live_svc d0 PollFlag false [] (live_members rec (live_at false true 1 true) demo_producer
    0 0 [] 0 false true false) AtNext AtPop OwnerIdle (Parsing overflowing_number 7) false). unfold live_svc in E.
  eapply fine_run_step in E; [|eapply (fine_throws _ _ _ _ _ _ _ _ (OutOfRange "406"));
    [reflexivity..|]; split; [apply parse_fatal; vm_compute; reflexivity|reflexivity]].
  exact E.
Qed.

Lemma live_runs_told : fine_runs live_begin live_trace_told live_steps_told (live_told rec d1).
Proof.
  pose proof live_runs_reading as E. unfold live_reading, live_svc in E.
  live_inner E (read_message _ kValidTrade 7).
  live_now E (live_svc d0 PollFlag false [] (live_members rec (live_at false true 1 true) demo_producer
    0 0 [] 0 false true false) AtNext AtPop OwnerIdle (Parsing kValidTrade 7) false). unfold live_svc in E.
  eapply fine_run_step in E; [|eapply (fine_gives _ _ _ _ _ _ _ _ liveEvent); [reflexivity..|]; split;
    [eapply parse_good, judge_valid|reflexivity]].
  fine_ingest E ingest_count.
  eapply fine_run_step in E; [|eapply fine_thread; [reflexivity|left; eapply (ingest_record _ _ _ _ _ d1); exact Hrec]].
  fine_ingest E ingest_push.
  live_now E (live_svc d1 PollFlag false [] (live_members rec (live_at false true 1 true) demo_producer
    1 0 [liveEvent] 1 false true false) AtNext AtPop OwnerIdle outside false). unfold live_svc in E.
  fine_by E fine_call. live_inner E loop_go. live_inner E have_connection. live_inner E take_stream.
  apply fine_run_signal in E. fine_do E main_poll_flag.
  live_now E (live_svc d1 AtRequestStop true [] (live_members rec (live_at false true 1 true) demo_producer
    1 0 [liveEvent] 1 false true false) AtNext AtPop OwnerIdle Reading false). unfold live_svc in E.
  fine_by E fine_flag. live_inner E read_error.
  live_now E (live_svc d1 AtRequestStop true [] (live_members rec (live_at true false 1 true) demo_producer
    1 0 [liveEvent] 1 false true false) AtNext AtPop OwnerIdle ReadFailed true). unfold live_svc in E.
  eapply fine_run_step in E; [|eapply fine_stop; [reflexivity|eapply main_request_stop]].
  eapply fine_run_step in E; [|eapply (fine_ends _ _ _ _ _ _ _ GaveFalse); [reflexivity..|]; split;
    [by eapply error_stop|reflexivity]].
  exact E.
Qed.

Definition live_trace_exited : list event_label :=
  live_trace_told ++ [Quiet; Quiet; Quiet; Attempted liveEvent true; Quiet; Quiet; Quiet; Quiet;
    Flushed; Quiet; Quiet; StopRequested; Quiet].
Definition live_steps_exited : list (source_event label) :=
  live_steps_told ++ [SourceFlag; SourceClose].

Lemma live_runs_exited : fine_runs live_begin live_trace_exited live_steps_exited (live_exited rec d1).
Proof.
  pose proof live_runs_told as E.
  fine_ingest E ingest_finish. fine_do E main_stop.
  fine_publish E publish_pop by reflexivity.
  fine_publish E (publish_publish _ _ _ _ _ true live_published) by (vm_compute; by split).
  fine_publish E publish_count by idtac.
  live_now E (live_svc d1 Stopping true [] (live_members rec (live_at true false 1 false) live_published
    1 1 [] 1 true true false) IngestDone AtPop (JoinIngest false) Outside false). unfold live_svc in E.
  fine_owner E owner_join_ingest. fine_owner E owner_shutdown.
  fine_publish E publish_pop by reflexivity. fine_publish E publish_flush by reflexivity.
  fine_owner E owner_join_publish. fine_owner E owner_mark_stopped.
  live_now E (live_svc d1 Stopping true [] (live_members rec (live_at true false 1 false) live_flushed
    1 1 [] 1 true false true) IngestDone PublishDone OwnerIdle Outside false). unfold live_svc in E.
  fine_do E main_stopped. do 7 (fine_do E main_read_final). fine_do E main_final.
  fine_by E fine_flag.
  eapply fine_run_step in E; [|eapply fine_stop; [reflexivity|eapply main_destroy]].
  fine_owner E owner_destructor_stop. fine_do E main_exit.
  exact E.
Qed.
End Demo.

(** *** A replay to its end *)
Definition replay_steps : list (source_event Z) :=
  [SourceStart; SourceCall] ++ repeat (SourceInner 5%Z) 3 ++ [SourceCall] ++
  repeat (SourceInner 5%Z) 2 ++ [SourceFlag; SourceClose; SourceFlag; SourceClose].

Section ReplayRun.
#[local] Existing Instance tree_ops.
Context (rf : string -> option string) (Hrf : rf "a.jsonl"%string = Some one_line).
#[local] Instance one_replay : FineSource ReplaySource replay_pc Z := replay_fine rf.

Definition replay_fine_begin : fine_service ReplaySource replay_pc broker (BoundedQueue MarketEvent) :=
  fine_begin (ReplaySource_new "a.jsonl") demo_producer 4 None ∅.

Tactic Notation "replay_inner" hyp(E) :=
  eapply fine_run_step in E; [|eapply (fine_inner _ _ _ _ _ _ _ 5%Z); [reflexivity..|vm_compute; reflexivity]].

Definition replay_steps_told : list (source_event Z) :=
  [SourceStart; SourceCall] ++ repeat (SourceInner 5%Z) 3 ++ [SourceCall] ++
  repeat (SourceInner 5%Z) 2 ++ [SourceFlag; SourceClose].

Lemma replay_runs_told : fine_runs replay_fine_begin svc_trace_told replay_steps_told
  (Fine svc_told NotInNext false).
Proof.
  pose proof (fine_refl replay_fine_begin) as E.
  eapply fine_run_step in E; [|eapply fine_main; [reflexivity|eapply main_start;
    cbn; unfold ReplaySource.start, ifstream_open; cbn; rewrite Hrf; reflexivity]].
  fine_owner E owner_spawn_ingest. fine_owner E owner_spawn_publish.
  fine_do E (main_started _ _ _ _ 7).
  live_now E (Fine svc_polling outside false). unfold svc_polling in E.
  fine_by E fine_call. replay_inner E. replay_inner E.
  eapply fine_run_step in E; [|eapply (fine_gives _ _ _ _ _ _ _ 5%Z replayedEvent);
    [reflexivity..|vm_compute; reflexivity]].
  live_now E (Fine (Svc PollFlag false 7 [] (St (svc_members after_line demo_producer 0 0 false true false)
    (Received replayedEvent) AtPop OwnerIdle ∅)) outside false).
  fine_ingest E ingest_count. fine_ingest E ingest_record. fine_ingest E ingest_push.
  fine_publish E publish_pop by reflexivity.
  fine_publish E (publish_publish _ _ _ _ _ true svc_published) by (vm_compute; by split).
  fine_publish E publish_count by idtac.
  live_now E (Fine (Svc PollFlag false 7 [] (St (svc_members after_line svc_published 1 1 false true false)
    AtNext AtPop OwnerIdle ∅)) outside false).
  fine_by E fine_call. replay_inner E.
  eapply fine_run_step in E; [|eapply (fine_ends _ _ _ _ _ _ _ 5%Z); [reflexivity..|vm_compute; reflexivity]].
  fine_ingest E ingest_finish. 
  live_now E (Fine svc_finished outside false). unfold svc_finished in E.
  fine_do E main_poll_flag. fine_do E main_poll_finished. fine_by E fine_flag.
  eapply fine_run_step in E; [|eapply fine_stop; [reflexivity|eapply main_request_stop]].
  exact E.
Qed.

Lemma replay_runs_exited : fine_runs replay_fine_begin svc_trace replay_steps (Fine svc_exited NotInNext false).
Proof.
  pose proof replay_runs_told as E. unfold svc_told in E.
  fine_do E main_stop. fine_owner E owner_join_ingest. fine_owner E owner_shutdown.
  fine_publish E publish_pop by reflexivity. fine_publish E publish_flush by reflexivity.
  fine_owner E owner_join_publish. fine_owner E owner_mark_stopped.
  live_now E (Fine (Svc Stopping false 7 [] (St (svc_members (ReplaySource.stop at_end) svc_flushed 1 1 true false true)
    IngestDone PublishDone OwnerIdle ∅)) outside false).
  fine_do E main_stopped. do 7 (fine_do E main_read_final). fine_do E main_final.
  fine_by E fine_flag.
  eapply fine_run_step in E; [|eapply fine_stop; [reflexivity|eapply main_destroy]].
  fine_owner E owner_destructor_stop. fine_do E main_exit.
  exact E.
Qed.
End ReplayRun.

(** *** A replay that dies

    A malformed line is passed over, the next one kills the process. *)
Definition fatal_capture : string := text_of_lines ["not even json"%string; overflowing_number].

Section ReplayDemo.
#[local] Existing Instance tree_ops.
#[local] Instance demo_replay : FineSource ReplaySource replay_pc Z := replay_fine (fun _ => Some fatal_capture).

Definition fatal_begin : fine_service ReplaySource replay_pc broker (BoundedQueue MarketEvent) :=
  fine_begin (ReplaySource_new "a.jsonl") demo_producer 4 None ∅.

(** The source with so much left and so many lines malformed. *)
Definition fatal_source (left : string) (n : Z) : ReplaySource :=
  {| path_ := "a.jsonl"; in_ := {| filebuf := Some left; failbit := false |};
     ReplaySource.stop_requested_ := false; lines_malformed_ := n |}.
Definition fatal_at (pc : main_pc (KafkaEventProducer broker)) (left : string) (n : Z) (q : replay_pc) :
    fine_service ReplaySource replay_pc broker (BoundedQueue MarketEvent) :=
  Fine (Svc pc false 7 [] (St (svc_members (fatal_source left n) demo_producer 0 0 false true false)
    AtNext AtPop OwnerIdle ∅)) q false.

Tactic Notation "replay_inner" hyp(E) :=
  eapply fine_run_step in E; [|eapply (fine_inner _ _ _ _ _ _ _ 0%Z); [reflexivity..|vm_compute; reflexivity]].

Definition fatal_steps : list (source_event Z) :=
  SourceStart :: SourceCall :: repeat (SourceInner 0%Z) 6.

Lemma fatal_runs_died : fine_runs fatal_begin [Started; Quiet; Quiet] fatal_steps
  (fatal_at Died EmptyString 1 NotInNext).
Proof.
  pose proof (fine_refl fatal_begin) as E.
  eapply fine_run_step in E; [|eapply fine_main; [reflexivity|by eapply main_start]].
  fine_owner E owner_spawn_ingest. fine_owner E owner_spawn_publish.
  fine_do E (main_started _ _ _ _ 7).
  live_now E (fatal_at PollFlag fatal_capture 0 outside). unfold fatal_at in E.
  fine_by E fine_call. replay_inner E. replay_inner E. replay_inner E.
  live_now E (fatal_at PollFlag (text_of_lines [overflowing_number]) 1 FlagTest). unfold fatal_at in E.
  replay_inner E. replay_inner E.
  eapply fine_run_step in E; [|eapply (fine_throws _ _ _ _ _ _ _ 0%Z (OutOfRange "406"));
    [reflexivity..|vm_compute; reflexivity]].
  exact E.
Qed.
End ReplayDemo.

(** ** Properties *)

(** C8: told to stop, the live service exits.  From any reachable state in which
    [main] has called [requestStop()], wherever the ingest thread is inside [next]
    (sleeping, reading from a network that is silent, parsing), with a queue of at
    least one place and a network that brings no number too large for a double: the
    threads and [main] make finitely many steps together and the process does not
    die; and where it can make no step without the network's help, [main] has
    returned, or the ingest thread is still resolving, connecting or shaking hands
    in [connectOnce], which [stop()] does not interrupt. *)
Theorem live_service_shutdown `{JsonLaws} `{KafkaLaws K} `{QueueLaws Queue MarketEvent}
  (brings : string -> Prop) config (u : KafkaEventProducer K) cap r fs tr st
  (f : fine_service LiveSource LiveSource.pc K Queue)
  (Hr : fine_runs (H0 := live_fine brings)
    (fine_begin (H0 := live_fine brings) (LiveSource_new config) u cap r fs) tr st f)
  (Hb : forall raw time x, brings raw -> judge raw time <> Fatal x)
  (Ht : told (main (svc f)) = true) (Hcap : 0 < cap) :
  sn (fine_moves (H0 := live_fine brings)) f /\
  forall f', rtc (fine_moves (H0 := live_fine brings)) f f' ->
    main (svc f') <> Died /\
    (nf (fine_own_moves (H0 := live_fine brings)) f' ->
       (exists v, main (svc f') = Exited v) \/ connecting (place f') = true).
Proof.
  apply (fine_service_ends (FineLaws0 := live_fine_laws brings) (LiveSource_new config) u cap r fs tr st f);
    [exact Hr|exact I| |exact Ht|exact Hcap].
  intros x (raw & time & Hraw & Hj). by destruct (Hb raw time x).
Qed.

Lemma one_trade_harmless raw time x : one_trade raw -> @judge tree_ops raw time <> Fatal x.
Proof.
  intros -> Hj. unfold judge in Hj.
  assert (E : exists o, @parseBinanceTradeMessage tree_ops kValidTrade (Some EmptyString) =
    Ok (Some kValidEvent, o)) by (eexists; vm_compute; reflexivity).
  destruct E as [o E]. rewrite E in Hj. discriminate Hj.
Qed.

Lemma live_service_shutdown_witness :
  sn (@fine_moves tree_ops _ _ _ (live_fine one_trade) broker _ (BoundedQueue MarketEvent) _) (live_told None ∅).
Proof.
  refine (proj1 (@live_service_shutdown tree_ops tree_laws broker _ _ _ _ _ one_trade default_config
    demo_producer 4 None ∅ _ _ _ (live_runs_told one_trade eq_refl None ∅ ∅ eq_refl) _ _ _)).
  - exact one_trade_harmless.
  - reflexivity.
  - lia.
Defined.

(** C12: told to stop, a replaying service exits.  From any reachable state in
    which [main] has called [requestStop()], wherever the ingest thread is in the
    file, with a queue of at least one place and a capture without a number too
    large for a double: the threads and [main] make finitely many steps together,
    the process does not die, and where nothing moves any more [main] has
    returned. *)
Theorem replay_service_shutdown `{JsonLaws} `{KafkaLaws K} `{QueueLaws Queue MarketEvent}
  (read_file : string -> option string) path text (u : KafkaEventProducer K) cap r fs tr st
  (f : fine_service ReplaySource replay_pc K Queue)
  (Hfile : read_file path = Some text)
  (Hr : fine_runs (H0 := replay_fine read_file)
    (fine_begin (H0 := replay_fine read_file) (ReplaySource_new path) u cap r fs) tr st f)
  (Hfatal : Forall (fun l => is_fatal l = false) (getlines newline text))
  (Ht : told (main (svc f)) = true) (Hcap : 0 < cap) :
  sn (fine_moves (H0 := replay_fine read_file)) f /\
  forall f', rtc (fine_moves (H0 := replay_fine read_file)) f f' ->
    main (svc f') <> Died /\
    (nf (fine_moves (H0 := replay_fine read_file)) f' -> exists v, main (svc f') = Exited v).
Proof.
  destruct (fine_service_ends (FineLaws0 := replay_fine_laws read_file path) (ReplaySource_new path) u cap r
    fs tr st f) as [Hsn Hend]; [exact Hr|reflexivity| |exact Ht|exact Hcap|].
  - intros x (l & Hl & Hx). unfold file_lines in Hl. rewrite Hfile in Hl.
    rewrite Forall_forall in Hfatal. specialize (Hfatal l Hl). unfold is_fatal in Hfatal. by rewrite Hx in Hfatal.
  - split; [exact Hsn|]. intros f' Hf. destruct (Hend f' Hf) as [Hd He]. split; [exact Hd|].
    intros Hnf. destruct He as [|Hh]; [|done|discriminate Hh].
    intros [f1 (ls & ss & Hs & _)]. apply Hnf. by exists f1, ls, ss.
Qed.

Lemma replay_service_shutdown_witness :
  sn (@fine_moves tree_ops _ _ _ (replay_fine one_file) broker _ (BoundedQueue MarketEvent) _)
    (Fine svc_told NotInNext false).
Proof.
  destruct one_line_read as [Hl _].
  refine (proj1 (@replay_service_shutdown tree_ops tree_laws broker _ _ _ _ _ one_file "a.jsonl" one_line
    demo_producer 4 None ∅ _ _ _ eq_refl (replay_runs_told one_file eq_refl) _ _ _)).
  - rewrite Hl. constructor; [vm_compute; reflexivity|constructor].
  - reflexivity.
  - lia.
Defined.

(** The live service when it has returned. *)
Lemma live_exit `{JsonLaws} `{KafkaLaws K} `{QueueLaws Queue MarketEvent}
  (brings : string -> Prop) config (u v : KafkaEventProducer K) cap r fs tr st
  (f : fine_service LiveSource LiveSource.pc K Queue)
  (Hr : fine_runs (H0 := live_fine brings)
    (fine_begin (H0 := live_fine brings) (LiveSource_new config) u cap r fs) tr st f)
  (Hx : main (svc f) = Exited v) (Hok : producer_ok u)
  (Hn : (Z.of_nat (count is_message (source_trace st)) < two64)%Z) :
  let received := messages (source_trace st) in
  let events := omap good received in
  attempted tr = events /\
  length received = length events + count is_malformed (source_trace st) /\
  exists bs, length bs = length events /\
    outbox (producer_ v) = outbox (producer_ u) ++ sent_messages (topic (pconfig_ u)) (zip events bs) /\
    exists mark succeeded failed, List.last (printed (svc f)) (StatsLine []) =
      FinalLine [Z.of_nat (length events); Z.of_nat (count id bs); Z.of_nat (count negb bs);
                 mark; Z.of_nat cap; succeeded; failed].
Proof.
  cbn. destruct (live_coarse brings config u cap r fs tr st f Hr) as (_ & a & Hc).
  destruct (live_exited_given brings config u cap r fs tr st f v Hr Hx) as [Hd Hsum].
  destruct (exit_exact _ u v cap r fs tr _ Hc Hx Hok) as (_ & Ha & _ & Hl & _ & Ho).
  { rewrite messages_count in Hsum. lia. }
  rewrite <-Hd. split_and!; [done..|]. exists (attempts tr).*2.
  destruct (attempts_outcomes tr) as [-> ->].
  split_and!.
  - by rewrite length_fmap, <-(length_fmap fst), attempts_attempted, Ha.
  - rewrite Ho. rewrite <-Ha, <-attempts_attempted, zip_fst_snd. done.
  - exact Hl.
Qed.

(** C9: what the network brought is what Kafka was given.  When the live
    service has returned, the events published are, in order, exactly the trades
    parsed from the WebSocket messages received; every message received became
    one of them or was counted as malformed; librdkafka was given one message
    for each successful publish, in order, to the configured topic; and the last
    line printed gives the numbers of events received, published and failed. *)
Theorem live_service_exact `{JsonLaws} `{KafkaLaws K} `{QueueLaws Queue MarketEvent}
  (brings : string -> Prop) config (u v : KafkaEventProducer K) cap r fs tr st
  (f : fine_service LiveSource LiveSource.pc K Queue)
  (Hr : fine_runs (H0 := live_fine brings)
    (fine_begin (H0 := live_fine brings) (LiveSource_new config) u cap r fs) tr st f)
  (Hx : main (svc f) = Exited v) (Hok : producer_ok u)
  (Hn : (Z.of_nat (count is_message (source_trace st)) < two64)%Z) :
  let received := messages (source_trace st) in
  let events := omap good received in
  attempted tr = events /\
  length received = length events + count is_malformed (source_trace st) /\
  exists bs, length bs = length events /\
    outbox (producer_ v) = outbox (producer_ u) ++ sent_messages (topic (pconfig_ u)) (zip events bs) /\
    exists mark succeeded failed, List.last (printed (svc f)) (StatsLine []) =
      FinalLine [Z.of_nat (length events); Z.of_nat (count id bs); Z.of_nat (count negb bs);
                 mark; Z.of_nat cap; succeeded; failed].
Proof. exact (live_exit brings config u v cap r fs tr st f Hr Hx Hok Hn). Qed.

Lemma live_service_exact_witness :
  attempted (live_trace_exited None) = [liveEvent] /\
  outbox (producer_ (KafkaEventProducer_destroy live_flushed)) =
    @sent_messages tree_ops "t" [(liveEvent, true)].
Proof.
  destruct (@live_service_exact tree_ops tree_laws broker _ _ _ _ _ one_trade default_config
    demo_producer (KafkaEventProducer_destroy live_flushed) 4 None ∅ _ _ _ (live_runs_exited one_trade eq_refl None ∅ ∅ eq_refl))
    as (Ha & _ & _); [reflexivity|split; [cbn; lia|reflexivity]|reflexivity|].
  split; [|vm_compute; reflexivity]. rewrite Ha. unfold good. cbn [source_trace].
  vm_compute. reflexivity.
Defined.

(** C20: the live service does not give up.  However often the connection is
    refused, lost or garbled, [ingestFinished()] is not true and [main] neither
    leaves its loop nor calls [source_->stop()] before a signal has set the
    shutdown flag. *)
Theorem live_service_needs_signal `{JsonLaws} `{KafkaLaws K} `{QueueLaws Queue MarketEvent}
  (brings : string -> Prop) config (u : KafkaEventProducer K) cap r fs tr st
  (f : fine_service LiveSource LiveSource.pc K Queue)
  (Hr : fine_runs (H0 := live_fine brings)
    (fine_begin (H0 := live_fine brings) (LiveSource_new config) u cap r fs) tr st f)
  (Hq : ingestFinished (pipeline (pipe (svc f))) = true \/ SourceFlag ∈ st \/
    main (svc f) = AtRequestStop \/ told (main (svc f)) = true) :
  shutdown_requested (svc f) = true.
Proof.
  destruct (stop_signalled brings config u cap r fs tr st f Hr) as [Hs Hm].
  destruct Hq as [Hf|[Hf|Hf]]; [| |exact (Hm Hf)]; apply Hs.
  - by eapply finished_stopped.
  - apply list_elem_of_fmap. by exists SourceFlag.
Qed.

Lemma live_service_needs_signal_witness : shutdown_requested (svc (live_told None ∅)) = true.
Proof.
  apply (@live_service_needs_signal tree_ops tree_laws broker _ _ _ _ _ one_trade default_config
    demo_producer 4 None ∅ _ _ _ (live_runs_told one_trade eq_refl None ∅ ∅ eq_refl)). right. right. right. reflexivity.
Defined.

(** C11: one thing kills the live service.  Over a network that brings anything
    at all, with any recorder, any broker and any interleaving, the process dies
    exactly when a message has been parsed that holds a number the JSON library
    throws [out_of_range] for: never of an exception of the recorder or the
    producer, of a thread assigned to or destroyed while joinable, or of any
    other message. *)
Theorem live_service_dies_iff `{JsonLaws} `{KafkaLaws K} `{QueueLaws Queue MarketEvent}
  (brings : string -> Prop) config (u : KafkaEventProducer K) cap r fs tr st
  (f : fine_service LiveSource LiveSource.pc K Queue)
  (Hr : fine_runs (H0 := live_fine brings)
    (fine_begin (H0 := live_fine brings) (LiveSource_new config) u cap r fs) tr st f) :
  main (svc f) = Died <->
  exists raw time x, (raw, time) ∈ messages (source_trace st) /\ judge raw time = Fatal x /\
    place f <> Parsing raw time.
Proof.
  destruct (live_part_runs brings config u cap r fs tr st f Hr) as (Hl & _ & _). split.
  - intros Hd. destruct (live_died brings config u cap r fs tr st f Hr Hd) as [[x Hx] ->].
    destruct (throw_fatal _ _ _ _ Hl Hx) as (raw & time & Hin & Hj). by exists raw, time, x.
  - intros (raw & time & x & Hin & Hj & Hp).
    destruct (fatal_judged _ _ _ _ _ _ Hl Hin Hj) as [|Hx]; [done|].
    pose proof (live_no_throw brings config u cap r fs tr st f Hr) as Hn.
    destruct (main (svc f)) eqn:Hm; try done; exfalso; specialize (Hn ltac:(done));
      apply count_zero in Hn; rewrite Forall_forall in Hn; by specialize (Hn _ Hx).
Qed.

Lemma live_service_dies_iff_witness : main (svc (live_died_of None ∅)) = Died.
Proof.
  apply (@live_service_dies_iff tree_ops tree_laws broker _ _ _ _ _ (fun _ => True) default_config
    demo_producer 4 None ∅ _ _ _ (live_runs_died (fun _ => True) None ∅ I)).
  exists overflowing_number, 7%Z, (OutOfRange "406").
  split; [|split; [vm_compute; reflexivity|discriminate]].
  vm_compute. left.
Defined.

(** The replaying service when it has returned. *)
Lemma replay_exit `{JsonLaws} `{KafkaLaws K} `{QueueLaws Queue MarketEvent}
  (read_file : string -> option string) path text (u v : KafkaEventProducer K) cap r fs tr st
  (f : fine_service ReplaySource replay_pc K Queue)
  (Hfile : read_file path = Some text)
  (Hr : fine_runs (H0 := replay_fine read_file)
    (fine_begin (H0 := replay_fine read_file) (ReplaySource_new path) u cap r fs) tr st f)
  (Hx : main (svc f) = Exited v) (Hok : producer_ok u)
  (Hn : (Z.of_nat (length (getlines newline text)) < two64)%Z) :
  exists pre rest, getlines newline text = pre ++ rest /\
    (shutdown_requested (svc f) = false -> rest = []) /\
    let events := replayed_events pre in
    untimed <$> attempted tr = untimed <$> events /\
    exists bs, length bs = length events /\
      outbox (producer_ v) = outbox (producer_ u) ++ sent_messages (topic (pconfig_ u)) (zip events bs) /\
      exists mark succeeded failed, List.last (printed (svc f)) (StatsLine []) =
        FinalLine [Z.of_nat (length events); Z.of_nat (count id bs); Z.of_nat (count negb bs);
                   mark; Z.of_nat cap; succeeded; failed].
Proof.
  destruct (replay_exited_read read_file path text Hfile u cap r fs tr st f v Hr Hx)
    as (pre & rest & Hl & Hrest & Hd). exists pre, rest. split; [done|]. split; [done|].
  destruct (runs_coarse (H1 := replay_fine read_file) (FineLaws0 := replay_fine_laws read_file path)
    (ReplaySource_new path) u cap r fs tr st f eq_refl Hr) as (_ & a & _ & Hc).
  assert (Hlen : length (delivered tr) = length (replayed_events pre))
    by (apply (f_equal length) in Hd; by rewrite !length_fmap in Hd).
  destruct (exit_exact _ u v cap r fs tr _ Hc Hx Hok) as (_ & Ha & _ & Hlast & _ & Ho).
  { pose proof (replayed_short pre). rewrite Hl, length_app in Hn. lia. }
  cbn. rewrite Ha. split; [done|]. exists (attempts tr).*2. destruct (attempts_outcomes tr) as [-> ->].
  rewrite <-Hlen. split_and!; [|rewrite Ho, zip_attempts, Ha at 1; f_equal; by apply sent_untimed|exact Hlast].
  by rewrite length_fmap, <-(length_fmap fst), attempts_attempted, Ha.
Qed.

(** C10: what is replayed is the file, or the part of it read before a signal.
    When a replaying service has returned, the events published are, in order and
    up to their receipt time, the events of the first lines of the capture, and of
    all its lines if no signal was handled; librdkafka was given one message for
    each successful publish, in order, to the configured topic; and the last line
    printed gives the numbers of events received, published and failed. *)
Theorem replay_service_exact `{JsonLaws} `{KafkaLaws K} `{QueueLaws Queue MarketEvent}
  (read_file : string -> option string) path text (u v : KafkaEventProducer K) cap r fs tr st
  (f : fine_service ReplaySource replay_pc K Queue)
  (Hfile : read_file path = Some text)
  (Hr : fine_runs (H0 := replay_fine read_file)
    (fine_begin (H0 := replay_fine read_file) (ReplaySource_new path) u cap r fs) tr st f)
  (Hx : main (svc f) = Exited v) (Hok : producer_ok u)
  (Hn : (Z.of_nat (length (getlines newline text)) < two64)%Z) :
  exists pre rest, getlines newline text = pre ++ rest /\
    (shutdown_requested (svc f) = false -> rest = []) /\
    let events := replayed_events pre in
    untimed <$> attempted tr = untimed <$> events /\
    exists bs, length bs = length events /\
      outbox (producer_ v) = outbox (producer_ u) ++ sent_messages (topic (pconfig_ u)) (zip events bs) /\
      exists mark succeeded failed, List.last (printed (svc f)) (StatsLine []) =
        FinalLine [Z.of_nat (length events); Z.of_nat (count id bs); Z.of_nat (count negb bs);
                   mark; Z.of_nat cap; succeeded; failed].
Proof. exact (replay_exit read_file path text u v cap r fs tr st f Hfile Hr Hx Hok Hn). Qed.

Lemma replay_service_exact_witness :
  exists pre rest, getlines newline one_line = pre ++ rest /\ (false = false -> rest = []) /\
    untimed <$> [replayedEvent] = untimed <$> @replayed_events tree_ops pre.
Proof.
  destruct (@replay_service_exact tree_ops tree_laws broker _ _ _ _ _ one_file "a.jsonl" one_line
    demo_producer (KafkaEventProducer_destroy svc_flushed) 4 None ∅ _ _ _ eq_refl (replay_runs_exited one_file eq_refl))
    as (pre & rest & Hl & Hrest & Hd & _);
    [reflexivity|split; [cbn; lia|reflexivity]|reflexivity|].
  exists pre, rest. split; [exact Hl|split; [exact Hrest|exact Hd]].
Defined.

(** A capture comes back through Kafka.  Record events that the capture
    format can hold to a new file, run the service with [--replay] on it until it
    returns: librdkafka has been given, in order, one message for each [publish]
    that returned true of the events recorded first, and of all of them if no
    signal was handled; and from each message a consumer gets that event as it was
    recorded, up to milliseconds and its receipt time. *)
Theorem fine_capture_reaches_consumer `{JsonLaws} `{KafkaLaws K} `{QueueLaws Queue MarketEvent}
  openable path es (fs0 fs1 fs2 : files) rec (u v : KafkaEventProducer K) cap r fs tr st
  (f : fine_service ReplaySource replay_pc K Queue)
  (Hopen : EventRecorder_open openable path fs0 = Ok (rec, fs1))
  (Hnew : fs0 !! path = None) (Hes : Forall recordable es)
  (Hrec : record_all rec es fs1 = Ok fs2)
  (Hr : fine_runs (H0 := replay_fine (fun p => fs2 !! p))
    (fine_begin (H0 := replay_fine (fun p => fs2 !! p)) (ReplaySource_new path) u cap r fs) tr st f)
  (Hx : main (svc f) = Exited v) (Hok : producer_ok u) :
  exists n bs messages, n <= length es /\
    (shutdown_requested (svc f) = false -> n = length es) /\ length bs = n /\
    outbox (producer_ v) = outbox (producer_ u) ++ messages /\
    Forall2 (fun e message => message.1 = (topic (pconfig_ u), symbol e) /\
                              message_reads (K := K) e message)
      (accepted (restored <$> take n es) bs) messages.
Proof.
  destruct (capture_text openable path es fs0 fs1 fs2 rec Hopen Hnew Hes Hrec) as (text & Hf & Hev).
  destruct (replay_exited_read (fun p => fs2 !! p) path text Hf u cap r fs tr st f v Hr Hx)
    as (pre & rest & Hl & Hrest & Hd).
  destruct (fine_exit_sends (H1 := replay_fine (fun p => fs2 !! p))
    (FineLaws0 := replay_fine_laws (fun p => fs2 !! p) path)
    (ReplaySource_new path) u v cap r fs tr st f eq_refl Hr Hx Hok) as [Ha Ho].
  rewrite Hl, replayed_app in Hev.
  assert (Hlen : length (attempts tr).*2 = length (replayed_events pre)).
  { rewrite length_fmap, <-(length_fmap fst), attempts_attempted, Ha.
    apply (f_equal length) in Hd. by rewrite !length_fmap in Hd. }
  assert (Hpre : replayed_events pre = restored <$> take (length (replayed_events pre)) es)
    by (by rewrite fmap_take, <-Hev, take_app_length).
  exists (length (replayed_events pre)), (attempts tr).*2,
    (sent_messages (topic (pconfig_ u)) (zip (replayed_events pre) (attempts tr).*2)).
  split_and!.
  - apply (f_equal length) in Hev. rewrite length_app, length_fmap in Hev. lia.
  - intros Hg. rewrite (Hrest Hg), app_nil_r in Hev. by rewrite Hev, length_fmap.
  - done.
  - rewrite Ho, zip_attempts, Ha at 1. f_equal. by apply sent_untimed.
  - rewrite Hpre at 2. apply sent_reads. by apply Forall_take.
Qed.

Lemma fine_capture_reaches_consumer_witness :
  exists n bs messages, (false = false -> n = 1) /\ length bs = n /\
    outbox (producer_ (KafkaEventProducer_destroy svc_flushed)) = messages /\
    Forall2 (fun e message => message.1 = ("t"%string, symbol e) /\
                              @message_reads tree_ops broker _ e message)
      (accepted (restored <$> take n [sampleEvent]) bs) messages.
Proof.
  destruct (@fine_capture_reaches_consumer tree_ops tree_laws broker _ _ _ _ _ (fun _ => true) "a.jsonl"
    [sampleEvent] ∅ {["a.jsonl"%string := EmptyString]} svc_files {| out_path := "a.jsonl" |}
    demo_producer (KafkaEventProducer_destroy svc_flushed) 4 None ∅ svc_trace replay_steps
    (Fine svc_exited NotInNext false))
    as (n & bs & messages & _ & Hg & Hlen & Ho & Hall).
  - vm_compute. reflexivity.
  - reflexivity.
  - constructor; [exact sampleEvent_recordable|constructor].
  - vm_compute. reflexivity.
  - exact (replay_runs_exited (fun p => svc_files !! p) eq_refl).
  - reflexivity.
  - split; [cbn; lia|reflexivity].
  - exists n, bs, messages. split; [exact Hg|split; [exact Hlen|split; [exact Ho|exact Hall]]].
Defined.

(** C21: two things kill a replaying service.  The process dies only if the
    capture cannot be opened, or if a line of it holds a number the JSON library
    throws [out_of_range] for. *)
Theorem replay_service_dies_only `{JsonLaws} `{KafkaLaws K} `{QueueLaws Queue MarketEvent}
  (read_file : string -> option string) path (u : KafkaEventProducer K) cap r fs tr st
  (f : fine_service ReplaySource replay_pc K Queue)
  (Hr : fine_runs (H0 := replay_fine read_file)
    (fine_begin (H0 := replay_fine read_file) (ReplaySource_new path) u cap r fs) tr st f)
  (Hd : main (svc f) = Died) :
  match read_file path with
  | None => True
  | Some text => exists l, l ∈ getlines newline text /\ is_fatal l = true
  end.
Proof.
  destruct (fine_died (H1 := replay_fine read_file) (FineLaws0 := replay_fine_laws read_file path)
    (ReplaySource_new path) u cap r fs tr st f eq_refl Hr Hd) as [(x & l & Hl & Hx)|(s0 & x & s' & -> & Hs)].
  - unfold file_lines in Hl. destruct (read_file path) as [text|]; [|done].
    exists l. split; [done|]. unfold is_fatal. by rewrite Hx.
  - cbn in Hs. unfold ReplaySource.start, ifstream_open in Hs. cbn in Hs. by destruct (read_file path).
Qed.

Lemma replay_service_dies_only_witness :
  exists l, l ∈ getlines newline fatal_capture /\ @is_fatal tree_ops l = true.
Proof.
  exact (@replay_service_dies_only tree_ops tree_laws broker _ _ _ _ _ (fun _ => Some fatal_capture)
    "a.jsonl" demo_producer 4 None ∅ _ _ _ fatal_runs_died eq_refl).
Defined.
