(* ===== verification/ServiceReports.v ===== *)
(** * What the statistics lines say

    The "[stats]" lines of services/ingestion/main.cpp, one number read after
    the other while the threads go on: what was read is not ahead of the counters
    at any later moment, over any coarse source. *)
From S2P Require Import Prelude CxxStrings MarketEvent Json JsonTree MarketEventJson EventRecorder.
From S2P Require Import BoundedQueue Interfaces IngestionPipeline PipelineInvariant PipelineProperties.
From S2P Require Import ReplaySource PipelineReplay Kafka KafkaProperties PipelineKafka EventTypes FineSource.
From S2P Require Import IngestionService ServiceInvariant ServiceDemo ServiceProperties FineService.

(** The numbers of a line. *)
Definition numbers (o : output) : list Z :=
  match o with StatsLine vals | FinalLine vals => vals end.

(** ** The pipeline's counters *)
Section Counters.
Context `{JsonOps} `{MarketDataSource Src} `{KafkaLaws K} `{QueueLaws Queue MarketEvent}.
Implicit Types (p : IngestionPipeline Src (KafkaEventProducer K) Queue)
  (c : state Src (KafkaEventProducer K) Queue) (m : service Src K Queue) (tr : list event_label).

#[local] Arguments wrap_u64 : simpl never.

(** What a publish thread has still to count was an attempt. *)
Lemma counting_attempted c0 tr c b : publishing c0 = NoPublish -> exec c0 tr c -> publishing c = Counting b -> 0 < count (if b then is_published else is_failure) tr.
Proof.
  intros Hp0 He. revert b. induction He as [|tr c l c' _ IH Hs|tr c l c' _ IH _ Hs]; intros b Hb.
  - congruence.
  - rewrite count_app. destruct Hs as [Hs|[Hs|Hs]]; destruct Hs; cbn in *;
      try (specialize (IH b Hb); lia); try discriminate.
    + by destruct r.
    + injection Hb as <-. destruct b0; cbn; lia.
  - rewrite count_app. assert (E : publishing c' = publishing c) by (by destruct Hs).
    rewrite E in Hb. specialize (IH b Hb). lia.
Qed.

(** The counters are the numbers of events, while these fit 64 bits. *)
Lemma exec_counts s u cap r fs tr c :
  exec (fresh s u cap r fs) tr c -> (Z.of_nat (length (delivered tr)) < two64)%Z ->
  (events_received_ (pipeline c) + match ingest c with Received _ => 1 | _ => 0 end =
     Z.of_nat (length (delivered tr)))%Z /\
  (events_published_ (pipeline c) + match publishing c with Counting true => 1 | _ => 0 end =
     Z.of_nat (count is_published tr))%Z /\
  (publish_failures_ (pipeline c) + match publishing c with Counting false => 1 | _ => 0 end =
     Z.of_nat (count is_failure tr))%Z /\
  count is_published tr + count is_failure tr <= length (delivered tr).
Proof.
  intros He Hn. pose proof (fun b => counting_attempted (fresh s u cap r fs) tr c b eq_refl He) as Hb.
  apply inv_exec in He. destruct (inv_counted _ _ _ He) as (H1' & H2' & H3'), (inv_range _ _ _ He) as (R1 & R2 & R3).
  pose proof (inv_conserved _ _ _ He) as Hc. unfold conserved in Hc.
  pose proof (attempts_counted tr) as Hsum. apply (f_equal length) in Hc. rewrite !length_app in Hc.
  assert (Hw : forall z (b n : Z), in_u64 z -> (b = 0 \/ b = 1 /\ 0 < n)%Z -> (0 <= n < two64)%Z ->
    wrap_u64 (z + b) = wrap_u64 n -> (z + b = n)%Z).
  { intros z b n Hz Hb' Hn' E. unfold wrap_u64, in_u64, two64 in *.
    rewrite (Z.mod_small n) in E by lia. destruct (decide (z + b < 2 ^ 64)%Z) as [Hlt|Hge].
    - by rewrite Z.mod_small in E by lia.
    - assert (z + b = 2 ^ 64)%Z as Ez by lia. rewrite Ez, Z.mod_same in E by done. lia. }
  split_and!; [apply Hw; try done; [|lia]|apply Hw; try done; [|lia]|apply Hw; try done; [|lia]|lia].
  - destruct (ingest c); try (by left). right. cbn in Hc. lia.
  - destruct (publishing c) as [| | |[]| |]; try (by left). right. specialize (Hb true eq_refl). lia.
  - destruct (publishing c) as [| | |[]| |]; try (by left). right. specialize (Hb false eq_refl). lia.
Qed.

(** The counters of [p'] are not behind those of [p]. *)
Definition ahead p p' : Prop :=
  (events_received_ p <= events_received_ p')%Z /\ (events_published_ p <= events_published_ p')%Z /\
  (publish_failures_ p <= publish_failures_ p')%Z /\ queue_mark (pqueue_ p) <= queue_mark (pqueue_ p') /\
  queue_bound (pqueue_ p') = queue_bound (pqueue_ p).

Lemma ahead_refl p : ahead p p.
Proof. by unfold ahead. Qed.

Lemma channel_peak_le cap (ch : channel MarketEvent) l ch' : channel_step cap ch l ch' -> peak ch <= peak ch'.
Proof. intros Hs. destruct Hs; cbn; lia. Qed.

Lemma mark_grows q b q' e : try_push e q = Some (b, q') ->
  queue_mark q <= queue_mark q' /\ queue_bound q' = queue_bound q.
Proof. intros [Hs Hq]%push_view. rewrite !mark_view. split; [by eapply channel_peak_le|done]. Qed.

Lemma ahead_step s u cap r fs tr c l c' :
  exec (fresh s u cap r fs) tr c -> (Z.of_nat (length (delivered tr)) < two64)%Z ->
  thread_step c l c' -> ahead (pipeline c) (pipeline c').
Proof.
  intros He Hn Hs. destruct (exec_counts s u cap r fs tr c He Hn) as (Hr & Hp & Hf & Hle).
  destruct Hs as [Hs|[Hs|Hs]].
  - destruct Hs as [| |p w o fs' e|p w o fs' e fs1 Hrec|p w o fs' e b q' Hq|]; cbn in *; try (by unfold ahead).
    + unfold ahead. cbn. rewrite wrap_u64_id by (unfold in_u64; lia). split_and!; (lia || done).
    + destruct (mark_grows _ _ _ _ Hq). by unfold ahead.
  - destruct Hs as [p i o fs' x q' Hq| |p i o fs' b|]; cbn in *; try (by unfold ahead).
    + apply pop_view in Hq as [Hs Hb]. apply channel_peak_le in Hs. unfold ahead. cbn.
      by rewrite !mark_view.
    + destruct b; unfold ahead; cbn; rewrite wrap_u64_id by (unfold in_u64; lia); split_and!; (lia || done).
  - destruct Hs as [| |p i w fs'| |p i w d fs'| |]; cbn in *; try (by unfold ahead).
    destruct (shutdown_view (pqueue_ p)) as [Hs Hb]. apply channel_peak_le in Hs. unfold ahead. cbn.
    by rewrite !mark_view.
Qed.

Lemma ahead_main m ls m' : main_step m ls m' -> ahead (pipeline (pipe m)) (pipeline (pipe m')).
Proof.
  intros Hs. destruct Hs; cbn; try (by unfold ahead);
    unfold requestStop; by destruct (started_ p).
Qed.
End Counters.

(** ** The lines *)

(** The first five numbers of a line are totals: events received, published and
    failed, the high-water mark and the capacity of the queue. *)
Definition line_le (vals vals' : list Z) : Prop :=
  forall n v v', n < 5 -> vals !! n = Some v -> vals' !! n = Some v' -> (v <= v')%Z.

Section Lines.
Context `{JsonOps} `{MarketDataSource Src} `{KafkaLaws K} `{QueueLaws Queue MarketEvent}.
Implicit Types (p : IngestionPipeline Src (KafkaEventProducer K) Queue)
  (m : service Src K Queue) (tr : list event_label).

#[local] Abbreviation totals := (stats_fields (Src := Src) (K := K) (Queue := Queue)).

(** A line was read when the counters were no further than now. *)
Definition behind (vals : list Z) p : Prop :=
  forall n f v, totals !! n = Some f -> vals !! n = Some v -> (v <= f p)%Z.

Lemma behind_ahead vals p p' : behind vals p -> ahead p p' -> behind vals p'.
Proof.
  intros Hb (H1' & H2' & H3' & H4' & H5') n f v Hf Hv. specialize (Hb n f v Hf Hv).
  do 5 (destruct n as [|n]; [injection Hf as <-; cbn in *; lia|]). done.
Qed.

(** Reading one number more. *)
Lemma behind_read vals f p :
  behind vals p -> (forall g, totals !! length vals = Some g -> f = g) -> behind (vals ++ [f p]) p.
Proof.
  intros Hb Hf n g v Hg [Hv|[Hn Hv]]%lookup_app_Some; [by eapply Hb|].
  apply list_lookup_singleton_Some in Hv as [Hn' <-]. assert (n = length vals) as -> by lia.
  by rewrite (Hf g Hg).
Qed.

Lemma line_le_read old vals f p :
  behind old p -> line_le old vals -> (forall g, totals !! length vals = Some g -> f = g) ->
  line_le old (vals ++ [f p]).
Proof.
  intros Hb Hle Hf n v v' Hn Hv [Hv'|[Hge Hv']]%lookup_app_Some; [by eapply Hle|].
  apply list_lookup_singleton_Some in Hv' as [Hn' <-]. assert (n = length vals) as -> by lia.
  destruct (lookup_lt_is_Some_2 totals (length vals) Hn) as [g Hg]. rewrite (Hf g Hg). by eapply Hb.
Qed.

(** The line being read. *)
Definition reading m : option (list Z) :=
  match main m with ReadingStats _ vals | ReadingFinal vals => Some vals | _ => None end.

Record lines_inv m : Prop := {
  li_behind : forall o, o ∈ printed m -> behind (numbers o) (pipeline (pipe m));
  li_sorted : forall i j o o', i < j -> printed m !! i = Some o -> printed m !! j = Some o' ->
    line_le (numbers o) (numbers o');
  li_reading : forall vals, reading m = Some vals -> behind vals (pipeline (pipe m)) /\
    forall o, o ∈ printed m -> line_le (numbers o) vals;
  li_shape : forall o, o ∈ printed m ->
    length (numbers o) = match o with StatsLine _ => 8 | FinalLine _ => 7 end
}.

(** The counters move on, [main] does not read. *)
Lemma lines_ahead m m' : lines_inv m -> printed m' = printed m ->
  ahead (pipeline (pipe m)) (pipeline (pipe m')) ->
  (forall vals, reading m' = Some vals -> reading m = Some vals \/ vals = []) -> lines_inv m'.
Proof.
  intros [Hb Hs Hr Hw] Ep Ha Hv. split; rewrite Ep; [|done| |done].
  - intros o Ho. eapply behind_ahead; [by apply Hb|done].
  - intros vals Hvals. destruct (Hv vals Hvals) as [Hvals'| ->].
    + destruct (Hr vals Hvals') as [Hbv Hlv]. split; [by eapply behind_ahead|done].
    + split; [intros n f v _ Hn|intros o _ n v v' _ _ Hn]; by rewrite lookup_nil in Hn.
Qed.

Lemma lines_read m m' vals f : lines_inv m -> reading m = Some vals ->
  printed m' = printed m -> pipe m' = pipe m -> reading m' = Some (vals ++ [f (pipeline (pipe m))]) ->
  (forall g, totals !! length vals = Some g -> f = g) -> lines_inv m'.
Proof.
  intros [Hb Hs Hr Hw] Hv Ep Ec Hv' Hf. destruct (Hr vals Hv) as [Hbv Hlv].
  split; rewrite Ep, ?Ec; [done..| |done]. rewrite Hv'. intros vals' [= <-]. split; [by apply behind_read|].
  intros o Ho. apply line_le_read; auto.
Qed.

Lemma lines_print m m' vals o : lines_inv m -> reading m = Some vals -> numbers o = vals ->
  length vals = match o with StatsLine _ => 8 | FinalLine _ => 7 end ->
  printed m' = printed m ++ [o] -> pipe m' = pipe m -> reading m' = None -> lines_inv m'.
Proof.
  intros [Hb Hs Hr Hw] Hv Eo El Ep Ec Hv'. destruct (Hr vals Hv) as [Hbv Hlv].
  split; rewrite Ep, ?Ec, ?Hv'; [| |done|].
  - intros o' [Ho|Ho%list_elem_of_singleton]%elem_of_app; [by apply Hb|]. subst o'. by rewrite Eo.
  - intros i j o1 o2 Hij H1' [H2'|[Hge H2']]%lookup_app_Some.
    + rewrite lookup_app_l in H1' by (apply lookup_lt_Some in H2'; lia). by eapply Hs.
    + apply list_lookup_singleton_Some in H2' as [Hj <-]. rewrite Eo. apply Hlv.
      rewrite lookup_app_l in H1' by lia. by eapply list_elem_of_lookup_2.
  - intros o' [Ho|Ho%list_elem_of_singleton]%elem_of_app; [by apply Hw|]. subst o'. by rewrite Eo.
Qed.

Lemma totals_first (g f : IngestionPipeline Src (KafkaEventProducer K) Queue -> Z) n rest :
  (totals ++ rest) !! n = Some f -> totals !! n = Some g -> f = g.
Proof. intros Hf Hg. rewrite lookup_app_l in Hf by (by eapply lookup_lt_Some). congruence. Qed.

Lemma lines_main m ls m' : lines_inv m -> main_step m ls m' -> lines_inv m'.
Proof.
  intros Hi Hs. pose proof (ahead_main m ls m' Hs) as Ha. destruct Hs as
    [g t out p i w fs s' Hst|g t out p i w fs s' x Hst|g t out c now Hc|g t out c|g t out c
    |g t out c now|g t out c now vals f Hf|g t out c now vals Hv|g t out p i w o fs
    |g t out p i w fs|g t out c Hc|g t out c vals f Hf|g t out c vals Hv|g t out p i w fs
    |g t out c Hc Hip Hp].
  7: { eapply (lines_read _ _ vals f Hi); try done. intros g' Hg'. by eapply totals_first. }
  7: { by eapply (lines_print _ _ vals (StatsLine vals) Hi). }
  10: { eapply (lines_read _ _ vals f Hi); try done. intros g' Hg'. by eapply totals_first. }
  10: { by eapply (lines_print _ _ vals (FinalLine vals) Hi). }
  all: eapply (lines_ahead _ _ Hi); [done|exact Ha|]; unfold reading; cbn; try done.
  - by destruct g.
  - by destruct (ingestFinished _).
  - case_bool_decide; [|done]. intros vals [= <-]. by right.
  - intros vals [= <-]. by right.
Qed.

Lemma lines_runs s u cap r fs tr m :
  runs (service_begin s u cap r fs) tr m -> (Z.of_nat (length (delivered tr)) < two64)%Z -> lines_inv m.
Proof.
  intros Hr. induction Hr as [|tr m ls m' Hr IH Hs|tr m _ IH]; intros Hn.
  - split; cbn; [by intros o ?%not_elem_of_nil|by intros i j o o' _ ?|done|by intros o ?%not_elem_of_nil].
  - assert (Hn' : (Z.of_nat (length (delivered tr)) < two64)%Z)
      by (unfold delivered in *; rewrite omap_app, length_app in Hn; lia).
    specialize (IH Hn'). destruct Hs as [pc g t out c l c' Hal Hs|m ls m' Hs|pc g t out c Hal Ha].
    + eapply (lines_ahead _ _ IH); [done| |by left].
      destruct (runs_exec _ _ _ _ _ _ _ Hr) as [He _]. exact (ahead_step _ _ _ _ _ _ _ _ _ He Hn' Hs).
    + by eapply lines_main.
    + by eapply (lines_ahead _ _ IH).
  - destruct (IH Hn). by split.
Qed.
End Lines.

(** ** The delivery reports *)
Section Deliveries.
Context `{JsonOps} `{KafkaLaws K}.
Implicit Types (u : KafkaEventProducer K).

(** The producer's counters are the reports received, each about a message
    librdkafka had accepted. *)
Definition tallied u : Prop :=
  (0 <= delivery_successes_ u)%Z /\ (0 <= delivery_failures_ u)%Z /\
  (delivery_successes_ u + delivery_failures_ u = Z.of_nat (reported (producer_ u)))%Z /\
  reported (producer_ u) <= length (outbox (producer_ u)).

Lemma trampoline_producer reports : forall u,
  producer_ (fold_left deliveryReportTrampoline reports u) = producer_ u.
Proof. induction reports as [|r reports IH]; intros u; [done|]. cbn. rewrite IH. by destruct r. Qed.

Lemma trampoline_tally reports : forall u n,
  (0 <= delivery_successes_ u)%Z -> (0 <= delivery_failures_ u)%Z ->
  (delivery_successes_ u + delivery_failures_ u = n)%Z -> (n + Z.of_nat (length reports) < two64)%Z ->
  let u' := fold_left deliveryReportTrampoline reports u in
  (0 <= delivery_successes_ u')%Z /\ (0 <= delivery_failures_ u')%Z /\
  (delivery_successes_ u' + delivery_failures_ u' = n + Z.of_nat (length reports))%Z.
Proof.
  induction reports as [|r reports IH]; intros u n Hs Hf Hn Hlt; cbn; [split_and!; lia|].
  cbn [length] in Hlt. rewrite Nat2Z.inj_succ in Hlt.
  assert (Hk : (0 <= delivery_successes_ (deliveryReportTrampoline u r))%Z /\
    (0 <= delivery_failures_ (deliveryReportTrampoline u r))%Z /\
    (delivery_successes_ (deliveryReportTrampoline u r) + delivery_failures_ (deliveryReportTrampoline u r) = n + 1)%Z).
  { destruct r; cbn; rewrite wrap_u64_id by (unfold in_u64; lia); lia. }
  destruct Hk as (Ks & Kf & Kn). destruct (IH _ _ Ks Kf Kn ltac:(lia)) as (Hs' & Hf' & Hn').
  split; [exact Hs'|]. split; [exact Hf'|]. rewrite Hn'. lia.
Qed.

(** Serving the reports of a poll or a flush. *)
Lemma tally_served u k rs k' : tallied (with_producer k u) ->
  outbox k' = outbox k -> reported k' = reported k + length rs -> reported k' <= length (outbox k') ->
  (Z.of_nat (length (outbox k)) < two64)%Z ->
  tallied (fold_left deliveryReportTrampoline rs (with_producer k' u)).
Proof.
  intros (Hs & Hf & Hn & _) Ho Hr Hle Hlt. cbn in *.
  destruct (trampoline_tally rs (with_producer k' u) (Z.of_nat (reported k))) as (Hs' & Hf' & Hn');
    try done; [rewrite Ho in Hle; lia|].
  unfold tallied. rewrite trampoline_producer. split_and!; [done..| |done]. rewrite Hn'. cbn. lia.
Qed.

Lemma publish_tallied u e b u' : tallied u -> publish_event u e = Ok (b, u') ->
  (Z.of_nat (length (outbox (producer_ u'))) < two64)%Z -> tallied u'.
Proof.
  intros Ht Hp Hlt. unfold publish_event in Hp. destruct (event_line e) as [l|]; [|done]. cbn in Hp.
  destruct (kafka_producev (producer_ u) (topic (pconfig_ u)) (symbol e) l) as [err k1] eqn:E1.
  destruct (kafka_poll k1) as [rs k2] eqn:E2. injection Hp as _ <-.
  assert (Ht1 : tallied (with_producer k1 u)).
  { destruct Ht as (Hs & Hf & Hn & Hle). unfold tallied. cbn.
    destruct err; [apply producev_err in E1|apply producev_ok in E1]; destruct E1 as [-> ->];
      rewrite ?length_app; split_and!; (done || lia). }
  destruct (poll_reports k1 rs k2 E2) as (Ho2 & Hr2 & Hle2); [apply Ht1|].
  rewrite trampoline_producer in Hlt. cbn in Hlt. eapply tally_served; [exact Ht1|done..|]. by rewrite <-Ho2.
Qed.

Lemma flush_tallied t u : tallied u -> (Z.of_nat (length (outbox (producer_ u))) < two64)%Z ->
  tallied (flush_producer t u).
Proof.
  intros Ht Hlt. unfold flush_producer. destruct (kafka_flush (producer_ u) t) as [rs k'] eqn:E.
  destruct (flush_reports _ _ _ _ E) as (Ho & Hr & Hle); [apply Ht|].
  eapply tally_served; [|done..]. by destruct u.
Qed.

Lemma new_tallied config u : KafkaEventProducer_new config = Ok u -> tallied u.
Proof.
  unfold KafkaEventProducer_new. destruct (kafka_conf_set _ _); [done|].
  destruct (kafka_new _) as [err|k] eqn:Hk; [done|]. intros [= <-].
  apply new_outbox in Hk as [Ho Hr]. unfold tallied. cbn. by rewrite Ho, Hr.
Qed.

(** No more messages than successful attempts. *)
Lemma sent_short t es :
  length (sent_messages t es) <= count (fun eb : MarketEvent * bool => eb.2) es.
Proof.
  induction es as [|[e b] es IH]; [done|]. unfold sent_messages in *. cbn [omap list_omap].
  unfold message_of at 1. cbn [fst snd count]. destruct b; [destruct (event_line e); cbn; lia|exact IH].
Qed.
End Deliveries.

(** *** At the end of the pipeline *)
Section Final.
Context `{JsonOps} `{MarketDataSource Src} `{KafkaLaws K} `{QueueLaws Queue MarketEvent}.
Implicit Types (c : state Src (KafkaEventProducer K) Queue) (tr : list event_label).
Context (s : Src) (u : KafkaEventProducer K) (cap : nat) (r : option EventRecorder) (fs : files).
Context (config : KafkaProducerConfig) (Hu : KafkaEventProducer_new config = Ok u).

Lemma outbox_published tr c : exec (fresh s u cap r fs) tr c ->
  length (outbox (producer_ (publisher_ (pipeline c)))) <= count is_published tr.
Proof.
  intros He. destruct (new_producer_ok _ _ Hu) as (Hok & _ & Ho).
  destruct (published_exec s u cap r fs tr c He Hok) as (_ & _ & E). rewrite E, Ho. cbn.
  rewrite <-(proj1 (attempts_published tr)). apply sent_short.
Qed.

Lemma exec_tallied tr c : exec (fresh s u cap r fs) tr c ->
  (Z.of_nat (length (delivered tr)) < two64)%Z -> tallied (publisher_ (pipeline c)).
Proof.
  intros He. induction He as [|tr c l c' He IH Hs|tr c l c' He IH _ Hs]; intros Hn.
  - cbn. by eapply new_tallied.
  - assert (He' : exec (fresh s u cap r fs) (tr ++ [l]) c') by (by eapply exec_thread).
    destruct (exec_counts s u cap r fs _ c' He' Hn) as (_ & _ & _ & Hle).
    pose proof (outbox_published _ _ He') as Hout. pose proof (outbox_published _ _ He) as Hout0.
    rewrite count_app in Hle. rewrite delivered_snoc, length_app in *.
    assert (Ht : tallied (publisher_ (pipeline c))) by (apply IH; lia). clear IH He He'.
    destruct Hs as [Hs|[Hs|Hs]]; [by destruct Hs| |by destruct Hs].
    destruct Hs as [| p i o fs' e b u' Hp|p i o fs' b|p i o fs' u' Hf]; cbn in *; [done|..].
    + destruct (publish_event (publisher_ p) e) as [[b1 u1]|x] eqn:Ep; destruct Hp as [Hb ->]; [|done].
      eapply publish_tallied; [exact Ht|exact Ep|]. rewrite count_app in Hout. cbn in *. lia.
    + by destruct b.
    + subst u'. apply flush_tallied; [done|]. lia.
  - rewrite delivered_snoc, length_app in Hn. destruct Hs; cbn in *;
      try (apply IH; lia); unfold requestStop; destruct (started_ p); apply IH; lia.
Qed.

(** The high-water mark is within the capacity. *)
Lemma exec_mark tr c : exec (fresh s u cap r fs) tr c -> queue_mark (pqueue_ (pipeline c)) <= cap.
Proof.
  intros He. assert (Hp : forall (ch : channel MarketEvent) l ch', channel_step cap ch l ch' ->
    peak ch <= cap -> length (items ch) <= cap -> peak ch' <= cap).
  { intros ch l ch' Hs. destruct Hs; cbn; try lia. rewrite length_app. cbn. lia. }
  induction He as [|tr c l c' He IH Hs|tr c l c' He IH _ Hs].
  - cbn. rewrite mark_view, view_new. cbn. lia.
  - pose proof (inv_exec _ _ _ _ _ _ _ He) as Hinv.
    pose proof (inv_bound _ _ _ Hinv) as Hb. pose proof (inv_backlog _ _ _ Hinv) as Hl.
    unfold queued in Hl. rewrite mark_view in IH. clear He Hinv.
    destruct Hs as [Hs|[Hs|Hs]]; destruct Hs; cbn in *; rewrite ?mark_view; try done.
    + match goal with E : try_push _ _ = _ |- _ => apply push_view in E as [Hs _] end.
      rewrite Hb in Hs. by eapply Hp.
    + match goal with E : try_pop _ = _ |- _ => apply pop_view in E as [Hs _] end.
      rewrite Hb in Hs. by eapply Hp.
    + by destruct b.
    + destruct (shutdown_view (pqueue_ p)) as [Hs _]. rewrite Hb in Hs. by eapply Hp.
  - destruct Hs; cbn in *; try done; unfold requestStop; by destruct (started_ p).
Qed.

(** The final line. *)
Lemma final_line tr (m : service Src K Queue) v : runs (service_begin s u cap r fs) tr m ->
  main m = Exited v -> (Z.of_nat (length (delivered tr)) < two64)%Z ->
  exists mark succeeded failed, List.last (printed m) (StatsLine []) =
    FinalLine [Z.of_nat (length (delivered tr)); Z.of_nat (count is_published tr);
               Z.of_nat (count is_failure tr); Z.of_nat mark; Z.of_nat cap; succeeded; failed] /\
    length (delivered tr) = count is_published tr + count is_failure tr /\ mark <= cap /\
    (0 <= succeeded)%Z /\ (0 <= failed)%Z /\ (succeeded + failed <= Z.of_nat (count is_published tr))%Z.
Proof.
  intros Hr Hx Hn. destruct (runs_exec _ _ _ _ _ _ _ Hr) as [He Ho]. rewrite Hx in Ho. cbn in Ho.
  destruct Ho as (Hst & _ & _ & Hout). pose proof (outbox_published _ _ He) as Hob.
  destruct (exec_tallied tr _ He Hn) as (Hs & Hf & Hsum & Hle). pose proof (exec_mark tr _ He) as Hmark.
  apply inv_exec in He. destruct (stopped_counts cap tr _ He Hst Hn) as (H1' & H2' & H3' & Hadd).
  rewrite Hout. unfold final_values. cbn. rewrite H1', H2', H3', (inv_bound _ _ _ He).
  do 3 eexists. split; [reflexivity|]. split_and!; try done. unfold deliverySuccessCount, deliveryFailureCount. lia.
Qed.
End Final.
