(* ===== verification/ReportProperties.v ===== *)
(** * The statistics lines, over any source

    What the "[stats]" lines and the final line of services/ingestion/main.cpp
    say of each other and of the pipeline: the totals only grow from line to line;
    but one line is not the state of one moment. *)
From S2P Require Import Prelude CxxStrings MarketEvent Json JsonTree MarketEventJson EventRecorder.
From S2P Require Import BoundedQueue Interfaces IngestionPipeline PipelineInvariant PipelineProperties.
From S2P Require Import ReplaySource PipelineReplay Kafka KafkaProperties PipelineKafka EventTypes FineSource.
From S2P Require Import IngestionService ServiceInvariant ServiceDemo ServiceProperties.
From S2P Require Import BinanceTradeParser LiveSource LiveProperties SourceSteps FineService LiveService FineProperties ServiceReports.

(** ** A line read while an event goes through *)
Definition torn_line : output := StatsLine [0; 1; 0; 1; 4; 1; 0; 0]%Z.

Definition torn_members (s : LiveSource) (u : KafkaEventProducer broker) (n m : Z) (queue : list MarketEvent)
    (mark : nat)   := live_members None s u n m queue mark false true false.
Definition torn_at (pc : main_pc (KafkaEventProducer broker)) (t : Z) (out : list output) p i w (q : LiveSource.pc)
    : fine_service LiveSource LiveSource.pc broker (BoundedQueue MarketEvent) :=
  Fine (Svc pc false t out (St p i w OwnerIdle ∅)) q false.

Definition torn_printed := torn_at PollFlag 2000000007 [torn_line]
  (torn_members (live_at false true 1 true) live_published 1 1 [] 1) AtNext AtPop Outside.

Section Torn.
#[local] Existing Instance tree_ops.
Context (brings : string -> Prop) (Hb : brings kValidTrade).
#[local] Instance torn_live : FineSource LiveSource LiveSource.pc label := live_fine brings.

Definition torn_steps : list (source_event label) :=
  live_steps_reading ++ [SourceInner (Message kValidTrade 7); SourceInner (GaveEvent liveEvent)].
Definition torn_trace : list event_label :=
  [Started; Quiet; Quiet; Delivered liveEvent; Quiet; Quiet; Enqueued liveEvent; Quiet;
   Attempted liveEvent true; Quiet].

Lemma torn_runs : fine_runs (live_begin brings None ∅) torn_trace torn_steps torn_printed.
Proof.
  pose proof (live_runs_reading brings None ∅) as E. unfold live_reading, live_svc in E.
  fine_do E main_poll_flag. fine_do E main_poll_finished. fine_do E (main_wake _ _ _ _ 2000000007).
  live_now E (torn_at (ReadingStats 2000000007 []) 7 [] (torn_members (live_at false true 0 true) demo_producer
    0 0 [] 0) AtNext AtPop Reading). unfold torn_at in E.
  fine_do E main_read.
  live_now E (torn_at (ReadingStats 2000000007 [0%Z]) 7 [] (torn_members (live_at false true 0 true) demo_producer
    0 0 [] 0) AtNext AtPop Reading). unfold torn_at in E.
  live_inner E (read_message _ kValidTrade 7).
  live_now E (torn_at (ReadingStats 2000000007 [0%Z]) 7 [] (torn_members (live_at false true 1 true) demo_producer
    0 0 [] 0) AtNext AtPop (Parsing kValidTrade 7)). unfold torn_at in E.
  eapply fine_run_step in E; [|eapply (fine_gives _ _ _ _ _ _ _ _ liveEvent); [reflexivity..|]; split;
    [eapply parse_good, judge_valid|reflexivity]].
  fine_ingest E ingest_count. fine_ingest E ingest_record. fine_ingest E ingest_push.
  fine_publish E publish_pop by reflexivity.
  fine_publish E (publish_publish _ _ _ _ _ true live_published) by (vm_compute; by split).
  fine_publish E publish_count by idtac.
  live_now E (torn_at (ReadingStats 2000000007 [0%Z]) 7 [] (torn_members (live_at false true 1 true) live_published
    1 1 [] 1) AtNext AtPop Outside). unfold torn_at in E.
  do 7 (fine_do E main_read). fine_do E main_report. exact E.
Qed.
End Torn.

(** ** Properties *)

(** C14: the totals of the statistics lines only grow.  While fewer than 2^64
    events have been received, of any two lines printed — "[stats]" lines or the
    final one — the later has no smaller number of events received, published or
    failed and no smaller high-water mark; none is ahead of the pipeline's own
    counters; and a "[stats]" line has eight numbers, the final one seven. *)
Theorem stats_lines_grow `{JsonLaws} `{FineSource Src Pc Lbl} `{!FineLaws Src Pc Lbl} `{KafkaLaws K}
  `{QueueLaws Queue MarketEvent} (s : Src) (u : KafkaEventProducer K) cap r fs tr st
  (f : fine_service Src Pc K Queue) (Hr : fine_runs (fine_begin s u cap r fs) tr st f) (Hs : fit s)
  (Hn : (Z.of_nat (length (delivered tr)) < two64)%Z) :
  (forall i j o o', i < j -> printed (svc f) !! i = Some o -> printed (svc f) !! j = Some o' ->
     line_le (numbers o) (numbers o')) /\
  (forall o, o ∈ printed (svc f) ->
     line_le (numbers o) [events_received_ (pipeline (pipe (svc f))); events_published_ (pipeline (pipe (svc f)));
       publish_failures_ (pipeline (pipe (svc f))); Z.of_nat (queue_mark (pqueue_ (pipeline (pipe (svc f)))));
       Z.of_nat cap] /\
     length (numbers o) = match o with StatsLine _ => 8 | FinalLine _ => 7 end).
Proof.
  destruct (runs_coarse s u cap r fs tr st f Hs Hr) as (_ & a & _ & Hc).
  destruct (lines_runs _ _ _ _ _ _ _ Hc Hn) as [Hbe Hso _ Hsh]. split; [exact Hso|].
  intros o Ho. split; [|exact (Hsh o Ho)].
  intros n v v' Hlt Hv Hv'. specialize (Hbe o Ho n).
  pose proof (inv_bound _ _ _ (fine_pipe_inv s u cap r fs tr st f Hs Hr)) as Hcap.
  do 5 (destruct n as [|n]; [injection Hv' as <-; specialize (Hbe _ v eq_refl Hv); cbn in Hbe; lia|]). lia.
Qed.

Lemma stats_lines_grow_witness : line_le [0; 1; 0; 1; 4; 1; 0; 0]%Z [1; 1; 0; 1; 4]%Z.
Proof.
  destruct (@stats_lines_grow tree_ops tree_laws _ _ _ (live_fine one_trade) (live_fine_laws one_trade)
    broker _ _ _ _ _ (LiveSource_new default_config) demo_producer 4 None ∅ _ _ _
    (torn_runs one_trade eq_refl) I ltac:(reflexivity)) as [_ Hl].
  destruct (Hl torn_line) as [Hle _]; [left|]. exact Hle.
Defined.

(** A statistics line is not the state of one moment.  [main] reads the number
    of events received first: a run in which an event goes through the whole
    pipeline between this read and the next prints a line with more events
    published than received. *)
Theorem stats_line_torn :
  exists tr st f, fine_runs (H := tree_ops) (H0 := @live_fine tree_ops one_trade)
      (live_begin one_trade None ∅) tr st f /\
    printed (svc f) = [torn_line] /\ numbers torn_line !! 0 = Some 0%Z /\ numbers torn_line !! 1 = Some 1%Z.
Proof. do 3 eexists. split; [exact (torn_runs one_trade eq_refl)|by split_and!]. Qed.

(** C13: the final line adds up.  When a service that built its own producer has
    returned, having received fewer than 2^64 events, its last line gives the
    numbers of events received, published and failed, the first the sum of the
    others, and of attempts that went either way; a high-water mark within the
    capacity; and deliveries confirmed and failed that are together no more than the
    events published. *)
Theorem final_line_adds_up `{JsonLaws} `{FineSource Src Pc Lbl} `{!FineLaws Src Pc Lbl} `{KafkaLaws K}
  `{QueueLaws Queue MarketEvent} (s : Src) config (u v : KafkaEventProducer K) cap r fs tr st
  (f : fine_service Src Pc K Queue) (Hu : KafkaEventProducer_new config = Ok u)
  (Hr : fine_runs (fine_begin s u cap r fs) tr st f) (Hs : fit s) (Hx : main (svc f) = Exited v)
  (Hn : (Z.of_nat (length (delivered tr)) < two64)%Z) :
  attempted tr = delivered tr /\
  exists mark succeeded failed, List.last (printed (svc f)) (StatsLine []) =
    FinalLine [Z.of_nat (length (delivered tr)); Z.of_nat (count is_published tr);
               Z.of_nat (count is_failure tr); Z.of_nat mark; Z.of_nat cap; succeeded; failed] /\
    length (delivered tr) = count is_published tr + count is_failure tr /\ mark <= cap /\
    (0 <= succeeded)%Z /\ (0 <= failed)%Z /\ (succeeded + failed <= Z.of_nat (count is_published tr))%Z.
Proof.
  destruct (fine_exit_sends s u v cap r fs tr st f Hs Hr Hx (proj1 (new_producer_ok _ _ Hu))) as [Ha _].
  destruct (runs_coarse s u cap r fs tr st f Hs Hr) as (_ & a & _ & Hc). split; [exact Ha|].
  exact (final_line Open u cap r fs config Hu tr (coarse a (svc f)) v Hc Hx Hn).
Qed.

Lemma final_line_adds_up_witness :
  exists mark succeeded failed, printed (svc (live_exited None ∅)) =
    [FinalLine [1; 1; 0; Z.of_nat mark; 4; succeeded; failed]]%Z /\ mark <= 4 /\ (succeeded + failed <= 1)%Z.
Proof.
  assert (Hu : @KafkaEventProducer_new broker _ {| brokers := "b"; topic := "t" |} = Ok demo_producer)
    by reflexivity.
  destruct (@final_line_adds_up tree_ops tree_laws _ _ _ (live_fine one_trade) (live_fine_laws one_trade)
    broker _ _ _ _ _ (LiveSource_new default_config) {| brokers := "b"; topic := "t" |} demo_producer
    (KafkaEventProducer_destroy live_flushed) 4 None ∅ _ _ _ Hu
    (live_runs_exited one_trade eq_refl None ∅ ∅ eq_refl) I ltac:(reflexivity) ltac:(reflexivity))
    as (_ & mark & succeeded & failed & Hl & _ & Hmark & _ & _ & Hle).
  exists mark, succeeded, failed. split; [|split; [exact Hmark|exact Hle]].
  exact (f_equal (fun o => [o]) Hl).
Defined.
