(* ===== verification/IngestionDemo.v ===== *)
(** * The ingestion demo

    src/ingestion_demo_main.cpp: a source read by one thread, which counts,
    records and samples the events, while [main] polls a flag that a signal or
    the end of the source sets, then stops the source and joins the thread. *)
From S2P Require Import Prelude CxxStrings CommandLine Config MarketEvent Json JsonTree.
From S2P Require Import MarketEventJson EventRecorder ReplaySource Interfaces LiveSource.
From S2P Require Import IngestionPipeline PipelineProgress PipelineReplay EventTypes.
From S2P Require Import Kafka KafkaProperties IngestionService.

(** ** Arguments *)

(** The argument loop from index [i] on: the paths of [--replay] and
    [--record]. *)
Fixpoint demo_arg_loop (fuel : nat) (argv : list string) (i : nat) (replay record : string)
    : option (string * string) :=
  if bool_decide (i < length argv) then
    match fuel with
    | 0 => None
    | S fuel =>
        let arg := arg_at argv i in
        let more := bool_decide (i + 1 < length argv) in
        if String.eqb arg "--replay" && more then
          demo_arg_loop fuel argv (i + 2) (arg_at argv (i + 1)) record
        else if String.eqb arg "--record" && more then
          demo_arg_loop fuel argv (i + 2) replay (arg_at argv (i + 1))
        else demo_arg_loop fuel argv (i + 1) replay record
    end
  else Some (replay, record).

Definition demo_args (argv : list string) : option (string * string) :=
  demo_arg_loop (length argv) argv 1 "" "".

(** ** The threads *)

(** Where the ingestion thread is. *)
Inductive ingestion_pc :=
  | NotCreated
  | InNext
  | Got (e : MarketEvent)       (* next returned true *)
  | Counted (e : MarketEvent)   (* ++event_count done *)
  | Written (e : MarketEvent)   (* recorded *)
  | LoopLeft                    (* next returned false *)
  | SettingFlag                 (* the farewell printed *)
  | ThreadOver.

(** Where [main] is. *)
Inductive demo_pc :=
  | CallStart | Polling | Sleeping_ | CallStop | Joining | Returned | Terminated.

Record demo (Src : Type) := Demo {
  demo_source : Src;
  event_count : Z;
  lines_printed : list (Z * MarketEvent);   (* the sampled lines *)
  farewell : option Z;                      (* the total, when the loop is over *)
  ingestion_thread : ingestion_pc;
  demo_main : demo_pc;
  g_shutdown_requested : bool;
  demo_disk : files
}.
Arguments Demo {Src} _ _ _ _ _ _ _ _.
Arguments demo_source {Src} _.
Arguments event_count {Src} _.
Arguments lines_printed {Src} _.
Arguments farewell {Src} _.
Arguments ingestion_thread {Src} _.
Arguments demo_main {Src} _.
Arguments g_shutdown_requested {Src} _.
Arguments demo_disk {Src} _.

Section Code.
Context `{JsonOps} `{MarketDataSource Src}.
Implicit Types (d : demo Src).

(** [recorder], null or not, does not change. *)
Context (recorder : option EventRecorder).

(** The thread; the events it receives label its steps. *)
Inductive ingestion_step : demo Src -> list MarketEvent -> demo Src -> Prop :=
  | got_event s n out bye m g fs e s' :
      source_next s (NextEvent e) s' ->
      ingestion_step (Demo s n out bye InNext m g fs) [e] (Demo s' n out bye (Got e) m g fs)
  | got_end s n out bye m g fs s' :
      source_next s NextEnd s' ->
      ingestion_step (Demo s n out bye InNext m g fs) [] (Demo s' n out bye LoopLeft m g fs)
  | count_event s n out bye m g fs e :
      ingestion_step (Demo s n out bye (Got e) m g fs) []
        (Demo s (wrap_u64 (n + 1)) out bye (Counted e) m g fs)
  | write_event s n out bye m g fs e fs' :
      record_opt recorder e fs = Ok fs' ->
      ingestion_step (Demo s n out bye (Counted e) m g fs) []
        (Demo s n out bye (Written e) m g fs')
  | sample_event s n out bye m g fs e :
      ingestion_step (Demo s n out bye (Written e) m g fs) []
        (Demo s n (if bool_decide (n mod 20 = 1)%Z then out ++ [(n, e)] else out) bye InNext m g fs)
  | say_farewell s n out bye m g fs :
      ingestion_step (Demo s n out bye LoopLeft m g fs) []
        (Demo s n out (Some n) SettingFlag m g fs)
  | set_flag s n out bye m g fs :
      ingestion_step (Demo s n out bye SettingFlag m g fs) []
        (Demo s n out bye ThreadOver m true fs).

Inductive demo_main_step : demo Src -> demo Src -> Prop :=
  | demo_start s n out bye g fs s' :
      source_start s s' (Ok tt) ->
      demo_main_step (Demo s n out bye NotCreated CallStart g fs)
        (Demo s' n out bye InNext Polling g fs)
  | demo_start_throws s n out bye g fs s' x :
      source_start s s' (Throw x) ->
      demo_main_step (Demo s n out bye NotCreated CallStart g fs)
        (Demo s' n out bye NotCreated Terminated g fs)
  | demo_poll s n out bye i g fs :
      demo_main_step (Demo s n out bye i Polling g fs)
        (Demo s n out bye i (if g then CallStop else Sleeping_) g fs)
  | demo_wake s n out bye i g fs :
      demo_main_step (Demo s n out bye i Sleeping_ g fs) (Demo s n out bye i Polling g fs)
  | demo_stop s n out bye i g fs :
      demo_main_step (Demo s n out bye i CallStop g fs)
        (Demo (source_stop s) n out bye i Joining g fs)
  | demo_join s n out bye g fs :
      demo_main_step (Demo s n out bye ThreadOver Joining g fs)
        (Demo s n out bye ThreadOver Returned g fs).

(** An exception in the thread: nothing catches it. *)
Inductive demo_aborts : demo Src -> Prop :=
  | demo_next_throws s n out bye m g fs x s' :
      source_next s (NextThrow x) s' -> demo_aborts (Demo s n out bye InNext m g fs)
  | demo_record_throws s n out bye m g fs e x :
      record_opt recorder e fs = Throw x -> demo_aborts (Demo s n out bye (Counted e) m g fs).

Definition running (m : demo_pc) : bool :=
  match m with Returned | Terminated => false | _ => true end.

Inductive demo_step : demo Src -> list MarketEvent -> demo Src -> Prop :=
  | demo_thread d es d' :
      running (demo_main d) = true -> ingestion_step d es d' -> demo_step d es d'
  | demo_of_main d d' : demo_main_step d d' -> demo_step d [] d'
  | demo_abort s n out bye i m g fs :
      running m = true -> demo_aborts (Demo s n out bye i m g fs) ->
      demo_step (Demo s n out bye i m g fs) [] (Demo s n out bye i Terminated g fs).

(** The signal handler. *)
Definition handleSignal_demo d : demo Src :=
  Demo (demo_source d) (event_count d) (lines_printed d) (farewell d) (ingestion_thread d)
    (demo_main d) true (demo_disk d).

Definition demo_moves : relation (demo Src) := fun d d' => exists es, demo_step d es d'.
Definition ingestion_moves : relation (demo Src) := fun d d' => exists es, ingestion_step d es d'.

Definition demo_begin (s : Src) (fs : files) : demo Src :=
  Demo s 0 [] None NotCreated CallStart false fs.

Inductive demo_runs (d0 : demo Src) : list MarketEvent -> demo Src -> Prop :=
  | demo_refl : demo_runs d0 [] d0
  | demo_run_step es d es' d' :
      demo_runs d0 es d -> demo_step d es' d' -> demo_runs d0 (es ++ es') d'
  | demo_signal es d : demo_runs d0 es d -> demo_runs d0 es (handleSignal_demo d).
End Code.

(** Its own [splitSymbols], and what [main] builds: the source and the recorder. *)
Definition demo_splitSymbols (csv : string) : list string :=
  fold_left (fun symbols item => if is_empty item then symbols else symbols ++ [item])
    (getlines comma csv) [].

Definition demo_source_of (environ : gmap string string) (replay : string)
    : ReplaySource + LiveSource :=
  if negb (is_empty replay) then inl (ReplaySource_new replay)
  else inr (LiveSource_new
    {| host := host default_config; port := port default_config;
       symbols := demo_splitSymbols (getEnvOr environ "TICKFORGE_SYMBOLS" "btcusdt,ethusdt");
       initial_backoff := initial_backoff default_config;
       max_backoff := max_backoff default_config |}).

Definition demo_setup `{JsonOps} (environ : gmap string string) (openable : string -> bool)
    (argv : list string) (fs : files)
    : option (outcome ((ReplaySource + LiveSource) * option EventRecorder * files)) :=
  '(replay, record) ← demo_args argv;
  let source := demo_source_of environ replay in
  Some ('(recorder, fs) ← make_recorder openable record fs; Ok (source, recorder, fs)).

(** ** Lemmas *)

(** The two programs' sources are the same. *)
Lemma demo_splitSymbols_same csv : demo_splitSymbols csv = splitSymbols csv.
Proof.
  unfold demo_splitSymbols, splitSymbols.
  enough (E : forall items symbols, fold_left (fun symbols item => if is_empty item then symbols
      else symbols ++ [item]) items symbols = push_nonempty items symbols) by apply E.
  induction items as [|item items IH]; intros symbols; cbn; [done|apply IH].
Qed.

Lemma demo_source_same environ replay : demo_source_of environ replay = make_source environ replay.
Proof. unfold demo_source_of. by rewrite demo_splitSymbols_same. Qed.

(** The two argument loops agree where the demo has no option less. *)
Lemma demo_arg_loop_same fuel : forall argv i o,
  "--queue-capacity"%string ∉ argv ->
  arg_loop fuel argv i o =
    (fun rr : string * string => Ok {| replay_path := rr.1; record_path := rr.2;
                                       queue_capacity_arg := queue_capacity_arg o |}) <$>
    demo_arg_loop fuel argv i (replay_path o) (record_path o).
Proof.
  induction fuel as [|fuel IH]; intros argv i o Hn; cbn [arg_loop demo_arg_loop];
    (case_bool_decide as Hi; [|by destruct o]); [done|].
  destruct (lookup_lt_is_Some_2 argv i Hi) as [arg Ha].
  assert (Hq : String.eqb (arg_at argv i) "--queue-capacity" = false).
  { apply String.eqb_neq. unfold arg_at. rewrite Ha. cbn. intros E.
    apply Hn. rewrite <-E. by eapply list_elem_of_lookup_2. }
  rewrite Hq. cbn [andb]. destruct (_ && _); [by rewrite IH|].
  destruct (_ && _); by rewrite IH.
Qed.

(** Events with the numbers they are printed with. *)
Fixpoint numbered (n : Z) (es : list MarketEvent) : list (Z * MarketEvent) :=
  match es with
  | [] => []
  | e :: es => let n := wrap_u64 (n + 1) in (n, e) :: numbered n es
  end.

Lemma numbered_snoc es e : forall n,
  numbered n (es ++ [e]) = numbered n es ++ [(wrap_u64 (n + Z.of_nat (length es) + 1), e)].
Proof.
  induction es as [|e' es IH]; intros n; cbn [app numbered length].
  - cbn. by rewrite Z.add_0_r.
  - rewrite IH. cbn [app]. do 4 f_equal. rewrite <-!Z.add_assoc, wrap_u64_add_l. f_equal. lia.
Qed.

Lemma numbered_length es : forall n, length (numbered n es) = length es.
Proof. induction es as [|e es IH]; intros n; cbn; [done|]. by rewrite IH. Qed.

(** The lines after one event more. *)
Lemma sampled_numbered_snoc es e :
  sampled 0 (numbered 0 (es ++ [e])) =
    sampled 0 (numbered 0 es) ++
    (if bool_decide (wrap_u64 (Z.of_nat (length es) + 1) mod 20 = 1)%Z
     then [(wrap_u64 (Z.of_nat (length es) + 1), e)] else []).
Proof.
  rewrite numbered_snoc, sampled_app, numbered_length. f_equal.
  cbn [sampled]. rewrite !Z.add_0_l, wrap_u64_add_l. by case_bool_decide.
Qed.

Section Lemmas.
Context `{JsonOps} `{MarketDataSource Src}.
Implicit Types (d : demo Src).
Context (recorder : option EventRecorder) (s0 : Src) (fs0 : files).

Abbreviation begin := (demo_begin s0 fs0).

(** The event the thread holds; how far it is with it. *)
Definition in_hand (i : ingestion_pc) : list MarketEvent :=
  match i with Got e | Counted e | Written e => [e] | _ => [] end.
Definition is_counted (i : ingestion_pc) : Z :=
  match i with Counted _ | Written _ => 1 | _ => 0 end.
Definition is_written (i : ingestion_pc) : list MarketEvent :=
  match i with Written e => [e] | _ => [] end.

Definition recorded_as (es : list MarketEvent) (fs : files) : Prop :=
  match recorder with Some r => record_all r es fs0 = Ok fs | None => fs = fs0 end.

Record demo_inv (es : list MarketEvent) d : Prop := {
  di_done : exists handled, es = handled ++ in_hand (ingestion_thread d) /\
    event_count d = wrap_u64 (Z.of_nat (length handled) + is_counted (ingestion_thread d)) /\
    lines_printed d = sampled 0 (numbered 0 handled) /\
    recorded_as (handled ++ is_written (ingestion_thread d)) (demo_disk d);
  di_farewell : match ingestion_thread d with
    | SettingFlag | ThreadOver => farewell d = Some (event_count d)
    | _ => True
    end;
  di_flag : ingestion_thread d = ThreadOver -> g_shutdown_requested d = true;
  di_main : match demo_main d with
    | CallStart => ingestion_thread d = NotCreated
    | Returned => ingestion_thread d = ThreadOver
    | Terminated => True
    | _ => ingestion_thread d <> NotCreated
    end
}.

Lemma recorded_snoc_as es e fs fs' :
  recorded_as es fs -> record_opt recorder e fs = Ok fs' -> recorded_as (es ++ [e]) fs'.
Proof.
  unfold recorded_as, record_opt. destruct recorder as [r|]; [|by intros -> [= <-]].
  intros Hr Hw. by rewrite record_all_snoc, Hr.
Qed.

Lemma demo_inv_thread es d es' d' :
  demo_inv es d -> ingestion_step recorder d es' d' -> running (demo_main d) = true ->
  demo_inv (es ++ es') d'.
Proof.
  intros [(handled & -> & Hn & Hl & Hd) Hb Hf Hm] Hs Hr.
  destruct Hs as [s n out bye m g fs e s' Hx|s n out bye m g fs s' Hx|s n out bye m g fs e
    |s n out bye m g fs e fs' Hx|s n out bye m g fs e|s n out bye m g fs|s n out bye m g fs];
    cbn in *; rewrite ?app_nil_r, ?Z.add_0_r in *;
    (split; cbn; rewrite ?app_nil_r; [|done|done|by destruct m]).
  - exists handled. by rewrite app_nil_r, Z.add_0_r.
  - exists handled. by rewrite ?app_nil_r, Z.add_0_r.
  - exists handled. rewrite app_nil_r, Hn, wrap_u64_add_l. done.
  - exists handled. split_and!; try done. by eapply recorded_snoc_as.
  - exists (handled ++ [e]). rewrite !app_nil_r, Z.add_0_r, length_app, Nat2Z.inj_add.
    split_and!; try done. rewrite sampled_numbered_snoc, <-Hn, <-Hl.
    case_bool_decide; by rewrite ?app_nil_r.
  - exists handled. by rewrite ?app_nil_r, Z.add_0_r.
  - exists handled. by rewrite ?app_nil_r, Z.add_0_r.
Qed.

Lemma demo_inv_main es d d' : demo_inv es d -> demo_main_step d d' -> demo_inv es d'.
Proof.
  intros [Hdone Hb Hf Hm] Hs. destruct Hs as [s n out bye g fs s' Hx|s n out bye g fs s' x Hx
    |s n out bye i g fs|s n out bye i g fs|s n out bye i g fs|s n out bye g fs]; cbn in *;
    split; cbn; try done.
  by destruct g.
Qed.

Lemma demo_inv_runs es d : demo_runs recorder begin es d -> demo_inv es d.
Proof.
  intros Hr. induction Hr as [|es d es' d' _ IH Hs|es d _ [Hdone Hb Hf Hm]].
  - split; cbn; try done. exists []. split_and!; try done.
    unfold recorded_as. by destruct recorder.
  - destruct Hs as [d es' d' Hrun Hs|d d' Hs|s n out bye i m g fs Hrun Ha]; rewrite ?app_nil_r.
    + by eapply demo_inv_thread.
    + by eapply demo_inv_main.
    + destruct IH as [Hdone Hb Hf Hm]. by split.
  - split; cbn; try done.
Qed.
End Lemmas.

(** *** What will happen *)
Section Progress.
Context `{JsonOps} `{MarketDataSource Src}.
Implicit Types (d : demo Src).
Context (recorder : option EventRecorder).

(** What the recorder needs of an event. *)
Definition recordable_by (e : MarketEvent) : Prop :=
  forall fs, exists fs', record_opt recorder e fs = Ok fs'.

Definition thread_weight (i : ingestion_pc) : nat :=
  match i with
  | NotCreated | ThreadOver => 0 | SettingFlag => 1 | LoopLeft => 2 | InNext => 3
  | Written _ => 4 | Counted _ => 5 | Got _ => 6
  end.

(** The thread may still ask the source. *)
Definition asks (i : ingestion_pc) : bool :=
  match i with Got _ | Counted _ | Written _ | InNext => true | _ => false end.

Definition hand_ok (ok : MarketEvent -> Prop) d : Prop :=
  Forall ok (in_hand (ingestion_thread d)) /\
  (asks (ingestion_thread d) = true -> ends ok (demo_source d)).

(** A step receives an event, or leaves the thread less to do. *)
Lemma ingestion_step_work ok d es d' :
  hand_ok ok d -> ingestion_step recorder d es d' ->
  hand_ok ok d' /\ demo_main d' = demo_main d /\
  ((exists e, ingestion_thread d = InNext /\
      source_next (demo_source d) (NextEvent e) (demo_source d')) \/
   (thread_weight (ingestion_thread d') < thread_weight (ingestion_thread d) /\
    (asks (ingestion_thread d') = true -> demo_source d' = demo_source d))).
Proof.
  intros [Hh He] Hs. unfold hand_ok.
  destruct Hs as [s n out bye m g fs e s' Hx|s n out bye m g fs s' Hx|s n out bye m g fs e
    |s n out bye m g fs e fs' Hx|s n out bye m g fs e|s n out bye m g fs|s n out bye m g fs];
    cbn in *; try (specialize (He eq_refl)).
  1: { destruct He as [_ _ Hok Hn]. split; [split; [apply Forall_singleton|]; eauto|].
       split; [done|]. left. eauto. }
  all: split; [split; [try done; by constructor|done]|]; (split; [done|]); right; split; [lia|done].
Qed.

(** A source that has an end, has one for the thread. *)
Lemma thread_sn ok s : ends ok s -> forall n d,
  thread_weight (ingestion_thread d) = n -> hand_ok ok d ->
  (asks (ingestion_thread d) = true -> demo_source d = s) -> sn (ingestion_moves recorder) d.
Proof.
  induction 1 as [s _ _ _ _ IHs]. intros n. induction (lt_wf n) as [n _ IHn].
  intros d Hn Hok Hsrc. constructor. intros d' [es Hs].
  destruct (ingestion_step_work ok d es d' Hok Hs) as (Hok' & _ & [(e & Hi & Hx)|[Hw Hk]]).
  - rewrite Hsrc in Hx by (by rewrite Hi). by eapply IHs.
  - subst n. eapply IHn; [exact Hw|done|exact Hok'|]. intros Ha. rewrite (Hk Ha). apply Hsrc.
    clear -Ha Hs. by destruct Hs.
Qed.

Lemma hand_sn ok d : hand_ok ok d -> sn (ingestion_moves recorder) d.
Proof.
  intros Hok. destruct (asks (ingestion_thread d)) eqn:Ha.
  - eapply thread_sn; [exact (proj2 Hok Ha)|done|exact Hok|done].
  - apply (measure_sn _ (fun d => asks (ingestion_thread d) = false)
      (fun d => thread_weight (ingestion_thread d))); [done|].
    intros d1 d2 Hd [es Hs]. destruct Hs; cbn in *; try done; split; try done; lia.
Qed.

(** The thread dies of nothing, and goes on until it is over. *)
Lemma hand_goes_on ok d :
  (forall e, ok e -> recordable_by e) -> hand_ok ok d -> ingestion_thread d <> NotCreated ->
  ~ demo_aborts recorder d /\
  (nf (ingestion_moves recorder) d -> ingestion_thread d = ThreadOver).
Proof.
  intros Hrec [Hh He] Hne. split.
  - intros Ha. destruct Ha as [s n out bye m g fs x s' Hx|s n out bye m g fs e x Hx]; cbn in *.
    + destruct (He eq_refl) as [_ Ht _ _]. by eapply Ht.
    + apply Forall_inv in Hh. destruct (Hrec e Hh fs) as [fs' Hw]. congruence.
  - intros Hnf. destruct d as [s n out bye i m g fs]. cbn in *.
    assert (Hs : forall es d', ingestion_step recorder (Demo s n out bye i m g fs) es d' -> False).
    { intros es d' Hs. apply Hnf. by exists d', es. }
    destruct i as [| |e|e|e| | |]; try done; exfalso; try (eapply Hs; by constructor).
    + destruct (He eq_refl) as [(r & s' & Hx) Ht _ _].
      destruct r as [e| |x]; [eapply Hs; by constructor..|by eapply Ht].
    + apply Forall_inv in Hh. destruct (Hrec e Hh fs) as [fs' Hw]. eapply Hs. by constructor.
Qed.
End Progress.

Section Stop.
Context `{JsonOps} `{MarketDataSource Src}.
Implicit Types (d : demo Src).
Context (recorder : option EventRecorder) (s0 : Src) (fs0 : files).

(** [main] has called [stop()]. *)
Definition stop_called (m : demo_pc) : bool :=
  match m with Joining | Returned => true | _ => false end.

Lemma stopped_source (ok : MarketEvent -> Prop) es d :
  (forall s : Src, ends ok (source_stop s)) ->
  demo_runs recorder (demo_begin s0 fs0) es d -> stop_called (demo_main d) = true ->
  asks (ingestion_thread d) = true -> ends ok (demo_source d).
Proof.
  intros Hstop Hr. induction Hr as [|es d es' d' _ IH Hs|es d _ IH]; [done| |exact IH].
  destruct Hs as [d es' d' Hrun Hs|d d' Hs|s n out bye i m g fs Hrun Ha]; [..|done].
  - destruct Hs; cbn in *; try discriminate; try (intros Hm _; exact (IH Hm eq_refl)).
    intros Hm _. destruct (IH Hm eq_refl) as [_ _ _ Hn]. eauto.
  - destruct Hs as [| |s n out bye i g fs|s n out bye i g fs|s n out bye i g fs|];
      cbn in *; try discriminate; [by destruct g|]. intros _ _. apply Hstop.
Qed.

(** What is kept once [main] joins. *)
Definition joining ok d : Prop :=
  hand_ok ok d /\ stop_called (demo_main d) = true /\ ingestion_thread d <> NotCreated /\
  (demo_main d = Returned -> ingestion_thread d = ThreadOver).

Definition join_rank d : nat := match demo_main d with Joining => 1 | _ => 0 end.

Lemma joining_step ok d es d' :
  (forall e, ok e -> recordable_by recorder e) ->
  joining ok d -> demo_step recorder d es d' ->
  joining ok d' /\ (join_rank d' < join_rank d \/
    join_rank d' <= join_rank d /\ ingestion_moves recorder d d').
Proof.
  intros Hrec (Hh & Hm & Hne & Hret) Hs.
  destruct Hs as [d es d' Hrun Hs|d d' Hs|s n out bye i m g fs Hrun Ha].
  - destruct (ingestion_step_work recorder ok d es d' Hh Hs) as (Hh' & Em & _).
    assert (Hmv : ingestion_moves recorder d d') by (by exists es).
    unfold joining, join_rank. rewrite Em. split; [|auto].
    split; [done|]. split; [done|]. split; [by destruct Hs|].
    intros Hr. rewrite Hr in Hrun. done.
  - destruct Hs; cbn in *; try done. split; [|left; cbn; lia]. by split_and!.
  - destruct (hand_goes_on recorder ok _ Hrec Hh Hne) as [Hna _]. done.
Qed.
End Stop.

(** What a typed source hands out can be recorded. *)
Section Recordable.
Context `{TypedSource Src}.

Lemma printable_recordable recorder e : printable e -> recordable_by recorder e.
Proof. intros He fs. by apply (record_opt_ok printable). Qed.

Lemma demo_printable recorder s0 fs0 es (d : demo Src) :
  demo_runs recorder (demo_begin s0 fs0) es d -> Forall printable es.
Proof.
  induction 1 as [|es d es' d' _ IH Hs|]; [constructor| |done].
  apply Forall_app. split; [exact IH|].
  destruct Hs as [d es' d' _ Hs| |]; [|constructor..]. destruct Hs; try constructor; [|constructor].
  by eapply typed_printable, next_typed.
Qed.
End Recordable.

(** *** A run of the demo: one event, then the end of the file *)

Definition demo_polling : demo ReplaySource :=
  Demo at_line 0 [] None InNext Polling false ∅.
Definition demo_joining : demo ReplaySource :=
  Demo (ReplaySource.stop at_end) 1 [(1%Z, replayedEvent)] (Some 1%Z) ThreadOver Joining true ∅.
Definition demo_returned : demo ReplaySource :=
  Demo (ReplaySource.stop at_end) 1 [(1%Z, replayedEvent)] (Some 1%Z) ThreadOver Returned true ∅.

Abbreviation one_demo_runs := (@demo_runs tree_ops _ (replay_source one_file) None
  (demo_begin (ReplaySource_new "a.jsonl") ∅)).

Tactic Notation "demo_by" hyp(E) uconstr(rule) :=
  eapply demo_run_step in E; [|apply demo_thread; [reflexivity|eapply rule; try reflexivity]].
Tactic Notation "demo_main_by" hyp(E) uconstr(rule) :=
  eapply demo_run_step in E; [|apply demo_of_main; eapply rule; try reflexivity].

Lemma demo_runs_polling : one_demo_runs [] demo_polling.
Proof.
  pose proof (@demo_refl tree_ops _ (replay_source one_file) None
    (demo_begin (ReplaySource_new "a.jsonl") ∅)) as E.
  demo_main_by E demo_start. exact E.
Qed.

Lemma demo_runs_joining : one_demo_runs [replayedEvent] demo_joining.
Proof.
  pose proof demo_runs_polling as E. demo_main_by E demo_poll. demo_main_by E demo_wake.
  eapply demo_run_step in E; [|apply demo_thread; [reflexivity|eapply got_event, next_line]].
  demo_by E count_event. demo_by E write_event. demo_by E sample_event.
  eapply demo_run_step in E; [|apply demo_thread; [reflexivity|eapply got_end, next_end]].
  demo_by E say_farewell. demo_by E set_flag.
  demo_main_by E demo_poll. demo_main_by E demo_stop. exact E.
Qed.

Lemma demo_runs_returned : one_demo_runs [replayedEvent] demo_returned.
Proof. pose proof demo_runs_joining as E. demo_main_by E demo_join. exact E. Qed.

Lemma numbered_lookup es : forall n i,
  (0 <= n)%Z -> (n + Z.of_nat (length es) < two64)%Z ->
  numbered n es !! i = (fun e => (n + Z.of_nat (S i), e))%Z <$> es !! i.
Proof.
  induction es as [|e es IH]; intros n i Hn Hl; [done|]. cbn [numbered length] in *.
  rewrite wrap_u64_id by (unfold in_u64; lia). destruct i as [|i]; [done|].
  change ((numbered (n + 1) es) !! i = (fun e => (n + Z.of_nat (S (S i)), e))%Z <$> es !! i).
  rewrite IH by lia. destruct (es !! i); [|done]. cbn. do 2 f_equal. lia.
Qed.

(** What a run that has returned has done. *)
Lemma report_of_run `{JsonOps} `{MarketDataSource Src} recorder (s : Src) fs es (d : demo Src)
  (Hr : demo_runs recorder (demo_begin s fs) es d) (Hm : demo_main d = Returned)
  (Hn : (Z.of_nat (length es) < two64)%Z) :
  ingestion_thread d = ThreadOver /\ farewell d = Some (Z.of_nat (length es)) /\
  match recorder with
  | Some r => record_all r es fs = Ok (demo_disk d)
  | None => demo_disk d = fs
  end /\
  forall k, lines_printed d !! k =
    (fun e => (Z.of_nat (20 * k + 1), e)) <$> es !! (20 * k).
Proof.
  apply demo_inv_runs in Hr as [(handled & E & Hc & Hl & Hd) Hb _ Hmain]. rewrite Hm in Hmain.
  rewrite Hmain in *. cbn [in_hand is_counted is_written] in *. rewrite app_nil_r in *. subst handled.
  rewrite Z.add_0_r, wrap_u64_id in Hc by (unfold in_u64; lia).
  split; [done|]. split; [by rewrite Hb, Hc|]. split; [exact Hd|]. intros k.
  rewrite Hl, sampled_lookup, numbered_lookup by (rewrite ?numbered_length; lia).
  replace (Z.of_nat (20 * k + 1)) with (0 + Z.of_nat (S (20 * k)))%Z by lia. done.
Qed.

(** Once [main] joins, over a source that comes to its end when it is stopped. *)
Lemma demo_ends `{TypedSource Src} recorder (s : Src) fs es (d : demo Src)
  (Hstop : forall s : Src, ends printable (source_stop s))
  (Hr : demo_runs recorder (demo_begin s fs) es d) (Hm : demo_main d = Joining) :
  sn (demo_moves recorder) d /\
  forall d', rtc (demo_moves recorder) d d' ->
    demo_main d' <> Terminated /\ (nf (demo_moves recorder) d' -> demo_main d' = Returned).
Proof.
  pose proof (demo_inv_runs recorder s fs es d Hr) as [(handled & E & _) _ _ Hmain].
  rewrite Hm in Hmain. pose proof (demo_printable recorder s fs es d Hr) as Hes.
  assert (Hj : joining printable d).
  { split; [split|].
    - rewrite E in Hes. by apply Forall_app in Hes as [_ ?].
    - intros Ha. eapply stopped_source; [exact Hstop|exact Hr|by rewrite Hm|done].
    - rewrite Hm. by split_and!. }
  pose proof (fun d1 es' d2 => joining_step recorder printable d1 es' d2
    (printable_recordable recorder)) as Hstep. split.
  - apply (lex_sn _ (ingestion_moves recorder) id (joining printable) join_rank);
      [done|intros d1 [Hh _]; by eapply hand_sn|].
    intros d1 d2 H1' [es' Hs]. by eapply Hstep.
  - intros d' Hrt. assert (Hj' : joining printable d').
    { revert Hrt. apply rtc_invariant; [done|]. intros d1 d2 H1' [es' Hs].
      by apply (Hstep d1 es' d2). }
    destruct Hj' as (Hh & Hst & Hne & _). split; [by destruct (demo_main d')|]. intros Hnf.
    destruct (hand_goes_on recorder printable d' (printable_recordable recorder) Hh Hne) as [_ Hover].
    destruct d' as [s' n out bye i m g fs']. cbn in *. destruct m; try done. exfalso.
    assert (Hi : i = ThreadOver).
    { apply Hover. intros [d'' [es' Hs]]. apply Hnf. exists d'', es'. by constructor. }
    subst i. apply Hnf. do 2 eexists. apply demo_of_main. constructor.
Qed.

(** ** Properties *)

(** What the demo has done when it returns.  The thread is over and the
    total it said goodbye with is the number of events received (modulo 2^64);
    the capture file is what recording them in order makes it; and the k-th
    line printed, from 0, is about the event number 20 k + 1, with its number. *)
Theorem demo_report `{JsonOps} `{MarketDataSource Src} recorder (s : Src) fs es (d : demo Src)
  (Hr : demo_runs recorder (demo_begin s fs) es d) (Hm : demo_main d = Returned)
  (Hn : (Z.of_nat (length es) < two64)%Z) :
  ingestion_thread d = ThreadOver /\ farewell d = Some (Z.of_nat (length es)) /\
  match recorder with
  | Some r => record_all r es fs = Ok (demo_disk d)
  | None => demo_disk d = fs
  end /\
  forall k, lines_printed d !! k =
    (fun e => (Z.of_nat (20 * k + 1), e)) <$> es !! (20 * k).
Proof. exact (report_of_run recorder s fs es d Hr Hm Hn). Qed.

Lemma demo_report_witness :
  farewell demo_returned = Some 1%Z /\
  lines_printed demo_returned !! 0 = Some (1%Z, replayedEvent).
Proof.
  destruct (@demo_report tree_ops _ (replay_source one_file) None (ReplaySource_new "a.jsonl") ∅
    [replayedEvent] demo_returned demo_runs_returned) as (_ & Hf & _ & Hl).
  - reflexivity.
  - reflexivity.
  - split; [exact Hf|exact (Hl 0)].
Defined.

(** The demo ends.  Once [main] has called [stop()] on a source that hands
    out typed events: [main] and the thread make finitely many steps, the
    process does not die of an exception, and where nothing moves any more
    [main] has returned. *)
Theorem demo_shutdown `{TypedSource Src} `{!SourceLaws Src printable} recorder (s : Src) fs es (d : demo Src)
  (Hr : demo_runs recorder (demo_begin s fs) es d) (Hm : demo_main d = Joining) :
  sn (demo_moves recorder) d /\
  forall d', rtc (demo_moves recorder) d d' ->
    demo_main d' <> Terminated /\ (nf (demo_moves recorder) d' -> demo_main d' = Returned).
Proof. exact (demo_ends recorder s fs es d stop_ends Hr Hm). Qed.

Lemma demo_shutdown_witness :
  sn (@demo_moves tree_ops _ (replay_source one_file) None) demo_joining.
Proof.
  apply (@demo_shutdown tree_ops tree_laws ReplaySource (replay_source one_file) (replay_typed one_file) (replay_laws one_file printable) None
    (ReplaySource_new "a.jsonl") ∅ [replayedEvent] demo_joining demo_runs_joining).
  reflexivity.
Defined.

(** A replay needs no signal.  From any state in which the thread runs on
    a source that hands out typed events and has an end, the thread
    makes finitely many steps and dies of nothing, and when it is over the flag
    is set, so that [main] leaves its loop at the next test. *)
Theorem demo_end_of_source `{TypedSource Src} recorder (s : Src) fs es (d : demo Src)
  (Hr : demo_runs recorder (demo_begin s fs) es d)
  (Hm : demo_main d = Polling \/ demo_main d = Sleeping_)
  ok (Hend : ends ok (demo_source d)) :
  sn (ingestion_moves recorder) d /\
  forall d', rtc (ingestion_moves recorder) d d' ->
    ~ demo_aborts recorder d' /\
    (nf (ingestion_moves recorder) d' -> g_shutdown_requested d' = true) .
Proof.
  pose proof (demo_inv_runs recorder s fs es d Hr) as Hinv. apply ends_typed in Hend.
  pose proof (demo_printable recorder s fs es d Hr) as Hes.
  pose proof Hinv as [(handled & E & _) _ _ Hmain].
  assert (Hne : ingestion_thread d <> NotCreated) by (destruct Hm as [Hm|Hm]; by rewrite Hm in Hmain).
  assert (Hrun : running (demo_main d) = true) by (destruct Hm as [->| ->]; done).
  assert (Hh : hand_ok printable d).
  { split; [|done]. rewrite E in Hes. by apply Forall_app in Hes as [_ ?]. }
  split; [by eapply hand_sn|]. intros d' Hrt.
  assert (Hd' : (exists es', demo_inv recorder fs es' d') /\ hand_ok printable d' /\
    ingestion_thread d' <> NotCreated /\ running (demo_main d') = true).
  { revert Hrt. apply (rtc_invariant _ (fun d' => (exists es', demo_inv recorder fs es' d') /\
      hand_ok printable d' /\ ingestion_thread d' <> NotCreated /\
      running (demo_main d') = true)); [by eauto|].
    intros d1 d2 ([es1 Hi1] & Hh1 & Hn1 & Hr1) [es2 Hs].
    destruct (ingestion_step_work recorder _ d1 es2 d2 Hh1 Hs) as (Hh2 & Em & _).
    split; [eexists; by eapply demo_inv_thread|]. split; [done|].
    split; [clear -Hs; by destruct Hs|by rewrite Em]. }
  destruct Hd' as ([es' Hi'] & Hh' & Hn' & _).
  destruct (hand_goes_on recorder printable d' (printable_recordable recorder) Hh' Hn') as [Hna Hover].
  split; [done|]. intros Hnf. apply (di_flag _ _ _ _ Hi'). auto.
Qed.

Lemma demo_end_of_source_witness :
  sn (@ingestion_moves tree_ops _ (replay_source one_file) None) demo_polling.
Proof.
  apply (@demo_end_of_source tree_ops tree_laws ReplaySource (replay_source one_file)
    (replay_typed one_file) None (ReplaySource_new "a.jsonl") ∅ [] demo_polling demo_runs_polling
    (or_introl eq_refl) (fun _ => True)).
  assert (Hl : getlines newline one_line = [sampleLine]) by (vm_compute; reflexivity).
  apply (reading_ends one_file (fun _ => True) 1 at_line one_line);
    rewrite ?Hl; [reflexivity|split; reflexivity|split; [discriminate|reflexivity]|..]; [|done].
  constructor; [vm_compute; reflexivity|constructor].
Defined.

(** The demo is the service without Kafka.  On a command line without
    [--queue-capacity], the ingestion service builds a producer and then what
    the demo builds — the same source, recorder and capture file, or the same
    exception — and a queue of 1024 places. *)
Theorem demo_setup_same `{JsonOps} `{KafkaLaws K} environ openable argv fs
  (Hq : "--queue-capacity"%string ∉ argv) :
  exists d, demo_setup environ openable argv fs = Some d /\
    ingestion_setup (K := K) environ openable argv fs =
    Some (publisher ← KafkaEventProducer_new (kafka_config environ);
          '(source, recorder, fs') ← d;
          Ok {| built_source := source; built_publisher := publisher; built_capacity := 1024;
                built_recorder := recorder; built_files := fs' |}).
Proof.
  unfold demo_setup, ingestion_setup, demo_args.
  pose proof (demo_arg_loop_same (length argv) argv 1 default_options Hq) as E.
  change (arg_loop (length argv) argv 1 default_options) with (parse_args argv) in E.
  change (replay_path default_options) with ""%string in E.
  change (record_path default_options) with ""%string in E.
  destruct (demo_arg_loop _ _ _ _ _) as [[replay record]|].
  - cbn [fmap option_fmap option_map fst snd queue_capacity_arg default_options] in E. rewrite E.
    eexists. split; [reflexivity|]. cbn. f_equal.
    destruct (KafkaEventProducer_new _); [|done]. cbn.
    destruct (make_recorder _ _ _) as [[r fs']|x]; [|done]. cbn. by rewrite <-demo_source_same.
  - unfold parse_args in E. by rewrite arg_loop_settle in E by lia.
Qed.

Lemma demo_setup_same_witness :
  exists p, ingestion_setup (K := broker) ∅ (fun _ => true) ["demo"; "--replay"; "a.jsonl"]%string ∅ =
    Some (Ok {| built_source := inl (ReplaySource_new "a.jsonl"); built_publisher := p;
                built_capacity := 1024; built_recorder := None; built_files := ∅ |}).
Proof.
  destruct (@demo_setup_same tree_ops broker _ _ ∅ (fun _ => true)
    ["demo"; "--replay"; "a.jsonl"]%string ∅) as (d & Hd & ->).
  - rewrite !not_elem_of_cons. split_and!; try discriminate. apply not_elem_of_nil.
  - vm_compute in Hd. injection Hd as <-. eexists. vm_compute. reflexivity.
Defined.
