(* ===== verification/FineDemo.v ===== *)
(** * The ingestion demo, with stop() inside next()

    src/ingestion_demo_main.cpp over a source whose [next] is not one step: the
    ingestion thread is at a place inside [source->next(event)] while [main] is
    between the two halves of [source->stop()].  Every run is, at the coarser
    grain, a run of [IngestionDemo] over [any_source]. *)
From S2P Require Import Prelude CxxStrings MarketEvent Json JsonTree MarketEventJson EventRecorder.
From S2P Require Import Interfaces IngestionPipeline PipelineProgress EventTypes FineSource IngestionDemo.

(** ** The code *)

(** [demo_place] is where the thread is in [next]; [demo_halfway] says that
    [main] has performed the first half of [stop()]. *)
Record fine_demo (Src Pc : Type) := FineD {
  dem : demo Src;
  demo_place : Pc;
  demo_halfway : bool
}.
Arguments FineD {Src Pc} _ _ _.
Arguments dem {Src Pc} _.
Arguments demo_place {Src Pc} _.
Arguments demo_halfway {Src Pc} _.

(** For the steps that are not [next]'s, nor [stop()]'s. *)
#[local] Instance next_apart `{FineSource Src Pc Lbl} : MarketDataSource Src | 0 := {
  source_start := fine_start;
  source_stop := fine_close;
  source_next := fun _ _ _ => False
}.

Section Code.
Context `{JsonOps} `{FineSource Src Pc Lbl}.
Implicit Types (d : demo Src) (f : fine_demo Src Pc).
Context (recorder : option EventRecorder).

(** The demo with another source, or another place of the thread. *)
Definition from_source {Src'} (s : Src') (d : demo Src) : demo Src' :=
  Demo s (event_count d) (lines_printed d) (farewell d) (ingestion_thread d) (demo_main d)
    (g_shutdown_requested d) (demo_disk d).
Definition thread_at (i : ingestion_pc) d : demo Src :=
  Demo (demo_source d) (event_count d) (lines_printed d) (farewell d) i (demo_main d)
    (g_shutdown_requested d) (demo_disk d).
Definition terminate d : demo Src :=
  Demo (demo_source d) (event_count d) (lines_printed d) (farewell d) (ingestion_thread d) Terminated
    (g_shutdown_requested d) (demo_disk d).

(** The thread is at source->next(event). *)
Definition calling d : Prop := running (demo_main d) = true /\ ingestion_thread d = InNext.

Inductive fine_demo_step :
    fine_demo Src Pc -> list MarketEvent -> list (source_event Lbl) -> fine_demo Src Pc -> Prop :=
  | fdemo_call d h : calling d ->
      fine_demo_step (FineD d outside h) [] [SourceCall] (FineD d entry h)
  | fdemo_inner d q h l s' q' : calling d -> fine_step (demo_source d) q l s' q' ->
      fine_demo_step (FineD d q h) [] [SourceInner l] (FineD (from_source s' d) q' h)
  | fdemo_gives d q h l e s' : calling d -> fine_return (demo_source d) q l (NextEvent e) s' ->
      fine_demo_step (FineD d q h) [e] [SourceInner l]
        (FineD (thread_at (Got e) (from_source s' d)) outside h)
  | fdemo_ends d q h l s' : calling d -> fine_return (demo_source d) q l NextEnd s' ->
      fine_demo_step (FineD d q h) [] [SourceInner l]
        (FineD (thread_at LoopLeft (from_source s' d)) outside h)
  | fdemo_throws d q h l x s' : calling d -> fine_return (demo_source d) q l (NextThrow x) s' ->
      fine_demo_step (FineD d q h) [] [SourceInner l]
        (FineD (terminate (from_source s' d)) outside h)
  (* the other steps of the thread, and its death *)
  | fdemo_thread d es d' q h : running (demo_main d) = true -> ingestion_step recorder d es d' ->
      fine_demo_step (FineD d q h) es [] (FineD d' q h)
  | fdemo_abort d q h : running (demo_main d) = true -> demo_aborts recorder d ->
      fine_demo_step (FineD d q h) [] [] (FineD (terminate d) q h)
  (* main: the first half of stop(), the second, the rest *)
  | fdemo_flag d q : demo_main d = CallStop ->
      fine_demo_step (FineD d q false) [] [SourceFlag]
        (FineD (from_source (fine_request (demo_source d)) d) q true)
  | fdemo_stop d d' q : demo_main d = CallStop -> demo_main_step d d' ->
      fine_demo_step (FineD d q true) [] [SourceClose] (FineD d' q false)
  | fdemo_main d d' q h : demo_main d <> CallStop -> demo_main_step d d' ->
      fine_demo_step (FineD d q h) []
        (match demo_main d with CallStart => [SourceStart] | _ => [] end) (FineD d' q h).

Definition fdemo_signal f : fine_demo Src Pc :=
  FineD (handleSignal_demo (dem f)) (demo_place f) (demo_halfway f).

Definition fdemo_begin (s : Src) (fs : files) : fine_demo Src Pc :=
  FineD (demo_begin s fs) outside false.

(** [signals]: may a signal come? *)
Inductive fine_demo_runs (signals : bool) (f0 : fine_demo Src Pc) :
    list MarketEvent -> list (source_event Lbl) -> fine_demo Src Pc -> Prop :=
  | fdemo_refl : fine_demo_runs signals f0 [] [] f0
  | fdemo_run_step es st f es' ss f' :
      fine_demo_runs signals f0 es st f -> fine_demo_step f es' ss f' ->
      fine_demo_runs signals f0 (es ++ es') (st ++ ss) f'
  | fdemo_run_signal es st f : signals = true ->
      fine_demo_runs signals f0 es st f -> fine_demo_runs signals f0 es st (fdemo_signal f).

Definition fine_demo_moves : relation (fine_demo Src Pc) :=
  fun f f' => exists es ss, fine_demo_step f es ss f'.

(** The moves that need nothing from outside the process. *)
Definition fine_demo_own_moves : relation (fine_demo Src Pc) :=
  fun f f' => exists es ss, fine_demo_step f es ss f' /\
    (fine_waits (demo_source (dem f)) (demo_place f) = true -> forall l, ss <> [SourceInner l]).
End Code.

(** ** At the coarser grain *)
Section Coarse.
Context `{JsonLaws} `{FineSource Src Pc Lbl} `{!FineLaws Src Pc Lbl}.
Implicit Types (d : demo Src) (f : fine_demo Src Pc) (a : any_source).
Context (recorder : option EventRecorder).

#[local] Instance any_demo : MarketDataSource any_source := any_source_ops may_throw.

Definition demo_living f : Prop :=
  match demo_main (dem f) with
  | CallStart => ingestion_thread (dem f) = NotCreated /\ fit (demo_source (dem f)) /\ demo_place f = outside
  | Terminated => True
  | _ => calm (demo_source (dem f)) (demo_place f)
  end.

Record fdemo_inv f : Prop := {
  fd_place : demo_place f = outside \/ ingestion_thread (dem f) = InNext;
  fd_life : demo_living f;
  fd_half : demo_halfway f = true -> running (demo_main (dem f)) = true ->
    flagged (demo_source (dem f)) = true /\ demo_main (dem f) = CallStop;
  fd_told : stop_called (demo_main (dem f)) = true -> shut (demo_source (dem f))
}.

(** Steps the coarse demo does not show. *)
Definition demo_weight f : nat := fine_rank (demo_place f) + if demo_halfway f then 0 else 1.

Definition demo_shown f es f' a a' : Prop :=
  demo_step recorder (from_source a (dem f)) es (from_source a' (dem f')) \/
  (es = [] /\ a' = a /\ from_source a (dem f') = from_source a (dem f) /\
   (flagged (demo_source (dem f)) = true -> demo_weight f' < demo_weight f)).

Lemma coarse_ingestion a d es d' :
  ingestion_step recorder d es d' ->
  ingestion_step recorder (from_source a d) es (from_source a d') /\
  demo_source d' = demo_source d /\ demo_main d' = demo_main d /\ ingestion_thread d <> InNext /\
  es = [].
Proof.
  intros Hs. destruct Hs; try done; (split; [|by split_and!]); unfold from_source; cbn.
  - apply count_event.
  - by eapply write_event.
  - apply sample_event.
  - apply say_farewell.
  - apply set_flag.
Qed.

Lemma coarse_ingestion_inv a d es (d1 : demo any_source) :
  ingestion_step recorder (from_source a d) es d1 ->
  ingestion_thread d = InNext \/ exists d', ingestion_step recorder d es d'.
Proof.
  destruct d as [s n out bye i m g fs]. intros Hs. inversion Hs; subst; clear Hs; cbn;
    try (by left); right; eexists.
  - apply count_event.
  - by eapply write_event.
  - apply sample_event.
  - apply say_farewell.
  - apply set_flag.
Qed.

Lemma coarse_demo_aborts a d : demo_aborts recorder d -> demo_aborts recorder (from_source a d).
Proof. intros Ha. destruct Ha; [done|by eapply demo_record_throws]. Qed.

Lemma coarse_demo_aborts_inv a d :
  demo_aborts recorder (from_source a d) -> ingestion_thread d = InNext \/ demo_aborts recorder d.
Proof.
  destruct d as [s n out bye i m g fs]. intros Ha. inversion Ha; subst; [by left|right].
  by eapply demo_record_throws.
Qed.

(** [main]'s steps. *)
Lemma coarse_demo_stop a d d' : demo_main d = CallStop -> demo_main_step d d' ->
  demo_main_step (from_source a d) (from_source (Closing 1) d') /\ demo_main d' = Joining /\
  demo_source d' = fine_close (demo_source d) /\ ingestion_thread d' = ingestion_thread d.
Proof.
  intros Hm Hs. destruct Hs as [| | | |s n out bye i g fs|]; try done.
  split; [|done]. exact (demo_stop a n out bye i g fs).
Qed.

Lemma coarse_demo_main a d d' : demo_main d <> CallStop -> demo_main_step d d' ->
  (demo_main d = CallStart /\ demo_main_step (from_source a d) (from_source Open d') /\
   (demo_main d' = Terminated /\ ingestion_thread d' = ingestion_thread d \/
    demo_main d' = Polling /\ ingestion_thread d' = InNext /\
    fine_start (demo_source d) (demo_source d') (Ok tt))) \/
  (demo_main d <> CallStart /\ demo_main_step (from_source a d) (from_source a d') /\
   demo_source d' = demo_source d /\ ingestion_thread d' = ingestion_thread d /\
   (stop_called (demo_main d') = true -> stop_called (demo_main d) = true) /\
   demo_main d' <> CallStart /\ demo_main d' <> Terminated).
Proof.
  intros Hm Hs. destruct Hs as [s n out bye g fs s' Hx|s n out bye g fs s' x Hx
    |s n out bye i g fs|s n out bye i g fs|s n out bye i g fs|s n out bye g fs]; cbn in *; try done.
  - left. split; [done|]. split; [by apply (demo_start a)|]. by right.
  - left. split; [done|]. split; [by apply (demo_start_throws a n out bye g fs Open x)|]. by left.
  - right. split; [done|]. split; [apply (demo_poll a)|]. by destruct g.
  - right. split; [done|]. split; [apply (demo_wake a)|]. done.
  - right. split; [done|]. split; [apply (demo_join a)|]. done.
Qed.

(** The thread at [next] finds things as the source's laws want them. *)
Lemma demo_at_next d q h : fdemo_inv (FineD d q h) -> calling d ->
  calm (demo_source d) q /\ demo_main d <> CallStart.
Proof.
  intros [_ Hl _ _] [Hr Hi]. unfold demo_living in Hl. cbn in Hl.
  destruct (demo_main d); try done. destruct Hl as [Hl _]. congruence.
Qed.

(** *** The simulation *)

(** The thread inside [next]: its source and its place change. *)
Lemma demo_inv_inside d q h s' q' i' :
  fdemo_inv (FineD d q h) -> calling d -> calm s' q' ->
  (flagged (demo_source d) = true -> flagged s' = true) -> (shut (demo_source d) -> shut s') ->
  q' = outside \/ i' = InNext ->
  fdemo_inv (FineD (thread_at i' (from_source s' d)) q' h).
Proof.
  intros Hinv Hc Hk Hf Hsh Hp. destruct (demo_at_next d q h Hinv Hc) as [_ Hne].
  destruct Hinv as [_ Hl Hh Ht], Hc as [Hr Hi]. split; unfold demo_living in *; cbn in *.
  - exact Hp.
  - by destruct (demo_main d).
  - intros E _. destruct (Hh E Hr). auto.
  - auto.
Qed.

Lemma sim_demo_call d h a :
  fdemo_inv (FineD d outside h) -> absorbs a (demo_source d) outside -> calling d ->
  fdemo_inv (FineD d entry h) /\ absorbs a (demo_source d) entry /\
  demo_shown (FineD d outside h) [] (FineD d entry h) a a.
Proof.
  intros Hinv Ha Hc. destruct (demo_at_next d outside h Hinv Hc) as [Hk Hne].
  destruct Hinv as [_ Hl Hh Ht], Hc as [Hr Hi]. split_and!.
  - split; unfold demo_living in *; cbn in *; [by right| |done..].
    apply calm_call in Hk. by destruct (demo_main d).
  - by apply absorbs_call.
  - right. split_and!; try done. intros _. unfold demo_weight. cbn. pose proof rank_entry. lia.
Qed.

Lemma sim_demo_inner d q h l s' q' a :
  fdemo_inv (FineD d q h) -> absorbs a (demo_source d) q -> calling d ->
  fine_step (demo_source d) q l s' q' ->
  fdemo_inv (FineD (from_source s' d) q' h) /\ absorbs a s' q' /\
  demo_shown (FineD d q h) [] (FineD (from_source s' d) q' h) a a.
Proof.
  intros Hinv Ha Hc Hs. destruct (demo_at_next d q h Hinv Hc) as [Hk _]. split_and!.
  - assert (E : from_source s' d = thread_at InNext (from_source s' d))
      by (destruct Hc as [_ Hi], d; cbn in *; by subst).
    rewrite E. eapply demo_inv_inside; eauto;
      [by eapply calm_step|by eapply step_flagged|intros; by eapply shut_inner].
  - by eapply absorbs_step.
  - right. split_and!; try done. intros Hf. destruct (flag_step _ _ _ _ _ Hf Hs) as (_ & Hr & _).
    unfold demo_weight. cbn. lia.
Qed.

(** [next] comes back, and the demo sees it. *)
Lemma sim_demo_next d q h l r s' es f' a :
  fdemo_inv (FineD d q h) -> absorbs a (demo_source d) q -> calling d ->
  fine_return (demo_source d) q l r s' ->
  match r with
  | NextEvent e => f' = FineD (thread_at (Got e) (from_source s' d)) outside h /\ es = [e]
  | NextEnd => f' = FineD (thread_at LoopLeft (from_source s' d)) outside h /\ es = []
  | NextThrow _ => f' = FineD (terminate (from_source s' d)) outside h /\ es = []
  end ->
  fdemo_inv f' /\ exists a', absorbs a' s' outside /\ demo_shown (FineD d q h) es f' a a'.
Proof.
  intros Hinv Ha Hc Hr Hm. destruct (demo_at_next d q h Hinv Hc) as [Hk _].
  destruct (absorbs_return _ _ _ _ _ _ Ha Hk Hr) as (a' & Ha' & Hn).
  pose proof (calm_return _ _ _ _ _ Hk Hr) as Hk'. pose proof (return_flagged _ _ _ _ _ Hr) as Hf.
  assert (Hsh : shut (demo_source d) -> shut s') by (intros; by eapply shut_return).
  destruct r as [e| |x]; destruct Hm as [-> ->]; (split;
    [first [eapply demo_inv_inside; eauto; by left|by split; cbn; [left|..]]|]).
  - exists a'. split; [done|left]. destruct Hc as [Hrun Hi], d. cbn in *. subst.
    apply demo_thread; [done|]. by apply (got_event recorder a).
  - exists a'. split; [done|left]. destruct Hc as [Hrun Hi], d. cbn in *. subst.
    apply demo_thread; [done|]. by apply (got_end recorder a).
  - inversion Hn as [| | | |x' a0 Hx]; subst. exists a'. split; [done|left].
    destruct Hc as [Hrun Hi], d. cbn in *. subst.
    eapply (demo_abort recorder a'); [done|]. eapply (demo_next_throws recorder a'). by constructor.
Qed.

Lemma sim_demo_thread d es d' q h a :
  fdemo_inv (FineD d q h) -> absorbs a (demo_source d) q -> running (demo_main d) = true ->
  ingestion_step recorder d es d' ->
  fdemo_inv (FineD d' q h) /\ absorbs a (demo_source d') q /\
  demo_shown (FineD d q h) es (FineD d' q h) a a.
Proof.
  intros [Hp Hl Hh Ht] Ha Hr Hs. destruct (coarse_ingestion a d es d' Hs) as (Hc & Es & Em & Hni & _).
  assert (Hq : q = outside) by (by destruct Hp).
  split_and!; [|by rewrite Es|left; by apply demo_thread].
  split; unfold demo_living in *; cbn in *; rewrite ?Es, ?Em; [by left| |done..].
  destruct (demo_main d); try done. destruct Hl as (Hi & _). clear -Hi Hs. by destruct Hs.
Qed.

Lemma sim_demo_flag d q a :
  fdemo_inv (FineD d q false) -> absorbs a (demo_source d) q -> demo_main d = CallStop ->
  let f' := FineD (from_source (fine_request (demo_source d)) d) q true in
  fdemo_inv f' /\ absorbs a (fine_request (demo_source d)) q /\
  demo_shown (FineD d q false) [] f' a a.
Proof.
  intros [Hp Hl Hh Ht] Ha Hm. pose proof (flag_request (demo_source d)) as Hf. cbn zeta. split_and!.
  - split; unfold demo_living in *; cbn in *; rewrite ?Hm in *; [done| |by intros|done].
    by apply calm_request.
  - by apply absorbs_request.
  - right. split_and!; try done. intros _. unfold demo_weight. cbn. lia.
Qed.

Lemma sim_demo_stop d d' q a :
  fdemo_inv (FineD d q true) -> demo_main d = CallStop -> demo_main_step d d' ->
  fdemo_inv (FineD d' q false) /\ absorbs (Closing 1) (demo_source d') q /\
  demo_shown (FineD d q true) [] (FineD d' q false) a (Closing 1).
Proof.
  intros [Hp Hl Hh Ht] Hm Hs. destruct (coarse_demo_stop a d d' Hm Hs) as (Hc & Em & Es & Ei).
  destruct (Hh eq_refl) as [Hf _]; [cbn; by rewrite Hm|]. cbn in Hf. split_and!.
  - split; unfold demo_living in *; cbn in *; rewrite ?Em, ?Es, ?Ei in *; [done| |done|].
    + rewrite Hm in Hl. by apply calm_close.
    + intros _. by apply shut_after.
  - rewrite Es. by apply absorbs_close.
  - left. by apply demo_of_main.
Qed.

Lemma sim_demo_main d d' q h a :
  fdemo_inv (FineD d q h) -> absorbs a (demo_source d) q -> demo_main d <> CallStop ->
  demo_main_step d d' ->
  fdemo_inv (FineD d' q h) /\
  exists a', absorbs a' (demo_source d') q /\ demo_shown (FineD d q h) [] (FineD d' q h) a a'.
Proof.
  intros [Hp Hl Hh Ht] Ha Hm Hs. unfold demo_living in *. cbn in *.
  assert (Hhr : h = true -> running (demo_main d) = true -> False)
    by (intros E Er; by destruct (Hh E Er)).
  assert (Hrun : running (demo_main d) = true) by (clear -Hs; by destruct Hs).
  destruct (coarse_demo_main a d d' Hm Hs) as [(Em & Hc & Hd)|(Em & Hc & Es & Ei & Ht' & Hn1 & Hn2)].
  - rewrite Em in Hl. destruct Hl as (Hni & Hfit & Hq). split.
    + destruct Hd as [[E Ei]|(E & Ei & Hk)]; split; unfold demo_living; cbn; rewrite ?E; try done;
        try (by left); try (intros Eh _; by destruct (Hhr Eh Hrun)).
      rewrite Hq. by eapply calm_start.
    + exists Open. split; [by left|left; by apply demo_of_main].
  - split; [|exists a; rewrite Es; split; [done|left; by apply demo_of_main]].
    split; unfold demo_living; cbn; rewrite ?Es, ?Ei; [done| | |auto].
    + clear -Hl Hn1 Hn2 Em Hrun. by destruct (demo_main d), (demo_main d').
    + intros Eh _. by destruct (Hhr Eh Hrun).
Qed.

(** Every step of the fine demo is one of the coarse demo, or none. *)
Lemma sim_demo f es ss f' a :
  fdemo_inv f -> absorbs a (demo_source (dem f)) (demo_place f) ->
  fine_demo_step recorder f es ss f' ->
  fdemo_inv f' /\ exists a', absorbs a' (demo_source (dem f')) (demo_place f') /\ demo_shown f es f' a a'.
Proof.
  intros Hinv Ha Hs. destruct Hs as [d h Hc|d q h l s' q' Hc Hs|d q h l e s' Hc Hr|d q h l s' Hc Hr
    |d q h l x s' Hc Hr|d es d' q h Hr Hs|d q h Hr Hab|d q Hm|d d' q Hm Hs|d d' q h Hm Hs]; cbn in *.
  - destruct (sim_demo_call d h a Hinv Ha Hc) as (? & ? & ?). eauto.
  - destruct (sim_demo_inner d q h l s' q' a Hinv Ha Hc Hs) as (? & ? & ?). eauto.
  - by eapply (sim_demo_next d q h l (NextEvent e)).
  - by eapply (sim_demo_next d q h l NextEnd).
  - by eapply (sim_demo_next d q h l (NextThrow x)).
  - destruct (sim_demo_thread d es d' q h a Hinv Ha Hr Hs) as (? & ? & ?). eauto.
  - destruct Hinv as [Hp _ _ _]. split; [by split|]. exists a. split; [done|left].
    destruct d as [s n out bye i m g fs]. apply (demo_abort recorder a n out bye i m g fs Hr).
    exact (coarse_demo_aborts a _ Hab).
  - destruct (sim_demo_flag d q a Hinv Ha Hm) as (? & ? & ?). eauto.
  - destruct (sim_demo_stop d d' q a Hinv Hm Hs) as (? & ? & ?). eauto.
  - by apply sim_demo_main.
Qed.

(** *** Runs *)
Lemma demo_coarse signals (s : Src) fs es st f :
  fit s -> fine_demo_runs recorder signals (fdemo_begin s fs) es st f ->
  fdemo_inv f /\ exists a, absorbs a (demo_source (dem f)) (demo_place f) /\
    demo_runs recorder (demo_begin Open fs) es (from_source a (dem f)).
Proof.
  intros Hfit Hr. induction Hr as [|es st f es' ss f' _ (Hinv & a & Ha & Hr) Hs
    |es st f _ _ (Hinv & a & Ha & Hr)].
  - split; [split; [by left|by split_and!|done..]|]. exists Open. split; [by left|constructor].
  - destruct (sim_demo f es' ss f' a Hinv Ha Hs) as (Hinv' & a' & Ha' & Hsh). split; [done|].
    exists a'. split; [done|]. destruct Hsh as [Hsh|(-> & -> & E & _)].
    + by eapply demo_run_step.
    + by rewrite app_nil_r, E.
  - split; [destruct Hinv; by split|]. exists a. split; [done|].
    by apply (demo_signal _ _ _ (from_source a (dem f))).
Qed.

(** *** Progress *)

(** The thread at [next] can go on. *)
Lemma demo_next_goes_on d q h : fdemo_inv (FineD d q h) -> calling d ->
  exists f', fine_demo_moves recorder (FineD d q h) f'.
Proof.
  intros Hinv Hc. destruct (demo_at_next d q h Hinv Hc) as [Hk _].
  destruct (fine_goes_on _ _ Hk) as [->|[(l & s' & q' & Hs)|(l & [e| |x] & s' & Hr)]]; do 3 eexists.
  - by apply fdemo_call.
  - by eapply fdemo_inner.
  - by eapply fdemo_gives.
  - by eapply fdemo_ends.
  - by eapply fdemo_throws.
Qed.

(** Where nothing moves any more, nothing does at the coarser grain. *)
Lemma fdemo_rest f a :
  fdemo_inv f -> stop_called (demo_main (dem f)) = true -> nf (fine_demo_moves recorder) f ->
  nf (demo_moves recorder) (from_source a (dem f)).
Proof.
  intros Hinv Ht Hnf [d1 [es Hs]]. apply Hnf. destruct f as [d q h]. cbn in *.
  inversion Hs as [d0 es' d0' Hr Hi|d0 d0' Hm|s n out bye i m g fs Hr Hab]; subst.
  - destruct (coarse_ingestion_inv a d es d1 Hi) as [Hn|[d' Hd]].
    + apply demo_next_goes_on; [done|by split].
    + do 3 eexists. by eapply fdemo_thread.
  - destruct d as [s n out bye i m g fs]. cbn in *.
    inversion Hm; subst; try done. do 3 eexists. apply fdemo_main; [done|]. apply demo_join.
  - destruct (coarse_demo_aborts_inv a d) as [Hn|Ha]; [exact Hab|..].
    + apply demo_next_goes_on; [done|by split].
    + do 3 eexists. by eapply fdemo_abort.
Qed.

(** Once [stop()] has come back, the thread waits for the outside at most where
    [stop()] cannot reach it. *)
Lemma demo_own_rest f : fdemo_inv f -> stop_called (demo_main (dem f)) = true ->
  hangs (demo_place f) = false -> nf (fine_demo_own_moves recorder) f -> nf (fine_demo_moves recorder) f.
Proof.
  intros Hinv Ht Hh Hnf [f' (es & ss & Hs)]. apply Hnf. exists f', es, ss. split; [done|].
  intros Hw. pose proof (shut_hangs _ _ (fd_told f Hinv Ht) Hw). congruence.
Qed.

(** The dead do not move. *)
Lemma terminated_still f es ss f' : demo_main (dem f) = Terminated -> ~ fine_demo_step recorder f es ss f'.
Proof.
  intros Hd Hs. destruct f as [d q h]. cbn in Hd.
  inversion Hs as [d0 h0 [Hr _]|d0 q0 h0 l s' q' [Hr _] _|d0 q0 h0 l e s' [Hr _] _|d0 q0 h0 l s' [Hr _] _
    |d0 q0 h0 l x s' [Hr _] _| | | | |d0 d' q0 h0 _ Hm]; subst; try congruence; try (by rewrite Hd in *).
  by destruct Hm.
Qed.

(** The thread has left its loop. *)
Definition left_loop f : Prop :=
  match ingestion_thread (dem f) with LoopLeft | SettingFlag | ThreadOver => True | _ => False end.

(** [f] is at the coarser grain [d], and its source has been told to stop. *)
Definition demo_stands f (d : demo any_source) : Prop :=
  fdemo_inv f /\ (stop_called (demo_main (dem f)) = true \/ demo_main (dem f) = Terminated) /\
  exists a, absorbs a (demo_source (dem f)) (demo_place f) /\ d = from_source a (dem f).

Lemma stop_called_kept (d d' : demo any_source) es : demo_step recorder d es d' ->
  stop_called (demo_main d) = true -> stop_called (demo_main d') = true \/ demo_main d' = Terminated.
Proof.
  intros Hs Ht. destruct Hs as [d es d' _ Hs|d d' Hs|]; [| |by right]; left; by destruct Hs.
Qed.

Lemma demo_stands_step f (d : demo any_source) f' :
  demo_stands f d -> fine_demo_moves recorder f f' ->
  (exists d' : demo any_source, demo_moves recorder d d' /\ demo_stands f' d') \/
  (demo_stands f' d /\ demo_weight f' < demo_weight f).
Proof.
  intros (Hinv & Ht & a & Ha & ->) (es & ss & Hs).
  destruct (sim_demo f es ss f' a Hinv Ha Hs) as (Hinv' & a' & Ha' & Hsh).
  destruct Ht as [Ht|Hd].
  2: by destruct (terminated_still f es ss f' Hd).
  destruct Hsh as [Hsh|(-> & -> & E & Hw)].
  - left. exists (from_source a' (dem f')). split; [by exists es|]. split_and!; [done| |eauto].
    exact (stop_called_kept _ _ _ Hsh Ht).
  - right. split; [|by apply Hw, shut_flagged, fd_told]. split_and!; [done| |by exists a].
    left. apply (f_equal demo_main) in E. cbn in E. by rewrite E.
Qed.

Lemma demo_stands_rtc f (d : demo any_source) f' :
  demo_stands f d -> rtc (fine_demo_moves recorder) f f' ->
  exists d' : demo any_source, rtc (demo_moves recorder) d d' /\ demo_stands f' d'.
Proof.
  intros Hd Hr. revert d Hd. induction Hr as [f|f f1 f' Hs Hr IH]; intros d Hd; [by exists d|].
  destruct (demo_stands_step f d f1 Hd Hs) as [(d1 & Hd1 & Hs1)|[Hs1 _]].
  - destruct (IH d1 Hs1) as (d' & Hr' & Hs'). exists d'. split; [by eapply rtc_l|done].
  - exact (IH d Hs1).
Qed.

Lemma fine_demo_ends signals (s : Src) fs es st f :
  fit s -> (forall x, ~ may_throw x) ->
  fine_demo_runs recorder signals (fdemo_begin s fs) es st f -> demo_main (dem f) = Joining ->
  sn (fine_demo_moves recorder) f /\
  forall f', rtc (fine_demo_moves recorder) f f' ->
    demo_main (dem f') <> Terminated /\
    (nf (fine_demo_own_moves recorder) f' -> demo_main (dem f') = Returned \/ hangs (demo_place f') = true).
Proof.
  intros Hfit Hx Hr Hm. destruct (demo_coarse signals s fs es st f Hfit Hr) as (Hinv & a & Ha & Hc).
  assert (Hst : demo_stands f (from_source a (dem f)))
    by (split_and!; [done|left; by rewrite Hm|by exists a]).
  pose proof (any_source_typed may_throw) as Hty. pose proof (any_source_laws may_throw Hx) as Hlaws.
  destruct (demo_ends recorder Open fs es (from_source a (dem f)) stop_ends Hc Hm) as [Hsn Hend]. split.
  - apply (sim_sn _ (demo_moves recorder) demo_stands demo_weight _ _ Hst Hsn).
    intros. by apply demo_stands_step.
  - intros f' Hf. destruct (demo_stands_rtc f _ f' Hst Hf) as (d' & Hd & Hinv' & Ht' & a' & _ & ->).
    destruct (Hend _ Hd) as [Hnt He]. split; [exact Hnt|]. intros Hnf.
    destruct Ht' as [Ht'|]; [|done]. destruct (hangs (demo_place f')) eqn:Hh; [by right|left].
    exact (He (fdemo_rest f' a' Hinv' Ht' (demo_own_rest f' Hinv' Ht' Hh Hnf))).
Qed.

(** *** Deaths *)

(** No thread dies but inside [next]. *)
Lemma fdemo_no_abort signals (s : Src) fs es st f :
  fit s -> fine_demo_runs recorder signals (fdemo_begin s fs) es st f -> ~ demo_aborts recorder (dem f).
Proof.
  intros Hfit Hr Hab. destruct (demo_coarse signals s fs es st f Hfit Hr) as (_ & a & _ & Hc).
  pose proof (any_source_typed may_throw) as Hty.
  pose proof (demo_printable recorder Open fs es _ Hc) as Hes.
  destruct (demo_inv_runs recorder Open fs es _ Hc) as [(handled & E & _) _ _ _].
  destruct Hab as [s0 n out bye m g fs0 x s' []|s0 n out bye m g fs0 e x Hw]. cbn in *.
  rewrite E in Hes. apply Forall_app in Hes as [_ He]. apply Forall_inv in He.
  destruct (printable_recordable recorder e He fs0) as [fs' Hw']. congruence.
Qed.

(** What it has done when it has returned. *)
Lemma fine_demo_report signals (s : Src) fs es st f :
  fit s -> fine_demo_runs recorder signals (fdemo_begin s fs) es st f -> demo_main (dem f) = Returned ->
  (Z.of_nat (length es) < two64)%Z ->
  demo_place f = outside /\ farewell (dem f) = Some (Z.of_nat (length es)) /\
  match recorder with
  | Some r => record_all r es fs = Ok (demo_disk (dem f))
  | None => demo_disk (dem f) = fs
  end /\
  forall k, lines_printed (dem f) !! k = (fun e => (Z.of_nat (20 * k + 1), e)) <$> es !! (20 * k).
Proof.
  intros Hfit Hr Hm Hn. destruct (demo_coarse signals s fs es st f Hfit Hr) as (Hinv & a & _ & Hc).
  destruct (report_of_run recorder Open fs es _ Hc Hm Hn) as (Hi & Hf & Hd & Hl). cbn in *.
  split; [|done]. destruct (fd_place f Hinv) as [|Hp]; [done|congruence].
Qed.
End Coarse.
