(* ===== verification/DemoSources.v ===== *)
(** * The two sources in the ingestion demo

    src/ingestion_demo_main.cpp with [LiveSource] and with [ReplaySource] as the
    fine source of [FineDemo]: a run of the demo is a run of its live source; and
    what it has received of a capture is an initial part of it, and all of it when
    no signal came. *)
From S2P Require Import Prelude CxxStrings MarketEvent Json JsonTree MarketEventJson EventRecorder.
From S2P Require Import BinanceTradeParser Interfaces IngestionPipeline PipelineInvariant ReplaySource PipelineReplay.
From S2P Require Import EventTypes FineSource LiveSource LiveProperties SourceSteps LiveService ReplayService.
From S2P Require Import IngestionDemo FineDemo.

(** ** Live *)
Section Live.
Context `{JsonLaws} (brings : string -> Prop) (recorder : option EventRecorder) (signals : bool).
Implicit Types (f : fine_demo LiveSource LiveSource.pc).

#[local] Existing Instance next_apart | 0.
#[local] Instance demo_live_source : FineSource LiveSource LiveSource.pc label := live_fine brings.
#[local] Instance demo_live_laws : FineLaws LiveSource LiveSource.pc label := live_fine_laws brings.

(** The live source as the demo uses it. *)
Definition demo_live f : live :=
  Live (demo_source (dem f)) (demo_place f) (if demo_halfway f then 1 else 0).

(** One step of the demo is at most one step of the source. *)
Lemma demo_live_step f es ss f' : fine_demo_step recorder f es ss f' ->
  (ss = [] /\ demo_live f' = demo_live f \/
   exists e, ss = [e] /\ live_step (demo_live f) (source_label e) (demo_live f')) /\
  es = given (source_trace ss).
Proof.
  intros Hs. destruct Hs as [d h Hc|d q h l s' q' Hc Hs|d q h l e s' Hc [Hs Hr]|d q h l s' Hc [Hs Hr]
    |d q h l x s' Hc [Hs Hr]|d es d' q h Hr Hs|d q h Hr Hab|d q Hm|d d' q Hm Hs|d d' q h Hm Hs];
    unfold demo_live; cbn.
  - split; [right|done]. exists SourceCall. split; [done|]. constructor.
  - destruct Hs as (Hs & Hp & _). split; [right; exists (SourceInner l); split; [done|by constructor]|].
    by destruct Hs; try (by destruct ok).
  - cbn in Hr. subst l. split; [right|done]. exists (SourceInner (GaveEvent e)). split; [done|by constructor].
  - cbn in Hr. subst l. split; [right|done]. exists (SourceInner GaveFalse). split; [done|by constructor].
  - cbn in Hr. subst l. split; [right|done]. exists (SourceInner (GaveThrow x)). split; [done|by constructor].
  - destruct (coarse_ingestion recorder Open d es d' Hs) as (_ & -> & _ & _ & ->). split; [by left|done].
  - by split; [left|].
  - split; [right|done]. exists SourceFlag. split; [done|]. constructor.
  - destruct (coarse_demo_stop Open d d' Hm Hs) as (_ & _ & -> & _). split; [right|done].
    exists SourceClose. split; [done|]. constructor.
  - destruct (coarse_demo_main Open d d' Hm Hs) as [(Em & _ & Hd)|(Em & _ & -> & _)].
    + rewrite Em. split; [right|done]. exists SourceStart. split; [done|].
      destruct Hs; try done;
        match goal with E : source_start _ _ _ |- _ => destruct E as [-> E'] end; [|done].
      apply live_start.
    + split; [left|]; by destruct (demo_main d).
Qed.

Lemma demo_live_runs config fs es st f :
  fine_demo_runs recorder signals (fdemo_begin (LiveSource_new config) fs) es st f ->
  LiveSource.exec config (source_trace st) (demo_live f) /\ es = given (source_trace st).
Proof.
  induction 1 as [|es st f es' ss f' _ (He & Hg) Hs|es st f _ _ IH]; [by split; [constructor|]| |exact IH].
  destruct (demo_live_step f es' ss f' Hs) as [Hl Hg']. rewrite source_trace_app. split.
  - destruct Hl as [(-> & ->)|(e & -> & Hl)]; [by rewrite app_nil_r|by eapply exec_step].
  - unfold given in *. by rewrite omap_app, Hg, Hg'.
Qed.

Context (config : LiveSourceConfig) (fs : files).
Abbreviation begin := (fdemo_begin (LiveSource_new config) fs).

(** A thrown exception is the end of the process, and nothing else is. *)
Lemma demo_throws es st f : fine_demo_runs recorder signals begin es st f ->
  (demo_main (dem f) <> Terminated -> count is_throw (source_trace st) = 0) /\
  (demo_main (dem f) = Terminated ->
     (exists x, GaveThrow x ∈ source_trace st) /\ demo_place f = Outside).
Proof.
  intros Hr. induction Hr as [|es st f es' ss f' Hr [IHn IHt] Hs|es st f _ _ IH]; [done| |exact IH].
  assert (Hal : demo_main (dem f) <> Terminated) by (intros E; by destruct (terminated_still recorder f es' ss f' E)).
  specialize (IHn Hal). clear IHt. rewrite source_trace_app, count_app, IHn.
  setoid_rewrite elem_of_app.
  destruct Hs as [d h Hc|d q h l s' q' Hc Hs|d q h l e s' Hc [Hs Hl]|d q h l s' Hc [Hs Hl]
    |d q h l x s' Hc [Hs Hl]|d es0 d' q h Hrun Hs|d q h Hrun Hab|d q Hm|d d' q Hm Hs|d d' q h Hm Hs]; cbn in *;
    try done; try subst l.
  - destruct Hs as (Hs & Hp & _). split; [|done]. intros _. by destruct Hs; try (by destruct ok).
  - done.
  - done.
  - split; [done|]. intros _. split; [exists x; right; by left|done].
  - destruct (coarse_ingestion recorder Open d es0 d' Hs) as (_ & _ & -> & _). done.
  - assert (Hfit : fit (LiveSource_new config)) by exact I.
    by destruct (fdemo_no_abort recorder _ _ _ _ _ _ Hfit Hr).
  - split; [done|]. destruct (coarse_demo_stop Open d d' Hm Hs) as (_ & -> & _). done.
  - split; [by destruct (demo_main d)|].
    destruct (coarse_demo_main Open d d' Hm Hs) as [(Em & _ & Hd)|(_ & _ & _ & _ & _ & _ & ?)]; [|done].
    destruct Hs; try done;
      match goal with E : source_start _ _ _ |- _ => by destruct E as [_ ?] end.
Qed.

(** [stop()] follows the flag, and the end of the loop follows [stop()]. *)
Lemma demo_flag_first es st f : fine_demo_runs recorder signals begin es st f ->
  (left_loop f -> GaveFalse ∈ source_trace st) /\
  (StopFlag ∈ source_trace st -> g_shutdown_requested (dem f) = true) /\
  (match demo_main (dem f) with CallStop | Joining | Returned => True | _ => False end ->
   g_shutdown_requested (dem f) = true).
Proof.
  intros Hr. induction Hr as [|es st f es' ss f' Hr (IHl & IHs & IHm) Hs|es st f _ _ (IHl & _ & _)].
  - split_and!; [done|by intros ?%not_elem_of_nil|done].
  - rewrite source_trace_app, !elem_of_app. unfold left_loop in *.
    destruct Hs as [d h [Hrun Hi]|d q h l s' q' [Hrun Hi] Hs|d q h l e s' [Hrun Hi] [Hs Hl]
      |d q h l s' [Hrun Hi] [Hs Hl]|d q h l x s' [Hrun Hi] [Hs Hl]|d es0 d' q h Hrun Hs|d q h Hrun Hab|d q Hm
      |d d' q Hm Hs|d d' q h Hm Hs]; cbn in *; rewrite ?list_elem_of_singleton; subst;
      try (split_and!; [by auto|by intros [?|?]; auto|first [exact IHm|done]]).
    + split_and!; [by auto| |exact IHm]. intros [?|?]; [by auto|]. destruct Hs as (Hs & _).
      by destruct Hs; try (by destruct ok).
    + assert (Hg : g_shutdown_requested d = true -> g_shutdown_requested d' = true) by (by destruct Hs).
      destruct (coarse_ingestion recorder Open d es0 d' Hs) as (_ & _ & -> & Hni & _).
      split_and!; [|intros [?|Hin%not_elem_of_nil]; [by auto|done]|by auto].
      intros Hl. left. apply IHl. clear -Hs Hl. by destruct Hs.
    + split_and!; [by auto|by intros [?|?%not_elem_of_nil]; auto|done].
    + split_and!; [by auto| |exact IHm]. intros _. apply IHm. by rewrite Hm.
    + destruct (coarse_demo_stop Open d d' Hm Hs) as (_ & -> & _ & ->).
      assert (g_shutdown_requested d' = true) by (rewrite Hm in IHm; clear -Hs IHm; destruct Hs; auto).
      by split_and!; auto.
    + assert (Eg : g_shutdown_requested d' = g_shutdown_requested d) by (clear -Hs; by destruct Hs).
      rewrite Eg. split_and!.
      * intros Hl. left. apply IHl. clear -Hs Hl. by destruct Hs.
      * intros [?|Hin]; [by auto|]. exfalso. destruct (demo_main d); cbn in Hin;
          rewrite ?list_elem_of_singleton in Hin; try done; by apply not_elem_of_nil in Hin.
      * clear -Hs IHm. destruct Hs; cbn in *; auto. by destruct g.
  - by split_and!.
Qed.

(** The flag is set when the thread leaves its loop, by a signal. *)
Lemma demo_flag_set es st f : fine_demo_runs recorder signals begin es st f ->
  (left_loop f -> g_shutdown_requested (dem f) = true) /\
  (g_shutdown_requested (dem f) = true -> signals = true).
Proof.
  intros Hr. assert (Hset : forall es st f, fine_demo_runs recorder signals begin es st f ->
    left_loop f -> g_shutdown_requested (dem f) = true).
  { intros es1 st1 f1 Hr1 Hl. destruct (demo_flag_first es1 st1 f1 Hr1) as (Hend & Hg & _).
    destruct (demo_live_runs config fs es1 st1 f1 Hr1) as [He _]. apply live_inv_exec in He.
    by apply Hg, (inv_false _ _ _ He), Hend. }
  split; [by eapply Hset|].
  induction Hr as [|es st f es' ss f' Hr IH Hs|es st f E _ _]; [done| |done].
  intros Hg. apply IH. specialize (Hset es st f Hr). unfold left_loop in Hset.
  destruct Hs as [| | | | |d es0 d' q h _ Hs| | |d d' q _ Hs|d d' q h _ Hs]; cbn in *; try done.
  - destruct Hs; cbn in *; try done. by apply Hset.
  - by destruct Hs.
  - by destruct Hs.
Qed.

(** When the demo has returned, every message has been judged, and what came
    of it received. *)
Lemma live_demo_given es st f : fine_demo_runs recorder signals begin es st f ->
  demo_main (dem f) = Returned ->
  es = omap good (messages (source_trace st)) /\
  length (messages (source_trace st)) = length es + count is_malformed (source_trace st).
Proof.
  intros Hr Hm. assert (Hfit : fit (LiveSource_new config)) by exact I.
  destruct (demo_coarse recorder signals _ _ _ _ _ Hfit Hr) as (Hinv & a & _ & Hc).
  apply demo_inv_runs in Hc as [_ _ _ Hover]. cbn in Hover. rewrite Hm in Hover.
  assert (Hp : demo_place f = Outside) by (destruct (fd_place f Hinv) as [Hp|Hp]; [exact Hp|congruence]).
  destruct (demo_live_runs config fs es st f Hr) as [Hl ->].
  apply live_inv_exec in Hl. destruct (inv_given _ _ _ Hl) as (judged & Hj & Hg).
  pose proof (inv_sum _ _ _ Hl) as Hs. cbn in Hj, Hs. rewrite Hp in Hj, Hs. cbn in Hj, Hs.
  rewrite (proj1 (demo_throws _ st f Hr)) in Hs by congruence.
  rewrite app_nil_r in Hj. rewrite Hg, Hj. split; [done|].
  rewrite <-Hg, <-Hj, messages_count, given_count. lia.
Qed.
End Live.

(** ** Replaying *)
Section Replay.
Context `{JsonLaws} (read_file : string -> option string) (path text : string).
Context (Hfile : read_file path = Some text) (recorder : option EventRecorder) (signals : bool) (fs : files).
Implicit Types (f : fine_demo ReplaySource replay_pc).

#[local] Existing Instance next_apart | 0.
#[local] Instance demo_replay_source : FineSource ReplaySource replay_pc Z := replay_fine read_file.
#[local] Instance demo_replay_laws : FineLaws ReplaySource replay_pc Z := replay_fine_laws read_file path.

Abbreviation begin := (fdemo_begin (ReplaySource_new path) fs).

(** The events received, as the labels of a pipeline would have them. *)
Definition as_delivered (es : list MarketEvent) : list event_label := Delivered <$> es.

Lemma delivered_as es : delivered (as_delivered es) = es.
Proof. induction es as [|e es IH]; [done|]. unfold delivered, as_delivered in *. cbn. by rewrite IH. Qed.

Lemma so_far_read es s q : read_so_far text (as_delivered es ++ [SourceEnded]) s q ->
  read_so_far text (as_delivered es) s q.
Proof.
  intros (Hs & pre & Hl & Hd). split; [done|]. exists pre. by rewrite delivered_snoc, app_nil_r in Hd.
Qed.

(** What the thread has read of the file. *)
Definition demo_so_far es f : Prop :=
  demo_main (dem f) = CallStart /\ demo_source (dem f) = ReplaySource_new path /\ es = [] \/
  demo_main (dem f) <> CallStart /\ read_so_far text (as_delivered es) (demo_source (dem f)) (demo_place f).

Lemma demo_replay_inv es st f : fine_demo_runs recorder signals begin es st f -> fdemo_inv (Lbl := Z) f.
Proof.
  intros Hr. assert (Hf : fit (ReplaySource_new path)) by exact eq_refl.
  by destruct (demo_coarse recorder _ _ _ _ _ _ Hf Hr).
Qed.

Lemma demo_so_far_runs es st f : fine_demo_runs recorder signals begin es st f ->
  demo_main (dem f) <> Terminated -> demo_so_far es f.
Proof.
  induction 1 as [|es st f es' ss f' Hr IH Hs|es st f _ _ IH]; [by left| |exact IH]. intros Hd.
  assert (Hso : demo_so_far es f) by (apply IH; intros E; by destruct (terminated_still recorder f es' ss f' E)).
  pose proof (demo_replay_inv es st f Hr) as Hinv. clear IH Hr.
  assert (Hin : forall d q h, f = FineD d q h -> calling d -> demo_main d <> CallStart /\
    read_so_far text (as_delivered es) (demo_source d) q).
  { intros d q h -> Hc. destruct (demo_at_next d q h Hinv Hc) as [_ Hne].
    by destruct Hso as [[? _]|[_ Hso]]. }
  unfold demo_so_far in *.
  destruct Hs as [d h Hc|d q h l s' q' Hc Hs|d q h l e s' Hc Ht|d q h l s' Hc Ht|d q h l x s' Hc Ht
    |d es0 d' q h Hrun Hs|d q h Hrun Hab|d q Hm|d d' q Hm Hs|d d' q h Hm Hs]; cbn in *; rewrite ?app_nil_r;
    try done; try (destruct (Hin _ _ _ eq_refl Hc) as [Hne Hrd]; right; split; [done|]).
  - exact (turn_so_far text _ _ _ _ _ _ Hrd Hs).
  - unfold as_delivered. rewrite fmap_app. exact (turn_so_far text _ _ _ _ _ _ Hrd Ht).
  - apply so_far_read, (turn_so_far text _ _ _ _ _ _ Hrd Ht).
  - destruct (coarse_ingestion recorder Open d es0 d' Hs) as (_ & -> & -> & _ & ->). by rewrite app_nil_r.
  - destruct Hso as [[E _]|[? Hso]]; [congruence|]. right. split; [done|exact Hso].
  - destruct (coarse_demo_stop Open d d' Hm Hs) as (_ & -> & -> & _). right. split; [done|].
    by destruct Hso as [[E _]|[_ Hso]]; [congruence|].
  - destruct (coarse_demo_main Open d d' Hm Hs) as [(Em & _ & Hk)|(Em & _ & -> & _ & _ & Hn & _)].
    + destruct Hso as [(_ & Es & ->)|[? _]]; [|done]. destruct Hk as [[? _]|(-> & _ & Hk)]; [done|].
      rewrite Es in Hk. right. split; [done|].
      pose proof (fd_life _ Hinv) as Hl. unfold demo_living in Hl. cbn in Hl. rewrite Em in Hl.
      destruct Hl as (_ & _ & ->). by apply (so_far_start read_file path text Hfile []).
    + right. split; [done|]. by destruct Hso as [[? _]|[_ Hso]].
Qed.

(** Without a signal [main] stops the source only after its end. *)
Definition demo_unhurried f : Prop :=
  (ReplaySource.stop_requested_ (demo_source (dem f)) = true -> left_loop f) /\
  (g_shutdown_requested (dem f) = true \/
     match demo_main (dem f) with CallStop | Joining | Returned => True | _ => False end -> left_loop f) /\
  (left_loop f -> lines_left (demo_source (dem f)) = []).

Lemma demo_unhurried_runs es st f : fine_demo_runs recorder signals begin es st f -> signals = false ->
  demo_main (dem f) <> Terminated -> demo_unhurried f.
Proof.
  intros Hr Hsig. induction Hr as [|es st f es' ss f' Hr IH Hs|es st f E _ _]; [..|congruence].
  { intros _. split_and!; [done|by intros [?|[]]|done]. }
  intros Hd. assert (Hal : demo_main (dem f) <> Terminated)
    by (intros E; by destruct (terminated_still recorder f es' ss f' E)).
  specialize (IH Hal). pose proof (demo_so_far_runs es st f Hr Hal) as Hso.
  pose proof (demo_replay_inv es st f Hr) as Hinv. clear Hr Hal. unfold demo_unhurried, demo_so_far, left_loop in *.
  destruct IH as (IHf & IHa & IHo).
  destruct Hs as [d h Hc|d q h l s' q' Hc Hs|d q h l e s' Hc Ht|d q h l s' Hc Ht|d q h l x s' Hc Ht
    |d es0 d' q h Hrun Hs|d q h Hrun Hab|d q Hm|d d' q Hm Hs|d d' q h Hm Hs]; cbn in *; try done.
  - destruct Hc as [Hrun Hi]. rewrite (turn_flag _ _ _ _ _ Hs). rewrite Hi in *. by split_and!.
  - destruct Hc as [Hrun Hi]. rewrite (turn_flag _ _ _ _ _ Ht). rewrite Hi in *. by split_and!.
  - destruct (demo_at_next d q h Hinv Hc) as [_ Hne], Hc as [Hrun Hi]. rewrite Hi in *.
    split_and!; [done..|]. intros _. destruct Hso as [[? _]|[_ Hso]]; [done|].
    destruct (turn_so_far text _ _ _ _ _ _ Hso Ht) as [_ [Hf|Hl]]; [|done]. by destruct (IHf Hf).
  - destruct (coarse_ingestion recorder Open d es0 d' Hs) as (_ & -> & -> & _ & _).
    clear -Hs IHf IHa IHo. destruct Hs; cbn in *; tauto.
  - split_and!; auto. intros _. apply IHa. right. by rewrite Hm.
  - destruct (coarse_demo_stop Open d d' Hm Hs) as (_ & -> & -> & ->).
    assert (Hl : left_loop (FineD d q true)) by (apply IHa; right; by rewrite Hm). by split_and!; auto.
  - destruct (coarse_demo_main Open d d' Hm Hs) as [(Em & _ & Hk)|(Em & _ & Es & Ei & _)].
    + destruct Hso as [(_ & Es & _)|[? _]]; [|done]. destruct Hk as [[? _]|(-> & -> & Hk)]; [done|].
      rewrite Es in Hk. destruct (so_far_start read_file path text Hfile [] _ Hk eq_refl) as [_ Hf].
      pose proof (fd_life _ Hinv) as Hl. unfold demo_living in Hl. cbn in Hl. rewrite Em in Hl.
      destruct Hl as (Hi & _). rewrite Hf, Hi in *.
      assert (Eg : g_shutdown_requested d' = g_shutdown_requested d) by (by destruct Hs).
      split_and!; [done| |done]. intros [E|[]]. apply IHa. left. congruence.
    + rewrite Es, Ei. split_and!; [auto| |auto]. intros Ha. apply IHa.
      clear -Hs Ha. destruct Hs; cbn in *; try tauto; try done. destruct g; [by left|]. by destruct Ha.
Qed.

(** When the demo has returned, an initial part of the file has been received,
    and the whole of it if no signal came. *)
Lemma demo_read es st f : fine_demo_runs recorder signals begin es st f ->
  demo_main (dem f) = Returned -> ingestion_thread (dem f) = ThreadOver -> demo_place f = NotInNext ->
  exists pre rest, getlines newline text = pre ++ rest /\ (signals = false -> rest = []) /\
    untimed <$> es = untimed <$> replayed_events pre.
Proof.
  intros Hr Hm Hi Hp. assert (Hd : demo_main (dem f) <> Terminated) by congruence.
  destruct (demo_so_far_runs es st f Hr Hd) as [[? _]|[_ (_ & pre & Hl & Hu)]]; [congruence|].
  rewrite Hp in Hl. rewrite delivered_as in Hu. exists pre, (lines_left (demo_source (dem f))).
  split_and!; [done| |done]. intros Hsig.
  destruct (demo_unhurried_runs es st f Hr Hsig Hd) as (_ & _ & Ho). apply Ho.
  unfold left_loop. by rewrite Hi.
Qed.
End Replay.
