(* ===== verification/DemoProperties.v ===== *)
(** * What the ingestion demo guarantees, one access at a time

    The properties of src/ingestion_demo_main.cpp with [stop()] inside [next],
    live and replaying. *)
From S2P Require Import Prelude CxxStrings MarketEvent Json JsonTree MarketEventJson EventRecorder.
From S2P Require Import BinanceTradeParser Interfaces ReplaySource PipelineReplay EventTypes FineSource.
From S2P Require Import LiveSource LiveProperties SourceSteps LiveService ReplayService FineProperties.
From S2P Require Import IngestionDemo FineDemo DemoSources.

(** ** Building runs *)
Tactic Notation "demo_takes" hyp(E) uconstr(rule) :=
  eapply fdemo_run_step in E; [|eapply rule; try reflexivity].
Tactic Notation "demo_inner" hyp(E) uconstr(rule) :=
  eapply fdemo_run_step in E;
    [|eapply fdemo_inner; [by split|split; [eapply rule; try reflexivity|split; [discriminate|try done]]]].
Tactic Notation "demo_threads" hyp(E) uconstr(rule) :=
  eapply fdemo_run_step in E; [|eapply fdemo_thread; [reflexivity|eapply rule; try reflexivity]].
Tactic Notation "demo_does" hyp(E) uconstr(rule) :=
  eapply fdemo_run_step in E; [|eapply fdemo_main; [discriminate|eapply rule; try reflexivity]].

(** Says what state the run [E] is in. *)
Ltac demo_now E s :=
  match type of E with fine_demo_runs ?r ?sg ?b ?es ?st _ => change (fine_demo_runs r sg b es st s) in E end.

(** ** A run

    As for the service: one connection, one message, and a signal while the
    source is in a read that fails between the two halves of [stop()]. *)
Section Demo.
#[local] Existing Instance tree_ops.
#[local] Existing Instance next_apart | 0.
Context (brings : string -> Prop) (Hb : brings kValidTrade).
#[local] Instance demo_source_of_runs : FineSource LiveSource LiveSource.pc label := live_fine brings.

Definition live_demo_begin : fine_demo LiveSource LiveSource.pc :=
  fdemo_begin (LiveSource_new default_config) ∅.

(** No event yet; one event. *)
Definition none_yet (s : LiveSource) (i : ingestion_pc) (m : demo_pc) (q : LiveSource.pc)
    : fine_demo LiveSource LiveSource.pc :=
  FineD (Demo s 0 [] None i m false ∅) q false.
Definition one_event (s : LiveSource) (bye : option Z) (i : ingestion_pc) (m : demo_pc) (g : bool)
    (q : LiveSource.pc) (h : bool) : fine_demo LiveSource LiveSource.pc :=
  FineD (Demo s 1 [(1%Z, liveEvent)] bye i m g ∅) q h.

Definition demo_joins := one_event (live_at true false 1 false) None LoopLeft Joining true Outside false.
Definition demo_over :=
  one_event (live_at true false 1 false) (Some 1%Z) ThreadOver Returned true Outside false.

Definition demo_steps_reading : list (source_event label) :=
  [SourceStart; SourceCall; SourceInner Tau; SourceInner Reconnecting; SourceInner Tau;
   SourceInner Tau; SourceInner Tau; SourceInner Connection; SourceInner Tau].
Definition demo_steps_joins : list (source_event label) :=
  demo_steps_reading ++ [SourceInner (Message kValidTrade 7); SourceInner (GaveEvent liveEvent);
   SourceCall; SourceInner Tau; SourceInner Tau; SourceInner Tau;
   SourceFlag; SourceInner Tau; SourceClose; SourceInner GaveFalse].

Abbreviation demo_goes := (fine_demo_runs None true live_demo_begin).

Lemma demo_goes_reading : demo_goes [] demo_steps_reading
  (none_yet (live_at false true 0 true) InNext Polling Reading).
Proof.
  pose proof (fdemo_refl None true live_demo_begin) as E.
  eapply fdemo_run_step in E; [|eapply fdemo_main; [discriminate|by eapply demo_start]].
  demo_now E (none_yet (LiveSource_new default_config) InNext Polling outside). unfold none_yet in E.
  eapply fdemo_run_step in E; [|eapply fdemo_call; by split].
  demo_inner E loop_go. demo_inner E no_connection. demo_inner E retry_go.
  demo_inner E connect_done. demo_inner E connect_publish.
  demo_now E (none_yet (set_connected true (set_ws (Some true) (LiveSource_new default_config)))
    InNext Polling Connected). unfold none_yet in E.
  demo_inner E connected_once. demo_inner E take_stream. exact E.
Qed.

Lemma demo_goes_joins : demo_goes [liveEvent] demo_steps_joins demo_joins.
Proof.
  pose proof demo_goes_reading as E. unfold none_yet in E.
  demo_inner E (read_message _ kValidTrade 7).
  demo_now E (none_yet (live_at false true 1 true) InNext Polling (Parsing kValidTrade 7)). unfold none_yet in E.
  eapply fdemo_run_step in E; [|eapply (fdemo_gives _ _ _ _ _ liveEvent); [by split|]; split;
    [eapply parse_good, judge_valid|reflexivity]].
  demo_now E (none_yet (live_at false true 1 true) (Got liveEvent) Polling outside). unfold none_yet in E.
  demo_threads E count_event. demo_threads E write_event. demo_threads E sample_event.
  demo_now E (one_event (live_at false true 1 true) None InNext Polling false outside false).
  unfold one_event in E.
  eapply fdemo_run_step in E; [|eapply fdemo_call; by split].
  demo_inner E loop_go. demo_inner E have_connection. demo_inner E take_stream.
  apply fdemo_run_signal in E; [|reflexivity]. demo_does E demo_poll.
  demo_now E (one_event (live_at false true 1 true) None InNext CallStop true Reading false).
  unfold one_event in E.
  eapply fdemo_run_step in E; [|by eapply fdemo_flag].
  demo_inner E read_error.
  demo_now E (one_event (live_at true false 1 true) None InNext CallStop true ReadFailed true).
  unfold one_event in E.
  eapply fdemo_run_step in E; [|eapply fdemo_stop; [reflexivity|eapply demo_stop]].
  eapply fdemo_run_step in E; [|eapply (fdemo_ends _ _ _ _ GaveFalse); [by split|]; split;
    [by eapply error_stop|reflexivity]].
  exact E.
Qed.

Lemma demo_goes_over : demo_goes [liveEvent] demo_steps_joins demo_over.
Proof.
  pose proof demo_goes_joins as E. unfold demo_joins, one_event in E.
  demo_threads E say_farewell. demo_threads E set_flag. demo_does E demo_join. exact E.
Qed.

(** A message with a number that overflows. *)
Definition demo_dead := none_yet (live_at false true 1 true) InNext Terminated Outside.
Lemma demo_goes_dead : brings overflowing_number ->
  demo_goes [] (demo_steps_reading ++ [SourceInner (Message overflowing_number 7);
    SourceInner (GaveThrow (OutOfRange "406"))]) demo_dead.
Proof.
  intros Hf. pose proof demo_goes_reading as E. unfold none_yet in E.
  demo_inner E (read_message _ overflowing_number 7).
  demo_now E (none_yet (live_at false true 1 true) InNext Polling (Parsing overflowing_number 7)).
  unfold none_yet in E.
  eapply fdemo_run_step in E; [|eapply (fdemo_throws _ _ _ _ _ (OutOfRange "406")); [by split|]; split;
    [apply parse_fatal; vm_compute; reflexivity|reflexivity]].
  exact E.
Qed.
End Demo.

(** *** A replay to its end, without a signal *)
Section ReplayRun.
#[local] Existing Instance tree_ops.
#[local] Existing Instance next_apart | 0.
#[local] Instance demo_replays : FineSource ReplaySource replay_pc Z := replay_fine one_file.

Definition replay_demo_begin : fine_demo ReplaySource replay_pc := fdemo_begin (ReplaySource_new "a.jsonl") ∅.
Definition replay_demo_steps : list (source_event Z) :=
  [SourceStart; SourceCall] ++ repeat (SourceInner 5%Z) 3 ++ [SourceCall] ++
  repeat (SourceInner 5%Z) 2 ++ [SourceFlag; SourceClose].

Tactic Notation "replay_inner" hyp(E) :=
  eapply fdemo_run_step in E; [|eapply (fdemo_inner _ _ _ _ 5%Z); [by split|vm_compute; reflexivity]].

Lemma replay_demo_goes : fine_demo_runs None false replay_demo_begin [replayedEvent] replay_demo_steps
  (FineD demo_returned NotInNext false).
Proof.
  pose proof (fdemo_refl None false replay_demo_begin) as E.
  eapply fdemo_run_step in E; [|eapply fdemo_main; [discriminate|by eapply demo_start]].
  demo_now E (FineD demo_polling outside false). unfold demo_polling in E.
  eapply fdemo_run_step in E; [|eapply fdemo_call; by split].
  replay_inner E. replay_inner E.
  eapply fdemo_run_step in E; [|eapply (fdemo_gives _ _ _ _ 5%Z replayedEvent); [by split|vm_compute; reflexivity]].
  demo_now E (FineD (Demo after_line 0 [] None (Got replayedEvent) Polling false ∅) outside false).
  demo_threads E count_event. demo_threads E write_event. demo_threads E sample_event.
  demo_now E (FineD (Demo after_line 1 [(1%Z, replayedEvent)] None InNext Polling false ∅) outside false).
  eapply fdemo_run_step in E; [|eapply fdemo_call; by split].
  replay_inner E.
  eapply fdemo_run_step in E; [|eapply (fdemo_ends _ _ _ _ 5%Z); [by split|vm_compute; reflexivity]].
  demo_now E (FineD (Demo at_end 1 [(1%Z, replayedEvent)] None LoopLeft Polling false ∅) outside false).
  demo_threads E say_farewell. demo_threads E set_flag. demo_does E demo_poll.
  eapply fdemo_run_step in E; [|by eapply fdemo_flag].
  eapply fdemo_run_step in E; [|eapply fdemo_stop; [reflexivity|eapply demo_stop]].
  demo_does E demo_join. exact E.
Qed.
End ReplayRun.

(** ** Properties *)

(** C27: told to stop, the live demo ends.  From any reachable state in which
    [main] has called [stop()], wherever the thread is inside [next] (sleeping,
    reading from a network that is silent, parsing), and with a network that brings
    no number too large for a double: the thread and [main] make finitely many steps
    together and the process does not die; and where it can make no step without the
    network's help, [main] has joined the thread and returned, or the thread is
    still resolving, connecting or shaking hands in [connectOnce]. *)
Theorem live_demo_shutdown `{JsonLaws} (brings : string -> Prop) recorder signals config fs es st
  (f : fine_demo LiveSource LiveSource.pc)
  (Hr : fine_demo_runs (H0 := live_fine brings) recorder signals
    (fdemo_begin (H0 := live_fine brings) (LiveSource_new config) fs) es st f)
  (Hb : forall raw time x, brings raw -> judge raw time <> Fatal x)
  (Hm : demo_main (dem f) = Joining) :
  sn (fine_demo_moves (H0 := live_fine brings) recorder) f /\
  forall f', rtc (fine_demo_moves (H0 := live_fine brings) recorder) f f' ->
    demo_main (dem f') <> Terminated /\
    (nf (fine_demo_own_moves (H0 := live_fine brings) recorder) f' ->
       demo_main (dem f') = Returned \/ connecting (demo_place f') = true).
Proof.
  apply (fine_demo_ends (FineLaws0 := live_fine_laws brings) recorder signals (LiveSource_new config) fs es st f);
    [exact I| |exact Hr|exact Hm].
  intros x (raw & time & Hraw & Hj). by destruct (Hb raw time x).
Qed.

Lemma live_demo_shutdown_witness :
  sn (@fine_demo_moves tree_ops _ _ _ (live_fine one_trade) None) demo_joins.
Proof.
  refine (proj1 (@live_demo_shutdown tree_ops tree_laws one_trade None true default_config ∅ _ _ _
    (demo_goes_joins one_trade eq_refl) _ _)).
  - exact one_trade_harmless.
  - reflexivity.
Defined.

(** C28: what the network brought is what the demo showed.  When the live demo has
    returned: the total of its last line is the number of trades parsed from the
    WebSocket messages received, each message having become one or been counted as
    malformed; the capture file is what recording these trades in order makes it;
    and the k-th line printed, from 0, is about the trade number 20 k + 1. *)
Theorem live_demo_exact `{JsonLaws} (brings : string -> Prop) recorder signals config fs es st
  (f : fine_demo LiveSource LiveSource.pc)
  (Hr : fine_demo_runs (H0 := live_fine brings) recorder signals
    (fdemo_begin (H0 := live_fine brings) (LiveSource_new config) fs) es st f)
  (Hm : demo_main (dem f) = Returned)
  (Hn : (Z.of_nat (count is_message (source_trace st)) < two64)%Z) :
  let received := messages (source_trace st) in
  let trades := omap good received in
  farewell (dem f) = Some (Z.of_nat (length trades)) /\
  length received = length trades + count is_malformed (source_trace st) /\
  match recorder with
  | Some r => record_all r trades fs = Ok (demo_disk (dem f))
  | None => demo_disk (dem f) = fs
  end /\
  forall k, lines_printed (dem f) !! k = (fun e => (Z.of_nat (20 * k + 1), e)) <$> trades !! (20 * k).
Proof.
  cbn. destruct (live_demo_given brings recorder signals config fs es st f Hr Hm) as [He Hsum].
  assert (Hfit : fit (FineLaws := live_fine_laws brings) (LiveSource_new config)) by exact I.
  rewrite <-He. rewrite messages_count in *.
  destruct (fine_demo_report (FineLaws0 := live_fine_laws brings) recorder signals (LiveSource_new config)
    fs es st f Hfit Hr Hm) as (_ & Hf & Hd & Hl); [lia|]. by split_and!.
Qed.

Lemma live_demo_exact_witness :
  farewell (dem demo_over) = Some 1%Z /\ lines_printed (dem demo_over) !! 0 = Some (1%Z, liveEvent).
Proof.
  destruct (@live_demo_exact tree_ops tree_laws one_trade None true default_config ∅ _ _ _
    (demo_goes_over one_trade eq_refl)) as (Hf & _ & _ & Hl); [reflexivity|reflexivity|].
  assert (Ht : omap (@good tree_ops) (messages (source_trace demo_steps_joins)) = [liveEvent])
    by (vm_compute; reflexivity).
  rewrite Ht in Hf, Hl. split; [exact Hf|exact (Hl 0)].
Defined.

(** One thing kills the live demo.  Over a network that brings anything at all
    and with any recorder, the process dies exactly when a message has been parsed
    that holds a number the JSON library throws [out_of_range] for. *)
Theorem live_demo_dies_iff `{JsonLaws} (brings : string -> Prop) recorder signals config fs es st
  (f : fine_demo LiveSource LiveSource.pc)
  (Hr : fine_demo_runs (H0 := live_fine brings) recorder signals
    (fdemo_begin (H0 := live_fine brings) (LiveSource_new config) fs) es st f) :
  demo_main (dem f) = Terminated <->
  exists raw time x, (raw, time) ∈ messages (source_trace st) /\ judge raw time = Fatal x /\
    demo_place f <> Parsing raw time.
Proof.
  destruct (demo_live_runs brings recorder signals config fs es st f Hr) as [Hl _].
  destruct (demo_throws brings recorder signals config fs es st f Hr) as [Hn Ht]. split.
  - intros Hd. destruct (Ht Hd) as [[x Hx] ->].
    destruct (throw_fatal _ _ _ _ Hl Hx) as (raw & time & Hin & Hj). by exists raw, time, x.
  - intros (raw & time & x & Hin & Hj & Hp).
    destruct (fatal_judged _ _ _ _ _ _ Hl Hin Hj) as [|Hx]; [done|].
    destruct (demo_main (dem f)) eqn:Hm; try done; exfalso; specialize (Hn ltac:(done));
      apply count_zero in Hn; rewrite Forall_forall in Hn; by specialize (Hn _ Hx).
Qed.

Lemma live_demo_dies_iff_witness : demo_main (dem demo_dead) = Terminated.
Proof.
  apply (@live_demo_dies_iff tree_ops tree_laws (fun _ => True) None true default_config ∅ _ _ _
    (demo_goes_dead (fun _ => True) I)).
  exists overflowing_number, 7%Z, (OutOfRange "406").
  split; [|split; [vm_compute; reflexivity|discriminate]].
  vm_compute. left.
Defined.

(** In live mode the thread's own [g_shutdown_requested = true] changes
    nothing, as its comment says: whenever the thread has left its loop the flag was
    set already, and only a signal sets it. *)
Theorem live_demo_needs_signal `{JsonLaws} (brings : string -> Prop) recorder signals config fs es st
  (f : fine_demo LiveSource LiveSource.pc)
  (Hr : fine_demo_runs (H0 := live_fine brings) recorder signals
    (fdemo_begin (H0 := live_fine brings) (LiveSource_new config) fs) es st f) :
  (left_loop f -> g_shutdown_requested (dem f) = true) /\
  (g_shutdown_requested (dem f) = true -> signals = true).
Proof. exact (demo_flag_set brings recorder signals config fs es st f Hr). Qed.

Lemma live_demo_needs_signal_witness : g_shutdown_requested (dem demo_joins) = true.
Proof.
  exact (proj1 (@live_demo_needs_signal tree_ops tree_laws one_trade None true default_config ∅ _ _ _
    (demo_goes_joins one_trade eq_refl)) I).
Defined.

(** C29: what is shown is the file, or the part of it read before a signal.  When
    the replaying demo has returned, the events received are, in order and up to
    their receipt time, the events of the first lines of the capture, and of all
    its lines if no signal came; the total printed is their number; the capture
    written is what recording them makes it; and the k-th line printed, from 0, is
    about the event number 20 k + 1. *)
Theorem replay_demo_exact `{JsonLaws} (read_file : string -> option string) path text recorder signals
  fs es st (f : fine_demo ReplaySource replay_pc)
  (Hfile : read_file path = Some text)
  (Hr : fine_demo_runs (H0 := replay_fine read_file) recorder signals
    (fdemo_begin (H0 := replay_fine read_file) (ReplaySource_new path) fs) es st f)
  (Hm : demo_main (dem f) = Returned)
  (Hn : (Z.of_nat (length (getlines newline text)) < two64)%Z) :
  exists pre rest, getlines newline text = pre ++ rest /\ (signals = false -> rest = []) /\
    untimed <$> es = untimed <$> replayed_events pre /\
    farewell (dem f) = Some (Z.of_nat (length (replayed_events pre))) /\
    match recorder with
    | Some r => record_all r es fs = Ok (demo_disk (dem f))
    | None => demo_disk (dem f) = fs
    end /\
    forall k, lines_printed (dem f) !! k = (fun e => (Z.of_nat (20 * k + 1), e)) <$> es !! (20 * k).
Proof.
  assert (Hfit : fit (FineLaws := replay_fine_laws read_file path) (ReplaySource_new path)) by exact eq_refl.
  destruct (demo_coarse (FineLaws0 := replay_fine_laws read_file path) recorder signals _ _ _ _ _ Hfit Hr)
    as (Hinv & a & _ & Hc).
  apply demo_inv_runs in Hc as [_ _ _ Hover]. cbn in Hover. rewrite Hm in Hover.
  assert (Hp : demo_place f = NotInNext)
    by (destruct (fd_place (FineLaws0 := replay_fine_laws read_file path) f Hinv) as [Hp|Hp]; [exact Hp|congruence]).
  destruct (demo_read read_file path text Hfile recorder signals fs es st f Hr Hm Hover Hp)
    as (pre & rest & Hl & Hrest & Hu).
  assert (Hlen : length es = length (replayed_events pre))
    by (apply (f_equal length) in Hu; by rewrite !length_fmap in Hu).
  destruct (fine_demo_report (FineLaws0 := replay_fine_laws read_file path) recorder signals
    (ReplaySource_new path) fs es st f Hfit Hr Hm) as (_ & Hf & Hd & Hk).
  { pose proof (replayed_short pre). rewrite Hl, length_app in Hn. lia. }
  exists pre, rest. rewrite <-Hlen. by split_and!.
Qed.

Lemma replay_demo_exact_witness :
  exists pre rest, getlines newline one_line = pre ++ rest /\ (false = false -> rest = []) /\
    untimed <$> [replayedEvent] = untimed <$> @replayed_events tree_ops pre.
Proof.
  destruct (@replay_demo_exact tree_ops tree_laws one_file "a.jsonl" one_line None false ∅ _ _ _
    eq_refl replay_demo_goes) as (pre & rest & Hl & Hrest & Hu & _); [reflexivity|reflexivity|].
  exists pre, rest. split; [exact Hl|split; [exact Hrest|exact Hu]].
Defined.
