(* ===== verification/EndToEnd.v ===== *)
(** * From the feed to the consumer's report

    The two services together: what services/ingestion/main.cpp has sent when
    it has returned, through a Kafka topic, as services/consumer/main.cpp
    reports it.  The broker is not the repository's: what its documentation
    says of a topic is [topic_log]. *)
From S2P Require Import Prelude CxxStrings Config MarketEvent Json JsonTree MarketEventJson EventRecorder.
From S2P Require Import BinanceTradeParser BoundedQueue Interfaces IngestionPipeline PipelineInvariant PipelineProperties.
From S2P Require Import ReplaySource PipelineReplay Kafka KafkaProperties PipelineKafka EventTypes FineSource.
From S2P Require Import IngestionService ServiceInvariant ServiceDemo ServiceProperties ServiceReplay.
From S2P Require Import ConsumerService ConsumerThreads.
From S2P Require Import LiveSource LiveProperties SourceSteps FineService LiveService ReplayService FineProperties.

(** ** The topic *)

(** What was polled: the payloads, each with its partition. *)
Definition arrivals (polls : list poll_result) : list (Z * string) :=
  omap (fun m => match m with PollMessage payload part _ => Some (part, payload) | _ => None end) polls.

(** The messages kept, each in the partition of its key. *)
Definition in_partitions (partitioner : string -> Z) (kept : list (string * string * string))
    : list (Z * string) := (fun m => (partitioner m.1.2, m.2)) <$> kept.

Definition of_part (part : Z) (l : list (Z * string)) : list (Z * string) :=
  filter (fun x => x.1 = part) l.

(** What a broker has stored of the messages sent: copies of them, by number.  A
    message may be there more than once (librdkafka sends it again when the
    acknowledgment was lost), not at all, or after one that was sent later. *)
Definition stored {A} (copies : list nat) (sent : list A) : list A := omap (fun i => sent !! i) copies.

Definition on_topic (topic : string) (outbox : list (string * string * string))
    : list (string * string * string) := filter (fun m => m.1.1 = topic) outbox.

(** A topic nobody else writes to: the messages of one key are in one partition,
    and a new group, from the earliest offset on, has polled some first messages of
    each partition, in order. *)
Definition topic_log (outbox : list (string * string * string)) (topic : string)
    (partitioner : string -> Z) (copies : list nat) (polls : list poll_result) : Prop :=
  forall part, of_part part (arrivals polls) `prefix_of`
    of_part part (in_partitions partitioner (stored copies (on_topic topic outbox))).

Section Stored.
Context {A B : Type}.
Implicit Types (copies : list nat).

Lemma stored_Forall2 (R : A -> B -> Prop) copies l k :
  Forall2 R l k -> Forall2 R (stored copies l) (stored copies k).
Proof.
  intros Hr. unfold stored. induction copies as [|i copies IH]; [constructor|]. cbn.
  destruct (l !! i) as [x|] eqn:Hx.
  - destruct (Forall2_lookup_l _ _ _ _ _ Hr Hx) as (y & -> & Hxy). by constructor.
  - destruct (k !! i) as [y|] eqn:Hy; [|exact IH].
    destruct (Forall2_lookup_r _ _ _ _ _ Hr Hy) as (x & Hx' & _). congruence.
Qed.

Lemma stored_elem copies (l : list A) x : x ∈ stored copies l -> x ∈ l.
Proof. intros (i & _ & Hi)%list_elem_of_omap. by eapply list_elem_of_lookup_2. Qed.

Lemma stored_once (l : list A) : stored (seq 0 (length l)) l = l.
Proof.
  unfold stored. induction l as [|x l IH]; [done|]. cbn [length seq omap list_omap].
  rewrite <-(fmap_S_seq 0). cbn. f_equal. etrans; [|exact IH]. clear.
  induction (seq 0 (length l)) as [|i ks IH]; [done|]. cbn. by rewrite IH.
Qed.

Lemma stored_all copies (l : list A) : copies ≡ₚ seq 0 (length l) -> stored copies l ≡ₚ l.
Proof. intros Hc. rewrite <-(stored_once l) at 2. unfold stored. by rewrite Hc. Qed.

Lemma stored_each copies (l : list A) x :
  (forall i, i < length l -> i ∈ copies) -> x ∈ l -> x ∈ stored copies l.
Proof.
  intros Hc [i Hi]%list_elem_of_lookup_1. apply list_elem_of_omap. exists i. split; [|done].
  eapply Hc, lookup_lt_Some, Hi.
Qed.
End Stored.

(** Lists with the same first elements in every partition. *)
Lemma of_part_split part x l k :
  x.1 = part -> of_part part l = x :: k ->
  exists l1 l2, l = l1 ++ x :: l2 /\ of_part part l1 = [] /\ of_part part l2 = k.
Proof.
  intros Hx. induction l as [|y l IH]; [done|]. unfold of_part in *. rewrite filter_cons.
  case_decide as Hy.
  - intros [= -> Hk]. by exists [], l.
  - intros (l1 & l2 & -> & Hl1 & Hl2)%IH. exists (y :: l1), l2.
    split_and!; [done| |done]. by rewrite filter_cons_False.
Qed.

Lemma prefixes_rest l : forall k,
  (forall part, of_part part l `prefix_of` of_part part k) -> exists rest, k ≡ₚ l ++ rest.
Proof.
  induction l as [|x l IH]; intros k Hp; [by exists k|].
  destruct (Hp x.1) as [rest Hr]. unfold of_part at 2 in Hr. rewrite filter_cons_True in Hr by done.
  destruct (of_part_split x.1 x k _ eq_refl Hr) as (k1 & k2 & -> & Hk1 & Hk2).
  destruct (IH (k1 ++ k2)) as [rest' Hr'].
  - intros part. specialize (Hp part). unfold of_part in *. rewrite filter_cons in Hp.
    rewrite filter_app in *. rewrite filter_cons in Hp. case_decide as Hx; [|exact Hp].
    rewrite <-Hx, Hk1 in *. cbn in *. by apply prefix_cons_inv_2 in Hp.
  - exists rest'. by rewrite <-Permutation_middle, Hr'.
Qed.

(** ** Reading the messages of events *)
Section Reading.
Context `{JsonLaws}.

Definition decode (payload : string) : option MarketEvent :=
  match json_parse payload with
  | Ok j => (read_event j None).1
  | Throw _ => None
  end.

(** What is read from the message of an event: a price that is no number is
    lost (src/market_event_json.cpp prints it as null). *)
Definition readable (e : MarketEvent) : option MarketEvent :=
  if is_finite (price e) then Some (restored e) else None.

(** The message of an event. *)
Definition carries (t : string) (e : MarketEvent) (m : string * string * string) : Prop :=
  m.1 = (t, symbol e) /\ event_line e = Ok m.2.

Lemma decode_line e l : typed e -> event_line e = Ok l ->
  decode l = readable e /\ exists j, json_parse l = Ok j.
Proof.
  intros (Hwf & Hu & Hs) Hl. unfold decode, readable. destruct (is_finite (price e)) eqn:Hf.
  - destruct (event_line_read e None Hwf Hu Hs Hf) as (l' & j & Hl' & Hj & Hr).
    assert (l' = l) as -> by congruence. rewrite fromJson_read in Hr. injection Hr as Hr.
    rewrite Hj, Hr. eauto.
  - destruct (event_line_parse e Hwf Hu) as (l' & j & Hl' & Hj & Hr).
    assert (l' = l) as -> by congruence. rewrite Hj. split; [|eauto]. unfold read_event.
    rewrite (reflects_back_nonfinite e j Hf Hr). by repeat case_match.
Qed.

Lemma sent_carries t es : forall bs, Forall typed es ->
  Forall2 (carries t) (accepted es bs) (sent_messages t (zip es bs)).
Proof.
  induction es as [|e es IH]; intros bs Hes; [constructor|].
  apply Forall_cons in Hes as [He Hes]. destruct bs as [|b bs]; [constructor|].
  destruct (typed_line e He) as (l & Hl & _). specialize (IH bs Hes).
  unfold accepted, sent_messages, message_of in *. cbn [zip] in *.
  destruct b; cbn; [rewrite Hl|exact IH]. by constructor.
Qed.

(** What the records read are, by the payloads alone. *)
Lemma records_decoded polls : event <$> omap record_of polls = omap decode (arrivals polls).*2.
Proof.
  induction polls as [|[|what|payload part off] polls IH]; [done|exact IH..|].
  unfold arrivals in *. cbn. unfold decode at 1. destruct (json_parse payload) as [j|]; [|exact IH].
  destruct (read_event j None).1 as [e|]; [|exact IH]. cbn. f_equal. exact IH.
Qed.

(** Every message is a record or malformed. *)
Lemma arrivals_sum polls :
  Forall (fun x => exists j, json_parse x.2 = Ok j) (arrivals polls) ->
  length (omap record_of polls) + count Kafka.is_malformed polls = length (arrivals polls).
Proof.
  induction polls as [|[|what|payload part off] polls IH]; [done|exact IH..|].
  unfold arrivals in *. cbn. intros [[j Hj] Hall]%Forall_cons. specialize (IH Hall). cbn in Hj.
  rewrite Hj. destruct (read_event j None).1; cbn; lia.
Qed.

Definition of_symbol (s : string) (es : list MarketEvent) : list MarketEvent :=
  filter (fun e => symbol e = s) es.

(** The events of a symbol are those of its partition. *)
Lemma of_symbol_part partitioner s (l : list (Z * string)) :
  Forall (fun x => forall e, decode x.2 = Some e -> partitioner (symbol e) = x.1) l ->
  of_symbol s (omap decode l.*2) = of_symbol s (omap decode (of_part (partitioner s) l).*2).
Proof.
  unfold of_symbol, of_part. induction l as [|[part payload] l IH]; [done|].
  intros [Hx Hl]%Forall_cons. specialize (IH Hl). cbn in Hx. rewrite filter_cons. cbn.
  case_decide as Hp; cbn; (destruct (decode payload) as [e|] eqn:He; [|exact IH]);
    rewrite !filter_cons; (case_decide as Hs; [|exact IH]).
  - by rewrite IH.
  - subst s. by destruct Hp, (Hx e eq_refl).
Qed.

Lemma decode_prefix s (l k : list (Z * string)) :
  l `prefix_of` k -> of_symbol s (omap decode l.*2) `prefix_of` of_symbol s (omap decode k.*2).
Proof.
  intros [rest ->]. unfold of_symbol. rewrite fmap_app, omap_app, filter_app. by apply prefix_app_r.
Qed.

(** The messages of typed events, in their partitions. *)
Lemma carried t partitioner arrived kept :
  Forall typed arrived -> Forall2 (carries t) arrived kept ->
  Forall (fun x => (exists j, json_parse x.2 = Ok j) /\
    forall e, decode x.2 = Some e -> partitioner (symbol e) = x.1) (in_partitions partitioner kept) /\
  omap decode (in_partitions partitioner kept).*2 = omap readable arrived.
Proof.
  intros Hty Hc. induction Hc as [|e m arrived kept [Hk Hl] Hc IH]; [by split; [constructor|]|].
  apply Forall_cons in Hty as [He Hty]. destruct (IH Hty) as [IH1 IH2].
  destruct (decode_line e m.2 He Hl) as [Hd Hj]. split.
  - constructor; [|exact IH1]. cbn. split; [exact Hj|]. intros e'. rewrite Hd, Hk. unfold readable.
    destruct (is_finite (price e)); [|done]. by intros [= <-].
  - cbn. rewrite Hd. unfold in_partitions in IH2. by rewrite IH2.
Qed.

Lemma readable_count es :
  length (omap readable es) = count (fun e => is_finite (price e)) es /\
  length es = count (fun e => is_finite (price e)) es + count (fun e => negb (is_finite (price e))) es.
Proof.
  induction es as [|e es [IH1 IH2]]; [done|]. cbn [omap list_omap count length].
  unfold readable at 1. destruct (is_finite (price e)); cbn [length negb]; split; lia.
Qed.

(** ** What the consumer makes of a topic *)
Section Report.
Context {K : Type}.
Context (topic : string) (partitioner : string -> Z) (kept : list (string * string * string)).
Implicit Types (out : consumer_output K).

(** The report over the events whose messages the broker has stored: how many
    records and malformed messages, the latter at most one for each price that is no
    finite number; of each symbol the first events, in the order of the log; and
    each once for each of its copies when everything stored has been polled. *)
Definition reports_of (arrived : list MarketEvent) (polls : list poll_result) out : Prop :=
  let records := event <$> omap record_of polls in
  let expected := omap readable arrived in
  report_on polls out /\
  total_line out = (Z.of_nat (length records), Z.of_nat (length (arrivals polls) - length records)) /\
  length (arrivals polls) <= length arrived /\
  length records <= length (arrivals polls) <=
    length records + count (fun e => negb (is_finite (price e))) arrived /\
  (forall s, of_symbol s records `prefix_of` of_symbol s expected) /\
  (length (arrivals polls) = length arrived ->
     records ≡ₚ expected /\
     total_line out = (Z.of_nat (count (fun e => is_finite (price e)) arrived),
                       Z.of_nat (count (fun e => negb (is_finite (price e))) arrived))).

Lemma reports_arrived arrived polls out :
  (forall part, of_part part (arrivals polls) `prefix_of` of_part part (in_partitions partitioner kept)) ->
  Forall typed arrived -> Forall2 (carries topic) arrived kept ->
  report_on polls out -> reports_of arrived polls out.
Proof.
  intros Hpre Hty Hc Hout. assert (Ht := Hout). destruct Ht as (Ht & _).
  destruct (carried topic partitioner arrived kept Hty Hc) as [Hall Hdec].
  destruct (prefixes_rest _ _ Hpre) as [more Hperm].
  assert (Hread := Hall). rewrite Hperm, Forall_app in Hread. destruct Hread as [Hread _].
  pose proof (arrivals_sum polls (Forall_impl _ _ _ Hread (fun x Hx => proj1 Hx))) as Hsum.
  assert (Hlen : length arrived = length (arrivals polls) + length more).
  { rewrite (Forall2_length _ _ _ Hc). apply Permutation_length in Hperm.
    unfold in_partitions in Hperm. by rewrite length_fmap, length_app in Hperm. }
  assert (Hrec : Permutation (omap readable arrived) ((event <$> omap record_of polls) ++ omap decode more.*2))
    by (by rewrite records_decoded, <-Hdec, Hperm, fmap_app, omap_app).
  pose proof (Permutation_length Hrec) as Hreclen. rewrite length_app, length_fmap in Hreclen.
  pose proof (omap_short decode more.*2) as Hmore. rewrite length_fmap in Hmore.
  destruct (readable_count arrived) as [Hf Hs].
  unfold reports_of. rewrite length_fmap. split_and!; try lia; [exact Hout|..].
  - rewrite Ht. do 2 f_equal. lia.
  - intros s. rewrite records_decoded, <-Hdec.
    rewrite (of_symbol_part partitioner s (arrivals polls)), (of_symbol_part partitioner s (in_partitions _ _))
      by (eapply Forall_impl; [eassumption|]; by intros x [_ ?]).
    apply decode_prefix, Hpre.
  - intros E. assert (more = []) as -> by (destruct more; [done|cbn in Hlen; lia]).
    cbn in Hrec, Hreclen. rewrite app_nil_r in Hrec. split; [by symmetry|].
    rewrite Ht. do 2 f_equal; lia.
Qed.

(** How often an event is read, and when: as the broker has stored it.  In the order
    of publication, for each symbol, if each message is there once and in its place;
    once all is polled, once each if it has stored each once, and at least once if it
    has stored each. *)
Definition read_as_stored (published : list MarketEvent) (copies : list nat) (polls : list poll_result) : Prop :=
  let records := event <$> omap record_of polls in
  (copies = seq 0 (length published) ->
     forall s, of_symbol s records `prefix_of` of_symbol s (omap readable published)) /\
  (length (arrivals polls) = length (stored copies published) ->
    (copies ≡ₚ seq 0 (length published) -> records ≡ₚ omap readable published) /\
    ((forall i, i < length published -> i ∈ copies) ->
     forall e, e ∈ omap readable published -> e ∈ records)).

Lemma reports_stored published copies polls out :
  reports_of (stored copies published) polls out -> read_as_stored published copies polls.
Proof.
  intros (_ & _ & _ & _ & Hpre & Hfull). split.
  { intros ->. by rewrite stored_once in Hpre. }
  intros E. destruct (Hfull E) as [Hp _]. split.
  - intros Hc. by rewrite Hp, (stored_all copies published Hc).
  - intros Hc e. rewrite Hp. intros (x & Hx & He)%list_elem_of_omap.
    apply list_elem_of_omap. exists x. split; [by apply stored_each|done].
Qed.
End Report.
End Reading.

Lemma accepted_elem es bs e : e ∈ accepted es bs -> e ∈ es.
Proof.
  intros ([e' b] & Hz & He)%list_elem_of_omap. destruct b; [|done]. injection He as ->.
  by eapply elem_of_zip_l.
Qed.

(** A new producer's messages are on its topic, one for each event published. *)
Section Sent.
Context `{JsonLaws} `{KafkaLaws K}.
Implicit Types (u v : KafkaEventProducer K).

Lemma sent_on_topic t es bs :
  filter (fun m : string * string * string => m.1.1 = t) (sent_messages t (zip es bs)) =
    sent_messages t (zip es bs).
Proof.
  apply filter_keeps_all, Forall_forall. intros m (eb & _ & Hm)%list_elem_of_omap.
  unfold message_of in Hm. destruct eb.2; [|done]. destruct (event_line eb.1); [|done].
  by injection Hm as <-.
Qed.

Lemma arrived_stored environ u v es bs copies :
  KafkaEventProducer_new (kafka_config environ) = Ok u -> Forall typed es ->
  outbox (producer_ v) = outbox (producer_ u) ++ sent_messages (topic (pconfig_ u)) (zip es bs) ->
  Forall typed (stored copies (accepted es bs)) /\
  Forall2 (carries (ctopic (consumer_config environ))) (stored copies (accepted es bs))
    (stored copies (on_topic (ctopic (consumer_config environ)) (outbox (producer_ v)))).
Proof.
  intros Hu Hes Ho. apply new_producer_ok in Hu as (_ & Hc & Hnil).
  rewrite Hnil, Hc in Ho. cbn in Ho.
  change (topic (kafka_config environ)) with (ctopic (consumer_config environ)) in Ho.
  unfold on_topic. rewrite Ho, sent_on_topic. split.
  - apply Forall_forall. intros e He%stored_elem%accepted_elem. rewrite Forall_forall in Hes. auto.
  - by apply stored_Forall2, sent_carries.
Qed.
End Sent.

(** The prices of a capture are numbers: what is replayed from it is read as it is. *)
Definition stable `{JsonOps} (e : MarketEvent) : Prop := recordable e /\ restored e = e.

Lemma restored_stable `{JsonOps} es : Forall recordable es -> Forall stable (restored <$> es).
Proof.
  intros Hes. apply Forall_fmap. eapply Forall_impl; [exact Hes|]. intros e He.
  split; [by apply recordable_restored|apply restored_idemp, He].
Qed.

Lemma stable_readable `{JsonOps} es : Forall stable es ->
  omap readable es = es /\ count (fun e => negb (is_finite (price e))) es = 0.
Proof.
  induction 1 as [|e es [(Hwf & _ & _ & Hf) Hr] _ [IH1 IH2]]; [done|]. cbn. unfold readable at 1.
  by rewrite Hf, Hr, IH1, IH2.
Qed.

Lemma stable_typed `{JsonLaws} es : Forall stable es -> Forall typed es.
Proof. intros Hes. eapply Forall_impl; [exact Hes|]. by intros e [(? & ? & ? & _) _]. Qed.

Lemma good_typed `{JsonLaws} received : Forall typed (omap good received).
Proof.
  apply Forall_forall. intros e ([raw time] & _ & Hg)%list_elem_of_omap. unfold good in Hg. cbn in Hg.
  destruct (judge raw time) eqn:Hj; simplify_eq. by eapply judge_typed.
Qed.

(** ** Properties *)

(** C5: from the WebSocket to the consumer's report.  The live service, started
    with a new producer, has returned, and the consumer service, on the same
    environment, has printed its report, after polls of a topic nobody else writes
    to.  The last line of the first gives the number of trades parsed from the
    messages received, of those published and of those that failed.  Whatever
    copies of the published messages the broker has stored (some more than once
    after a resend, some not, in any order): the consumer's report is that of its
    polls; of each symbol it has read the first trades stored, in the order of the
    log, up to milliseconds, which is the order of the messages received if each is
    stored once and in its place; and when it has polled all that is stored it has
    read each trade once for each of its copies, except those with a price that is no
    finite number, which it has counted as malformed.  So it has read each trade at
    least once if the broker has stored each, and once if it has stored each
    once. *)
Theorem live_to_consumer `{JsonLaws} `{KafkaLaws K} `{QueueLaws Queue MarketEvent} `{Librdkafka K'}
  (brings : string -> Prop) environ config (u v : KafkaEventProducer K) cap r fs tr st
  (f : fine_service LiveSource LiveSource.pc K Queue)
  (Hu : KafkaEventProducer_new (kafka_config environ) = Ok u)
  (Hr : fine_runs (H0 := live_fine brings)
    (fine_begin (H0 := live_fine brings) (LiveSource_new config) u cap r fs) tr st f)
  (Hx : main (svc f) = Exited v)
  (Hn : (Z.of_nat (count is_message (source_trace st)) < two64)%Z)
  (c : KafkaEventConsumer K') polls p (out : consumer_output K') partitioner copies
  (Hc : KafkaEventConsumer_new (consumer_config environ) = Ok c)
  (Hp : process_runs (process_begin c) polls p) (Hout : main_at p = Printed out)
  (Hlog : topic_log (outbox (producer_ v)) (ctopic (consumer_config environ)) partitioner copies polls)
  (Hl : (Z.of_nat (length polls) < two64)%Z) :
  let trades := omap good (messages (source_trace st)) in
  exists bs, length bs = length trades /\
    (exists mark succeeded failed, List.last (printed (svc f)) (StatsLine []) =
       FinalLine [Z.of_nat (length trades); Z.of_nat (count id bs); Z.of_nat (count negb bs);
                  mark; Z.of_nat cap; succeeded; failed]) /\
    let published := accepted trades bs in
    reports_of (stored copies published) polls out /\ read_as_stored published copies polls.
Proof.
  destruct (live_exit brings config u v cap r fs tr st f Hr Hx (proj1 (new_producer_ok _ _ Hu)) Hn)
    as (_ & _ & bs & Hlen & Ho & Hlast). cbn zeta.
  pose proof (good_typed (messages (source_trace st))) as Hty.
  destruct (arrived_stored environ u v _ bs copies Hu Hty Ho) as [Hat Hcarry].
  destruct (new_consumer _ _ Hc) as (_ & _ & Hmal).
  destruct (printed_report c polls p out Hmal Hp Hout Hl) as [_ Hrep].
  pose proof (reports_arrived _ _ _ _ polls out Hlog Hat Hcarry Hrep) as Hreports.
  exists bs. split_and!; try done. by eapply reports_stored.
Qed.

(** The consumer's run over what [live_runs_exited] sent, stored twice. *)
Definition demo_environ : gmap string string :=
  <["KAFKA_BOOTSTRAP_SERVERS"%string := "b"%string]> {["KAFKA_TOPIC"%string := "t"%string]}.
Definition topic_polls (payload : string) : list poll_result :=
  [PollMessage payload 3 0; PollNothing; PollMessage payload 3 1].
Definition sent_payload (p : KafkaEventProducer broker) : string :=
  match box (producer_ p) with [m] => m.2 | _ => EmptyString end.

Definition topic_consumer (stop : bool) (n : Z) : KafkaEventConsumer broker :=
  {| cconfig_ := consumer_config demo_environ; consumer_ := {| box := []; KafkaProperties.told := 0; room := 1 |};
     Kafka.stop_requested_ := stop; messages_consumed_ := n; Kafka.messages_malformed_ := 0 |}.
Definition report_of (e : MarketEvent) : consumer_output broker :=
  {| sampled_lines := [(3%Z, 0%Z, symbol e, price e)];
     total_line := (2%Z, 0%Z); partition_lines := [(3%Z, 2%Z)];
     consumer_left := topic_consumer true 2 |}.
Definition topic_process (e : MarketEvent) : process broker :=
  Proc (topic_consumer true 2) 2 {[3%Z := 2%Z]} [(3%Z, 0%Z, symbol e, price e)] ThreadEnded
    (Printed (report_of e)) true.

Section TopicRun.
#[local] Existing Instance tree_ops.
Context (payload : string) (e : MarketEvent).
Context (Hread : exists j eo, json_parse payload = Ok j /\ marketEventFromJson j None = Ok (Some e, eo)).

Lemma topic_turn (c : KafkaEventConsumer broker) off :
  next_turn 0 (PollMessage payload 3 off) c =
    GotRecord (count_consumed c) {| event := set_ingest_time 0 e; partition := 3; offset := off |}.
Proof. destruct Hread as (j & eo & Hj & He). unfold next_turn. by rewrite Hj, He. Qed.

Lemma topic_runs :
  process_runs (process_begin (topic_consumer false 0)) (topic_polls payload) (topic_process e).
Proof.
  pose proof (process_refl (process_begin (topic_consumer false 0))) as E.
  thread_by E see_go.
  eapply (process_run_step _ _ _ [PollMessage payload 3 0]) in E;
    [|apply thread_moves; [reflexivity|eapply (poll_record _ _ _ _ _ _ 0%Z), topic_turn]].
  thread_by E see_go.
  eapply (process_run_step _ _ _ [PollNothing]) in E;
    [|apply thread_moves; [reflexivity|by eapply (poll_again _ _ _ _ _ _ 0%Z)]].
  thread_by E see_go.
  eapply (process_run_step _ _ _ [PollMessage payload 3 1]) in E;
    [|apply thread_moves; [reflexivity|eapply (poll_record _ _ _ _ _ _ 0%Z), topic_turn]].
  apply process_signal in E. main_by E test_flag. main_by E call_stop. thread_by E see_stop.
  main_by E join_thread. main_by E read_total. main_by E read_malformed. main_by E print_report.
  exact E.
Qed.

(** One message, two copies. *)
Lemma topic_log_twice outbox key : on_topic "t" outbox = [("t"%string, key, payload)] ->
  topic_log outbox "t" (fun _ => 3%Z) [0; 0] (topic_polls payload).
Proof. intros Ho part. by rewrite Ho. Qed.
End TopicRun.

Lemma live_sent_read : exists j eo, @json_parse tree_ops (sent_payload live_flushed) = Ok j /\
  @marketEventFromJson tree_ops j None = Ok (Some (restored liveEvent), eo).
Proof. do 2 eexists. split; [vm_compute; reflexivity|]. vm_compute. reflexivity. Qed.

Lemma live_to_consumer_witness :
  exists bs, length bs = 1 /\
    @reports_of tree_ops broker (stored [0; 0] (accepted [liveEvent] bs))
      (topic_polls (sent_payload live_flushed)) (report_of (restored liveEvent)).
Proof.
  assert (Hu : KafkaEventProducer_new (kafka_config demo_environ) = Ok demo_producer)
    by (vm_compute; reflexivity).
  assert (Hc : KafkaEventConsumer_new (consumer_config demo_environ) = Ok (topic_consumer false 0))
    by (vm_compute; reflexivity).
  assert (Ht : omap (@good tree_ops) (messages (source_trace live_steps_exited)) = [liveEvent])
    by (vm_compute; reflexivity).
  destruct (@live_to_consumer tree_ops tree_laws broker _ _ _ _ _ broker _ one_trade demo_environ
    default_config demo_producer (KafkaEventProducer_destroy live_flushed) 4 None ∅ _ _ _ Hu
    (live_runs_exited one_trade eq_refl None ∅ ∅ eq_refl) eq_refl eq_refl (topic_consumer false 0)
    (topic_polls (sent_payload live_flushed)) (topic_process (restored liveEvent))
    (report_of (restored liveEvent)) (fun _ => 3%Z) [0; 0] Hc)
    as (bs & Hlen & _ & Hrep & _).
  - exact (topic_runs _ _ live_sent_read).
  - reflexivity.
  - eapply topic_log_twice. vm_compute. reflexivity.
  - reflexivity.
  - rewrite Ht in *. exists bs. split; [exact Hlen|exact Hrep].
Defined.

(** C6: from the capture to the consumer's report.  Events that the capture
    format can hold, recorded to a new file, are replayed to Kafka by a service
    that has returned, and the consumer service, on the same environment, has
    printed its report, after polls of a topic nobody else writes to.  The last line
    of the first gives how many events it read — of those recorded the first, and
    all if no signal was handled — and how many were published and failed.  Whatever
    copies of the published messages the broker has stored: the consumer's report is
    that of its polls, none malformed; of each symbol it has read the first events
    stored, in the order of the log, as they were recorded, up to milliseconds and
    their receipt time, which is the order of the capture if each is stored once and
    in its place; and when it has polled all that is stored it has read each event
    once for each of its copies: at least once if the broker has stored each, and
    once if it has stored each once. *)
Theorem capture_to_consumer `{JsonLaws} `{KafkaLaws K} `{QueueLaws Queue MarketEvent} `{Librdkafka K'}
  openable path es (fs0 fs1 fs2 : files) rec environ (u v : KafkaEventProducer K) cap r fs tr st
  (f : fine_service ReplaySource replay_pc K Queue)
  (Hopen : EventRecorder_open openable path fs0 = Ok (rec, fs1))
  (Hnew : fs0 !! path = None) (Hes : Forall recordable es)
  (Hrec : record_all rec es fs1 = Ok fs2)
  (Hu : KafkaEventProducer_new (kafka_config environ) = Ok u)
  (Hr : fine_runs (H0 := replay_fine (fun p => fs2 !! p))
    (fine_begin (H0 := replay_fine (fun p => fs2 !! p)) (ReplaySource_new path) u cap r fs) tr st f)
  (Hx : main (svc f) = Exited v)
  (Hn : forall text, fs2 !! path = Some text -> (Z.of_nat (length (getlines newline text)) < two64)%Z)
  (c : KafkaEventConsumer K') polls p (out : consumer_output K') partitioner copies
  (Hc : KafkaEventConsumer_new (consumer_config environ) = Ok c)
  (Hp : process_runs (process_begin c) polls p) (Hout : main_at p = Printed out)
  (Hlog : topic_log (outbox (producer_ v)) (ctopic (consumer_config environ)) partitioner copies polls)
  (Hl : (Z.of_nat (length polls) < two64)%Z) :
  exists n bs, n <= length es /\
    (shutdown_requested (svc f) = false -> n = length es) /\ length bs = n /\
    (exists mark succeeded failed, List.last (printed (svc f)) (StatsLine []) =
       FinalLine [Z.of_nat n; Z.of_nat (count id bs); Z.of_nat (count negb bs);
                  mark; Z.of_nat cap; succeeded; failed]) /\
    let published := accepted (restored <$> take n es) bs in
    omap readable published = published /\
    total_line out = (Z.of_nat (length (arrivals polls)), 0%Z) /\
    reports_of (stored copies published) polls out /\ read_as_stored published copies polls.
Proof.
  destruct (capture_text openable path es fs0 fs1 fs2 rec Hopen Hnew Hes Hrec) as (text & Hf & Hev).
  destruct (replay_exit (fun p => fs2 !! p) path text u v cap r fs tr st f Hf Hr Hx
    (proj1 (new_producer_ok _ _ Hu)) (Hn text Hf))
    as (pre & rest' & Hlines & Hrest & _ & bs & Hlen & Ho & Hlast).
  rewrite Hlines, replayed_app in Hev. set (n := length (replayed_events pre)).
  assert (Hpre : replayed_events pre = restored <$> take n es)
    by (unfold n; by rewrite fmap_take, <-Hev, take_app_length).
  pose proof (restored_stable _ (Forall_take _ n _ Hes)) as Hst. rewrite <-Hpre in Hst.
  destruct (arrived_stored environ u v _ bs copies Hu (stable_typed _ Hst) Ho) as [Hat Hcarry].
  assert (Hpub : Forall stable (accepted (replayed_events pre) bs))
    by (rewrite Forall_forall in *; intros e He; by eapply Hst, accepted_elem).
  assert (Harr : Forall stable (stored copies (accepted (replayed_events pre) bs)))
    by (rewrite Forall_forall in *; intros e He; by eapply Hpub, stored_elem).
  destruct (new_consumer _ _ Hc) as (_ & _ & Hmal).
  destruct (printed_report c polls p out Hmal Hp Hout Hl) as [_ Hrep].
  pose proof (reports_arrived _ _ _ _ polls out Hlog Hat Hcarry Hrep) as Hreports.
  exists n, bs. rewrite <-Hpre. cbn zeta. split_and!; try done.
  - apply (f_equal length) in Hev. rewrite length_app, length_fmap in Hev. unfold n. lia.
  - intros Hg. rewrite (Hrest Hg), app_nil_r in Hev. unfold n. by rewrite Hev, length_fmap.
  - by apply stable_readable.
  - destruct (stable_readable _ Harr) as [_ Hno]. destruct Hreports as (_ & Ht & _ & Hlo & _).
    rewrite Hno in Hlo. rewrite Ht. do 2 f_equal; lia.
  - by eapply reports_stored.
Qed.

Lemma replay_sent_read : exists j eo, @json_parse tree_ops (sent_payload svc_flushed) = Ok j /\
  @marketEventFromJson tree_ops j None = Ok (Some (restored replayedEvent), eo).
Proof. do 2 eexists. split; [vm_compute; reflexivity|]. vm_compute. reflexivity. Qed.

Lemma capture_to_consumer_witness :
  exists n bs, (false = false -> n = 1) /\ length bs = n /\
    total_line (report_of (restored replayedEvent)) =
      (Z.of_nat (length (arrivals (topic_polls (sent_payload svc_flushed)))), 0%Z) /\
    @reports_of tree_ops broker (stored [0; 0] (accepted (restored <$> take n [sampleEvent]) bs))
      (topic_polls (sent_payload svc_flushed)) (report_of (restored replayedEvent)).
Proof.
  assert (Hu : KafkaEventProducer_new (kafka_config demo_environ) = Ok demo_producer)
    by (vm_compute; reflexivity).
  assert (Hc : KafkaEventConsumer_new (consumer_config demo_environ) = Ok (topic_consumer false 0))
    by (vm_compute; reflexivity).
  destruct (@capture_to_consumer tree_ops tree_laws broker _ _ _ _ _ broker _ (fun _ => true) "a.jsonl"
    [sampleEvent] ∅ {["a.jsonl"%string := EmptyString]} svc_files {| out_path := "a.jsonl" |} demo_environ
    demo_producer (KafkaEventProducer_destroy svc_flushed) 4 None ∅ svc_trace replay_steps
    (Fine svc_exited NotInNext false)) with (c := topic_consumer false 0)
    (polls := topic_polls (sent_payload svc_flushed)) (p := topic_process (restored replayedEvent))
    (out := report_of (restored replayedEvent)) (partitioner := fun _ : string => 3%Z) (copies := [0; 0])
    as (n & bs & _ & Hg & Hlen & _ & _ & Ht & Hrep & _).
  - vm_compute. reflexivity.
  - reflexivity.
  - constructor; [exact sampleEvent_recordable|constructor].
  - vm_compute. reflexivity.
  - exact Hu.
  - exact (replay_runs_exited (fun p => svc_files !! p) eq_refl).
  - reflexivity.
  - intros text Ht. assert (E : svc_files !! "a.jsonl"%string = Some one_line) by reflexivity.
    rewrite E in Ht. injection Ht as <-. vm_compute. reflexivity.
  - exact Hc.
  - exact (topic_runs _ _ replay_sent_read).
  - reflexivity.
  - eapply topic_log_twice. vm_compute. reflexivity.
  - reflexivity.
  - exists n, bs. split; [exact Hg|split; [exact Hlen|split; [exact Ht|exact Hrep]]].
Defined.
