(* ===== verification/CaptureReplay.v ===== *)
(** * A live capture, replayed

    services/ingestion/main.cpp twice: live with [--record], then with [--replay]
    on the file the first run has left.  What is replayed is what was received,
    but for the trades whose price is no finite number: their lines are in the
    file, and no reader accepts them. *)
From S2P Require Import Prelude CxxStrings Config MarketEvent Json JsonTree MarketEventJson EventRecorder.
From S2P Require Import BinanceTradeParser BoundedQueue Interfaces IngestionPipeline PipelineInvariant PipelineProperties.
From S2P Require Import ReplaySource PipelineReplay Kafka KafkaProperties PipelineKafka EventTypes FineSource.
From S2P Require Import IngestionService ServiceInvariant ServiceDemo ServiceProperties ServiceReplay ConsumerService.
From S2P Require Import LiveSource LiveProperties SourceSteps FineService LiveService ReplayService FineProperties EndToEnd.

(** ** The lines of typed events *)
Section Lines.
Context `{JsonLaws}.

Definition not_finite (e : MarketEvent) : bool := negb (is_finite (price e)).

(** The capture line of a typed event, and what a replay makes of it. *)
Definition captured_as (e : MarketEvent) (l : string) : Prop :=
  event_line e = Ok l /\ free_of newline l = true /\ event_of_line l = readable e /\
  is_fatal l = false /\ ReplaySource.is_malformed l = not_finite e.

Lemma typed_captured e : typed e -> exists l, captured_as e l.
Proof.
  intros He. destruct (typed_line e He) as (l & Hl & Hne & Hfree). exists l.
  destruct (decode_line e l He Hl) as [Hd [j Hj]]. unfold decode in Hd. rewrite Hj in Hd.
  assert (Hc : classify l = match readable e with Some e' => Event e' | None => ReplaySource.Malformed end).
  { unfold classify. rewrite Hj, Hd. by destruct l. }
  unfold captured_as, event_of_line, is_fatal, ReplaySource.is_malformed, not_finite. rewrite Hc.
  unfold readable. by destruct (is_finite (price e)).
Qed.

Lemma typed_lines es : Forall typed es -> exists ls, Forall2 captured_as es ls.
Proof.
  induction 1 as [|e es He _ [ls IH]]; [by exists []|].
  destruct (typed_captured e He) as [l Hl]. exists (l :: ls). by constructor.
Qed.

Lemma captured_lines es ls : Forall2 captured_as es ls ->
  getlines newline (text_of_lines ls) = ls /\ replayed_events ls = omap readable es /\
  Forall (fun l => is_fatal l = false) ls /\ malformed_count ls = count not_finite es.
Proof.
  induction 1 as [|e l es ls (_ & Hfree & He & Hf & Hm) _ (IH1 & IH2 & IH3 & IH4)]; [done|]. split_and!.
  - cbn [text_of_lines]. by rewrite getlines_cons, IH1.
  - unfold replayed_events in *. cbn. by rewrite He, IH2.
  - by constructor.
  - rewrite malformed_count_cons, IH4, Hm. cbn. by destruct (not_finite e).
Qed.

(** What recording typed events to a new file leaves for a replay. *)
Lemma capture_of openable path es (fs0 fs1 fs2 : files) rec :
  EventRecorder_open openable path fs0 = Ok (rec, fs1) -> fs0 !! path = None ->
  Forall typed es -> record_all rec es fs1 = Ok fs2 ->
  exists text, fs2 !! path = Some text /\ replayed_events (getlines newline text) = omap readable es /\
    Forall (fun l => is_fatal l = false) (getlines newline text) /\
    malformed_count (getlines newline text) = count not_finite es /\
    length (getlines newline text) = length es.
Proof.
  unfold EventRecorder_open. destruct (openable path); [|done]. intros [= <- <-] Hnew Hes Hrec.
  destruct (typed_lines es Hes) as [ls Hls].
  destruct (record_all_lines {| out_path := path |} es ls
    (<[path := default EmptyString (fs0 !! path)]> fs0)) as (fs2' & Hr & Ht & Hsome & _).
  { eapply Forall2_impl; [exact Hls|]. by intros e l [? _]. }
  rewrite Hr in Hrec. injection Hrec as <-. cbn in Ht, Hsome.
  rewrite lookup_insert_eq, Hnew in Ht. rewrite lookup_insert_eq in Hsome.
  destruct (Hsome ltac:(eauto)) as [text E]. rewrite E in Ht. cbn in Ht. subst text.
  destruct (captured_lines es ls Hls) as (Hl & Hev & Hf & Hm).
  exists (text_of_lines ls). rewrite Hl. split_and!; try done. by rewrite (Forall2_length _ _ _ Hls).
Qed.
End Lines.

(** ** What the live service leaves *)
Lemma live_disk `{JsonLaws} `{KafkaLaws K} `{QueueLaws Queue MarketEvent}
  (brings : string -> Prop) config (u v : KafkaEventProducer K) cap rec fs tr st
  (f : fine_service LiveSource LiveSource.pc K Queue) :
  fine_runs (H0 := live_fine brings)
    (fine_begin (H0 := live_fine brings) (LiveSource_new config) u cap (Some rec) fs) tr st f ->
  main (svc f) = Exited v ->
  record_all rec (omap good (messages (source_trace st))) fs = Ok (disk (pipe (svc f))).
Proof.
  intros Hr Hx. destruct (live_coarse brings config u cap (Some rec) fs tr st f Hr) as (_ & a & Hc).
  destruct (live_exited_given brings config u cap (Some rec) fs tr st f v Hr Hx) as [Hd _].
  destruct (runs_exec _ _ _ _ _ _ _ Hc) as [He Ho].
  assert (Hx' : main (coarse a (svc f)) = Exited v) by exact Hx. rewrite Hx' in Ho.
  destruct (disk_exec _ _ _ _ _ _ _ He) as [Hopt Hdisk]. apply inv_exec in He.
  destruct (stopped_drained cap tr _ He (proj1 Ho)) as [Hi _].
  pose proof (inv_captured _ _ _ He) as Hcap. unfold captured in Hcap. rewrite Hopt, Hi in Hcap.
  cbn in Hcap. rewrite app_nil_r in Hcap. rewrite <-Hd, Hcap. exact Hdisk.
Qed.

(** ** What a replay does with a file that holds no fatal line *)
Lemma replay_unharmed `{JsonLaws} `{KafkaLaws K} `{QueueLaws Queue MarketEvent}
  (read_file : string -> option string) path text (u : KafkaEventProducer K) cap r fs tr st
  (f : fine_service ReplaySource replay_pc K Queue) :
  read_file path = Some text -> Forall (fun l => is_fatal l = false) (getlines newline text) ->
  fine_runs (H0 := replay_fine read_file)
    (fine_begin (H0 := replay_fine read_file) (ReplaySource_new path) u cap r fs) tr st f ->
  main (svc f) <> Died.
Proof.
  intros Hfile Hf Hr Hd.
  destruct (fine_died (H1 := replay_fine read_file) (FineLaws0 := replay_fine_laws read_file path)
    (ReplaySource_new path) u cap r fs tr st f eq_refl Hr Hd) as [(x & l & Hl & Hx)|(s0 & x & s' & -> & Hs)].
  - unfold file_lines in Hl. rewrite Hfile in Hl. rewrite Forall_forall in Hf.
    specialize (Hf l Hl). unfold is_fatal in Hf. by rewrite Hx in Hf.
  - cbn in Hs. unfold ReplaySource.start, ifstream_open in Hs. cbn in Hs. by rewrite Hfile in Hs.
Qed.

(** ** A run: the capture of [live_runs_exited], replayed *)
Definition recording : EventRecorder := {| out_path := "a.jsonl" |}.
Definition live_line : string :=
  match @event_line tree_ops liveEvent with Ok l => l | Throw _ => EmptyString end.
Definition live_text : string := text_of_lines [live_line].
Definition new_files : files := {["a.jsonl"%string := EmptyString]}.
Definition live_files : files := {["a.jsonl"%string := live_text]}.
Definition againEvent : MarketEvent := set_ingest_time 5 (restored liveEvent).

Definition again_published : KafkaEventProducer broker :=
  match @publish_event tree_ops broker _ demo_producer againEvent with
  | Ok (_, p) => p
  | Throw _ => demo_producer
  end.
Definition again_flushed : KafkaEventProducer broker := flush_producer 10000 again_published.

Definition again_at (q : replay_pc) (pc : main_pc (KafkaEventProducer broker)) s u n mark
    finished running stopped i w : fine_service ReplaySource replay_pc broker (BoundedQueue MarketEvent) :=
  Fine (Svc pc false 7 [] (St (svc_members s u n mark finished running stopped) i w OwnerIdle ∅))
    q false.
Definition again_exited : fine_service ReplaySource replay_pc broker (BoundedQueue MarketEvent) :=
  Fine (Svc (Exited (KafkaEventProducer_destroy again_flushed)) false 7
      [FinalLine [1; 1; 0; 1; 4; 1; 0]%Z]
      (St (svc_members (ReplaySource.stop (ReplaySource.stop at_end)) again_flushed 1 1 true false true)
        IngestDone PublishDone Destroyed ∅)) NotInNext false.
Definition again_trace : list event_label :=
  [Started; Quiet; Quiet; Delivered againEvent; Quiet; Quiet; Enqueued againEvent;
   Quiet; Attempted againEvent true; Quiet; SourceEnded; Quiet; StopRequested;
   Quiet; Quiet; Quiet; Quiet; Flushed; Quiet; Quiet; StopRequested; Quiet].

Section Again.
#[local] Existing Instance tree_ops.
Context (rf : string -> option string) (Hrf : rf "a.jsonl"%string = Some live_text).
#[local] Instance again_replay : FineSource ReplaySource replay_pc Z := replay_fine rf.

Tactic Notation "again_inner" hyp(E) :=
  eapply fine_run_step in E; [|eapply (fine_inner _ _ _ _ _ _ _ 5%Z); [reflexivity..|vm_compute; reflexivity]].

Lemma again_runs_exited :
  fine_runs (fine_begin (ReplaySource_new "a.jsonl") demo_producer 4 None ∅) again_trace replay_steps
    again_exited.
Proof.
  pose proof (fine_refl (fine_begin (ReplaySource_new "a.jsonl") demo_producer 4 None ∅)) as E.
  eapply fine_run_step in E; [|eapply fine_main; [reflexivity|eapply main_start;
    cbn; unfold ReplaySource.start, ifstream_open; cbn; rewrite Hrf; reflexivity]].
  fine_owner E owner_spawn_ingest. fine_owner E owner_spawn_publish. fine_do E (main_started _ _ _ _ 7).
  live_now E (again_at outside PollFlag (source_on live_text) demo_producer 0 0 false true false AtNext AtPop).
  unfold again_at in E. fine_by E fine_call. again_inner E. again_inner E.
  eapply fine_run_step in E; [|eapply (fine_gives _ _ _ _ _ _ _ 5%Z againEvent);
    [reflexivity..|vm_compute; reflexivity]].
  live_now E (again_at outside PollFlag after_line demo_producer 0 0 false true false (Received againEvent) AtPop).
  unfold again_at in E. fine_ingest E ingest_count. fine_ingest E ingest_record. fine_ingest E ingest_push.
  fine_publish E publish_pop by reflexivity.
  fine_publish E (publish_publish _ _ _ _ _ true again_published) by (vm_compute; by split).
  fine_publish E publish_count by idtac.
  live_now E (again_at outside PollFlag after_line again_published 1 1 false true false AtNext AtPop).
  unfold again_at in E. fine_by E fine_call. again_inner E.
  eapply fine_run_step in E; [|eapply (fine_ends _ _ _ _ _ _ _ 5%Z); [reflexivity..|vm_compute; reflexivity]].
  fine_ingest E ingest_finish. fine_do E main_poll_flag. fine_do E main_poll_finished. fine_by E fine_flag.
  eapply fine_run_step in E; [|eapply fine_stop; [reflexivity|eapply main_request_stop]].
  live_now E (again_at outside AtStop (ReplaySource.stop at_end) again_published 1 1 true true false IngestDone AtPop).
  unfold again_at in E. fine_do E main_stop. fine_owner E owner_join_ingest. fine_owner E owner_shutdown.
  fine_publish E publish_pop by reflexivity. fine_publish E publish_flush by reflexivity.
  fine_owner E owner_join_publish. fine_owner E owner_mark_stopped.
  live_now E (again_at outside Stopping (ReplaySource.stop at_end) again_flushed 1 1 true false true
    IngestDone PublishDone).
  unfold again_at in E. fine_do E main_stopped. do 7 (fine_do E main_read_final). fine_do E main_final.
  fine_by E fine_flag. eapply fine_run_step in E; [|eapply fine_stop; [reflexivity|eapply main_destroy]].
  fine_owner E owner_destructor_stop. fine_do E main_exit.
  exact E.
Qed.
End Again.

(** ** Properties *)

(** C7: what was captured live is replayed.  The live service, recording to a new
    file, has returned; another service replays the file it has left.  That service
    never dies, and when it has returned it has published, in order and up to
    milliseconds and the receipt time, the first of the trades the live service had
    parsed from the messages received, and all of them if no signal was handled,
    except those with a price that is no finite number; librdkafka was given one
    message for each successful publish, and the last line gives the numbers of
    events read, published and failed. *)
Theorem live_capture_replayed `{JsonLaws} `{KafkaLaws K} `{QueueLaws Queue MarketEvent}
  (brings : string -> Prop) openable path (fs0 fs1 : files) rec config (u v : KafkaEventProducer K) cap tr st
  (f : fine_service LiveSource LiveSource.pc K Queue)
  (Hopen : EventRecorder_open openable path fs0 = Ok (rec, fs1)) (Hnew : fs0 !! path = None)
  (Hr : fine_runs (H0 := live_fine brings)
    (fine_begin (H0 := live_fine brings) (LiveSource_new config) u cap (Some rec) fs1) tr st f)
  (Hx : main (svc f) = Exited v)
  (u' : KafkaEventProducer K) cap' r' fs' tr' st' (f' : fine_service ReplaySource replay_pc K Queue)
  (Hr' : fine_runs (H0 := replay_fine (fun p => disk (pipe (svc f)) !! p))
    (fine_begin (H0 := replay_fine (fun p => disk (pipe (svc f)) !! p)) (ReplaySource_new path) u' cap' r' fs')
    tr' st' f')
  (Hok : producer_ok u') :
  let trades := omap good (messages (source_trace st)) in
  let again := omap readable trades in
  (Z.of_nat (length trades) < two64)%Z ->
  main (svc f') <> Died /\
  forall v', main (svc f') = Exited v' ->
    exists n bs, n <= length again /\ (shutdown_requested (svc f') = false -> n = length again) /\
      length bs = n /\ untimed <$> attempted tr' = untimed <$> take n again /\
      outbox (producer_ v') =
        outbox (producer_ u') ++ sent_messages (topic (pconfig_ u')) (zip (take n again) bs) /\
      exists mark succeeded failed, List.last (printed (svc f')) (StatsLine []) =
        FinalLine [Z.of_nat n; Z.of_nat (count id bs); Z.of_nat (count negb bs);
                   mark; Z.of_nat cap'; succeeded; failed].
Proof.
  intros trades again Hn.
  pose proof (live_disk brings config u v cap rec fs1 tr st f Hr Hx) as Hdisk.
  destruct (capture_of openable path trades fs0 fs1 _ rec Hopen Hnew (good_typed _) Hdisk)
    as (text & Hf & Hev & Hfatal & _ & Hlen). fold again in Hev.
  split; [exact (replay_unharmed _ path text u' cap' r' fs' tr' st' f' Hf Hfatal Hr')|]. intros v' Hx'.
  destruct (replay_exit _ path text u' v' cap' r' fs' tr' st' f' Hf Hr' Hx' Hok) as
    (pre & rest & Hl & Hrest & Ha & bs & Hbs & Ho & Hlast); [by rewrite Hlen|].
  rewrite Hl, replayed_app in Hev. set (n := length (replayed_events pre)).
  assert (Hpre : replayed_events pre = take n again) by (unfold n; by rewrite <-Hev, take_app_length).
  exists n, bs. rewrite <-Hpre. split_and!; try done.
  - apply (f_equal length) in Hev. rewrite length_app in Hev. unfold n. lia.
  - intros Hg. rewrite (Hrest Hg), app_nil_r in Hev. unfold n. by rewrite Hev.
Qed.

Lemma live_capture_replayed_witness :
  exists n bs, n = 1 /\ length bs = n /\
    untimed <$> [againEvent] = untimed <$> take n (omap readable [liveEvent]) /\
    outbox (producer_ (KafkaEventProducer_destroy again_flushed)) =
      @sent_messages tree_ops "t" (zip (take n (omap readable [liveEvent])) bs).
Proof.
  assert (Hrec : @record_opt tree_ops (Some recording) liveEvent new_files = Ok live_files) by (vm_compute; reflexivity).
  assert (Hopen : EventRecorder_open (fun _ => true) "a.jsonl" ∅ = Ok (recording, new_files))
    by (vm_compute; reflexivity).
  assert (Ht : omap (@good tree_ops) (messages (source_trace live_steps_exited)) = [liveEvent])
    by (vm_compute; reflexivity).
  destruct (@live_capture_replayed tree_ops tree_laws broker _ _ _ _ _ one_trade (fun _ => true) "a.jsonl"
    ∅ new_files recording default_config demo_producer
    (KafkaEventProducer_destroy live_flushed) 4 _ _ _ Hopen eq_refl
    (live_runs_exited one_trade eq_refl (Some recording) _ _ Hrec) eq_refl
    demo_producer 4 None ∅ again_trace replay_steps again_exited)
    as [_ Hexit].
  - exact (again_runs_exited (fun p => live_files !! p) eq_refl).
  - split; [cbn; lia|reflexivity].
  - rewrite Ht. reflexivity.
  - rewrite Ht in Hexit. destruct (Hexit (KafkaEventProducer_destroy again_flushed) eq_refl)
      as (n & bs & _ & Hg & Hlen & Ha & Ho & _). exists n, bs.
    split; [rewrite (Hg eq_refl); vm_compute; reflexivity|]. split; [exact Hlen|].
    split; [exact Ha|exact Ho].
Defined.
